(* ===== verification/_CoqProject ===== *)
-Q . S2P
Prelude.v
Bytes.v
Resp.v
RespProofs.v
Double.v
SkipList.v
SkipListInv.v
SkipListInsert.v
SkipListDelete.v
SkipListProofs.v
SkipListQueries.v
SkipListAny.v
SkipListRefine.v
Db.v
DbProofs.v
DbRefine.v
Rdb.v
RdbCodec.v
RdbProofs.v
RdbFile.v
RdbTotal.v
ZsetProofs.v
FloatText.v
Exec.v
ExecLogic.v
StringCmds.v
KeyCmds.v
GlobProofs.v
SortProofs.v
HashCmds.v
ListCmds.v
ListProofs.v
SetCmds.v
ZsetCmds.v
ServerCmds.v
Dispatch.v
CommandSafety.v
HandlerSafety.v
DispatchProofs.v
CommandFrame.v
DispatchBudget.v
Samples.v
CommandSpecs.v
ZsetSpecs.v
Findings.v
Transactions.v
Server.v
ServerInv.v
ServerSafety.v
LoopSafety.v
LoopProofs.v
Main.v
MainProofs.v
Pipeline.v
Machine.v
