(* ===== verification/Prelude.v ===== *)
(** * tiny-redis-server: a verification development

    The program is a single-threaded server that speaks the RESP2 protocol and
    keeps its data in memory.  Bytes from a socket go to the request parser of
    the connection ([src/src/resp.cpp]); each complete request goes to [Dispatch]
    ([src/src/commands.cpp]), which works on the database ([src/src/db.cpp]), its
    values ([src/include/value.h]) and, for sorted sets, the skip list
    ([src/src/zskiplist.cpp]), and appends the reply to the buffer of the
    connection.  The event loop ([src/src/server.cpp]) owns the connections, reads
    and writes them when the kernel reports them ready, expires keys between
    batches and stops on a signal or on SHUTDOWN.  Snapshots ([src/src/rdb.cpp])
    are written by SAVE, by a forked child for BGSAVE and at shutdown, and are
    read back by [main] ([src/src/main.cpp]) before the loop starts.

    ** Which file models what

    - Shared: [Prelude] (machine integers, lists, tactics, hints), [Bytes] (the
      string helpers of [commands.cpp] and the conversions of the C library),
      [Double] (IEEE 754 scores as [spec_float]), [FloatText] ([strtod], [%.17g]
      and the functions of [commands.cpp] on them).
    - Parser and encoders, [resp.h] and [resp.cpp]: [Resp], proofs in [RespProofs].
    - Skip list, [zskiplist.h] and [zskiplist.cpp]: [SkipList], with the nodes in
      a heap and the links as locations.  [SkipListInv], [SkipListInsert],
      [SkipListDelete], [SkipListProofs], [SkipListQueries] show the invariant and
      what each operation does; [SkipListAny] covers keys without an order and the
      destructor; [SkipListRefine] packs the result as the class [ZIndex], against
      which the clients of the skip list are proved.
    - Database, [value.h], [db.h] and [db.cpp]: [Db], proofs in [DbProofs]
      (accounting) and [DbRefine] (expiry).
    - Snapshots, [rdb.h] and [rdb.cpp]: [Rdb] (the codec), [RdbFile] (the files and
      the child process as a step relation), proofs in [RdbCodec], [RdbProofs],
      [RdbTotal].
    - Commands, [commands.h] and [commands.cpp]: [Exec] (state and effects),
      [StringCmds], [KeyCmds], [HashCmds], [ListCmds], [SetCmds], [ZsetCmds],
      [ServerCmds] (one definition for each branch of [Dispatch]), [Dispatch].
      [ExecLogic] is a program logic for them; [CommandSafety], [HandlerSafety],
      [DispatchProofs], [CommandFrame], [DispatchBudget] show safety and what
      commands leave alone; [GlobProofs], [SortProofs], [ListProofs],
      [ZsetProofs] are about their loops; [CommandSpecs], [ZsetSpecs],
      [Transactions] about what they do; [Samples] and [Findings] hold concrete
      sessions.
    - Event loop, [server.h] and [server.cpp]: [Server], with the connections in a
      heap, the table that owns them and the kqueue registrations that point to
      them.  [ServerInv], [ServerSafety], [LoopSafety], [LoopProofs] show safety;
      [Pipeline] and [Machine] show what clients observe.
    - Entry point, [main.cpp], and the constructor, [Start] and the destructor of
      the server: [Main], proofs in [MainProofs].

    ** How the code is represented

    A [std::string] is a list of [ascii].  Integers are [Z] with their width written
    out: [u64] and [u32] wrap, signed overflow is undefined behaviour.  A hash
    table is a [gmap]; where the code walks one, the order is an argument.
    Commands run in the monad [M] over a [World]; an [Undef] result names the kind
    of undefined behaviour.  Handlers of the loop run in the monad [SM] over a
    [Server]; they may also be [Stalled], when the script of the kernel's answers
    ends inside a loop that waits for one.  Pointers to values are keys, pointers
    to connections and nodes are addresses, so aliasing and dangling are visible.

    What the code takes from outside is an argument: the class [Oracle] (clock,
    random numbers, iteration orders, the effect of a move, system calls of a save,
    [fork], the format of [long double]), asked with a new number each time, and
    the scripts of [read], [write], [accept] and [kevent].  [OracleLaws] has what
    the theorems assume: orders and shuffles are permutations, a moved-from value
    keeps its alternative, a draw fits in 32 bits, and the clock is at least one
    second past the epoch and fits in 64 bits.  [Samples] has an instance.

    ** What the theorems show

    - Memory safety.  [dispatch_keeps_server]: every command keeps the invariant of
      the data or stops in a kind of undefined behaviour that [fault_table] lists
      for it, and [faults_are_reachable] runs each of those.  [run_is_safe]: the
      loop never uses a freed connection, under conditions on the kernel and the
      clients that [loop_anomalies] shows to be needed.  [load_any_file],
      [destructor_frees_all], [feed_total]: arbitrary dumps, scores and input are
      handled within bounds.
    - Refinement.  [skiplist_refines] (a sorted list), [expiry_refines_ttl_map] (a
      map with deadlines), [zadd_zrange] (a dictionary of scores),
      [loop_refines_machine] (clients served one request at a time from one
      store), [transaction_runs_commands] (a transaction is its commands).
    - Round trips.  [save_load_roundtrip], [restart_restores],
      [chunked_stream_roundtrip], [options_roundtrip]; with them
      [corrupt_byte_rejected], [bgsave_atomic] and [save_outcome] for the dump file.
    - Liveness.  [replies_delivered]: every reply arrives.
    - Functional behaviour of commands: [set_px_get], [incrby_exact], [keys_exact],
      [lrange_exact], [lrem_exact], [ltrim_exact], [smembers_exact],
      [glob_decides], [inline_request_tokens], [active_expire_exact],
      [accounting_exact], [writable_keeps_stream], [every_command_has_a_branch].
    - Deviations from the documentation or the intent, each as a theorem:
      [append_not_accounted], [reverse_range_negative_offset],
      [concurrent_bgsave_corrupts], [anomalies_happen], [text_anomalies],
      [startup_anomalies], [loop_anomalies].

    ** Fuel and bounds

    Recursion that is not structural has fuel, and the theorems prove it enough.
    A walk along a level of a skip list has the size of the heap, as no node is
    met twice.  The parser has one more than the bytes in the buffer, as each
    request takes at least one.  A counted loop of the loader has one more than the
    bytes of the file, as each item takes a byte or ends the loop
    ([load_any_file]).  [GlobMatch] has the length of the text, plus
    one, times the sum of both lengths, plus two, as every retry starts one
    character later ([glob_decides]).  [Dispatch] has 2, as EXEC is never queued
    ([dispatch_two_levels]).  [CloseAll] has the number of connections.  The
    lengths of sorted sets are bounded by the number of arguments ever received,
    which is the [N] of the theorems on the loop and must stay in 64 bits.

    ** Not modelled

    - Calls whose effect is outside the model: [SetNonBlocking], socket options
      and the backlog of [listen]; the installation of signal handlers (a signal
      is an event of the loop); lines printed on standard error while the loop
      runs.  Texts of [strerror] are arguments.
    - A child process steps in the relation of [RdbFile], where it interleaves
      with the parent and other children; inside [Run] it is only started and
      reaped.
    - The null pointers whose [end()] HGET, HMGET, HSTRLEN, ZSCORE and ZREM take on
      a missing key are given the result that comparing two end iterators has.
    - The field [in] of a connection, which nothing uses, and the declarations of
      the headers that define nothing. *)

From stdpp Require Export base tactics gmap strings list fin_maps.
From Stdlib Require Export ZArith Lia Ascii.

(** ** Bytes

    A [std::string] is a sequence of 8-bit characters with no terminator of its
    own; it is modelled as [list ascii].  [lit] turns a literal of the source
    into such a sequence. *)
Abbreviation bytes := (list ascii).

Definition lit (s : string) : bytes := String.list_ascii_of_string s.

(** ** Machine integers *)

Definition LLONG_MAX : Z := 9223372036854775807%Z.
Definition LLONG_MIN : Z := (-9223372036854775808)%Z.
Definition U64 : Z := 18446744073709551616%Z.
Definition U32 : Z := 4294967296%Z.

(** [unsigned long], [size_t] and [uint64_t] arithmetic wraps modulo 2^64,
    [uint32_t] modulo 2^32. *)
Definition u64 (z : Z) : Z := (z mod U64)%Z.
Definition u32 (z : Z) : Z := (z mod U32)%Z.

Definition in_i64 (z : Z) : bool := (LLONG_MIN <=? z)%Z && (z <=? LLONG_MAX)%Z.

(** The conversion [(long long)] of an unsigned 64-bit value (two's complement). *)
Definition i64_of_u64 (z : Z) : Z :=
  if (z <=? LLONG_MAX)%Z then z else (z - U64)%Z.

(** Length of a byte string or list as a machine-size integer. *)
Definition zlen {A} (l : list A) : Z := Z.of_nat (length l).

(** [s.substr(pos, n)] for [pos <= s.size()]. *)
Definition substr {A} (s : list A) (pos n : nat) : list A := take n (drop pos s).

Create HintDb tr.
Create Rewrite HintDb tr.

(** Longest prefix whose elements satisfy [p], and the rest: the shape of every
    scanning loop [while (i < n && p(s[i])) ++i]. *)
Fixpoint span {A} (p : A -> bool) (l : list A) : list A * list A :=
  match l with
  | [] => ([], [])
  | x :: r => if p x then let '(a, b) := span p r in (x :: a, b) else ([], l)
  end.

(** Insertion before index [n], removal of index [n]. *)
Definition ins_at {A} (n : nat) (x : A) (l : list A) : list A := take n l ++ x :: drop n l.
Definition del_at {A} (n : nat) (l : list A) : list A := take n l ++ drop (S n) l.

(** ** Tactics *)

(** Case analysis on the scrutinee of a [match] or [if], in the goal or in a
    hypothesis, keeping the equation. *)
Ltac case_goal :=
  match goal with
  | |- context [match ?x with _ => _ end] =>
      lazymatch x with
      | context [match _ with _ => _ end] => fail
      | _ => destruct x eqn:?
      end
  end.

Ltac case_hyp H :=
  match type of H with
  | context [match ?x with _ => _ end] =>
      lazymatch x with
      | context [match _ with _ => _ end] => fail
      | _ => destruct x eqn:?
      end
  end.

(** Equality of two concatenations up to associativity. *)
Ltac lassoc := repeat (progress (simpl; rewrite <- ?app_assoc)); simpl; reflexivity.

(** Lengths of concatenations as linear arithmetic. *)
Ltac len_solve :=
  unfold zlen in *;
  repeat (progress (rewrite ?length_app, ?length_drop, ?length_take, ?length_map, ?length_insert,
    ?length_replicate, ?length_rev in *; cbn [length] in *)); lia.

(** Turn boolean comparisons in the context into propositions. *)
Ltac breflect :=
  repeat match goal with
  | H : (_ && _)%bool = true |- _ => apply andb_prop in H; destruct H
  | H : (_ || _)%bool = false |- _ => apply orb_false_elim in H; destruct H
  | H : negb _ = true |- _ => apply negb_true_iff in H
  | H : negb _ = false |- _ => apply negb_false_iff in H
  | H : (_ <? _)%Z = true |- _ => apply Z.ltb_lt in H
  | H : (_ <? _)%Z = false |- _ => apply Z.ltb_ge in H
  | H : (_ <=? _)%Z = true |- _ => apply Z.leb_le in H
  | H : (_ <=? _)%Z = false |- _ => apply Z.leb_gt in H
  | H : (_ =? _)%Z = true |- _ => apply Z.eqb_eq in H
  | H : (_ =? _)%Z = false |- _ => apply Z.eqb_neq in H
  | H : (_ <? _)%nat = true |- _ => apply Nat.ltb_lt in H
  | H : (_ <? _)%nat = false |- _ => apply Nat.ltb_ge in H
  | H : (_ <=? _)%nat = true |- _ => apply Nat.leb_le in H
  | H : (_ <=? _)%nat = false |- _ => apply Nat.leb_gt in H
  | H : (_ =? _)%nat = true |- _ => apply Nat.eqb_eq in H
  | H : (_ =? _)%nat = false |- _ => apply Nat.eqb_neq in H
  | H : bool_decide _ = true |- _ => apply bool_decide_eq_true in H
  | H : bool_decide _ = false |- _ => apply bool_decide_eq_false in H
  end.

(** ** Generic lemmas *)

Lemma u64_small z : (0 <= z < U64)%Z -> u64 z = z.
Proof. intros. unfold u64. by apply Z.mod_small. Qed.

Lemma u64_range z : (0 <= u64 z < U64)%Z.
Proof. apply Z.mod_pos_bound. reflexivity. Qed.

Lemma u64_add_l a b : u64 (u64 a + b) = u64 (a + b).
Proof. unfold u64. by rewrite Zplus_mod_idemp_l. Qed.

Lemma u64_add_r a b : u64 (a + u64 b) = u64 (a + b).
Proof. unfold u64. by rewrite Zplus_mod_idemp_r. Qed.

Lemma u32_small z : (0 <= z < U32)%Z -> u32 z = z.
Proof. intros. unfold u32. by apply Z.mod_small. Qed.

Lemma in_i64_spec z : in_i64 z = true <-> (LLONG_MIN <= z <= LLONG_MAX)%Z.
Proof. unfold in_i64. rewrite andb_true_iff, !Z.leb_le. reflexivity. Qed.

Lemma zlen_nonneg {A} (l : list A) : (0 <= zlen l)%Z.
Proof. unfold zlen. lia. Qed.

Lemma zlen_to_nat {A} (l : list A) : Z.to_nat (zlen l) = length l.
Proof. unfold zlen. lia. Qed.

Lemma zlen_app {A} (l k : list A) : zlen (l ++ k) = (zlen l + zlen k)%Z.
Proof. unfold zlen. rewrite length_app. lia. Qed.

Lemma zlen_cons {A} (x : A) l : zlen (x :: l) = (1 + zlen l)%Z.
Proof. unfold zlen. simpl. lia. Qed.

Lemma zlen_nil {A} : zlen (@nil A) = 0%Z.
Proof. reflexivity. Qed.

Lemma substr_length {A} (s : list A) pos n :
  pos + n <= length s -> length (substr s pos n) = n.
Proof. intros. unfold substr. rewrite length_take, length_drop. lia. Qed.

Lemma substr_app_mid {A} (a m r : list A) :
  substr (a ++ m ++ r) (length a) (length m) = m.
Proof. unfold substr. by rewrite drop_app_length, take_app_length. Qed.

Lemma Forall_app_2 {A} (P : A -> Prop) l k :
  Forall P l -> Forall P k -> Forall P (l ++ k).
Proof. rewrite Forall_app. done. Qed.

Lemma ins_at_length {A} n (x : A) l : (n <= length l)%nat -> length (ins_at n x l) = S (length l).
Proof. intros. unfold ins_at. rewrite length_app, length_take. simpl. rewrite length_drop. lia. Qed.

Lemma ins_at_perm {A} n (x : A) l : ins_at n x l ≡ₚ x :: l.
Proof. unfold ins_at. rewrite <- Permutation_middle. by rewrite take_drop. Qed.

Lemma ins_at_lookup {A} n (x : A) l i :
  (n <= length l)%nat ->
  ins_at n x l !! i = if decide (i < n)%nat then l !! i
                      else if decide (i = n) then Some x else l !! (i - 1)%nat.
Proof.
  intros Hn. unfold ins_at.
  assert (length (take n l) = n) as Ht by (rewrite length_take; lia).
  destruct (decide (i < n)%nat).
  - rewrite lookup_app_l by lia. by rewrite lookup_take_lt by lia.
  - rewrite lookup_app_r by lia. rewrite Ht.
    destruct (decide (i = n)) as [->|]; [by rewrite Nat.sub_diag|].
    destruct (i - n)%nat as [|k] eqn:E; [lia|]. simpl. rewrite lookup_drop. f_equal. lia.
Qed.

Lemma del_at_length {A} n (l : list A) : (n < length l)%nat -> length (del_at n l) = (length l - 1)%nat.
Proof. intros. unfold del_at. rewrite length_app, length_take, length_drop. lia. Qed.

Lemma del_at_lookup {A} n (l : list A) i :
  (n < length l)%nat ->
  del_at n l !! i = if decide (i < n)%nat then l !! i else l !! S i.
Proof.
  intros Hn. unfold del_at.
  assert (length (take n l) = n) as Ht by (rewrite length_take; lia).
  destruct (decide (i < n)%nat).
  - rewrite lookup_app_l by lia. by rewrite lookup_take_lt by lia.
  - rewrite lookup_app_r by lia. rewrite Ht, lookup_drop. f_equal. lia.
Qed.

Lemma del_at_perm {A} n (x : A) l : l !! n = Some x -> l ≡ₚ x :: del_at n l.
Proof.
  intros Hx. unfold del_at. rewrite <- (take_drop_middle l n x Hx) at 1.
  by rewrite <- Permutation_middle.
Qed.

Lemma span_spec {A} (p : A -> bool) l a r :
  span p l = (a, r) ->
  l = a ++ r /\ Forall (fun x => p x = true) a /\
  match r with [] => True | y :: _ => p y = false end.
Proof.
  revert a r. induction l as [|x l IH]; intros a r; simpl.
  - intros [= <- <-]. auto.
  - destruct (p x) eqn:Hp.
    + destruct (span p l) as [a' b'] eqn:E. intros [= <- <-].
      destruct (IH _ _ eq_refl) as (-> & Ha & Hb). auto.
    + intros [= <- <-]. auto.
Qed.

Lemma span_app {A} (p : A -> bool) a r :
  Forall (fun x => p x = true) a ->
  match r with [] => True | y :: _ => p y = false end ->
  span p (a ++ r) = (a, r).
Proof.
  induction 1 as [|x a Hx _ IH]; intros Hr; simpl.
  - destruct r; simpl; [done|]. by rewrite Hr.
  - rewrite Hx, IH; done.
Qed.

#[export] Hint Rewrite @zlen_app @zlen_cons @zlen_nil : tr.
#[export] Hint Resolve zlen_nonneg Forall_app_2 : tr.
