(* ===== verification/Bytes.v ===== *)
(** * Byte strings: case mapping, order, decimal text

    The helpers of [src/src/commands.cpp] on strings ([ToLower], [ToUpper],
    [ParseIntStrict]) and what the sources use of the C and C++ libraries on
    text: [strtoll], [std::stoll], [snprintf] with ["%lld"] and ["%zu"],
    [std::to_string] and the order of [std::string]. *)

From S2P Require Import Prelude.
Local Open Scope Z_scope.

(** ** Characters *)

Definition byte_val (c : ascii) : Z := Z.of_N (N_of_ascii c).
Definition byte_of (z : Z) : ascii := ascii_of_N (Z.to_N (z mod 256)).

Definition kCR : ascii := "013"%char.
Definition kLF : ascii := "010"%char.
Definition crlf : bytes := [kCR; kLF].

Definition isdigit (c : ascii) : bool := (48 <=? byte_val c) && (byte_val c <=? 57).

(** [isspace] of the "C" locale. *)
Definition isspace (c : ascii) : bool :=
  (byte_val c =? 32) || ((9 <=? byte_val c) && (byte_val c <=? 13)).

Definition lower_char (c : ascii) : ascii :=
  if (65 <=? byte_val c) && (byte_val c <=? 90) then byte_of (byte_val c + 32) else c.
Definition upper_char (c : ascii) : ascii :=
  if (97 <=? byte_val c) && (byte_val c <=? 122) then byte_of (byte_val c - 32) else c.

Definition ToLower (s : bytes) : bytes := map lower_char s.
Definition ToUpper (s : bytes) : bytes := map upper_char s.

(** ** Order: [std::string] compares as [memcmp] does, then by length *)

Fixpoint bytes_compare (a b : bytes) : comparison :=
  match a, b with
  | [], [] => Eq
  | [], _ :: _ => Lt
  | _ :: _, [] => Gt
  | x :: a', y :: b' =>
      match byte_val x ?= byte_val y with
      | Eq => bytes_compare a' b'
      | c => c
      end
  end.

Definition bytes_ltb (a b : bytes) : bool :=
  match bytes_compare a b with Lt => true | _ => false end.
Definition bytes_leb (a b : bytes) : bool :=
  match bytes_compare a b with Gt => false | _ => true end.

(** ** Decimal text *)

Definition digit_char (d : Z) : ascii := byte_of (48 + d).

Fixpoint print_digits (fuel : nat) (n : Z) (acc : bytes) : bytes :=
  match fuel with
  | O => acc
  | S f =>
      let acc' := digit_char (n mod 10) :: acc in
      if n <? 10 then acc' else print_digits f (n / 10) acc'
  end.

(** ["%zu"] and [std::to_string] on unsigned integers. *)
Definition print_unsigned (n : Z) : bytes :=
  print_digits (S (Z.to_nat (Z.log2 n))) n [].

(** ["%lld"] and [std::to_string] on signed integers. *)
Definition print_signed (n : Z) : bytes :=
  if n <? 0 then "-"%char :: print_unsigned (- n) else print_unsigned n.

Definition digits_step (acc : Z) (c : ascii) : Z := acc * 10 + (byte_val c - 48).
Definition digits_val (s : bytes) : Z := fold_left digits_step s 0.

Record strtoll_result := StrtollResult {
  st_value : Z;      (* the converted value, clamped when out of range *)
  st_end : nat;      (* offset of [*endptr] *)
  st_erange : bool   (* errno == ERANGE *)
}.

(** [strtoll(s, &end, 10)]: white space, an optional sign, decimal digits. *)
Definition strtoll (s : bytes) : strtoll_result :=
  let '(ws, s1) := span isspace s in
  let '(neg, sgn, s2) :=
    match s1 with
    | c :: r => if bool_decide (c = "-"%char) then (true, 1%nat, r)
                else if bool_decide (c = "+"%char) then (false, 1%nat, r)
                else (false, 0%nat, s1)
    | [] => (false, 0%nat, s1)
    end in
  let '(ds, _) := span isdigit s2 in
  match ds with
  | [] => StrtollResult 0 0 false
  | _ :: _ =>
      let v := if neg then - digits_val ds else digits_val ds in
      let e := (length ws + sgn + length ds)%nat in
      if v >? LLONG_MAX then StrtollResult LLONG_MAX e true
      else if v <? LLONG_MIN then StrtollResult LLONG_MIN e true
      else StrtollResult v e false
  end.

(** [std::stoll(s)]; [None] stands for the exceptions [invalid_argument] and
    [out_of_range]. *)
Definition stoll (s : bytes) : option Z :=
  let r := strtoll s in
  if (st_end r =? 0)%nat then None
  else if st_erange r then None
  else Some (st_value r).

(** [ParseIntStrict(s, &out)]: [None] when it returns false. *)
Definition ParseIntStrict (s : bytes) : option Z :=
  match s with
  | [] => None
  | _ :: _ =>
      let r := strtoll s in
      if st_erange r || negb (st_end r =? length s)%nat then None
      else Some (st_value r)
  end.

(** ** Lemmas: characters *)

Lemma byte_val_range c : 0 <= byte_val c < 256.
Proof.
  unfold byte_val. pose proof (N_ascii_bounded c). lia.
Qed.

Lemma byte_val_of z : byte_val (byte_of z) = z mod 256.
Proof.
  unfold byte_val, byte_of.
  pose proof (Z.mod_pos_bound z 256 ltac:(lia)).
  rewrite N_ascii_embedding by lia. lia.
Qed.

Lemma byte_of_val c : byte_of (byte_val c) = c.
Proof.
  unfold byte_of. rewrite Z.mod_small by apply byte_val_range.
  unfold byte_val. rewrite N2Z.id. apply ascii_N_embedding.
Qed.

Lemma byte_val_inj a b : byte_val a = byte_val b -> a = b.
Proof. intros H. by rewrite <- (byte_of_val a), <- (byte_of_val b), H. Qed.

Lemma digit_char_val d : 0 <= d < 10 -> byte_val (digit_char d) = 48 + d.
Proof. intros. unfold digit_char. rewrite byte_val_of. apply Z.mod_small. lia. Qed.

Lemma digit_char_isdigit d : 0 <= d < 10 -> isdigit (digit_char d) = true.
Proof.
  intros. unfold isdigit. rewrite digit_char_val by done.
  apply andb_true_intro. split; apply Z.leb_le; lia.
Qed.

Lemma isdigit_val c : isdigit c = true -> 48 <= byte_val c <= 57.
Proof. unfold isdigit. intros H. breflect. lia. Qed.

Lemma isdigit_not_space c : isdigit c = true -> isspace c = false.
Proof.
  intros H%isdigit_val. unfold isspace.
  apply orb_false_intro; [apply Z.eqb_neq; lia|].
  apply andb_false_intro2, Z.leb_gt. lia.
Qed.

(** ** Lemmas: the order is a strict total order *)

Lemma bytes_compare_refl a : bytes_compare a a = Eq.
Proof. induction a as [|x a IH]; simpl; [done|]. by rewrite Z.compare_refl. Qed.

Lemma bytes_compare_eq a b : bytes_compare a b = Eq -> a = b.
Proof.
  revert b. induction a as [|x a IH]; intros [|y b]; simpl; try done.
  destruct (Z.compare_spec (byte_val x) (byte_val y)) as [E| |]; try done.
  intros H. f_equal; [by apply byte_val_inj | by apply IH].
Qed.

Lemma bytes_compare_antisym a b : bytes_compare b a = CompOpp (bytes_compare a b).
Proof.
  revert b. induction a as [|x a IH]; intros [|y b]; simpl; try done.
  rewrite (Z.compare_antisym (byte_val x) (byte_val y)).
  destruct (byte_val x ?= byte_val y); simpl; auto.
Qed.

Lemma bytes_compare_trans a b c :
  bytes_compare a b = Lt -> bytes_compare b c = Lt -> bytes_compare a c = Lt.
Proof.
  revert b c. induction a as [|x a IH]; intros [|y b] [|z c]; simpl; try done.
  destruct (Z.compare_spec (byte_val x) (byte_val y)) as [E1|E1|E1]; try done;
  destruct (Z.compare_spec (byte_val y) (byte_val z)) as [E2|E2|E2]; try done;
  destruct (Z.compare_spec (byte_val x) (byte_val z)) as [E3|E3|E3]; try lia; eauto.
Qed.

(** ** Lemmas: decimal text *)

Lemma print_digits_val fuel n acc :
  0 <= n < 10 ^ Z.of_nat fuel -> (0 < fuel)%nat ->
  fold_left digits_step (print_digits fuel n acc) 0 = fold_left digits_step acc n.
Proof.
  revert n acc. induction fuel as [|f IH]; intros n acc Hn Hf; [lia|].
  simpl. pose proof (Z.mod_pos_bound n 10 ltac:(lia)) as Hm.
  destruct (Z.ltb_spec n 10).
  - simpl. unfold digits_step at 2. rewrite digit_char_val by lia.
    rewrite Z.mod_small by lia. f_equal. lia.
  - assert (0 < f)%nat.
    { destruct f; [|lia]. simpl in Hn. lia. }
    rewrite Nat2Z.inj_succ, Z.pow_succ_r in Hn by lia.
    rewrite IH; [|split; [apply Z.div_pos; lia | apply Z.div_lt_upper_bound; lia]|done].
    simpl. f_equal. unfold digits_step. rewrite digit_char_val by lia.
    pose proof (Z.div_mod n 10 ltac:(lia)). lia.
Qed.

Lemma print_digits_isdigit fuel n acc :
  Forall (fun c => isdigit c = true) acc ->
  Forall (fun c => isdigit c = true) (print_digits fuel n acc).
Proof.
  revert n acc. induction fuel as [|f IH]; intros n acc Hacc; simpl; [done|].
  assert (isdigit (digit_char (n mod 10)) = true).
  { apply digit_char_isdigit, Z.mod_pos_bound. lia. }
  case_match; auto.
Qed.

Lemma print_digits_nonempty fuel n acc :
  (0 < fuel)%nat -> print_digits fuel n acc <> [].
Proof.
  assert (forall fuel n acc, acc <> [] -> print_digits fuel n acc <> []) as Hne.
  { intros f. induction f as [|f IH]; intros m acc' H; simpl; [done|].
    case_match; [done|]. by apply IH. }
  destruct fuel as [|f]; [lia|]. simpl. intros _.
  case_match; [done|]. by apply Hne.
Qed.

Lemma log2_fuel n : 0 <= n -> n < 10 ^ Z.of_nat (S (Z.to_nat (Z.log2 n))).
Proof.
  intros Hn. pose proof (Z.log2_nonneg n).
  rewrite Nat2Z.inj_succ, Z2Nat.id by done.
  destruct (Z.eq_dec n 0) as [->|]; [done|].
  apply Z.lt_le_trans with (2 ^ Z.succ (Z.log2 n)).
  - apply Z.log2_spec. lia.
  - apply Z.pow_le_mono_l. lia.
Qed.

Lemma print_unsigned_val n : 0 <= n -> digits_val (print_unsigned n) = n.
Proof.
  intros Hn. unfold digits_val, print_unsigned.
  rewrite print_digits_val; [done| |lia]. split; [done|]. by apply log2_fuel.
Qed.

Lemma print_unsigned_isdigit n : Forall (fun c => isdigit c = true) (print_unsigned n).
Proof. apply print_digits_isdigit. constructor. Qed.

Lemma print_unsigned_nonempty n : print_unsigned n <> [].
Proof. apply print_digits_nonempty. lia. Qed.

Lemma print_digits_length fuel n acc k :
  0 <= n < 10 ^ Z.of_nat k -> (0 < k)%nat ->
  (length (print_digits fuel n acc) <= k + length acc)%nat.
Proof.
  revert n acc k. induction fuel as [|f IH]; intros n acc k Hn Hk; simpl; [lia|].
  destruct (Z.ltb_spec n 10); simpl; [lia|].
  destruct k as [|[|k]]; [lia|simpl in Hn; lia|].
  rewrite Nat2Z.inj_succ, Z.pow_succ_r in Hn by lia.
  specialize (IH (n / 10) (digit_char (n mod 10) :: acc) (S k)). simpl in IH.
  etransitivity; [apply IH|lia]; [|lia].
  split; [apply Z.div_pos; lia | apply Z.div_lt_upper_bound; lia].
Qed.

Lemma print_unsigned_length n k :
  0 <= n < 10 ^ Z.of_nat k -> (0 < k)%nat -> (length (print_unsigned n) <= k)%nat.
Proof.
  intros Hn Hk. pose proof (print_digits_length (S (Z.to_nat (Z.log2 n))) n [] k Hn Hk) as H.
  simpl length in H at 2. unfold print_unsigned. lia.
Qed.

Lemma digits_step_mono ds a b :
  Forall (fun c => isdigit c = true) ds ->
  0 <= a <= b -> 0 <= fold_left digits_step ds a <= fold_left digits_step ds b.
Proof.
  intros Hd. revert a b. induction Hd as [|c ds Hc _ IH]; intros a b Hab; simpl; [lia|].
  apply IH. apply isdigit_val in Hc. unfold digits_step. lia.
Qed.

Lemma digits_val_nonneg ds :
  Forall (fun c => isdigit c = true) ds -> 0 <= digits_val ds.
Proof. intros H. unfold digits_val. pose proof (digits_step_mono ds 0 0 H). lia. Qed.

#[export] Hint Resolve print_unsigned_isdigit print_unsigned_nonempty
  byte_val_range digits_val_nonneg : tr.

(** What [strtoll] computes on a string of digits, with or without a sign. *)
Lemma isdigit_not_sign c :
  isdigit c = true -> bool_decide (c = "-"%char) = false /\ bool_decide (c = "+"%char) = false.
Proof. intros H. split; apply bool_decide_eq_false_2; intros ->; by vm_compute in H. Qed.

Lemma span_isdigit_all ds :
  Forall (fun c => isdigit c = true) ds -> span isdigit ds = (ds, []).
Proof. intros H. rewrite <- (app_nil_r ds) at 1. by apply span_app. Qed.

Lemma strtoll_digits ds :
  ds <> [] -> Forall (fun c => isdigit c = true) ds ->
  strtoll ds =
  if digits_val ds >? LLONG_MAX then StrtollResult LLONG_MAX (length ds) true
  else StrtollResult (digits_val ds) (length ds) false.
Proof.
  intros Hne Hd. destruct ds as [|c ds]; [done|].
  inversion Hd as [|? ? Hc ?]; subst. unfold strtoll. cbn [span].
  rewrite isdigit_not_space by done.
  destruct (isdigit_not_sign c Hc) as [-> ->].
  rewrite span_isdigit_all by done.
  pose proof (digits_val_nonneg (c :: ds) Hd). cbn zeta.
  destruct (_ >? _); [done|].
  destruct (Z.ltb_spec (digits_val (c :: ds)) LLONG_MIN); [|done].
  unfold LLONG_MIN in *. lia.
Qed.

Lemma strtoll_neg_digits ds :
  ds <> [] -> Forall (fun c => isdigit c = true) ds ->
  strtoll ("-"%char :: ds) =
  if - digits_val ds <? LLONG_MIN then StrtollResult LLONG_MIN (S (length ds)) true
  else StrtollResult (- digits_val ds) (S (length ds)) false.
Proof.
  intros Hne Hd. destruct ds as [|c ds]; [done|].
  unfold strtoll. cbn [span].
  change (isspace "-"%char) with false. cbn match.
  rewrite bool_decide_eq_true_2 by done.
  rewrite span_isdigit_all by done.
  pose proof (digits_val_nonneg (c :: ds) Hd). cbn zeta.
  assert ((- digits_val (c :: ds) >? LLONG_MAX) = false) as ->.
  { rewrite Z.gtb_ltb. apply Z.ltb_ge. unfold LLONG_MAX. lia. }
  done.
Qed.

Lemma print_signed_nonempty n : print_signed n <> [].
Proof. unfold print_signed. case_match; [done|]. apply print_unsigned_nonempty. Qed.

Lemma strtoll_print_signed n :
  strtoll (print_signed n) =
  if n >? LLONG_MAX then StrtollResult LLONG_MAX (length (print_signed n)) true
  else if n <? LLONG_MIN then StrtollResult LLONG_MIN (length (print_signed n)) true
  else StrtollResult n (length (print_signed n)) false.
Proof.
  unfold print_signed. destruct (Z.ltb_spec n 0).
  - rewrite strtoll_neg_digits by auto with tr.
    rewrite print_unsigned_val, Z.opp_involutive by lia.
    destruct (Z.gtb_spec n LLONG_MAX); [unfold LLONG_MAX in *; lia|]. done.
  - rewrite strtoll_digits by auto with tr. rewrite print_unsigned_val by lia.
    destruct (n >? LLONG_MAX); [done|].
    destruct (Z.ltb_spec n LLONG_MIN); [unfold LLONG_MIN in *; lia|done].
Qed.

(** [ParseIntStrict] accepts the text the server itself prints for an integer
    exactly when the integer fits a [long long], and gives it back. *)
Lemma ParseIntStrict_print n :
  ParseIntStrict (print_signed n) = if in_i64 n then Some n else None.
Proof.
  unfold ParseIntStrict, in_i64.
  destruct (print_signed n) eqn:E; [by apply print_signed_nonempty in E|].
  rewrite <- E, strtoll_print_signed.
  destruct (Z.gtb_spec n LLONG_MAX) as [H|H]; simpl.
  { destruct (Z.leb_spec n LLONG_MAX); [lia|]. by rewrite andb_false_r. }
  destruct (Z.ltb_spec n LLONG_MIN) as [H'|H']; simpl.
  { by destruct (Z.leb_spec LLONG_MIN n); [lia|]. }
  rewrite Nat.eqb_refl. simpl.
  destruct (Z.leb_spec LLONG_MIN n), (Z.leb_spec n LLONG_MAX); try lia; done.
Qed.

Lemma ParseIntStrict_range s n : ParseIntStrict s = Some n -> LLONG_MIN <= n <= LLONG_MAX.
Proof.
  unfold ParseIntStrict. destruct s as [|c s]; [done|].
  unfold strtoll. repeat case_match; simplify_eq/=; try (unfold LLONG_MIN, LLONG_MAX; lia);
    intros [= <-]; rewrite ?Z.gtb_ltb in *; breflect; unfold LLONG_MIN, LLONG_MAX in *; lia.
Qed.

Lemma stoll_digits ds :
  ds <> [] -> Forall (fun c => isdigit c = true) ds ->
  stoll ds = if digits_val ds <=? LLONG_MAX then Some (digits_val ds) else None.
Proof.
  intros Hne Hd. unfold stoll. rewrite strtoll_digits by done.
  destruct (Z.gtb_spec (digits_val ds) LLONG_MAX); simpl;
    destruct ds as [|c ds]; try done; simpl;
    destruct (Z.leb_spec (digits_val (c :: ds)) LLONG_MAX); try lia; done.
Qed.

(** ** Lemmas: case mapping *)

Lemma upper_char_idem c : upper_char (upper_char c) = upper_char c.
Proof. destruct c as [[][][][][][][][]]; reflexivity. Qed.

Lemma upper_lower_char c : upper_char (lower_char c) = upper_char c.
Proof. destruct c as [[][][][][][][][]]; reflexivity. Qed.

Lemma ToUpper_idem s : ToUpper (ToUpper s) = ToUpper s.
Proof. unfold ToUpper. rewrite map_map. apply map_ext, upper_char_idem. Qed.

Lemma ToUpper_ToLower s : ToUpper (ToLower s) = ToUpper s.
Proof. unfold ToUpper, ToLower. rewrite map_map. apply map_ext, upper_lower_char. Qed.
