(* ===== verification/Resp.v ===== *)
(** * RESP2 wire protocol: request parser and reply encoders

    Models [src/include/resp.h] and [src/src/resp.cpp].  [RequestParser] is the
    parser object with its two fields; every member function is a function on
    that record.  A read outside the buffer or a [size_t] subtraction that would
    wrap is the result [Fault], which the theorems of [RespProofs.v] exclude. *)

From S2P Require Import Prelude Bytes.
Local Open Scope Z_scope.

Definition kMaxInlineBytes : Z := 64 * 1024.
Definition kMaxBulkBytes : Z := 512 * 1024 * 1024.
Definition kMaxMultiBulkElements : Z := 1024.

Record RequestParser := mkParser { buf_ : bytes; error_msg_ : bytes }.

Definition has_error (p : RequestParser) : bool := negb (bool_decide (error_msg_ p = [])).
Definition HasBytes (p : RequestParser) (n : nat) : bool := (n <=? length (buf_ p))%nat.
Definition reset (_ : RequestParser) : RequestParser := mkParser [] [].

(** Return code of the [TryParse*] functions: 1, 0 and -1, and [Fault]. *)
Inductive parse_rc :=
| Parsed (argv : list bytes)
| Incomplete
| ProtoError
| Fault.

Definition set_error (p : RequestParser) (msg : bytes) : RequestParser :=
  mkParser (buf_ p) msg.

Definition err_too_big_buffer := lit "ERR Protocol error: too big request buffer".
Definition err_too_big_inline := lit "ERR Protocol error: too big inline request".
Definition err_multibulk_len := lit "ERR Protocol error: invalid multibulk length".
Definition err_bulk_len := lit "ERR Protocol error: invalid bulk length".
Definition err_expected_crlf := lit "ERR Protocol error: expected CRLF after bulk data".
Definition err_expected_dollar (c : ascii) : bytes :=
  lit "ERR Protocol error: expected '$', got '" ++ [c] ++ lit "'".

Definition IsCrLfAt (b : bytes) (i : nat) : bool :=
  (i + 1 <? length b)%nat && bool_decide (b !! i = Some kCR)
  && bool_decide (b !! (i + 1)%nat = Some kLF).

(** The scan shared by [PeekLine] and by the bulk-length line: index of the end
    of the line (before ["\n"] or ["\r\n"]), counting from [i]. *)
Fixpoint scan_line (s : bytes) (i : nat) (saw_cr : bool) : option nat :=
  match s with
  | [] => None
  | c :: r =>
      if bool_decide (c = kCR) then scan_line r (S i) true
      else if bool_decide (c = kLF) then Some (if saw_cr then i - 1 else i)%nat
      else scan_line r (S i) false
  end.

Definition PeekLine (p : RequestParser) : option nat := scan_line (buf_ p) 0 false.

Definition is_blank (c : ascii) : bool :=
  bool_decide (c = " "%char) || bool_decide (c = "009"%char).

(** The token loop of [TryParseInline] on the characters of the line. *)
Fixpoint inline_tokens (fuel : nat) (line : bytes) : list bytes :=
  match fuel, line with
  | O, _ | _, [] => []
  | S f, _ :: _ =>
      let '(_, r) := span is_blank line in
      let '(tok, r') := span (fun c => negb (is_blank c)) r in
      match tok with
      | [] => inline_tokens f r'
      | _ :: _ => tok :: inline_tokens f r'
      end
  end.

Definition line_end_len (b : bytes) (line_len : nat) : nat :=
  if IsCrLfAt b line_len then 2%nat else 1%nat.

Definition TryParseInline (p : RequestParser) : parse_rc * RequestParser :=
  match PeekLine p with
  | None =>
      if zlen (buf_ p) >? kMaxInlineBytes
      then (ProtoError, set_error p err_too_big_inline)
      else (Incomplete, p)
  | Some line_len =>
      let line := take line_len (buf_ p) in
      let consumed := (line_len + line_end_len (buf_ p) line_len)%nat in
      (Parsed (inline_tokens (length line) line),
       mkParser (drop consumed (buf_ p)) (error_msg_ p))
  end.

(** [s.empty() || s.find_first_not_of("0123456789") != npos] *)
Definition not_all_digits (s : bytes) : bool :=
  bool_decide (s = []) || negb (forallb isdigit s).

Inductive bulk_rc :=
| BulkDone (argv : list bytes) (pos : nat)
| BulkIncomplete
| BulkError (msg : bytes)
| BulkFault.

(** The local scan from [pos] for the end of the bulk-length line. *)
Definition bulk_line_end (buf : bytes) (pos : nat) : option nat :=
  scan_line (drop pos buf) pos false.

(** One iteration of the element loop of [TryParseMultiBulk]: the element and
    the position after it. *)
Inductive bulk1_rc :=
| Bulk1 (arg : bytes) (pos : nat)
| Bulk1Stop (r : bulk_rc).

Definition parse_bulk (buf : bytes) (pos : nat) : bulk1_rc :=
  if (length buf <=? pos)%nat then Bulk1Stop BulkIncomplete else
  match buf !! pos with
  | None => Bulk1Stop BulkFault
  | Some c =>
    if negb (bool_decide (c = "$"%char)) then Bulk1Stop (BulkError (err_expected_dollar c)) else
    match bulk_line_end buf pos with
    | None =>
        if Z.of_nat (length buf - pos) >? 32 then Bulk1Stop (BulkError err_bulk_len)
        else Bulk1Stop BulkIncomplete
    | Some len_line =>
      if (len_line <? pos + 1)%nat then Bulk1Stop BulkFault else
      let bulk_len_str := substr buf (pos + 1) (len_line - (pos + 1)) in
      if not_all_digits bulk_len_str then Bulk1Stop (BulkError err_bulk_len) else
      match stoll bulk_len_str with
      | None => Bulk1Stop (BulkError err_bulk_len)
      | Some bulk_len =>
        if (bulk_len <? 0) || (bulk_len >? kMaxBulkBytes)
        then Bulk1Stop (BulkError err_bulk_len) else
        let after_len := (len_line + line_end_len buf len_line)%nat in
        if zlen buf <? Z.of_nat after_len + bulk_len + 2 then Bulk1Stop BulkIncomplete else
        let tail := (after_len + Z.to_nat bulk_len)%nat in
        match buf !! tail, buf !! (tail + 1)%nat with
        | Some c1, Some c2 =>
            if negb (bool_decide (c1 = kCR)) || negb (bool_decide (c2 = kLF))
            then Bulk1Stop (BulkError err_expected_crlf)
            else Bulk1 (substr buf after_len (Z.to_nat bulk_len)) (tail + 2)
        | _, _ => Bulk1Stop BulkFault
        end
      end
    end
  end.

Fixpoint bulk_loop (k : nat) (buf : bytes) (pos : nat) (argv : list bytes) : bulk_rc :=
  match k with
  | O => BulkDone argv pos
  | S k' =>
      match parse_bulk buf pos with
      | Bulk1 arg pos' => bulk_loop k' buf pos' (argv ++ [arg])
      | Bulk1Stop r => r
      end
  end.

Definition TryParseMultiBulk (p : RequestParser) : parse_rc * RequestParser :=
  match PeekLine p with
  | None =>
      if zlen (buf_ p) >? 32 then (ProtoError, set_error p err_multibulk_len)
      else (Incomplete, p)
  | Some line_len =>
    if (line_len <? 1)%nat then (Fault, p) else
    let num_str := substr (buf_ p) 1 (line_len - 1) in
    if not_all_digits num_str then (ProtoError, set_error p err_multibulk_len) else
    match stoll num_str with
    | None => (ProtoError, set_error p err_multibulk_len)
    | Some count =>
      if count >? kMaxMultiBulkElements then (ProtoError, set_error p err_multibulk_len) else
      let pos := (line_len + line_end_len (buf_ p) line_len)%nat in
      if count <=? 0 then (Parsed [], mkParser (drop pos (buf_ p)) (error_msg_ p)) else
      if negb (HasBytes p pos) then (Incomplete, p) else
      match bulk_loop (Z.to_nat count) (buf_ p) pos [] with
      | BulkDone argv pos' => (Parsed argv, mkParser (drop pos' (buf_ p)) (error_msg_ p))
      | BulkIncomplete => (Incomplete, p)
      | BulkError msg => (ProtoError, set_error p msg)
      | BulkFault => (Fault, p)
      end
    end
  end.

Definition TryParseOne (p : RequestParser) : parse_rc * RequestParser :=
  match buf_ p with
  | [] => (Incomplete, p)
  | c :: _ => if bool_decide (c = "*"%char) then TryParseMultiBulk p else TryParseInline p
  end.

(** The loop of [ParseBuffered]; [None] is a [Fault] or an exhausted fuel. *)
Fixpoint parse_loop (fuel : nat) (p : RequestParser) : option (list (list bytes) * RequestParser) :=
  match fuel with
  | O => None
  | S f =>
      match TryParseOne p with
      | (Parsed argv, p') =>
          match parse_loop f p' with
          | Some (cmds, p'') => Some (argv :: cmds, p'')
          | None => None
          end
      | (Fault, _) => None
      | (_, p') => Some ([], p')
      end
  end.

(** Every successful [TryParseOne] consumes at least one byte, so
    [S (length buf)] iterations are enough ([parse_loop_total]). *)
Definition ParseBuffered (p : RequestParser) : option (list (list bytes) * RequestParser) :=
  if has_error p then Some ([], p) else parse_loop (S (length (buf_ p))) p.

Definition Feed (data : bytes) (p : RequestParser) : option (list (list bytes) * RequestParser) :=
  let p1 :=
    if has_error p then p
    else
      let b := buf_ p ++ data in
      if zlen b >? kMaxBulkBytes then mkParser b err_too_big_buffer
      else mkParser b (error_msg_ p) in
  ParseBuffered p1.

(** ** Reply encoders: each appends to the output buffer [out] *)

Definition AppendSimpleReply (out s : bytes) : bytes := out ++ "+"%char :: s ++ crlf.
Definition AppendErrorReply (out s : bytes) : bytes := out ++ "-"%char :: s ++ crlf.
Definition AppendIntReply (out : bytes) (v : Z) : bytes :=
  out ++ ":"%char :: print_signed v ++ crlf.
Definition AppendBulkReply (out s : bytes) : bytes :=
  out ++ "$"%char :: print_unsigned (zlen s) ++ crlf ++ s ++ crlf.
Definition AppendNullBulkReply (out : bytes) : bytes := out ++ lit "$-1" ++ crlf.
Definition AppendArrayReply (out : bytes) (n : Z) : bytes :=
  out ++ "*"%char :: print_signed n ++ crlf.
Definition AppendNullArrayReply (out : bytes) : bytes := out ++ lit "*-1" ++ crlf.
Definition AppendEmptyArrayReply (out : bytes) : bytes := out ++ lit "*0" ++ crlf.
Definition AppendBulkArray (out : bytes) (items : list bytes) : bytes :=
  fold_left AppendBulkReply items (AppendArrayReply out (zlen items)).
