(* ===== verification/RespProofs.v ===== *)
(** * The request parser: totality, framing and round trips *)

From S2P Require Import Prelude Bytes Resp.
Local Open Scope Z_scope.

(** A client encodes a request the way [AppendBulkArray] encodes a reply. *)
Definition encode_request (argv : list bytes) : bytes := AppendBulkArray [] argv.
Definition encode_stream (cmds : list (list bytes)) : bytes := concat (map encode_request cmds).

(** The requests the parser's limits admit. *)
Definition request_ok (argv : list bytes) : Prop :=
  argv <> [] /\ zlen argv <= kMaxMultiBulkElements /\
  Forall (fun a => zlen a <= kMaxBulkBytes) argv.

(** Bytes that do not end a line. *)
Definition no_eol (c : ascii) : Prop := c <> kCR /\ c <> kLF.

(** ** Line scanning *)

Lemma scan_line_none s i cr :
  Forall (fun c => c <> kLF) s -> scan_line s i cr = None.
Proof.
  intros H. revert i cr. induction H as [|c s Hc _ IH]; intros i cr; simpl; [done|].
  rewrite (bool_decide_eq_false_2 (c = kLF)) by done. by case_match.
Qed.

Lemma scan_line_crlf l r i :
  Forall no_eol l -> scan_line (l ++ kCR :: kLF :: r) i false = Some (i + length l)%nat.
Proof.
  intros H. revert i. induction H as [|c l [H1 H2] _ IH]; intros i; simpl.
  - f_equal. lia.
  - rewrite !bool_decide_eq_false_2 by done. rewrite IH. f_equal. lia.
Qed.

(** The index found lies inside the scanned text, before a line feed. *)
Lemma scan_line_bound s i cr n :
  scan_line s i cr = Some n ->
  (i <= n + (if cr then 1 else 0))%nat /\ (n < i + length s)%nat.
Proof.
  revert i cr. induction s as [|c s IH]; intros i cr; simpl; [done|].
  destruct (bool_decide (c = kCR)); [|destruct (bool_decide (c = kLF))].
  - intros H%IH. destruct cr; lia.
  - intros [= <-]. destruct cr; lia.
  - intros H%IH. destruct cr; lia.
Qed.

Lemma IsCrLfAt_bound b i : IsCrLfAt b i = true -> (i + 2 <= length b)%nat.
Proof. unfold IsCrLfAt. intros H. breflect. lia. Qed.

Lemma IsCrLfAt_app a r : IsCrLfAt (a ++ kCR :: kLF :: r) (length a) = true.
Proof.
  unfold IsCrLfAt.
  rewrite !lookup_app_r by lia.
  replace (length a - length a)%nat with 0%nat by lia.
  replace (length a + 1 - length a)%nat with 1%nat by lia.
  rewrite !bool_decide_eq_true_2 by done.
  rewrite !andb_true_r. apply Nat.ltb_lt. rewrite length_app. simpl. lia.
Qed.

Lemma line_end_bound b n : (n < length b)%nat -> (n + line_end_len b n <= length b)%nat.
Proof.
  intros H. unfold line_end_len. destruct (IsCrLfAt b n) eqn:E.
  - by apply IsCrLfAt_bound in E.
  - lia.
Qed.

Lemma line_end_pos b n : (0 < line_end_len b n)%nat.
Proof. unfold line_end_len. case_match; lia. Qed.

(** ** No fault, and progress *)

(** After the leading ['$'] or ['*'] the line end is past that character. *)
Lemma bulk_line_end_bound buf pos c n :
  buf !! pos = Some c -> no_eol c -> bulk_line_end buf pos = Some n ->
  (pos + 1 <= n < length buf)%nat.
Proof.
  unfold bulk_line_end. intros Hc [H1 H2].
  rewrite (drop_S _ _ _ Hc). simpl.
  rewrite !bool_decide_eq_false_2 by done.
  intros H%scan_line_bound. rewrite length_drop in H.
  apply lookup_lt_Some in Hc. lia.
Qed.

Lemma dollar_no_eol : no_eol "$"%char.
Proof. by split. Qed.
Lemma star_no_eol : no_eol "*"%char.
Proof. by split. Qed.

(** Every outcome of [parse_bulk] at once: an element ends inside the buffer,
    after [pos], and is within the limit; there is no fault. *)
Lemma parse_bulk_spec buf pos :
  match parse_bulk buf pos with
  | Bulk1 arg pos' => (pos < pos' <= length buf)%nat /\ zlen arg <= kMaxBulkBytes
  | Bulk1Stop BulkIncomplete => True
  | Bulk1Stop (BulkError msg) => msg <> []
  | Bulk1Stop _ => False
  end.
Proof.
  unfold parse_bulk.
  destruct (Nat.leb_spec (length buf) pos) as [|Hpos]; [done|].
  destruct (buf !! pos) as [c|] eqn:Hc; [|by apply lookup_ge_None in Hc; lia].
  destruct (bool_decide (c = "$"%char)) eqn:Ec; simpl; [|done].
  apply bool_decide_eq_true in Ec. subst c.
  destruct (bulk_line_end buf pos) as [n|] eqn:Hn; [|by case_goal].
  apply (bulk_line_end_bound _ _ _ _ Hc dollar_no_eol) in Hn.
  destruct (Nat.ltb_spec n (pos + 1)); [lia|].
  case_goal; [done|]. case_goal; [|done].
  destruct (_ || _) eqn:Hr; [done|]. rewrite Z.gtb_ltb in Hr. breflect.
  destruct (Z.ltb_spec (zlen buf) (Z.of_nat (n + line_end_len buf n) + z + 2)); [done|].
  unfold zlen in *. pose proof (line_end_pos buf n).
  destruct (buf !! (_ + Z.to_nat z)%nat) eqn:Hc1; [|apply lookup_ge_None in Hc1; lia].
  destruct (buf !! (_ + 1)%nat) eqn:Hc2; [|apply lookup_ge_None in Hc2; lia].
  case_goal; [done|]. split; [lia|]. rewrite substr_length; lia.
Qed.

Lemma bulk_loop_spec k buf pos argv :
  (pos <= length buf)%nat ->
  Forall (fun a => zlen a <= kMaxBulkBytes) argv ->
  match bulk_loop k buf pos argv with
  | BulkDone argv' pos' =>
      (pos <= pos' <= length buf)%nat /\ length argv' = (length argv + k)%nat /\
      Forall (fun a => zlen a <= kMaxBulkBytes) argv'
  | BulkIncomplete => True
  | BulkError msg => msg <> []
  | BulkFault => False
  end.
Proof.
  revert pos argv. induction k as [|k IH]; intros pos argv Hpos Hargv; simpl.
  { repeat split; try done; lia. }
  pose proof (parse_bulk_spec buf pos) as Hb.
  destruct (parse_bulk buf pos) as [arg pos'|r].
  - destruct Hb as [Hb1 Hb2].
    specialize (IH pos' (argv ++ [arg]) ltac:(lia)).
    destruct (bulk_loop k buf pos' (argv ++ [arg])) as [argv' q| | |]; try done.
    + destruct IH as (? & Hlen & ?); [by apply Forall_app_2; auto|].
      rewrite length_app in Hlen. simpl in Hlen. repeat split; try done; lia.
    + apply IH. by apply Forall_app_2; auto.
    + apply IH. by apply Forall_app_2; auto.
  - by destruct r.
Qed.

(** Every outcome of [TryParseOne]: no fault; a parsed request consumes at least
    one byte, respects the limits and leaves the error alone; otherwise the
    buffer is untouched, and the error is set exactly on a protocol error. *)
Lemma TryParseOne_spec p :
  match TryParseOne p with
  | (Parsed argv, p') =>
      (length (buf_ p') < length (buf_ p))%nat /\ (exists n, buf_ p' = drop n (buf_ p)) /\
      error_msg_ p' = error_msg_ p
  | (Incomplete, p') => p' = p
  | (ProtoError, p') => buf_ p' = buf_ p /\ error_msg_ p' <> []
  | (Fault, _) => False
  end.
Proof.
  unfold TryParseOne. destruct (buf_ p) as [|c r] eqn:Hbuf; [done|].
  assert (Hdrop : forall n, (0 < n)%nat -> (length (drop n (buf_ p)) < length (buf_ p))%nat).
  { intros n Hn. rewrite length_drop, Hbuf. simpl. lia. }
  destruct (bool_decide (c = "*"%char)) eqn:Ec.
  - apply bool_decide_eq_true in Ec. subst c. unfold TryParseMultiBulk.
    destruct (PeekLine p) as [n|] eqn:Hn; [|by case_goal; rewrite ?Hbuf].
    apply (bulk_line_end_bound (buf_ p) 0 "*"%char n) in Hn;
      [|by rewrite Hbuf|apply star_no_eol].
    destruct (Nat.ltb_spec n 1); [lia|]. rewrite <- Hbuf.
    pose proof (line_end_pos (buf_ p) n). pose proof (line_end_bound (buf_ p) n ltac:(lia)).
    case_goal; [done|]. case_goal; [|done]. case_goal; [done|].
    case_goal; simpl; [repeat split; eauto; apply Hdrop; lia|].
    case_goal; [done|].
    pose proof (bulk_loop_spec (Z.to_nat z) (buf_ p) (n + line_end_len (buf_ p) n) []
      ltac:(lia) ltac:(constructor)) as Hl.
    case_goal; simpl; try done.
    repeat split; eauto. apply Hdrop. lia.
  - unfold TryParseInline. rewrite <- Hbuf.
    destruct (PeekLine p) as [n|]; simpl; [|by case_goal].
    repeat split; eauto. apply Hdrop. pose proof (line_end_pos (buf_ p) n). lia.
Qed.

Lemma parse_loop_total fuel p :
  (length (buf_ p) < fuel)%nat -> exists cmds p', parse_loop fuel p = Some (cmds, p').
Proof.
  revert p. induction fuel as [|f IH]; intros p Hf; [lia|]. simpl.
  pose proof (TryParseOne_spec p) as Hp.
  destruct (TryParseOne p) as [[argv| | |] p1]; try done; eauto.
  destruct (IH p1) as (cmds & p' & ->); [lia|]. eauto.
Qed.

(** ** Complete requests *)

Definition encode_bulk (a : bytes) : bytes :=
  "$"%char :: print_unsigned (zlen a) ++ crlf ++ a ++ crlf.

Lemma fold_AppendBulkReply items out :
  fold_left AppendBulkReply items out = out ++ concat (map encode_bulk items).
Proof.
  revert out. induction items as [|a items IH]; intros out; simpl.
  - by rewrite app_nil_r.
  - rewrite IH. unfold AppendBulkReply, encode_bulk. by rewrite <- app_assoc.
Qed.

Definition encode_header (argv : list bytes) : bytes :=
  "*"%char :: print_unsigned (zlen argv).

Lemma encode_request_eq argv :
  encode_request argv = encode_header argv ++ crlf ++ concat (map encode_bulk argv).
Proof.
  unfold encode_request, AppendBulkArray. rewrite fold_AppendBulkReply.
  unfold AppendArrayReply, encode_header, print_signed.
  destruct (Z.ltb_spec (zlen argv) 0); [pose proof (zlen_nonneg argv); lia|].
  simpl. by rewrite <- !app_assoc.
Qed.

Lemma isdigit_no_eol c : isdigit c = true -> no_eol c.
Proof. intros H. split; intros ->; by vm_compute in H. Qed.

Lemma digits_no_eol ds : Forall (fun c => isdigit c = true) ds -> Forall no_eol ds.
Proof. intros H. eapply Forall_impl; [exact H|]. apply isdigit_no_eol. Qed.

Lemma not_all_digits_print n : not_all_digits (print_unsigned n) = false.
Proof.
  unfold not_all_digits. rewrite bool_decide_eq_false_2 by auto with tr.
  simpl. apply negb_false_iff, forallb_forall. intros c Hc.
  pose proof (print_unsigned_isdigit n) as H. rewrite Forall_forall in H.
  apply H. by apply list_elem_of_In.
Qed.

Lemma stoll_print n : 0 <= n <= LLONG_MAX -> stoll (print_unsigned n) = Some n.
Proof.
  intros H. rewrite stoll_digits by auto with tr. rewrite print_unsigned_val by lia.
  by destruct (Z.leb_spec n LLONG_MAX); [|lia].
Qed.

Lemma kMaxBulk_LLONG n : n <= kMaxBulkBytes -> n <= LLONG_MAX.
Proof. unfold kMaxBulkBytes, LLONG_MAX. lia. Qed.

(** Reading an element whose length line is complete comes down to the bytes
    that follow that line. *)
Definition bulk_line (n : Z) : bytes := "$"%char :: print_unsigned n ++ crlf.

Lemma bulk_line_scan pre n body :
  bulk_line_end (pre ++ bulk_line n ++ body) (length pre) =
  Some (length pre + S (length (print_unsigned n)))%nat.
Proof.
  unfold bulk_line_end, bulk_line. rewrite drop_app_length.
  replace (_ ++ body) with (("$"%char :: print_unsigned n) ++ kCR :: kLF :: body) by lassoc.
  apply scan_line_crlf. constructor; [apply dollar_no_eol|].
  apply digits_no_eol, print_unsigned_isdigit.
Qed.

Lemma bulk_line_end_len pre n body :
  line_end_len (pre ++ bulk_line n ++ body) (length pre + S (length (print_unsigned n))) = 2%nat.
Proof.
  unfold line_end_len.
  replace (pre ++ bulk_line n ++ body)
    with ((pre ++ "$"%char :: print_unsigned n) ++ kCR :: kLF :: body)
    by (unfold bulk_line; lassoc).
  replace (_ + _)%nat with (length (pre ++ "$"%char :: print_unsigned n)) by len_solve.
  by rewrite IsCrLfAt_app.
Qed.

Lemma bulk_line_digits pre n body :
  substr (pre ++ bulk_line n ++ body) (length pre + 1)
    (length pre + S (length (print_unsigned n)) - (length pre + 1)) = print_unsigned n.
Proof.
  unfold substr. rewrite <- drop_drop, drop_app_length.
  unfold bulk_line. simpl. rewrite drop_0, <- app_assoc.
  replace (_ - _)%nat with (length (print_unsigned n)) by lia.
  by rewrite take_app_length.
Qed.

Lemma parse_bulk_header pre n body :
  0 <= n <= kMaxBulkBytes ->
  parse_bulk (pre ++ bulk_line n ++ body) (length pre) =
  let body_pos := length (pre ++ bulk_line n) in
  if zlen body <? n + 2 then Bulk1Stop BulkIncomplete else
  match body !! Z.to_nat n, body !! (Z.to_nat n + 1)%nat with
  | Some c1, Some c2 =>
      if negb (bool_decide (c1 = kCR)) || negb (bool_decide (c2 = kLF))
      then Bulk1Stop (BulkError err_expected_crlf)
      else Bulk1 (take (Z.to_nat n) body) (body_pos + Z.to_nat n + 2)
  | _, _ => Bulk1Stop BulkFault
  end.
Proof.
  intros Hn. unfold parse_bulk.
  set (buf := pre ++ bulk_line n ++ body).
  assert (Hhdr : buf = (pre ++ bulk_line n) ++ body) by (unfold buf; lassoc).
  assert (Hk : (length pre + S (length (print_unsigned n)) + 2)%nat = length (pre ++ bulk_line n)).
  { unfold bulk_line, crlf. len_solve. }
  destruct (Nat.leb_spec (length buf) (length pre)) as [H|_].
  { unfold buf, bulk_line in H. len_solve. }
  assert (buf !! length pre = Some "$"%char) as ->.
  { unfold buf. rewrite lookup_app_r by lia. by rewrite Nat.sub_diag. }
  rewrite (bool_decide_eq_true_2 ("$"%char = _)) by done. cbn [negb].
  rewrite (bulk_line_scan pre n body : bulk_line_end buf _ = _). 
  destruct (Nat.ltb_spec (length pre + S (length (print_unsigned n))) (length pre + 1)) as [H|_]; [lia|].
  rewrite (bulk_line_digits pre n body : substr buf _ _ = _), not_all_digits_print.
  rewrite stoll_print by (split; [lia | apply kMaxBulk_LLONG; lia]).
  destruct (Z.ltb_spec n 0) as [|_]; [lia|].
  rewrite Z.gtb_ltb. destruct (Z.ltb_spec kMaxBulkBytes n) as [|_]; [lia|]. cbn [orb].
  rewrite (bulk_line_end_len pre n body : line_end_len buf _ = _), Hk. cbv zeta.
  assert (Hl : zlen buf = Z.of_nat (length (pre ++ bulk_line n)) + zlen body).
  { rewrite Hhdr. len_solve. }
  rewrite Hl.
  destruct (Z.ltb_spec (zlen body) (n + 2)), (Z.ltb_spec
    (Z.of_nat (length (pre ++ bulk_line n)) + zlen body)
    (Z.of_nat (length (pre ++ bulk_line n)) + n + 2)); try lia; [done|].
  unfold substr. rewrite Hhdr, drop_app_length.
  rewrite !lookup_app_r by lia.
  replace (length (pre ++ bulk_line n) + Z.to_nat n - length (pre ++ bulk_line n))%nat
    with (Z.to_nat n) by lia.
  by replace (length (pre ++ bulk_line n) + Z.to_nat n + 1 - length (pre ++ bulk_line n))%nat
    with (Z.to_nat n + 1)%nat by lia.
Qed.

Lemma encode_bulk_eq a : encode_bulk a = bulk_line (zlen a) ++ a ++ crlf.
Proof. unfold encode_bulk, bulk_line. lassoc. Qed.

(** A complete element anywhere in the buffer is read back. *)
Lemma parse_bulk_complete pre a rest :
  zlen a <= kMaxBulkBytes ->
  parse_bulk (pre ++ encode_bulk a ++ rest) (length pre) =
  Bulk1 a (length (pre ++ encode_bulk a)).
Proof.
  intros Ha. rewrite encode_bulk_eq.
  replace (pre ++ (bulk_line (zlen a) ++ a ++ crlf) ++ rest)
    with (pre ++ bulk_line (zlen a) ++ (a ++ kCR :: kLF :: rest)) by lassoc.
  rewrite parse_bulk_header by (split; [auto with tr|done]). cbv zeta.
  rewrite zlen_to_nat.
  destruct (Z.ltb_spec (zlen (a ++ kCR :: kLF :: rest)) (zlen a + 2)) as [H|_].
  { autorewrite with tr in H. pose proof (zlen_nonneg rest). lia. }
  rewrite lookup_app_r, Nat.sub_diag by lia.
  rewrite lookup_app_r by lia. replace (length a + 1 - length a)%nat with 1%nat by lia.
  cbn [lookup list_lookup]. rewrite !bool_decide_eq_true_2 by done. cbn [negb orb].
  rewrite take_app_length. f_equal. unfold crlf. len_solve.
Qed.

Lemma bulk_loop_complete pre args rest acc :
  Forall (fun a => zlen a <= kMaxBulkBytes) args ->
  bulk_loop (length args) (pre ++ concat (map encode_bulk args) ++ rest) (length pre) acc =
  BulkDone (acc ++ args) (length (pre ++ concat (map encode_bulk args))).
Proof.
  intros Ha. revert pre acc.
  induction Ha as [|a args Ha _ IH]; intros pre acc; cbn [length map concat bulk_loop].
  - by rewrite !app_nil_r.
  - rewrite <- (app_assoc (encode_bulk a)), parse_bulk_complete by done.
    specialize (IH (pre ++ encode_bulk a) (acc ++ [a])).
    rewrite <- !app_assoc in IH. exact IH.
Qed.

(** ** Incomplete requests: a strict prefix is never consumed *)

Lemma take_app_cases {A} n (a b : list A) :
  (take n (a ++ b) = take n a /\ (n <= length a)%nat) \/
  (take n (a ++ b) = a ++ take (n - length a) b /\ (length a < n)%nat).
Proof.
  destruct (Nat.le_gt_cases n (length a)).
  - left. split; [by apply take_app_le | done].
  - right. split; [by apply take_app_ge; lia | done].
Qed.

Lemma take_no_lf n (l : bytes) : Forall no_eol l -> Forall (fun c => c <> kLF) (take n (l ++ [kCR])).
Proof.
  intros H. apply Forall_take, Forall_app_2.
  - eapply Forall_impl; [exact H|]. by intros c [].
  - by constructor.
Qed.

Lemma bulk_len_digits (a : bytes) : zlen a <= kMaxBulkBytes -> (length (print_unsigned (zlen a)) <= 9)%nat.
Proof.
  intros H. apply print_unsigned_length; [|lia].
  pose proof (zlen_nonneg a). unfold kMaxBulkBytes in H. simpl. lia.
Qed.

Lemma parse_bulk_partial_line pre (l : bytes) n :
  Forall no_eol l -> (length l <= 20)%nat ->
  parse_bulk (pre ++ take n ("$"%char :: l ++ [kCR])) (length pre) = Bulk1Stop BulkIncomplete.
Proof.
  intros Hl Hlen. unfold parse_bulk.
  destruct (Nat.leb_spec (length (pre ++ take n ("$"%char :: l ++ [kCR]))) (length pre)) as [|H]; [done|].
  destruct n as [|n]; [simpl in H; rewrite app_nil_r in H; lia|].
  assert ((pre ++ take (S n) ("$"%char :: l ++ [kCR])) !! length pre = Some "$"%char) as ->.
  { by rewrite lookup_app_r, Nat.sub_diag by lia. }
  rewrite bool_decide_eq_true_2 by done. cbn [negb].
  unfold bulk_line_end. rewrite drop_app_length.
  rewrite scan_line_none
    by (apply (take_no_lf (S n) ("$"%char :: l)); constructor; [apply dollar_no_eol|done]).
  destruct (Z.gtb_spec (Z.of_nat (length (pre ++ take (S n) ("$"%char :: l ++ [kCR])) - length pre)) 32)
    as [Hgt|]; [|done].
  rewrite length_app, length_take in Hgt. simpl in Hgt. rewrite length_app in Hgt. simpl in Hgt. lia.
Qed.

Lemma parse_bulk_prefix pre a n :
  zlen a <= kMaxBulkBytes -> (n < length (encode_bulk a))%nat ->
  parse_bulk (pre ++ take n (encode_bulk a)) (length pre) = Bulk1Stop BulkIncomplete.
Proof.
  intros Ha Hn. pose proof (bulk_len_digits a Ha).
  assert (He : encode_bulk a =
    ("$"%char :: print_unsigned (zlen a) ++ [kCR]) ++ [kLF] ++ a ++ crlf).
  { unfold encode_bulk. lassoc. }
  rewrite He in *.
  destruct (take_app_cases n ("$"%char :: print_unsigned (zlen a) ++ [kCR]) ([kLF] ++ a ++ crlf))
    as [[-> Hle]|[-> Hgt]].
  - apply parse_bulk_partial_line; [|lia]. apply digits_no_eol, print_unsigned_isdigit.
  - destruct (n - length ("$"%char :: print_unsigned (zlen a) ++ [kCR]))%nat as [|m'] eqn:Em; [lia|].
    replace (pre ++ _) with (pre ++ bulk_line (zlen a) ++ take m' (a ++ crlf))
      by (unfold bulk_line; lassoc).
    rewrite parse_bulk_header by (split; [auto with tr|done]). cbv zeta.
    assert (m' < length (a ++ crlf))%nat.
    { rewrite length_app in Hn. cbn [length app] in *. lia. }
    destruct (Z.ltb_spec (zlen (take m' (a ++ crlf))) (zlen a + 2)) as [|Hge]; [done|].
    unfold crlf in *. len_solve.
Qed.

Lemma bulk_loop_prefix pre args n acc :
  Forall (fun a => zlen a <= kMaxBulkBytes) args ->
  (n < length (concat (map encode_bulk args)))%nat ->
  bulk_loop (length args) (pre ++ take n (concat (map encode_bulk args))) (length pre) acc
  = BulkIncomplete.
Proof.
  intros Ha. revert pre acc n.
  induction Ha as [|a args Ha _ IH]; intros pre acc n Hn; cbn [length map concat bulk_loop] in *; [lia|].
  rewrite length_app in Hn.
  destruct (Nat.lt_ge_cases n (length (encode_bulk a))) as [Hlt|Hge].
  - rewrite take_app_le by lia. by rewrite parse_bulk_prefix.
  - rewrite take_app_ge by lia. rewrite parse_bulk_complete by done.
    rewrite app_assoc. apply IH. lia.
Qed.

(** ** One request at the head of the buffer *)

Lemma count_bounds argv :
  request_ok argv -> 0 < zlen argv <= kMaxMultiBulkElements.
Proof.
  intros (Hne & Hc & _). split; [|done]. destruct argv; [done|]. len_solve.
Qed.

Lemma header_no_eol argv : Forall no_eol (encode_header argv).
Proof. constructor; [apply star_no_eol|]. apply digits_no_eol, print_unsigned_isdigit. Qed.

Lemma header_length argv :
  request_ok argv -> (length (encode_header argv) <= 5)%nat.
Proof.
  intros H%count_bounds. unfold encode_header. cbn [length]. apply le_n_S.
  apply print_unsigned_length; [|lia]. unfold kMaxMultiBulkElements in H. simpl. lia.
Qed.

(** With the count line complete, [TryParseOne] is the element loop. *)
Lemma TryParseOne_header argv body e :
  request_ok argv ->
  let p := mkParser (encode_header argv ++ crlf ++ body) e in
  let pos := length (encode_header argv ++ crlf) in
  TryParseOne p =
  match bulk_loop (length argv) (buf_ p) pos [] with
  | BulkDone argv' pos' => (Parsed argv', mkParser (drop pos' (buf_ p)) e)
  | BulkIncomplete => (Incomplete, p)
  | BulkError msg => (ProtoError, set_error p msg)
  | BulkFault => (Fault, p)
  end.
Proof.
  intros Hok p pos. pose proof (count_bounds _ Hok) as Hc. unfold kMaxMultiBulkElements in Hc.
  unfold TryParseOne. change (buf_ p) with (encode_header argv ++ crlf ++ body).
  cbn [encode_header app]. rewrite bool_decide_eq_true_2 by done.
  unfold TryParseMultiBulk, PeekLine. change (buf_ p) with (encode_header argv ++ crlf ++ body).
  rewrite (scan_line_crlf (encode_header argv) body 0 (header_no_eol argv)
    : scan_line (encode_header argv ++ crlf ++ body) 0 false = _).
  destruct (Nat.ltb_spec (0 + length (encode_header argv)) 1) as [H|_]; [simpl in H; lia|].
  assert (substr (encode_header argv ++ crlf ++ body) 1 (0 + length (encode_header argv) - 1)
          = print_unsigned (zlen argv)) as ->.
  { unfold substr, encode_header. simpl. rewrite drop_0, Nat.sub_0_r. by rewrite take_app_length. }
  rewrite not_all_digits_print, stoll_print by (unfold LLONG_MAX; lia).
  rewrite Z.gtb_ltb. destruct (Z.ltb_spec kMaxMultiBulkElements (zlen argv)) as [|_];
    [unfold kMaxMultiBulkElements in *; lia|].
  destruct (Z.leb_spec (zlen argv) 0) as [|_]; [lia|].
  assert (line_end_len (encode_header argv ++ crlf ++ body) (0 + length (encode_header argv)) = 2%nat) as ->.
  { unfold line_end_len. rewrite Nat.add_0_l.
    by rewrite (IsCrLfAt_app (encode_header argv) body : IsCrLfAt (_ ++ crlf ++ body) _ = _). }
  assert (0 + length (encode_header argv) + 2 = pos)%nat as ->.
  { unfold pos, crlf. len_solve. }
  unfold HasBytes. change (buf_ p) with (encode_header argv ++ crlf ++ body).
  destruct (Nat.leb_spec pos (length (encode_header argv ++ crlf ++ body))) as [_|H];
    [|unfold pos in H; len_solve].
  cbn [negb]. by rewrite zlen_to_nat.
Qed.

Lemma TryParseOne_complete argv rest e :
  request_ok argv ->
  TryParseOne (mkParser (encode_request argv ++ rest) e) = (Parsed argv, mkParser rest e).
Proof.
  intros Hok. rewrite encode_request_eq.
  replace ((encode_header argv ++ crlf ++ concat (map encode_bulk argv)) ++ rest)
    with (encode_header argv ++ crlf ++ (concat (map encode_bulk argv) ++ rest)) by lassoc.
  rewrite TryParseOne_header by done. cbn [buf_].
  rewrite (app_assoc (encode_header argv) crlf), bulk_loop_complete by apply Hok.
  by rewrite app_assoc, drop_app_length.
Qed.

Lemma TryParseOne_prefix argv n e :
  request_ok argv -> (n < length (encode_request argv))%nat ->
  let p := mkParser (take n (encode_request argv)) e in
  TryParseOne p = (Incomplete, p).
Proof.
  intros Hok Hn p. unfold p. rewrite encode_request_eq in *.
  pose proof (header_length _ Hok) as Hh.
  replace (encode_header argv ++ crlf ++ concat (map encode_bulk argv))
    with ((encode_header argv ++ [kCR]) ++ [kLF] ++ concat (map encode_bulk argv)) in * by lassoc.
  destruct (take_app_cases n (encode_header argv ++ [kCR]) ([kLF] ++ concat (map encode_bulk argv)))
    as [[-> Hle]|[-> Hgt]].
  - destruct n as [|n]; [done|].
    unfold TryParseOne. cbn [buf_ encode_header app take].
    rewrite bool_decide_eq_true_2 by done.
    unfold TryParseMultiBulk, PeekLine. cbn [buf_].
    rewrite scan_line_none by apply (take_no_lf (S n) (encode_header argv)), header_no_eol.
    case_goal; [|done]. rewrite Z.gtb_ltb in *. breflect. len_solve.
  - destruct (n - length (encode_header argv ++ [kCR]))%nat as [|m] eqn:Em; [lia|].
    replace ((encode_header argv ++ [kCR]) ++ take (S m) ([kLF] ++ concat (map encode_bulk argv)))
      with (encode_header argv ++ crlf ++ take m (concat (map encode_bulk argv))) by lassoc.
    rewrite TryParseOne_header by done. cbn [buf_].
    rewrite (app_assoc (encode_header argv) crlf), bulk_loop_prefix; [done|apply Hok|].
    rewrite length_app in Hn. cbn [length app] in Hn. lia.
Qed.

Lemma encode_request_pos c : (0 < length (encode_request c))%nat.
Proof. rewrite encode_request_eq. unfold encode_header. len_solve. Qed.

(** ** Streams of requests *)

(** Successive calls of [Feed] on the chunks that [read] returns. *)
Fixpoint feed_all (chunks : list bytes) (p : RequestParser) : option (list (list bytes) * RequestParser) :=
  match chunks with
  | [] => Some ([], p)
  | c :: cs =>
      match Feed c p with
      | None => None
      | Some (cmds, p') =>
          match feed_all cs p' with
          | None => None
          | Some (cmds', p'') => Some (cmds ++ cmds', p'')
          end
      end
  end.

(** The buffer [b] holds no complete request of those still to come. *)
Definition pending (cmds : list (list bytes)) (b : bytes) : Prop :=
  match cmds with
  | [] => b = []
  | c :: _ => (length b < length (encode_request c))%nat
  end.

Lemma parse_loop_stream cmds b fut fuel :
  Forall request_ok cmds -> encode_stream cmds = b ++ fut -> (length b < fuel)%nat ->
  exists fin rest b',
    parse_loop fuel (mkParser b []) = Some (fin, mkParser b' []) /\
    cmds = fin ++ rest /\ encode_stream rest = b' ++ fut /\ pending rest b'.
Proof.
  intros Hok. revert b fuel. induction Hok as [|c cmds Hc _ IH]; intros b fuel Hs Hf;
    (destruct fuel as [|f]; [lia|]); cbn [parse_loop].
  - symmetry in Hs. apply app_nil in Hs as [-> ->]. by exists [], [], [].
  - unfold encode_stream in Hs. cbn [map concat] in Hs.
    destruct (Nat.lt_ge_cases (length b) (length (encode_request c))) as [Hlt|Hge].
    + assert (b = take (length b) (encode_request c)) as Hb.
      { apply (f_equal (take (length b))) in Hs.
        rewrite take_app_le, take_app_length in Hs by lia. done. }
      rewrite Hb, TryParseOne_prefix by (done || lia).
      rewrite <- Hb. exists [], (c :: cmds), b. repeat split; try done.
    + assert (exists b2, b = encode_request c ++ b2 /\ concat (map encode_request cmds) = b2 ++ fut)
        as (b2 & -> & Hs2).
      { exists (drop (length (encode_request c)) b).
        assert (take (length (encode_request c)) b = encode_request c) as Ht.
        { apply (f_equal (take (length (encode_request c)))) in Hs.
          by rewrite take_app_length, take_app_le in Hs by lia. }
        split; [by rewrite <- Ht at 1; rewrite take_drop|].
        apply (f_equal (drop (length (encode_request c)))) in Hs.
        by rewrite drop_app_length, drop_app_le in Hs by lia. }
      rewrite TryParseOne_complete by done.
      destruct (IH b2 f) as (fin & rest & b' & -> & -> & ? & ?); [done| |].
      { pose proof (encode_request_pos c). len_solve. }
      by exists (c :: fin), rest, b'.
Qed.

(** The chunk and request sizes for which the buffer limit is never reached. *)
Definition read_size : Z := 65536.
Definition fits (argv : list bytes) : Prop :=
  request_ok argv /\ zlen (encode_request argv) + read_size <= kMaxBulkBytes.

Lemma pending_size cmds b :
  Forall fits cmds -> pending cmds b -> zlen b + read_size <= kMaxBulkBytes.
Proof.
  intros Hf Hp. destruct Hf as [|c cmds [_ Hc] _]; simpl in Hp.
  - subst b. by vm_compute.
  - unfold zlen in *. lia.
Qed.

Lemma Feed_stream cmds b data fut :
  Forall fits cmds -> pending cmds b -> zlen data <= read_size ->
  encode_stream cmds = b ++ data ++ fut ->
  exists fin rest b',
    Feed data (mkParser b []) = Some (fin, mkParser b' []) /\
    cmds = fin ++ rest /\ encode_stream rest = b' ++ fut /\ pending rest b'.
Proof.
  intros Hf Hp Hd Hs. unfold Feed. cbn [has_error error_msg_ buf_].
  pose proof (pending_size _ _ Hf Hp). change (has_error (mkParser b [])) with false. cbv iota zeta.
  destruct (Z.gtb_spec (zlen (b ++ data)) kMaxBulkBytes) as [H'|_].
  { autorewrite with tr in H'. lia. }
  unfold ParseBuffered. change (has_error (mkParser (b ++ data) [])) with false. cbn [buf_].
  apply parse_loop_stream.
  - eapply Forall_impl; [exact Hf|]. by intros ? [].
  - by rewrite Hs, app_assoc.
  - lia.
Qed.

Lemma feed_all_stream chunks cmds b fut :
  Forall fits cmds -> pending cmds b -> Forall (fun c => zlen c <= read_size) chunks ->
  encode_stream cmds = b ++ concat chunks ++ fut ->
  exists fin rest b',
    feed_all chunks (mkParser b []) = Some (fin, mkParser b' []) /\
    cmds = fin ++ rest /\ encode_stream rest = b' ++ fut /\ pending rest b'.
Proof.
  intros Hf Hp Hc. revert cmds b Hf Hp. induction Hc as [|c chunks Hc _ IH];
    intros cmds b Hf Hp Hs; cbn [feed_all concat] in *.
  - by exists [], cmds, b.
  - rewrite <- app_assoc in Hs.
    destruct (Feed_stream cmds b c _ Hf Hp Hc Hs) as (d1 & r1 & b1 & -> & -> & Hs1 & Hp1).
    apply Forall_app in Hf as [_ Hf1].
    destruct (IH r1 b1 Hf1 Hp1 Hs1) as (d2 & r2 & b2 & -> & -> & ? & ?).
    exists (d1 ++ d2), r2, b2. by rewrite app_assoc.
Qed.

Lemma stream_done rest b : encode_stream rest = b -> pending rest b -> rest = [] /\ b = [].
Proof.
  destruct rest as [|c rest]; simpl; [done|]. intros <-. unfold encode_stream.
  cbn [map concat]. rewrite length_app. lia.
Qed.

(** ** Inline requests *)

Definition blanks (s : bytes) : Prop := Forall (fun c => is_blank c = true) s.
Definition token (t : bytes) : Prop :=
  t <> [] /\ Forall (fun c => is_blank c = false /\ no_eol c) t.

(** A line made of tokens separated by blanks, with optional blanks around. *)
Inductive inline_layout : bytes -> list bytes -> Prop :=
| layout_end s : blanks s -> inline_layout s []
| layout_tok s t r toks :
    blanks s -> token t ->
    match r with [] => True | c :: _ => is_blank c = true end ->
    inline_layout r toks -> inline_layout (s ++ t ++ r) (t :: toks).

Lemma blank_no_eol c : is_blank c = true -> no_eol c.
Proof. intros H. split; intros ->; by vm_compute in H. Qed.

Lemma inline_layout_no_eol line toks : inline_layout line toks -> Forall no_eol line.
Proof.
  assert (forall s, blanks s -> Forall no_eol s) as Hb.
  { intros s Hs. eapply Forall_impl; [exact Hs|]. apply blank_no_eol. }
  induction 1 as [s Hs|s t r toks Hs [_ Ht] _ _ IH]; [by apply Hb|].
  apply Forall_app_2; [by apply Hb|]. apply Forall_app_2; [|done].
  eapply Forall_impl; [exact Ht|]. by intros c [].
Qed.

Lemma inline_tokens_layout line toks :
  inline_layout line toks ->
  forall fuel, (length line <= fuel)%nat -> inline_tokens fuel line = toks.
Proof.
  induction 1 as [s Hs|s t r toks Hs [Hne Ht] Hr _ IH]; intros fuel Hf.
  - destruct s as [|c s]; [by destruct fuel|].
    destruct fuel as [|f]; [simpl in Hf; lia|].
    assert (span is_blank (c :: s) = (c :: s, [])) as Hsp.
    { rewrite <- (app_nil_r (c :: s)) at 1. by apply span_app. }
    cbn [inline_tokens]. rewrite Hsp. simpl. by destruct f.
  - destruct t as [|c t]; [done|].
    assert (Hc : is_blank c = false) by (by inversion Ht as [|? ? []]).
    destruct fuel as [|f]; [len_solve|].
    assert (inline_tokens (S f) (s ++ (c :: t) ++ r) =
      let '(_, r0) := span is_blank (s ++ (c :: t) ++ r) in
      let '(tok, r') := span (fun c => negb (is_blank c)) r0 in
      match tok with [] => inline_tokens f r' | _ :: _ => tok :: inline_tokens f r' end) as ->.
    { by destruct s. }
    rewrite (span_app _ s) by done.
    rewrite (span_app _ (c :: t)).
    + f_equal. apply IH. len_solve.
    + eapply Forall_impl; [exact Ht|]. by intros x [-> _].
    + by destruct r; [|rewrite Hr].
Qed.

Lemma scan_line_lf l r i :
  Forall no_eol l -> scan_line (l ++ kLF :: r) i false = Some (i + length l)%nat.
Proof.
  intros H. revert i. induction H as [|c l [H1 H2] _ IH]; intros i; simpl.
  - f_equal. lia.
  - rewrite !bool_decide_eq_false_2 by done. rewrite IH. f_equal. lia.
Qed.

Lemma parse_loop_suffix fuel p cmds p' :
  parse_loop fuel p = Some (cmds, p') -> exists n, buf_ p' = drop n (buf_ p).
Proof.
  revert p cmds. induction fuel as [|f IH]; intros p cmds; simpl; [done|].
  pose proof (TryParseOne_spec p) as Hp.
  destruct (TryParseOne p) as [[argv| | |] p1]; try done.
  - destruct (parse_loop f p1) as [[cs p2]|] eqn:E; [|done]. intros [= <- <-].
    destruct Hp as (_ & [n Hn] & _). destruct (IH _ _ E) as [m Hm].
    exists (n + m)%nat. by rewrite Hm, Hn, drop_drop.
  - intros [= <- <-]. subst p1. by exists 0%nat.
  - intros [= <- <-]. exists 0%nat. apply Hp.
Qed.

(** ** Properties *)

(** C19: [Feed] always returns, whatever the bytes and the state of the parser:
    the loop of [ParseBuffered] terminates and no access leaves the buffer.  A
    parser in error ignores the input and keeps its error; otherwise what stays
    buffered is a suffix of the bytes received. *)
Theorem feed_total data p :
  exists cmds p',
    Feed data p = Some (cmds, p') /\
    (has_error p = true -> cmds = [] /\ p' = p) /\
    (has_error p = false -> exists n, buf_ p' = drop n (buf_ p ++ data)).
Proof.
  unfold Feed, ParseBuffered. destruct (has_error p) eqn:He; cbn zeta iota.
  { rewrite He. by exists [], p. }
  set (p1 := if _ >? _ then _ else _).
  assert (Hb : buf_ p1 = buf_ p ++ data) by (unfold p1; by case_match).
  destruct (has_error p1).
  { exists [], p1. repeat split; try done. intros _. exists 0%nat. by rewrite Hb. }
  destruct (parse_loop_total (S (length (buf_ p1))) p1) as (cmds & p' & Hl); [lia|].
  exists cmds, p'. repeat split; try done. intros _.
  destruct (parse_loop_suffix _ _ _ _ Hl) as [n ->]. exists n. by rewrite Hb.
Qed.

(** C11: requests framed as the multibulk encoder frames them are recovered from
    the stream whatever the boundaries of the chunks that [read] delivers: the
    commands come out once each, in order and byte for byte, nothing stays
    buffered and no error is raised. *)
Theorem chunked_stream_roundtrip (cmds : list (list bytes)) (chunks : list bytes) :
  Forall fits cmds ->
  Forall (fun c => zlen c <= read_size) chunks ->
  concat chunks = encode_stream cmds ->
  feed_all chunks (mkParser [] []) = Some (cmds, mkParser [] []).
Proof.
  intros Hf Hc Hs.
  destruct (feed_all_stream chunks cmds [] []) as (fin & rest & b' & -> & -> & Hr & Hp); try done.
  - destruct Hf as [|c cs Hc' ]; [done|]. apply encode_request_pos.
  - by rewrite app_nil_r.
  - rewrite app_nil_r in Hr. destruct (stream_done _ _ Hr Hp) as [-> ->].
    by rewrite app_nil_r.
Qed.

Lemma chunked_stream_roundtrip_witness :
  let cmds := [[lit "GET"; [kCR; kLF; "000"%char]]; [lit "PING"; []]] in
  feed_all (map (fun c => [c]) (encode_stream cmds)) (mkParser [] []) = Some (cmds, mkParser [] []).
Proof.
  apply chunked_stream_roundtrip.
  - repeat constructor; by vm_compute.
  - apply Forall_map, Forall_true. intros c. by vm_compute.
  - reflexivity.
Defined.

(** C31: an inline request, with any blanks around and between its tokens and
    ended by ["\r\n"] or by ["\n"] alone, is parsed into exactly its tokens, and
    the bytes after the line stay in the buffer. *)
Theorem inline_request_tokens line toks eol rest e :
  inline_layout line toks ->
  head line <> Some "*"%char ->
  eol = crlf \/ eol = [kLF] ->
  TryParseOne (mkParser (line ++ eol ++ rest) e) = (Parsed toks, mkParser rest e).
Proof.
  intros Hl Hstar Heol.
  pose proof (inline_layout_no_eol _ _ Hl) as Hno.
  assert (Hscan : PeekLine (mkParser (line ++ eol ++ rest) e) = Some (length line)).
  { unfold PeekLine. cbn [buf_]. destruct Heol as [-> | ->].
    - by apply (scan_line_crlf line rest 0).
    - by apply (scan_line_lf line rest 0). }
  assert (Hend : line_end_len (line ++ eol ++ rest) (length line) = length eol).
  { unfold line_end_len. destruct Heol as [-> | ->].
    - by rewrite (IsCrLfAt_app line rest : IsCrLfAt (line ++ crlf ++ rest) _ = _).
    - unfold IsCrLfAt. rewrite lookup_app_r, Nat.sub_diag by lia.
      rewrite (bool_decide_eq_false_2 ((_ ++ rest) !! 0%nat = Some kCR)) by done.
      by rewrite andb_false_r. }
  unfold TryParseOne, TryParseInline.
  rewrite Hscan. cbn [buf_ error_msg_]. rewrite Hend.
  rewrite take_app_length, (inline_tokens_layout _ _ Hl) by lia.
  replace (length line + length eol)%nat with (length (line ++ eol)) by apply length_app.
  rewrite app_assoc, drop_app_length.
  destruct line as [|c line]; simpl.
  - by destruct Heol as [-> | ->].
  - rewrite bool_decide_eq_false_2; [done|]. intros ->. by apply Hstar.
Qed.

Lemma inline_request_tokens_witness :
  TryParseOne (mkParser (lit "  SET   a b " ++ crlf ++ lit "GET") []) =
  (Parsed [lit "SET"; lit "a"; lit "b"], mkParser (lit "GET") []).
Proof.
  apply inline_request_tokens; [|done|by left].
  apply (layout_tok (lit "  ") (lit "SET") (lit "   a b ")); [repeat constructor| | |].
  { split; [done|]. repeat constructor; done. }
  { done. }
  apply (layout_tok (lit "   ") (lit "a") (lit " b ")); [repeat constructor| |done|].
  { split; [done|]. repeat constructor; done. }
  apply (layout_tok (lit " ") (lit "b") (lit " ")); [repeat constructor| |done|].
  { split; [done|]. repeat constructor; done. }
  apply layout_end. repeat constructor.
Defined.

(** The comment of [TryParseMultiBulk] says that both ["*0\r\n"] and
    ["*-1\r\n"] are dropped as empty commands; the digit check accepts only the
    first, and the second is a protocol error. *)
Lemma star_minus_one_is_error :
  Feed (lit "*0" ++ crlf) (mkParser [] []) = Some ([[]], mkParser [] []) /\
  Feed (lit "*-1" ++ crlf) (mkParser [] []) =
    Some ([], mkParser (lit "*-1" ++ crlf) err_multibulk_len).
Proof. split; vm_compute; reflexivity. Qed.
