(* ===== verification/Double.v ===== *)
(** * Scores: IEEE 754 binary64

    A C++ [double] is a [spec_float] of the Standard Library with 53 bits of
    precision and maximal exponent 1024; comparison is [SFcompare], so NaN is
    unordered and the two zeros are equal.  [drank] embeds the numbers into
    triples of integers ordered lexicographically, which reduces every order
    lemma to linear arithmetic. *)

From S2P Require Import Prelude Bytes.
From Stdlib Require Export SpecFloat.
Local Open Scope Z_scope.

Abbreviation double := spec_float.

Definition dlt (a b : double) : bool := SFltb a b.
Definition dle (a b : double) : bool := SFleb a b.
Definition deq (a b : double) : bool := SFeqb a b.
Definition isnan (d : double) : bool := match d with S754_nan => true | _ => false end.
Definition isinf (d : double) : bool := match d with S754_infinity _ => true | _ => false end.

Definition dadd (a b : double) : double := SFadd 53 1024 a b.
Definition ddiv (a b : double) : double := SFdiv 53 1024 a b.
Definition double_of_Z (z : Z) : double := binary_normalize 53 1024 z 0 false.
Definition dzero : double := S754_zero false.

#[global] Instance double_eq_dec : EqDecision double.
Proof. unfold EqDecision, Decision. decide equality; apply (decide (_ = _)). Defined.

(** ** The order as a lexicographic order on integers *)

Definition drank (d : double) : Z * Z * Z :=
  match d with
  | S754_infinity true => (-2, 0, 0)
  | S754_finite true m e => (-1, - e, - Z.pos m)
  | S754_zero _ | S754_nan => (0, 0, 0)
  | S754_finite false m e => (1, e, Z.pos m)
  | S754_infinity false => (2, 0, 0)
  end.

Definition rank_lt (a b : Z * Z * Z) : Prop :=
  let '(a1, a2, a3) := a in let '(b1, b2, b3) := b in
  a1 < b1 \/ (a1 = b1 /\ (a2 < b2 \/ (a2 = b2 /\ a3 < b3))).

Lemma rank_lt_trans a b c : rank_lt a b -> rank_lt b c -> rank_lt a c.
Proof. destruct a as [[] ?], b as [[] ?], c as [[] ?]. simpl. lia. Qed.

Lemma rank_lt_irrefl a : ~ rank_lt a a.
Proof. destruct a as [[] ?]. simpl. lia. Qed.

Lemma rank_lt_total a b : rank_lt a b \/ a = b \/ rank_lt b a.
Proof.
  destruct a as [[a1 a2] a3], b as [[b1 b2] b3]. simpl.
  destruct (decide (a1 = b1)), (decide (a2 = b2)), (decide (a3 = b3)); subst; auto; lia.
Qed.

(** Every comparison outcome of two numbers, in terms of their ranks. *)
Lemma SFcompare_rank a b :
  isnan a = false -> isnan b = false ->
  match SFcompare a b with
  | Some Lt => rank_lt (drank a) (drank b)
  | Some Eq => drank a = drank b
  | Some Gt => rank_lt (drank b) (drank a)
  | None => False
  end.
Proof.
  destruct a as [sa|[]| |[] ma ea], b as [sb|[]| |[] mb eb]; try done; intros _ _; simpl; try lia;
    destruct (Z.compare_spec ea eb) as [E|E|E]; simpl; try lia;
    change (Pos.compare_cont Eq ma mb) with (Pos.compare ma mb);
    destruct (Pos.compare_spec ma mb) as [E'|E'|E']; simpl; try lia; by subst.
Qed.

Lemma dlt_rank a b :
  isnan a = false -> isnan b = false -> dlt a b = true <-> rank_lt (drank a) (drank b).
Proof.
  intros Ha Hb. pose proof (SFcompare_rank a b Ha Hb) as H. unfold dlt, SFltb.
  destruct (SFcompare a b) as [[]|]; try done; split; try done; intros H'; exfalso.
  - rewrite H in H'. by apply rank_lt_irrefl in H'.
  - by apply (rank_lt_irrefl (drank a)), (rank_lt_trans _ (drank b)).
Qed.

Lemma deq_rank a b :
  isnan a = false -> isnan b = false -> deq a b = true <-> drank a = drank b.
Proof.
  intros Ha Hb. pose proof (SFcompare_rank a b Ha Hb) as H. unfold deq, SFeqb.
  destruct (SFcompare a b) as [[]|]; try done; split; try done; intros H'; exfalso;
    rewrite H' in H; by apply rank_lt_irrefl in H.
Qed.

Lemma dle_dlt_deq a b : dle a b = dlt a b || deq a b.
Proof. unfold dle, dlt, deq, SFleb, SFltb, SFeqb. by destruct (SFcompare a b) as [[]|]. Qed.

Lemma dlt_nan_l a b : isnan a = true -> dlt a b = false.
Proof. by destruct a. Qed.
Lemma dlt_nan_r a b : isnan b = true -> dlt a b = false.
Proof. destruct a as [|[]| |], b; done. Qed.
