(* ===== verification/SkipList.v ===== *)
(** * The skip list of sorted sets

    Models [src/include/zskiplist.h] and [src/src/zskiplist.cpp].  Nodes live in
    a heap that the list owns ([gmap] from locations to nodes) and refer to each
    other by location; [forward] and [span] are the two vectors of a node.  An
    operation returns [None] when the C++ code would follow a null or dangling
    pointer or index a vector out of range; the theorems of [SkipListProofs.v]
    show that this never happens on a well-formed list.  Spans and lengths are
    64-bit unsigned integers and wrap. *)

From S2P Require Import Prelude Bytes Double.
Local Open Scope Z_scope.

Definition kMaxLevel : nat := 32.
Definition kBranchProb : double := ddiv (double_of_Z 1) (double_of_Z 4).
Definition SIZE_MAX : Z := U64 - 1.
Definition RAND_MAX : Z := 2147483647.

Abbreviation loc := nat (only parsing).

Record Node := mkNode {
  score : double;
  member : bytes;
  forward : list (option loc);
  span_ : list Z
}.

Record ScoreRange := mkRange {
  r_min : double; r_max : double; min_exclusive : bool; max_exclusive : bool
}.

Record SkipList := mkSkipList {
  heap : gmap loc Node;
  next_loc : loc;          (* the allocator: the next fresh location *)
  header_ : loc;
  level_ : nat;
  length_ : Z
}.

Abbreviation nheap := (gmap loc Node).

(** [new Node()] with both vectors resized to [n]. *)
Definition blank_node (s : double) (m : bytes) (n : nat) : Node :=
  mkNode s m (replicate n None) (replicate n 0).

(** [SkipList::SkipList()] *)
Definition empty_list : SkipList :=
  mkSkipList {[ 0%nat := blank_node dzero [] kMaxLevel ]} 1 0 1 0.

(** ** Field access *)

Definition get_forward (h : nheap) (l : loc) (i : nat) : option (option loc) :=
  n ← h !! l; forward n !! i.
Definition get_span (h : nheap) (l : loc) (i : nat) : option Z :=
  n ← h !! l; span_ n !! i.
Definition get_key (h : nheap) (l : loc) : option (double * bytes) :=
  n ← h !! l; Some (score n, member n).

Definition set_forward (h : nheap) (l : loc) (i : nat) (v : option loc) : option nheap :=
  n ← h !! l;
  _ ← forward n !! i;
  Some (<[l := mkNode (score n) (member n) (<[i := v]> (forward n)) (span_ n)]> h).
Definition set_span (h : nheap) (l : loc) (i : nat) (v : Z) : option nheap :=
  n ← h !! l;
  _ ← span_ n !! i;
  Some (<[l := mkNode (score n) (member n) (forward n) (<[i := v]> (span_ n))]> h).
Definition set_score (h : nheap) (l : loc) (s : double) : option nheap :=
  n ← h !! l;
  Some (<[l := mkNode s (member n) (forward n) (span_ n)]> h).

(** ** Keys *)

Definition KeyLess (s1 : double) (m1 : bytes) (s2 : double) (m2 : bytes) : bool :=
  if negb (deq s1 s2) then dlt s1 s2 else bytes_ltb m1 m2.
Definition KeyEqual (s1 : double) (m1 : bytes) (s2 : double) (m2 : bytes) : bool :=
  deq s1 s2 && bool_decide (m1 = m2).

(** ** Random level *)

(** [(double)::random() / (double)RAND_MAX < kBranchProb] for a value [r] of
    [random()]. *)
Definition branch_up (r : Z) : bool :=
  dlt (ddiv (double_of_Z r) (double_of_Z RAND_MAX)) kBranchProb.

(** [rnd] is the sequence of values that [random()] returns. *)
Fixpoint random_level_from (fuel : nat) (rnd : nat -> Z) (k level : nat) : nat :=
  match fuel with
  | O => level
  | S f =>
      if (level <? kMaxLevel)%nat && branch_up (rnd k)
      then random_level_from f rnd (S k) (S level) else level
  end.

Definition RandomLevel (rnd : nat -> Z) : nat := random_level_from kMaxLevel rnd 0 1.

(** ** Searching *)

(** The inner loop [while (x->forward[i] && test(x->forward[i])) { rank +=
    x->span[i]; x = x->forward[i]; }]. *)
Fixpoint walk (fuel : nat) (h : nheap) (test : double -> bytes -> bool) (i : nat)
    (x : loc) (rank : Z) : option (loc * Z) :=
  match fuel with
  | O => None
  | S f =>
      fw ← get_forward h x i;
      match fw with
      | None => Some (x, rank)
      | Some y =>
          k ← get_key h y;
          if test k.1 k.2 then
            sp ← get_span h x i; walk f h test i y (u64 (rank + sp))
          else Some (x, rank)
      end
  end.

(** The same loop where no rank is accumulated. *)
Fixpoint walk_to (fuel : nat) (h : nheap) (test : double -> bytes -> bool) (i : nat)
    (x : loc) : option loc :=
  match fuel with
  | O => None
  | S f =>
      fw ← get_forward h x i;
      match fw with
      | None => Some x
      | Some y =>
          k ← get_key h y;
          if test k.1 k.2 then walk_to f h test i y else Some x
      end
  end.

(** The outer loop over the levels [i-1 .. 0]: the last node reached and, for
    every level, [update] and [rank]. *)
Fixpoint descend (fuel : nat) (h : nheap) (test : double -> bytes -> bool) (i : nat)
    (x : loc) (rank : Z) : option (loc * list (loc * Z)) :=
  match i with
  | O => Some (x, [])
  | S j =>
      '(x', r') ← walk fuel h test j x rank;
      '(y, upd) ← descend fuel h test j x' r';
      Some (y, upd ++ [(x', r')])
  end.

Fixpoint descend_to (fuel : nat) (h : nheap) (test : double -> bytes -> bool) (i : nat)
    (x : loc) : option loc :=
  match i with
  | O => Some x
  | S j => x' ← walk_to fuel h test j x; descend_to fuel h test j x'
  end.

(** No walk visits a node twice, so the number of nodes bounds the iterations. *)
Definition walk_fuel (sl : SkipList) : nat := size (heap sl).

Definition FindNode (sl : SkipList) (s : double) (m : bytes)
    : option (option loc * list (loc * Z)) :=
  '(x, upd) ← descend (walk_fuel sl) (heap sl) (fun s' m' => KeyLess s' m' s m)
                (level_ sl) (header_ sl) 0;
  cand ← get_forward (heap sl) x 0;
  match cand with
  | None => Some (None, upd)
  | Some c =>
      k ← get_key (heap sl) c;
      Some (if KeyEqual k.1 k.2 s m then Some c else None, upd)
  end.

Definition Contains (sl : SkipList) (s : double) (m : bytes) : option bool :=
  '(x, _) ← FindNode sl s m;
  Some (match x with Some _ => true | None => false end).

(** ** Insertion *)

(** [update[i]->span[i] = length_] for the levels the list grows by. *)
Fixpoint raise_levels (h : nheap) (hd : loc) (len : Z) (i n : nat) : option nheap :=
  match n with
  | O => Some h
  | S n' => h' ← set_span h hd i len; raise_levels h' hd len (S i) n'
  end.

(** One iteration of the linking loop. *)
Definition link_level (h : nheap) (nl : loc) (rank0 : Z) (i : nat) (u : loc) (r : Z)
    : option nheap :=
  fu ← get_forward h u i;
  h1 ← set_forward h nl i fu;
  h2 ← set_forward h1 u i (Some nl);
  su ← get_span h2 u i;
  h3 ← set_span h2 nl i (u64 (su - u64 (rank0 - r)));
  set_span h3 u i (u64 (u64 (rank0 - r) + 1)).

Fixpoint link_levels (h : nheap) (nl : loc) (rank0 : Z) (i : nat) (upd : list (loc * Z))
    : option nheap :=
  match upd with
  | [] => Some h
  | (u, r) :: rest => h' ← link_level h nl rank0 i u r; link_levels h' nl rank0 (S i) rest
  end.

(** [update[i]->span[i]++] for the levels above the new node. *)
Fixpoint bump_levels (h : nheap) (i : nat) (upd : list (loc * Z)) : option nheap :=
  match upd with
  | [] => Some h
  | (u, _) :: rest =>
      su ← get_span h u i;
      h' ← set_span h u i (u64 (su + 1));
      bump_levels h' (S i) rest
  end.

(** The part of [Insert] after [RandomLevel()]. *)
Definition insert_node (sl : SkipList) (upd : list (loc * Z)) (level : nat)
    (s : double) (m : bytes) : option SkipList :=
  let grow := (level - level_ sl)%nat in
  let upd' := upd ++ replicate grow (header_ sl, 0) in
  h1 ← raise_levels (heap sl) (header_ sl) (length_ sl) (level_ sl) grow;
  let level' := Nat.max level (level_ sl) in
  let nl := next_loc sl in
  let h2 := <[nl := blank_node s m level]> h1 in
  rank0 ← snd <$> upd' !! 0%nat;
  h3 ← link_levels h2 nl rank0 0 (take level upd');
  h4 ← bump_levels h3 level (drop level upd');
  Some (mkSkipList h4 (S nl) (header_ sl) level' (u64 (length_ sl + 1))).

Definition Insert (rnd : nat -> Z) (sl : SkipList) (s : double) (m : bytes)
    : option (bool * SkipList) :=
  '(x, upd) ← descend (walk_fuel sl) (heap sl) (fun s' m' => KeyLess s' m' s m)
                (level_ sl) (header_ sl) 0;
  cand ← get_forward (heap sl) x 0;
  dup ← match cand with
        | None => Some None
        | Some c => k ← get_key (heap sl) c; Some (if KeyEqual k.1 k.2 s m then Some c else None)
        end;
  match dup with
  | Some c =>
      h ← set_score (heap sl) c s;
      Some (false, mkSkipList h (next_loc sl) (header_ sl) (level_ sl) (length_ sl))
  | None =>
      sl' ← insert_node sl upd (RandomLevel rnd) s m;
      Some (true, sl')
  end.

(** ** Destruction and moves *)

(** The loop of [~SkipList]: [None] when a node is read after it was freed. *)
Fixpoint free_from (fuel : nat) (h : nheap) (x : option loc) : option nheap :=
  match x with
  | None => Some h
  | Some l =>
      match fuel with
      | O => None
      | S f => next ← get_forward h l 0; free_from f (delete l h) next
      end
  end.

(** [~SkipList]: the heap that is left. *)
Definition Destroy (sl : SkipList) : option nheap :=
  x ← get_forward (heap sl) (header_ sl) 0;
  h ← free_from (walk_fuel sl) (heap sl) x;
  _ ← h !! header_ sl;
  Some (delete (header_ sl) h).

(** [SkipList(SkipList&& other)]: the new list and [other] afterwards. *)
Definition MoveFrom (other : SkipList) : SkipList * SkipList := (other, empty_list).

(** [operator=(SkipList&& other)] on two different objects. *)
Definition MoveAssign (this other : SkipList) : option (SkipList * SkipList) :=
  _ ← Destroy this; Some (MoveFrom other).

(** ** Deletion *)

Definition unlink_level (h : nheap) (x : loc) (i : nat) (u : loc) : option nheap :=
  fu ← get_forward h u i;
  if bool_decide (fu = Some x) then
    fx ← get_forward h x i;
    h1 ← match fx with
         | Some _ =>
             su ← get_span h u i; sx ← get_span h x i;
             set_span h u i (u64 (su + u64 (sx - 1)))
         | None => set_span h u i 0
         end;
    set_forward h1 u i fx
  else
    su ← get_span h u i;
    set_span h u i (u64 (su - 1)).

Fixpoint unlink_levels (h : nheap) (x : loc) (i : nat) (upd : list (loc * Z)) : option nheap :=
  match upd with
  | [] => Some h
  | (u, _) :: rest => h' ← unlink_level h x i u; unlink_levels h' x (S i) rest
  end.

(** [while (level_ > 1 && header_->forward[level_ - 1] == nullptr) --level_;] *)
Fixpoint shrink_level (h : nheap) (hd : loc) (level : nat) : option nat :=
  match level with
  | S ((S _) as l) =>
      f ← get_forward h hd l;
      match f with None => shrink_level h hd l | Some _ => Some level end
  | _ => Some level
  end.

Definition DeleteNode (sl : SkipList) (x : loc) (upd : list (loc * Z)) : option SkipList :=
  h ← unlink_levels (heap sl) x 0 (take (level_ sl) upd);
  level' ← shrink_level h (header_ sl) (level_ sl);
  _ ← h !! x;
  Some (mkSkipList (delete x h) (next_loc sl) (header_ sl) level' (u64 (length_ sl - 1))).

Definition Erase (sl : SkipList) (s : double) (m : bytes) : option (bool * SkipList) :=
  '(x, upd) ← FindNode sl s m;
  match x with
  | None => Some (false, sl)
  | Some c => sl' ← DeleteNode sl c upd; Some (true, sl')
  end.

(** ** Ranks *)

Definition rank_test (s : double) (m : bytes) (s' : double) (m' : bytes) : bool :=
  dlt s' s || (deq s' s && bytes_leb m' m).

Fixpoint rank_loop (fuel : nat) (h : nheap) (hd : loc) (s : double) (m : bytes) (i : nat)
    (x : loc) (rank : Z) : option Z :=
  match i with
  | O => Some SIZE_MAX
  | S j =>
      '(x', r') ← walk fuel h (rank_test s m) j x rank;
      if bool_decide (x' = hd) then rank_loop fuel h hd s m j x' r'
      else
        k ← get_key h x';
        if deq k.1 s && bool_decide (k.2 = m) then Some (u64 (r' - 1))
        else rank_loop fuel h hd s m j x' r'
  end.

Definition Rank (sl : SkipList) (s : double) (m : bytes) : option Z :=
  rank_loop (walk_fuel sl) (heap sl) (header_ sl) s m (level_ sl) (header_ sl) 0.

Definition RevRank (sl : SkipList) (s : double) (m : bytes) : option Z :=
  r ← Rank sl s m;
  Some (if r =? SIZE_MAX then SIZE_MAX
        else if length_ sl <=? r then SIZE_MAX
        else u64 (length_ sl - 1 - r)).

(** ** Traversals *)

(** The nodes met by [for (cur = start; cur; cur = cur->forward[0])]. *)
Fixpoint nodes_from (fuel : nat) (h : nheap) (cur : option loc) : option (list (double * bytes)) :=
  match cur with
  | None => Some []
  | Some x =>
      match fuel with
      | O => None
      | S f =>
          k ← get_key h x;
          nx ← get_forward h x 0;
          rest ← nodes_from f h nx;
          Some (k :: rest)
      end
  end.

(** The elements in the order of level 0, starting after the header. *)
Definition all_nodes (sl : SkipList) : option (list (double * bytes)) :=
  first ← get_forward (heap sl) (header_ sl) 0;
  nodes_from (walk_fuel sl) (heap sl) first.

(** The loop [while (x && r <= stop) { if (r >= start) emit; ++r; }]. *)
Fixpoint rank_window (start stop r : Z) (l : list (double * bytes)) : list (double * bytes) :=
  match l with
  | [] => []
  | k :: rest =>
      if r <=? stop then
        if start <=? r then k :: rank_window start stop (r + 1) rest
        else rank_window start stop (r + 1) rest
      else []
  end.

Definition RangeByRank (sl : SkipList) (start stop : Z) (rev_ : bool)
    : option (list (double * bytes)) :=
  if length_ sl =? 0 then Some [] else
  let llen := length_ sl in
  let start := if start <? 0 then llen + start else start in
  let stop := if stop <? 0 then llen + stop else stop in
  let start := if start <? 0 then 0 else start in
  if start >? llen - 1 then Some [] else
  if stop <? 0 then Some [] else
  let stop := if stop >? llen - 1 then llen - 1 else stop in
  if start >? stop then Some [] else
  l ← all_nodes sl;
  Some (if rev_ then rev (rank_window (llen - 1 - stop) (llen - 1 - start) 0 l)
        else rank_window start stop 0 l).

Definition below_min (r : ScoreRange) (v : double) : bool :=
  if min_exclusive r then dle v (r_min r) else dlt v (r_min r).
Definition above_max (r : ScoreRange) (v : double) : bool :=
  if max_exclusive r then dle (r_max r) v else dlt (r_max r) v.

(** The forward loop of [RangeByScore]; [out] is the number of elements already
    emitted. *)
Fixpoint score_window (r : ScoreRange) (offset count skipped out : Z) (l : list (double * bytes))
    : list (double * bytes) :=
  match l with
  | [] => []
  | k :: rest =>
      if below_min r k.1 then score_window r offset count skipped out rest
      else if above_max r k.1 then []
      else if (offset >? 0) && (skipped <? offset)
           then score_window r offset count (skipped + 1) out rest
      else if (count >? 0) && (out + 1 >=? count) then [k]
      else k :: score_window r offset count skipped (out + 1) rest
  end.

(** [while (cur && cur->score == r.min) cur = cur->forward[0];] *)
Fixpoint skip_ties (v : double) (l : list (double * bytes)) : list (double * bytes) :=
  match l with
  | [] => []
  | k :: rest => if deq k.1 v then skip_ties v rest else l
  end.

Definition in_range (r : ScoreRange) (v : double) : bool := negb (below_min r v) && negb (above_max r v).

Definition RangeByScore (sl : SkipList) (r : ScoreRange) (rev_ : bool) (offset count : Z)
    : option (list (double * bytes)) :=
  if count =? 0 then Some [] else
  if negb rev_ then
    x ← descend_to (walk_fuel sl) (heap sl) (fun s' _ => dlt s' (r_min r)) (level_ sl) (header_ sl);
    cur ← get_forward (heap sl) x 0;
    l ← nodes_from (walk_fuel sl) (heap sl) cur;
    let l := if min_exclusive r then skip_ties (r_min r) l else l in
    Some (score_window r offset count 0 0 l)
  else
    l ← all_nodes sl;
    let asc := List.filter (fun k => in_range r k.1) l in
    let total := zlen asc in
    (* signed overflow of [total - offset] *)
    if negb (in_i64 (total - offset)) then None else
    let end_ := total - offset in
    if end_ <=? 0 then Some [] else
    let start_idx := if count >? 0 then end_ - count else 0 in
    let start_idx := if start_idx <? 0 then 0 else start_idx in
    (* [asc.rbegin() + (asc.size() - end)] must stay inside [asc] *)
    if total <? end_ then None else
    Some (rev (substr asc (Z.to_nat start_idx) (Z.to_nat (end_ - start_idx)))).

Fixpoint count_loop (r : ScoreRange) (n : Z) (l : list (double * bytes)) : Z :=
  match l with
  | [] => n
  | k :: rest =>
      if below_min r k.1 then count_loop r n rest
      else if above_max r k.1 then n
      else count_loop r (u64 (n + 1)) rest
  end.

Definition CountInRange (sl : SkipList) (r : ScoreRange) : option Z :=
  l ← all_nodes sl; Some (count_loop r 0 l).

Definition ScoreOf (sl : SkipList) (m : bytes) : option double :=
  l ← all_nodes sl;
  Some (match List.find (fun k => bool_decide (k.2 = m)) l with
        | Some k => k.1
        | None => dzero
        end).

(** ** Popping the ends *)

Definition PopMin (sl : SkipList) : option (option (double * bytes) * SkipList) :=
  first ← get_forward (heap sl) (header_ sl) 0;
  match first with
  | None => Some (None, sl)
  | Some x =>
      k ← get_key (heap sl) x;
      '(_, upd) ← FindNode sl k.1 k.2;
      sl' ← DeleteNode sl x upd;
      Some (Some k, sl')
  end.

Definition PopMax (sl : SkipList) : option (option (double * bytes) * SkipList) :=
  x ← descend_to (walk_fuel sl) (heap sl) (fun _ _ => true) (level_ sl) (header_ sl);
  if bool_decide (x = header_ sl) then Some (None, sl)
  else
    k ← get_key (heap sl) x;
    '(_, upd) ← FindNode sl k.1 k.2;
    sl' ← DeleteNode sl x upd;
    Some (Some k, sl').
