(* ===== verification/SkipListInv.v ===== *)
(** * The skip list: key order, heap views, invariant and searches

    The invariant [rep sl ls hs ks] relates a skip list to the sequence [ls] of
    its nodes in level-0 order (the header first), their heights [hs] and their
    keys [ks].  Every search is characterised by the cut of [ks] that its test
    makes: the walk at level [i] stops on the last node of height above [i]
    before the cut, and the accumulated rank is the position of that node. *)

From S2P Require Import Prelude Bytes Double SkipList.
From Stdlib Require Import Sorting.Sorted.
Local Open Scope Z_scope.

Abbreviation key := (double * bytes)%type.

Definition key_lt (a b : key) : Prop := KeyLess a.1 a.2 b.1 b.2 = true.
Definition key_eq (a b : key) : Prop := KeyEqual a.1 a.2 b.1 b.2 = true.
Definition num (k : key) : Prop := isnan k.1 = false.

(** ** Keys with numeric scores are strictly and totally ordered *)

Lemma key_lt_spec a b :
  num a -> num b ->
  key_lt a b <->
  rank_lt (drank a.1) (drank b.1) \/
  (drank a.1 = drank b.1 /\ bytes_compare a.2 b.2 = Lt).
Proof.
  intros Ha Hb. unfold key_lt, KeyLess, bytes_ltb.
  pose proof (deq_rank _ _ Ha Hb) as He. pose proof (dlt_rank _ _ Ha Hb) as Hl.
  destruct (deq a.1 b.1) eqn:E; simpl.
  - assert (drank a.1 = drank b.1) as Hr by (by apply He).
    rewrite Hr in *. destruct (bytes_compare a.2 b.2); split; auto; try done;
      intros [H|[_ H]]; try done; by apply rank_lt_irrefl in H.
  - rewrite Hl. split; [by left|]. intros [H|[H _]]; [done|]. by apply He in H.
Qed.

Lemma key_eq_spec a b :
  num a -> num b -> key_eq a b <-> drank a.1 = drank b.1 /\ a.2 = b.2.
Proof.
  intros Ha Hb. unfold key_eq, KeyEqual.
  rewrite andb_true_iff, bool_decide_eq_true, (deq_rank _ _ Ha Hb). done.
Qed.

Lemma key_lt_trans a b c : num a -> num b -> num c -> key_lt a b -> key_lt b c -> key_lt a c.
Proof.
  intros Ha Hb Hc. rewrite !key_lt_spec by done.
  intros [H|[H1 H2]] [H'|[H1' H2']].
  - left. by eapply rank_lt_trans.
  - left. by rewrite <- H1'.
  - left. by rewrite H1.
  - right. split; [congruence|]. by eapply bytes_compare_trans.
Qed.

Lemma key_lt_irrefl a : num a -> ~ key_lt a a.
Proof.
  intros Ha. rewrite key_lt_spec by done. intros [H|[_ H]].
  - by apply rank_lt_irrefl in H.
  - by rewrite bytes_compare_refl in H.
Qed.

Lemma key_trichotomy a b : num a -> num b -> key_lt a b \/ key_eq a b \/ key_lt b a.
Proof.
  intros Ha Hb. rewrite !key_lt_spec, key_eq_spec by done.
  destruct (rank_lt_total (drank a.1) (drank b.1)) as [|[E|]]; [by auto| |by auto].
  rewrite E. rewrite (bytes_compare_antisym a.2 b.2).
  destruct (bytes_compare a.2 b.2) eqn:Ec; simpl; auto.
  apply bytes_compare_eq in Ec. auto.
Qed.

Lemma key_eq_lt a b c : num a -> num b -> num c -> key_eq a b -> key_lt c a -> key_lt c b.
Proof.
  intros Ha Hb Hc. rewrite key_eq_spec, !key_lt_spec by done. intros [-> ->]. done.
Qed.

Lemma key_eq_sym a b : num a -> num b -> key_eq a b -> key_eq b a.
Proof. intros Ha Hb. rewrite !key_eq_spec by done. intros [-> ->]. done. Qed.

Lemma key_eq_lt_l a b c : num a -> num b -> num c -> key_eq a b -> key_lt a c -> key_lt b c.
Proof.
  intros Ha Hb Hc. rewrite key_eq_spec, !key_lt_spec by done. intros [-> ->]. done.
Qed.

Lemma key_eq_not_lt a b : num a -> num b -> key_eq a b -> ~ key_lt a b.
Proof.
  intros Ha Hb He Hl. apply (key_lt_irrefl a Ha).
  apply (key_eq_lt b a a); [done..| |done]. by apply key_eq_sym.
Qed.

(** ** The cut a test makes in a sorted sequence *)

Definition sorted (ks : list key) : Prop := StronglySorted key_lt ks.

Definition cut (t : double -> bytes -> bool) (ks : list key) (K : nat) : Prop :=
  (K <= length ks)%nat /\
  forall j x, ks !! j = Some x -> (t x.1 x.2 = true <-> (j < K)%nat).

Definition cutpos (t : double -> bytes -> bool) (ks : list key) : nat :=
  length (fst (span (fun k => t k.1 k.2) ks)).

Definition down_closed (t : double -> bytes -> bool) (ks : list key) : Prop :=
  forall a b, a ∈ ks -> b ∈ ks -> key_lt a b -> t b.1 b.2 = true -> t a.1 a.2 = true.

Lemma sorted_lookup ks i j a b :
  sorted ks -> ks !! i = Some a -> ks !! j = Some b -> (i < j)%nat -> key_lt a b.
Proof.
  intros Hs. revert i j. induction Hs as [|x ks Hs IH Hx]; intros i j Hi Hj Hij; [done|].
  destruct j as [|j]; [lia|]. destruct i as [|i]; simpl in *.
  - simplify_eq. rewrite List.Forall_forall in Hx. apply Hx.
    apply list_elem_of_In. by apply list_elem_of_lookup_2 in Hj.
  - apply (IH i j); [done..|lia].
Qed.

Lemma cutpos_cut t ks : sorted ks -> down_closed t ks -> cut t ks (cutpos t ks).
Proof.
  intros Hs Hd. unfold cutpos.
  destruct (span (fun k => t k.1 k.2) ks) as [a r] eqn:E.
  destruct (span_spec _ _ _ _ E) as (-> & Ha & Hr). simpl. split; [len_solve|].
  intros j x Hj. split; intros Ht.
  - destruct (decide (j < length a)%nat) as [|Hge]; [done|]. exfalso.
    rewrite lookup_app_r in Hj by lia. destruct r as [|y r]; [by rewrite lookup_nil in Hj|].
    destruct (decide (j = length a)) as [->|Hne].
    { rewrite Nat.sub_diag in Hj. simpl in Hj. simplify_eq. congruence. }
    assert (key_lt y x).
    { apply (sorted_lookup (a ++ y :: r) (length a) j); [done| | |lia].
      - by rewrite lookup_app_r, Nat.sub_diag.
      - by rewrite lookup_app_r by lia. }
    assert (t y.1 y.2 = true); [|congruence].
    apply (Hd y x); [| |done|done].
    + rewrite elem_of_app, elem_of_cons. auto.
    + rewrite elem_of_app. right. by apply list_elem_of_lookup_2 in Hj.
  - rewrite lookup_app_l in Hj by done. rewrite Forall_forall in Ha.
    apply Ha. by apply list_elem_of_lookup_2 in Hj.
Qed.

Lemma less_down_closed ks k : Forall num ks -> num k ->
  down_closed (fun s m => KeyLess s m k.1 k.2) ks.
Proof.
  intros Hn Hk a b Ha Hb Hab Hb'. rewrite Forall_forall in Hn.
  by apply (key_lt_trans a b k); auto.
Qed.

(** ** Views of the heap under updates *)

Lemma set_forward_views h l i v :
  is_Some (get_forward h l i) ->
  exists h', set_forward h l i v = Some h' /\
    (forall l' j, get_forward h' l' j =
       if decide (l' = l /\ j = i) then Some v else get_forward h l' j) /\
    (forall l' j, get_span h' l' j = get_span h l' j) /\
    (forall l', get_key h' l' = get_key h l') /\
    dom h' = dom h.
Proof.
  unfold get_forward, get_span, get_key, set_forward. intros [w Hw].
  destruct (h !! l) as [n|] eqn:Hl; simpl in Hw; [|done]. simpl. rewrite Hw. simpl.
  eexists. split; [done|]. repeat split; intros; [| | |].
  - destruct (decide (l' = l)) as [->|Hne].
    + rewrite lookup_insert_eq, Hl. simpl. destruct (decide (j = i)) as [->|Hji].
      * rewrite decide_True by done. apply list_lookup_insert_eq. by apply lookup_lt_Some in Hw.
      * rewrite decide_False by naive_solver. by apply list_lookup_insert_ne.
    + rewrite lookup_insert_ne by done. by rewrite decide_False by naive_solver.
  - destruct (decide (l' = l)) as [->|Hne]; simplify_map_eq; done.
  - destruct (decide (l' = l)) as [->|Hne]; simplify_map_eq; done.
  - rewrite dom_insert_L. apply elem_of_dom_2 in Hl. set_solver.
Qed.

Lemma set_span_views h l i v :
  is_Some (get_span h l i) ->
  exists h', set_span h l i v = Some h' /\
    (forall l' j, get_span h' l' j =
       if decide (l' = l /\ j = i) then Some v else get_span h l' j) /\
    (forall l' j, get_forward h' l' j = get_forward h l' j) /\
    (forall l', get_key h' l' = get_key h l') /\
    dom h' = dom h.
Proof.
  unfold get_forward, get_span, get_key, set_span. intros [w Hw].
  destruct (h !! l) as [n|] eqn:Hl; simpl in Hw; [|done]. simpl. rewrite Hw. simpl.
  eexists. split; [done|]. repeat split; intros; [| | |].
  - destruct (decide (l' = l)) as [->|Hne].
    + rewrite lookup_insert_eq, Hl. simpl. destruct (decide (j = i)) as [->|Hji].
      * rewrite decide_True by done. apply list_lookup_insert_eq. by apply lookup_lt_Some in Hw.
      * rewrite decide_False by naive_solver. by apply list_lookup_insert_ne.
    + rewrite lookup_insert_ne by done. by rewrite decide_False by naive_solver.
  - destruct (decide (l' = l)) as [->|Hne]; simplify_map_eq; done.
  - destruct (decide (l' = l)) as [->|Hne]; simplify_map_eq; done.
  - rewrite dom_insert_L. apply elem_of_dom_2 in Hl. set_solver.
Qed.

(** ** The invariant *)

(** [q] is the next position after [p] whose node is taller than [i]. *)
Definition is_next (hs : list nat) (p i q : nat) : Prop :=
  (p < q)%nat /\ (exists h, hs !! q = Some h /\ (i < h)%nat) /\
  forall r h, (p < r < q)%nat -> hs !! r = Some h -> (h <= i)%nat.

Definition no_next (hs : list nat) (p i : nat) : Prop :=
  forall r h, (p < r)%nat -> hs !! r = Some h -> (h <= i)%nat.

(** The link of the node [l] at position [p] on level [i]: it leads to the next
    taller node and its span is the distance; a null link has no span to
    respect. *)
Definition link_ok (h : nheap) (ls : list loc) (hs : list nat) (p : nat) (l : loc) (i : nat) : Prop :=
  (exists q l', is_next hs p i q /\ ls !! q = Some l' /\
     get_forward h l i = Some (Some l') /\ get_span h l i = Some (Z.of_nat (q - p))) \/
  (no_next hs p i /\ get_forward h l i = Some None /\ is_Some (get_span h l i)).

(** [G] is what is known of the keys; the links do not depend on it. *)
Record shape (G : list key -> Prop) (sl : SkipList) (ls : list loc) (hs : list nat) (ks : list key) : Prop := mkRep {
  rep_len_hs : length hs = length ls;
  rep_len_ks : length ls = S (length ks);
  rep_header : ls !! 0%nat = Some (header_ sl);
  rep_header_height : hs !! 0%nat = Some kMaxLevel;
  rep_nodup : NoDup ls;
  rep_dom : forall l, l ∈ dom (heap sl) <-> l ∈ ls;
  rep_fresh : forall l, l ∈ ls -> (l < next_loc sl)%nat;
  rep_keys : forall p l, ls !! S p = Some l -> get_key (heap sl) l = ks !! p;
  rep_heights : forall p h, hs !! S p = Some h -> (1 <= h <= level_ sl)%nat;
  rep_level : (1 <= level_ sl <= kMaxLevel)%nat;
  rep_links : forall p l h i, ls !! p = Some l -> hs !! p = Some h -> (i < h)%nat ->
                link_ok (heap sl) ls hs p l i;
  rep_good : G ks;
  rep_length : length_ sl = zlen ks /\ zlen ks < U64 - 1
}.
Arguments rep_len_hs {G}. Arguments rep_len_ks {G}. Arguments rep_header {G}. Arguments rep_header_height {G}.
Arguments rep_nodup {G}. Arguments rep_dom {G}. Arguments rep_fresh {G}. Arguments rep_keys {G}.
Arguments rep_heights {G}. Arguments rep_level {G}. Arguments rep_links {G}. Arguments rep_good {G}.
Arguments rep_length {G}.

(** The keys of a list that was filled with numeric scores only. *)
Definition ordered (ks : list key) : Prop := sorted ks /\ Forall num ks.
Abbreviation rep := (shape ordered).

Lemma rep_sorted sl ls hs ks : rep sl ls hs ks -> sorted ks.
Proof. intros R. apply (rep_good _ _ _ _ R). Qed.
Lemma rep_num sl ls hs ks : rep sl ls hs ks -> Forall num ks.
Proof. intros R. apply (rep_good _ _ _ _ R). Qed.

(** [wf sl ks]: the list is well formed and holds exactly the keys [ks]. *)
Definition wf (sl : SkipList) (ks : list key) : Prop := exists ls hs, rep sl ls hs ks.

Lemma rep_height_pos {G} sl ls hs ks p h :
  shape G sl ls hs ks -> hs !! p = Some h -> (1 <= h <= kMaxLevel)%nat.
Proof.
  intros R Hp. destruct p as [|p].
  - rewrite (rep_header_height _ _ _ _ R) in Hp. injection Hp as <-. unfold kMaxLevel. lia.
  - pose proof (rep_heights _ _ _ _ R _ _ Hp). pose proof (rep_level _ _ _ _ R). lia.
Qed.

Lemma rep_size {G} sl ls hs ks : shape G sl ls hs ks -> size (heap sl) = length ls.
Proof.
  intros R. rewrite <- size_dom.
  assert (dom (heap sl) = list_to_set ls) as ->.
  { apply set_eq. intros l. rewrite elem_of_list_to_set. apply (rep_dom _ _ _ _ R). }
  apply size_list_to_set. apply (rep_nodup _ _ _ _ R).
Qed.

(** ** Searches *)

(** [pr] is the last position up to [K] whose node is taller than [i]. *)
Definition is_pred (hs : list nat) (i K pr : nat) : Prop :=
  (pr <= K)%nat /\ (exists h, hs !! pr = Some h /\ (i < h)%nat) /\
  forall r h, (pr < r <= K)%nat -> hs !! r = Some h -> (h <= i)%nat.

Lemma is_pred_unique hs i K a b : is_pred hs i K a -> is_pred hs i K b -> a = b.
Proof.
  intros (Ha & [ha [Eha Hha]] & Pa) (Hb & [hb [Ehb Hhb]] & Pb).
  destruct (Nat.lt_trichotomy a b) as [Hlt|[|Hgt]]; [|done|].
  - specialize (Pa b hb ltac:(lia) Ehb). lia.
  - specialize (Pb a ha ltac:(lia) Eha). lia.
Qed.

Lemma is_pred_next hs i K p q :
  is_pred hs i K p -> is_next hs p i q -> (K < q)%nat.
Proof.
  intros (_ & _ & Hp) (Hpq & (h & Eh & Hh) & _).
  destruct (decide (q <= K)%nat); [|lia]. specialize (Hp q h ltac:(lia) Eh). lia.
Qed.

Lemma not_pred_next hs i K p q h pr :
  is_pred hs i K pr -> hs !! p = Some h -> (i < h)%nat -> (p < pr)%nat ->
  is_next hs p i q -> (q <= pr)%nat.
Proof.
  intros (_ & (hp & Ehp & Hhp) & _) Hp Hi Hlt (_ & _ & Hbet).
  destruct (decide (q <= pr)%nat); [done|]. specialize (Hbet pr hp ltac:(lia) Ehp). lia.
Qed.

(** On level 0 every node links to the next position. *)
Lemma level0_next {G} sl ls hs ks p l :
  shape G sl ls hs ks -> ls !! p = Some l -> get_forward (heap sl) l 0 = Some (ls !! S p).
Proof.
  intros R Hl. assert (Hpos : forall q h, hs !! q = Some h -> (0 < h)%nat).
  { intros q h Hq. pose proof (rep_height_pos _ _ _ _ _ _ R Hq). lia. }
  assert (Hlen := rep_len_hs _ _ _ _ R). pose proof (lookup_lt_Some _ _ _ Hl) as Hlt.
  destruct (lookup_lt_is_Some_2 hs p) as [h Hh]; [lia|].
  destruct (rep_links _ _ _ _ R p l h 0 Hl Hh) as [(q & l' & (Hq & _ & Hb) & Hl' & -> & _)|(Hno & -> & _)];
    [by eauto| |].
  - destruct (decide (q = S p)) as [->|Hne]; [by rewrite Hl'|].
    pose proof (lookup_lt_Some _ _ _ Hl').
    destruct (lookup_lt_is_Some_2 hs (S p)) as [h' Hh']; [lia|].
    specialize (Hb (S p) h' ltac:(lia) Hh'). specialize (Hpos _ _ Hh'). lia.
  - destruct (ls !! S p) as [l'|] eqn:E; [|done]. pose proof (lookup_lt_Some _ _ _ E).
    destruct (lookup_lt_is_Some_2 hs (S p)) as [h' Hh']; [lia|].
    specialize (Hno (S p) h' ltac:(lia) Hh'). specialize (Hpos _ _ Hh'). lia.
Qed.

Section search.
Context {G : list key -> Prop} (sl : SkipList) (ls : list loc) (hs : list nat) (ks : list key).
Context (R : shape G sl ls hs ks).
Context (t : double -> bytes -> bool) (K : nat) (C : cut t ks K).

(** The key of a position after the header, and the test on it. *)
Lemma key_at p l :
  ls !! S p = Some l ->
  exists k, ks !! p = Some k /\ get_key (heap sl) l = Some k /\
    (t k.1 k.2 = true <-> (S p <= K)%nat).
Proof.
  intros Hl. pose proof (rep_keys _ _ _ _ R _ _ Hl) as Hk.
  assert (is_Some (ks !! p)) as [k Ek].
  { apply lookup_lt_is_Some. apply lookup_lt_Some in Hl.
    rewrite (rep_len_ks _ _ _ _ R) in Hl. lia. }
  exists k. rewrite Hk, Ek. split_and!; try done; rewrite (proj2 C p k Ek); lia.
Qed.

Lemma K_bound : (K < length ls)%nat.
Proof. rewrite (rep_len_ks _ _ _ _ R). destruct C. lia. Qed.

Lemma walk_spec fuel i p x h :
  ls !! p = Some x -> hs !! p = Some h -> (i < h)%nat -> (p <= K)%nat -> (K - p < fuel)%nat ->
  exists pr y, walk fuel (heap sl) t i x (Z.of_nat p) = Some (y, Z.of_nat pr) /\
    ls !! pr = Some y /\ is_pred hs i K pr /\ (p <= pr)%nat.
Proof.
  revert p x h. induction fuel as [|f IH]; intros p x h Hx Hh Hi HpK Hf; [lia|]. simpl.
  destruct (rep_links _ _ _ _ R p x h i Hx Hh Hi)
    as [(q & l' & Hn & Hl' & -> & ->)|(Hno & -> & _)]; simpl.
  - pose proof Hn as (Hpq & (hq & Ehq & Hhq) & Hbet).
    destruct q as [|q]; [lia|].
    destruct (key_at q l' Hl') as (k & _ & -> & Ht). simpl.
    destruct (t k.1 k.2) eqn:Et.
    + assert (S q <= K)%nat by (by apply Ht).
      replace (u64 (Z.of_nat p + Z.of_nat (S q - p))) with (Z.of_nat (S q)).
      * destruct (IH (S q) l' hq) as (pr & y & Hw & Hy & Hpr & Hle); try done; [lia|].
        exists pr, y. split_and!; try done; lia.
      * rewrite u64_small; [lia|]. pose proof K_bound. destruct (rep_length _ _ _ _ R).
        pose proof (rep_len_ks _ _ _ _ R). unfold zlen in *. lia.
    + assert (K < S q)%nat by (destruct (decide (S q <= K)%nat) as [Hle|]; [apply Ht in Hle; done|lia]).
      exists p, x. split_and!; try done. split; [lia|]. split; [eauto|]. intros r hr Hr. apply Hbet. lia.
  - exists p, x. split_and!; try done. split; [lia|]. split; [eauto|]. intros r hr Hr. apply Hno. lia.
Qed.

(** What a descent from level [i] leaves in [update] and [rank]. *)
Definition upd_ok (i : nat) (upd : list (loc * Z)) : Prop :=
  length upd = i /\
  forall j u r, upd !! j = Some (u, r) ->
    exists pr, r = Z.of_nat pr /\ ls !! pr = Some u /\ is_pred hs j K pr.

Lemma descend_spec fuel i p x h :
  ls !! p = Some x -> hs !! p = Some h -> (i <= h)%nat -> (p <= K)%nat -> (K < fuel)%nat ->
  exists y upd, descend fuel (heap sl) t i x (Z.of_nat p) = Some (y, upd) /\
    upd_ok i upd /\
    (match i with O => y = x | S _ => ls !! K = Some y end).
Proof.
  revert p x h. induction i as [|i IH]; intros p x h Hx Hh Hi HpK Hf; simpl.
  { by exists x, []. }
  destruct (walk_spec fuel i p x h) as (pr & y & -> & Hy & Hpr & Hle); try done; [lia..|]. simpl.
  pose proof Hpr as (HprK & (hp & Ehp & Hhp) & Hlast).
  destruct (IH pr y hp) as (z & upd & -> & [Hlen Hupd] & Hz); try done; [lia|]. simpl.
  exists z, (upd ++ [(y, Z.of_nat pr)]). split_and!; [done|split|].
  - rewrite length_app. simpl. lia.
  - intros j u r. rewrite lookup_app. destruct (upd !! j) as [[u' r']|] eqn:E.
    + intros [= <- <-]. by apply Hupd.
    + apply lookup_ge_None in E. intros Hj.
      assert (j = i) as -> by (apply lookup_lt_Some in Hj; simpl in Hj; lia).
      rewrite Hlen, Nat.sub_diag in Hj. simpl in Hj. simplify_eq. eauto.
  - destruct i as [|i]; [|done]. subst z.
    assert (pr = K) as <-; [|done].
    destruct (decide (pr = K)) as [|Hne]; [done|]. exfalso.
    assert (is_Some (hs !! K)) as [hK EK].
    { apply lookup_lt_is_Some. rewrite (rep_len_hs _ _ _ _ R). apply K_bound. }
    pose proof (rep_height_pos _ _ _ _ _ _ R EK).
    specialize (Hlast K hK ltac:(lia) EK). lia.
Qed.

(** The search from the header over all levels. *)
Lemma search_spec :
  exists y upd,
    descend (walk_fuel sl) (heap sl) t (level_ sl) (header_ sl) 0 = Some (y, upd) /\
    upd_ok (level_ sl) upd /\ ls !! K = Some y.
Proof.
  destruct (descend_spec (walk_fuel sl) (level_ sl) 0 (header_ sl) kMaxLevel)
    as (y & upd & Hd & Hu & Hy).
  - apply (rep_header _ _ _ _ R).
  - apply (rep_header_height _ _ _ _ R).
  - apply (rep_level _ _ _ _ R).
  - lia.
  - unfold walk_fuel. rewrite (rep_size _ _ _ _ R). apply K_bound.
  - exists y, upd. split_and!; try done; try apply Hu.
    pose proof (rep_level _ _ _ _ R). destruct (level_ sl); [lia|done].
Qed.

End search.

(** ** Facts on positions and update entries *)

Section positions_of.
Context {G : list key -> Prop} (sl : SkipList) (ls : list loc) (hs : list nat) (ks : list key).
Context (R : shape G sl ls hs ks).

Lemma lookup_inj p q l : ls !! p = Some l -> ls !! q = Some l -> p = q.
Proof. intros. by eapply NoDup_lookup; [apply (rep_nodup _ _ _ _ R)|..]. Qed.

Lemma pos_small p : (p <= length ls)%nat -> 0 <= Z.of_nat p < U64.
Proof.
  intros Hp. destruct (rep_length _ _ _ _ R) as [_ Hb]. rewrite (rep_len_ks _ _ _ _ R) in Hp.
  unfold zlen, U64 in *. lia.
Qed.

Lemma next_bound p i q : is_next hs p i q -> (q < length ls)%nat.
Proof.
  intros (_ & (h & Hh & _) & _). rewrite <- (rep_len_hs _ _ _ _ R).
  by apply lookup_lt_Some in Hh.
Qed.

(** The node after a position. *)
Lemma after_pos K y :
  ls !! K = Some y ->
  (exists l k, ls !! S K = Some l /\ ks !! K = Some k /\
     get_forward (heap sl) y 0 = Some (Some l) /\ get_key (heap sl) l = Some k) \/
  (ks !! K = None /\ get_forward (heap sl) y 0 = Some None).
Proof.
  intros Hy. rewrite (level0_next sl ls hs ks K y R Hy). pose proof (rep_len_ks _ _ _ _ R) as Hlk.
  destruct (ls !! S K) as [l|] eqn:El.
  - left. pose proof (lookup_lt_Some _ _ _ El). destruct (lookup_lt_is_Some_2 ks K ltac:(lia)) as [k Hk].
    exists l, k. by rewrite (rep_keys _ _ _ _ R _ _ El).
  - right. apply lookup_ge_None in El. split; [|done]. apply lookup_ge_None. lia.
Qed.

(** Level [i] has an update entry unless it is above every node. *)
Lemma upd_cases K L upd p h i :
  upd_ok ls hs K L upd -> (level_ sl <= L)%nat -> hs !! p = Some h -> (i < h)%nat ->
  (exists u pr, upd !! i = Some (u, Z.of_nat pr) /\ ls !! pr = Some u /\ is_pred hs i K pr) \/
  (upd !! i = None /\ p = 0%nat /\ (L <= i)%nat).
Proof.
  intros [Hlen Hupd] HL Hh Hi. destruct (upd !! i) as [[u r]|] eqn:E.
  - left. destruct (Hupd _ _ _ E) as (pr & -> & ? & ?). by exists u, pr.
  - right. apply lookup_ge_None in E. split_and!; try done; [|lia].
    destruct p as [|p]; [done|]. pose proof (rep_heights _ _ _ _ R _ _ Hh). lia.
Qed.

(** A node taller than [i] up to [K] is not after the level's predecessor. *)
Lemma before_pred i K pr p h :
  is_pred hs i K pr -> hs !! p = Some h -> (i < h)%nat -> (p <= K)%nat -> (p <= pr)%nat.
Proof.
  intros (_ & _ & Hlast) Hh Hi Hp. destruct (decide (p <= pr)%nat); [done|].
  specialize (Hlast p h ltac:(lia) Hh). lia.
Qed.

(** Above the list's level the header has no successor. *)
Lemma header_top i q : (level_ sl <= i)%nat -> ~ is_next hs 0 i q.
Proof.
  intros Hi (Hq & (hq & Ehq & Hhq) & _). destruct q as [|q]; [lia|].
  pose proof (rep_heights _ _ _ _ R _ _ Ehq). lia.
Qed.
End positions_of.

(** The rank-free descent follows the same path. *)
Lemma walk_to_walk fuel h t i x r y r' :
  walk fuel h t i x r = Some (y, r') -> walk_to fuel h t i x = Some y.
Proof.
  revert x r. induction fuel as [|f IH]; intros x r; simpl; [done|].
  destruct (get_forward h x i) as [[z|]|]; simpl; [|by intros [= <- <-]|done].
  destruct (get_key h z) as [k|]; simpl; [|done].
  destruct (t k.1 k.2); [|by intros [= <- <-]].
  destruct (get_span h x i); simpl; [|done]. apply IH.
Qed.

Lemma descend_to_descend fuel h t i x r y upd :
  descend fuel h t i x r = Some (y, upd) -> descend_to fuel h t i x = Some y.
Proof.
  revert x r upd. induction i as [|i IH]; intros x r upd; simpl; [by intros [= <- _]|].
  destruct (walk fuel h t i x r) as [[x' r']|] eqn:E; simpl; [|done].
  rewrite (walk_to_walk _ _ _ _ _ _ _ _ E). simpl.
  destruct (descend fuel h t i x' r') as [[y' upd']|] eqn:E'; simpl; [|done].
  intros [= <- _]. by eapply IH.
Qed.
