(* ===== verification/SkipListInsert.v ===== *)
(** * The skip list: insertion preserves the invariant

    [link_levels] and [bump_levels] are first described field by field
    ([link_levels_views], [bump_levels_views]); the positions of the new list
    are then related to the old ones, and each link is checked on its level. *)

From S2P Require Import Prelude Bytes Double SkipList SkipListInv.
From Stdlib Require Import Sorting.Sorted.
Local Open Scope Z_scope.

(** Two heaps with the same nodes, keys apart from nothing: only links differ. *)
Definition same_frame (h h' : nheap) : Prop :=
  (forall l, get_key h' l = get_key h l) /\ dom h' = dom h.

Lemma same_frame_refl h : same_frame h h.
Proof. done. Qed.

Lemma same_frame_trans a b c : same_frame a b -> same_frame b c -> same_frame a c.
Proof. intros [H1 H2] [H3 H4]. split; [|congruence]. intros l. by rewrite H3, H1. Qed.

(** The update entry that a loop starting at level [i] uses for level [j]. *)
Definition entry_at (upd : list (loc * Z)) (i j : nat) : option (loc * Z) :=
  if decide (i <= j)%nat then upd !! (j - i)%nat else None.

Lemma entry_at_cons u r upd i j :
  entry_at ((u, r) :: upd) i j =
  if decide (j = i) then Some (u, r) else entry_at upd (S i) j.
Proof.
  unfold entry_at. repeat case_decide; subst; try lia; try done.
  - by rewrite Nat.sub_diag.
  - destruct (j - i)%nat as [|k] eqn:E; [lia|]. simpl. f_equal. lia.
Qed.

(** ** Field-by-field effect of the loops *)

Lemma raise_levels_views h hd len i n :
  (forall j, (i <= j < i + n)%nat -> is_Some (get_span h hd j)) ->
  exists h', raise_levels h hd len i n = Some h' /\ same_frame h h' /\
    (forall l j, get_forward h' l j = get_forward h l j) /\
    (forall l j, is_Some (get_span h l j) -> is_Some (get_span h' l j)) /\
    (forall l j, l <> hd \/ (j < i)%nat -> get_span h' l j = get_span h l j).
Proof.
  revert h i. induction n as [|n IH]; intros h i Hs; simpl.
  { exists h. split_and!; try done; apply same_frame_refl. }
  destruct (set_span_views h hd i len) as (h1 & -> & S1 & F1 & K1 & D1); [apply Hs; lia|]. simpl.
  destruct (IH h1 (S i)) as (h' & -> & Fr & F2 & I2 & S2).
  { intros j Hj. rewrite S1. case_decide; [done|]. apply Hs. lia. }
  exists h'. split_and!; try done.
  - eapply same_frame_trans; [|exact Fr]. done.
  - intros l j. by rewrite F2, F1.
  - intros l j Hj. apply I2. rewrite S1. by case_decide.
  - intros l j Hj. rewrite S2, S1 by (destruct Hj; auto; right; lia).
    case_decide; [|done]. destruct Hj; [naive_solver|lia].
Qed.

Lemma link_level_views h nl r0 i u r :
  u <> nl -> is_Some (get_forward h u i) -> is_Some (get_span h u i) ->
  is_Some (get_forward h nl i) -> is_Some (get_span h nl i) ->
  exists h', link_level h nl r0 i u r = Some h' /\ same_frame h h' /\
    (forall l j, get_forward h' l j =
       if decide (j = i) then
         if decide (l = nl) then get_forward h u i
         else if decide (l = u) then Some (Some nl) else get_forward h l j
       else get_forward h l j) /\
    (forall l j, get_span h' l j =
       if decide (j = i) then
         if decide (l = nl) then (fun su => u64 (su - u64 (r0 - r))) <$> get_span h u i
         else if decide (l = u) then Some (u64 (u64 (r0 - r) + 1)) else get_span h l j
       else get_span h l j).
Proof.
  intros Hne [fu Hfu] [su Hsu] Hfn Hsn. unfold link_level. rewrite Hfu. simpl.
  destruct (set_forward_views h nl i fu Hfn) as (h1 & -> & F1 & S1 & K1 & D1). simpl.
  destruct (set_forward_views h1 u i (Some nl)) as (h2 & -> & F2 & S2 & K2 & D2).
  { rewrite F1. case_decide; [done|]. by rewrite Hfu. }
  simpl. rewrite S2, S1, Hsu. simpl.
  destruct (set_span_views h2 nl i (u64 (su - u64 (r0 - r)))) as (h3 & -> & S3 & F3 & K3 & D3).
  { by rewrite S2, S1. }
  simpl.
  destruct (set_span_views h3 u i (u64 (u64 (r0 - r) + 1))) as (h4 & -> & S4 & F4 & K4 & D4).
  { rewrite S3, S2, S1. case_decide; [done|]. by rewrite Hsu. }
  exists h4. split_and!; [done|split| |].
  - intros l. by rewrite K4, K3, K2, K1.
  - congruence.
  - intros l j. rewrite F4, F3, F2, F1. repeat case_decide; naive_solver.
  - intros l j. rewrite S4, S3, S2, S1. simpl. repeat case_decide; naive_solver.
Qed.

(** What the linking loop needs of the heap for the level [j] of an entry. *)
Definition linkable (h : nheap) (nl u : loc) (j : nat) : Prop :=
  u <> nl /\ is_Some (get_forward h u j) /\ is_Some (get_span h u j) /\
  is_Some (get_forward h nl j) /\ is_Some (get_span h nl j).

Lemma link_levels_views upd : forall h nl r0 i,
  (forall j u r, entry_at upd i j = Some (u, r) -> linkable h nl u j) ->
  exists h', link_levels h nl r0 i upd = Some h' /\ same_frame h h' /\
    (forall l j, get_forward h' l j =
       match entry_at upd i j with
       | Some (u, _) => if decide (l = nl) then get_forward h u j
                        else if decide (l = u) then Some (Some nl) else get_forward h l j
       | None => get_forward h l j
       end) /\
    (forall l j, get_span h' l j =
       match entry_at upd i j with
       | Some (u, r) => if decide (l = nl) then (fun su => u64 (su - u64 (r0 - r))) <$> get_span h u j
                        else if decide (l = u) then Some (u64 (u64 (r0 - r) + 1)) else get_span h l j
       | None => get_span h l j
       end).
Proof.
  induction upd as [|[u r] upd IH]; intros h nl r0 i Hok; simpl.
  { exists h. split_and!; try done; intros l j; unfold entry_at; by case_decide. }
  destruct (Hok i u r) as (Hne & Hfu & Hsu & Hfn & Hsn); [by rewrite entry_at_cons, decide_True|].
  destruct (link_level_views h nl r0 i u r) as (h1 & -> & Fr1 & F1 & S1); try done. simpl.
  destruct (IH h1 nl r0 (S i)) as (h' & -> & Fr & F2 & S2).
  { intros j u' r' Hj. assert (i < j)%nat by (unfold entry_at in Hj; case_decide; [lia|done]).
    unfold linkable. rewrite !F1, !S1, !decide_False by lia.
    apply (Hok j u' r'). by rewrite entry_at_cons, decide_False by lia. }
  exists h'. split_and!; [done|by eapply same_frame_trans| |].
  - intros l j. rewrite F2, entry_at_cons. destruct (decide (j = i)) as [->|Hji].
    + assert (entry_at upd (S i) i = None) as -> by (unfold entry_at; case_decide; [lia|done]).
      by rewrite F1, decide_True.
    + destruct (entry_at upd (S i) j) as [[u' r']|]; by rewrite !F1, !(decide_False (P:=j = i)).
  - intros l j. rewrite S2, entry_at_cons. destruct (decide (j = i)) as [->|Hji].
    + assert (entry_at upd (S i) i = None) as -> by (unfold entry_at; case_decide; [lia|done]).
      by rewrite S1, decide_True.
    + destruct (entry_at upd (S i) j) as [[u' r']|]; by rewrite !S1, !(decide_False (P:=j = i)).
Qed.

Lemma bump_levels_views upd : forall h i,
  (forall j u r, entry_at upd i j = Some (u, r) -> is_Some (get_span h u j)) ->
  exists h', bump_levels h i upd = Some h' /\ same_frame h h' /\
    (forall l j, get_forward h' l j = get_forward h l j) /\
    (forall l j, get_span h' l j =
       match entry_at upd i j with
       | Some (u, _) => if decide (l = u) then (fun su => u64 (su + 1)) <$> get_span h u j
                        else get_span h l j
       | None => get_span h l j
       end).
Proof.
  induction upd as [|[u r] upd IH]; intros h i Hok; simpl.
  { exists h. split_and!; try done; intros l j; unfold entry_at; by case_decide. }
  destruct (Hok i u r) as [su Hsu]; [by rewrite entry_at_cons, decide_True|].
  rewrite Hsu. simpl.
  destruct (set_span_views h u i (u64 (su + 1))) as (h1 & -> & S1 & F1 & K1 & D1); [done|]. simpl.
  destruct (IH h1 (S i)) as (h' & -> & Fr & F2 & S2).
  { intros j u' r' Hj. assert (i < j)%nat by (unfold entry_at in Hj; case_decide; [lia|done]).
    rewrite S1, decide_False by lia. apply (Hok j u' r').
    by rewrite entry_at_cons, decide_False by lia. }
  exists h'. split_and!; [done|by eapply same_frame_trans; [split|]| |].
  - intros l j. by rewrite F2, F1.
  - intros l j. rewrite S2, entry_at_cons. destruct (decide (j = i)) as [->|Hji].
    + assert (entry_at upd (S i) i = None) as -> by (unfold entry_at; case_decide; [lia|done]).
      rewrite S1. destruct (decide (l = u)) as [->|Hlu].
      * by rewrite decide_True, Hsu.
      * by rewrite decide_False by (by intros []).
    + destruct (entry_at upd (S i) j) as [[u' r']|]; by rewrite !S1, !(decide_False (P:=_ /\ j = i)) by naive_solver.
Qed.

(** ** Positions before and after the insertion *)

Section positions.
Context (hs : list nat) (K lv : nat) (HK : (K < length hs)%nat).
Let hs' := ins_at (S K) lv hs.

Lemma hs'_lookup r :
  hs' !! r = if decide (r < S K)%nat then hs !! r
             else if decide (r = S K) then Some lv else hs !! (r - 1)%nat.
Proof. unfold hs'. apply ins_at_lookup. lia. Qed.

(** Move a fact about a position of [hs'] to the old position. *)
Ltac by_old H :=
  let r := fresh "r" in let hr := fresh "hr" in let Hr := fresh "Hr" in let Eh := fresh "Eh" in
  intros r hr Hr Eh; rewrite hs'_lookup in Eh; repeat case_decide; simplify_eq; try lia;
  solve [ apply (H r hr); done || lia | apply (H (r - 1)%nat hr); done || lia ].

Lemma next_below p i q : is_next hs p i q -> (q <= K)%nat -> is_next hs' p i q.
Proof.
  intros (H1 & (h & Eh & Hh) & H3) Hq. split; [lia|]. split.
  - exists h. rewrite hs'_lookup, decide_True by lia. done.
  - by_old H3.
Qed.

Lemma next_above p i q : is_next hs p i q -> (K < p)%nat -> is_next hs' (S p) i (S q).
Proof.
  intros (H1 & (h & Eh & Hh) & H3) Hp. split; [lia|]. split.
  - exists h. rewrite hs'_lookup, !decide_False by lia. simpl. by rewrite Nat.sub_0_r.
  - by_old H3.
Qed.

Lemma next_across p i q :
  is_next hs p i q -> (p <= K < q)%nat -> (lv <= i)%nat -> is_next hs' p i (S q).
Proof.
  intros (H1 & (h & Eh & Hh) & H3) Hp Hlv. split; [lia|]. split.
  - exists h. rewrite hs'_lookup, !decide_False by lia. simpl. by rewrite Nat.sub_0_r.
  - by_old H3.
Qed.

Lemma next_of_new p i q :
  is_next hs p i q -> (p <= K < q)%nat -> is_next hs' (S K) i (S q).
Proof.
  intros (H1 & (h & Eh & Hh) & H3) Hp. split; [lia|]. split.
  - exists h. rewrite hs'_lookup, !decide_False by lia. simpl. by rewrite Nat.sub_0_r.
  - by_old H3.
Qed.

Lemma next_is_new p i : is_pred hs i K p -> (i < lv)%nat -> is_next hs' p i (S K).
Proof.
  intros (H1 & _ & H3) Hi. split; [lia|]. split.
  - exists lv. by rewrite hs'_lookup, decide_False, decide_True by lia.
  - by_old H3.
Qed.

Lemma no_next_above p i : no_next hs p i -> (K < p)%nat -> no_next hs' (S p) i.
Proof. intros H Hp. by_old H. Qed.

Lemma no_next_across p i :
  no_next hs p i -> (p <= K)%nat -> (lv <= i)%nat -> no_next hs' p i.
Proof. intros H Hp Hlv. by_old H. Qed.

Lemma no_next_of_new p i : no_next hs p i -> (p <= K)%nat -> no_next hs' (S K) i.
Proof. intros H Hp. by_old H. Qed.
End positions.

(** ** Sortedness of the new key sequence *)

Lemma sorted_of_lookup ks :
  (forall i j a b, (i < j)%nat -> ks !! i = Some a -> ks !! j = Some b -> key_lt a b) -> sorted ks.
Proof.
  induction ks as [|k ks IH]; intros H; constructor.
  - apply IH. intros i j a b Hij Hi Hj. apply (H (S i) (S j)); [lia|done..].
  - apply List.Forall_forall. intros x Hx.
    apply list_elem_of_In, list_elem_of_lookup_1 in Hx as [j Hj].
    apply (H 0%nat (S j)); [lia|done..].
Qed.

Lemma ordered_ins_at ks k K :
  ordered ks -> num k -> cut (fun s m => KeyLess s m k.1 k.2) ks K ->
  (forall x, ks !! K = Some x -> ~ key_eq x k) ->
  ordered (ins_at K k ks).
Proof.
  intros [Hs Hn] Hk [HK Hc] Hne. split; [|rewrite ins_at_perm; by constructor].
  assert (Hnum : forall j x, ks !! j = Some x -> num x).
  { intros j x Hx. rewrite Forall_forall in Hn. apply Hn. by eapply list_elem_of_lookup_2. }
  (* every key from the cut on is greater than [k] *)
  assert (Hgt : forall j x, ks !! j = Some x -> (K <= j)%nat -> key_lt k x).
  { intros j x Hx Hj.
    assert (is_Some (ks !! K)) as [y Hy].
    { apply lookup_lt_is_Some. apply lookup_lt_Some in Hx. lia. }
    assert (key_lt k y) as Hky.
    { destruct (key_trichotomy y k) as [H|[H|H]]; eauto.
      - apply (Hc K y Hy) in H. lia.
      - by apply (Hne y) in H. }
    destruct (decide (j = K)) as [->|]; [by simplify_eq|].
    apply (key_lt_trans k y x); eauto.
    apply (sorted_lookup ks K j); [done..|lia]. }
  apply sorted_of_lookup. intros i j a b Hij.
  rewrite !ins_at_lookup by done. repeat case_decide; intros; simplify_eq; try lia.
  - by apply (sorted_lookup ks i j).
  - apply (Hc i a); done.
  - apply (sorted_lookup ks i (j - 1)); [done..|lia].
  - apply (Hgt (j - 1)%nat); [done|lia].
  - apply (sorted_lookup ks (i - 1) (j - 1)); [done..|lia].
Qed.

(** ** The insertion itself *)

Section insert.
Context {G : list key -> Prop} (sl : SkipList) (ls : list loc) (hs : list nat) (ks : list key).
Context (R : shape G sl ls hs ks).
Context (k : key) (K : nat) (HK : (K <= length ks)%nat).
Context (upd : list (loc * Z)) (U : upd_ok ls hs K (level_ sl) upd).
Context (level : nat) (Hlevel : (1 <= level <= kMaxLevel)%nat).

Let nl := next_loc sl.
Let level' := Nat.max level (level_ sl).
Let upd' := upd ++ replicate (level - level_ sl) (header_ sl, 0).

Lemma insert_K_bound : (K < length ls)%nat.
Proof. rewrite (rep_len_ks _ _ _ _ R). lia. Qed.

Lemma upd'_ok : upd_ok ls hs K level' upd'.
Proof.
  destruct U as [Hlen Hu]. split.
  - unfold upd', level'. rewrite length_app, length_replicate. lia.
  - intros j u r. unfold upd'. rewrite lookup_app. destruct (upd !! j) as [[u' r']|] eqn:E.
    + intros [= <- <-]. by apply Hu.
    + intros [[= -> ->] Hj]%lookup_replicate. apply lookup_ge_None in E.
      exists 0%nat. split_and!; [done|apply (rep_header _ _ _ _ R)|].
      split; [lia|]. split.
      * exists kMaxLevel. split; [apply (rep_header_height _ _ _ _ R)|lia].
      * intros [|r] h Hr Hh; [lia|]. pose proof (rep_heights _ _ _ _ R _ _ Hh). lia.
Qed.

Lemma nl_fresh : nl ∉ ls.
Proof. intros Hin. pose proof (rep_fresh _ _ _ _ R _ Hin). unfold nl in *. lia. Qed.

Lemma nl_ne p l : ls !! p = Some l -> l <> nl.
Proof. intros Hl ->. by apply nl_fresh, list_elem_of_lookup_2 with p. Qed.

Lemma pred_pos j u r :
  upd' !! j = Some (u, r) ->
  exists p h, r = Z.of_nat p /\ ls !! p = Some u /\ hs !! p = Some h /\ (j < h)%nat /\ is_pred hs j K p.
Proof.
  intros Hj. destruct upd'_ok as [_ Hu]. destruct (Hu j u r Hj) as (p & -> & Hp & Hpr).
  pose proof Hpr as (_ & (h & ? & ?) & _). by exists p, h.
Qed.

(** The level-raising loop changes only spans of null links of the header. *)
Lemma raised_links h1 :
  (forall l j, get_forward h1 l j = get_forward (heap sl) l j) ->
  (forall l j, is_Some (get_span (heap sl) l j) -> is_Some (get_span h1 l j)) ->
  (forall l j, l <> header_ sl \/ (j < level_ sl)%nat -> get_span h1 l j = get_span (heap sl) l j) ->
  forall p l h i, ls !! p = Some l -> hs !! p = Some h -> (i < h)%nat -> link_ok h1 ls hs p l i.
Proof.
  intros F1 I1 S1 p l h i Hl Hh Hi.
  destruct (rep_links _ _ _ _ R p l h i Hl Hh Hi)
    as [(q & l' & Hn & Hl' & Hf & Hs)|(Hno & Hf & Hs)].
  - left. exists q, l'. rewrite F1, S1; [done|]. right.
    destruct Hn as (Hpq & (hq & Ehq & Hhq) & _). destruct q as [|q]; [lia|].
    pose proof (rep_heights _ _ _ _ R _ _ Ehq). lia.
  - right. rewrite F1. auto.
Qed.

(** What the new heap holds, link by link, in terms of the raised heap [h1]. *)
Definition linked (h1 h4 : nheap) : Prop :=
  (forall l j, l <> nl -> get_forward h4 l j =
     match (if decide (j < level)%nat then upd' !! j else None) with
     | Some (u, _) => if decide (l = u) then Some (Some nl) else get_forward h1 l j
     | None => get_forward h1 l j
     end) /\
  (forall l j, l <> nl -> get_span h4 l j =
     match upd' !! j with
     | Some (u, r) =>
         if decide (l = u) then
           if decide (j < level)%nat then Some (u64 (u64 (Z.of_nat K - r) + 1))
           else (fun su => u64 (su + 1)) <$> get_span h1 u j
         else get_span h1 l j
     | None => get_span h1 l j
     end) /\
  (forall j u r, (j < level)%nat -> upd' !! j = Some (u, r) ->
     get_forward h4 nl j = get_forward h1 u j /\
     get_span h4 nl j = (fun su => u64 (su - u64 (Z.of_nat K - r))) <$> get_span h1 u j).

Lemma entry_take j :
  entry_at (take level upd') 0 j = if decide (j < level)%nat then upd' !! j else None.
Proof.
  unfold entry_at. rewrite decide_True by lia. rewrite Nat.sub_0_r.
  case_decide; [by apply lookup_take_lt|]. apply lookup_take_ge. lia.
Qed.

Lemma entry_drop j :
  entry_at (drop level upd') level j = if decide (level <= j)%nat then upd' !! j else None.
Proof. unfold entry_at. case_decide; [|done]. rewrite lookup_drop. f_equal. lia. Qed.

Lemma rank0_is_K : snd <$> upd' !! 0%nat = Some (Z.of_nat K).
Proof.
  destruct upd'_ok as [Hlen Hu].
  assert (is_Some (upd' !! 0%nat)) as [[u r] Hur].
  { apply lookup_lt_is_Some. rewrite Hlen. unfold level'. pose proof (rep_level _ _ _ _ R). lia. }
  rewrite Hur. simpl. destruct (pred_pos _ _ _ Hur) as (p & h & -> & _ & _ & _ & Hpr).
  do 2 f_equal. apply (is_pred_unique hs 0 K); [done|].
  assert (is_Some (hs !! K)) as [hK EK].
  { apply lookup_lt_is_Some. rewrite (rep_len_hs _ _ _ _ R). apply insert_K_bound. }
  pose proof (rep_height_pos _ _ _ _ _ _ R EK).
  split; [done|]. split; [exists hK; split; [done|lia]|]. intros; lia.
Qed.

(** The three heaps that the loops go through: the new node alone, linked on its
    own levels, and with the spans above them. *)
Lemma linked_views h1 h2 h3 h4 :
  (forall j u r, upd' !! j = Some (u, r) -> u <> nl) ->
  (forall l j, l <> nl -> get_forward h2 l j = get_forward h1 l j) ->
  (forall l j, l <> nl -> get_span h2 l j = get_span h1 l j) ->
  (forall l j, get_forward h3 l j = match entry_at (take level upd') 0 j with
    | Some (u, _) => if decide (l = nl) then get_forward h2 u j
        else if decide (l = u) then Some (Some nl) else get_forward h2 l j
    | None => get_forward h2 l j end) ->
  (forall l j, get_span h3 l j = match entry_at (take level upd') 0 j with
    | Some (u, r) => if decide (l = nl) then (fun su => u64 (su - u64 (Z.of_nat K - r))) <$> get_span h2 u j
        else if decide (l = u) then Some (u64 (u64 (Z.of_nat K - r) + 1)) else get_span h2 l j
    | None => get_span h2 l j end) ->
  (forall l j, get_forward h4 l j = get_forward h3 l j) ->
  (forall l j, get_span h4 l j = match entry_at (drop level upd') level j with
    | Some (u, _) => if decide (l = u) then (fun su => u64 (su + 1)) <$> get_span h3 u j else get_span h3 l j
    | None => get_span h3 l j end) ->
  linked h1 h4.
Proof.
  intros Hne F2 S2 F3 S3 F4 S4. split; [|split].
  - intros l j Hl. rewrite F4, F3, entry_take. destruct (if decide _ then _ else _) as [[u r]|] eqn:E.
    + rewrite decide_False by done. destruct (decide (l = u)); [done|]. by apply F2.
    + by apply F2.
  - intros l j Hl. rewrite S4, entry_drop. destruct (decide (level <= j)%nat) as [Hj|Hj].
    + assert (S3' : forall l, get_span h3 l j = get_span h2 l j).
      { intros l'. by rewrite S3, entry_take, decide_False by lia. }
      destruct (upd' !! j) as [[u r]|] eqn:E; rewrite ?S3'; [|by apply S2].
      rewrite (decide_False (P:=(j < level)%nat)) by lia.
      destruct (decide (l = u)); rewrite S2; eauto.
    + rewrite S3, entry_take, decide_True by lia.
      destruct (upd' !! j) as [[u r]|] eqn:E; [|by apply S2].
      rewrite decide_False by done. destruct (decide (l = u)); [|by apply S2].
      by rewrite decide_True by lia.
  - intros j u r Hj Hur. pose proof (Hne _ _ _ Hur). rewrite F4, F3, S4, S3, entry_take, entry_drop, Hur.
    rewrite !(decide_True (P:=(j < level)%nat)), !(decide_False (P:=(level <= j)%nat)) by lia.
    by rewrite !decide_True, F2, S2.
Qed.

Lemma insert_node_run :
  exists h1 h4,
    insert_node sl upd level k.1 k.2 =
      Some (mkSkipList h4 (S nl) (header_ sl) level' (u64 (length_ sl + 1))) /\
    linked h1 h4 /\
    (forall p l h i, ls !! p = Some l -> hs !! p = Some h -> (i < h)%nat -> link_ok h1 ls hs p l i) /\
    (forall l, get_key h4 l = if decide (l = nl) then Some k else get_key (heap sl) l) /\
    dom h4 = {[nl]} ∪ dom (heap sl).
Proof.
  unfold insert_node. fold upd'. fold nl.
  destruct (raise_levels_views (heap sl) (header_ sl) (length_ sl) (level_ sl) (level - level_ sl))
    as (h1 & -> & [K1 D1] & F1 & I1 & S1).
  { intros j Hj. destruct (rep_links _ _ _ _ R 0 (header_ sl) kMaxLevel j) as [H|H];
      [apply (rep_header _ _ _ _ R)|apply (rep_header_height _ _ _ _ R)|lia| |].
    - by destruct H as (? & ? & _ & _ & _ & ->).
    - apply H. }
  pose proof (raised_links h1 F1 I1 S1) as L1. simpl.
  rewrite rank0_is_K. simpl.
  set (h2 := <[nl := blank_node k.1 k.2 level]> h1).
  assert (Hnl : h1 !! nl = None).
  { apply not_elem_of_dom. rewrite D1, (rep_dom _ _ _ _ R). apply nl_fresh. }
  assert (F2 : forall l j, l <> nl -> get_forward h2 l j = get_forward h1 l j)
    by (intros; unfold get_forward, h2; by simplify_map_eq).
  assert (S2 : forall l j, l <> nl -> get_span h2 l j = get_span h1 l j)
    by (intros; unfold get_span, h2; by simplify_map_eq).
  assert (N2 : forall j, (j < level)%nat -> get_forward h2 nl j = Some None /\ get_span h2 nl j = Some 0).
  { intros j Hj. unfold get_forward, get_span, h2. rewrite lookup_insert_eq. simpl.
    by rewrite !lookup_replicate_2. }
  assert (Hlink : forall j u r, upd' !! j = Some (u, r) ->
    u <> nl /\ is_Some (get_forward h1 u j) /\ is_Some (get_span h1 u j)).
  { intros j u r Hj. destruct (pred_pos _ _ _ Hj) as (p & h & _ & Hu & Hh & Hjh & _).
    split; [by eapply nl_ne|].
    destruct (L1 p u h j Hu Hh Hjh) as [(q & l' & _ & _ & -> & ->)|(_ & -> & ?)]; eauto. }
  destruct (link_levels_views (take level upd') h2 nl (Z.of_nat K) 0)
    as (h3 & -> & [K3 D3] & F3 & S3).
  { intros j u r. rewrite entry_take. case_decide as Hj; [|done]. intros Hur.
    destruct (Hlink _ _ _ Hur) as (Hne & Hf & Hs). destruct (N2 j Hj) as [Hn1 Hn2].
    unfold linkable. rewrite F2, S2, Hn1, Hn2 by done. eauto. }
  simpl.
  assert (S3' : forall l j, (level <= j)%nat -> get_span h3 l j = get_span h2 l j).
  { intros l j Hj. rewrite S3, entry_take, decide_False by lia. done. }
  destruct (bump_levels_views (drop level upd') h3 level) as (h4 & -> & [K4 D4] & F4 & S4).
  { intros j u r. rewrite entry_drop. case_decide as Hj; [|done]. intros Hur.
    destruct (Hlink _ _ _ Hur) as (Hne & _ & Hs). by rewrite S3', S2. }
  simpl. exists h1, h4. split; [done|]. split; [|split; [done|split]].
  - apply (linked_views h1 h2 h3 h4); try done. intros j u r Hur. by destruct (Hlink _ _ _ Hur).
  - intros l. rewrite K4, K3. destruct (decide (l = nl)) as [->|Hl].
    + unfold get_key, h2. rewrite lookup_insert_eq. simpl. by destruct k.
    + rewrite <- K1. unfold get_key, h2. by rewrite lookup_insert_ne.
  - rewrite D4, D3. unfold h2. rewrite dom_insert_L, D1. done.
Qed.

(** *** The links of the new list *)

Let ls' := ins_at (S K) nl ls.
Let hs' := ins_at (S K) level hs.

Lemma ls'_below p : (p <= K)%nat -> ls' !! p = ls !! p.
Proof.
  intros Hp. pose proof insert_K_bound. unfold ls'.
  by rewrite ins_at_lookup, decide_True by lia.
Qed.

Lemma ls'_above p : (K < p)%nat -> ls' !! S p = ls !! p.
Proof.
  intros Hp. pose proof insert_K_bound. unfold ls'.
  rewrite ins_at_lookup, !decide_False by lia. simpl. by rewrite Nat.sub_0_r.
Qed.

Lemma ls'_new : ls' !! S K = Some nl.
Proof.
  pose proof insert_K_bound. unfold ls'.
  by rewrite ins_at_lookup, decide_False, decide_True by lia.
Qed.

Lemma level'_ge : (level_ sl <= level')%nat.
Proof. unfold level'. lia. Qed.

Lemma K_lt_hs : (K < length hs)%nat.
Proof. rewrite (rep_len_hs _ _ _ _ R). apply insert_K_bound. Qed.

Context (h1 h4 : nheap) (L : linked h1 h4).
Context (L1 : forall p l h i, ls !! p = Some l -> hs !! p = Some h -> (i < h)%nat ->
                link_ok h1 ls hs p l i).

Lemma new_links_below p l h i :
  (p <= K)%nat -> ls !! p = Some l -> hs !! p = Some h -> (i < h)%nat ->
  link_ok h4 ls' hs' p l i.
Proof.
  intros Hp Hl Hh Hi. destruct L as (F4 & S4 & _).
  pose proof (nl_ne _ _ Hl) as Hnl. pose proof K_lt_hs as HKhs. pose proof insert_K_bound.
  unfold link_ok. rewrite F4, S4 by done.
  destruct (upd_cases sl ls hs ks R K level' upd' p h i upd'_ok level'_ge Hh Hi) as [(u & pr & Hu & Hpr & Pr)|(Hu & -> & Hlv)].
  - rewrite Hu. destruct (decide (l = u)) as [->|Hlu].
    + assert (p = pr) as <- by (by eapply (lookup_inj sl)). destruct (decide (i < level)%nat) as [Hil|Hil].
      * left. exists (S K), nl. rewrite decide_True by done.
        split_and!; [by apply next_is_new|apply ls'_new|done|].
        pose proof (pos_small sl ls hs ks R (K - p) ltac:(lia)). pose proof (pos_small sl ls hs ks R (S K - p) ltac:(lia)).
        f_equal. rewrite (u64_small (Z.of_nat K - _)) by lia. rewrite u64_small; lia.
      * destruct (L1 p u h i Hl Hh Hi) as [(q & l' & Hn & Hl' & -> & ->)|(Hno & -> & [s ->])].
        -- pose proof (is_pred_next _ _ _ _ _ Pr Hn). pose proof (next_bound sl ls hs ks R _ _ _ Hn). left.
           exists (S q), l'. split_and!; [by apply next_across; auto; lia|by rewrite ls'_above| done|].
           simpl. f_equal. pose proof (pos_small sl ls hs ks R (S q - p) ltac:(lia)). rewrite u64_small; lia.
        -- right. split_and!; [apply no_next_across; auto; lia|done|simpl; eauto].
    + assert (p < pr)%nat.
      { pose proof (before_pred hs i K pr p h Pr Hh Hi Hp).
        destruct (decide (p = pr)) as [->|]; [congruence|lia]. }
      assert ((match (if decide (i < level)%nat then Some (u, Z.of_nat pr) else None) with
               | Some (u0, _) => if decide (l = u0) then Some (Some nl) else get_forward h1 l i
               | None => get_forward h1 l i end) = get_forward h1 l i) as ->
        by (case_decide; [by rewrite decide_False|done]).
      destruct (L1 p l h i Hl Hh Hi) as [(q & l' & Hn & Hl' & -> & ->)|(Hno & _)].
      * left. pose proof (not_pred_next _ _ _ _ _ _ _ Pr Hh Hi ltac:(done) Hn).
        destruct Pr as (HprK & _ & _).
        exists q, l'. split_and!; [by apply next_below; auto; lia|by rewrite ls'_below by lia|done|done].
      * destruct Pr as (_ & (hp & Ehp & Hhp) & _). specialize (Hno pr hp ltac:(lia) Ehp). lia.
  - rewrite Hu, decide_False by (unfold level' in Hlv; lia).
    destruct (L1 0 l h i Hl Hh Hi) as [(q & l' & Hn & _)|(Hno & -> & Hs)].
    + apply (header_top sl ls hs ks R) in Hn; [done|]. unfold level' in Hlv. lia.
    + right. split_and!; [apply no_next_across; auto; unfold level' in Hlv; lia|done|done].
Qed.

Lemma new_links_above p l h i :
  (K < p)%nat -> ls !! p = Some l -> hs !! p = Some h -> (i < h)%nat ->
  link_ok h4 ls' hs' (S p) l i.
Proof.
  intros Hp Hl Hh Hi. destruct L as (F4 & S4 & _).
  pose proof (nl_ne _ _ Hl) as Hnl. pose proof K_lt_hs.
  assert (Hun : get_forward h4 l i = get_forward h1 l i /\ get_span h4 l i = get_span h1 l i).
  { rewrite F4, S4 by done.
    destruct (upd_cases sl ls hs ks R K level' upd' p h i upd'_ok level'_ge Hh Hi) as [(u & pr & -> & Hpr & Pr)|(-> & -> & _)]; [|lia].
    assert (l <> u).
    { intros ->. assert (p = pr) by (by eapply (lookup_inj sl)). destruct Pr. lia. }
    destruct (decide (i < level)%nat); by rewrite ?(decide_False (P:=l = u)) by done. }
  unfold link_ok. destruct Hun as [-> ->].
  destruct (L1 p l h i Hl Hh Hi) as [(q & l' & Hn & Hl' & -> & ->)|(Hno & -> & Hs)].
  - left. exists (S q), l'. split_and!; [by apply next_above| |done|].
    + destruct Hn. rewrite ls'_above by lia. done.
    + done.
  - right. split_and!; [by apply no_next_above|done|done].
Qed.

Lemma new_links_new i : (i < level)%nat -> link_ok h4 ls' hs' (S K) nl i.
Proof.
  intros Hi. destruct L as (_ & _ & N4). pose proof K_lt_hs.
  destruct upd'_ok as [Hlen _].
  assert (is_Some (upd' !! i)) as [[u r] Hur].
  { apply lookup_lt_is_Some. rewrite Hlen. unfold level'. lia. }
  destruct (pred_pos _ _ _ Hur) as (pr & h & -> & Hu & Hh & Hih & Pr).
  unfold link_ok. destruct (N4 i u _ Hi Hur) as [-> ->].
  pose proof Pr as (HprK & _ & _).
  destruct (L1 pr u h i Hu Hh Hih) as [(q & l' & Hn & Hl' & -> & ->)|(Hno & -> & [s ->])].
  - pose proof (is_pred_next _ _ _ _ _ Pr Hn). pose proof (next_bound sl ls hs ks R _ _ _ Hn).
    left. exists (S q), l'. split_and!; [by eapply next_of_new; eauto; lia|by rewrite ls'_above|done|].
    simpl. f_equal. pose proof (pos_small sl ls hs ks R (K - pr) ltac:(lia)). pose proof (pos_small sl ls hs ks R (q - K) ltac:(lia)).
    rewrite (u64_small (Z.of_nat K - _)) by lia. rewrite u64_small; lia.
  - right. split_and!; [by eapply no_next_of_new|done|simpl; eauto].
Qed.

(** Every position of the new list is the new node's or an old one shifted. *)
Lemma new_position p l :
  ls' !! p = Some l ->
  (p = S K /\ l = nl) \/
  (exists p0, ls !! p0 = Some l /\ hs' !! p = hs !! p0 /\
     ((p0 <= K)%nat /\ p = p0 \/ (K < p0)%nat /\ p = S p0)).
Proof.
  intros Hl. unfold ls', hs' in *. pose proof insert_K_bound. pose proof K_lt_hs.
  rewrite ins_at_lookup in Hl by lia. rewrite ins_at_lookup by lia.
  repeat case_decide; simplify_eq; [right|by left|right].
  - exists p. split_and!; try done. left. lia.
  - exists (p - 1)%nat. split_and!; try done. right. lia.
Qed.

Lemma new_links p l h i :
  ls' !! p = Some l -> hs' !! p = Some h -> (i < h)%nat -> link_ok h4 ls' hs' p l i.
Proof.
  intros Hl Hh Hi.
  destruct (new_position p l Hl) as [[-> ->]|(p0 & Hl0 & Hh0 & [[Hp ->]|[Hp ->]])].
  - apply new_links_new. pose proof K_lt_hs. unfold hs' in Hh.
    rewrite ins_at_lookup, decide_False, decide_True in Hh by lia. by simplify_eq.
  - rewrite Hh0 in Hh. by eapply new_links_below.
  - rewrite Hh0 in Hh. by eapply new_links_above.
Qed.
End insert.

(** ** The new list is well formed *)

Section insert_rep.
Context {G G' : list key -> Prop} (sl : SkipList) (ls : list loc) (hs : list nat) (ks : list key).
Context (R : shape G sl ls hs ks).
Context (k : key) (K : nat) (HK : (K <= length ks)%nat) (Hgood : G' (ins_at K k ks)).
Context (Hroom : zlen ks + 1 < U64 - 1).

Lemma insert_node_rep upd level :
  upd_ok ls hs K (level_ sl) upd -> (1 <= level <= kMaxLevel)%nat ->
  exists sl', insert_node sl upd level k.1 k.2 = Some sl' /\
    shape G' sl' (ins_at (S K) (next_loc sl) ls) (ins_at (S K) level hs) (ins_at K k ks).
Proof.
  intros U Hlv. destruct (insert_node_run sl ls hs ks R k K HK upd U level Hlv)
    as (h1 & h4 & -> & L & L1 & K4 & D4).
  eexists. split; [done|].
  pose proof (rep_len_hs _ _ _ _ R) as Hlh. pose proof (rep_len_ks _ _ _ _ R) as Hlk.
  pose proof (rep_level _ _ _ _ R) as Hll.
  assert (Hfresh : next_loc sl ∉ ls).
  { intros Hin. apply (rep_fresh _ _ _ _ R) in Hin. lia. }
  split; simpl.
  - rewrite !ins_at_length; lia.
  - rewrite !ins_at_length; lia.
  - rewrite ins_at_lookup, decide_True by lia. apply (rep_header _ _ _ _ R).
  - rewrite ins_at_lookup, decide_True by lia. apply (rep_header_height _ _ _ _ R).
  - rewrite ins_at_perm. constructor; [done|apply (rep_nodup _ _ _ _ R)].
  - intros l. rewrite D4, ins_at_perm, elem_of_union, elem_of_singleton, elem_of_cons.
    by rewrite (rep_dom _ _ _ _ R).
  - intros l. rewrite ins_at_perm, elem_of_cons. intros [->|Hin]; [lia|].
    apply (rep_fresh _ _ _ _ R) in Hin. lia.
  - intros p l Hl. rewrite K4. apply (new_position sl ls hs ks R K HK) with (level := level) in Hl; [|done].
    destruct Hl as [[[= ->] ->]|(p0 & Hl0 & _ & Hp)].
    + rewrite decide_True, ins_at_lookup, decide_False, decide_True by lia. done.
    + rewrite decide_False by (intros ->; apply Hfresh; by eapply list_elem_of_lookup_2).
      destruct Hp as [[Hp <-]|[Hp [= ->]]].
      * rewrite (rep_keys _ _ _ _ R _ _ Hl0), ins_at_lookup, decide_True by lia. done.
      * destruct p0 as [|p0]; [lia|]. rewrite (rep_keys _ _ _ _ R _ _ Hl0), ins_at_lookup by lia.
        rewrite !decide_False by lia. simpl. by rewrite Nat.sub_0_r.
  - intros p h. rewrite ins_at_lookup by lia. repeat case_decide; intros Hh; simplify_eq; try lia.
    + pose proof (rep_heights _ _ _ _ R _ _ Hh). lia.
    + simpl in Hh. rewrite Nat.sub_0_r in Hh. destruct p as [|p]; [lia|].
      pose proof (rep_heights _ _ _ _ R _ _ Hh). lia.
  - lia.
  - intros p l h i Hl Hh Hi. by eapply (new_links sl ls hs ks R K HK upd U level Hlv h1 h4 L L1).
  - done.
  - destruct (rep_length _ _ _ _ R) as [-> _]. unfold zlen in *. rewrite ins_at_length by lia.
    rewrite u64_small; lia.
Qed.
End insert_rep.
