(* ===== verification/SkipListDelete.v ===== *)
(** * The skip list: deletion preserves the invariant

    The counterpart of [SkipListInsert.v] for [DeleteNode]: the effect of the
    unlinking loop field by field, the positions of the remaining nodes, and the
    lowering of [level_]. *)

From S2P Require Import Prelude Bytes Double SkipList SkipListInv SkipListInsert.
From Stdlib Require Import Sorting.Sorted.
Local Open Scope Z_scope.

(** ** Field-by-field effect of the unlinking loop *)

(** The new link and span of the update entry [u] on level [i]. *)
Definition cut_forward (h : nheap) (x : loc) (i : nat) (u : loc) : option (option loc) :=
  if decide (get_forward h u i = Some (Some x)) then get_forward h x i else get_forward h u i.

Definition cut_span (h : nheap) (x : loc) (i : nat) (u : loc) : option Z :=
  if decide (get_forward h u i = Some (Some x)) then
    match get_forward h x i with
    | Some (Some _) => su ← get_span h u i; sx ← get_span h x i; Some (u64 (su + u64 (sx - 1)))
    | _ => Some 0
    end
  else (fun su => u64 (su - 1)) <$> get_span h u i.

Definition unlinkable (h : nheap) (x : loc) (i : nat) (u : loc) : Prop :=
  u <> x /\ is_Some (get_forward h u i) /\ is_Some (get_span h u i) /\
  (get_forward h u i = Some (Some x) ->
     is_Some (get_forward h x i) /\ is_Some (get_span h x i)).

Lemma unlink_level_views h x i u :
  unlinkable h x i u ->
  exists h', unlink_level h x i u = Some h' /\ same_frame h h' /\
    (forall l j, get_forward h' l j =
       if decide (l = u /\ j = i) then cut_forward h x i u else get_forward h l j) /\
    (forall l j, get_span h' l j =
       if decide (l = u /\ j = i) then cut_span h x i u else get_span h l j).
Proof.
  intros (Hux & [fu Hfu] & [su Hsu] & Hx). unfold unlink_level, cut_forward, cut_span.
  rewrite Hfu. simpl.
  destruct (decide (fu = Some x)) as [->|Hne].
  - destruct (Hx Hfu) as [[fx Hfx] [sx Hsx]].
    rewrite bool_decide_eq_true_2, decide_True, Hfx by done. simpl.
    set (v := match fx with Some _ => u64 (su + u64 (sx - 1)) | None => 0 end).
    destruct (set_span_views h u i v) as (h1 & E1 & S1 & F1 & K1 & D1); [done|].
    assert (match fx with
            | Some _ => su ← get_span h u i; sx ← get_span h x i;
                        set_span h u i (u64 (su + u64 (sx - 1)))
            | None => set_span h u i 0 end = Some h1) as ->.
    { unfold v in E1. rewrite Hsu, Hsx. by destruct fx. }
    simpl. destruct (set_forward_views h1 u i fx) as (h2 & E2 & F2 & S2 & K2 & D2); [by rewrite F1, Hfu|].
    exists h2. split_and!; [done|split; [intros; by rewrite K2, K1|congruence]| |].
    + intros l j. rewrite F2, F1. done.
    + intros l j. rewrite S2, S1. case_decide; [|done]. unfold v. rewrite Hsu, Hsx, decide_True by done. by destruct fx.
  - rewrite bool_decide_eq_false_2, !decide_False by naive_solver. rewrite Hsu. simpl.
    destruct (set_span_views h u i (u64 (su - 1))) as (h1 & E1 & S1 & F1 & K1 & D1); [done|].
    exists h1. split_and!; [done|done| |done].
    intros l j. rewrite F1. case_decide as Hd; [|done]. by destruct Hd as [-> ->].
Qed.

Lemma unlink_levels_views upd h x i :
  (forall j u r, entry_at upd i j = Some (u, r) -> unlinkable h x j u) ->
  exists h', unlink_levels h x i upd = Some h' /\ same_frame h h' /\
    (forall l j, get_forward h' l j =
       match entry_at upd i j with
       | Some (u, _) => if decide (l = u) then cut_forward h x j u else get_forward h l j
       | None => get_forward h l j
       end) /\
    (forall l j, get_span h' l j =
       match entry_at upd i j with
       | Some (u, _) => if decide (l = u) then cut_span h x j u else get_span h l j
       | None => get_span h l j
       end).
Proof.
  revert h i. induction upd as [|[u r] upd IH]; intros h i Hu; simpl.
  { exists h. split_and!; try done; intros l j; unfold entry_at; case_decide; by rewrite ?lookup_nil. }
  destruct (unlink_level_views h x i u) as (h1 & -> & Fr1 & F1 & S1).
  { apply (Hu i u r). by rewrite entry_at_cons, decide_True. }
  simpl. assert (Hsame : forall l j, j <> i -> get_forward h1 l j = get_forward h l j /\
                                     get_span h1 l j = get_span h l j).
  { intros l j Hj. rewrite F1, S1. by rewrite !decide_False by naive_solver. }
  destruct (IH h1 (S i)) as (h' & -> & Fr & F & Sp).
  { intros j v rv Hv.
    assert (j <> i) by (unfold entry_at in Hv; case_decide; [lia|done]).
    unfold unlinkable. rewrite !(proj1 (Hsame _ _ H)), !(proj2 (Hsame _ _ H)).
    apply (Hu j v rv). by rewrite entry_at_cons, decide_False. }
  exists h'. split_and!; [done|by eapply same_frame_trans| |];
    intros l j; rewrite ?F, ?Sp, entry_at_cons; destruct (decide (j = i)) as [->|Hj].
  1,3: unfold entry_at; rewrite decide_False by lia; rewrite ?F1, ?S1;
    destruct (decide (l = u)) as [->|]; [by rewrite decide_True|by rewrite decide_False by naive_solver].
  all: unfold cut_forward, cut_span;
    destruct (entry_at upd (S i) j) as [[v rv]|];
    rewrite ?(proj1 (Hsame _ _ Hj)), ?(proj2 (Hsame _ _ Hj)); done.
Qed.

(** ** Positions after the removal of position [S K] *)

Section positions.
Context (hs : list nat) (K : nat) (HK : (S K < length hs)%nat).
Let hs' := del_at (S K) hs.

Lemma del_lookup r : hs' !! r = if decide (r <= K)%nat then hs !! r else hs !! S r.
Proof. unfold hs'. rewrite del_at_lookup by done. repeat case_decide; try done; lia. Qed.

(** The heights between two positions of the new list are heights of the old. *)
Ltac by_old H :=
  let r := fresh "r" in let h := fresh "h" in let Hr := fresh "Hr" in
  intros r h Hr; rewrite del_lookup; case_decide; intros; [apply (H r)|apply (H (S r))]; try done; lia.

Lemma del_next_below p i q : is_next hs p i q -> (q <= K)%nat -> is_next hs' p i q.
Proof.
  intros (H1 & (h & Eh & Hh) & H3) Hq. split; [lia|]. split.
  - exists h. by rewrite del_lookup, decide_True by lia.
  - by_old H3.
Qed.

Lemma del_next_above p i q : is_next hs (S p) i (S q) -> (K < p)%nat -> is_next hs' p i q.
Proof.
  intros (H1 & (h & Eh & Hh) & H3) Hp. split; [lia|]. split.
  - exists h. by rewrite del_lookup, decide_False by lia.
  - by_old H3.
Qed.

Lemma del_next_across p i q :
  is_next hs p i (S q) -> (p <= K)%nat -> (S K < S q)%nat -> is_next hs' p i q.
Proof.
  intros (H1 & (h & Eh & Hh) & H3) Hp Hq. split; [lia|]. split.
  - exists h. by rewrite del_lookup, decide_False by lia.
  - by_old H3.
Qed.

Lemma del_next_join p i q :
  is_next hs p i (S K) -> is_next hs (S K) i (S q) -> is_next hs' p i q.
Proof.
  intros (H1 & _ & H3) (H1' & (h & Eh & Hh) & H3'). split; [lia|]. split.
  - exists h. by rewrite del_lookup, decide_False by lia.
  - intros r hr Hr. rewrite del_lookup. case_decide; intros; [eapply H3|eapply H3']; try done; lia.
Qed.

Lemma del_no_next_join p i :
  is_next hs p i (S K) -> no_next hs (S K) i -> no_next hs' p i.
Proof.
  intros (H1 & _ & H3) H3' r hr Hr. rewrite del_lookup.
  case_decide; intros; [apply (H3 r)|apply (H3' (S r))]; try done; lia.
Qed.

Lemma del_no_next_below p i : no_next hs p i -> (p <= K)%nat -> no_next hs' p i.
Proof. intros H Hp. by_old H. Qed.

Lemma del_no_next_above p i : no_next hs (S p) i -> (K < p)%nat -> no_next hs' p i.
Proof. intros H Hp. by_old H. Qed.
End positions.

(** ** One removal *)

Section delete.
Context (sl : SkipList) (ls : list loc) (hs : list nat) (ks : list key).
Context (R : rep sl ls hs ks).
Context (K : nat) (x : loc) (Hx : ls !! S K = Some x).
Context (upd : list (loc * Z)) (U : upd_ok ls hs K (level_ sl) upd).
Let ls' := del_at (S K) ls.
Let hs' := del_at (S K) hs.

Lemma SK_ls : (S K < length ls)%nat.
Proof. by apply lookup_lt_Some in Hx. Qed.

Lemma SK_hs : (S K < length hs)%nat.
Proof. rewrite (rep_len_hs _ _ _ _ R). apply SK_ls. Qed.

Lemma del_ls_below p : (p <= K)%nat -> ls' !! p = ls !! p.
Proof. intros Hp. unfold ls'. by rewrite (del_lookup ls K SK_ls), decide_True. Qed.

Lemma del_ls_above p : (K < p)%nat -> ls' !! p = ls !! S p.
Proof. intros Hp. unfold ls'. by rewrite (del_lookup ls K SK_ls), decide_False by lia. Qed.

Lemma pred_not_x u pr i : ls !! pr = Some u -> is_pred hs i K pr -> u <> x.
Proof.
  intros Hu [Hpr _] ->. pose proof (lookup_inj sl ls hs ks R _ _ _ Hu Hx). lia.
Qed.

Lemma all_unlinkable j u r :
  entry_at (take (level_ sl) upd) 0 j = Some (u, r) -> unlinkable (heap sl) x j u.
Proof.
  unfold entry_at. rewrite decide_True, Nat.sub_0_r by lia. intros Hj.
  destruct U as [Hlen Hupd]. rewrite take_ge in Hj by lia.
  destruct (Hupd j u r Hj) as (pr & _ & Hu & Pr).
  pose proof Pr as (_ & (h & Hh & Hjh) & _). split; [by eapply pred_not_x|].
  destruct (rep_links _ _ _ _ R pr u h j Hu Hh Hjh)
    as [(q & l' & Hn & Hl' & -> & ->)|(Hno & -> & [s ->])]; split_and!; eauto; [|done].
  intros [= ->]. assert (q = S K) as -> by (by eapply (lookup_inj sl)).
  destruct Hn as (_ & (hx & Ehx & Hhx) & _).
  destruct (rep_links _ _ _ _ R (S K) x hx j Hx Ehx Hhx)
    as [(? & ? & _ & _ & -> & ->)|(_ & -> & ?)]; eauto.
Qed.

(** The heap after the unlinking loop, entry by entry. *)
Definition unlinked (h : nheap) : Prop :=
  (forall l j, get_forward h l j =
     match upd !! j with
     | Some (u, _) => if decide (l = u) then cut_forward (heap sl) x j u else get_forward (heap sl) l j
     | None => get_forward (heap sl) l j
     end) /\
  (forall l j, get_span h l j =
     match upd !! j with
     | Some (u, _) => if decide (l = u) then cut_span (heap sl) x j u else get_span (heap sl) l j
     | None => get_span (heap sl) l j
     end).

Lemma unlink_run :
  exists h, unlink_levels (heap sl) x 0 (take (level_ sl) upd) = Some h /\
    same_frame (heap sl) h /\ unlinked h.
Proof.
  destruct (unlink_levels_views _ _ _ _ all_unlinkable) as (h & E & Fr & F & Sp).
  exists h. split_and!; [done..|]. destruct U as [Hlen _].
  rewrite take_ge in F, Sp by lia.
  split; intros l j; rewrite ?F, ?Sp; unfold entry_at; by rewrite decide_True, Nat.sub_0_r by lia.
Qed.

Context (h : nheap) (H : unlinked h).

(** A node that is not the entry of the level keeps its link. *)
Lemma kept_link l j :
  (forall u r, upd !! j = Some (u, r) -> l <> u) ->
  get_forward h l j = get_forward (heap sl) l j /\ get_span h l j = get_span (heap sl) l j.
Proof.
  intros Hne. destruct H as [F Sp]. rewrite F, Sp.
  destruct (upd !! j) as [[u r]|]; [|done]. by rewrite !decide_False by eauto.
Qed.

Lemma del_links_pred p u ht i r :
  upd !! i = Some (u, r) -> ls !! p = Some u -> is_pred hs i K p ->
  hs !! p = Some ht -> (i < ht)%nat -> link_ok h ls' hs' p u i.
Proof.
  intros Hu Hl Pr Hh Hi. destruct H as [F Sp]. unfold link_ok.
  rewrite F, Sp, Hu, !decide_True by done. unfold cut_forward, cut_span.
  pose proof Pr as (Hp & _).
  destruct (rep_links _ _ _ _ R p u ht i Hl Hh Hi)
    as [(q & l' & Hn & Hl' & -> & ->)|(Hno & -> & [s ->])].
  - pose proof (is_pred_next _ _ _ _ _ Pr Hn) as HKq.
    pose proof (next_bound sl ls hs ks R _ _ _ Hn) as Hq.
    destruct (decide (q = S K)) as [->|HqK].
    + rewrite Hx in Hl'. simplify_eq. rewrite !decide_True by done.
      pose proof Hn as (_ & (hx & Ehx & Hhx) & _).
      destruct (rep_links _ _ _ _ R (S K) x hx i Hx Ehx Hhx)
        as [(q2 & l2 & Hn2 & Hl2 & -> & ->)|(Hno & -> & _)]; [left|right].
      * pose proof Hn2 as (Hq2 & _). destruct q2 as [|q2]; [lia|].
        pose proof (next_bound sl ls hs ks R _ _ _ Hn2).
        pose proof (pos_small sl ls hs ks R q2 ltac:(lia)).
        exists q2, l2. split_and!; [apply (del_next_join hs K SK_hs _ _ _ Hn Hn2)|by rewrite del_ls_above by lia|done|].
        simpl. f_equal. rewrite (u64_small (Z.of_nat _ - 1)) by lia. rewrite u64_small; lia.
      * split_and!; [apply (del_no_next_join hs K SK_hs _ _ Hn Hno)|done|eauto].
    + assert (l' <> x).
      { intros ->. apply HqK. by eapply (lookup_inj sl). }
      rewrite !decide_False by naive_solver. left. destruct q as [|q]; [lia|].
      pose proof (pos_small sl ls hs ks R (q - p) ltac:(lia)).
      exists q, l'. split_and!; [apply (del_next_across hs K SK_hs); auto; lia|by rewrite del_ls_above by lia|done|].
      simpl. f_equal. rewrite u64_small; lia.
  - rewrite !decide_False by naive_solver. right.
    split_and!; [by apply (del_no_next_below hs K SK_hs)|done|simpl; eauto].
Qed.

(** The links of the nodes that stay, at their new positions. *)
Lemma del_links_below p l ht i :
  (p <= K)%nat -> ls !! p = Some l -> hs !! p = Some ht -> (i < ht)%nat ->
  link_ok h ls' hs' p l i.
Proof.
  intros Hp Hl Hh Hi.
  destruct (upd_cases sl ls hs ks R K _ upd p ht i U ltac:(lia) Hh Hi)
    as [(u & pr & Hu & Hpr & Pr)|(Hu & -> & HL)].
  - destruct (decide (p = pr)) as [->|Hne].
    { assert (l = u) as -> by congruence. by eapply del_links_pred. }
    assert (p < pr)%nat by (pose proof (before_pred hs i K pr p ht Pr Hh Hi Hp); lia).
    destruct (kept_link l i) as [EF ES].
    { intros u' r' Hu' ->. rewrite Hu in Hu'. simplify_eq. apply Hne. by eapply (lookup_inj sl). }
    unfold link_ok. rewrite EF, ES.
    destruct (rep_links _ _ _ _ R p l ht i Hl Hh Hi) as [(q & l' & Hn & Hl' & -> & ->)|(Hno & _)].
    + pose proof (not_pred_next _ _ _ _ _ _ _ Pr Hh Hi ltac:(done) Hn).
      destruct Pr as (HprK & _). left. exists q, l'.
      split_and!; [apply (del_next_below hs K SK_hs); auto; lia|by rewrite del_ls_below by lia|done..].
    + destruct Pr as (_ & (hp & Ehp & Hhp) & _). specialize (Hno pr hp ltac:(lia) Ehp). lia.
  - destruct (kept_link l i) as [EF ES]; [by rewrite Hu|]. unfold link_ok. rewrite EF, ES.
    destruct (rep_links _ _ _ _ R 0 l ht i Hl Hh Hi) as [(q & l' & Hn & _)|(Hno & -> & Hs)].
    + by apply (header_top sl ls hs ks R) in Hn.
    + right. split_and!; [by apply (del_no_next_below hs K SK_hs)|done|done].
Qed.

Lemma del_links_above p l ht i :
  (K < p)%nat -> ls !! S p = Some l -> hs !! S p = Some ht -> (i < ht)%nat ->
  link_ok h ls' hs' p l i.
Proof.
  intros Hp Hl Hh Hi. destruct (kept_link l i) as [EF ES].
  { intros u r Hu ->. destruct U as [_ Hupd]. destruct (Hupd _ _ _ Hu) as (pr & _ & Hpr & [HprK _]).
    pose proof (lookup_inj sl ls hs ks R _ _ _ Hl Hpr). lia. }
  unfold link_ok. rewrite EF, ES.
  destruct (rep_links _ _ _ _ R (S p) l ht i Hl Hh Hi)
    as [(q & l' & Hn & Hl' & -> & ->)|(Hno & -> & Hs)].
  - pose proof Hn as (Hq & _). destruct q as [|q]; [lia|]. left. exists q, l'.
    split_and!; [by apply (del_next_above hs K SK_hs)|by rewrite del_ls_above by lia|done|done].
  - right. split_and!; [by apply (del_no_next_above hs K SK_hs)|done|done].
Qed.

Lemma del_links p l ht i :
  ls' !! p = Some l -> hs' !! p = Some ht -> (i < ht)%nat -> link_ok h ls' hs' p l i.
Proof.
  intros Hl Hh Hi. unfold hs' in Hh. rewrite (del_lookup hs K SK_hs) in Hh.
  destruct (decide (p <= K)%nat).
  - rewrite del_ls_below in Hl by done. by eapply del_links_below.
  - rewrite del_ls_above in Hl by lia. eapply del_links_above; eauto. lia.
Qed.

(** [level_] is lowered to the tallest remaining node. *)
Lemma shrink_level_spec n :
  (1 <= n <= level_ sl)%nat ->
  exists n', shrink_level h (header_ sl) n = Some n' /\ (1 <= n' <= n)%nat /\
    (forall i, (n' <= i < n)%nat -> no_next hs' 0 i).
Proof.
  pose proof (rep_level _ _ _ _ R) as HL.
  assert (Hhd : forall i, (i < kMaxLevel)%nat -> link_ok h ls' hs' 0 (header_ sl) i).
  { intros i Hi. apply (del_links_below 0 _ kMaxLevel); try lia.
    - apply (rep_header _ _ _ _ R).
    - apply (rep_header_height _ _ _ _ R). }
  induction n as [|n IH]; [lia|]. intros Hn. destruct n as [|n].
  { exists 1%nat. split_and!; [done|lia..|]. intros i Hi. lia. }
  cbn [shrink_level].
  destruct (Hhd (S n) ltac:(lia)) as [(q & l' & _ & _ & -> & _)|(Hno & -> & _)]; simpl.
  - exists (S (S n)). split_and!; [done|lia..|]. intros i Hi. lia.
  - destruct (IH ltac:(lia)) as (n' & E & Hn' & Hi'). exists n'. split_and!; [done|lia..|].
    intros i Hi. destruct (decide (i = S n)) as [->|]; [done|]. apply Hi'. lia.
Qed.
End delete.

(** ** The remaining list is well formed *)

Lemma get_delete (h : nheap) (x l : loc) :
  l <> x ->
  (forall i, get_forward (delete x h) l i = get_forward h l i) /\
  (forall i, get_span (delete x h) l i = get_span h l i) /\
  get_key (delete x h) l = get_key h l.
Proof.
  intros Hne. unfold get_forward, get_span, get_key. by rewrite lookup_delete_ne by done.
Qed.

Lemma sorted_del_at ks K : sorted ks -> (K < length ks)%nat -> sorted (del_at K ks).
Proof.
  intros Hs HK. apply sorted_of_lookup. intros i j a b Hij.
  rewrite !del_at_lookup by done. intros.
  destruct (decide (i < K)%nat), (decide (j < K)%nat);
    eapply sorted_lookup; try done; lia.
Qed.

Section delete_rep.
Context (sl : SkipList) (ls : list loc) (hs : list nat) (ks : list key).
Context (R : rep sl ls hs ks).

Lemma DeleteNode_rep K x upd :
  ls !! S K = Some x -> upd_ok ls hs K (level_ sl) upd ->
  exists sl', DeleteNode sl x upd = Some sl' /\
    rep sl' (del_at (S K) ls) (del_at (S K) hs) (del_at K ks).
Proof.
  intros Hx U. unfold DeleteNode.
  destruct (unlink_run sl ls hs ks R K x Hx upd U) as (h & -> & [Kf Df] & H). simpl.
  pose proof (rep_level _ _ _ _ R) as HL.
  destruct (shrink_level_spec sl ls hs ks R K x Hx upd U h H (level_ sl)) as (n' & -> & Hn' & Htop); [lia|].
  simpl. assert (is_Some (h !! x)) as [nx ->].
  { apply elem_of_dom. rewrite Df, (rep_dom _ _ _ _ R). by eapply list_elem_of_lookup_2. }
  simpl. eexists. split; [done|].
  pose proof (lookup_lt_Some _ _ _ Hx) as HK.
  pose proof (rep_len_hs _ _ _ _ R) as Hlh. pose proof (rep_len_ks _ _ _ _ R) as Hlk.
  assert (Hin : forall l, l ∈ ls <-> l = x \/ l ∈ del_at (S K) ls).
  { intros l. rewrite <- elem_of_cons. by rewrite <- (del_at_perm (S K) x ls Hx). }
  pose proof (rep_nodup _ _ _ _ R) as Hnd. rewrite (del_at_perm (S K) x ls Hx) in Hnd.
  apply NoDup_cons in Hnd as [Hnx Hnd].
  assert (Hne : forall p l, del_at (S K) ls !! p = Some l -> l <> x).
  { intros p l Hl ->. apply Hnx. by eapply list_elem_of_lookup_2. }
  split; simpl.
  - rewrite !del_at_length by lia. lia.
  - rewrite !del_at_length by lia. lia.
  - rewrite del_at_lookup, decide_True by lia. apply (rep_header _ _ _ _ R).
  - rewrite del_at_lookup, decide_True by lia. apply (rep_header_height _ _ _ _ R).
  - done.
  - intros l. rewrite dom_delete_L, Df, elem_of_difference, elem_of_singleton, (rep_dom _ _ _ _ R).
    rewrite Hin. split; [by intros [[->|?] ?]|]. intros Hl. split; [by right|]. by intros ->.
  - intros l Hl. apply (rep_fresh _ _ _ _ R), Hin. by right.
  - intros p l Hl. rewrite (proj2 (proj2 (get_delete h x l (Hne _ _ Hl)))), Kf.
    rewrite del_at_lookup in Hl by lia. rewrite del_at_lookup by lia.
    destruct (decide (S p < S K)%nat).
    + rewrite decide_True by lia. by apply (rep_keys _ _ _ _ R).
    + rewrite decide_False by lia. by apply (rep_keys _ _ _ _ R).
  - intros p ht Hp. pose proof Hp as Hp0. rewrite del_at_lookup in Hp by lia.
    assert (1 <= ht <= level_ sl)%nat.
    { case_decide; by eapply (rep_heights _ _ _ _ R). }
    split; [lia|]. destruct (decide (ht <= n')%nat); [done|].
    specialize (Htop (ht - 1)%nat ltac:(lia) (S p) ht ltac:(lia) Hp0). lia.
  - lia.
  - intros p l ht i Hl Hh Hi. destruct (get_delete h x l (Hne _ _ Hl)) as (EF & ES & _).
    unfold link_ok. rewrite EF, ES. by eapply (del_links sl ls hs ks R K x Hx upd U h H).
  - split; [apply sorted_del_at; [apply (rep_sorted _ _ _ _ R)|lia]|].
    pose proof (rep_num _ _ _ _ R) as Hnum.
    destruct (lookup_lt_is_Some_2 ks K ltac:(lia)) as [k Hk].
    rewrite (del_at_perm K k ks Hk) in Hnum. by inversion Hnum.
  - destruct (rep_length _ _ _ _ R) as [-> Hb]. unfold zlen in *.
    rewrite del_at_length by lia. rewrite u64_small; lia.
Qed.
End delete_rep.
