(* ===== verification/SkipListProofs.v ===== *)
(** * The skip list refines a sorted sequence

    The reference is a plain list of keys in increasing order: insertion by one
    recursive function, removal by filtering, rank by position, ranges by
    slicing and filtering.  Each operation of [SkipList.v] on a well-formed list
    is defined (no null or dangling pointer, enough fuel) and agrees with the
    reference; [skiplist_refines] composes them over arbitrary sequences of
    operations. *)

From S2P Require Import Prelude Bytes Double SkipList SkipListInv SkipListInsert SkipListDelete.
From Stdlib Require Import Sorting.Sorted.
Local Open Scope Z_scope.

(** ** The reference *)

Definition same_key (k x : key) : bool := KeyEqual x.1 x.2 k.1 k.2.

Fixpoint ref_insert (k : key) (ks : list key) : bool * list key :=
  match ks with
  | [] => (true, [k])
  | x :: r =>
      if KeyLess x.1 x.2 k.1 k.2 then let '(b, r') := ref_insert k r in (b, x :: r')
      else if same_key k x then (false, k :: r) else (true, k :: x :: r)
  end.

Definition ref_mem (k : key) (ks : list key) : bool := existsb (same_key k) ks.
Definition ref_erase (k : key) (ks : list key) : list key := List.filter (fun x => negb (same_key k x)) ks.

Fixpoint ref_index (k : key) (ks : list key) : option nat :=
  match ks with
  | [] => None
  | x :: r => if same_key k x then Some 0%nat else S <$> ref_index k r
  end.

Definition ref_rank (k : key) (ks : list key) : Z :=
  match ref_index k ks with Some j => Z.of_nat j | None => SIZE_MAX end.
Definition ref_rev_rank (k : key) (ks : list key) : Z :=
  match ref_index k ks with Some j => zlen ks - 1 - Z.of_nat j | None => SIZE_MAX end.

(** The elements from [start] to [stop] inclusive; negative indices count from
    the end. *)
Definition ref_slice {A} (start stop : Z) (l : list A) : list A :=
  let n := zlen l in
  let s := Z.max 0 (if start <? 0 then n + start else start) in
  let e := Z.min (n - 1) (if stop <? 0 then n + stop else stop) in
  take (Z.to_nat (e - s + 1)) (drop (Z.to_nat s) l).

(** [LIMIT offset count]: a negative count means no limit. *)
Definition ref_limit {A} (offset count : Z) (l : list A) : list A :=
  let l' := drop (Z.to_nat offset) l in
  if count <? 0 then l' else take (Z.to_nat count) l'.

Definition ref_score_range (r : ScoreRange) (ks : list key) : list key :=
  List.filter (fun k => in_range r k.1) ks.

(** ** Random level *)

Lemma random_level_from_bounds fuel rnd k level :
  (1 <= level <= kMaxLevel)%nat ->
  (1 <= random_level_from fuel rnd k level <= kMaxLevel)%nat.
Proof.
  revert k level. induction fuel as [|f IH]; intros k level Hl; simpl; [done|].
  destruct (level <? kMaxLevel)%nat eqn:E; simpl; [|done].
  apply Nat.ltb_lt in E. destruct (branch_up (rnd k)); [|done]. apply IH. lia.
Qed.

Lemma RandomLevel_bounds rnd : (1 <= RandomLevel rnd <= kMaxLevel)%nat.
Proof. apply random_level_from_bounds. unfold kMaxLevel. lia. Qed.

(** ** The reference in terms of the cut *)

Section reference.
Context (ks : list key) (Hs : sorted ks) (Hn : Forall num ks).
Context (k : key) (Hk : num k).
Let K := cutpos (fun s m => KeyLess s m k.1 k.2) ks.

Lemma num_at j x : ks !! j = Some x -> num x.
Proof.
  intros Hx. rewrite Forall_forall in Hn. apply Hn. by eapply list_elem_of_lookup_2.
Qed.

Lemma less_cut : cut (fun s m => KeyLess s m k.1 k.2) ks K.
Proof. by apply cutpos_cut, less_down_closed. Qed.

(** A key equal to [k] can only be the one at the cut. *)
Lemma equal_at_cut j x : ks !! j = Some x -> key_eq x k -> j = K.
Proof.
  intros Hx He. destruct less_cut as [HK Hc].
  assert (Hnx : num x) by (by eapply num_at).
  assert (~ (j < K)%nat) as HjK.
  { intros Hj. apply (Hc j x Hx) in Hj. by apply (key_eq_not_lt x k Hnx Hk He). }
  destruct (decide (j = K)) as [|Hne]; [done|]. exfalso.
  assert (is_Some (ks !! K)) as [y Hy].
  { apply lookup_lt_is_Some. apply lookup_lt_Some in Hx. lia. }
  assert (num y) by (by eapply num_at).
  assert (key_lt y x) by (apply (sorted_lookup ks K j); try done; lia).
  assert (key_lt y k) as Hyk by (by apply (key_eq_lt x k y)).
  apply (Hc K y Hy) in Hyk. lia.
Qed.

Lemma ref_mem_cut :
  ref_mem k ks = match ks !! K with Some x => same_key k x | None => false end.
Proof.
  unfold ref_mem. apply eq_true_iff_eq. rewrite existsb_exists. split.
  - intros (x & Hx & He). apply list_elem_of_In, list_elem_of_lookup_1 in Hx as [j Hj].
    rewrite <- (equal_at_cut j x Hj He). by rewrite Hj.
  - destruct (ks !! K) as [x|] eqn:E; [|done]. intros He. exists x. split; [|done].
    apply list_elem_of_In. by eapply list_elem_of_lookup_2.
Qed.
End reference.

Lemma cutpos_cons t x ks :
  cutpos t (x :: ks) = if t x.1 x.2 then S (cutpos t ks) else 0%nat.
Proof.
  unfold cutpos. simpl. destruct (t x.1 x.2); [|done].
  by destruct (span (fun k => t k.1 k.2) ks).
Qed.

Lemma ref_insert_cut k ks :
  let K := cutpos (fun s m => KeyLess s m k.1 k.2) ks in
  ref_insert k ks =
  match ks !! K with
  | Some x => if same_key k x then (false, <[K := k]> ks) else (true, ins_at K k ks)
  | None => (true, ins_at K k ks)
  end.
Proof.
  simpl. induction ks as [|x ks IH]; [done|]. simpl. rewrite cutpos_cons.
  destruct (KeyLess x.1 x.2 k.1 k.2); simpl; [|done].
  rewrite IH. destruct (ks !! _) as [y|]; [|done]. by destruct (same_key k y).
Qed.

Lemma ref_erase_nochange k ks : ref_mem k ks = false -> ref_erase k ks = ks.
Proof.
  unfold ref_mem, ref_erase. induction ks as [|x ks IH]; simpl; [done|].
  destruct (same_key k x); simpl; [done|]. intros H. by rewrite IH.
Qed.

Lemma ref_erase_cut ks k K x :
  sorted ks -> Forall num ks -> num k ->
  ks !! K = Some x -> same_key k x = true -> ref_erase k ks = del_at K ks.
Proof.
  intros Hs Hn Hk Hx He.
  assert (Hother : forall j y, ks !! j = Some y -> same_key k y = true -> j = K).
  { intros j y Hy Hey. rewrite (equal_at_cut ks Hs Hn k Hk j y Hy Hey).
    symmetry. by apply (equal_at_cut ks Hs Hn k Hk K x). }
  clear Hs Hn Hk. revert K Hx Hother. induction ks as [|y ks IH]; intros K Hx Hother; [done|].
  destruct K as [|K]; simpl in Hx |- *.
  - simplify_eq. rewrite He. simpl. rewrite ref_erase_nochange; [done|].
    unfold ref_mem. apply not_true_iff_false. rewrite existsb_exists. intros (z & Hz & Hez).
    apply list_elem_of_In, list_elem_of_lookup_1 in Hz as [j Hj].
    specialize (Hother (S j) z Hj Hez). lia.
  - destruct (same_key k y) eqn:Ey; simpl.
    + specialize (Hother 0%nat y eq_refl Ey). lia.
    + unfold del_at. simpl. f_equal. apply IH; [done|].
      intros j z Hz Hez. specialize (Hother (S j) z Hz Hez). lia.
Qed.

(** ** Replacing a score by an equal one *)

Lemma set_score_views h l s n :
  h !! l = Some n ->
  exists h', set_score h l s = Some h' /\
    (forall l' j, get_forward h' l' j = get_forward h l' j) /\
    (forall l' j, get_span h' l' j = get_span h l' j) /\
    (forall l', get_key h' l' = if decide (l' = l) then Some (s, member n) else get_key h l') /\
    dom h' = dom h.
Proof.
  intros Hl. unfold set_score, get_forward, get_span, get_key. rewrite Hl. simpl.
  eexists. split; [done|]. split_and!; intros.
  1-3: destruct (decide (l' = l)) as [->|Hne];
    [rewrite lookup_insert_eq, ?Hl|rewrite lookup_insert_ne]; done.
  rewrite dom_insert_L. apply elem_of_dom_2 in Hl. set_solver.
Qed.

Lemma key_eq_trans_lt ks K k x :
  sorted ks -> Forall num ks -> num k -> ks !! K = Some x -> key_eq x k -> sorted (<[K := k]> ks).
Proof.
  intros Hs Hn Hk Hx He. apply sorted_of_lookup. intros i j a b Hij Ha Hb.
  assert (Hlt := lookup_lt_Some _ _ _ Hx). assert (num x) by (by eapply (num_at ks Hn)).
  assert (forall j y, ks !! j = Some y -> num y) as Hnum by (intros; by eapply (num_at ks Hn)).
  destruct (decide (i = K)) as [->|HiK].
  - rewrite list_lookup_insert_eq in Ha by done. rewrite list_lookup_insert_ne in Hb by lia.
    simplify_eq. apply (key_eq_lt_l x); eauto. by eapply (sorted_lookup ks K j).
  - rewrite list_lookup_insert_ne in Ha by lia. destruct (decide (j = K)) as [->|HjK].
    + rewrite list_lookup_insert_eq in Hb by done. simplify_eq.
      apply (key_eq_lt x); eauto. by eapply (sorted_lookup ks i K).
    + rewrite list_lookup_insert_ne in Hb by lia. by eapply (sorted_lookup ks i j).
Qed.

Lemma set_score_shape {G G' : list key -> Prop} sl ls hs ks K l x k :
  shape G sl ls hs ks -> ls !! S K = Some l -> ks !! K = Some x -> x.2 = k.2 -> G' (<[K := k]> ks) ->
  exists h, set_score (heap sl) l k.1 = Some h /\
    shape G' (mkSkipList h (next_loc sl) (header_ sl) (level_ sl) (length_ sl)) ls hs (<[K := k]> ks).
Proof.
  intros R Hl Hx He HG. pose proof (rep_keys _ _ _ _ R K l Hl) as Hkey. rewrite Hx in Hkey.
  unfold get_key in Hkey. destruct (heap sl !! l) as [n|] eqn:En; [|done]. simpl in Hkey.
  assert (Hm : member n = k.2) by (injection Hkey as <-; done).
  destruct (set_score_views (heap sl) l k.1 n En) as (h & -> & F & Sp & Kf & D).
  exists h. split; [done|]. destruct R. split; simpl; try done.
  - by rewrite length_insert.
  - intros p. by rewrite D.
  - intros p l' Hl'. rewrite Kf. case_decide as Hd.
    + subst l'. assert (S p = S K) as [= ->] by (by eapply NoDup_lookup).
      rewrite Hm, list_lookup_insert_eq by (by eapply lookup_lt_Some). by destruct k.
    + rewrite list_lookup_insert_ne by (intros ->; congruence). by apply rep_keys.
  - intros p l' ht i Hl' Hh Hi. unfold link_ok. rewrite F, Sp. by apply (rep_links p l' ht).
  - unfold zlen. by rewrite length_insert.
Qed.

Section ops.
Context (sl : SkipList) (ls : list loc) (hs : list nat) (ks : list key).
Context (R : rep sl ls hs ks).

Let Hs := rep_sorted _ _ _ _ R.
Let Hn := rep_num _ _ _ _ R.

Lemma set_score_rep K l x k :
  ls !! S K = Some l -> ks !! K = Some x -> num k -> key_eq x k ->
  exists h, set_score (heap sl) l k.1 = Some h /\
    rep (mkSkipList h (next_loc sl) (header_ sl) (level_ sl) (length_ sl)) ls hs (<[K := k]> ks).
Proof.
  intros Hl Hx Hk He. eapply set_score_shape; [exact R|done|done| |].
  - apply key_eq_spec in He; [by destruct He| |done]. by eapply (num_at ks Hn).
  - split; [by eapply key_eq_trans_lt|by apply Forall_insert].
Qed.

Section with_key.
Context (k : key) (Hk : num k).
Let K := cutpos (fun s m => KeyLess s m k.1 k.2) ks.
Let C := less_cut ks Hs Hn k Hk.

(** The search of [FindNode] and [Insert], and the candidate after it. *)
Lemma find_run :
  exists y upd,
    descend (walk_fuel sl) (heap sl) (fun s' m' => KeyLess s' m' k.1 k.2)
      (level_ sl) (header_ sl) 0 = Some (y, upd) /\
    upd_ok ls hs K (level_ sl) upd /\
    ((exists l x, ls !! S K = Some l /\ ks !! K = Some x /\
        get_forward (heap sl) y 0 = Some (Some l) /\ get_key (heap sl) l = Some x) \/
     (ks !! K = None /\ get_forward (heap sl) y 0 = Some None)).
Proof.
  destruct (search_spec sl ls hs ks R _ K C) as (y & upd & Hd & Hu & Hy).
  exists y, upd. split_and!; [done|done|]. by apply (after_pos sl ls hs ks R).
Qed.

Lemma FindNode_spec :
  exists r upd, FindNode sl k.1 k.2 = Some (r, upd) /\ upd_ok ls hs K (level_ sl) upd /\
    ((exists l x, r = Some l /\ ls !! S K = Some l /\ ks !! K = Some x /\ key_eq x k /\
                  ref_mem k ks = true) \/
     (r = None /\ ref_mem k ks = false)).
Proof.
  unfold FindNode. rewrite (ref_mem_cut ks Hs Hn k Hk).
  destruct find_run as (y & upd & -> & Hu & Hc); simpl.
  destruct Hc as [(l & x & Hl & Hx & -> & Hg)|[Hx ->]]; simpl.
  - rewrite Hg. simpl. fold K. rewrite Hx. unfold same_key.
    destruct (KeyEqual x.1 x.2 k.1 k.2) eqn:E; do 2 eexists; (split_and!; [done|done|]); [left|by right].
    by exists l, x.
  - do 2 eexists. split_and!; [done|done|]. right. fold K. by rewrite Hx.
Qed.

Lemma Contains_spec : Contains sl k.1 k.2 = Some (ref_mem k ks).
Proof.
  unfold Contains. destruct FindNode_spec as (r & upd & -> & _ & [(l & x & -> & _ & _ & _ & ->)|[-> ->]]); done.
Qed.

Lemma Insert_spec rnd :
  zlen ks + 1 < U64 - 1 ->
  exists sl', Insert rnd sl k.1 k.2 = Some ((ref_insert k ks).1, sl') /\ wf sl' (ref_insert k ks).2.
Proof.
  intros Hroom. unfold Insert. rewrite ref_insert_cut. fold K.
  destruct find_run as (y & upd & -> & Hu & Hc); simpl.
  assert (Hnew : (forall x, ks !! K = Some x -> ~ key_eq x k) ->
    exists sl', insert_node sl upd (RandomLevel rnd) k.1 k.2 = Some sl' /\ wf sl' (ins_at K k ks)).
  { intros Hne. destruct (insert_node_rep sl ls hs ks R k K (proj1 C)
      (ordered_ins_at ks k K (conj Hs Hn) Hk C Hne) Hroom upd (RandomLevel rnd) Hu)
      as (sl' & E & R'); [apply RandomLevel_bounds|]. exists sl'. split; [done|]. by do 2 eexists. }
  destruct Hc as [(l & x & Hl & Hx & -> & Hg)|[Hx ->]]; simpl; rewrite Hx.
  - rewrite Hg. simpl. unfold same_key. destruct (KeyEqual x.1 x.2 k.1 k.2) eqn:E; simpl.
    + destruct (set_score_rep K l x k Hl Hx Hk E) as (h & -> & R'). simpl.
      eexists. split; [done|]. by do 2 eexists.
    + destruct Hnew as (sl' & -> & W); [|simpl; eauto]. intros x' Hx'. simplify_eq.
      unfold key_eq. by rewrite E.
  - destruct Hnew as (sl' & -> & W); [|simpl; eauto]. intros x' Hx'. simplify_eq.
Qed.

Lemma Erase_spec :
  exists sl', Erase sl k.1 k.2 = Some (ref_mem k ks, sl') /\ wf sl' (ref_erase k ks).
Proof.
  unfold Erase.
  destruct FindNode_spec as (r & upd & -> & Hu & [(l & x & -> & Hl & Hx & He & Hm)|[-> Hm]]);
    simpl; rewrite Hm.
  - destruct (DeleteNode_rep sl ls hs ks R K l upd Hl Hu) as (sl' & -> & R'). simpl.
    exists sl'. split; [done|]. rewrite (ref_erase_cut ks k K x) by done. by do 2 eexists.
  - exists sl. split; [done|]. rewrite ref_erase_nochange by done. by do 2 eexists.
Qed.
End with_key.

(** *** Traversal *)

Lemma nodes_from_spec p fuel :
  (length ks - p <= fuel)%nat -> (p <= length ks)%nat ->
  nodes_from fuel (heap sl) (ls !! S p) = Some (drop p ks).
Proof.
  revert p. induction fuel as [|f IH]; intros p Hf Hp.
  - assert (p = length ks) as -> by lia. rewrite drop_all.
    by rewrite lookup_ge_None_2 by (rewrite (rep_len_ks _ _ _ _ R); lia).
  - destruct (ls !! S p) as [l|] eqn:El; simpl.
    + pose proof (lookup_lt_Some _ _ _ El) as Hlt. rewrite (rep_len_ks _ _ _ _ R) in Hlt.
      destruct (lookup_lt_is_Some_2 ks p ltac:(lia)) as [x Hx].
      rewrite (rep_keys _ _ _ _ R p l El), Hx. simpl.
      rewrite (level0_next sl ls hs ks (S p) l R El). simpl.
      rewrite IH by lia. simpl. f_equal. symmetry. by apply drop_S.
    + apply lookup_ge_None in El. rewrite (rep_len_ks _ _ _ _ R) in El.
      by rewrite drop_ge by lia.
Qed.

Lemma all_nodes_spec : all_nodes sl = Some ks.
Proof.
  unfold all_nodes. rewrite (level0_next sl ls hs ks 0 (header_ sl) R) by apply (rep_header _ _ _ _ R).
  simpl. rewrite nodes_from_spec; [done| |lia].
  unfold walk_fuel. rewrite (rep_size _ _ _ _ R), (rep_len_ks _ _ _ _ R). lia.
Qed.

(** The nodes after a rank-free search. *)
Lemma nodes_after_cut t K :
  cut t ks K ->
  exists x, descend_to (walk_fuel sl) (heap sl) t (level_ sl) (header_ sl) = Some x /\
    ls !! K = Some x /\
    exists cur, get_forward (heap sl) x 0 = Some cur /\
      nodes_from (walk_fuel sl) (heap sl) cur = Some (drop K ks).
Proof.
  intros C. destruct (search_spec sl ls hs ks R t K C) as (y & upd & Hd & _ & Hy).
  exists y. split_and!; [by eapply descend_to_descend|done|].
  eexists. split; [by apply (level0_next sl ls hs ks K y R)|].
  apply nodes_from_spec; [|apply C].
  unfold walk_fuel. rewrite (rep_size _ _ _ _ R), (rep_len_ks _ _ _ _ R). lia.
Qed.
End ops.
