(* ===== verification/SkipListQueries.v ===== *)
(** * The skip list: ranks, ends and ranges

    [Rank] follows the spans of the levels; the other queries traverse level 0.
    Each is shown equal to the reference on the sorted sequence. *)

From S2P Require Import Prelude Bytes Double SkipList SkipListInv SkipListInsert SkipListDelete SkipListProofs.
From Stdlib Require Import Sorting.Sorted.
Local Open Scope Z_scope.

Definition ref_pop_min (ks : list key) : option key * list key :=
  match ks with [] => (None, []) | x :: r => (Some x, r) end.
Definition ref_pop_max (ks : list key) : option key * list key :=
  (last ks, removelast ks).

(** ** Ranks *)

Lemma key_eq_refl k : num k -> key_eq k k.
Proof. intros Hk. by apply key_eq_spec. Qed.

Lemma rank_test_spec k x :
  num k -> num x -> rank_test k.1 k.2 x.1 x.2 = true <-> key_lt x k \/ key_eq x k.
Proof.
  intros Hk Hx. unfold rank_test, key_lt, key_eq, KeyLess, KeyEqual.
  pose proof (dlt_rank _ _ Hx Hk) as Hl. pose proof (deq_rank _ _ Hx Hk) as He.
  destruct (deq x.1 k.1) eqn:E; simpl.
  - assert (dlt x.1 k.1 = false) as ->.
    { apply not_true_iff_false. rewrite Hl, (proj1 He eq_refl). apply rank_lt_irrefl. }
    simpl. rewrite bool_decide_eq_true. unfold bytes_leb, bytes_ltb.
    destruct (bytes_compare x.2 k.2) eqn:Ec; split; auto; try done.
    + intros _. right. by apply bytes_compare_eq.
    + intros [?|Heq]; [done|]. rewrite Heq, bytes_compare_refl in Ec. done.
  - destruct (dlt x.1 k.1); simpl; naive_solver.
Qed.

Lemma ref_index_spec k ks :
  match ref_index k ks with
  | Some j => exists x, ks !! j = Some x /\ key_eq x k
  | None => forall j x, ks !! j = Some x -> ~ key_eq x k
  end.
Proof.
  induction ks as [|x ks IH]; simpl; [done|].
  destruct (same_key k x) eqn:E; [by exists x|].
  destruct (ref_index k ks) as [j|]; simpl.
  - destruct IH as (y & Hy & He). by exists y.
  - intros [|j] y Hy; simpl in Hy; [|by eapply IH]. simplify_eq.
    unfold key_eq. unfold same_key in E. by rewrite E.
Qed.

Section rank.
Context (sl : SkipList) (ls : list loc) (hs : list nat) (ks : list key).
Context (R : rep sl ls hs ks) (k : key) (Hk : num k).
Let Hs := rep_sorted _ _ _ _ R.
Let Hn := rep_num _ _ _ _ R.
Let K := cutpos (rank_test k.1 k.2) ks.

Lemma rank_cut : cut (rank_test k.1 k.2) ks K.
Proof.
  apply cutpos_cut; [done|]. intros a b Ha Hb Hab. pose proof Hn as Hnum.
  rewrite Forall_forall in Hnum. rewrite !rank_test_spec by auto.
  intros [H|H]; left; [by apply (key_lt_trans a b k); auto|by apply (key_eq_lt b k a); auto].
Qed.

Lemma rank_cut_found j x : ks !! j = Some x -> key_eq x k -> K = S j.
Proof.
  intros Hx He. destruct rank_cut as [HK Hc]. assert (num x) by (by eapply (num_at ks Hn)).
  assert (j < K)%nat as Hj by (apply (Hc j x Hx), rank_test_spec; auto).
  destruct (decide (K = S j)) as [|Hne]; [done|]. exfalso.
  destruct (lookup_lt_is_Some_2 ks (S j) ltac:(lia)) as [y Hy].
  assert (num y) by (by eapply (num_at ks Hn)).
  assert (key_lt x y) as Hxy by (apply (sorted_lookup ks j (S j)); auto).
  assert (key_lt k y) as Hky by (apply (key_eq_lt_l x k y); auto).
  assert (S j < K)%nat as Hlt by lia. apply (Hc _ _ Hy) in Hlt.
  apply rank_test_spec in Hlt as [H'|H']; [..|done|done].
  - apply (key_lt_irrefl k Hk). by apply (key_lt_trans k y k).
  - apply (key_eq_not_lt k y Hk); auto. by apply key_eq_sym.
Qed.

Lemma rank_loop_spec fuel i p x h :
  ls !! p = Some x -> hs !! p = Some h -> (i <= h)%nat -> (p <= K)%nat -> (K < fuel)%nat ->
  ((0 < i)%nat \/ ref_index k ks = None) ->
  rank_loop fuel (heap sl) (header_ sl) k.1 k.2 i x (Z.of_nat p) = Some (ref_rank k ks).
Proof.
  revert p x h. induction i as [|i IH]; intros p x h Hx Hh Hi Hp Hf Hfound; simpl.
  { destruct Hfound as [|H]; [lia|]. unfold ref_rank. by rewrite H. }
  destruct (walk_spec sl ls hs ks R _ K rank_cut fuel i p x h)
    as (pr & y & -> & Hy & Pr & _); try done; [lia..|]. simpl.
  pose proof Pr as (HprK & (hp & Ehp & Hhp) & Hlast).
  (* at level 0 the walk stops at the cut *)
  assert (i = 0%nat -> pr = K) as H0.
  { intros ->. destruct (decide (pr = K)) as [|Hne]; [done|]. exfalso.
    destruct (lookup_lt_is_Some_2 hs K) as [hK EK].
    { rewrite (rep_len_hs _ _ _ _ R). apply (K_bound sl ls hs ks R _ K rank_cut). }
    pose proof (rep_height_pos _ _ _ _ _ _ R EK). specialize (Hlast K hK ltac:(lia) EK). lia. }
  assert (Hrec : (forall j x, ks !! j = Some x -> key_eq x k -> S j <> pr) ->
    rank_loop fuel (heap sl) (header_ sl) k.1 k.2 i y (Z.of_nat pr) = Some (ref_rank k ks)).
  { intros Hnot. apply (IH pr y hp); try done; [lia|].
    destruct i as [|i]; [right|left; lia]. specialize (H0 eq_refl).
    pose proof (ref_index_spec k ks) as Hri. destruct (ref_index k ks) as [j|]; [|done].
    destruct Hri as (z & Hz & Hez). specialize (Hnot j z Hz Hez).
    rewrite (rank_cut_found j z Hz Hez) in H0. congruence. }
  destruct pr as [|pr].
  - rewrite (rep_header _ _ _ _ R) in Hy. injection Hy as <-.
    rewrite bool_decide_eq_true_2 by done. apply Hrec. intros; lia.
  - rewrite bool_decide_eq_false_2.
    2:{ intros ->. pose proof (rep_header _ _ _ _ R) as Hh0.
        pose proof (lookup_inj sl ls hs ks R _ _ _ Hh0 Hy). lia. }
    destruct (key_at sl ls hs ks R _ K rank_cut pr y Hy) as (z & Hz & -> & _). simpl.
    destruct (deq z.1 k.1 && bool_decide (z.2 = k.2)) eqn:E.
    + pose proof (rank_cut_found pr z Hz E) as HK.
      pose proof (pos_small sl ls hs ks R pr) as Hsm.
      pose proof (lookup_lt_Some _ _ _ Hy). f_equal. rewrite u64_small by lia.
      unfold ref_rank. pose proof (ref_index_spec k ks) as Hri.
      destruct (ref_index k ks) as [j|]; [|by apply (Hri pr z) in Hz].
      destruct Hri as (z' & Hz' & He'). pose proof (rank_cut_found j z' Hz' He'). lia.
    + apply Hrec. intros j z' Hz' He' [= ->]. rewrite Hz in Hz'. simplify_eq.
      unfold key_eq, KeyEqual in He'. congruence.
Qed.

Lemma Rank_spec : Rank sl k.1 k.2 = Some (ref_rank k ks).
Proof.
  unfold Rank. apply (rank_loop_spec _ _ 0 _ kMaxLevel).
  - apply (rep_header _ _ _ _ R).
  - apply (rep_header_height _ _ _ _ R).
  - apply (rep_level _ _ _ _ R).
  - lia.
  - unfold walk_fuel. rewrite (rep_size _ _ _ _ R). apply (K_bound sl ls hs ks R _ K rank_cut).
  - left. apply (rep_level _ _ _ _ R).
Qed.

Lemma RevRank_spec : RevRank sl k.1 k.2 = Some (ref_rev_rank k ks).
Proof.
  unfold RevRank. rewrite Rank_spec. simpl. unfold ref_rank, ref_rev_rank.
  destruct (rep_length _ _ _ _ R) as [-> Hb].
  pose proof (ref_index_spec k ks) as Hri. destruct (ref_index k ks) as [j|]; [|done].
  destruct Hri as (x & Hx & _). apply lookup_lt_Some in Hx. unfold zlen, SIZE_MAX, U64 in *.
  destruct (Z.eqb_spec (Z.of_nat j) (18446744073709551616 - 1)); [lia|].
  destruct (Z.leb_spec (Z.of_nat (length ks)) (Z.of_nat j)); [lia|].
  f_equal. apply u64_small. unfold U64. lia.
Qed.
End rank.

(** ** Popping the ends *)

Section pops.
Context (sl : SkipList) (ls : list loc) (hs : list nat) (ks : list key).
Context (R : rep sl ls hs ks).
Let Hs := rep_sorted _ _ _ _ R.
Let Hn := rep_num _ _ _ _ R.

(** Finding the key of a node and deleting that node. *)
Lemma find_and_delete K l x :
  ls !! S K = Some l -> ks !! K = Some x ->
  exists r upd sl', get_key (heap sl) l = Some x /\ FindNode sl x.1 x.2 = Some (r, upd) /\
    DeleteNode sl l upd = Some sl' /\ wf sl' (del_at K ks).
Proof.
  intros Hl Hx. assert (Hnx : num x) by (by eapply (num_at ks Hn)).
  destruct (FindNode_spec sl ls hs ks R x Hnx) as (r & upd & Hf & Hu & _).
  rewrite <- (equal_at_cut ks Hs Hn x Hnx K x Hx) in Hu by (by apply key_eq_refl).
  destruct (DeleteNode_rep sl ls hs ks R K l upd Hl Hu) as (sl' & Hd & R').
  exists r, upd, sl'. split_and!; [|done|done|by do 2 eexists].
  by rewrite (rep_keys _ _ _ _ R K l Hl).
Qed.

Lemma ref_pop_min_head (l : list key) x : l !! 0%nat = Some x -> ref_pop_min l = (Some x, del_at 0 l).
Proof. destruct l; [done|]. by intros [= ->]. Qed.

Lemma PopMin_spec :
  exists sl', PopMin sl = Some ((ref_pop_min ks).1, sl') /\ wf sl' (ref_pop_min ks).2.
Proof.
  unfold PopMin. rewrite (level0_next sl ls hs ks 0 (header_ sl) R) by apply (rep_header _ _ _ _ R).
  simpl. destruct (ls !! 1%nat) as [l|] eqn:El.
  - pose proof (lookup_lt_Some _ _ _ El) as Hlt. rewrite (rep_len_ks _ _ _ _ R) in Hlt.
    destruct (lookup_lt_is_Some_2 ks 0 ltac:(lia)) as [x Hx].
    destruct (find_and_delete 0 l x El Hx) as (r & upd & sl' & -> & E2 & E3 & W).
    simpl. rewrite E2. simpl. rewrite E3. simpl. rewrite (ref_pop_min_head ks x Hx). by exists sl'.
  - apply lookup_ge_None in El. rewrite (rep_len_ks _ _ _ _ R) in El.
    destruct ks; [|simpl in El; lia]. exists sl. split; [done|]. by do 2 eexists.
Qed.

Lemma PopMax_spec :
  exists sl', PopMax sl = Some ((ref_pop_max ks).1, sl') /\ wf sl' (ref_pop_max ks).2.
Proof.
  unfold PopMax.
  destruct (nodes_after_cut sl ls hs ks R (fun _ _ => true) (length ks)) as (y & -> & Hy & _).
  { split; [done|]. intros j x Hx. apply lookup_lt_Some in Hx. done. }
  simpl. unfold ref_pop_max. rewrite last_lookup.
  destruct (length ks) as [|n] eqn:En.
  - rewrite (rep_header _ _ _ _ R) in Hy. injection Hy as <-. rewrite bool_decide_eq_true_2 by done.
    destruct ks; [|done]. exists sl. split; [done|]. by do 2 eexists.
  - rewrite bool_decide_eq_false_2.
    2:{ intros ->. pose proof (lookup_inj sl ls hs ks R _ _ _ (rep_header _ _ _ _ R) Hy). lia. }
    destruct (lookup_lt_is_Some_2 ks n ltac:(lia)) as [x Hx]. simpl. rewrite Hx.
    destruct (find_and_delete n y x Hy Hx) as (r & upd & sl' & -> & E2 & E3 & W).
    simpl. rewrite E2. simpl. rewrite E3. simpl. exists sl'. split; [done|].
    unfold del_at in W. rewrite (drop_ge ks (S n)), app_nil_r in W by lia.
    rewrite removelast_firstn_len, En. done.
Qed.
End pops.

(** ** Ranges by rank *)

Lemma rank_window_slice l start stop r :
  0 <= r ->
  rank_window start stop r l =
  take (Z.to_nat (stop - Z.max start r + 1)) (drop (Z.to_nat (Z.max start r - r)) l).
Proof.
  revert r. induction l as [|k l IH]; intros r Hr; simpl.
  { by rewrite drop_nil, take_nil. }
  destruct (Z.leb_spec r stop) as [Hle|Hgt].
  - destruct (Z.leb_spec start r) as [Hs|Hs].
    + rewrite IH by lia. replace (Z.max start r) with r by lia.
      replace (Z.max start (r + 1)) with (r + 1) by lia. rewrite !Z.sub_diag. simpl.
      replace (Z.to_nat (stop - r + 1)) with (S (Z.to_nat (stop - (r + 1) + 1))) by lia. done.
    + rewrite IH by lia.
      replace (Z.to_nat (Z.max start r - r)) with (S (Z.to_nat (Z.max start (r + 1) - (r + 1)))) by lia.
      simpl. f_equal. lia.
  - by replace (Z.to_nat (stop - _ + 1)) with 0%nat by lia.
Qed.

Lemma slice_window {A} (l : list A) (a b : Z) :
  0 <= a -> a <= b -> b < zlen l ->
  rev (take (Z.to_nat (b - a + 1)) (drop (Z.to_nat (zlen l - 1 - b)) l)) =
  take (Z.to_nat (b - a + 1)) (drop (Z.to_nat a) (rev l)).
Proof.
  unfold zlen. intros Ha Hab Hb.
  rewrite skipn_rev, firstn_rev, length_take, skipn_firstn_comm. f_equal.
  f_equal; [lia|]. f_equal. lia.
Qed.

Lemma ref_slice_empty {A} (l : list A) start stop :
  let n := zlen l in
  let s := Z.max 0 (if start <? 0 then n + start else start) in
  let e := Z.min (n - 1) (if stop <? 0 then n + stop else stop) in
  e < s -> ref_slice start stop l = [].
Proof. simpl. intros H. unfold ref_slice. by replace (Z.to_nat (_ - _ + 1)) with 0%nat by lia. Qed.

Lemma RangeByRank_spec sl ls hs ks start stop rev_ :
  rep sl ls hs ks ->
  RangeByRank sl start stop rev_ = Some (ref_slice start stop (if rev_ then rev ks else ks)).
Proof.
  intros R. unfold RangeByRank. destruct (rep_length _ _ _ _ R) as [-> _].
  rewrite (all_nodes_spec sl ls hs ks R). simpl.
  assert (Hlen : zlen (if rev_ then rev ks else ks) = zlen ks).
  { destruct rev_; [|done]. unfold zlen. by rewrite length_rev. }
  pose proof (ref_slice_empty (if rev_ then rev ks else ks) start stop) as Hemp.
  cbv zeta in Hemp. rewrite Hlen in Hemp.
  destruct (Z.eqb_spec (zlen ks) 0) as [H0|H0].
  { rewrite Hemp; [done|]. lia. }
  pose proof (zlen_nonneg ks).
  set (s0 := if start <? 0 then zlen ks + start else start) in *.
  set (e0 := if stop <? 0 then zlen ks + stop else stop) in *.
  replace (if s0 <? 0 then 0 else s0) with (Z.max 0 s0) by (destruct (Z.ltb_spec s0 0); lia).
  set (s := Z.max 0 s0) in *.
  rewrite !Z.gtb_ltb. destruct (Z.ltb_spec (zlen ks - 1) s); [rewrite Hemp; [done|lia]|].
  destruct (Z.ltb_spec e0 0); [rewrite Hemp; [done|lia]|].
  replace (if zlen ks - 1 <? e0 then zlen ks - 1 else e0) with (Z.min (zlen ks - 1) e0)
    by (destruct (Z.ltb_spec (zlen ks - 1) e0); lia).
  destruct (Z.ltb_spec (Z.min (zlen ks - 1) e0) s); [rewrite Hemp; [done|lia]|].
  unfold ref_slice. rewrite Hlen. fold s0 e0. fold s. f_equal.
  set (e := Z.min (zlen ks - 1) e0) in *.
  destruct rev_; rewrite rank_window_slice by lia.
  - rewrite <- slice_window by lia. f_equal. f_equal; [f_equal; lia|]. f_equal. lia.
  - f_equal; [f_equal; lia|]. f_equal. lia.
Qed.

(** ** Ranges by score *)

Lemma key_lt_score a b : num a -> num b -> key_lt a b -> drank a.1 = drank b.1 \/ rank_lt (drank a.1) (drank b.1).
Proof. intros Ha Hb. rewrite key_lt_spec by done. intros [H|[H _]]; auto. Qed.

Lemma dlt_mono_r v a b :
  isnan a = false -> isnan b = false -> drank a = drank b \/ rank_lt (drank a) (drank b) ->
  (dlt v a = true -> dlt v b = true) /\ (dle v a = true -> dle v b = true).
Proof.
  intros Ha Hb Hab. destruct (isnan v) eqn:Hv.
  { by destruct v. }
  rewrite !dle_dlt_deq, !orb_true_iff, !dlt_rank, !deq_rank by done.
  destruct Hab as [->|L]; [done|]. split; [by eauto using rank_lt_trans|].
  intros [H|H]; left; [by eauto using rank_lt_trans|by rewrite H].
Qed.

Lemma dlt_mono_l v a b :
  isnan a = false -> isnan b = false -> drank a = drank b \/ rank_lt (drank a) (drank b) ->
  (dlt b v = true -> dlt a v = true).
Proof.
  intros Ha Hb Hab. destruct (isnan v) eqn:Hv; [by rewrite dlt_nan_r|].
  rewrite !dlt_rank by done. destruct Hab as [->|L]; eauto using rank_lt_trans.
Qed.

Lemma above_max_up r a b :
  num a -> num b -> key_lt a b -> above_max r a.1 = true -> above_max r b.1 = true.
Proof.
  intros Ha Hb Hab. pose proof (key_lt_score a b Ha Hb Hab) as Hr. unfold above_max.
  destruct (dlt_mono_r (r_max r) a.1 b.1 Ha Hb Hr). destruct (max_exclusive r); auto.
Qed.

Lemma sorted_cons_above r k l :
  sorted (k :: l) -> Forall num (k :: l) -> above_max r k.1 = true -> ref_score_range r l = [].
Proof.
  intros Hs Hn Ha. inversion Hs as [|? ? _ Hall]; subst. inversion Hn as [|? ? Hk Hl]; subst.
  unfold ref_score_range. clear Hs Hn. induction l as [|x l IH]; [done|].
  inversion Hall; subst. inversion Hl; subst. simpl. unfold in_range at 1.
  rewrite (above_max_up r k x), andb_false_r by done. by apply IH.
Qed.

Lemma score_window_limit r offset count skipped out l :
  sorted l -> Forall num l -> 0 <= skipped -> (0 < count -> out < count) -> count <> 0 ->
  score_window r offset count skipped out l =
  (let l' := drop (Z.to_nat (offset - skipped)) (ref_score_range r l) in
   if count <? 0 then l' else take (Z.to_nat (count - out)) l').
Proof.
  revert skipped out. induction l as [|k l IH]; intros skipped out Hs Hn Hsk Hout Hc; simpl.
  { rewrite drop_nil, take_nil. by destruct (count <? 0). }
  pose proof (sorted_cons_above r k l Hs Hn) as Habove.
  inversion Hs; subst. inversion Hn; subst. unfold in_range.
  destruct (below_min r k.1); simpl; [by apply IH|].
  destruct (above_max r k.1); simpl.
  { rewrite Habove by done. rewrite drop_nil, take_nil. by destruct (count <? 0). }
  rewrite Z.gtb_ltb.
  destruct (decide (skipped < offset)) as [Hlt|Hge].
  - rewrite (proj2 (Z.ltb_lt 0 offset)), (proj2 (Z.ltb_lt skipped offset)) by lia. simpl.
    rewrite IH by (try done; lia).
    replace (Z.to_nat (offset - skipped)) with (S (Z.to_nat (offset - (skipped + 1)))) by lia. done.
  - rewrite (proj2 (Z.ltb_ge skipped offset)), andb_false_r by lia.
    replace (Z.to_nat (offset - skipped)) with 0%nat by lia. simpl.
    rewrite Z.gtb_ltb, Z.geb_leb. destruct (Z.ltb_spec 0 count) as [Hpos|Hneg]; simpl.
    + rewrite (proj2 (Z.ltb_ge count 0)) by lia. destruct (Z.leb_spec count (out + 1)).
      * by replace (count - out) with 1 by lia.
      * rewrite IH by (try done; lia). rewrite (proj2 (Z.ltb_ge count 0)) by lia.
        replace (Z.to_nat (offset - skipped)) with 0%nat by lia.
        replace (Z.to_nat (count - out)) with (S (Z.to_nat (count - (out + 1)))) by lia. done.
    + rewrite IH by (try done; lia). rewrite (proj2 (Z.ltb_lt count 0)) by lia.
      by replace (Z.to_nat (offset - skipped)) with 0%nat by lia.
Qed.

(** Elements below the range do not change what a window returns. *)
Lemma score_window_drop r offset count l n :
  (forall j k, (j < n)%nat -> l !! j = Some k -> below_min r k.1 = true) ->
  score_window r offset count 0 0 (drop n l) = score_window r offset count 0 0 l.
Proof.
  revert n. induction l as [|k l IH]; intros n Hb; [by rewrite drop_nil|].
  destruct n as [|n]; [done|]. simpl. rewrite (Hb 0%nat k) by (done || lia).
  apply IH. intros j x Hj Hx. apply (Hb (S j)); [lia|done].
Qed.

Lemma score_window_ties r offset count l :
  score_window r offset count 0 0 (if min_exclusive r then skip_ties (r_min r) l else l) =
  score_window r offset count 0 0 l.
Proof.
  destruct (min_exclusive r) eqn:E; [|done]. induction l as [|k l IH]; [done|]. simpl.
  destruct (deq k.1 (r_min r)) eqn:Ed; [|done].
  unfold below_min. rewrite E, dle_dlt_deq, Ed, orb_true_r. apply IH.
Qed.

Section score_ranges.
Context (sl : SkipList) (ls : list loc) (hs : list nat) (ks : list key).
Context (R : rep sl ls hs ks).
Let Hs := rep_sorted _ _ _ _ R.
Let Hn := rep_num _ _ _ _ R.

Lemma below_cut v : cut (fun s _ => dlt s v) ks (cutpos (fun s _ => dlt s v) ks).
Proof.
  apply cutpos_cut; [done|]. intros a b Ha Hb Hab. pose proof Hn as Hnum. rewrite Forall_forall in Hnum.
  apply dlt_mono_l; [by apply Hnum|by apply Hnum|]. apply key_lt_score; auto.
Qed.

Lemma RangeByScore_forward r offset count :
  RangeByScore sl r false offset count = Some (ref_limit offset count (ref_score_range r ks)).
Proof.
  unfold RangeByScore, ref_limit. destruct (Z.eqb_spec count 0) as [->|Hc]; [done|]. simpl.
  destruct (nodes_after_cut sl ls hs ks R _ _ (below_cut (r_min r))) as (x & -> & _ & cur & E1 & E2).
  simpl. rewrite E1. simpl. rewrite E2. simpl. f_equal.
  rewrite score_window_ties, score_window_drop.
  - rewrite score_window_limit by (try done; lia). cbv zeta. by rewrite !Z.sub_0_r.
  - intros j k Hj Hk. apply (proj2 (below_cut (r_min r)) j k Hk) in Hj.
    unfold below_min. rewrite dle_dlt_deq, Hj. by destruct (min_exclusive r).
Qed.

Lemma filter_bound r : zlen (ref_score_range r ks) <= zlen ks.
Proof. unfold zlen, ref_score_range. apply inj_le, filter_length_le. Qed.

Lemma RangeByScore_reverse r offset count :
  zlen ks <= LLONG_MAX -> 0 <= offset <= LLONG_MAX ->
  RangeByScore sl r true offset count = Some (ref_limit offset count (rev (ref_score_range r ks))).
Proof.
  intros Hlen Hoff. unfold RangeByScore, ref_limit. destruct (Z.eqb_spec count 0) as [->|Hc]; [done|].
  simpl. rewrite (all_nodes_spec sl ls hs ks R). simpl. fold (ref_score_range r ks).
  pose proof (filter_bound r). pose proof (zlen_nonneg (ref_score_range r ks)).
  set (asc := ref_score_range r ks) in *.
  rewrite (proj2 (in_i64_spec (zlen asc - offset))) by (unfold LLONG_MIN, LLONG_MAX in *; lia). simpl.
  destruct (Z.leb_spec (zlen asc - offset) 0).
  { f_equal. rewrite drop_ge by (rewrite length_rev; unfold zlen in *; lia).
    rewrite take_nil. by destruct (count <? 0). }
  rewrite (proj2 (Z.ltb_ge (zlen asc) _)) by lia. f_equal. unfold substr.
  rewrite Z.gtb_ltb, skipn_rev.
  destruct (Z.ltb_spec 0 count), (Z.ltb_spec count 0); try lia.
  - rewrite firstn_rev, length_take. f_equal.
    destruct (Z.ltb_spec (zlen asc - offset - count) 0).
    + simpl. replace (_ `min` _ - _)%nat with 0%nat by (unfold zlen in *; lia).
      change (Z.to_nat 0) with 0%nat. rewrite !drop_0. f_equal. unfold zlen in *. lia.
    + rewrite skipn_firstn_comm. f_equal; [unfold zlen in *; lia|]. f_equal. unfold zlen in *. lia.
  - rewrite Z.ltb_irrefl. simpl. f_equal. f_equal. unfold zlen in *. lia.
Qed.

Lemma RangeByScore_reverse_undefined r offset count :
  count <> 0 -> offset < 0 -> RangeByScore sl r true offset count = None.
Proof.
  intros Hc Hoff. unfold RangeByScore. rewrite (proj2 (Z.eqb_neq count 0)) by done. simpl.
  rewrite (all_nodes_spec sl ls hs ks R). simpl. fold (ref_score_range r ks).
  pose proof (zlen_nonneg (ref_score_range r ks)).
  destruct (in_i64 _); [|done]. simpl.
  rewrite (proj2 (Z.leb_gt _ 0)) by lia. by rewrite (proj2 (Z.ltb_lt (zlen _) _)) by lia.
Qed.

Lemma count_loop_spec r n l :
  sorted l -> Forall num l -> 0 <= n -> n + zlen l < U64 ->
  count_loop r n l = n + zlen (ref_score_range r l).
Proof.
  revert n. induction l as [|k l IH]; intros n Hsl Hnl H0 Hb; simpl; [unfold zlen; simpl; lia|].
  pose proof (sorted_cons_above r k l Hsl Hnl) as Habove.
  inversion Hsl; subst. inversion Hnl; subst. unfold zlen in *. simpl in Hb. unfold in_range.
  destruct (below_min r k.1); simpl; [by apply IH; try done; lia|].
  destruct (above_max r k.1); simpl.
  { rewrite Habove by done. simpl. lia. }
  rewrite u64_small by lia. rewrite IH by (try done; lia). lia.
Qed.

Lemma CountInRange_spec r : CountInRange sl r = Some (zlen (ref_score_range r ks)).
Proof.
  unfold CountInRange. rewrite (all_nodes_spec sl ls hs ks R). simpl. f_equal.
  rewrite count_loop_spec; [lia|done|done|lia|]. destruct (rep_length _ _ _ _ R). lia.
Qed.
End score_ranges.

(** The freshly constructed list. *)
Lemma empty_list_shape (G : list key -> Prop) : G [] -> shape G empty_list [0%nat] [kMaxLevel] [].
Proof.
  intros HG. split; try done; simpl.
  - by apply NoDup_singleton.
  - intros l. rewrite dom_singleton_L, elem_of_singleton, list_elem_of_singleton. done.
  - intros l. rewrite list_elem_of_singleton. lia.
  - unfold kMaxLevel. lia.
  - intros p l h i Hl Hh Hi. destruct p as [|[|p]]; [|done..].
    simpl in Hl, Hh. simplify_eq. right. split_and!.
    + intros [|[|r]] h Hr Hh; [lia|done..].
    + unfold get_forward, empty_list. cbn [heap]. rewrite lookup_singleton_eq. cbn [mbind option_bind forward span_ blank_node].
      apply lookup_replicate_2. done.
    + unfold get_span, empty_list. cbn [heap]. rewrite lookup_singleton_eq. cbn [mbind option_bind forward span_ blank_node].
      exists 0. by apply lookup_replicate_2.
Qed.

Lemma empty_list_wf : wf empty_list [].
Proof. exists [0%nat], [kMaxLevel]. apply empty_list_shape. by split; constructor. Qed.
