(* ===== verification/SkipListAny.v ===== *)
(** * The skip list with arbitrary keys

    The loader inserts whatever scores a dump holds, NaN included, so the keys of
    a list need not be ordered.  The links stay sound all the same: a search
    passes no node that fails its test on any level, hence the nodes in which it
    ends on the different levels surround one position.  Insertion therefore never
    follows a bad link, and the destructor frees every node once. *)

From S2P Require Import Prelude Bytes Double SkipList SkipListInv SkipListInsert SkipListDelete SkipListProofs SkipListQueries.
Local Open Scope Z_scope.

(** Links are sound; nothing is known of the keys. *)
Definition solid (sl : SkipList) (n : Z) : Prop := exists ls hs ks, shape (fun _ => True) sl ls hs ks /\ zlen ks = n.

Section search_any.
Context {G : list key -> Prop} (sl : SkipList) (ls : list loc) (hs : list nat) (ks : list key).
Context (R : shape G sl ls hs ks) (t : double -> bytes -> bool).

(** A walk at level [i] or below does not pass the position [B]. *)
Definition fence (i B : nat) : Prop :=
  B = length ls \/
  (exists q k h, B = S q /\ ks !! q = Some k /\ t k.1 k.2 = false /\ hs !! B = Some h /\ (i < h)%nat).

Lemma next_before_fence i B p q : fence i B -> (p < B)%nat -> is_next hs p i q -> (q <= B)%nat.
Proof.
  intros HB Hp Hn. pose proof (next_bound sl ls hs ks R _ _ _ Hn) as Hq.
  destruct HB as [->|(q' & k & h & -> & _ & _ & Hh & Hi)]; [lia|].
  destruct Hn as (_ & _ & Hbet). destruct (decide (q <= S q')%nat); [done|]. specialize (Hbet (S q') h ltac:(lia) Hh). lia.
Qed.

Lemma walk_any fuel i p x h B :
  ls !! p = Some x -> hs !! p = Some h -> (i < h)%nat -> (p < B <= length ls)%nat -> fence i B ->
  (length ls - p <= fuel)%nat ->
  exists pr y B', walk fuel (heap sl) t i x (Z.of_nat p) = Some (y, Z.of_nat pr) /\ ls !! pr = Some y /\
    (p <= pr < B')%nat /\ (B' <= B)%nat /\ fence i B' /\ (forall K, (pr <= K < B')%nat -> is_pred hs i K pr).
Proof.
  revert p x h. induction fuel as [|f IH]; intros p x h Hx Hh Hi HpB HB Hf; [lia|]. cbn [walk].
  assert (Hpred : forall B', (forall r hr, (p < r < B')%nat -> hs !! r = Some hr -> (hr <= i)%nat) ->
    forall K, (p <= K < B')%nat -> is_pred hs i K p).
  { intros B' Hno K HK. split; [lia|]. split; [by exists h|]. intros r hr Hr. apply Hno. lia. }
  destruct (rep_links _ _ _ _ R p x h i Hx Hh Hi) as [(q & l' & Hn & Hl' & -> & ->)|(Hno & -> & _)]; simpl.
  - pose proof Hn as (Hpq & (hq & Ehq & Hhq) & Hbet). destruct q as [|q]; [lia|].
    pose proof (lookup_lt_Some _ _ _ Hl') as Hlt. pose proof (rep_len_ks _ _ _ _ R) as Hlk.
    destruct (lookup_lt_is_Some_2 ks q ltac:(lia)) as [k Hk].
    rewrite (rep_keys _ _ _ _ R _ _ Hl'), Hk. simpl.
    pose proof (next_before_fence i B p (S q) HB ltac:(lia) Hn) as HqB. destruct (t k.1 k.2) eqn:Et.
    + rewrite u64_small by (pose proof (pos_small sl ls hs ks R (S q) ltac:(lia)); lia).
      replace (Z.of_nat p + Z.of_nat (S q - p)) with (Z.of_nat (S q)) by lia.
      assert (S q < B)%nat.
      { destruct HB as [->|(q' & k' & h' & -> & Hk' & Ht' & _)]; [done|].
        destruct (decide (q = q')) as [->|]; [congruence|lia]. }
      destruct (IH (S q) l' hq Hl' Ehq Hhq ltac:(lia) HB ltac:(lia)) as (pr & y & B' & E & Hy & Hpr & HB' & Hf' & Hp').
      exists pr, y, B'. split_and!; try done; lia.
    + exists p, x, (S q). split_and!; try done; try lia; [|by apply Hpred]. right. by exists q, k, hq.
  - exists p, x, B. split_and!; try done; try lia. apply Hpred. intros r hr Hr. apply Hno. lia.
Qed.

Lemma fence_below i j B : fence i B -> (j <= i)%nat -> fence j B.
Proof. intros [->|(q & k & h & ? & ? & ? & ? & ?)] Hj; [by left|]. right. exists q, k, h. split_and!; try done. lia. Qed.

Lemma descend_any fuel i p x h B :
  ls !! p = Some x -> hs !! p = Some h -> (i <= h)%nat -> (p < B <= length ls)%nat -> fence i B ->
  (length ls <= fuel)%nat ->
  exists K y upd, descend fuel (heap sl) t i x (Z.of_nat p) = Some (y, upd) /\ upd_ok ls hs K i upd /\
    ls !! K = Some y /\ (p <= K < B)%nat.
Proof.
  revert p x h B. induction i as [|i IH]; intros p x h B Hx Hh Hi HpB HB Hf; simpl.
  { exists p, x, []. split_and!; try done. lia. }
  destruct (walk_any fuel i p x h B) as (pr & y & B' & -> & Hy & Hpr & HB' & Hf' & Hp);
    [done|done|lia|lia|by eapply fence_below; [exact HB|lia]|lia|].
  simpl. destruct (Hp pr ltac:(lia)) as (_ & (hp & Ehp & Hhp) & _).
  destruct (IH pr y hp B') as (K & z & upd & -> & [Hlen Hupd] & Hz & HK); try done; [lia|lia|].
  simpl. exists K, z, (upd ++ [(y, Z.of_nat pr)]). split_and!; [done|split|done|lia|lia].
  - rewrite length_app. simpl. lia.
  - intros j u r. rewrite lookup_app. destruct (upd !! j) as [[u' r']|] eqn:E.
    + intros [= <- <-]. by apply Hupd.
    + apply lookup_ge_None in E. intros Hj.
      assert (j = i) as -> by (apply lookup_lt_Some in Hj; simpl in Hj; lia).
      rewrite Hlen, Nat.sub_diag in Hj. simpl in Hj. simplify_eq. exists pr. split_and!; [done|done|]. apply Hp. lia.
Qed.

(** Any search ends around one position. *)
Lemma search_any :
  exists K y upd, descend (walk_fuel sl) (heap sl) t (level_ sl) (header_ sl) 0 = Some (y, upd) /\
    upd_ok ls hs K (level_ sl) upd /\ ls !! K = Some y /\ (K <= length ks)%nat.
Proof.
  pose proof (rep_len_ks _ _ _ _ R) as Hlk. pose proof (rep_level _ _ _ _ R) as Hlv.
  destruct (descend_any (walk_fuel sl) (level_ sl) 0 (header_ sl) kMaxLevel (length ls)) as (K & y & upd & E & Hu & Hy & HK);
    [apply (rep_header _ _ _ _ R)|apply (rep_header_height _ _ _ _ R)|lia|lia|by left| |].
  - unfold walk_fuel. rewrite (rep_size _ _ _ _ R). lia.
  - exists K, y, upd. split_and!; try done. lia.
Qed.
End search_any.

(** ** Insertion *)

Lemma empty_solid : solid empty_list 0.
Proof. exists [0%nat], [kMaxLevel], []. split; [|done]. by apply empty_list_shape. Qed.

Lemma Insert_solid rnd sl n s m :
  solid sl n -> n + 1 < U64 - 1 ->
  exists b sl' n', Insert rnd sl s m = Some (b, sl') /\ solid sl' n' /\ n <= n' <= n + 1.
Proof.
  intros (ls & hs & ks & R & <-) Hroom. unfold Insert.
  destruct (search_any sl ls hs ks R (fun s' m' => KeyLess s' m' s m)) as (K & y & upd & -> & Hu & Hy & HK). simpl.
  assert (exists sl', insert_node sl upd (RandomLevel rnd) s m = Some sl' /\ solid sl' (zlen ks + 1)) as (sl' & Ei & Hs').
  { destruct (insert_node_rep (G' := fun _ => True) sl ls hs ks R (s, m) K HK I Hroom upd (RandomLevel rnd) Hu
      (RandomLevel_bounds rnd)) as (sl' & E & R'). exists sl'. split; [done|]. do 3 eexists. split; [done|].
    unfold zlen. rewrite ins_at_length by done. lia. }
  destruct (after_pos sl ls hs ks R K y Hy) as [(l & x & Hl & Hx & -> & Hg)|[Hx ->]]; simpl.
  - rewrite Hg. simpl. destruct (KeyEqual x.1 x.2 s m) eqn:E.
    + apply andb_true_iff in E as [_ E%bool_decide_eq_true].
      destruct (set_score_shape (G' := fun _ => True) sl ls hs ks K l x (s, m) R Hl Hx E I) as (h & E' & R').
      cbn [fst] in E'. rewrite E'. simpl. do 3 eexists. split; [done|]. split; [by do 3 eexists|].
      unfold zlen. rewrite length_insert. lia.
    + rewrite Ei. simpl. do 3 eexists. split; [done|]. split; [done|lia].
  - rewrite Ei. simpl. do 3 eexists. split; [done|]. split; [done|lia].
Qed.

(** ** Destruction *)

Section destroy.
Context {G : list key -> Prop} (sl : SkipList) (ls : list loc) (hs : list nat) (ks : list key).
Context (R : shape G sl ls hs ks).

(** What is left when the first [p] nodes after the header are gone. *)
Definition left_after (p : nat) (h : nheap) : Prop :=
  forall l, h !! l = if decide (l = header_ sl \/ l ∈ drop (S p) ls) then heap sl !! l else None.

Lemma free_step p h l : left_after p h -> ls !! S p = Some l -> left_after (S p) (delete l h).
Proof.
  intros H Hl x. pose proof (rep_nodup _ _ _ _ R) as Hnd.
  pose proof (rep_header _ _ _ _ R) as Hh. destruct (decide (x = l)) as [->|Hx].
  - rewrite lookup_delete_eq, decide_False; [done|]. intros [->|Hin].
    + by pose proof (NoDup_lookup _ _ _ _ Hnd Hh Hl).
    + apply list_elem_of_lookup in Hin as [i Hi]. rewrite lookup_drop in Hi.
      pose proof (NoDup_lookup _ _ _ _ Hnd Hl Hi). lia.
  - rewrite lookup_delete_ne, H by done. apply decide_ext. rewrite (drop_S ls l (S p) Hl), elem_of_cons. naive_solver.
Qed.

Lemma free_from_frees fuel p h :
  left_after p h -> (length ls <= S p + fuel)%nat -> (p < length ls)%nat ->
  exists p' h', free_from fuel h (ls !! S p) = Some h' /\ left_after p' h' /\ ls !! S p' = None.
Proof.
  revert p h. induction fuel as [|f IH]; intros p h H Hf Hp; destruct (ls !! S p) as [l|] eqn:El;
    try (exists p, h; by split_and!); cbn [free_from].
  { apply lookup_lt_Some in El. lia. }
  assert (get_forward h l 0 = Some (ls !! S (S p))) as ->.
  { rewrite <- (level0_next sl ls hs ks (S p) l R El). unfold get_forward. rewrite (H l), decide_True; [done|].
    right. rewrite (drop_S ls l (S p) El). by left. }
  simpl. apply IH; [by apply free_step|lia|]. by apply lookup_lt_Some in El.
Qed.

Lemma Destroy_frees : Destroy sl = Some ∅.
Proof.
  pose proof (rep_header _ _ _ _ R) as Hh. unfold Destroy. rewrite (level0_next sl ls hs ks 0 _ R Hh). simpl.
  assert (left_after 0 (heap sl)) as H0.
  { intros l. case_decide as Hd; [done|]. apply not_elem_of_dom. rewrite (rep_dom _ _ _ _ R). intros Hl. apply Hd.
    destruct ls as [|l0 ls0]; [done|]. simpl in Hh. simplify_eq. apply elem_of_cons in Hl as [->|Hl]; [by left|by right]. }
  destruct (free_from_frees (walk_fuel sl) 0 (heap sl) H0) as (p & h & -> & H & Hp).
  - unfold walk_fuel. rewrite (rep_size _ _ _ _ R). lia.
  - rewrite (rep_len_ks _ _ _ _ R). lia.
  - apply lookup_ge_None in Hp. unfold left_after in H. rewrite drop_ge in H by lia. simpl.
    assert (is_Some (heap sl !! header_ sl)) as [n Hn].
    { apply elem_of_dom. apply (rep_dom _ _ _ _ R). by eapply list_elem_of_lookup_2. }
    rewrite (H (header_ sl)), decide_True, Hn by (by left). simpl. f_equal. apply map_eq. intros l. rewrite lookup_empty.
    destruct (decide (l = header_ sl)) as [->|Hl]; [apply lookup_delete_eq|].
    rewrite lookup_delete_ne, H, decide_False; [done| |done]. intros [->|Hin]; [done|by apply not_elem_of_nil in Hin].
Qed.
End destroy.

Lemma wf_solid sl ks : wf sl ks -> solid sl (zlen ks).
Proof. intros (ls & hs & R). exists ls, hs, ks. split; [|done]. destruct R. by split. Qed.

Lemma solid_destroy sl n : solid sl n -> Destroy sl = Some ∅.
Proof. intros (ls & hs & ks & R & _). by eapply Destroy_frees. Qed.

(** C17: A skip list frees every node once.  For a list with sound links, whatever
    its keys, the destructor reads no node after it was freed and leaves an empty
    heap; so it does after any insertion, NaN scores included, and after a move
    assignment, which frees the old nodes and leaves two lists that can be
    destroyed in turn. *)
Theorem destructor_frees_all sl n :
  solid sl n -> n + 1 < U64 - 1 ->
  Destroy sl = Some ∅ /\
  (forall rnd s m, exists b sl', Insert rnd sl s m = Some (b, sl') /\ Destroy sl' = Some ∅) /\
  (forall old k, solid old k -> exists other, MoveAssign old sl = Some (sl, other) /\ Destroy other = Some ∅).
Proof.
  intros H Hn. split_and!; [by eapply solid_destroy| |].
  - intros rnd s m. destruct (Insert_solid rnd sl n s m H Hn) as (b & sl' & n' & E & H' & _).
    exists b, sl'. split; [done|]. by eapply solid_destroy.
  - intros old k Hold. unfold MoveAssign. rewrite (solid_destroy old k Hold). exists empty_list. split; [done|].
    eapply solid_destroy, empty_solid.
Qed.

Lemma destructor_frees_all_witness :
  exists b sl', Insert (fun _ => 0) empty_list S754_nan (lit "m") = Some (b, sl') /\ Destroy sl' = Some ∅.
Proof.
  destruct (destructor_frees_all empty_list 0) as (_ & H & _).
  - exact empty_solid.
  - by vm_compute.
  - exact (H (fun _ => 0) S754_nan (lit "m")).
Defined.
