(* ===== verification/SkipListRefine.v ===== *)
(** * The skip list as an abstract ordered index

    [ZIndex] is what the rest of the server may assume about a skip list: an
    abstraction relation to a sorted sequence of keys under which every
    operation is defined and agrees with the reference.  [wf_index] discharges it
    with the invariant of [SkipListInv.v].  [skiplist_refines] is the same
    statement for whole histories: any sequence of operations on a fresh list
    returns what the reference returns. *)

From S2P Require Import Prelude Bytes Double SkipList SkipListInv SkipListProofs SkipListQueries.
From Stdlib Require Import Sorting.Sorted.
Local Open Scope Z_scope.

Class ZIndex (abs : SkipList -> list key -> Prop) : Prop := {
  zi_empty : abs empty_list [];
  zi_sorted : forall sl ks, abs sl ks -> sorted ks;
  zi_num : forall sl ks, abs sl ks -> Forall num ks;
  zi_length : forall sl ks, abs sl ks -> length_ sl = zlen ks;
  zi_nodes : forall sl ks, abs sl ks -> all_nodes sl = Some ks;
  zi_contains : forall sl ks k, abs sl ks -> num k -> Contains sl k.1 k.2 = Some (ref_mem k ks);
  zi_insert : forall sl ks k rnd, abs sl ks -> num k -> zlen ks + 1 < U64 - 1 ->
    exists sl', Insert rnd sl k.1 k.2 = Some ((ref_insert k ks).1, sl') /\ abs sl' (ref_insert k ks).2;
  zi_erase : forall sl ks k, abs sl ks -> num k ->
    exists sl', Erase sl k.1 k.2 = Some (ref_mem k ks, sl') /\ abs sl' (ref_erase k ks);
  zi_pop_min : forall sl ks, abs sl ks ->
    exists sl', PopMin sl = Some ((ref_pop_min ks).1, sl') /\ abs sl' (ref_pop_min ks).2;
  zi_pop_max : forall sl ks, abs sl ks ->
    exists sl', PopMax sl = Some ((ref_pop_max ks).1, sl') /\ abs sl' (ref_pop_max ks).2;
  zi_rank : forall sl ks k, abs sl ks -> num k -> Rank sl k.1 k.2 = Some (ref_rank k ks);
  zi_rev_rank : forall sl ks k, abs sl ks -> num k -> RevRank sl k.1 k.2 = Some (ref_rev_rank k ks);
  zi_range_by_rank : forall sl ks start stop rev_, abs sl ks ->
    RangeByRank sl start stop rev_ = Some (ref_slice start stop (if rev_ then rev ks else ks));
  zi_range_by_score : forall sl ks r rev_ offset count, abs sl ks ->
    zlen ks <= LLONG_MAX -> (rev_ = true -> 0 <= offset <= LLONG_MAX) ->
    RangeByScore sl r rev_ offset count =
      Some (ref_limit offset count (if rev_ then rev (ref_score_range r ks) else ref_score_range r ks));
  zi_count : forall sl ks r, abs sl ks -> CountInRange sl r = Some (zlen (ref_score_range r ks))
}.

(** ** Histories *)

Inductive zop :=
| OInsert (rnd : nat -> Z) (k : key)
| OErase (k : key)
| OPopMin
| OPopMax
| OContains (k : key)
| ORank (k : key)
| ORevRank (k : key)
| ORangeByRank (start stop : Z) (rev_ : bool)
| ORangeByScore (r : ScoreRange) (rev_ : bool) (offset count : Z)
| OCount (r : ScoreRange).

Inductive zres := RBool (b : bool) | RKey (k : option key) | RNum (z : Z) | RKeys (l : list key).

Definition zstep (sl : SkipList) (o : zop) : option (zres * SkipList) :=
  match o with
  | OInsert rnd k => '(b, sl') ← Insert rnd sl k.1 k.2; Some (RBool b, sl')
  | OErase k => '(b, sl') ← Erase sl k.1 k.2; Some (RBool b, sl')
  | OPopMin => '(x, sl') ← PopMin sl; Some (RKey x, sl')
  | OPopMax => '(x, sl') ← PopMax sl; Some (RKey x, sl')
  | OContains k => b ← Contains sl k.1 k.2; Some (RBool b, sl)
  | ORank k => r ← Rank sl k.1 k.2; Some (RNum r, sl)
  | ORevRank k => r ← RevRank sl k.1 k.2; Some (RNum r, sl)
  | ORangeByRank a b rv => l ← RangeByRank sl a b rv; Some (RKeys l, sl)
  | ORangeByScore r rv o c => l ← RangeByScore sl r rv o c; Some (RKeys l, sl)
  | OCount r => n ← CountInRange sl r; Some (RNum n, sl)
  end.

Definition ref_zstep (ks : list key) (o : zop) : zres * list key :=
  match o with
  | OInsert _ k => (RBool (ref_insert k ks).1, (ref_insert k ks).2)
  | OErase k => (RBool (ref_mem k ks), ref_erase k ks)
  | OPopMin => (RKey (ref_pop_min ks).1, (ref_pop_min ks).2)
  | OPopMax => (RKey (ref_pop_max ks).1, (ref_pop_max ks).2)
  | OContains k => (RBool (ref_mem k ks), ks)
  | ORank k => (RNum (ref_rank k ks), ks)
  | ORevRank k => (RNum (ref_rev_rank k ks), ks)
  | ORangeByRank a b rv => (RKeys (ref_slice a b (if rv then rev ks else ks)), ks)
  | ORangeByScore r rv o c =>
      (RKeys (ref_limit o c (if rv then rev (ref_score_range r ks) else ref_score_range r ks)), ks)
  | OCount r => (RNum (zlen (ref_score_range r ks)), ks)
  end.

Fixpoint zrun (sl : SkipList) (os : list zop) : option (list zres * SkipList) :=
  match os with
  | [] => Some ([], sl)
  | o :: rest =>
      '(x, sl1) ← zstep sl o;
      '(xs, sl2) ← zrun sl1 rest;
      Some (x :: xs, sl2)
  end.

Fixpoint ref_zrun (ks : list key) (os : list zop) : list zres * list key :=
  match os with
  | [] => ([], ks)
  | o :: rest =>
      let '(x, ks1) := ref_zstep ks o in
      let '(xs, ks2) := ref_zrun ks1 rest in
      (x :: xs, ks2)
  end.

(** Scores are numbers, and a reverse range has no negative offset. *)
Definition op_ok (o : zop) : bool :=
  match o with
  | OInsert _ k | OErase k | OContains k | ORank k | ORevRank k => negb (isnan k.1)
  | ORangeByScore _ true off _ => (0 <=? off) && (off <=? LLONG_MAX)
  | _ => true
  end.

(** ** The instance *)

Lemma ref_insert_length k ks : zlen (ref_insert k ks).2 <= zlen ks + 1.
Proof.
  unfold zlen. induction ks as [|x ks IH]; simpl; [lia|].
  destruct (KeyLess _ _ _ _); [|destruct (same_key k x); simpl; lia].
  destruct (ref_insert k ks). simpl in *. lia.
Qed.

#[export] Instance wf_index : ZIndex wf.
Proof.
  split.
  - apply empty_list_wf.
  - intros sl ks (ls & hs & R). apply (rep_sorted _ _ _ _ R).
  - intros sl ks (ls & hs & R). apply (rep_num _ _ _ _ R).
  - intros sl ks (ls & hs & R). apply (rep_length _ _ _ _ R).
  - intros sl ks (ls & hs & R). apply (all_nodes_spec _ _ _ _ R).
  - intros sl ks k (ls & hs & R) Hk. by apply (Contains_spec _ _ _ _ R).
  - intros sl ks k rnd (ls & hs & R) Hk Hroom. by apply (Insert_spec _ _ _ _ R).
  - intros sl ks k (ls & hs & R) Hk. by apply (Erase_spec _ _ _ _ R).
  - intros sl ks (ls & hs & R). apply (PopMin_spec _ _ _ _ R).
  - intros sl ks (ls & hs & R). apply (PopMax_spec _ _ _ _ R).
  - intros sl ks k (ls & hs & R) Hk. by apply (Rank_spec _ _ _ _ R).
  - intros sl ks k (ls & hs & R) Hk. by apply (RevRank_spec _ _ _ _ R).
  - intros sl ks a b rv (ls & hs & R). by eapply RangeByRank_spec.
  - intros sl ks r rv o c (ls & hs & R) Hl Ho. destruct rv.
    + apply (RangeByScore_reverse _ _ _ _ R); auto.
    + apply (RangeByScore_forward _ _ _ _ R).
  - intros sl ks r (ls & hs & R). apply (CountInRange_spec _ _ _ _ R).
Qed.

Section histories.
Context (abs : SkipList -> list key -> Prop) `{!ZIndex abs}.

Lemma zstep_refines sl ks o :
  abs sl ks -> op_ok o = true -> zlen ks + 1 <= LLONG_MAX ->
  exists sl', zstep sl o = Some ((ref_zstep ks o).1, sl') /\ abs sl' (ref_zstep ks o).2.
Proof.
  intros A Hok Hb.
  assert (zlen ks + 1 < U64 - 1) by (unfold LLONG_MAX, U64 in *; lia).
  destruct o as [rnd k|k| | |k|k|k|a b rv|r rv off c|r]; simpl in *; try apply negb_true_iff in Hok.
  - destruct (zi_insert sl ks k rnd) as (sl' & -> & A'); try done. by exists sl'.
  - destruct (zi_erase sl ks k) as (sl' & -> & A'); try done. by exists sl'.
  - destruct (zi_pop_min sl ks) as (sl' & -> & A'); try done. by exists sl'.
  - destruct (zi_pop_max sl ks) as (sl' & -> & A'); try done. by exists sl'.
  - rewrite (zi_contains sl ks k) by done. by exists sl.
  - rewrite (zi_rank sl ks k) by done. by exists sl.
  - rewrite (zi_rev_rank sl ks k) by done. by exists sl.
  - rewrite (zi_range_by_rank sl ks a b rv) by done. by exists sl.
  - rewrite (zi_range_by_score sl ks r rv off c); [by exists sl|done|lia|].
    intros ->. apply andb_true_iff in Hok as [?%Z.leb_le ?%Z.leb_le]. lia.
  - rewrite (zi_count sl ks r) by done. by exists sl.
Qed.

Lemma ref_zstep_length ks o : zlen (ref_zstep ks o).2 <= zlen ks + 1.
Proof.
  destruct o; simpl; try (unfold zlen; lia).
  - apply ref_insert_length.
  - unfold zlen, ref_erase. pose proof (filter_length_le (fun x => negb (same_key k x)) ks). lia.
  - destruct ks; unfold zlen; simpl; lia.
  - unfold zlen. rewrite removelast_firstn_len, length_take. lia.
Qed.

Lemma zrun_refines os : forall sl ks,
  abs sl ks -> forallb op_ok os = true -> zlen ks + zlen os <= LLONG_MAX ->
  exists sl', zrun sl os = Some ((ref_zrun ks os).1, sl') /\ abs sl' (ref_zrun ks os).2.
Proof.
  induction os as [|o os IH]; intros sl ks A Hok Hb; simpl; [by exists sl|].
  simpl in Hok. apply andb_true_iff in Hok as [Ho Hos].
  assert (zlen (o :: os) = zlen os + 1) as Hz by (unfold zlen; simpl; lia).
  pose proof (zlen_nonneg os).
  destruct (zstep_refines sl ks o A Ho) as (sl1 & -> & A1); [lia|]. simpl.
  pose proof (ref_zstep_length ks o) as Hl. destruct (ref_zstep ks o) as [x ks1]. simpl in *.
  destruct (IH sl1 ks1 A1 Hos) as (sl2 & -> & A2); [lia|]. simpl.
  exists sl2. by destruct (ref_zrun ks1 os).
Qed.
End histories.

(** C2: The skip list refines a sorted list of (score, member) keys.  Any
    sequence of Insert, Erase, PopMin, PopMax, Contains, Rank, RevRank,
    RangeByRank, RangeByScore and CountInRange on a new skip list, with numeric
    scores and whatever levels [random()] produces, runs without following a bad
    pointer, returns what the sorted-list reference returns, and leaves exactly
    the reference's elements, in order, on level 0. *)
Theorem skiplist_refines (os : list zop) :
  forallb op_ok os = true -> zlen os <= LLONG_MAX ->
  exists sl, zrun empty_list os = Some ((ref_zrun [] os).1, sl) /\
    all_nodes sl = Some (ref_zrun [] os).2.
Proof.
  intros Hok Hb. destruct (zrun_refines wf os empty_list []) as (sl & E & W);
    [apply zi_empty|done|unfold zlen in *; simpl; lia|].
  exists sl. split; [done|]. by eapply zi_nodes.
Qed.

Definition sample_ops : list zop :=
  [ OInsert (fun _ => 0) (double_of_Z 2, lit "b"); OInsert (fun _ => RAND_MAX) (double_of_Z 1, lit "a");
    OInsert (fun n => if (n =? 1)%nat then RAND_MAX else 0) (double_of_Z 2, lit "a");
    ORank (double_of_Z 2, lit "b"); OErase (double_of_Z 1, lit "a"); ORevRank (double_of_Z 2, lit "a");
    ORangeByRank (-1) (-1) true; OPopMax ].

Lemma skiplist_refines_witness :
  exists sl, zrun empty_list sample_ops =
    Some ([RBool true; RBool true; RBool true; RNum 2; RBool true; RNum 1;
           RKeys [(double_of_Z 2, lit "a")]; RKey (Some (double_of_Z 2, lit "b"))], sl) /\
    all_nodes sl = Some [(double_of_Z 2, lit "a")].
Proof. apply (skiplist_refines sample_ops); [reflexivity|unfold zlen, LLONG_MAX; simpl; lia]. Defined.


