(* ===== verification/Db.v ===== *)
(** * Values and the database

    Models [src/include/value.h], [src/include/db.h] and [src/src/db.cpp]: the
    five value types, the sixteen key spaces, expiry and memory accounting.  An
    [unordered_map] is a finite map; where the code walks one, the visiting
    order is an argument ([Order]), a permutation chosen anew for every
    container.  Each call of [NowMs()] is an argument [now]. *)

From S2P Require Import Prelude Bytes Double SkipList.
Local Open Scope Z_scope.

(** ** Values *)

Record ZSetValue := mkZSet { sl : SkipList; dict : gmap bytes double }.

Inductive Value :=
| RawString (s : bytes)
| HashValue (h : gmap bytes bytes)
| ListValue (l : list bytes)
| SetValue (s : gset bytes)
| ZSet (z : ZSetValue).

Inductive ValueType := kString | kHash | kList | kSet | kZSet.

Definition TypeOf (v : Value) : ValueType :=
  match v with
  | RawString _ => kString | HashValue _ => kHash | ListValue _ => kList
  | SetValue _ => kSet | ZSet _ => kZSet
  end.

Definition ValueTypeName (t : ValueType) : bytes :=
  match t with
  | kString => lit "string" | kHash => lit "hash" | kList => lit "list"
  | kSet => lit "set" | kZSet => lit "zset"
  end.

Record Entry := mkEntry { value : Value; expires_at_ms : Z }.

Abbreviation Table := (gmap bytes Entry).

Definition kNumDatabases : nat := 16.

Record Database := mkDb {
  dbs_ : list Table;
  used_ : Z;
  max_memory_ : Z;
  total_expired_ : Z
}.

(** [Database::Database()] *)
Definition new_database : Database := mkDb (replicate kNumDatabases ∅) 0 0 0.

(** The order in which the container of database [i] (the table itself, or the
    value of a key) lists its keys. *)
Definition Order : Type := nat -> option bytes -> list bytes -> list bytes.

Definition keys_of {A} (m : gmap bytes A) : list bytes := (map_to_list m).*1.

(** ** Sizes and accounting *)

Definition map_sum {A} (f : bytes -> A -> Z) (m : gmap bytes A) : Z :=
  map_fold (fun k v n => f k v + n) 0 m.
Definition list_sum (f : bytes -> Z) (l : list bytes) : Z := foldr (fun x n => f x + n) 0 l.

Definition ValueSize (v : Value) : Z :=
  u64 match v with
      | RawString s => 16 + zlen s
      | HashValue h => 32 + map_sum (fun k x => 16 + zlen k + zlen x) h
      | ListValue l => 16 + list_sum (fun s => 8 + zlen s) l
      | SetValue s => 16 + list_sum (fun e => 16 + zlen e) (elements s)
      | ZSet z => 32 + map_sum (fun k _ => 16 + zlen k) (dict z)
      end.

Definition EntrySize (key : bytes) (e : Entry) : Z := u64 (48 + zlen key + ValueSize (value e)).

Definition MemAdd (n : Z) (db : Database) : Database :=
  mkDb (dbs_ db) (u64 (used_ db + n)) (max_memory_ db) (total_expired_ db).
Definition MemSub (n : Z) (db : Database) : Database :=
  mkDb (dbs_ db) (if n <=? used_ db then used_ db - n else 0) (max_memory_ db) (total_expired_ db).

Definition used_memory (db : Database) : Z := used_ db.
Definition max_memory (db : Database) : Z := max_memory_ db.
Definition set_max_memory (cap : Z) (db : Database) : Database :=
  mkDb (dbs_ db) (used_ db) cap (total_expired_ db).
Definition count_expired (n : Z) (db : Database) : Database :=
  mkDb (dbs_ db) (used_ db) (max_memory_ db) (u64 (total_expired_ db + n)).

(** [dbs_[idx]]; the callers keep [idx] below [kNumDatabases]. *)
Definition table (db : Database) (idx : nat) : Table := default ∅ (dbs_ db !! idx).
Definition set_table (idx : nat) (t : Table) (db : Database) : Database :=
  mkDb (<[idx := t]> (dbs_ db)) (used_ db) (max_memory_ db) (total_expired_ db).

Definition Size (db : Database) (idx : nat) : Z := Z.of_nat (size (table db idx)).

(** ** Operations *)

Definition expired (now : Z) (e : Entry) : bool :=
  negb (expires_at_ms e =? 0) && (expires_at_ms e <=? now).

(** Removes the entry and its share of the accounting. *)
Definition drop_entry (idx : nat) (key : bytes) (e : Entry) (db : Database) : Database :=
  let db := MemSub (EntrySize key e) db in
  set_table idx (delete key (table db idx)) db.

Definition Lookup (now : Z) (idx : nat) (key : bytes) (db : Database) : option Entry * Database :=
  match table db idx !! key with
  | None => (None, db)
  | Some e =>
      if expired now e then (None, count_expired 1 (drop_entry idx key e db))
      else (Some e, db)
  end.

Definition Set_ (idx : nat) (key : bytes) (v : Value) (expires : Z) (db : Database) : Database :=
  let e := mkEntry v expires in
  match table db idx !! key with
  | None =>
      let db := set_table idx (<[key := e]> (table db idx)) db in
      MemAdd (EntrySize key e) db
  | Some old =>
      let db := MemSub (EntrySize key old) db in
      let db := set_table idx (<[key := e]> (table db idx)) db in
      MemAdd (EntrySize key e) db
  end.

Definition Delete (idx : nat) (key : bytes) (db : Database) : bool * Database :=
  match table db idx !! key with
  | None => (false, db)
  | Some e => (true, drop_entry idx key e db)
  end.

Definition TotalKeys (db : Database) : Z :=
  foldr (fun i n => Size db i + n) 0 (seq 0 kNumDatabases).

Definition count_if (f : Entry -> bool) (t : Table) : Z :=
  map_sum (fun _ e => if f e then 1 else 0) t.

Definition TotalExpires (db : Database) : Z :=
  foldr (fun i n => count_if (fun e => negb (expires_at_ms e =? 0)) (table db i) + n) 0
    (seq 0 kNumDatabases).

(** The loop subtracts every entry in turn; [MemSub] stops at zero. *)
Definition FlushDb (ord : Order) (idx : nat) (db : Database) : Database :=
  let t := table db idx in
  let db := foldl (fun d k => match t !! k with
                              | Some e => MemSub (EntrySize k e) d
                              | None => d
                              end) db (ord idx None (keys_of t)) in
  set_table idx ∅ db.

Definition FlushAll (ord : Order) (db : Database) : Database :=
  foldl (fun d i => FlushDb ord i d) db (seq 0 kNumDatabases).

(** ** The active expire cycle *)

Definition kSampleWindow : nat := 200.

(** The walk over the keys from the random offset on. *)
Fixpoint expire_walk (now : Z) (d : nat) (ks : list bytes) (db : Database) : Z * Database :=
  match ks with
  | [] => (0, db)
  | k :: rest =>
      match table db d !! k with
      | Some e =>
          if expired now e then
            let '(n, db') := expire_walk now d rest (count_expired 1 (drop_entry d k e db)) in
            (u64 (n + 1), db')
          else expire_walk now d rest db
      | None => expire_walk now d rest db
      end
  end.

(** One database of the cycle: [rng] is the generator's next value. *)
Definition expire_db (ord : Order) (rng now : Z) (d : nat) (db : Database) : Z * Database :=
  let t := table db d in
  if bool_decide (t = ∅) then (0, db)
  else
    let size := size t in
    let offset := Z.to_nat (rng mod Z.of_nat (Nat.min size kSampleWindow)) in
    expire_walk now d (take kSampleWindow (drop offset (ord d None (keys_of t)))) db.

Fixpoint expire_dbs (ord : Order) (rng now : nat -> Z) (ds : list nat) (db : Database) : Z * Database :=
  match ds with
  | [] => (0, db)
  | d :: rest =>
      let '(n, db1) := expire_db ord (rng d) (now d) d db in
      let '(m, db2) := expire_dbs ord rng now rest db1 in
      (u64 (n + m), db2)
  end.

(** [rng d] and [now d] are the values the code draws at database [d]. *)
Definition ActiveExpireCycle (ord : Order) (rng now : nat -> Z) (db : Database) : Z * Database :=
  expire_dbs ord rng now (seq 0 kNumDatabases) db.
