(* ===== verification/DbProofs.v ===== *)
(** * The database: accounting and expiry

    [accounted] is the invariant of the memory accounting: [used_] is the sum of
    the entry sizes of all key spaces.  [live] is the abstract key space that
    clients see at a point in time; lookups, updates and both kinds of expiry
    are described in terms of it. *)

From S2P Require Import Prelude Bytes Double SkipList Db.
Local Open Scope Z_scope.

(** ** Abstract state *)

Definition table_size (t : Table) : Z := map_sum EntrySize t.
Definition total_size (db : Database) : Z := foldr (fun t n => table_size t + n) 0 (dbs_ db).

Definition accounted (db : Database) : Prop :=
  length (dbs_ db) = kNumDatabases /\ used_ db = total_size db /\ total_size db < U64.

(** The entries of database [idx] that have not expired at time [now]. *)
Definition live (now : Z) (idx : nat) (db : Database) : Table :=
  filter (fun kv => expired now kv.2 = false) (table db idx).

(** ** Sums over maps *)

Lemma map_sum_empty {A} (f : bytes -> A -> Z) : map_sum f ∅ = 0.
Proof. apply map_fold_empty. Qed.

Lemma map_sum_insert {A} (f : bytes -> A -> Z) m k v :
  m !! k = None -> map_sum f (<[k := v]> m) = f k v + map_sum f m.
Proof. intros Hk. unfold map_sum. rewrite map_fold_insert_L; [done|intros; lia|done]. Qed.

Lemma map_sum_delete {A} (f : bytes -> A -> Z) m k v :
  m !! k = Some v -> map_sum f (delete k m) = map_sum f m - f k v.
Proof.
  intros Hk. rewrite <- (insert_delete_id m k v Hk) at 2.
  rewrite map_sum_insert by apply lookup_delete_eq. lia.
Qed.

Lemma map_sum_replace {A} (f : bytes -> A -> Z) m k v w :
  m !! k = Some v -> map_sum f (<[k := w]> m) = map_sum f m - f k v + f k w.
Proof.
  intros Hk. rewrite <- insert_delete_eq, map_sum_insert by apply lookup_delete_eq.
  rewrite (map_sum_delete f m k v Hk). lia.
Qed.

Lemma map_sum_nonneg {A} (f : bytes -> A -> Z) m :
  (forall k v, 0 <= f k v) -> 0 <= map_sum f m.
Proof.
  intros Hf. induction m as [|k v m Hk IH] using map_ind; [by rewrite map_sum_empty|].
  rewrite map_sum_insert by done. specialize (Hf k v). lia.
Qed.

Lemma EntrySize_range k e : 0 <= EntrySize k e < U64.
Proof. apply u64_range. Qed.

Lemma table_size_nonneg t : 0 <= table_size t.
Proof. apply map_sum_nonneg. intros. apply EntrySize_range. Qed.

Lemma table_size_empty : table_size ∅ = 0.
Proof. apply map_sum_empty. Qed.

Lemma entry_le_table t k e : t !! k = Some e -> EntrySize k e <= table_size t.
Proof.
  intros Hk. pose proof (map_sum_delete EntrySize t k e Hk) as H.
  pose proof (table_size_nonneg (delete k t)). unfold table_size in *. lia.
Qed.

Lemma sizes_nonneg (ts : list Table) : 0 <= foldr (fun t n => table_size t + n) 0 ts.
Proof. induction ts as [|t ts IH]; simpl; [lia|]. pose proof (table_size_nonneg t). lia. Qed.

Lemma sizes_update (ts : list Table) i t t' :
  ts !! i = Some t ->
  foldr (fun t n => table_size t + n) 0 (<[i := t']> ts) =
  foldr (fun t n => table_size t + n) 0 ts - table_size t + table_size t'.
Proof.
  revert i. induction ts as [|x ts IH]; intros [|i] Hi; simpl in *; try done.
  - simplify_eq. lia.
  - rewrite (IH i Hi). lia.
Qed.

Lemma table_le_sizes (ts : list Table) i t :
  ts !! i = Some t -> table_size t <= foldr (fun t n => table_size t + n) 0 ts.
Proof.
  intros Hi. pose proof (sizes_update ts i t ∅ Hi) as H.
  pose proof (sizes_nonneg (<[i := ∅]> ts)). unfold table_size in *. rewrite map_sum_empty in H. lia.
Qed.

(** ** One table of a database *)

Section tables.
Context (db : Database) (idx : nat) (Hlen : length (dbs_ db) = kNumDatabases)
  (Hidx : (idx < kNumDatabases)%nat).

Lemma table_lookup : dbs_ db !! idx = Some (table db idx).
Proof.
  unfold table. destruct (lookup_lt_is_Some_2 (dbs_ db) idx) as [t ->]; [lia|done].
Qed.

Lemma total_size_set_table t :
  total_size (set_table idx t db) = total_size db - table_size (table db idx) + table_size t.
Proof. unfold total_size. simpl. by rewrite (sizes_update _ _ _ _ table_lookup). Qed.

Lemma table_le_total : table_size (table db idx) <= total_size db.
Proof. apply (table_le_sizes _ idx), table_lookup. Qed.

Lemma table_set_table t : table (set_table idx t db) idx = t.
Proof. unfold table. simpl. rewrite list_lookup_insert_eq; [done|lia]. Qed.
End tables.

Lemma table_set_table_ne db i j t : i <> j -> table (set_table i t db) j = table db j.
Proof. intros Hij. unfold table. simpl. by rewrite list_lookup_insert_ne. Qed.

Lemma table_new i : table new_database i = ∅.
Proof.
  unfold table, new_database. cbn [dbs_]. destruct (replicate kNumDatabases ∅ !! i) as [t|] eqn:E; [|done].
  by apply lookup_replicate in E as [-> _].
Qed.

Lemma total_size_nonneg db : 0 <= total_size db.
Proof. apply sizes_nonneg. Qed.

(** ** The accounting is exact *)

Lemma new_database_accounted : accounted new_database.
Proof. split; [done|]. split; [|done]. by vm_compute. Qed.

Lemma drop_entry_accounted db idx key e :
  accounted db -> (idx < kNumDatabases)%nat -> table db idx !! key = Some e ->
  accounted (drop_entry idx key e db).
Proof.
  intros (Hlen & Hu & Hb) Hidx He. pose proof (entry_le_table _ _ _ He) as Hle.
  pose proof (table_le_total db idx Hlen Hidx) as Hle'.
  unfold drop_entry. change (table (MemSub _ db) idx) with (table db idx).
  assert (total_size (set_table idx (delete key (table db idx)) (MemSub (EntrySize key e) db))
          = total_size db - EntrySize key e) as Ht.
  { etrans; [apply (total_size_set_table (MemSub (EntrySize key e) db) idx Hlen Hidx)|].
    unfold table_size at 2. change (table (MemSub _ db) idx) with (table db idx).
    rewrite (map_sum_delete _ _ _ _ He). unfold table_size. change (total_size (MemSub _ db)) with (total_size db). lia. }
  pose proof (EntrySize_range key e).
  split; [by simpl; rewrite length_insert|]. rewrite Ht. split; [|lia]. simpl.
  destruct (Z.leb_spec (EntrySize key e) (used_ db)); lia.
Qed.

Lemma count_expired_accounted n db : accounted db -> accounted (count_expired n db).
Proof. done. Qed.

Lemma Lookup_accounted now idx key db :
  accounted db -> (idx < kNumDatabases)%nat -> accounted (Lookup now idx key db).2.
Proof.
  intros H Hidx. unfold Lookup. destruct (table db idx !! key) as [e|] eqn:E; [|done].
  destruct (expired now e); [|done]. by apply count_expired_accounted, drop_entry_accounted.
Qed.

Lemma Delete_accounted idx key db :
  accounted db -> (idx < kNumDatabases)%nat -> accounted (Delete idx key db).2.
Proof.
  intros H Hidx. unfold Delete. destruct (table db idx !! key) as [e|] eqn:E; [|done].
  by apply drop_entry_accounted.
Qed.

(** The size of the database after [Set_]. *)
Definition set_total (idx : nat) (key : bytes) (v : Value) (expires : Z) (db : Database) : Z :=
  total_size db - match table db idx !! key with Some e => EntrySize key e | None => 0 end
  + EntrySize key (mkEntry v expires).

Lemma Set_accounted idx key v expires db :
  accounted db -> (idx < kNumDatabases)%nat -> set_total idx key v expires db < U64 ->
  accounted (Set_ idx key v expires db) /\
  total_size (Set_ idx key v expires db) = set_total idx key v expires db.
Proof.
  intros (Hlen & Hu & Hb) Hidx. unfold set_total, Set_. set (e := mkEntry v expires).
  pose proof (EntrySize_range key e). pose proof (total_size_nonneg db).
  pose proof (table_le_total db idx Hlen Hidx) as Htot.
  destruct (table db idx !! key) as [old|] eqn:E; intros Hb'.
  - pose proof (entry_le_table _ _ _ E). pose proof (EntrySize_range key old).
    set (db1 := MemSub (EntrySize key old) db).
    assert (total_size (MemAdd (EntrySize key e) (set_table idx (<[key := e]> (table db1 idx)) db1)) =
            total_size db - EntrySize key old + EntrySize key e) as Ht.
    { etrans; [apply (total_size_set_table db1 idx Hlen Hidx)|].
      change (table db1 idx) with (table db idx). change (total_size db1) with (total_size db).
      unfold table_size. rewrite (map_sum_replace _ _ _ _ _ E). lia. }
    split; [|done]. split; [by simpl; rewrite length_insert|]. rewrite Ht. split; [|lia].
    simpl. destruct (Z.leb_spec (EntrySize key old) (used_ db)); [|lia]. rewrite u64_small; lia.
  - assert (total_size (MemAdd (EntrySize key e) (set_table idx (<[key := e]> (table db idx)) db)) =
            total_size db + EntrySize key e) as Ht.
    { etrans; [apply (total_size_set_table db idx Hlen Hidx)|].
      unfold table_size. rewrite map_sum_insert by done. lia. }
    split; [|lia]. split; [by simpl; rewrite length_insert|]. rewrite Ht. split; [|lia].
    simpl. rewrite u64_small; lia.
Qed.

(** ** Flushing *)

Definition ord_ok (ord : Order) : Prop := forall i k l, ord i k l ≡ₚ l.

Lemma keys_of_NoDup {A} (m : gmap bytes A) : NoDup (keys_of m).
Proof. apply NoDup_fst_map_to_list. Qed.

Lemma elem_of_keys {A} (m : gmap bytes A) k : k ∈ keys_of m <-> is_Some (m !! k).
Proof.
  unfold keys_of. rewrite list_elem_of_fmap. split.
  - intros ([k' v] & -> & H). apply elem_of_map_to_list in H. eauto.
  - intros [v Hv]. exists (k, v). split; [done|]. by apply elem_of_map_to_list.
Qed.

(** The sum of the sizes of the entries listed in [ks]. *)
Definition keys_size (t : Table) (ks : list bytes) : Z :=
  foldr (fun k n => match t !! k with Some e => EntrySize k e | None => 0 end + n) 0 ks.

Lemma keys_size_perm t ks ks' : ks ≡ₚ ks' -> keys_size t ks = keys_size t ks'.
Proof. induction 1; simpl; lia. Qed.

Lemma keys_size_all t : keys_size t (keys_of t) = table_size t.
Proof.
  unfold table_size, map_sum, keys_of. rewrite map_fold_foldr.
  assert (forall l, (forall k e, (k, e) ∈ l -> t !! k = Some e) ->
            keys_size t l.*1 = foldr (uncurry (fun k v n => EntrySize k v + n)) 0 l) as H.
  { unfold keys_size. induction l as [|[k e] l IH]; intros Hl; [done|].
    rewrite fmap_cons. cbn [foldr uncurry fst]. rewrite (Hl k e) by (by left). rewrite IH; [done|]. intros. apply Hl. by right. }
  apply H. intros k e. apply elem_of_map_to_list.
Qed.

Lemma keys_size_nonneg t ks : 0 <= keys_size t ks.
Proof.
  induction ks as [|k ks IH]; simpl; [lia|].
  destruct (t !! k) as [e|]; [pose proof (EntrySize_range k e)|]; lia.
Qed.

Lemma flush_loop t ks db :
  keys_size t ks <= used_ db ->
  foldl (fun d k => match t !! k with Some e => MemSub (EntrySize k e) d | None => d end) db ks =
  mkDb (dbs_ db) (used_ db - keys_size t ks) (max_memory_ db) (total_expired_ db).
Proof.
  revert db. induction ks as [|k ks IH]; intros db Hle; simpl in *.
  { rewrite Z.sub_0_r. by destruct db. }
  pose proof (keys_size_nonneg t ks). destruct (t !! k) as [e|].
  - pose proof (EntrySize_range k e). rewrite IH; simpl; [|destruct (Z.leb_spec (EntrySize k e) (used_ db)); lia].
    destruct (Z.leb_spec (EntrySize k e) (used_ db)); [|lia]. f_equal. lia.
  - rewrite IH by lia. f_equal; lia.
Qed.

Lemma FlushDb_spec ord idx db :
  ord_ok ord -> accounted db -> (idx < kNumDatabases)%nat ->
  FlushDb ord idx db =
    set_table idx ∅ (mkDb (dbs_ db) (used_ db - table_size (table db idx)) (max_memory_ db) (total_expired_ db))
  /\ accounted (FlushDb ord idx db).
Proof.
  intros Ho (Hlen & Hu & Hb) Hidx. unfold FlushDb.
  pose proof (table_le_total db idx Hlen Hidx) as Hle.
  assert (keys_size (table db idx) (ord idx None (keys_of (table db idx))) = table_size (table db idx)) as Hk.
  { rewrite <- keys_size_all. apply keys_size_perm, Ho. }
  rewrite flush_loop by lia. rewrite Hk. split; [done|].
  split; [by simpl; rewrite length_insert|].
  set (db1 := mkDb (dbs_ db) (used_ db - table_size (table db idx)) (max_memory_ db) (total_expired_ db)).
  rewrite (total_size_set_table db1 idx Hlen Hidx), table_size_empty.
  change (table db1 idx) with (table db idx). change (total_size db1) with (total_size db).
  pose proof (table_size_nonneg (table db idx)). simpl. lia.
Qed.

Lemma FlushAll_run ord ds db :
  ord_ok ord -> accounted db -> Forall (fun d => d < kNumDatabases)%nat ds ->
  let db' := foldl (fun d i => FlushDb ord i d) db ds in
  accounted db' /\ max_memory_ db' = max_memory_ db /\ total_expired_ db' = total_expired_ db /\
  (forall i, table db' i = if decide (i ∈ ds) then ∅ else table db i).
Proof.
  intros Ho. revert db. induction ds as [|d ds IH]; intros db A Hds; cbn [foldl]; cbv zeta.
  { split_and!; [done..|]. intros i. by rewrite decide_False by apply not_elem_of_nil. }
  inversion Hds; subst. destruct (FlushDb_spec ord d db Ho A H1) as [E A'].
  destruct (IH _ A' H2) as (A2 & -> & -> & Ht). rewrite E. split_and!; [by rewrite <- E|done..|].
  intros i. rewrite <- E, Ht. destruct A as [Hlen _].
  destruct (decide (i ∈ ds)) as [Hin|Hin].
  - by rewrite decide_True by (by right).
  - rewrite E. destruct (decide (i = d)) as [->|Hne].
    + rewrite decide_True by (by left). by apply table_set_table.
    + rewrite decide_False by (rewrite elem_of_cons; naive_solver).
      by rewrite table_set_table_ne.
Qed.

(** ** The live view *)

Lemma expired_mono now now' e : now <= now' -> expired now e = true -> expired now' e = true.
Proof.
  unfold expired. rewrite !andb_true_iff, !Z.leb_le. intros Hn [H1 H2]. split; [done|lia].
Qed.

Lemma live_lookup now idx db k :
  live now idx db !! k =
  match table db idx !! k with
  | Some e => if expired now e then None else Some e
  | None => None
  end.
Proof.
  unfold live. rewrite map_lookup_filter. destruct (table db idx !! k) as [e|]; simpl; [|done].
  case_guard as Hg; destruct (expired now e); done.
Qed.

Lemma table_drop_entry db idx key e j :
  length (dbs_ db) = kNumDatabases -> (idx < kNumDatabases)%nat ->
  table (drop_entry idx key e db) j = if decide (j = idx) then delete key (table db idx) else table db j.
Proof.
  intros Hlen Hidx. unfold drop_entry. destruct (decide (j = idx)) as [->|Hne].
  - by rewrite table_set_table.
  - by rewrite table_set_table_ne by done.
Qed.

Lemma table_MemAdd n db j : table (MemAdd n db) j = table db j.
Proof. done. Qed.

Lemma table_Set db idx key v x j :
  length (dbs_ db) = kNumDatabases -> (idx < kNumDatabases)%nat ->
  table (Set_ idx key v x db) j =
  if decide (j = idx) then <[key := mkEntry v x]> (table db idx) else table db j.
Proof.
  intros Hlen Hidx. unfold Set_.
  destruct (table db idx !! key); rewrite table_MemAdd; (destruct (decide (j = idx)) as [->|Hne];
    [by rewrite (table_set_table _ idx)|by rewrite table_set_table_ne]).
Qed.

(** Dropping a stale entry changes no live view from that moment on. *)
Lemma live_drop_stale now now' idx key e db j :
  length (dbs_ db) = kNumDatabases -> (idx < kNumDatabases)%nat ->
  table db idx !! key = Some e -> expired now e = true -> now <= now' ->
  live now' j (drop_entry idx key e db) = live now' j db.
Proof.
  intros Hlen Hidx He Hx Hn. apply map_eq. intros k. rewrite !live_lookup.
  rewrite table_drop_entry by done. destruct (decide (j = idx)) as [->|]; [|done].
  destruct (decide (k = key)) as [->|Hk].
  - rewrite lookup_delete_eq, He. by rewrite (expired_mono now now').
  - by rewrite lookup_delete_ne.
Qed.

Lemma Lookup_result now idx key db : (Lookup now idx key db).1 = live now idx db !! key.
Proof.
  rewrite live_lookup. unfold Lookup. destruct (table db idx !! key) as [e|]; [|done].
  by destruct (expired now e).
Qed.

Lemma Lookup_live now now' idx key db j :
  length (dbs_ db) = kNumDatabases -> (idx < kNumDatabases)%nat -> now <= now' ->
  live now' j (Lookup now idx key db).2 = live now' j db.
Proof.
  intros Hlen Hidx Hn. unfold Lookup. destruct (table db idx !! key) as [e|] eqn:E; [|done].
  destruct (expired now e) eqn:Ex; [|done]. by apply (live_drop_stale now now' idx key e db j).
Qed.

Lemma Set_live now idx key v x db j :
  length (dbs_ db) = kNumDatabases -> (idx < kNumDatabases)%nat ->
  live now j (Set_ idx key v x db) =
  if decide (j = idx) then
    if expired now (mkEntry v x) then delete key (live now idx db)
    else <[key := mkEntry v x]> (live now idx db)
  else live now j db.
Proof.
  intros Hlen Hidx. apply map_eq. intros k. rewrite live_lookup, table_Set by done.
  destruct (decide (j = idx)) as [->|]; [|by rewrite live_lookup].
  destruct (decide (k = key)) as [->|Hk].
  - rewrite lookup_insert_eq. destruct (expired now (mkEntry v x)).
    + by rewrite lookup_delete_eq.
    + by rewrite lookup_insert_eq.
  - rewrite lookup_insert_ne by done. destruct (expired now (mkEntry v x)).
    + by rewrite lookup_delete_ne, live_lookup by done.
    + by rewrite lookup_insert_ne, live_lookup by done.
Qed.

Lemma Delete_live now idx key db j :
  length (dbs_ db) = kNumDatabases -> (idx < kNumDatabases)%nat ->
  live now j (Delete idx key db).2 = if decide (j = idx) then delete key (live now idx db) else live now j db.
Proof.
  intros Hlen Hidx. apply map_eq. intros k. unfold Delete.
  destruct (table db idx !! key) as [e|] eqn:E; simpl.
  - rewrite live_lookup, table_drop_entry by done. destruct (decide (j = idx)) as [->|]; [|by rewrite live_lookup].
    destruct (decide (k = key)) as [->|Hk]; [by rewrite !lookup_delete_eq|].
    by rewrite !lookup_delete_ne, live_lookup by done.
  - destruct (decide (j = idx)) as [->|]; [|done].
    destruct (decide (k = key)) as [->|Hk]; [|by rewrite lookup_delete_ne].
    by rewrite lookup_delete_eq, live_lookup, E.
Qed.

(** ** The active expire cycle *)

Definition num_keys (db : Database) : Z := foldr (fun t n => Z.of_nat (size t) + n) 0 (dbs_ db).

Lemma num_keys_drop db idx key e :
  length (dbs_ db) = kNumDatabases -> (idx < kNumDatabases)%nat -> table db idx !! key = Some e ->
  num_keys (drop_entry idx key e db) = num_keys db - 1.
Proof.
  intros Hlen Hidx He. unfold num_keys, drop_entry, set_table. simpl.
  change (table (MemSub _ db) idx) with (table db idx).
  pose proof (table_lookup db idx Hlen Hidx) as Hl. clear Hlen Hidx.
  set (t := table db idx) in *. clearbody t. revert idx Hl.
  induction (dbs_ db) as [|x ts IH]; intros [|i] Hi; simpl in *; try done.
  - simplify_eq. rewrite map_size_delete_Some by (by eexists).
    assert (size t <> 0)%nat by (intros H0; apply map_size_empty_inv in H0; subst; by rewrite lookup_empty in He).
    lia.
  - rewrite (IH i Hi). lia.
Qed.

(** What a part of the cycle that saw times up to [now] did to the database. *)
Record expiry (now : Z) (db : Database) (r : Z * Database) : Prop := mkExpiry {
  ex_len : length (dbs_ r.2) = kNumDatabases;
  ex_accounted : accounted db -> accounted r.2;
  ex_max : max_memory_ r.2 = max_memory_ db;
  ex_live : forall now' j, now <= now' -> live now' j r.2 = live now' j db;
  ex_removed : 0 <= num_keys db - num_keys r.2;
  ex_count : r.1 = u64 (num_keys db - num_keys r.2);
  ex_total : u64 (total_expired_ r.2) = u64 (total_expired_ db + (num_keys db - num_keys r.2));
  ex_sub : forall j, table r.2 j ⊆ table db j
}.

Lemma expiry_none now db : length (dbs_ db) = kNumDatabases -> expiry now db (0, db).
Proof. intros Hlen. split; simpl; rewrite ?Z.sub_diag, ?Z.add_0_r; done. Qed.

Lemma expiry_drop now d k e db :
  length (dbs_ db) = kNumDatabases -> (d < kNumDatabases)%nat ->
  table db d !! k = Some e -> expired now e = true ->
  expiry now db (1, count_expired 1 (drop_entry d k e db)).
Proof.
  intros Hlen Hd He Hx.
  assert (num_keys (count_expired 1 (drop_entry d k e db)) = num_keys db - 1) as Hn.
  { by apply num_keys_drop. }
  split; simpl; rewrite ?Hn; try done; try lia.
  - by rewrite length_insert.
  - intros A. by apply count_expired_accounted, drop_entry_accounted.
  - intros now' j Hle. by apply (live_drop_stale now now' d k e db j).
  - replace (num_keys db - (num_keys db - 1)) with 1 by lia. done.
  - replace (num_keys db - (num_keys db - 1)) with 1 by lia. unfold u64. by rewrite Z.mod_mod.
  - intros j. change (table (count_expired 1 ?x) j) with (table x j). rewrite table_drop_entry by done.
    destruct (decide (j = d)) as [->|]; [apply delete_subseteq|done].
Qed.

Lemma expiry_trans now db n1 db1 n2 db2 :
  expiry now db (n1, db1) -> expiry now db1 (n2, db2) -> expiry now db (u64 (n1 + n2), db2).
Proof.
  intros [N1 A1 M1 L1 R1 C1 T1 S1] [N2 A2 M2 L2 R2 C2 T2 S2]. simpl in *. split; simpl.
  - done.
  - auto.
  - congruence.
  - intros now' j Hle. by rewrite L2, L1.
  - lia.
  - rewrite C1, C2, u64_add_l, u64_add_r. f_equal. lia.
  - rewrite T2, <- u64_add_l, T1, u64_add_l. f_equal. lia.
  - intros j. etrans; [apply S2|apply S1].
Qed.

Lemma expiry_mono now now' db r : now <= now' -> expiry now db r -> expiry now' db r.
Proof. intros Hn [N A M L Rm C T S]. split; try done. intros t j Ht. apply L. lia. Qed.

Lemma expire_walk_spec now d ks db :
  length (dbs_ db) = kNumDatabases -> (d < kNumDatabases)%nat ->
  expiry now db (expire_walk now d ks db).
Proof.
  intros A Hd. revert db A. induction ks as [|k ks IH]; intros db A; simpl; [by apply expiry_none|].
  destruct (table db d !! k) as [e|] eqn:E; [|by apply IH].
  destruct (expired now e) eqn:Ex; [|by apply IH].
  pose proof (expiry_drop now d k e db A Hd E Ex) as H1.
  specialize (IH _ (ex_len _ _ _ H1)). simpl in IH.
  destruct (expire_walk now d ks _) as [n db2]. rewrite Z.add_comm. by eapply expiry_trans.
Qed.

Lemma expire_dbs_spec ord rng nows t ds db :
  length (dbs_ db) = kNumDatabases -> Forall (fun d => d < kNumDatabases)%nat ds ->
  Forall (fun d => nows d <= t) ds ->
  expiry t db (expire_dbs ord rng nows ds db).
Proof.
  intros A Hds Ht. revert db A. induction Hds as [|d ds Hd Hds IH]; intros db A; simpl.
  { by apply expiry_none. }
  apply Forall_cons in Ht as [Ht Hts].
  assert (expiry t db (expire_db ord (rng d) (nows d) d db)) as H1.
  { apply (expiry_mono (nows d)); [done|]. unfold expire_db. case_bool_decide; [by apply expiry_none|].
    by apply expire_walk_spec. }
  destruct (expire_db ord (rng d) (nows d) d db) as [n db1].
  specialize (IH Hts db1 (ex_len _ _ _ H1)).
  destruct (expire_dbs ord rng nows ds db1) as [m db2]. by eapply expiry_trans.
Qed.

Lemma all_dbs : Forall (fun d => d < kNumDatabases)%nat (seq 0 kNumDatabases).
Proof. apply Forall_forall. intros d Hd. apply elem_of_seq in Hd. lia. Qed.

Lemma readings_bounded (now : nat -> Z) ds : exists t, Forall (fun d => now d <= t) ds.
Proof.
  induction ds as [|d ds [t IH]]; [exists 0; by constructor|].
  exists (Z.max t (now d)). constructor; [lia|].
  eapply Forall_impl; [exact IH|]. simpl. intros x Hx. lia.
Qed.

(** ** Reachable databases *)

Inductive db_step (db : Database) : Database -> Prop :=
| step_lookup now i k : (i < kNumDatabases)%nat -> db_step db (Lookup now i k db).2
| step_set i k v x : (i < kNumDatabases)%nat -> set_total i k v x db < U64 -> db_step db (Set_ i k v x db)
| step_delete i k : (i < kNumDatabases)%nat -> db_step db (Delete i k db).2
| step_flush_db ord i : ord_ok ord -> (i < kNumDatabases)%nat -> db_step db (FlushDb ord i db)
| step_flush_all ord : ord_ok ord -> db_step db (FlushAll ord db)
| step_expire ord rng now : db_step db (ActiveExpireCycle ord rng now db).2
| step_max cap : db_step db (set_max_memory cap db).

Lemma db_step_accounted db db' : db_step db db' -> accounted db -> accounted db'.
Proof.
  intros H A. destruct H as [now i k Hi|i k v x Hi Hb|i k Hi|ord i Ho Hi|ord Ho|ord rng now|cap].
  - by apply Lookup_accounted.
  - by apply Set_accounted.
  - by apply Delete_accounted.
  - by apply FlushDb_spec.
  - apply (FlushAll_run ord (seq 0 kNumDatabases) db Ho A all_dbs).
  - unfold ActiveExpireCycle.
    destruct (readings_bounded now (seq 0 kNumDatabases)) as [t Ht].
    apply (expire_dbs_spec ord rng now t _ db (proj1 A) all_dbs Ht), A.
  - done.
Qed.

(** C12: The memory accounting is exact: in every database reachable from the
    empty one by Lookup, Set, Delete, FlushDb, FlushAll, ActiveExpireCycle and
    set_max_memory, [used_memory()] is the sum of the entry sizes of all keys of
    all sixteen key spaces, whatever the clock, the random offsets and the
    iteration orders were, as long as the sizes stay below 2^64. *)
Theorem accounting_exact (db : Database) :
  rtc db_step new_database db -> used_memory db = total_size db.
Proof.
  intros H. assert (accounted db) as (_ & Hu & _); [|done].
  pose proof new_database_accounted as A. revert A.
  induction H as [|a b c Hab _ IH]; intros A; [done|]. apply IH. by eapply db_step_accounted.
Qed.

Definition sample_db : Database :=
  (Delete 3 (lit "k") (Set_ 5 (lit "h") (HashValue {[ lit "f" := lit "v" ]}) 7
    (Set_ 3 (lit "k") (RawString (lit "vv")) 0 new_database))).2.

Lemma accounting_exact_witness : used_memory sample_db = total_size sample_db.
Proof.
  apply accounting_exact. eapply rtc_l; [|eapply rtc_l; [|eapply rtc_l; [|apply rtc_refl]]].
  - apply (step_set _ 3 (lit "k") (RawString (lit "vv")) 0); [unfold kNumDatabases; lia|by vm_compute].
  - apply (step_set _ 5 (lit "h") (HashValue {[ lit "f" := lit "v" ]}) 7);
      [unfold kNumDatabases; lia|by vm_compute].
  - apply (step_delete _ 3 (lit "k")). unfold kNumDatabases. lia.
Defined.
