(* ===== verification/DbRefine.v ===== *)
(** * The database refines a map with expiry times

    The abstract key space never removes anything on its own: a lookup ignores
    entries whose time has passed.  The database removes stale entries lazily (on
    lookup) and actively (the expire cycle); as long as the clock does not run
    backwards, no lookup can tell. *)

From S2P Require Import Prelude Bytes Double SkipList Db DbProofs.
Local Open Scope Z_scope.

Inductive dbop :=
| OLookup (i : nat) (k : bytes)
| OSet (i : nat) (k : bytes) (v : Value) (x : Z)
| ODelete (i : nat) (k : bytes)
| OExpire (ord : Order) (rng now : nat -> Z).

(** A history: operations with the time at which they happen. *)
Abbreviation history := (list (Z * dbop)).

Fixpoint db_run (ops : history) (db : Database) : list (option Entry) * Database :=
  match ops with
  | [] => ([], db)
  | (t, o) :: rest =>
      match o with
      | OLookup i k =>
          let '(r, db1) := Lookup t i k db in
          let '(rs, db2) := db_run rest db1 in (r :: rs, db2)
      | OSet i k v x => db_run rest (Set_ i k v x db)
      | ODelete i k => db_run rest (Delete i k db).2
      | OExpire ord rng now => db_run rest (ActiveExpireCycle ord rng now db).2
      end
  end.

(** ** The abstract key space *)

Definition TtlMap : Type := nat -> Table.

Definition ttl_lookup (t : Z) (i : nat) (k : bytes) (a : TtlMap) : option Entry :=
  match a i !! k with
  | Some e => if expired t e then None else Some e
  | None => None
  end.
Definition ttl_update (i : nat) (m : Table) (a : TtlMap) : TtlMap :=
  fun j => if decide (j = i) then m else a j.

Fixpoint ttl_run (ops : history) (a : TtlMap) : list (option Entry) :=
  match ops with
  | [] => []
  | (t, o) :: rest =>
      match o with
      | OLookup i k => ttl_lookup t i k a :: ttl_run rest a
      | OSet i k v x => ttl_run rest (ttl_update i (<[k := mkEntry v x]> (a i)) a)
      | ODelete i k => ttl_run rest (ttl_update i (delete k (a i)) a)
      | OExpire _ _ _ => ttl_run rest a
      end
  end.

(** The clock does not run backwards; indices are in range. *)
Fixpoint history_ok (t0 : Z) (ops : history) : Prop :=
  match ops with
  | [] => True
  | (t, o) :: rest =>
      t0 <= t /\ history_ok t rest /\
      match o with
      | OLookup i _ | OSet i _ _ _ | ODelete i _ => (i < kNumDatabases)%nat
      | OExpire _ _ now => forall d, now d <= t
      end
  end.

(** ** The simulation *)

Definition simulates (t : Z) (db : Database) (a : TtlMap) : Prop :=
  length (dbs_ db) = kNumDatabases /\
  forall t' i k, t <= t' -> live t' i db !! k = ttl_lookup t' i k a.

Lemma simulates_mono t t' db a : t <= t' -> simulates t db a -> simulates t' db a.
Proof. intros Ht [Hl H]. split; [done|]. intros u i k Hu. apply H. lia. Qed.

Lemma Lookup_len now i k db : length (dbs_ (Lookup now i k db).2) = length (dbs_ db).
Proof.
  unfold Lookup. destruct (table db i !! k) as [e|]; [|done].
  destruct (expired now e); [|done]. simpl. by rewrite length_insert.
Qed.

(** A lookup touches no entry but the one it looks at. *)
Lemma Lookup_other now i k db j k' :
  length (dbs_ db) = kNumDatabases -> (i < kNumDatabases)%nat -> j <> i \/ k' <> k -> table (Lookup now i k db).2 j !! k' = table db j !! k'.
Proof.
  intros Hl Hi H. unfold Lookup. destruct (table db i !! k) as [e|]; [|done]. destruct (expired now e); [|done].
  cbn [snd]. change (table (count_expired 1 (drop_entry i k e db)) j) with (table (drop_entry i k e db) j).
  unfold drop_entry. destruct (decide (j = i)) as [->|Hj].
  - rewrite table_set_table by done. rewrite lookup_delete_ne; [done|]. destruct H; [done|congruence].
  - by rewrite table_set_table_ne by done.
Qed.

Lemma Set_len i k v x db : length (dbs_ (Set_ i k v x db)) = length (dbs_ db).
Proof. unfold Set_. destruct (table db i !! k); simpl; by rewrite length_insert. Qed.

Lemma Delete_len i k db : length (dbs_ (Delete i k db).2) = length (dbs_ db).
Proof. unfold Delete. destruct (table db i !! k); simpl; by rewrite ?length_insert. Qed.

Lemma ttl_lookup_update t i j m k a :
  ttl_lookup t j k (ttl_update i m a) =
  if decide (j = i) then
    match m !! k with Some e => if expired t e then None else Some e | None => None end
  else ttl_lookup t j k a.
Proof. unfold ttl_lookup, ttl_update. by destruct (decide (j = i)). Qed.

Lemma simulates_set t db a i k v x :
  (i < kNumDatabases)%nat -> simulates t db a ->
  simulates t (Set_ i k v x db) (ttl_update i (<[k := mkEntry v x]> (a i)) a).
Proof.
  intros Hi [Hl H]. split; [by rewrite Set_len|]. intros t' j k' Ht.
  rewrite Set_live, ttl_lookup_update by done.
  destruct (decide (j = i)) as [->|]; [|by apply H].
  destruct (decide (k' = k)) as [->|Hk].
  - rewrite lookup_insert_eq.
    destruct (expired t' (mkEntry v x)); by rewrite ?lookup_delete_eq, ?lookup_insert_eq.
  - rewrite lookup_insert_ne by done.
    destruct (expired t' (mkEntry v x)); rewrite ?lookup_delete_ne, ?lookup_insert_ne by done;
      by apply H.
Qed.

Lemma simulates_delete t db a i k :
  (i < kNumDatabases)%nat -> simulates t db a ->
  simulates t (Delete i k db).2 (ttl_update i (delete k (a i)) a).
Proof.
  intros Hi [Hl H]. split; [by rewrite Delete_len|]. intros t' j k' Ht.
  rewrite Delete_live, ttl_lookup_update by done.
  destruct (decide (j = i)) as [->|]; [|by apply H].
  destruct (decide (k' = k)) as [->|Hk]; [by rewrite !lookup_delete_eq|].
  rewrite !lookup_delete_ne by done. by apply H.
Qed.

Lemma simulates_expire t db a ord rng now :
  (forall d, now d <= t) -> simulates t db a -> simulates t (ActiveExpireCycle ord rng now db).2 a.
Proof.
  intros Hn [Hl H].
  assert (expiry t db (ActiveExpireCycle ord rng now db)) as E.
  { apply expire_dbs_spec; [done|apply all_dbs|]. apply Forall_forall. auto. }
  split; [apply (ex_len _ _ _ E)|]. intros t' i k Ht.
  rewrite (ex_live _ _ _ E) by done. by apply H.
Qed.

Lemma run_refines ops : forall t db a,
  history_ok t ops -> simulates t db a -> (db_run ops db).1 = ttl_run ops a.
Proof.
  induction ops as [|[t' o] ops IH]; intros t db a Hok S; [done|].
  destruct Hok as (Ht & Hok & Ho). apply (simulates_mono t t') in S; [|done].
  destruct o as [i k|i k v x|i k|ord rng now]; cbn [db_run ttl_run].
  - destruct (Lookup t' i k db) as [r db1] eqn:E.
    assert (r = ttl_lookup t' i k a) as ->.
    { replace r with (Lookup t' i k db).1 by (by rewrite E). rewrite Lookup_result. apply S. lia. }
    assert (simulates t' db1 a) as S1.
    { replace db1 with (Lookup t' i k db).2 by (by rewrite E). destruct S as [Hl H].
      split; [by rewrite Lookup_len|]. intros u j k' Hu. rewrite Lookup_live by done. by apply H. }
    specialize (IH t' db1 a Hok S1). destruct (db_run ops db1). simpl in *. by rewrite IH.
  - apply (IH t'); [done|]. by apply simulates_set.
  - apply (IH t'); [done|]. by apply simulates_delete.
  - apply (IH t'); [done|]. by apply simulates_expire.
Qed.


Definition sample_history : history :=
  [ (10, OSet 0 (lit "a") (RawString (lit "1")) 20); (10, OSet 0 (lit "b") (RawString (lit "2")) 0);
    (15, OLookup 0 (lit "a")); (25, OExpire (fun _ _ l => l) (fun _ => 1) (fun _ => 25));
    (26, OLookup 0 (lit "a")); (27, OLookup 0 (lit "b")) ].


(** ** What the cycle removes *)

(** The keys of database [d] that the cycle looks at. *)
Definition sampled (ord : Order) (rng : Z) (d : nat) (db : Database) : list bytes :=
  let t := table db d in
  take kSampleWindow
    (drop (Z.to_nat (rng mod Z.of_nat (Nat.min (size t) kSampleWindow))) (ord d None (keys_of t))).

Lemma expire_walk_table now d ks : forall db,
  length (dbs_ db) = kNumDatabases -> (d < kNumDatabases)%nat ->
  forall j k, table (expire_walk now d ks db).2 j !! k =
    match table db j !! k with
    | Some e => if bool_decide (j = d) && bool_decide (k ∈ ks) && expired now e then None else Some e
    | None => None
    end.
Proof.
  induction ks as [|x ks IH]; intros db Hl Hd j k; cbn [expire_walk snd].
  { destruct (table db j !! k); [|done]. rewrite (bool_decide_eq_false_2 (k ∈ [])) by apply not_elem_of_nil.
    by rewrite andb_false_r. }
  assert (Hcons : forall e, table db j !! k = Some e ->
    (k = x -> j = d -> expired now e = false) ->
    bool_decide (j = d) && bool_decide (k ∈ x :: ks) && expired now e =
    bool_decide (j = d) && bool_decide (k ∈ ks) && expired now e).
  { intros e He Hx. destruct (bool_decide (j = d)) eqn:Ej; [|done]. apply bool_decide_eq_true in Ej.
    destruct (decide (k = x)) as [->|Hne]; [by rewrite Hx, !andb_false_r by done|].
    simpl. f_equal. apply bool_decide_ext. rewrite elem_of_cons. naive_solver. }
  destruct (table db d !! x) as [e|] eqn:Ex.
  - destruct (expired now e) eqn:Exp.
    + specialize (IH (count_expired 1 (drop_entry d x e db))).
      destruct (expire_walk now d ks _) as [n db2]. simpl in *.
      rewrite IH by (by rewrite ?length_insert).
      change (table (count_expired 1 (drop_entry d x e db)) j) with (table (drop_entry d x e db) j).
      rewrite table_drop_entry by done. destruct (decide (j = d)) as [->|Hj].
      * rewrite (bool_decide_eq_true_2 (d = d)) by done. destruct (decide (k = x)) as [->|Hk].
        -- rewrite lookup_delete_eq, Ex, Exp. rewrite (bool_decide_eq_true_2 (x ∈ _)) by (by left). done.
        -- rewrite lookup_delete_ne by done. destruct (table db d !! k) as [e'|] eqn:Ek; [|done].
           simpl. replace (bool_decide (k ∈ x :: ks)) with (bool_decide (k ∈ ks)); [done|].
           apply bool_decide_ext. rewrite elem_of_cons. naive_solver.
      * by rewrite (bool_decide_eq_false_2 (j = d)) by done.
    + rewrite IH by done. destruct (table db j !! k) as [e'|] eqn:Ek; [|done].
      rewrite (Hcons e') by (done || (intros -> ->; congruence)). done.
  - rewrite IH by done. destruct (table db j !! k) as [e'|] eqn:Ek; [|done].
    rewrite (Hcons e') by (done || (intros -> ->; congruence)). done.
Qed.

Lemma expire_db_table ord rng now d db :
  length (dbs_ db) = kNumDatabases -> (d < kNumDatabases)%nat ->
  forall j k, table (expire_db ord rng now d db).2 j !! k =
    match table db j !! k with
    | Some e => if bool_decide (j = d) && bool_decide (k ∈ sampled ord rng d db) && expired now e
                then None else Some e
    | None => None
    end.
Proof.
  intros Hl Hd j k. unfold expire_db. case_bool_decide as Ht.
  - simpl. destruct (table db j !! k) eqn:E; [|done].
    destruct (decide (j = d)) as [->|Hj]; [by rewrite Ht, lookup_empty in E|].
    by rewrite (bool_decide_eq_false_2 (j = d)) by done.
  - by apply expire_walk_table.
Qed.

Lemma expire_dbs_table ord rng now ds : forall db,
  length (dbs_ db) = kNumDatabases -> Forall (fun d => d < kNumDatabases)%nat ds -> NoDup ds ->
  forall j k, table (expire_dbs ord rng now ds db).2 j !! k =
    match table db j !! k with
    | Some e => if bool_decide (j ∈ ds) && bool_decide (k ∈ sampled ord (rng j) j db) && expired (now j) e
                then None else Some e
    | None => None
    end.
Proof.
  induction ds as [|d ds IH]; intros db Hl Hds Hnd j k; cbn [expire_dbs snd].
  { destruct (table db j !! k); [|done]. by rewrite (bool_decide_eq_false_2 (j ∈ [])) by apply not_elem_of_nil. }
  apply Forall_cons in Hds as [Hd Hds]. apply NoDup_cons in Hnd as [Hnin Hnd].
  pose proof (expire_db_table ord (rng d) (now d) d db Hl Hd) as H1.
  assert (length (dbs_ (expire_db ord (rng d) (now d) d db).2) = kNumDatabases) as Hl1.
  { unfold expire_db. case_bool_decide; [done|]. by apply (ex_len _ _ _ (expire_walk_spec _ _ _ _ Hl Hd)). }
  destruct (expire_db ord (rng d) (now d) d db) as [n db1]. simpl in H1, Hl1.
  specialize (IH db1 Hl1 Hds Hnd j k).
  destruct (expire_dbs ord rng now ds db1) as [m db2]. simpl in *. rewrite IH, H1.
  destruct (table db j !! k) as [e|] eqn:Ek; [|done].
  destruct (decide (j = d)) as [->|Hj].
  - rewrite (bool_decide_eq_true_2 (d = d)), (bool_decide_eq_true_2 (d ∈ d :: ds)) by (done || by left).
    rewrite (bool_decide_eq_false_2 (d ∈ ds)) by done. simpl.
    by destruct (bool_decide (k ∈ _) && expired (now d) e).
  - rewrite (bool_decide_eq_false_2 (j = d)) by done. simpl.
    assert (sampled ord (rng j) j db1 = sampled ord (rng j) j db) as ->.
    { unfold sampled. assert (table db1 j = table db j) as ->; [|done]. apply map_eq. intros k'.
      rewrite H1, (bool_decide_eq_false_2 (j = d)) by done. by destruct (table db j !! k'). }
    replace (bool_decide (j ∈ d :: ds)) with (bool_decide (j ∈ ds)); [done|].
    apply bool_decide_ext. rewrite elem_of_cons. naive_solver.
Qed.

(** C29: One active expire cycle removes exactly the stale keys among those it
    samples (up to 200 per database from the random offset on) and no other key;
    it returns the number of keys removed, and [total_expired] grows by it. *)
Theorem active_expire_exact (ord : Order) (rng now : nat -> Z) (db : Database) :
  length (dbs_ db) = kNumDatabases -> num_keys db < U64 ->
  let r := ActiveExpireCycle ord rng now db in
  (forall i k, (i < kNumDatabases)%nat ->
     table r.2 i !! k =
     match table db i !! k with
     | Some e => if bool_decide (k ∈ sampled ord (rng i) i db) && expired (now i) e then None else Some e
     | None => None
     end) /\
  r.1 = num_keys db - num_keys r.2 /\
  u64 (total_expired_ r.2) = u64 (total_expired_ db + r.1).
Proof.
  intros Hl Hb r. destruct (readings_bounded now (seq 0 kNumDatabases)) as [t Ht].
  pose proof (expire_dbs_spec ord rng now t _ db Hl all_dbs Ht) as E. fold (ActiveExpireCycle ord rng now db) in E.
  fold r in E. assert (r.1 = num_keys db - num_keys r.2) as Hr.
  { rewrite (ex_count _ _ _ E). apply u64_small. pose proof (ex_removed _ _ _ E).
    assert (0 <= num_keys r.2); [|lia]. unfold num_keys. clear.
    induction (dbs_ r.2); simpl; lia. }
  split_and!; [|done|rewrite Hr; apply (ex_total _ _ _ E)].
  intros i k Hi. unfold r, ActiveExpireCycle.
  rewrite expire_dbs_table; [|done|apply all_dbs|apply NoDup_seq].
  by rewrite (bool_decide_eq_true_2 (i ∈ _)) by (apply elem_of_seq; lia).
Qed.

Lemma active_expire_exact_witness :
  let db := Set_ 0 (lit "b") (RawString (lit "2")) 0 (Set_ 0 (lit "a") (RawString (lit "1")) 20 new_database) in
  let r := ActiveExpireCycle (fun _ _ l => l) (fun _ => 0) (fun _ => 25) db in
  table r.2 0 !! lit "a" = None /\ r.1 = 1.
Proof.
  set (db := Set_ 0 (lit "b") _ 0 _).
  destruct (active_expire_exact (fun _ _ l => l) (fun _ => 0) (fun _ => 25) db) as (H1 & H2 & _);
    [done|by vm_compute|].
  split; [rewrite (H1 0%nat (lit "a")) by (unfold kNumDatabases; lia); by vm_compute|].
  rewrite H2. by vm_compute.
Defined.
