(* ===== verification/Rdb.v ===== *)
(** * Snapshots

    Models the codec of [src/include/rdb.h] and [src/src/rdb.cpp]: the CRC, the
    little-endian writers, [Serialize], the bounds-checked [Reader] and the
    decoding part of [LoadFromFile] (the file's contents are an argument).  The
    host is little-endian, so [memcpy] of a [double] writes its bits in the order
    of [PutU64]; a NaN is written with the default payload. *)

From S2P Require Import Prelude Bytes Double SkipList Db.
Local Open Scope Z_scope.

Definition kMagic : bytes := lit "TINYREDIS01".
Definition kMagicLen : nat := 11.

(** ** CRC32 *)

Fixpoint crc_shift (k : nat) (c : Z) : Z :=
  match k with
  | O => c
  | S k' => crc_shift k' (if Z.odd c then Z.lxor 0xEDB88320 (Z.shiftr c 1) else Z.shiftr c 1)
  end.
Definition crc_entry (i : Z) : Z := crc_shift 8 i.
Definition crc_table : list Z := map (fun i => crc_entry (Z.of_nat i)) (seq 0 256).

Definition crc_step (crc : Z) (c : ascii) : Z :=
  Z.lxor (nth (Z.to_nat (Z.lxor (Z.land crc 255) (byte_val c))) crc_table 0) (Z.shiftr crc 8).
Definition Crc32 (data : bytes) : Z :=
  Z.lxor (foldl crc_step 0xFFFFFFFF data) 0xFFFFFFFF.

(** ** Writers *)

(** The [n] low bytes of [v], the lowest first. *)
Fixpoint le_bytes (n : nat) (v : Z) : bytes :=
  match n with
  | O => []
  | S n' => byte_of (Z.land v 255) :: le_bytes n' (Z.shiftr v 8)
  end.

Definition PutU8 (out : bytes) (v : Z) : bytes := out ++ le_bytes 1 v.
Definition PutU32 (out : bytes) (v : Z) : bytes := out ++ le_bytes 4 v.
Definition PutU64 (out : bytes) (v : Z) : bytes := out ++ le_bytes 8 v.

(** The 64 bits of a double. *)
Definition bits_of_double (d : double) : Z :=
  match d with
  | S754_zero s => if s then Z.shiftl 1 63 else 0
  | S754_infinity s => (if s then Z.shiftl 1 63 else 0) + Z.shiftl 0x7FF 52
  | S754_nan => Z.shiftl 0xFFF 51
  | S754_finite s m e =>
      (if s then Z.shiftl 1 63 else 0) +
      (if Z.shiftl 1 52 <=? Z.pos m then Z.shiftl (e + 1075) 52 + (Z.pos m - Z.shiftl 1 52) else Z.pos m)
  end.

Definition double_of_bits (b : Z) : double :=
  let s := Z.testbit b 63 in
  let ex := Z.land (Z.shiftr b 52) 0x7FF in
  let m := Z.land b (Z.ones 52) in
  if ex =? 0x7FF then if m =? 0 then S754_infinity s else S754_nan
  else if ex =? 0 then
    match m with Z.pos p => S754_finite s p (-1074) | _ => S754_zero s end
  else
    match m + Z.shiftl 1 52 with Z.pos p => S754_finite s p (ex - 1075) | _ => S754_nan end.

Definition PutF64 (out : bytes) (v : double) : bytes := PutU64 out (bits_of_double v).
Definition PutBytes (out : bytes) (s : bytes) : bytes := PutU32 out (zlen s) ++ s.

(** ** Serialize *)

Definition type_code (t : ValueType) : Z :=
  match t with kString => 0 | kHash => 1 | kList => 2 | kSet => 3 | kZSet => 4 end.

Definition put_field (h : gmap bytes bytes) (out : bytes) (f : bytes) : bytes :=
  match h !! f with Some v => PutBytes (PutBytes out f) v | None => out end.
Definition put_score (d : gmap bytes double) (out : bytes) (m : bytes) : bytes :=
  match d !! m with Some s => PutF64 (PutBytes out m) s | None => out end.

Definition put_value (ord : list bytes -> list bytes) (out : bytes) (v : Value) : bytes :=
  match v with
  | RawString s => PutBytes out s
  | HashValue h => foldl (put_field h) (PutU32 out (Z.of_nat (size h))) (ord (keys_of h))
  | ListValue l => foldl PutBytes (PutU32 out (zlen l)) l
  | SetValue s => foldl PutBytes (PutU32 out (Z.of_nat (size s))) (ord (elements s))
  | ZSet z => foldl (put_score (dict z)) (PutU32 out (Z.of_nat (size (dict z)))) (ord (keys_of (dict z)))
  end.

Definition put_entry (ord : list bytes -> list bytes) (out : bytes) (key : bytes) (e : Entry) : bytes :=
  let out := PutU8 out (type_code (TypeOf (value e))) in
  let out := PutBytes out key in
  let out := PutU64 out (u64 (expires_at_ms e)) in
  put_value ord out (value e).

Definition put_table (ord : Order) (db : Database) (out : bytes) (idx : nat) : bytes :=
  let t := table db idx in
  let out := PutU8 out (Z.of_nat idx) in
  let out := PutU32 out (Z.of_nat (size t)) in
  foldl (fun o k => match t !! k with Some e => put_entry (ord idx (Some k)) o k e | None => o end)
    out (ord idx None (keys_of t)).

(** The databases that have keys. *)
Definition used_dbs (db : Database) : list nat :=
  filter (fun i => table db i <> ∅) (seq 0 kNumDatabases).

Definition Serialize (ord : Order) (db : Database) : bytes :=
  let used := used_dbs db in
  let out := kMagic in
  let out := PutU8 out (zlen used) in
  let out := foldl (put_table ord db) out used in
  PutU32 out (Crc32 out).

(** ** Reader *)

Record Reader := mkReader { rbuf : bytes; rpos : Z; rok : bool }.

Definition Need (n : Z) (r : Reader) : bool * Reader :=
  if negb (rok r) || (u64 (rpos r + n) >? zlen (rbuf r)) then (false, mkReader (rbuf r) (rpos r) false)
  else (true, r).

Definition advance (n : Z) (r : Reader) : Reader := mkReader (rbuf r) (rpos r + n) (rok r).

(** The value of little-endian bytes. *)
Fixpoint le_val (l : bytes) : Z :=
  match l with [] => 0 | c :: l' => Z.lor (byte_val c) (Z.shiftl (le_val l') 8) end.

Definition read_le (n : nat) (r : Reader) : Z * Reader :=
  let '(ok, r) := Need (Z.of_nat n) r in
  if ok then (le_val (substr (rbuf r) (Z.to_nat (rpos r)) n), advance (Z.of_nat n) r) else (0, r).

Definition U8 (r : Reader) : Z * Reader := read_le 1 r.
Definition U32_ (r : Reader) : Z * Reader := read_le 4 r.
Definition U64_ (r : Reader) : Z * Reader := read_le 8 r.
Definition F64 (r : Reader) : double * Reader :=
  let '(ok, r) := Need 8 r in
  if ok then (double_of_bits (le_val (substr (rbuf r) (Z.to_nat (rpos r)) 8)), advance 8 r)
  else (dzero, r).
Definition Bytes_ (len : Z) (r : Reader) : bytes * Reader :=
  let '(ok, r) := Need len r in
  if ok then (substr (rbuf r) (Z.to_nat (rpos r)) (Z.to_nat len), advance len r) else ([], r).

(** [r.Bytes(r.U32())] *)
Definition read_string (r : Reader) : bytes * Reader :=
  let '(n, r) := U32_ r in Bytes_ n r.

(** ** LoadFromFile *)

(** A loop [for (uint32_t j = 0; j < n && r.ok; ++j)]: [n] is the number of
    iterations left.  [None]: the fuel ran out or a skip list operation was
    undefined. *)
Fixpoint load_items {A} (item : Reader -> A -> option (A * Reader)) (fuel : nat) (n : Z)
    (r : Reader) (acc : A) : option (A * Reader) :=
  if (0 <? n) && rok r then
    match fuel with
    | O => None
    | S f => '(acc', r') ← item r acc; load_items item f (n - 1) r' acc'
    end
  else Some (acc, r).

Definition hash_item (r : Reader) (h : gmap bytes bytes) : option (gmap bytes bytes * Reader) :=
  let '(fk, r) := read_string r in
  let '(fv, r) := read_string r in
  Some (match h !! fk with Some _ => h | None => <[fk := fv]> h end, r).
Definition list_item (r : Reader) (l : list bytes) : option (list bytes * Reader) :=
  let '(s, r) := read_string r in Some (l ++ [s], r).
Definition set_item (r : Reader) (s : gset bytes) : option (gset bytes * Reader) :=
  let '(m, r) := read_string r in Some ({[ m ]} ∪ s, r).
(** [rnd p] is what [random()] returns in the insertion that follows position [p]. *)
Definition zset_item (rnd : Z -> nat -> Z) (r : Reader) (z : ZSetValue) : option (ZSetValue * Reader) :=
  let '(m, r) := read_string r in
  let '(score, r) := F64 r in
  '(_, sl') ← Insert (rnd (rpos r)) (sl z) score m;
  Some (mkZSet sl' (<[m := score]> (dict z)), r).

(** Every item that is read takes at least four bytes. *)
Definition load_fuel (r : Reader) : nat := S (length (rbuf r)).

Inductive LoadStep (A : Type) := LOk (a : A) | LErr (msg : bytes) | LFault.
Arguments LOk {A} a.
Arguments LErr {A} msg.
Arguments LFault {A}.

Definition load_value (rnd : Z -> nat -> Z) (type : Z) (r : Reader) : LoadStep (Value * Reader) :=
  let items {A} (item : Reader -> A -> option (A * Reader)) (init : A) (mk : A -> Value) :=
    let '(n, r) := U32_ r in
    match load_items item (load_fuel r) n r init with
    | Some (a, r) => LOk (mk a, r)
    | None => LFault
    end in
  if type =? 0 then let '(s, r) := read_string r in LOk (RawString s, r)
  else if type =? 1 then items hash_item ∅ HashValue
  else if type =? 2 then items list_item [] ListValue
  else if type =? 3 then items set_item ∅ SetValue
  else if type =? 4 then items (zset_item rnd) (mkZSet empty_list ∅) ZSet
  else LErr (lit "unknown value type in dump").

Definition load_entry (rnd : Z -> nat -> Z) (idx : Z) (r : Reader) (fresh : Database)
    : LoadStep (Database * Reader) :=
  let '(type, r) := U8 r in
  let '(klen, r) := U32_ r in
  let '(key, r) := Bytes_ klen r in
  let '(exp, r) := U64_ r in
  if negb (rok r) then LErr (lit "truncated entry") else
  match load_value rnd type r with
  | LOk (v, r) =>
      if negb (rok r) then LErr (lit "truncated value")
      else LOk (Set_ (Z.to_nat idx) key v (if exp =? 0 then 0 else i64_of_u64 exp) fresh, r)
  | LErr m => LErr m
  | LFault => LFault
  end.

(** [for (uint32_t i = 0; i < count; ++i)] *)
Fixpoint load_entries (rnd : Z -> nat -> Z) (fuel : nat) (idx count : Z) (r : Reader) (fresh : Database)
    : LoadStep (Database * Reader) :=
  if 0 <? count then
    match fuel with
    | O => LFault
    | S f =>
        match load_entry rnd idx r fresh with
        | LOk (fresh, r) => load_entries rnd f idx (count - 1) r fresh
        | LErr m => LErr m
        | LFault => LFault
        end
    end
  else LOk (fresh, r).

(** [for (uint8_t d = 0; d < ndbs; ++d)] *)
Fixpoint load_dbs (rnd : Z -> nat -> Z) (ndbs : nat) (r : Reader) (fresh : Database)
    : LoadStep (Database * Reader) :=
  match ndbs with
  | O => LOk (fresh, r)
  | S n =>
      let '(idx, r) := U8 r in
      let '(count, r) := U32_ r in
      if negb (rok r) || (Z.of_nat kNumDatabases <=? idx) then LErr (lit "bad db index") else
      match load_entries rnd (load_fuel r) idx count r fresh with
      | LOk (fresh, r) => load_dbs rnd n r fresh
      | LErr m => LErr m
      | LFault => LFault
      end
  end.

(** [LoadFromFile] on a file that could be read, with contents [data]; the
    error paths leave [db] as it is. *)
Definition LoadFromFile (ord : Order) (rnd : Z -> nat -> Z) (data : bytes) (db : Database)
    : LoadStep Database :=
  if (zlen data <? Z.of_nat kMagicLen + 5) || negb (bool_decide (take kMagicLen data = kMagic))
  then LErr (lit "bad magic (not a TINYREDIS dump)") else
  let body := (length data - 4)%nat in
  let stored := le_val (drop body data) in
  if negb (Crc32 (take body data) =? stored) then LErr (lit "CRC mismatch (corrupt dump)") else
  let r := mkReader data (Z.of_nat kMagicLen) true in
  let '(ndbs, r) := U8 r in
  if negb (rok r) then LErr (lit "truncated header") else
  match load_dbs rnd (Z.to_nat ndbs) r new_database with
  | LOk (fresh, _) =>
      let keep_max_memory := max_memory db in
      let db := FlushAll ord db in
      let db := fresh in
      LOk (set_max_memory keep_max_memory db)
  | LErr m => LErr m
  | LFault => LFault
  end.
