(* ===== verification/RdbCodec.v ===== *)
(** * Snapshots: the primitive codecs

    Little-endian integers, strings and doubles survive a write and a read, and
    the CRC tells apart any two byte strings that differ in a single byte. *)

From S2P Require Import Prelude Bytes Double SkipList Db Rdb.
Local Open Scope Z_scope.

(** ** Little-endian integers *)

Lemma le_bytes_length n v : length (le_bytes n v) = n.
Proof. revert v. induction n as [|n IH]; intros v; simpl; [done|]. by rewrite IH. Qed.

Lemma lor_shift a b : 0 <= a < 256 -> Z.lor a (Z.shiftl b 8) = a + 256 * b.
Proof.
  intros Ha. pose proof (Z.add_lor_land a (Z.shiftl b 8)) as H.
  assert (Z.land a (Z.shiftl b 8) = 0) as H0.
  { apply Z.bits_inj'. intros n Hn. rewrite Z.land_spec, Z.bits_0.
    destruct (decide (n < 8)).
    - by rewrite (Z.shiftl_spec_low b 8 n), andb_false_r.
    - rewrite (Z.bits_above_log2 a n); [done|lia|].
      destruct (decide (a = 0)) as [->|]; [simpl; lia|]. apply Z.log2_lt_pow2; [lia|].
      apply Z.lt_le_trans with (2 ^ 8); [simpl; lia|]. apply Z.pow_le_mono_r; lia. }
  rewrite H0, Z.shiftl_mul_pow2 in H by lia. rewrite Z.shiftl_mul_pow2 by lia.
  change (2 ^ 8) with 256 in *. lia.
Qed.

Lemma le_val_bytes n v : le_val (le_bytes n v) = v mod 256 ^ Z.of_nat n.
Proof.
  revert v. induction n as [|n IH]; intros v; cbn [le_bytes le_val].
  { by rewrite Z.mod_1_r. }
  rewrite byte_val_of, IH, lor_shift by (apply Z.mod_pos_bound; lia).
  change 255 with (Z.ones 8). rewrite Z.land_ones, Z.shiftr_div_pow2 by lia.
  change (2 ^ 8) with 256. rewrite Z.mod_mod by lia.
  rewrite Nat2Z.inj_succ, Z.pow_succ_r by lia.
  rewrite Z.rem_mul_r by lia. done.
Qed.

Lemma le_roundtrip n v : 0 <= v < 256 ^ Z.of_nat n -> le_val (le_bytes n v) = v.
Proof. intros Hv. rewrite le_val_bytes. by apply Z.mod_small. Qed.

(** ** Doubles *)

Lemma digits2_bounds m :
  2 ^ (Z.pos (digits2_pos m) - 1) <= Z.pos m < 2 ^ Z.pos (digits2_pos m).
Proof.
  induction m as [m IH|m IH|]; simpl digits2_pos; [| |simpl; lia];
    rewrite Pos2Z.inj_succ; replace (Z.succ (Z.pos (digits2_pos m)) - 1) with (Z.succ (Z.pos (digits2_pos m) - 1)) by lia;
    rewrite !Z.pow_succ_r by lia; lia.
Qed.

(** The mantissa and exponent of a binary64 number: normal or subnormal. *)
Lemma bounded_cases m e :
  bounded 53 1024 m e = true ->
  (2 ^ 52 <= Z.pos m < 2 ^ 53 /\ -1074 <= e <= 971) \/ (Z.pos m < 2 ^ 52 /\ e = -1074).
Proof.
  unfold bounded, canonical_mantissa, fexp, emin. rewrite andb_true_iff, Z.eqb_eq, Z.leb_le.
  intros [H1 H2]. pose proof (digits2_bounds m) as Hd. set (d := Z.pos (digits2_pos m)) in *.
  assert (d <= 53) as Hd53 by lia.
  destruct (decide (d = 53)) as [->|Hne]; [left; simpl in Hd; lia|right].
  assert (2 ^ d <= 2 ^ 52) by (apply Z.pow_le_mono_r; lia). lia.
Qed.

(** The three fields of the bits. *)
Lemma bits_fields s ex m :
  0 <= ex < 2048 -> 0 <= m < 2 ^ 52 ->
  let b := (if s : bool then Z.shiftl 1 63 else 0) + (Z.shiftl ex 52 + m) in
  Z.testbit b 63 = s /\ Z.land (Z.shiftr b 52) 0x7FF = ex /\ Z.land b (Z.ones 52) = m.
Proof.
  intros Hex Hm b. subst b. rewrite !Z.shiftl_mul_pow2 by lia.
  change 0x7FF with (Z.ones 11). rewrite !Z.land_ones, Z.shiftr_div_pow2 by lia.
  assert (forall x y, 0 <= y < 2 ^ 52 -> (x * 2 ^ 52 + y) / 2 ^ 52 = x) as Hdiv.
  { intros x y Hy. rewrite Z.div_add_l by lia. rewrite Z.div_small by lia. lia. }
  assert (forall x y, 0 <= y < 2 ^ 52 -> (x * 2 ^ 52 + y) mod 2 ^ 52 = y) as Hmod.
  { intros x y Hy. rewrite Z.add_comm, Z.mod_add by lia. by apply Z.mod_small. }
  set (c := if s then 2048 else 0).
  replace ((if s then 1 * 2 ^ 63 else 0) + (ex * 2 ^ 52 + m)) with ((c + ex) * 2 ^ 52 + m)
    by (unfold c; destruct s; simpl; lia).
  rewrite Hdiv, Hmod by done. split_and!; [|unfold c; destruct s|done].
  - rewrite Z.testbit_eqb by lia. change (2 ^ 63) with (2 ^ 52 * 2048).
    rewrite <- Z.div_div, Hdiv by lia. unfold c. destruct s.
    + replace (2048 + ex) with (1 * 2048 + ex) by lia. rewrite Z.div_add_l, Z.div_small by lia. done.
    + rewrite Z.add_0_l, Z.div_small by lia. done.
  - change (2 ^ 11) with 2048. replace (2048 + ex) with (ex + 1 * 2048) by lia.
    rewrite Z.mod_add by lia. by apply Z.mod_small.
  - change (2 ^ 11) with 2048. rewrite Z.add_0_l. by apply Z.mod_small.
Qed.

Lemma double_roundtrip d :
  valid_binary 53 1024 d = true -> isnan d = false -> double_of_bits (bits_of_double d) = d.
Proof.
  intros Hv Hn. unfold double_of_bits.
  destruct d as [s|s| |s m e]; [by destruct s|by destruct s|done|].
  destruct (bounded_cases m e Hv) as [[Hm He]|[Hm ->]]; unfold bits_of_double.
  - rewrite (proj2 (Z.leb_le (Z.shiftl 1 52) _)) by (rewrite Z.shiftl_mul_pow2; lia).
    destruct (bits_fields s (e + 1075) (Z.pos m - Z.shiftl 1 52)) as (-> & -> & ->);
      [lia|rewrite Z.shiftl_mul_pow2; lia|].
    rewrite (proj2 (Z.eqb_neq _ 0x7FF)), (proj2 (Z.eqb_neq _ 0)) by lia.
    replace (Z.pos m - Z.shiftl 1 52 + Z.shiftl 1 52) with (Z.pos m) by lia. f_equal. lia.
  - rewrite (proj2 (Z.leb_gt (Z.shiftl 1 52) _)) by (rewrite Z.shiftl_mul_pow2; lia).
    destruct (bits_fields s 0 (Z.pos m)) as (H1 & H2 & H3); [lia..|].
    rewrite Z.shiftl_0_l, Z.add_0_l in H1, H2, H3. rewrite H1, H2, H3. done.
Qed.

Lemma bits_range d : valid_binary 53 1024 d = true -> 0 <= bits_of_double d < 2 ^ 64.
Proof.
  intros Hv. destruct d as [s|s| |s m e]; [by destruct s|by destruct s|done|].
  unfold bits_of_double. destruct (bounded_cases m e Hv) as [[Hm He]|[Hm ->]].
  - rewrite (proj2 (Z.leb_le (Z.shiftl 1 52) _)) by (rewrite Z.shiftl_mul_pow2; lia).
    rewrite !Z.shiftl_mul_pow2 by lia. destruct s; lia.
  - rewrite (proj2 (Z.leb_gt (Z.shiftl 1 52) _)) by (rewrite Z.shiftl_mul_pow2; lia).
    rewrite Z.shiftl_mul_pow2 by lia. destruct s; lia.
Qed.

(** ** The CRC separates strings that differ in one byte *)

Definition is_u32 (z : Z) : Prop := 0 <= z < 2 ^ 32.

Lemma crc_table_length : length crc_table = 256%nat.
Proof. done. Qed.

Lemma crc_table_tops : NoDup (map (fun t => Z.shiftr t 24) crc_table).
Proof. apply (bool_decide_unpack _). by vm_compute. Qed.

Lemma crc_table_range : Forall (fun t => 0 <= t < 2 ^ 32) crc_table.
Proof. apply (bool_decide_unpack _). by vm_compute. Qed.

#[local] Opaque crc_table.

Lemma crc_top_inj i j :
  (i < 256)%nat -> (j < 256)%nat ->
  Z.shiftr (nth i crc_table 0) 24 = Z.shiftr (nth j crc_table 0) 24 -> i = j.
Proof.
  intros Hi Hj He. assert (Hlook : forall k, (k < 256)%nat ->
    map (fun t => Z.shiftr t 24) crc_table !! k = Some (Z.shiftr (nth k crc_table 0) 24)).
  { intros k Hk. rewrite list_lookup_fmap. destruct (lookup_lt_is_Some_2 crc_table k) as [t Ht];
      [by rewrite crc_table_length|]. rewrite Ht, (nth_lookup_Some _ _ _ _ Ht). done. }
  eapply NoDup_lookup; [apply crc_table_tops|by apply Hlook|]. rewrite Hlook by done. by rewrite He.
Qed.

Lemma crc_index crc c :
  is_u32 crc -> 0 <= Z.lxor (Z.land crc 255) (byte_val c) < 256.
Proof.
  intros Hc. change 255 with (Z.ones 8). rewrite Z.land_ones by lia. change (2 ^ 8) with 256.
  pose proof (Z.mod_pos_bound crc 256 ltac:(lia)). pose proof (byte_val_range c).
  assert (0 <= Z.lxor (crc mod 256) (byte_val c)) by (rewrite Z.lxor_nonneg; lia).
  split; [done|]. destruct (decide (Z.lxor (crc mod 256) (byte_val c) = 0)); [lia|].
  apply Z.log2_lt_pow2 with (b := 8); [lia|].
  eapply Z.le_lt_trans; [apply Z.log2_lxor; lia|].
  apply Z.max_lub_lt.
  - destruct (decide (crc mod 256 = 0)) as [->|]; [done|]. apply Z.log2_lt_pow2; lia.
  - destruct (decide (byte_val c = 0)) as [->|]; [done|]. apply Z.log2_lt_pow2; lia.
Qed.

Lemma nth_u32 i : 0 <= nth i crc_table 0 < 2 ^ 32.
Proof.
  destruct (decide (i < 256)%nat) as [Hi|Hi].
  - pose proof crc_table_range as H. rewrite Forall_forall in H. apply H.
    apply list_elem_of_In. apply nth_In. by rewrite crc_table_length.
  - rewrite nth_overflow by (rewrite crc_table_length; lia). lia.
Qed.

Lemma lxor_u32 a b : is_u32 a -> is_u32 b -> is_u32 (Z.lxor a b).
Proof.
  unfold is_u32. intros Ha Hb. assert (0 <= Z.lxor a b) by (rewrite Z.lxor_nonneg; lia).
  split; [done|]. destruct (decide (Z.lxor a b = 0)); [lia|].
  apply Z.log2_lt_pow2; [lia|]. eapply Z.le_lt_trans; [apply Z.log2_lxor; lia|].
  apply Z.max_lub_lt.
  - destruct (decide (a = 0)) as [->|]; [done|]. apply Z.log2_lt_pow2; lia.
  - destruct (decide (b = 0)) as [->|]; [done|]. apply Z.log2_lt_pow2; lia.
Qed.

Lemma shiftr_u32 a : is_u32 a -> is_u32 (Z.shiftr a 8).
Proof.
  unfold is_u32. intros Ha. rewrite Z.shiftr_div_pow2 by lia. change (2 ^ 8) with 256.
  split; [apply Z.div_pos; lia|]. apply Z.div_lt_upper_bound; lia.
Qed.

Lemma crc_step_u32 crc c : is_u32 crc -> is_u32 (crc_step crc c).
Proof. intros H. apply lxor_u32; [apply nth_u32|by apply shiftr_u32]. Qed.

(** Equal steps come from equal table indices and equal high parts. *)
Lemma crc_step_inv crc crc' c c' :
  is_u32 crc -> is_u32 crc' -> crc_step crc c = crc_step crc' c' ->
  Z.lxor (Z.land crc 255) (byte_val c) = Z.lxor (Z.land crc' 255) (byte_val c') /\
  Z.shiftr crc 8 = Z.shiftr crc' 8.
Proof.
  intros H H' He. pose proof (crc_index crc c H) as Hi. pose proof (crc_index crc' c' H') as Hi'.
  assert (Hhigh : forall x, is_u32 x -> Z.shiftr (Z.shiftr x 8) 24 = 0).
  { intros x Hx. rewrite Z.shiftr_shiftr by lia. rewrite Z.shiftr_div_pow2 by lia. apply Z.div_small. apply Hx. }
  unfold crc_step in He. set (i := Z.lxor (Z.land crc 255) _) in *. set (i' := Z.lxor (Z.land crc' 255) _) in *.
  assert (Z.to_nat i = Z.to_nat i') as Hii.
  { apply crc_top_inj; [lia..|].
    apply (f_equal (fun z => Z.shiftr z 24)) in He. rewrite !Z.shiftr_lxor, !Hhigh, !Z.lxor_0_r in He by done.
    done. }
  split; [lia|]. rewrite Hii in He. apply (f_equal (Z.lxor (nth (Z.to_nat i') crc_table 0))) in He.
  by rewrite <- !Z.lxor_assoc, !Z.lxor_nilpotent, !Z.lxor_0_l in He.
Qed.

Lemma low_high_eq a b : Z.land a 255 = Z.land b 255 -> Z.shiftr a 8 = Z.shiftr b 8 -> a = b.
Proof.
  change 255 with (Z.ones 8). rewrite !Z.land_ones, !Z.shiftr_div_pow2 by lia. intros H1 H2.
  rewrite (Z.div_mod a (2 ^ 8)), (Z.div_mod b (2 ^ 8)) by lia. lia.
Qed.

Lemma lxor_cancel_r a b c : Z.lxor a c = Z.lxor b c -> a = b.
Proof.
  intros H. apply (f_equal (fun z => Z.lxor z c)) in H.
  by rewrite !Z.lxor_assoc, !Z.lxor_nilpotent, !Z.lxor_0_r in H.
Qed.

Lemma crc_step_inj_state crc crc' c :
  is_u32 crc -> is_u32 crc' -> crc_step crc c = crc_step crc' c -> crc = crc'.
Proof.
  intros H H' He. destruct (crc_step_inv crc crc' c c H H' He) as [Hi Hh].
  apply lxor_cancel_r in Hi. by apply low_high_eq.
Qed.

Lemma crc_step_inj_byte crc c c' : is_u32 crc -> crc_step crc c = crc_step crc c' -> c = c'.
Proof.
  intros H He. destruct (crc_step_inv crc crc c c' H H He) as [Hi _].
  rewrite !(Z.lxor_comm (Z.land crc 255)) in Hi. apply lxor_cancel_r in Hi. by apply byte_val_inj.
Qed.

Lemma crc_run_u32 l crc : is_u32 crc -> is_u32 (foldl crc_step crc l).
Proof. revert crc. induction l as [|c l IH]; intros crc H; simpl; [done|]. by apply IH, crc_step_u32. Qed.

Lemma crc_run_inj l crc crc' :
  is_u32 crc -> is_u32 crc' -> foldl crc_step crc l = foldl crc_step crc' l -> crc = crc'.
Proof.
  revert crc crc'. induction l as [|c l IH]; intros crc crc' H H' He; simpl in He; [done|].
  apply (crc_step_inj_state crc crc' c); [done..|]. apply IH; [by apply crc_step_u32..|done].
Qed.

Lemma crc_init_u32 : is_u32 0xFFFFFFFF.
Proof. split; lia. Qed.

Lemma Crc32_one_byte p c c' q : c <> c' -> Crc32 (p ++ c :: q) <> Crc32 (p ++ c' :: q).
Proof.
  intros Hc He. unfold Crc32 in He. apply lxor_cancel_r in He. rewrite !foldl_app in He. simpl in He.
  pose proof (crc_run_u32 p _ crc_init_u32) as Hp.
  apply crc_run_inj in He; [|by apply crc_step_u32..]. by apply crc_step_inj_byte in He.
Qed.

Lemma Crc32_u32 l : 0 <= Crc32 l < 2 ^ 32.
Proof. apply lxor_u32; [apply crc_run_u32|]; apply crc_init_u32. Qed.
