(* ===== verification/RdbProofs.v ===== *)
(** * Snapshots: the round trip

    [LoadFromFile] applied to what [Serialize] wrote gives the same key spaces:
    the same keys, expiry times and values, where sorted sets are compared by
    their dictionary and the sequence their skip list holds. *)

From Stdlib Require Import Sorting.Sorted.
From S2P Require Import Prelude Bytes Double SkipList SkipListInv SkipListProofs SkipListQueries SkipListRefine.
From S2P Require Import Db DbProofs DbRefine Rdb RdbCodec.
Local Open Scope Z_scope.

(** ** What can be stored *)

Definition short (s : bytes) : Prop := zlen s < 2 ^ 32.
Definition good_score (d : double) : Prop := isnan d = false /\ valid_binary 53 1024 d = true.

(** A sorted set whose dictionary and skip list hold the same elements. *)
Definition zset_ok (abs : SkipList -> list key -> Prop) (z : ZSetValue) (ks : list key) : Prop :=
  abs (sl z) ks /\ (fun k => (k.2, k.1)) <$> ks ≡ₚ map_to_list (dict z).

Definition storable_value (v : Value) : Prop :=
  match v with
  | RawString s => short s
  | HashValue h => Z.of_nat (size h) < 2 ^ 32 /\ map_Forall (fun k x => short k /\ short x) h
  | ListValue l => zlen l < 2 ^ 32 /\ Forall short l
  | SetValue s => Z.of_nat (size s) < 2 ^ 32 /\ set_Forall short s
  | ZSet z => Z.of_nat (size (dict z)) < 2 ^ 32 /\
              map_Forall (fun k d => short k /\ good_score d) (dict z) /\ exists ks, zset_ok wf z ks
  end.

Definition storable_entry (k : bytes) (e : Entry) : Prop :=
  short k /\ LLONG_MIN <= expires_at_ms e <= LLONG_MAX /\ storable_value (value e).

Definition storable (db : Database) : Prop :=
  length (dbs_ db) = kNumDatabases /\
  forall i, Z.of_nat (size (table db i)) < 2 ^ 32 /\ map_Forall storable_entry (table db i).

(** ** The same contents *)

Definition value_equiv (v v' : Value) : Prop :=
  match v, v' with
  | ZSet z, ZSet z' => dict z = dict z' /\ exists ks, zset_ok wf z ks /\ zset_ok wf z' ks
  | _, _ => v = v'
  end.
Definition entry_equiv (e e' : Entry) : Prop :=
  value_equiv (value e) (value e') /\ expires_at_ms e = expires_at_ms e'.

(** ** Encodings as concatenations *)

Definition enc_string (s : bytes) : bytes := le_bytes 4 (zlen s) ++ s.
Definition enc_list {A} (enc : A -> bytes) (l : list A) : bytes := mjoin (enc <$> l).
Definition enc_counted {A} (enc : A -> bytes) (l : list A) : bytes := le_bytes 4 (zlen l) ++ enc_list enc l.

Definition enc_field (h : gmap bytes bytes) (f : bytes) : bytes :=
  match h !! f with Some v => enc_string f ++ enc_string v | None => [] end.
Definition enc_member (d : gmap bytes double) (m : bytes) : bytes :=
  match d !! m with Some s => enc_string m ++ le_bytes 8 (bits_of_double s) | None => [] end.

Definition enc_value (ord : list bytes -> list bytes) (v : Value) : bytes :=
  match v with
  | RawString s => enc_string s
  | HashValue h => enc_counted (enc_field h) (ord (keys_of h))
  | ListValue l => enc_counted enc_string l
  | SetValue s => enc_counted enc_string (ord (elements s))
  | ZSet z => enc_counted (enc_member (dict z)) (ord (keys_of (dict z)))
  end.

Definition enc_entry (ord : list bytes -> list bytes) (k : bytes) (e : Entry) : bytes :=
  le_bytes 1 (type_code (TypeOf (value e))) ++ enc_string k ++
  le_bytes 8 (u64 (expires_at_ms e)) ++ enc_value ord (value e).

Definition enc_key (ord : Order) (idx : nat) (t : Table) (k : bytes) : bytes :=
  match t !! k with Some e => enc_entry (ord idx (Some k)) k e | None => [] end.

Definition enc_table (ord : Order) (db : Database) (idx : nat) : bytes :=
  le_bytes 1 (Z.of_nat idx) ++
  enc_counted (enc_key ord idx (table db idx)) (ord idx None (keys_of (table db idx))).

Lemma enc_list_cons {A} (enc : A -> bytes) x l : enc_list enc (x :: l) = enc x ++ enc_list enc l.
Proof. done. Qed.

Lemma foldl_put {A} (put : bytes -> A -> bytes) (enc : A -> bytes) out l :
  (forall o x, put o x = o ++ enc x) -> foldl put out l = out ++ enc_list enc l.
Proof.
  intros H. revert out. induction l as [|x l IH]; intros out; cbn [foldl].
  - by rewrite app_nil_r.
  - by rewrite IH, H, enc_list_cons, app_assoc.
Qed.

Lemma PutBytes_app out s : PutBytes out s = out ++ enc_string s.
Proof. unfold PutBytes, PutU32, enc_string. by rewrite app_assoc. Qed.

Section orders.
Context (ord : list bytes -> list bytes) (Hord : forall l, ord l ≡ₚ l).

Lemma ord_length l : zlen (ord l) = zlen l.
Proof. unfold zlen. by rewrite Hord. Qed.

Lemma keys_of_length {A} (m : gmap bytes A) : zlen (keys_of m) = Z.of_nat (size m).
Proof. unfold zlen, keys_of. by rewrite length_fmap, length_map_to_list. Qed.

Lemma put_value_app out v : put_value ord out v = out ++ enc_value ord v.
Proof.
  destruct v as [s|h|l|s|z]; unfold put_value, enc_value, enc_counted, PutU32.
  - apply PutBytes_app.
  - rewrite (foldl_put _ (enc_field h)), ord_length, keys_of_length, <- app_assoc; [done|].
    intros o f. unfold put_field, enc_field. destruct (h !! f); [|by rewrite app_nil_r].
    by rewrite !PutBytes_app, app_assoc.
  - rewrite (foldl_put _ enc_string), <- app_assoc; [done|]. apply PutBytes_app.
  - rewrite (foldl_put _ enc_string), ord_length, <- app_assoc; [done|]. apply PutBytes_app.
  - rewrite (foldl_put _ (enc_member (dict z))), ord_length, keys_of_length, <- app_assoc; [done|].
    intros o m. unfold put_score, enc_member, PutF64, PutU64.
    destruct (dict z !! m); [|by rewrite app_nil_r]. by rewrite PutBytes_app, app_assoc.
Qed.

Lemma put_entry_app out k e : put_entry ord out k e = out ++ enc_entry ord k e.
Proof.
  unfold put_entry, enc_entry. rewrite put_value_app, PutBytes_app. unfold PutU8, PutU64.
  by rewrite <- !app_assoc.
Qed.
End orders.

Lemma put_table_app ord db out idx :
  ord_ok ord -> put_table ord db out idx = out ++ enc_table ord db idx.
Proof.
  intros Ho. unfold put_table, enc_table, enc_counted.
  rewrite (foldl_put _ (enc_key ord idx (table db idx))).
  - unfold PutU8, PutU32. rewrite (ord_length (ord idx None)), keys_of_length by apply Ho.
    by rewrite <- !app_assoc.
  - intros o k. unfold enc_key. destruct (table db idx !! k); [|by rewrite app_nil_r].
    by apply put_entry_app, Ho.
Qed.

Lemma Serialize_app ord db :
  ord_ok ord ->
  exists body, body = kMagic ++ le_bytes 1 (zlen (used_dbs db)) ++ enc_list (enc_table ord db) (used_dbs db) /\
    Serialize ord db = body ++ le_bytes 4 (Crc32 body).
Proof.
  intros Ho. eexists. split; [done|]. unfold Serialize.
  rewrite (foldl_put _ (enc_table ord db)) by (intros; by apply put_table_app).
  unfold PutU8, PutU32. by rewrite <- !app_assoc.
Qed.

(** ** Reading what was written *)

Record at_pos (b : bytes) (r : Reader) (rest : bytes) : Prop := mkAt {
  at_buf : rbuf r = b;
  at_ok : rok r = true;
  at_nonneg : 0 <= rpos r;
  at_len : zlen b < U64;
  at_rest : exists pre, b = pre ++ rest /\ rpos r = zlen pre
}.

Lemma take_at b r s rest :
  at_pos b r (s ++ rest) ->
  Need (zlen s) r = (true, r) /\ substr (rbuf r) (Z.to_nat (rpos r)) (length s) = s /\
  at_pos b (advance (zlen s) r) rest.
Proof.
  intros [Hb Hok H0 Hl (pre & E & Hp)]. rewrite Hb, Hp. split_and!.
  - unfold Need. rewrite Hok, Hb, Hp. simpl.
    assert (zlen pre + zlen s <= zlen b) by (rewrite E; len_solve).
    pose proof (zlen_nonneg s). pose proof (zlen_nonneg pre).
    rewrite u64_small by lia. rewrite Z.gtb_ltb, (proj2 (Z.ltb_ge _ _)) by lia. done.
  - rewrite E. unfold substr, zlen. rewrite Nat2Z.id, drop_app_length, take_app_length. done.
  - split; simpl; try done; [pose proof (zlen_nonneg s); lia|].
    exists (pre ++ s). split; [by rewrite <- app_assoc|]. rewrite Hp. len_solve.
Qed.

Lemma read_le_at b n v r rest :
  at_pos b r (le_bytes n v ++ rest) -> 0 <= v < 256 ^ Z.of_nat n ->
  exists r', read_le n r = (v, r') /\ at_pos b r' rest.
Proof.
  intros H Hv. destruct (take_at b r _ rest H) as (H1 & H2 & H3).
  unfold zlen in H1, H3. rewrite le_bytes_length in H1, H2, H3.
  unfold read_le. rewrite H1, H2, le_roundtrip by done. eauto.
Qed.

Lemma F64_at b d r rest :
  at_pos b r (le_bytes 8 (bits_of_double d) ++ rest) -> good_score d ->
  exists r', F64 r = (d, r') /\ at_pos b r' rest.
Proof.
  intros H [Hn Hv]. destruct (take_at b r _ rest H) as (H1 & H2 & H3).
  unfold zlen in H1, H3. rewrite le_bytes_length in H1, H2, H3.
  change (Z.of_nat 8) with 8 in *. unfold F64. rewrite H1, H2.
  rewrite le_roundtrip, double_roundtrip by (done || apply (bits_range d Hv)). eauto.
Qed.

Lemma Bytes_at b s r rest :
  at_pos b r (s ++ rest) -> exists r', Bytes_ (zlen s) r = (s, r') /\ at_pos b r' rest.
Proof.
  intros H. destruct (take_at b r _ rest H) as (H1 & H2 & H3).
  unfold Bytes_. rewrite H1. unfold zlen at 1. rewrite Nat2Z.id, H2. eauto.
Qed.

Lemma read_string_at b s r rest :
  at_pos b r (enc_string s ++ rest) -> short s ->
  exists r', read_string r = (s, r') /\ at_pos b r' rest.
Proof.
  intros H Hs. unfold enc_string in H. rewrite <- app_assoc in H.
  destruct (read_le_at b 4 (zlen s) r _ H) as (r1 & E1 & H1); [split; [apply zlen_nonneg|done]|].
  unfold read_string, U32_. rewrite E1. by apply Bytes_at.
Qed.

(** The loops: [I acc xs] is the loop invariant with the items [xs] to come. *)
Lemma load_items_at {A X} (item : Reader -> A -> option (A * Reader)) (enc : X -> bytes)
    (I : A -> list X -> Prop) b :
  (forall acc x xs r rest, I acc (x :: xs) -> at_pos b r (enc x ++ rest) ->
     exists acc' r', item r acc = Some (acc', r') /\ at_pos b r' rest /\ I acc' xs) ->
  forall xs fuel acc r rest,
    I acc xs -> at_pos b r (enc_list enc xs ++ rest) -> (length xs <= fuel)%nat ->
    exists acc' r', load_items item fuel (zlen xs) r acc = Some (acc', r') /\ at_pos b r' rest /\ I acc' [].
Proof.
  intros Hstep xs. induction xs as [|x xs IH]; intros fuel acc r rest HI Hat Hf.
  { exists acc, r. split; [|done]. by destruct fuel. }
  destruct fuel as [|f]; [simpl in Hf; lia|].
  rewrite enc_list_cons, <- app_assoc in Hat.
  destruct (Hstep acc x xs r _ HI Hat) as (acc1 & r1 & E1 & H1 & HI1).
  destruct (IH f acc1 r1 rest HI1 H1) as (acc2 & r2 & E2 & H2 & HI2); [simpl in Hf; lia|].
  exists acc2, r2. split; [|done]. cbn [load_items].
  rewrite (at_ok _ _ _ Hat), (proj2 (Z.ltb_lt 0 (zlen (x :: xs)))) by (unfold zlen; simpl; lia).
  cbn [andb]. rewrite E1. cbn [mbind option_bind].
  replace (zlen (x :: xs) - 1) with (zlen xs) by (unfold zlen; simpl; lia). done.
Qed.

(** The count before the items. *)
Lemma load_counted_at {A X} (item : Reader -> A -> option (A * Reader)) (enc : X -> bytes)
    (I : A -> list X -> Prop) b xs acc r rest :
  (forall acc x xs r rest, I acc (x :: xs) -> at_pos b r (enc x ++ rest) ->
     exists acc' r', item r acc = Some (acc', r') /\ at_pos b r' rest /\ I acc' xs) ->
  (forall x, x ∈ xs -> (1 <= length (enc x))%nat) ->
  zlen xs < 2 ^ 32 -> I acc xs -> at_pos b r (enc_counted enc xs ++ rest) ->
  exists acc' r0 r', U32_ r = (zlen xs, r0) /\
    load_items item (load_fuel r0) (zlen xs) r0 acc = Some (acc', r') /\ at_pos b r' rest /\ I acc' [].
Proof.
  intros Hstep Henc Hlen HI Hat. unfold enc_counted in Hat. rewrite <- app_assoc in Hat.
  destruct (read_le_at b 4 (zlen xs) r _ Hat) as (r0 & E0 & H0); [split; [apply zlen_nonneg|done]|].
  destruct (load_items_at item enc I b Hstep xs (load_fuel r0) acc r0 rest HI H0) as (a' & r' & E & H & HI').
  - unfold load_fuel. rewrite (at_buf _ _ _ H0). destruct H0 as [_ _ _ _ (pre & -> & _)].
    assert (length xs <= length (enc_list enc xs))%nat; [|rewrite !length_app; lia].
    clear -Henc. induction xs as [|x xs IH]; [simpl; lia|].
    rewrite enc_list_cons, length_app. cbn [length]. pose proof (Henc x ltac:(by left)).
    assert (length xs <= length (enc_list enc xs))%nat; [|lia]. apply IH. intros y Hy. apply Henc. by right.
  - exists a', r0, r'. done.
Qed.

(** ** Values *)

(** [acc] holds the entries of [m] whose keys are not in [xs] any more. *)
Definition loaded {A} (m acc : gmap bytes A) (xs : list bytes) : Prop :=
  NoDup xs /\ (forall k, k ∈ xs -> is_Some (m !! k)) /\
  forall k, acc !! k = if decide (k ∈ xs) then None else m !! k.

Lemma loaded_start {A} (m : gmap bytes A) xs : xs ≡ₚ keys_of m -> loaded m ∅ xs.
Proof.
  intros Hp. split_and!.
  - rewrite Hp. apply keys_of_NoDup.
  - intros k. rewrite Hp. apply elem_of_keys.
  - intros k. rewrite lookup_empty. case_decide as Hk; [done|]. rewrite Hp, elem_of_keys in Hk.
    by destruct (m !! k); [destruct Hk|].
Qed.

Lemma loaded_step {A} (m acc : gmap bytes A) k v xs :
  loaded m acc (k :: xs) -> m !! k = Some v -> acc !! k = None /\ loaded m (<[k := v]> acc) xs.
Proof.
  intros (Hnd & Hin & Hacc) Hk. apply NoDup_cons in Hnd as [Hkx Hnd]. split.
  - rewrite Hacc. by rewrite decide_True by (by left).
  - split_and!; [done|intros; apply Hin; by right|]. intros k'.
    destruct (decide (k' = k)) as [->|Hne].
    + by rewrite lookup_insert_eq, decide_False.
    + rewrite lookup_insert_ne, Hacc by done. apply decide_ext. rewrite elem_of_cons. naive_solver.
Qed.

Lemma loaded_end {A} (m acc : gmap bytes A) : loaded m acc [] -> acc = m.
Proof.
  intros (_ & _ & H). apply map_eq. intros k. rewrite H. by rewrite decide_False by apply not_elem_of_nil.
Qed.

Lemma loaded_sub {A} (m acc : gmap bytes A) xs : loaded m acc xs -> acc ⊆ m.
Proof.
  intros (_ & _ & H). apply map_subseteq_spec. intros k v. rewrite H. by case_decide.
Qed.

Lemma hash_item_at b h acc f xs r rest :
  map_Forall (fun k x => short k /\ short x) h ->
  loaded h acc (f :: xs) -> at_pos b r (enc_field h f ++ rest) ->
  exists acc' r', hash_item r acc = Some (acc', r') /\ at_pos b r' rest /\ loaded h acc' xs.
Proof.
  intros Hs HI Hat. pose proof HI as (_ & Hin & _). destruct (Hin f) as [v Hv]; [by left|].
  destruct (Hs f v Hv) as [Hf Hv']. unfold enc_field in Hat. rewrite Hv, <- app_assoc in Hat.
  destruct (read_string_at b f r _ Hat Hf) as (r1 & E1 & H1).
  destruct (read_string_at b v r1 _ H1 Hv') as (r2 & E2 & H2).
  destruct (loaded_step h acc f v xs HI Hv) as [Hn HI'].
  unfold hash_item. rewrite E1, E2, Hn. eauto.
Qed.

Lemma list_item_at b l acc s xs r rest :
  Forall short l -> l = acc ++ s :: xs -> at_pos b r (enc_string s ++ rest) ->
  exists acc' r', list_item r acc = Some (acc', r') /\ at_pos b r' rest /\ l = acc' ++ xs.
Proof.
  intros Hl -> Hat. apply Forall_app in Hl as [_ Hs]. apply Forall_cons in Hs as [Hs _].
  destruct (read_string_at b s r _ Hat Hs) as (r1 & E1 & H1).
  unfold list_item. rewrite E1. do 2 eexists. split_and!; [done|done|]. by rewrite <- app_assoc.
Qed.

Definition set_loaded (s acc : gset bytes) (xs : list bytes) : Prop := s = acc ∪ list_to_set xs.

Lemma set_item_at b s acc m xs r rest :
  set_Forall short s -> set_loaded s acc (m :: xs) -> at_pos b r (enc_string m ++ rest) ->
  exists acc' r', set_item r acc = Some (acc', r') /\ at_pos b r' rest /\ set_loaded s acc' xs.
Proof.
  unfold set_loaded. intros Hs -> Hat.
  destruct (read_string_at b m r _ Hat) as (r1 & E1 & H1); [apply Hs; set_solver|].
  unfold set_item. rewrite E1. do 2 eexists. split_and!; [done|done|]. simpl. set_solver.
Qed.

(** *** Sorted sets *)

Lemma ref_insert_new k ks :
  (forall x, x ∈ ks -> x.2 <> k.2) -> (ref_insert k ks).2 ≡ₚ k :: ks.
Proof.
  induction ks as [|x ks IH]; intros Hne; simpl; [done|].
  assert (same_key k x = false) as Hx.
  { unfold same_key, KeyEqual. rewrite bool_decide_eq_false_2, andb_false_r; [done|]. apply Hne. by left. }
  rewrite Hx. destruct (KeyLess _ _ _ _); [|done].
  assert ((ref_insert k ks).2 ≡ₚ k :: ks) as H by (apply IH; intros; apply Hne; by right).
  destruct (ref_insert k ks) as [bb l]. simpl in *. rewrite H. apply Permutation_swap.
Qed.

Lemma key_lt_asym a b : key_lt a b -> key_lt b a -> a = b.
Proof.
  unfold key_lt, KeyLess. intros H1 H2. exfalso.
  destruct (isnan a.1) eqn:Ea.
  { destruct (deq a.1 b.1) eqn:E; simpl in H1; [by destruct a as [[]]|]. by rewrite dlt_nan_l in H1. }
  destruct (isnan b.1) eqn:Eb.
  { destruct (deq b.1 a.1) eqn:E; simpl in H2; [by destruct b as [[]]|]. by rewrite dlt_nan_l in H2. }
  apply (key_lt_irrefl a Ea). by apply (key_lt_trans a b a).
Qed.

(** A sorted sequence is determined by its elements. *)
Lemma sorted_unique l1 l2 : sorted l1 -> sorted l2 -> l1 ≡ₚ l2 -> l1 = l2.
Proof.
  intros H1. revert l2. induction H1 as [|a l1 Hs IH Ha]; intros l2 H2 Hp.
  { symmetry. by apply Permutation_nil. }
  destruct H2 as [|b l2 Hs2 Hb]; [symmetry in Hp; by apply Permutation_nil_cons in Hp|].
  assert (a = b) as <-.
  { assert (a ∈ b :: l2) as Hab by (rewrite <- Hp; by left).
    assert (b ∈ a :: l1) as Hba by (rewrite Hp; by left).
    apply elem_of_cons in Hab as [|Hab]; [done|]. apply elem_of_cons in Hba as [|Hba]; [done|].
    rewrite List.Forall_forall in Ha, Hb. apply key_lt_asym.
    - apply Ha. by apply list_elem_of_In.
    - apply Hb. by apply list_elem_of_In. }
  f_equal. apply IH; [done|]. by eapply Permutation_cons_inv.
Qed.

Lemma zset_keys_unique z ks z' ks' :
  dict z = dict z' -> zset_ok wf z ks -> zset_ok wf z' ks' -> ks = ks'.
Proof.
  intros Hd [W P] [W' P']. apply sorted_unique.
  - by apply (zi_sorted _ _ W).
  - by apply (zi_sorted _ _ W').
  - assert (forall l : list key, (fun k : bytes * double => (k.2, k.1)) <$> ((fun k : key => (k.2, k.1)) <$> l) = l) as Hinv.
    { intros l. rewrite <- list_fmap_compose. rewrite <- (list_fmap_id l) at 2.
      apply list_fmap_ext. by intros _ [??] _. }
    rewrite <- (Hinv ks), <- (Hinv ks'). by rewrite P, P', Hd.
Qed.

Definition zset_loaded (z0 z : ZSetValue) (xs : list bytes) : Prop :=
  loaded (dict z0) (dict z) xs /\ exists ks, zset_ok wf z ks.

Lemma zset_item_at b rnd z0 z m xs r rest :
  Z.of_nat (size (dict z0)) < 2 ^ 32 ->
  map_Forall (fun k d => short k /\ good_score d) (dict z0) ->
  zset_loaded z0 z (m :: xs) -> at_pos b r (enc_member (dict z0) m ++ rest) ->
  exists z' r', zset_item rnd r z = Some (z', r') /\ at_pos b r' rest /\ zset_loaded z0 z' xs.
Proof.
  intros Hsz Hs [HI (ks & W & P)] Hat. pose proof HI as (_ & Hin & _).
  destruct (Hin m) as [s Hm]; [by left|]. destruct (Hs m s Hm) as [Hsh Hg].
  unfold enc_member in Hat. rewrite Hm, <- app_assoc in Hat.
  destruct (read_string_at b m r _ Hat Hsh) as (r1 & E1 & H1).
  destruct (F64_at b s r1 _ H1 Hg) as (r2 & E2 & H2).
  destruct (loaded_step _ _ m s xs HI Hm) as [Hn HI'].
  unfold zset_item. rewrite E1, E2.
  assert (Hlen : length ks = size (dict z)).
  { rewrite <- (length_fmap (fun k : key => (k.2, k.1)) ks), P. apply length_map_to_list. }
  assert (size (dict z) <= size (dict z0))%nat.
  { rewrite <- !size_dom. apply subseteq_size. apply subseteq_dom. by eapply loaded_sub. }
  destruct (zi_insert (sl z) ks (s, m) (rnd (rpos r2))) as (sl' & E3 & W');
    [done|apply Hg|unfold zlen, U64 in *; lia|].
  simpl in E3. rewrite E3. do 2 eexists. split_and!; [done|done|]. split; [done|].
  exists (ref_insert (s, m) ks).2. split; [done|]. rewrite ref_insert_new.
  - simpl. rewrite P. by rewrite map_to_list_insert.
  - intros x Hx Hxm. assert ((x.2, x.1) ∈ map_to_list (dict z)) as Hx'.
    { rewrite <- P. apply list_elem_of_fmap. by exists x. }
    apply elem_of_map_to_list in Hx'. simpl in Hxm. congruence.
Qed.

Lemma enc_string_length s : (4 <= length (enc_string s))%nat.
Proof. unfold enc_string. rewrite length_app, le_bytes_length. lia. Qed.

Lemma load_value_at b rnd (ord : list bytes -> list bytes) v r rest :
  (forall l, ord l ≡ₚ l) -> storable_value v -> at_pos b r (enc_value ord v ++ rest) ->
  exists v' r', load_value rnd (type_code (TypeOf v)) r = LOk (v', r') /\ at_pos b r' rest /\ value_equiv v v'.
Proof.
  intros Ho Hv Hat. destruct v as [s|h|l|s|z]; cbn [storable_value enc_value TypeOf type_code] in *;
    unfold load_value; cbn [Z.eqb Pos.eqb].
  - destruct (read_string_at b s r rest Hat Hv) as (r' & -> & H). by exists (RawString s), r'.
  - destruct Hv as [Hn Hf].
    destruct (load_counted_at hash_item (enc_field h) (loaded h) b (ord (keys_of h)) ∅ r rest)
      as (h' & r0 & r' & -> & -> & H & HI); try done.
    + intros acc x xs r1 rest1. by apply hash_item_at.
    + intros f Hin. rewrite Ho, elem_of_keys in Hin. destruct Hin as [x Hx]. unfold enc_field. rewrite Hx.
      rewrite length_app. pose proof (enc_string_length f). lia.
    + by rewrite ord_length, keys_of_length.
    + by apply loaded_start.
    + apply loaded_end in HI as ->. by exists (HashValue h), r'.
  - destruct Hv as [Hn Hf].
    destruct (load_counted_at list_item enc_string (fun acc xs => l = acc ++ xs) b l [] r rest)
      as (l' & r0 & r' & -> & -> & H & HI); try done.
    + intros acc x xs r1 rest1. by apply list_item_at.
    + intros x _. pose proof (enc_string_length x). lia.
    + rewrite app_nil_r in HI. subst l'. by exists (ListValue l), r'.
  - destruct Hv as [Hn Hf].
    destruct (load_counted_at set_item enc_string (set_loaded s) b (ord (elements s)) ∅ r rest)
      as (s' & r0 & r' & -> & -> & H & HI); try done.
    + intros acc x xs r1 rest1. by apply set_item_at.
    + intros x _. pose proof (enc_string_length x). lia.
    + by rewrite ord_length.
    + unfold set_loaded. apply set_eq. intros x. rewrite elem_of_union, elem_of_list_to_set, Ho, elem_of_elements.
      set_solver.
    + unfold set_loaded in HI. exists (SetValue s), r'. split_and!; [|done|done]. do 3 f_equal. set_solver.
  - destruct Hv as (Hn & Hf & ks & Hz).
    destruct (load_counted_at (zset_item rnd) (enc_member (dict z)) (zset_loaded z) b
                (ord (keys_of (dict z))) (mkZSet empty_list ∅) r rest)
      as (z' & r0 & r' & -> & -> & H & HI & ks' & Hz'); try done.
    + intros acc x xs r1 rest1. by apply zset_item_at.
    + intros m Hin. rewrite Ho, elem_of_keys in Hin. destruct Hin as [d Hd]. unfold enc_member. rewrite Hd.
      rewrite length_app. pose proof (enc_string_length m). lia.
    + by rewrite ord_length, keys_of_length.
    + split; [by apply loaded_start|]. exists []. split; [apply zi_empty|]. simpl. by rewrite map_to_list_empty.
    + apply loaded_end in HI. exists (ZSet z'), r'. split_and!; [done|done|]. split; [done|].
      exists ks. split; [done|]. by rewrite (zset_keys_unique z ks z' ks').
Qed.

(** ** Entries, tables, databases *)

Lemma expires_roundtrip x :
  LLONG_MIN <= x <= LLONG_MAX -> (if u64 x =? 0 then 0 else i64_of_u64 (u64 x)) = x.
Proof.
  unfold LLONG_MIN, LLONG_MAX, i64_of_u64. intros Hx.
  destruct (decide (0 <= x)).
  - rewrite u64_small by (unfold U64; lia). destruct (Z.eqb_spec x 0); [done|].
    rewrite (proj2 (Z.leb_le _ _)) by (unfold LLONG_MAX; lia). done.
  - assert (u64 x = x + U64) as ->.
    { unfold u64. rewrite <- (Z.mod_add x 1 U64) by (unfold U64; lia).
      rewrite Z.mul_1_l. apply Z.mod_small. unfold U64. lia. }
    rewrite (proj2 (Z.eqb_neq _ 0)) by (unfold U64; lia).
    rewrite (proj2 (Z.leb_gt _ _)) by (unfold LLONG_MAX, U64; lia). lia.
Qed.

Lemma load_entry_at (b : bytes) (rnd : Z -> nat -> Z) (ord : list bytes -> list bytes) idx k e fresh r rest :
  (forall l, ord l ≡ₚ l) -> storable_entry k e -> at_pos b r (enc_entry ord k e ++ rest) ->
  exists e' r', load_entry rnd idx r fresh =
      LOk (Set_ (Z.to_nat idx) k (value e') (expires_at_ms e') fresh, r') /\
    at_pos b r' rest /\ entry_equiv e e'.
Proof.
  intros Ho (Hk & Hx & Hv) Hat. unfold enc_entry, enc_string in Hat. rewrite <- !app_assoc in Hat.
  destruct (read_le_at b 1 (type_code (TypeOf (value e))) r _ Hat) as (r1 & E1 & H1).
  { destruct (value e); simpl; lia. }
  destruct (read_le_at b 4 (zlen k) r1 _ H1) as (r2 & E2 & H2); [split; [apply zlen_nonneg|done]|].
  destruct (Bytes_at b k r2 _ H2) as (r3 & E3 & H3).
  destruct (read_le_at b 8 (u64 (expires_at_ms e)) r3 _ H3) as (r4 & E4 & H4); [apply u64_range|].
  destruct (load_value_at b rnd ord (value e) r4 rest Ho Hv H4) as (v' & r5 & E5 & H5 & Heq).
  unfold load_entry, U8, U32_, U64_. rewrite E1, E2, E3, E4, (at_ok _ _ _ H4). cbn [negb].
  rewrite E5, (at_ok _ _ _ H5). cbn [negb].
  exists (mkEntry v' (expires_at_ms e)), r5. rewrite expires_roundtrip by done. done.
Qed.

(** The part of a table that has been loaded into [t']. *)
Definition table_loaded (t t' : Table) (xs : list bytes) : Prop :=
  forall k, if decide (k ∈ xs) then t' !! k = None else option_Forall2 entry_equiv (t !! k) (t' !! k).

Lemma load_entries_at (b : bytes) (rnd : Z -> nat -> Z) (ord : Order) (idx : nat) (t : Table) xs : forall fuel fresh r rest,
  ord_ok ord -> (idx < kNumDatabases)%nat -> length (dbs_ fresh) = kNumDatabases ->
  map_Forall storable_entry t -> NoDup xs -> (forall k, k ∈ xs -> is_Some (t !! k)) ->
  table_loaded t (table fresh idx) xs -> (length xs <= fuel)%nat ->
  at_pos b r (enc_list (enc_key ord idx t) xs ++ rest) ->
  exists fresh' r', load_entries rnd fuel (Z.of_nat idx) (zlen xs) r fresh = LOk (fresh', r') /\
    at_pos b r' rest /\ length (dbs_ fresh') = kNumDatabases /\
    table_loaded t (table fresh' idx) [] /\ (forall j, j <> idx -> table fresh' j = table fresh j) /\
    max_memory_ fresh' = max_memory_ fresh.
Proof.
  induction xs as [|k xs IH]; intros fuel fresh r rest Ho Hidx Hl Hst Hnd Hin HI Hf Hat.
  { exists fresh, r. split_and!; try done. by destruct fuel. }
  destruct fuel as [|f]; [simpl in Hf; lia|]. apply NoDup_cons in Hnd as [Hkx Hnd].
  destruct (Hin k) as [e He]; [by left|]. rewrite enc_list_cons, <- app_assoc in Hat.
  unfold enc_key at 1 in Hat. rewrite He in Hat.
  destruct (load_entry_at b rnd (ord idx (Some k)) (Z.of_nat idx) k e fresh r _ (Ho idx (Some k)) (Hst k e He) Hat)
    as (e' & r1 & E1 & H1 & Heq). rewrite Nat2Z.id in E1.
  destruct (IH f (Set_ idx k (value e') (expires_at_ms e') fresh) r1 rest)
    as (fresh' & r' & E2 & H2 & Hl2 & HI2 & Hfr & Hmax); try done.
  - by rewrite Set_len.
  - intros k' Hk'. apply Hin. by right.
  - intros k'. rewrite table_Set, (decide_True (P := idx = idx)) by done. specialize (HI k').
    destruct (decide (k' = k)) as [->|Hne].
    + rewrite decide_False by done. rewrite lookup_insert_eq, He. constructor. by destruct e'.
    + rewrite lookup_insert_ne by done. destruct (decide (k' ∈ xs)) as [Hk'|Hk'].
      * by rewrite decide_True in HI by (by right).
      * by rewrite decide_False in HI by (rewrite elem_of_cons; naive_solver).
  - simpl in Hf. lia.
  - exists fresh', r'. split_and!; try done.
    + cbn [load_entries]. rewrite (proj2 (Z.ltb_lt 0 (zlen (k :: xs)))) by (unfold zlen; simpl; lia).
      rewrite E1. by replace (zlen (k :: xs) - 1) with (zlen xs) by (unfold zlen; simpl; lia).
    + intros j Hj. by rewrite Hfr, table_Set, decide_False by done.
    + rewrite Hmax. unfold Set_. by destruct (table fresh idx !! k).
Qed.

Lemma table_out db i : length (dbs_ db) = kNumDatabases -> (kNumDatabases <= i)%nat -> table db i = ∅.
Proof. intros Hl Hi. unfold table. by rewrite lookup_ge_None_2 by lia. Qed.

Definition tables_equiv (t t' : Table) : Prop := forall k, option_Forall2 entry_equiv (t !! k) (t' !! k).

Lemma tables_equiv_empty : tables_equiv ∅ ∅.
Proof. intros k. rewrite lookup_empty. constructor. Qed.

(** The databases still to come are empty in [fresh], the others are loaded. *)
Definition dbs_loaded (db fresh : Database) (ds : list nat) : Prop :=
  length (dbs_ fresh) = kNumDatabases /\
  forall i, if decide (i ∈ ds) then table fresh i = ∅ else tables_equiv (table db i) (table fresh i).

Lemma load_dbs_at (b : bytes) (rnd : Z -> nat -> Z) (ord : Order) db ds : forall fresh r rest,
  ord_ok ord -> storable db -> NoDup ds -> Forall (fun d => d < kNumDatabases)%nat ds ->
  dbs_loaded db fresh ds -> at_pos b r (enc_list (enc_table ord db) ds ++ rest) ->
  exists fresh' r', load_dbs rnd (length ds) r fresh = LOk (fresh', r') /\ dbs_loaded db fresh' [].
Proof.
  induction ds as [|d ds IH]; intros fresh r rest Ho Hst Hnd Hds [Hl HI] Hat; [by exists fresh, r|].
  apply NoDup_cons in Hnd as [Hdx Hnd]. apply Forall_cons in Hds as [Hd Hds].
  rewrite enc_list_cons in Hat. unfold enc_table, enc_counted in Hat. rewrite <- !app_assoc in Hat.
  pose proof Hst as [_ Hst']. destruct (Hst' d) as [Hsz Hent].
  set (t := table db d) in *. set (xs := ord d None (keys_of t)) in *.
  assert (Hxs : xs ≡ₚ keys_of t) by apply Ho.
  assert (Hlen : zlen xs < 2 ^ 32) by (unfold zlen; rewrite Hxs; fold (zlen (keys_of t)); by rewrite keys_of_length).
  assert (Hd16 : 0 <= Z.of_nat d < 256) by (unfold kNumDatabases in Hd; lia).
  destruct (read_le_at b 1 (Z.of_nat d) r _ Hat Hd16) as (r1 & E1 & H1).
  destruct (read_le_at b 4 (zlen xs) r1 _ H1) as (r2 & E2 & H2); [split; [apply zlen_nonneg|done]|].
  assert (Hin : forall k, k ∈ xs -> is_Some (t !! k)) by (intros k; rewrite Hxs; apply elem_of_keys).
  destruct (load_entries_at b rnd ord d t xs (load_fuel r2) fresh r2 (enc_list (enc_table ord db) ds ++ rest))
    as (fresh1 & r3 & E3 & H3 & Hl3 & HI3 & Hfr & _); try done.
  - rewrite Hxs. apply keys_of_NoDup.
  - intros k. specialize (HI d). rewrite decide_True in HI by (by left). rewrite HI, lookup_empty.
    case_decide as Hk; [done|]. destruct (t !! k) eqn:Ek; [|constructor].
    exfalso. apply Hk. rewrite Hxs. by apply elem_of_keys.
  - unfold load_fuel. rewrite (at_buf _ _ _ H2). destruct H2 as [_ _ _ _ (pre & -> & _)].
    assert (length xs <= length (enc_list (enc_key ord d t) xs))%nat; [|rewrite !length_app; lia].
    clear -Hin. induction xs as [|x xs IH]; [simpl; lia|]. rewrite enc_list_cons, length_app. cbn [length].
    destruct (Hin x) as [e He]; [by left|]. unfold enc_key at 1. rewrite He. unfold enc_entry.
    rewrite length_app, le_bytes_length.
    assert (length xs <= length (enc_list (enc_key ord d t) xs))%nat; [|lia]. apply IH. intros k Hk. apply Hin. by right.
  - destruct (IH fresh1 r3 rest Ho Hst Hnd Hds) as (fresh2 & r4 & E4 & HI4); [|done|].
    { split; [done|]. intros i. specialize (HI i). destruct (decide (i = d)) as [->|Hne].
      - rewrite decide_False by done. intros k. specialize (HI3 k).
        by rewrite decide_False in HI3 by apply not_elem_of_nil.
      - rewrite Hfr by done. destruct (decide (i ∈ ds)).
        + by rewrite decide_True in HI by (by right).
        + by rewrite decide_False in HI by (rewrite elem_of_cons; naive_solver). }
    exists fresh2, r4. split; [|done]. cbn [length load_dbs]. unfold U8, U32_.
    rewrite E1, E2, (at_ok _ _ _ H2), (proj2 (Z.leb_gt _ _)) by lia. cbn [negb orb]. by rewrite E3.
Qed.

Lemma used_dbs_length db : zlen (used_dbs db) <= 16.
Proof. unfold zlen, used_dbs. pose proof (length_filter (fun i => table db i <> ∅) (seq 0 kNumDatabases)) as H.
  rewrite length_seq in H. unfold kNumDatabases in *. lia.
Qed.

Lemma used_dbs_start db : length (dbs_ db) = kNumDatabases -> dbs_loaded db new_database (used_dbs db).
Proof.
  intros Hl. split; [done|]. intros i. rewrite table_new.
  case_decide as Hi; [done|]. unfold used_dbs in Hi. rewrite list_elem_of_filter, elem_of_seq in Hi.
  assert (table db i = ∅) as ->; [|apply tables_equiv_empty].
  destruct (decide (i < kNumDatabases)%nat); [|apply table_out; lia].
  destruct (decide (table db i = ∅)); [done|]. exfalso. apply Hi. split; [done|lia].
Qed.

(** Loading what [Serialize] wrote. *)
Lemma load_serialized (ord ord' : Order) (rnd : Z -> nat -> Z) (db db0 : Database) :
  ord_ok ord -> storable db -> zlen (Serialize ord db) < U64 ->
  exists db', LoadFromFile ord' rnd (Serialize ord db) db0 = LOk db' /\
    dbs_loaded db db' [] /\ max_memory db' = max_memory db0.
Proof.
  intros Ho Hst Hlen. destruct (Serialize_app ord db Ho) as (body & Hbody & Hs). rewrite Hs in *.
  unfold LoadFromFile.
  assert (Hcrc : length (le_bytes 4 (Crc32 body)) = 4%nat) by apply le_bytes_length.
  assert (Hb12 : (12 <= length body)%nat) by (rewrite Hbody, !length_app, le_bytes_length; simpl; lia).
  rewrite (proj2 (Z.ltb_ge (zlen _) _)) by (unfold zlen, kMagicLen in *; rewrite length_app; lia).
  assert (take kMagicLen (body ++ le_bytes 4 (Crc32 body)) = kMagic) as ->.
  { rewrite Hbody, <- !app_assoc. apply (take_app_length' kMagic). done. }
  rewrite bool_decide_eq_true_2 by done. cbn [orb negb].
  assert ((length (body ++ le_bytes 4 (Crc32 body)) - 4)%nat = length body) as -> by (rewrite length_app; lia).
  rewrite take_app_length, drop_app_length, le_roundtrip, Z.eqb_refl by apply Crc32_u32. cbn [negb].
  set (data := body ++ le_bytes 4 (Crc32 body)) in *.
  assert (at_pos data (mkReader data (Z.of_nat kMagicLen) true)
            (le_bytes 1 (zlen (used_dbs db)) ++ enc_list (enc_table ord db) (used_dbs db) ++ le_bytes 4 (Crc32 body)))
    as H0.
  { split; simpl; try done. exists kMagic. split; [|done]. unfold data. by rewrite Hbody, <- !app_assoc. }
  destruct (read_le_at data 1 (zlen (used_dbs db)) _ _ H0) as (r1 & E1 & H1).
  { pose proof (used_dbs_length db). pose proof (zlen_nonneg (used_dbs db)). simpl. lia. }
  unfold U8. rewrite E1, (at_ok _ _ _ H1). cbn [negb]. unfold zlen at 1. rewrite Nat2Z.id.
  destruct (load_dbs_at data rnd ord db (used_dbs db) new_database r1 (le_bytes 4 (Crc32 body)))
    as (fresh & r2 & E2 & HI); try done.
  - apply NoDup_filter, NoDup_seq.
  - apply Forall_forall. intros i Hi. apply list_elem_of_filter in Hi as [_ Hi%elem_of_seq]. lia.
  - apply used_dbs_start, Hst.
  - rewrite E2. eexists. by split.
Qed.

(** C3: Save and load round trip.  Loading the bytes that [Serialize] produced
    gives a database with the same keys in every key space, the same expiry
    times, equal strings, hashes, lists and sets, and sorted sets with the same
    scores and the same ordered sequence; the memory cap of the running server
    is kept.  The iteration orders of the hash tables and the levels drawn for
    the new skip lists are arbitrary; names and containers are below 2^32. *)
Theorem save_load_roundtrip (ord ord' : Order) (rnd : Z -> nat -> Z) (db db0 : Database) :
  ord_ok ord -> storable db -> zlen (Serialize ord db) < U64 ->
  exists db', LoadFromFile ord' rnd (Serialize ord db) db0 = LOk db' /\
    (forall i k, option_Forall2 entry_equiv (table db i !! k) (table db' i !! k)) /\
    max_memory db' = max_memory db0.
Proof.
  intros Ho Hst Hlen. destruct (load_serialized ord ord' rnd db db0 Ho Hst Hlen) as (db' & E & [_ HI] & Hm).
  exists db'. split_and!; [done| |done]. intros i k. specialize (HI i).
  rewrite decide_False in HI by apply not_elem_of_nil. apply HI.
Qed.

(** *** A concrete snapshot *)

Lemma storable_new : storable new_database.
Proof.
  split; [done|]. intros i. rewrite table_new, map_size_empty. split; [lia|]. apply map_Forall_empty.
Qed.

Lemma storable_set i k v x db :
  storable db -> (i < kNumDatabases)%nat -> storable_entry k (mkEntry v x) ->
  Z.of_nat (size (table db i)) + 1 < 2 ^ 32 -> storable (Set_ i k v x db).
Proof.
  intros [Hl H] Hi He Hsz. split; [by rewrite Set_len|]. intros j. rewrite table_Set by done.
  destruct (H j) as [Hs Hf]. destruct (decide (j = i)) as [->|]; [|done]. split.
  - pose proof (map_size_insert k (mkEntry v x) (table db i)) as Hin.
    destruct (table db i !! k); unfold id in Hin; lia.
  - by apply map_Forall_insert_2.
Qed.

Definition sample_score : double := double_of_Z 2.

Definition sample_zset : ZSetValue :=
  match Insert (fun _ => 0) empty_list sample_score (lit "m") with
  | Some (_, l) => mkZSet l {[ lit "m" := sample_score ]}
  | None => mkZSet empty_list ∅
  end.

Lemma sample_zset_ok : zset_ok wf sample_zset [(sample_score, lit "m")].
Proof.
  destruct (zi_insert empty_list [] (sample_score, lit "m") (fun _ => 0)) as (l & E & W);
    [apply zi_empty|done|unfold zlen, U64; simpl; lia|].
  unfold sample_zset. change (fst (sample_score, lit "m")) with sample_score in E.
  change (snd (sample_score, lit "m")) with (lit "m") in E. rewrite E. split; [done|].
  simpl. by rewrite map_to_list_singleton.
Qed.

Lemma sample_zset_dict : dict sample_zset = {[ lit "m" := sample_score ]}.
Proof. by vm_compute. Qed.

Definition snapshot_until (x : Z) : Database :=
  Set_ 3 (lit "z") (ZSet sample_zset) x (Set_ 0 (lit "k") (RawString (lit "v")) 0 new_database).
Definition sample_snapshot : Database := snapshot_until 1000.

Lemma snapshot_storable x : LLONG_MIN <= x <= LLONG_MAX -> storable (snapshot_until x).
Proof.
  intros Hx. apply storable_set; [apply storable_set; [apply storable_new| | |]|..].
  - unfold kNumDatabases. lia.
  - unfold storable_entry. split_and!; by vm_compute.
  - by vm_compute.
  - unfold kNumDatabases. lia.
  - split; [by vm_compute|]. split; [done|].
    cbn [value storable_value]. rewrite sample_zset_dict, map_size_singleton. split; [by vm_compute|]. split.
    + apply map_Forall_singleton. split; by vm_compute.
    + eexists. apply sample_zset_ok.
  - by vm_compute.
Qed.

Lemma sample_storable : storable sample_snapshot.
Proof. by apply snapshot_storable. Qed.

Lemma save_load_roundtrip_witness :
  exists db', LoadFromFile (fun _ _ l => l) (fun _ _ => 0) (Serialize (fun _ _ l => l) sample_snapshot) new_database
      = LOk db' /\
    option_Forall2 entry_equiv (Some (mkEntry (ZSet sample_zset) 1000)) (table db' 3 !! lit "z").
Proof.
  destruct (save_load_roundtrip (fun _ _ l => l) (fun _ _ l => l) (fun _ _ => 0) sample_snapshot new_database)
    as (db' & E & H & _); [by intros ???|apply sample_storable|by vm_compute|].
  exists db'. split; [exact E|]. exact (H 3%nat (lit "z")).
Defined.

(** ** Corruption *)

Lemma le_val_inj l l' : length l = length l' -> le_val l = le_val l' -> l = l'.
Proof.
  revert l'. induction l as [|c l IH]; intros [|c' l'] Hlen He; try done. simpl in He.
  rewrite !lor_shift in He by apply byte_val_range.
  pose proof (byte_val_range c). pose proof (byte_val_range c').
  f_equal; [apply byte_val_inj; lia|]. apply IH; [by injection Hlen|lia].
Qed.

(** C18: A dump in which any single byte was changed does not load: whatever byte
    of a loadable file is replaced by another value (in the magic, the body or
    the checksum), [LoadFromFile] reports an error and the running database is
    not touched. *)
Theorem corrupt_byte_rejected (ord : Order) (rnd : Z -> nat -> Z) (data : bytes) (db db' : Database)
    (i : nat) (c c' : ascii) :
  LoadFromFile ord rnd data db = LOk db' -> data !! i = Some c -> c' <> c ->
  exists msg, LoadFromFile ord rnd (<[i := c']> data) db = LErr msg.
Proof.
  intros Hok Hi Hc. unfold LoadFromFile in *.
  destruct ((zlen data <? Z.of_nat kMagicLen + 5) || _) eqn:E1; [done|].
  destruct (Crc32 (take (length data - 4) data) =? _) eqn:E2; [|done]. clear Hok.
  apply orb_false_iff in E1 as [E1 _]. apply Z.ltb_ge in E1. apply Z.eqb_eq in E2.
  assert (zlen (<[i := c']> data) = zlen data) as Hz by (unfold zlen; by rewrite length_insert).
  rewrite Hz, (proj2 (Z.ltb_ge (zlen data) _)) by done. cbn [orb].
  case_bool_decide; [|eauto]. cbn [negb].
  rewrite length_insert. set (n := (length data - 4)%nat) in *.
  assert (Hn : (n <= length data)%nat) by lia. pose proof (lookup_lt_Some _ _ _ Hi) as Hilt.
  assert (Crc32 (take n (<[i := c']> data)) <> le_val (drop n (<[i := c']> data))) as Hne.
  { rewrite <- (take_drop n data) at 1 2. destruct (decide (i < n)%nat) as [Hlt|Hge].
    - rewrite insert_app_l by (rewrite length_take; lia).
      rewrite take_app_length', drop_app_length' by (rewrite length_insert, length_take; lia).
      rewrite <- E2. rewrite <- (lookup_take_lt data n i Hlt) in Hi.
      rewrite (insert_take_drop (take n data) i c') by (rewrite length_take; lia).
      pose proof (Crc32_one_byte (take i (take n data)) c' c (drop (S i) (take n data)) Hc) as Hd.
      by rewrite (take_drop_middle (take n data) i c Hi) in Hd.
    - rewrite insert_app_r_alt by (rewrite length_take; lia).
      rewrite take_app_length', drop_app_length' by (rewrite length_take; lia).
      rewrite E2. intros Heq. apply le_val_inj in Heq; [|by rewrite length_insert].
      apply (f_equal (fun l => l !! (i - length (take n data))%nat)) in Heq.
      rewrite list_lookup_insert_eq in Heq by (rewrite length_drop, length_take; lia).
      rewrite lookup_drop, length_take in Heq.
      replace (n + (i - n `min` length data))%nat with i in Heq by lia. congruence. }
  rewrite (proj2 (Z.eqb_neq _ _) Hne). cbn [negb]. eauto.
Qed.

Lemma corrupt_byte_rejected_witness :
  exists msg, LoadFromFile (fun _ _ l => l) (fun _ _ => 0)
    (<[20%nat := "x"%char]> (Serialize (fun _ _ l => l) sample_snapshot)) new_database = LErr msg.
Proof.
  eapply (corrupt_byte_rejected (fun _ _ l => l) (fun _ _ => 0) (Serialize (fun _ _ l => l) sample_snapshot)
            new_database _ 20 (ascii_of_nat 0) "x"); [by vm_compute|by vm_compute|done].
Defined.
