(* ===== verification/RdbFile.v ===== *)
(** * Snapshots: the files

    Models the file side of [src/src/rdb.cpp]: [SaveToFile], the child process
    that [BgSaveFork] starts, and what each leaves on disk.  The file system maps
    names to inodes and inodes to contents, so that a file that is truncated or
    renamed while another process has it open behaves as it does on a real
    system.  Every call can fail ([Io]); a child may be stopped after any number
    of bytes. *)

From S2P Require Import Prelude Bytes Double SkipList Db Rdb.
Local Open Scope Z_scope.

(** ** File system *)

Record FS := mkFS { names : gmap bytes nat; files : gmap nat bytes; next_inode : nat }.

Definition content (fs : FS) (path : bytes) : option bytes :=
  i ← names fs !! path; files fs !! i.

(** [std::ofstream f(path, binary | trunc)] *)
Definition open_trunc (path : bytes) (fs : FS) : nat * FS :=
  match names fs !! path with
  | Some i => (i, mkFS (names fs) (<[i := []]> (files fs)) (next_inode fs))
  | None =>
      let i := next_inode fs in
      (i, mkFS (<[path := i]> (names fs)) (<[i := []]> (files fs)) (S i))
  end.

(** Writing [chunk] at offset [off] of an open file; a hole reads as zeros. *)
Definition write_at (i off : nat) (chunk : bytes) (fs : FS) : FS :=
  let put (old : bytes) :=
    take off old ++ replicate (off - length old) (byte_of 0) ++ chunk ++ drop (off + length chunk) old in
  mkFS (names fs) (alter put i (files fs)) (next_inode fs).

Definition rename (from to : bytes) (fs : FS) : option FS :=
  i ← names fs !! from; Some (mkFS (<[to := i]> (delete from (names fs))) (files fs) (next_inode fs)).

Definition tmp_of (path : bytes) : bytes := path ++ lit ".tmp".

(** ** SaveToFile *)

(** How the system calls of a save go; the strings are [GetErrnoString()]. *)
Inductive Io :=
| IoOpenFails (errno : bytes)
| IoWriteFails (n : nat)
| IoRenameFails (errno : bytes)
| IoOk.

Record RdbState := mkRdb { fs : FS; g_last_save : Z }.

Definition last_save_time (st : RdbState) : Z := g_last_save st.
Definition set_last_save_time (t : Z) (st : RdbState) : RdbState := mkRdb (fs st) t.

(** The result is [inr] with the error text when the function returns false;
    [now] is [time(nullptr)]. *)
Definition SaveToFile (ord : Order) (path : bytes) (db : Database) (io : Io) (now : Z) (st : RdbState)
    : (unit + bytes) * RdbState :=
  let data := Serialize ord db in
  let tmp := tmp_of path in
  match io with
  | IoOpenFails e => (inr (lit "cannot open " ++ tmp ++ lit ": " ++ e), st)
  | _ =>
      let '(i, fs1) := open_trunc tmp (fs st) in
      match io with
      | IoWriteFails n =>
          (inr (lit "write failed on " ++ tmp), mkRdb (write_at i 0 (take n data) fs1) (g_last_save st))
      | _ =>
          let fs2 := write_at i 0 data fs1 in
          match io, rename tmp path fs2 with
          | IoRenameFails e, _ => (inr (lit "rename failed: " ++ e), mkRdb fs2 (g_last_save st))
          | _, None => (inr (lit "rename failed: "), mkRdb fs2 (g_last_save st))
          | _, Some fs3 => (inl tt, set_last_save_time now (mkRdb fs3 (g_last_save st)))
          end
      end
  end.

(** ** The child of BgSaveFork *)

Inductive Phase := POpen | PWrite (i off : nat) | PRename | PExit (code : Z).

Record Child := mkChild { c_path : bytes; c_data : bytes; c_phase : Phase }.

Definition with_phase (c : Child) (p : Phase) : Child := mkChild (c_path c) (c_data c) p.

Inductive child_step : FS * Child -> FS * Child -> Prop :=
| child_open_fails fs c :
    c_phase c = POpen -> child_step (fs, c) (fs, with_phase c (PExit 1))
| child_open fs c i fs' :
    c_phase c = POpen -> open_trunc (tmp_of (c_path c)) fs = (i, fs') ->
    child_step (fs, c) (fs', with_phase c (PWrite i 0))
| child_write fs c i off n :
    c_phase c = PWrite i off -> (off + n <= length (c_data c))%nat ->
    child_step (fs, c) (write_at i off (substr (c_data c) off n) fs, with_phase c (PWrite i (off + n)))
| child_write_fails fs c i off :
    c_phase c = PWrite i off -> child_step (fs, c) (fs, with_phase c (PExit 1))
| child_flushed fs c i off :
    c_phase c = PWrite i off -> off = length (c_data c) ->
    child_step (fs, c) (fs, with_phase c PRename)
| child_rename fs c fs' :
    c_phase c = PRename -> rename (tmp_of (c_path c)) (c_path c) fs = Some fs' ->
    child_step (fs, c) (fs', with_phase c (PExit 0))
| child_rename_fails fs c :
    c_phase c = PRename -> child_step (fs, c) (fs, with_phase c (PExit 1)).

(** Several children, interleaved. *)
Inductive children_step : FS * list Child -> FS * list Child -> Prop :=
| some_child fs fs' cs i c c' :
    cs !! i = Some c -> child_step (fs, c) (fs', c') ->
    children_step (fs, cs) (fs', <[i := c']> cs).

(** [BgSaveFork] in the parent: [pid] is what [fork] returned. *)
Definition BgSaveFork (ord : Order) (path : bytes) (db : Database) (pid : Z) (errno : bytes) (now : Z)
    (st : RdbState * list Child) : (Z + bytes) * (RdbState * list Child) :=
  let data := Serialize ord db in
  if pid <? 0 then (inr (lit "fork failed: " ++ errno), st)
  else (inl pid, (set_last_save_time now st.1, st.2 ++ [mkChild path data POpen])).

Definition FileExists (path : bytes) (fs : FS) : bool :=
  match content fs path with Some _ => true | None => false end.

(** [LoadFromFile] with the file system; a file that opens is read whole. *)
Definition LoadPath (ord : Order) (rnd : Z -> nat -> Z) (path : bytes) (fs : FS) (db : Database)
    : LoadStep Database :=
  match content fs path with
  | None => LErr (lit "cannot open " ++ path)
  | Some data => LoadFromFile ord rnd data db
  end.

(** ** One save at a time is atomic *)

(** Every name has its own inode, below the next one. *)
Definition fs_ok (fs : FS) : Prop :=
  (forall p q i, names fs !! p = Some i -> names fs !! q = Some i -> p = q) /\
  (forall p i, names fs !! p = Some i -> (i < next_inode fs)%nat).

Lemma tmp_ne path : tmp_of path <> path.
Proof.
  unfold tmp_of. intros H. apply (f_equal length) in H. rewrite length_app in H. simpl in H. lia.
Qed.

(** The temporary file of the child holds what it has written; the target is
    still the old file. *)
Definition child_inv (fs0 : FS) (path data : bytes) (s : FS * Child) : Prop :=
  c_path s.2 = path /\ c_data s.2 = data /\
  match c_phase s.2 with
  | POpen => s.1 = fs0
  | PWrite i off =>
      (off <= length data)%nat /\ content s.1 path = content fs0 path /\
      names s.1 !! tmp_of path = Some i /\ names s.1 !! path <> Some i /\ files s.1 !! i = Some (take off data)
  | PRename =>
      content s.1 path = content fs0 path /\ content s.1 (tmp_of path) = Some data
  | PExit code =>
      if code =? 0 then content s.1 path = Some data
      else content s.1 path = content fs0 path
  end.

Lemma child_inv_step fs0 path data s s' :
  fs_ok fs0 -> child_inv fs0 path data s -> child_step s s' -> child_inv fs0 path data s'.
Proof.
  intros [Hinj Hlt] (Hp & Hd & HI) Hs.
  destruct Hs as [fs c Hph|fs c i fs' Hph Ho|fs c i off n Hph Hn|fs c i off Hph|fs c i off Hph Hoff|fs c fs' Hph Hr|fs c Hph];
    simpl in *; subst; rewrite Hph in HI; (split; [done|]; split; [done|]); simpl.
  - by subst.
  - subst fs. unfold open_trunc in Ho. set (path := c_path c) in *.
    destruct (names fs0 !! tmp_of path) as [j|] eqn:E; simplify_eq; simpl.
    + assert (names fs0 !! path <> Some i) as Hne by (intros E2; apply (tmp_ne path); by eapply Hinj).
      split_and!; [lia| |done|done|by rewrite lookup_insert_eq].
      unfold content. simpl. destruct (names fs0 !! path) as [p|]; [|done]. simpl.
      rewrite lookup_insert_ne; [done|]. congruence.
    + assert (<[tmp_of path := next_inode fs0]> (names fs0) !! path = names fs0 !! path) as Hpn
        by (apply lookup_insert_ne, tmp_ne).
      rewrite Hpn.
      assert (names fs0 !! path <> Some (next_inode fs0)) as Hne by (intros E2; apply Hlt in E2; lia).
      split_and!; [lia| |by rewrite lookup_insert_eq|done|by rewrite lookup_insert_eq].
      unfold content. simpl. rewrite Hpn.
      destruct (names fs0 !! path) as [p|]; [|done]. simpl. rewrite lookup_insert_ne; [done|]. congruence.
  - destruct HI as (Hle & Hc & Ht & Hne & Hf). split_and!; [lia| |done|done|].
    + rewrite <- Hc. unfold content, write_at. simpl. destruct (names fs !! c_path c) as [p|]; [|done]. simpl.
      rewrite lookup_alter_ne; [done|]. congruence.
    + rewrite lookup_alter_eq, Hf. simpl. f_equal. unfold substr. rewrite length_take.
      replace (off - off `min` length (c_data c))%nat with 0%nat by lia. simpl.
      rewrite take_take, Nat.min_id, (drop_ge (take off (c_data c))), app_nil_r by (rewrite length_take; lia).
      by rewrite take_take_drop.
  - by destruct HI as (_ & ? & _).
  - destruct HI as (Hle & Hc & Ht & Hne & Hf). split; [done|]. unfold content. rewrite Ht. simpl.
    rewrite Hf. by rewrite firstn_all.
  - destruct HI as [Hc Ht]. unfold rename in Hr. destruct (names fs !! tmp_of (c_path c)) as [i|] eqn:E; [|done].
    simpl in Hr. injection Hr as <-. unfold content in *. simpl. rewrite E in Ht. by rewrite lookup_insert_eq.
  - by destruct HI.
Qed.


Definition one_file (path old : bytes) : FS := mkFS {[ path := 0%nat ]} {[ 0%nat := old ]} 1.

Lemma one_file_ok path old : fs_ok (one_file path old).
Proof.
  split; simpl.
  - intros p q i Hp Hq. apply lookup_singleton_Some in Hp as [<- _]. by apply lookup_singleton_Some in Hq as [<- _].
  - intros p i Hp. apply lookup_singleton_Some in Hp as [_ <-]. lia.
Qed.


(** ** SAVE leaves the same files as an uninterrupted child *)

Lemma write_whole i data fs :
  files fs !! i = Some [] -> files (write_at i 0 data fs) !! i = Some data.
Proof.
  intros Hf. unfold write_at. simpl. rewrite lookup_alter_eq, Hf. simpl. by rewrite drop_nil, app_nil_r.
Qed.

(** C30: SAVE replaces the dump file by the new snapshot when it succeeds and
    leaves the old dump file in place when it reports an error, whichever system
    call failed; the time of the last save changes only on success. *)
Theorem save_outcome (ord : Order) (path : bytes) (db : Database) (io : Io) (now : Z) (st : RdbState) :
  fs_ok (fs st) ->
  let '(r, st') := SaveToFile ord path db io now st in
  match r with
  | inl _ => content (fs st') path = Some (Serialize ord db) /\ last_save_time st' = now
  | inr _ => content (fs st') path = content (fs st) path /\ last_save_time st' = last_save_time st
  end.
Proof.
  intros Hok. unfold SaveToFile. set (data := Serialize ord db).
  destruct (open_trunc (tmp_of path) (fs st)) as [i fs1] eqn:Eo.
  pose proof (child_inv_step (fs st) path data (fs st, mkChild path data POpen) (fs1, mkChild path data (PWrite i 0))
    Hok ltac:(done) (child_open (fs st) (mkChild path data POpen) i fs1 eq_refl Eo)) as (_ & _ & H1).
  simpl in H1. destruct H1 as (_ & Hc & Ht & Hne & Hf).
  assert (Hkeep : forall d, content (write_at i 0 d fs1) path = content (fs st) path).
  { intros d. rewrite <- Hc. unfold content, write_at. simpl. destruct (names fs1 !! path); [|done]. simpl.
    rewrite lookup_alter_ne; [done|]. congruence. }
  destruct io as [e|m|e|]; [done|by split; [apply Hkeep|]|by split; [apply Hkeep|]|].
  unfold rename. change (names (write_at i 0 data fs1)) with (names fs1). rewrite Ht. simpl.
  split; [|done]. unfold content. simpl. rewrite lookup_insert_eq. simpl. by apply (write_whole i data fs1).
Qed.

Lemma save_outcome_witness :
  content (fs (SaveToFile (fun _ _ l => l) (lit "d") new_database IoOk 7
                 (mkRdb (one_file (lit "d") (lit "old")) 0)).2) (lit "d")
  = Some (Serialize (fun _ _ l => l) new_database).
Proof.
  pose proof (save_outcome (fun _ _ l => l) (lit "d") new_database IoOk 7
    (mkRdb (one_file (lit "d") (lit "old")) 0) (one_file_ok _ _)) as H.
  simpl in H. apply H.
Defined.

(** C35: Two background saves at once can destroy the dump: they share one
    temporary file, so when the second child opens it after the first has
    written it and before the first renames it, the dump file becomes empty,
    although neither child failed; a server started then cannot load it. *)
Theorem concurrent_bgsave_corrupts (ord : Order) (rnd : Z -> nat -> Z) (db : Database)
    (path old d1 d2 : bytes) :
  exists fs cs,
    rtc children_step (one_file path old, [mkChild path d1 POpen; mkChild path d2 POpen]) (fs, cs) /\
    content fs path = Some [] /\
    LoadPath ord rnd path fs db = LErr (lit "bad magic (not a TINYREDIS dump)").
Proof.
  set (c1 := mkChild path d1). set (c2 := mkChild path d2).
  set (nm := <[tmp_of path := 1%nat]> ({[ path := 0%nat ]} : gmap bytes nat)).
  set (fs1 := mkFS nm (<[1%nat := []]> {[ 0%nat := old ]}) 2).
  assert (open_trunc (tmp_of path) (one_file path old) = (1%nat, fs1)) as E1.
  { unfold open_trunc, one_file. simpl. by rewrite lookup_singleton_ne by (apply not_eq_sym, tmp_ne). }
  assert (Ht : nm !! tmp_of path = Some 1%nat) by apply lookup_insert_eq.
  set (fs2 := write_at 1 0 (substr d1 0 (length d1)) fs1).
  set (fs3 := mkFS nm (<[1%nat := []]> (files fs2)) 2).
  set (fs4 := mkFS (<[path := 1%nat]> (delete (tmp_of path) nm)) (files fs3) 2).
  exists fs4, [c1 (PExit 0); c2 (PWrite 1 0)].
  assert (content fs4 path = Some []) as Hcont.
  { unfold content. simpl. rewrite lookup_insert_eq. simpl. by rewrite lookup_insert_eq. }
  split_and!; [|done|by unfold LoadPath; rewrite Hcont].
  eapply rtc_l; [apply (some_child (one_file path old) fs1 _ 0 (c1 POpen) (c1 (PWrite 1 0)));
    [done|by apply (child_open (one_file path old) (c1 POpen) 1 fs1)]|].
  eapply rtc_l; [apply (some_child fs1 fs2 _ 0 (c1 (PWrite 1 0)) (c1 (PWrite 1 (0 + length d1))));
    [done|by apply (child_write fs1 (c1 (PWrite 1 0)) 1 0 (length d1))]|].
  eapply rtc_l; [apply (some_child fs2 fs2 _ 0 (c1 (PWrite 1 (0 + length d1))) (c1 PRename));
    [done|by apply (child_flushed fs2 (c1 (PWrite 1 (0 + length d1))) 1 (0 + length d1))]|].
  eapply rtc_l; [apply (some_child fs2 fs3 _ 1 (c2 POpen) (c2 (PWrite 1 0)));
    [done|apply (child_open fs2 (c2 POpen) 1 fs3); [done|]]|].
  { unfold open_trunc. simpl. by rewrite Ht. }
  eapply rtc_l; [apply (some_child fs3 fs4 _ 0 (c1 PRename) (c1 (PExit 0)));
    [done|apply (child_rename fs3 (c1 PRename) fs4); [done|]]|].
  { unfold rename. simpl. by rewrite Ht. }
  apply rtc_refl.
Qed.
