(* ===== verification/RdbTotal.v ===== *)
(** * Snapshots: any file

    The loader meets every file with an answer: whatever bytes the file holds, it
    stops, stays inside the buffer and follows only sound links, and either loads
    a database or reports an error. *)

From S2P Require Import Prelude Bytes Double SkipList SkipListInv SkipListAny Db DbProofs DbRefine Rdb RdbCodec RdbProofs RdbFile.
Local Open Scope Z_scope.

(** The reader stays in its buffer. *)
Definition inside (b : bytes) (r : Reader) : Prop := rbuf r = b /\ 0 <= rpos r <= zlen b.

(** A read that succeeded took at least [n] bytes of it. *)
Definition took (n : Z) (r r' : Reader) : Prop := rok r' = true -> rok r = true /\ rpos r + n <= rpos r'.

Lemma took_trans m n r1 r2 r3 : took m r1 r2 -> took n r2 r3 -> took (m + n) r1 r3.
Proof. intros H1 H2 Hok. destruct (H2 Hok) as [H2' ?]. destruct (H1 H2'). split; [done|lia]. Qed.
Lemma took_le m n r r' : n <= m -> took m r r' -> took n r r'.
Proof. intros Hn H Hok. destruct (H Hok). split; [done|lia]. Qed.

Lemma le_val_range l : 0 <= le_val l < 256 ^ Z.of_nat (length l).
Proof.
  induction l as [|c l IH]; [done|]. cbn [le_val length]. pose proof (byte_val_range c).
  rewrite Nat2Z.inj_succ, Z.pow_succ_r by lia.
  rewrite lor_shift by done. lia.
Qed.

Section total.
Context (b : bytes) (Hb : zlen b <= LLONG_MAX).

Lemma Need_inside n r : inside b r -> 0 <= n < 2 ^ 32 ->
  (Need n r).2 = mkReader (rbuf r) (rpos r) (Need n r).1 /\ inside b (Need n r).2 /\
  ((Need n r).1 = true -> rok r = true /\ rpos r + n <= zlen b).
Proof.
  intros [Hr Hp] Hn. unfold Need. rewrite u64_small by (unfold U64, LLONG_MAX in *; lia). rewrite Hr.
  destruct (rok r) eqn:E; cbn [negb orb]; [|by split_and!].
  destruct (Z.gtb_spec (rpos r + n) (zlen b)); cbn [fst snd]; [by split_and!|].
  split_and!; try done. destruct r. cbn in *. by subst.
Qed.

(** A primitive read: [advance] when there are enough bytes. *)
Lemma read_inside n r :
  inside b r -> 0 <= n < 2 ^ 32 ->
  let r' := if (Need n r).1 then advance n (Need n r).2 else (Need n r).2 in inside b r' /\ took n r r'.
Proof.
  intros Hr Hn. destruct (Need_inside n r Hr Hn) as (E & Hi & Hok). destruct (Need n r) as [ok r1]. cbn [fst snd] in *.
  subst r1. destruct Hi as [Hb1 Hp1]. cbn [rbuf rpos] in *. destruct ok; cbn.
  - destruct (Hok eq_refl) as [Hr0 Hle]. split; [split; cbn; [done|lia]|]. intros _. split; [done|cbn; lia].
  - split; [by split|]. intros [=].
Qed.

Lemma read_le_inside n r v r' :
  (n <= 8)%nat -> inside b r -> read_le n r = (v, r') ->
  inside b r' /\ took (Z.of_nat n) r r' /\ 0 <= v < 256 ^ Z.of_nat n.
Proof.
  intros Hn Hr. unfold read_le. pose proof (read_inside (Z.of_nat n) r Hr ltac:(lia)) as H.
  assert (0 <= 0 < 256 ^ Z.of_nat n) by (split; [lia|apply Z.pow_pos_nonneg; lia]).
  destruct (Need (Z.of_nat n) r) as [[] r1]; intros [= <- <-]; destruct H as [H1 H2]; (split_and!; [done|done|..]); try lia.
  - apply le_val_range.
  - eapply Z.lt_le_trans; [apply le_val_range|]. apply Z.pow_le_mono_r; [lia|].
    unfold substr. rewrite length_take. lia.
Qed.

Lemma Bytes_inside n r v r' : inside b r -> 0 <= n < 2 ^ 32 -> Bytes_ n r = (v, r') -> inside b r' /\ took n r r'.
Proof.
  intros Hr Hn. unfold Bytes_. pose proof (read_inside n r Hr Hn) as H.
  by destruct (Need n r) as [[] r1]; intros [= <- <-].
Qed.

Lemma F64_inside r v r' : inside b r -> F64 r = (v, r') -> inside b r' /\ took 8 r r'.
Proof.
  intros Hr. unfold F64. pose proof (read_inside 8 r Hr ltac:(lia)) as H.
  by destruct (Need 8 r) as [[] r1]; intros [= <- <-].
Qed.

Lemma read_string_inside r v r' : inside b r -> read_string r = (v, r') -> inside b r' /\ took 4 r r'.
Proof.
  intros Hr. unfold read_string, U32_. destruct (read_le 4 r) as [n r1] eqn:E1. intros E2.
  destruct (read_le_inside 4 r n r1 ltac:(lia) Hr E1) as (H1 & T1 & Hn).
  destruct (Bytes_inside n r1 v r' H1 Hn E2) as [H2 T2]. split; [done|].
  eapply took_le; [|by eapply took_trans]. lia.
Qed.

(** ** The loops *)

(** An item that takes at least four bytes when it succeeds and keeps [I]. *)
Definition steady {A} (I : Z -> A -> Prop) (item : Reader -> A -> option (A * Reader)) : Prop :=
  forall r acc j, inside b r -> I j acc -> 0 <= j < 2 ^ 32 ->
  exists acc' r', item r acc = Some (acc', r') /\ inside b r' /\ took 4 r r' /\ I (j + 1) acc'.

Lemma load_items_total {A} (I : Z -> A -> Prop) item fuel : forall n j r acc,
  steady I item -> inside b r -> I j acc -> 0 <= j -> 0 <= n -> j + n <= 2 ^ 32 ->
  (rok r = true -> zlen b - rpos r < Z.of_nat fuel) ->
  exists acc' r', load_items item fuel n r acc = Some (acc', r') /\ inside b r' /\ took 0 r r'.
Proof.
  induction fuel as [|f IH]; intros n j r acc Hs Hr HI Hj Hn Hjn Hf; cbn [load_items];
    (destruct (Z.ltb_spec 0 n); cbn [andb]; [|exists acc, r; split_and!; try done; intros ?; split; [done|lia]]);
    (destruct (rok r) eqn:Eok; [|exists acc, r; split_and!; try done; intros ?; congruence]).
  { specialize (Hf eq_refl). destruct Hr. lia. }
  destruct (Hs r acc j Hr HI ltac:(lia)) as (acc1 & r1 & -> & Hr1 & T1 & HI1). simpl.
  destruct (IH (n - 1) (j + 1) r1 acc1 Hs Hr1 HI1) as (acc2 & r2 & E2 & Hr2 & T2); try lia.
  { intros Hok. destruct (T1 Hok). specialize (Hf eq_refl). lia. }
  exists acc2, r2. split_and!; try done. eapply took_le; [|by eapply took_trans]. lia.
Qed.

Lemma hash_steady : steady (fun _ _ => True) hash_item.
Proof.
  intros r h j Hr _ _. unfold hash_item. destruct (read_string r) as [k r1] eqn:E1, (read_string r1) as [v r2] eqn:E2.
  destruct (read_string_inside _ _ _ Hr E1) as [H1 T1]. destruct (read_string_inside _ _ _ H1 E2) as [H2 T2].
  do 2 eexists. split_and!; [done|done| |done]. eapply took_le; [|by eapply took_trans]. lia.
Qed.

Lemma list_steady : steady (fun _ _ => True) list_item.
Proof.
  intros r l j Hr _ _. unfold list_item. destruct (read_string r) as [s r1] eqn:E1.
  destruct (read_string_inside _ _ _ Hr E1). do 2 eexists. by split_and!.
Qed.

Lemma set_steady : steady (fun _ _ => True) set_item.
Proof.
  intros r l j Hr _ _. unfold set_item. destruct (read_string r) as [s r1] eqn:E1.
  destruct (read_string_inside _ _ _ Hr E1). do 2 eexists. by split_and!.
Qed.

(** Scores are arbitrary, so only the links of the skip list are known to be sound. *)
Definition zset_solid (j : Z) (z : ZSetValue) : Prop := exists n, solid (sl z) n /\ 0 <= n <= j.

Lemma zset_steady rnd : steady zset_solid (zset_item rnd).
Proof.
  intros r z j Hr (n & Hs & Hn) Hj. unfold zset_item.
  destruct (read_string r) as [m r1] eqn:E1, (F64 r1) as [sc r2] eqn:E2.
  destruct (read_string_inside _ _ _ Hr E1) as [H1 T1]. destruct (F64_inside _ _ _ H1 E2) as [H2 T2].
  destruct (Insert_solid (rnd (rpos r2)) (sl z) n sc m Hs) as (ins & sl' & n' & -> & Hs' & Hn'); [unfold U64; lia|].
  simpl. do 2 eexists. split_and!; [done|done| |exists n'; split; [done|lia]].
  eapply took_le; [|by eapply took_trans]. lia.
Qed.

(** ** Values, entries and databases *)

Definition solid_value (v : Value) : Prop := match v with ZSet z => exists n, solid (sl z) n | _ => True end.

Lemma fuel_enough r : inside b r -> zlen b - rpos r < Z.of_nat (load_fuel r).
Proof. intros [Hr Hp]. unfold load_fuel. rewrite Hr. unfold zlen in *. lia. Qed.

Lemma counted_total {A} (I : Z -> A -> Prop) item (init : A) r :
  steady I item -> I 0 init -> inside b r ->
  exists a r', (let '(n, r1) := U32_ r in load_items item (load_fuel r1) n r1 init) = Some (a, r') /\
    inside b r' /\ took 0 r r'.
Proof.
  intros Hs HI Hr. unfold U32_. destruct (read_le 4 r) as [n r1] eqn:E1.
  destruct (read_le_inside 4 r n r1 ltac:(lia) Hr E1) as (H1 & T1 & Hn).
  destruct (load_items_total I item (load_fuel r1) n 0 r1 init) as (a & r2 & E2 & H2 & T2); try done; try lia.
  { intros _. by apply fuel_enough. }
  exists a, r2. split_and!; [done|done|]. eapply took_le; [|by eapply took_trans]. lia.
Qed.

Lemma zset_loaded_solid rnd fuel : forall n j r z z' r',
  inside b r -> zset_solid j z -> 0 <= j -> j + n <= 2 ^ 32 ->
  load_items (zset_item rnd) fuel n r z = Some (z', r') -> exists m, solid (sl z') m.
Proof.
  induction fuel as [|f IH]; intros n j r z z' r' Hr Hz Hj Hn; cbn [load_items].
  all: destruct (Z.ltb_spec 0 n); cbn [andb]; [|intros [= -> <-]; destruct Hz as (m & ? & _); by exists m].
  all: destruct (rok r); [|intros [= -> <-]; destruct Hz as (m & ? & _); by exists m].
  { done. }
  destruct (zset_steady rnd r z j Hr Hz ltac:(lia)) as (z1 & r1 & -> & H1 & _ & Hz1). simpl.
  apply (IH (n - 1) (j + 1)); [done|done|lia|lia].
Qed.

Lemma load_value_total rnd type r :
  inside b r ->
  (exists v r', load_value rnd type r = LOk (v, r') /\ inside b r' /\ took 0 r r' /\ solid_value v) \/
  (exists m, load_value rnd type r = LErr m).
Proof.
  intros Hr. unfold load_value. destruct (type =? 0); [|destruct (type =? 1); [|destruct (type =? 2); [|destruct (type =? 3); [|destruct (type =? 4)]]]].
  - destruct (read_string r) as [s r1] eqn:E1. destruct (read_string_inside _ _ _ Hr E1) as [H1 T1].
    left. do 2 eexists. split_and!; [done|done| |done]. eapply took_le; [|done]. lia.
  - left. destruct (counted_total _ _ (∅ : gmap bytes bytes) r hash_steady I Hr) as (a & r' & E & H' & T').
    destruct (U32_ r) as [n r1]. rewrite E. do 2 eexists. by split_and!.
  - left. destruct (counted_total _ _ ([] : list bytes) r list_steady I Hr) as (a & r' & E & H' & T').
    destruct (U32_ r) as [n r1]. rewrite E. do 2 eexists. by split_and!.
  - left. destruct (counted_total _ _ (∅ : gset bytes) r set_steady I Hr) as (a & r' & E & H' & T').
    destruct (U32_ r) as [n r1]. rewrite E. do 2 eexists. by split_and!.
  - left. set (z0 := mkZSet empty_list ∅).
    assert (zset_solid 0 z0) as Hz0 by (exists 0; split; [apply empty_solid|lia]).
    destruct (counted_total _ _ z0 r (zset_steady rnd) Hz0 Hr) as (a & r' & E & H' & T').
    unfold U32_ in *. destruct (read_le 4 r) as [n r1] eqn:E1. rewrite E. do 2 eexists. split_and!; [done|done|done|].
    destruct (read_le_inside 4 r n r1 ltac:(lia) Hr E1) as (Hr1 & _ & Hn).
    cbn [solid_value]. eapply (zset_loaded_solid rnd _ n 0); [exact Hr1|exact Hz0|lia|lia|exact E].
  - right. by eexists.
Qed.

Definition solid_db (db : Database) : Prop :=
  length (dbs_ db) = kNumDatabases /\ forall i k e, table db i !! k = Some e -> solid_value (value e).

Lemma load_entry_total rnd idx r fresh :
  0 <= idx < Z.of_nat kNumDatabases -> inside b r -> solid_db fresh ->
  (exists fresh' r', load_entry rnd idx r fresh = LOk (fresh', r') /\ inside b r' /\ rok r' = true /\
     rpos r + 1 <= rpos r' /\ solid_db fresh') \/
  (exists m, load_entry rnd idx r fresh = LErr m).
Proof.
  intros Hi Hr [Hl Hf]. unfold load_entry, U8, U32_, U64_.
  destruct (read_le 1 r) as [type r1] eqn:E1. destruct (read_le_inside 1 _ _ _ ltac:(lia) Hr E1) as (H1 & T1 & _).
  destruct (read_le 4 r1) as [klen r2] eqn:E2. destruct (read_le_inside 4 _ _ _ ltac:(lia) H1 E2) as (H2 & T2 & Hk).
  destruct (Bytes_ klen r2) as [k r3] eqn:E3. destruct (Bytes_inside _ _ _ _ H2 Hk E3) as (H3 & T3).
  destruct (read_le 8 r3) as [x r4] eqn:E4. destruct (read_le_inside 8 _ _ _ ltac:(lia) H3 E4) as (H4 & T4 & _).
  destruct (rok r4) eqn:E; cbn [negb]; [|right; by eexists].
  destruct (load_value_total rnd type r4 H4) as [(v & r5 & -> & H5 & T5 & Hv)|[m ->]]; [|right; by eexists].
  destruct (rok r5) eqn:E'; cbn [negb]; [|right; by eexists].
  left. do 2 eexists. split_and!; [done|done|done| |split].
  - destruct (T5 E') as [_ ?]. destruct (T4 E) as [E3' ?]. destruct (T3 E3') as [E2' ?]. destruct (T2 E2') as [E1' ?].
    destruct (T1 E1'). lia.
  - by rewrite Set_len.
  - intros i k' e. rewrite table_Set by (done || lia). case_decide; [|apply Hf].
    intros [[_ <-]|[_ He]]%lookup_insert_Some; [done|by eapply Hf].
Qed.

Lemma load_entries_total rnd fuel : forall idx n r fresh,
  0 <= idx < Z.of_nat kNumDatabases -> inside b r -> solid_db fresh -> zlen b - rpos r < Z.of_nat fuel ->
  (exists fresh' r', load_entries rnd fuel idx n r fresh = LOk (fresh', r') /\ inside b r' /\ solid_db fresh') \/
  (exists m, load_entries rnd fuel idx n r fresh = LErr m).
Proof.
  induction fuel as [|f IH]; intros idx n r fresh Hi Hr Hf Hfuel; cbn [load_entries]; [destruct Hr; lia|].
  destruct (Z.ltb_spec 0 n); [|left; by do 2 eexists].
  destruct (load_entry_total rnd idx r fresh Hi Hr Hf) as [(f1 & r1 & -> & H1 & _ & Hp & Hf1)|[m ->]]; [|right; by eexists].
  apply IH; [done|done|done|lia].
Qed.

Lemma load_dbs_total rnd ndbs : forall r fresh,
  inside b r -> solid_db fresh ->
  (exists fresh' r', load_dbs rnd ndbs r fresh = LOk (fresh', r') /\ solid_db fresh') \/
  (exists m, load_dbs rnd ndbs r fresh = LErr m).
Proof.
  induction ndbs as [|n IH]; intros r fresh Hr Hf; cbn [load_dbs]; [left; by do 2 eexists|]. unfold U8, U32_.
  destruct (read_le 1 r) as [idx r1] eqn:E1. destruct (read_le_inside 1 _ _ _ ltac:(lia) Hr E1) as (H1 & _ & Hidx).
  destruct (read_le 4 r1) as [cnt r2] eqn:E2. destruct (read_le_inside 4 _ _ _ ltac:(lia) H1 E2) as (H2 & _ & _).
  destruct (rok r2); cbn [negb orb]; [|right; by eexists].
  destruct (Z.leb_spec (Z.of_nat kNumDatabases) idx); [right; by eexists|].
  destruct (load_entries_total rnd (load_fuel r2) idx cnt r2 fresh ltac:(lia) H2 Hf (fuel_enough r2 H2))
    as [(f1 & r3 & -> & H3 & Hf1)|[m ->]]; [|right; by eexists].
  by apply IH.
Qed.
End total.

Lemma new_solid : solid_db new_database.
Proof. split; [done|]. intros i k e. by rewrite table_new, lookup_empty. Qed.


(** The hostile file of the example: two members with NaN scores. *)
Definition nan_body : bytes :=
  kMagic ++ le_bytes 1 1 ++ le_bytes 1 0 ++ le_bytes 4 1 ++ le_bytes 1 4 ++ enc_string (lit "z") ++ le_bytes 8 0 ++
  le_bytes 4 2 ++ enc_string (lit "m") ++ le_bytes 8 9221120237041090560 ++ enc_string (lit "m") ++ le_bytes 8 9221120237041090560.
Definition nan_file : bytes := nan_body ++ le_bytes 4 (Crc32 nan_body).

Definition loads (data : bytes) : bool :=
  match LoadFromFile (fun _ _ l => l) (fun _ _ => 0) data new_database with LOk _ => true | _ => false end.

