(* ===== verification/ZsetProofs.v ===== *)
(** * Sorted sets: the dictionary and the skip list agree

    [zset_ok] says that the skip list holds exactly the pairs of the dictionary.
    The lemmas show that each combined update of the sorted set commands keeps
    it, against the interface [ZIndex]. *)

From S2P Require Import Prelude Bytes Double SkipList SkipListInv SkipListProofs SkipListQueries SkipListRefine.
From S2P Require Import Db RdbProofs.
Local Open Scope Z_scope.

Section zset.
Context (abs : SkipList -> list key -> Prop) `{!ZIndex abs}.
Implicit Types (z : ZSetValue) (ks : list key) (m : bytes) (d : double).

Lemma zset_lookup z ks m d : zset_ok abs z ks -> dict z !! m = Some d <-> (d, m) ∈ ks.
Proof.
  intros [_ P]. rewrite <- elem_of_map_to_list, <- P, list_elem_of_fmap. split.
  - intros ([d' m'] & E & H). simpl in E. by injection E as -> ->.
  - intros H. by exists (d, m).
Qed.

Lemma zset_missing z ks m : zset_ok abs z ks -> dict z !! m = None <-> m ∉ ks.*2.
Proof.
  intros Hz. rewrite eq_None_not_Some. split; intros H1 H2; apply H1.
  - apply list_elem_of_fmap in H2 as ([d m'] & -> & H2). exists d. by apply (zset_lookup z ks).
  - destruct H2 as [d H2]. apply list_elem_of_fmap. exists (d, m). split; [done|]. by apply (zset_lookup z ks).
Qed.

Lemma zset_members_nodup z ks : zset_ok abs z ks -> NoDup ks.*2.
Proof.
  intros [_ P]. assert (ks.*2 = ((fun k : key => (k.2, k.1)) <$> ks).*1) as ->.
  { rewrite <- list_fmap_compose. by apply list_fmap_ext. }
  rewrite P. apply NoDup_fst_map_to_list.
Qed.

Lemma zset_num z ks m d : zset_ok abs z ks -> dict z !! m = Some d -> isnan d = false.
Proof.
  intros Hz H. apply (zset_lookup z ks) in H; [|done]. destruct Hz as [A _].
  pose proof (zi_num _ _ A) as Hn. rewrite Forall_forall in Hn. by apply (Hn _ H).
Qed.

Lemma zset_length z ks : zset_ok abs z ks -> zlen ks = Z.of_nat (size (dict z)).
Proof.
  intros [_ P]. unfold zlen. rewrite <- length_map_to_list, <- P. by rewrite length_fmap.
Qed.

Lemma same_member_once k x ks :
  NoDup ks.*2 -> k ∈ ks -> x ∈ ks -> same_key k x = true -> x = k.
Proof.
  unfold same_key, KeyEqual. intros Hn Hk Hx [_ E]%andb_true_iff. apply bool_decide_eq_true in E.
  apply list_elem_of_lookup in Hk as [i Hi]. apply list_elem_of_lookup in Hx as [j Hj].
  assert (i = j) as ->; [|congruence].
  apply (NoDup_lookup _ _ _ k.2 Hn); rewrite list_lookup_fmap; [by rewrite Hi|by rewrite Hj, <- E].
Qed.

(** Erasing a stored key removes that key and nothing else. *)
Lemma ref_erase_perm k ks :
  NoDup ks.*2 -> Forall num ks -> k ∈ ks -> ks ≡ₚ k :: ref_erase k ks.
Proof.
  intros Hn Hnum Hk. apply list_elem_of_split in Hk as (l1 & l2 & ->).
  rewrite Forall_app, Forall_cons in Hnum. destruct Hnum as (_ & Hkn & _).
  assert (Self : same_key k k = true) by by apply key_eq_refl.
  assert (Keep : forall l, (forall x, x ∈ l -> x ∈ l1 ++ k :: l2 /\ x <> k) -> ref_erase k l = l).
  { induction l as [|x l IH]; intros H; [done|]. unfold ref_erase. cbn [List.filter].
    destruct (same_key k x) eqn:E.
    - destruct (H x) as [Hx Hne]; [by left|].
      by apply (same_member_once k x (l1 ++ k :: l2)) in E; [|done|set_solver|done].
    - cbn [negb]. f_equal. apply IH. intros y Hy. apply H. by right. }
  assert (Hd : forall x, x ∈ l1 \/ x ∈ l2 -> x <> k).
  { rewrite fmap_app, fmap_cons in Hn. apply NoDup_app in Hn as (_ & Hd & H2).
    apply NoDup_cons in H2 as [H2 _].
    intros x Hx ->. destruct Hx as [Hx|Hx]; apply (list_elem_of_fmap_2 snd) in Hx; [|done].
    apply (Hd _ Hx). by left. }
  assert (ref_erase k (l1 ++ k :: l2) = l1 ++ l2) as ->; [|by rewrite Permutation_middle].
  unfold ref_erase in *. rewrite List.filter_app. cbn [List.filter]. rewrite Self. cbn [negb].
  rewrite !Keep; [done|set_solver..].
Qed.

(** [z->sl.Erase(d, m)] and [z->dict.erase(m)]. *)
Lemma zset_erase_ok z ks m d :
  zset_ok abs z ks -> dict z !! m = Some d ->
  exists sl' ks', Erase (sl z) d m = Some (true, sl') /\ zset_ok abs (mkZSet sl' (delete m (dict z))) ks' /\
    ks ≡ₚ (d, m) :: ks'.
Proof.
  intros Hz Hd. pose proof Hz as [A P]. pose proof (zi_num _ _ A) as Hnum.
  assert (Hin : (d, m) ∈ ks) by by apply (zset_lookup z ks).
  assert (Hk : num (d, m)) by (rewrite Forall_forall in Hnum; by apply Hnum).
  destruct (zi_erase _ _ (d, m) A Hk) as (sl' & E & A').
  pose proof (ref_erase_perm _ _ (zset_members_nodup _ _ Hz) Hnum Hin) as Hp.
  cbn [fst snd] in E. exists sl', (ref_erase (d, m) ks). split_and!; [|split|done].
  - rewrite E. do 2 f_equal. unfold ref_mem. apply existsb_exists. exists (d, m).
    split; [by apply list_elem_of_In|by apply key_eq_refl].
  - done.
  - cbn [dict]. apply (Permutation_cons_inv (a := (m, d))).
    rewrite (map_to_list_delete _ m d) by done. rewrite <- P. by rewrite Hp at 2.
Qed.

(** [z->sl.Insert(d, m)] and [z->dict[m] = d] for a member that is not there. *)
Lemma zset_insert_ok rnd z ks m d :
  zset_ok abs z ks -> dict z !! m = None -> isnan d = false -> zlen ks + 1 < U64 - 1 ->
  exists b sl' ks', Insert rnd (sl z) d m = Some (b, sl') /\
    zset_ok abs (mkZSet sl' (<[m := d]> (dict z))) ks' /\ zlen ks' = zlen ks + 1.
Proof.
  intros Hz Hd Hn Hroom. pose proof Hz as [A P].
  destruct (zi_insert _ _ (d, m) rnd A Hn Hroom) as (sl' & E & A').
  assert (Hp : (ref_insert (d, m) ks).2 ≡ₚ (d, m) :: ks).
  { apply ref_insert_new. intros x Hx Hxm. apply (zset_missing z ks m Hz) in Hd. apply Hd.
    apply list_elem_of_fmap. by exists x. }
  eexists _, sl', (ref_insert (d, m) ks).2. split_and!; [exact E|split; [done|]|].
  - simpl. rewrite map_to_list_insert by done. rewrite <- P. by rewrite Hp.
  - unfold zlen. rewrite Hp. simpl. lia.
Qed.

(** Popping an end takes its pair out of the dictionary. *)
Lemma zset_pop_ok z ks ks' k sl' :
  zset_ok abs z ks -> abs sl' ks' -> ks ≡ₚ k :: ks' -> zset_ok abs (mkZSet sl' (delete k.2 (dict z))) ks'.
Proof.
  intros Hz A Hp. split; [done|]. cbn [dict sl].
  assert (dict z !! k.2 = Some k.1) as Hk.
  { apply (zset_lookup z ks); [done|]. rewrite Hp, <- surjective_pairing. left. }
  apply (Permutation_cons_inv (a := (k.2, k.1))).
  rewrite (map_to_list_delete _ k.2 k.1) by done. rewrite <- (proj2 Hz). by rewrite Hp.
Qed.

Lemma zset_empty_ok : zset_ok abs (mkZSet empty_list ∅) [].
Proof. split; [apply zi_empty|]. simpl. by rewrite map_to_list_empty. Qed.

End zset.
