(* ===== verification/FloatText.v ===== *)
(** * Floating-point text

    What the code uses of the C library on floating-point numbers, [strtod],
    [strtold] and the conversions [%.*g] and [%.17Lf] of [snprintf] (both
    directions round the exact value to nearest, ties to even), and the functions
    of [src/src/commands.cpp] and [src/include/resp.h] built on them.  A format is
    given by its precision and maximal exponent: 53 and 1024 for [double], those
    of the platform for [long double]. *)

From S2P Require Import Prelude Bytes Resp Double SkipList.
Local Open Scope Z_scope.

(** ** Text to number *)

Section strtod.
Context (prec emax : Z).

(** The number nearest to [m * 10^e]; far outside the range the result does not
    depend on the digits. *)
Definition round_decimal (s : bool) (m e : Z) : spec_float :=
  match m with
  | Z.pos p =>
      let nd := zlen (print_unsigned m) in
      if emax <? e + nd - 1 then S754_infinity s
      else if e + nd <=? 2 - emax - prec then S754_zero s
      else if 0 <=? e then
        match m * 10 ^ e with Z.pos q => binary_round prec emax s q 0 | _ => S754_zero s end
      else
        let '(mz, ez, lz) := SFdiv_core_binary prec emax m 0 (10 ^ (- e)) 0 in
        binary_round_aux prec emax s mz ez lz
  | _ => S754_zero s
  end.

(** The number nearest to [m * 2^e]. *)
Definition round_binary (s : bool) (m e : Z) : spec_float :=
  match m with
  | Z.pos p =>
      if emax <? e + Zdigits2 m - 1 then S754_infinity s
      else if e + Zdigits2 m <=? 2 - emax - prec then S754_zero s
      else binary_round prec emax s p e
  | _ => S754_zero s
  end.

Definition isxdigit (c : ascii) : bool :=
  isdigit c || ((65 <=? byte_val c) && (byte_val c <=? 70)) || ((97 <=? byte_val c) && (byte_val c <=? 102)).
Definition hex_digit (c : ascii) : Z :=
  if isdigit c then byte_val c - 48 else if byte_val c <=? 70 then byte_val c - 55 else byte_val c - 87.
Definition hex_val (s : bytes) : Z := fold_left (fun a c => a * 16 + hex_digit c) s 0.

Definition prefix_ci (p : bytes) (s : bytes) : bool := bool_decide (ToLower (take (length p) s) = p).

(** An optional exponent [e], a sign and digits: its value and length. *)
Definition exponent (mark : ascii) (s : bytes) : Z * nat :=
  match s with
  | c :: r =>
      if bool_decide (lower_char c = mark) then
        let '(neg, sgn, r') :=
          match r with
          | d :: r1 => if bool_decide (d = "-"%char) then (true, 1%nat, r1)
                       else if bool_decide (d = "+"%char) then (false, 1%nat, r1)
                       else (false, 0%nat, r)
          | [] => (false, 0%nat, r)
          end in
        let '(ds, _) := span isdigit r' in
        match ds with
        | [] => (0, 0%nat)
        | _ :: _ => (if neg : bool then - digits_val ds else digits_val ds, (1 + sgn + length ds)%nat)
        end
      else (0, 0%nat)
  | [] => (0, 0%nat)
  end.

(** Digits, a point and more digits: integer part, fraction, length; [None]
    without any digit. *)
Definition digits_point (isd : ascii -> bool) (s : bytes) : option (bytes * bytes * nat) :=
  let '(ip, r) := span isd s in
  let '(fp, n) :=
    match r with
    | c :: r1 => if bool_decide (c = "."%char)
                 then let '(f, _) := span isd r1 in (f, (1 + length f)%nat) else ([], 0%nat)
    | [] => ([], 0%nat)
    end in
  if bool_decide (ip = []) && bool_decide (fp = []) then None
  else Some (ip, fp, (length ip + n)%nat).

(** The subject sequence after the sign: value and length. *)
Definition subject (s : bool) (t : bytes) : option (spec_float * nat) :=
  if prefix_ci (lit "infinity") t then Some (S754_infinity s, 8%nat)
  else if prefix_ci (lit "inf") t then Some (S754_infinity s, 3%nat)
  else if prefix_ci (lit "nan") t then
    (* an optional sequence of letters, digits and underscores in parentheses *)
    match drop 3 t with
    | c :: r =>
        if bool_decide (c = "("%char) then
          let '(w, r1) := span (fun x => isdigit x || bool_decide (x = "_"%char)
            || ((97 <=? byte_val (lower_char x)) && (byte_val (lower_char x) <=? 122))) r in
          match r1 with
          | d :: _ => if bool_decide (d = ")"%char) then Some (S754_nan, (5 + length w)%nat)
                      else Some (S754_nan, 3%nat)
          | [] => Some (S754_nan, 3%nat)
          end
        else Some (S754_nan, 3%nat)
    | [] => Some (S754_nan, 3%nat)
    end
  else
    match (if prefix_ci (lit "0x") t then digits_point isxdigit (drop 2 t) else None) with
    | Some (ip, fp, n) =>
        let '(e, k) := exponent "p"%char (drop (2 + n) t) in
        Some (round_binary s (hex_val (ip ++ fp)) (e - 4 * zlen fp), (2 + n + k)%nat)
    | None =>
        match digits_point isdigit t with
        | Some (ip, fp, n) =>
            let '(e, k) := exponent "e"%char (drop n t) in
            Some (round_decimal s (digits_val (ip ++ fp)) (e - zlen fp), (n + k)%nat)
        | None => None
        end
    end.

(** [strtod(s, &end)]: the value and the offset of [*end]. *)
Definition strtod (str : bytes) : spec_float * nat :=
  let '(ws, s1) := span isspace str in
  let '(neg, sgn, s2) :=
    match s1 with
    | c :: r => if bool_decide (c = "-"%char) then (true, 1%nat, r)
                else if bool_decide (c = "+"%char) then (false, 1%nat, r)
                else (false, 0%nat, s1)
    | [] => (false, 0%nat, s1)
    end in
  match subject neg s2 with
  | Some (v, n) => (v, (length ws + sgn + n)%nat)
  | None => (S754_zero false, 0%nat)
  end.

(** [ParseDoubleStrict] and [ParseLongDoubleStrict]. *)
Definition parse_strict (s : bytes) : option spec_float :=
  match s with
  | [] => None
  | _ :: _ => let '(v, e) := strtod s in if (e =? length s)%nat then Some v else None
  end.
End strtod.

Definition ParseDoubleStrict (s : bytes) : option double := parse_strict 53 1024 s.

(** ** Number to text *)

(** [n / d] rounded to nearest, ties to even, for [d > 0]. *)
Definition round_half_even (n d : Z) : Z :=
  let q := n / d in
  let r := n mod d in
  if 2 * r <? d then q else if d <? 2 * r then q + 1 else if Z.even q then q else q + 1.

(** [m * 2^e] as a fraction. *)
Definition frac_num (m e : Z) : Z := if 0 <=? e then m * 2 ^ e else m.
Definition frac_den (e : Z) : Z := if 0 <=? e then 1 else 2 ^ (- e).

Definition zeros (n : Z) : bytes := replicate (Z.to_nat n) "0"%char.

(** [n] in decimal, padded on the left to [w] digits. *)
Definition padded (w n : Z) : bytes :=
  let s := print_unsigned n in zeros (w - zlen s) ++ s.

(** Trailing zeros and a trailing point removed. *)
Definition strip_zeros (s : bytes) : bytes :=
  let '(_, r) := span (fun c => bool_decide (c = "0"%char)) (rev s) in
  match r with
  | c :: r' => if bool_decide (c = "."%char) then rev r' else rev r
  | [] => []
  end.

(** The decimal exponent of [n / d]. *)
Definition decimal_exponent (n d : Z) : Z :=
  let x := zlen (print_unsigned n) - zlen (print_unsigned d) in
  let reaches := if 0 <=? x then d * 10 ^ x <=? n else d <=? n * 10 ^ (- x) in
  if reaches then x else x - 1.

(** ["%.Pg"] of a finite number [m * 2^e], [m > 0]. *)
Definition format_g (P : Z) (m e : Z) : bytes :=
  let n := frac_num m e in
  let d := frac_den e in
  let x := decimal_exponent n d in
  let k := P - 1 - x in
  let N := if 0 <=? k then round_half_even (n * 10 ^ k) d else round_half_even n (d * 10 ^ (- k)) in
  let '(N, x) := if N =? 10 ^ P then (10 ^ (P - 1), x + 1) else (N, x) in
  let ds := print_unsigned N in
  if (-4 <=? x) && (x <? P) then
    if 0 <=? x then
      strip_zeros (take (Z.to_nat (x + 1)) ds ++ "."%char :: drop (Z.to_nat (x + 1)) ds)
    else strip_zeros (lit "0." ++ zeros (- x - 1) ++ ds)
  else
    strip_zeros (take 1 ds ++ "."%char :: drop 1 ds)
    ++ "e"%char :: (if x <? 0 then "-"%char else "+"%char) :: padded 2 (Z.abs x).

(** ["%.Df"] of a finite number [m * 2^e]. *)
Definition format_f (D : Z) (m e : Z) : bytes :=
  let N := round_half_even (frac_num m e * 10 ^ D) (frac_den e) in
  print_unsigned (N / 10 ^ D) ++ "."%char :: padded D (N mod 10 ^ D).

Definition signed_text (s : bool) (t : bytes) : bytes := if s then "-"%char :: t else t.

(** [FormatDouble] *)
Fixpoint shortest (precs : list Z) (s : bool) (m e : Z) (d : double) (last : bytes) : bytes :=
  match precs with
  | [] => last
  | P :: rest =>
      let buf := signed_text s (format_g P m e) in
      if deq (strtod 53 1024 buf).1 d then buf else shortest rest s m e d buf
  end.

Definition FormatDouble (d : double) : bytes :=
  match d with
  | S754_nan => lit "nan"
  | S754_infinity s => if s then lit "-inf" else lit "inf"
  | S754_zero _ => lit "0"
  | S754_finite s m e => shortest [15; 16; 17] s (Z.pos m) e d []
  end.

(** [FormatLongDouble]: [snprintf] cuts the text to the 127 characters of the
    buffer but returns its full length [l], and the code then looks at
    [buf[l - 1]]; [None] when that is outside the buffer. *)
Definition FormatLongDouble (d : spec_float) : option bytes :=
  match d with
  | S754_nan => Some (lit "nan")
  | S754_infinity s => Some (if s then lit "-inf" else lit "inf")
  | S754_zero _ => Some (lit "0")
  | S754_finite s m e =>
      let text := signed_text s (format_f 17 (Z.pos m) e) in
      let l := zlen text in
      let buf := take 127 text in
      if existsb (fun c => bool_decide (c = "."%char)) buf then
        if 128 <? l then None
        else if l =? 128 then Some buf
        else
          let r := strip_zeros buf in
          Some (if bool_decide (r = lit "-0") then lit "0" else r)
      else Some buf
  end.

(** [AppendDoubleReply] of [src/src/resp.cpp] *)
Definition AppendDoubleReply (out : bytes) (d : double) : bytes :=
  out ++
  match d with
  | S754_nan => lit "nan"
  | S754_zero _ => lit "0"
  | S754_infinity s => if s then lit "-inf" else lit "inf"
  | S754_finite s m e => signed_text s (format_g 17 (Z.pos m) e)
  end ++ crlf.
