(* ===== verification/Exec.v ===== *)
(** * The command layer: state, effects and replies

    A command of [src/src/commands.cpp] runs in the monad [M]: it reads and
    changes a [World] (the database, the client's state, the statistics, the
    files and the reply buffer), takes what it cannot know from an [Oracle]
    (clock, random numbers, iteration orders, system calls), and may stop in
    [Undef] where the C++ code has undefined behaviour: a null or dangling
    pointer, an index out of range, signed overflow.

    A pointer to a value is the place it points to, a key of a key space;
    [deref] and [store] go through the table, so two pointers to one key alias
    and a pointer to an erased key dangles.  [store] is the in-place mutation of
    the code: it does not touch the memory accounting. *)

From S2P Require Import Prelude Bytes Resp Double SkipList Db Rdb RdbFile.
Local Open Scope Z_scope.

(** ** State *)

Record ClientState := mkClient {
  db_index : nat;
  name : bytes;
  id : Z;
  in_multi : bool;
  multi_error : bool;
  multi_queue : list (list bytes);
  quit_requested : bool
}.

Definition new_client (i : Z) : ClientState := mkClient 0 [] i false false [] false.

Record ServerStats := mkStats {
  total_commands : Z;
  total_connections : Z;
  rejected_connections : Z;
  expired_keys : Z;
  start_time_us : Z;
  connected_clients : Z;
  shutdown_requested : bool;
  shutdown_nosave : bool
}.

Record ServerOptions := mkOptions {
  port : Z;
  bind : bytes;
  dir : bytes;
  dbfilename : bytes;
  maxmemory : Z;
  num_databases : Z
}.

(** The defaults of the structure. *)
Definition default_options : ServerOptions :=
  mkOptions 6379 (lit "127.0.0.1") (lit ".") (lit "dump.rdb") 0 (Z.of_nat kNumDatabases).

Record World := mkWorld {
  w_db : Database;
  w_cs : ClientState;
  w_stats : ServerStats;
  w_rdb : RdbState;
  w_children : list Child;
  w_out : bytes;
  w_tick : nat             (* how often the oracle was asked *)
}.

(** ** What the code cannot know

    The [n]-th question to the outside is answered by the [n]-th entry. *)
Class Oracle := {
  clock_us : nat -> Z;               (* system_clock, microseconds *)
  time_s : nat -> Z;                 (* time(nullptr) *)
  rng32 : nat -> Z;                  (* a draw of std::mt19937 *)
  libc_random : nat -> nat -> Z;     (* the values of random() in one insertion *)
  iter_order : nat -> Order;         (* the order of an unordered container *)
  shuffled : nat -> list bytes -> list bytes;   (* std::shuffle *)
  moved_from : nat -> Value -> Value;           (* a value after std::move *)
  disk : nat -> Io;
  fork_result : nat -> Z * bytes;    (* pid, strerror *)
  ld_prec : Z;                       (* the format of long double *)
  ld_emax : Z
}.

(** What the standard promises about these. *)
Class OracleLaws (O : Oracle) : Prop := {
  iter_order_perm : forall n, forall i k l, iter_order n i k l ≡ₚ l;
  shuffled_perm : forall n l, shuffled n l ≡ₚ l;
  moved_from_type : forall n v, TypeOf (moved_from n v) = TypeOf v;
  rng32_range : forall n, 0 <= rng32 n < 2 ^ 32;
  clock_range : forall n, 1000000 <= clock_us n <= LLONG_MAX   (* a second past the epoch, in 64 bits *)
}.

(** ** The monad *)

Inductive Ub := UbNull | UbDangling | UbIndex | UbOverflow | UbSkipList | UbBuffer | OutOfFuel.

Inductive Outcome (A : Type) := Done (a : A) (w : World) | Undef (why : Ub).
Arguments Done {A} a w.
Arguments Undef {A} why.

Definition M (A : Type) : Type := World -> Outcome A.

#[export] Instance M_ret : MRet M := fun A a w => Done a w.
#[export] Instance M_bind : MBind M := fun A B f m w =>
  match m w with Done a w' => f a w' | Undef u => Undef u end.

Definition undef {A} (u : Ub) : M A := fun _ => Undef u.
Definition gets {A} (f : World -> A) : M A := fun w => Done (f w) w.
Definition modify (f : World -> World) : M unit := fun w => Done tt (f w).

Definition with_db (db : Database) (w : World) : World :=
  mkWorld db (w_cs w) (w_stats w) (w_rdb w) (w_children w) (w_out w) (w_tick w).
Definition with_cs (cs : ClientState) (w : World) : World :=
  mkWorld (w_db w) cs (w_stats w) (w_rdb w) (w_children w) (w_out w) (w_tick w).
Definition with_stats (st : ServerStats) (w : World) : World :=
  mkWorld (w_db w) (w_cs w) st (w_rdb w) (w_children w) (w_out w) (w_tick w).
Definition with_files (r : RdbState) (cs : list Child) (w : World) : World :=
  mkWorld (w_db w) (w_cs w) (w_stats w) r cs (w_out w) (w_tick w).
Definition with_out (o : bytes) (w : World) : World :=
  mkWorld (w_db w) (w_cs w) (w_stats w) (w_rdb w) (w_children w) o (w_tick w).
Definition next_tick (w : World) : World :=
  mkWorld (w_db w) (w_cs w) (w_stats w) (w_rdb w) (w_children w) (w_out w) (S (w_tick w)).

(** A fresh question to the oracle. *)
Definition tick : M nat := fun w => Done (w_tick w) (next_tick w).

(** Signed arithmetic must stay in range. *)
Definition chk (z : Z) : M Z := if in_i64 z then mret z else undef UbOverflow.

(** [argv[i]] *)
Definition arg (argv : list bytes) (i : nat) : M bytes :=
  match argv !! i with Some a => mret a | None => undef UbIndex end.

Definition from_option_ub {A} (u : Ub) (o : option A) : M A :=
  match o with Some a => mret a | None => undef u end.

(** A loop over a list. *)
Fixpoint for_each {A} (f : A -> M unit) (l : list A) : M unit :=
  match l with
  | [] => mret tt
  | x :: r => f x ≫= fun _ => for_each f r
  end.

Fixpoint fold_m {A B} (f : B -> A -> M B) (acc : B) (l : list A) : M B :=
  match l with
  | [] => mret acc
  | x :: r => f acc x ≫= fun acc' => fold_m f acc' r
  end.

(** ** Replies *)

Definition reply (f : bytes -> bytes) : M unit := modify (fun w => with_out (f (w_out w)) w).

Definition reply_simple (s : bytes) : M unit := reply (fun o => AppendSimpleReply o s).
Definition reply_error (s : bytes) : M unit := reply (fun o => AppendErrorReply o s).
Definition reply_int (v : Z) : M unit := reply (fun o => AppendIntReply o v).
Definition reply_bulk (s : bytes) : M unit := reply (fun o => AppendBulkReply o s).
Definition reply_null : M unit := reply AppendNullBulkReply.
Definition reply_array (n : Z) : M unit := reply (fun o => AppendArrayReply o n).
Definition reply_empty_array : M unit := reply AppendEmptyArrayReply.
Definition reply_bulk_array (l : list bytes) : M unit := reply (fun o => AppendBulkArray o l).

Definition ErrWrongArgs (cmd_lower : bytes) : M unit :=
  reply_error (lit "ERR wrong number of arguments for '" ++ cmd_lower ++ lit "' command").
Definition ErrWrongType : M unit :=
  reply_error (lit "WRONGTYPE Operation against a key holding the wrong kind of value").
Definition ErrSyntax : M unit := reply_error (lit "ERR syntax error").
Definition ErrNotInt : M unit := reply_error (lit "ERR value is not an integer or out of range").
Definition ErrNotFloat : M unit := reply_error (lit "ERR value is not a valid float").
Definition ErrHashNotInt : M unit := reply_error (lit "ERR hash value is not an integer").
Definition ErrIncrOverflow : M unit := reply_error (lit "ERR increment would produce NaN or Infinity").
Definition ErrHashNotFloat : M unit := reply_error (lit "ERR hash value is not a float").
Definition ErrUnknownCommand (argv : list bytes) : M unit :=
  a0 ← arg argv 0;
  let msg := lit "ERR unknown command '" ++ a0 ++ lit "'" in
  if 1 <? zlen argv then
    a1 ← arg argv 1;
    reply_error (msg ++ lit ", with args beginning with: '" ++ a1 ++ lit "' ")
  else reply_error msg.

(** ** Access to the database *)

Section access.
Context `{O : Oracle}.

Definition NowUs : M Z := t ← tick; mret (clock_us t).
Definition NowMs : M Z := t ← tick; mret (Z.quot (clock_us t) 1000).

Definition cur_db : M nat := gets (fun w => db_index (w_cs w)).

(** [dbs_[idx]] *)
Definition check_db (idx : nat) : M unit :=
  n ← gets (fun w => length (dbs_ (w_db w)));
  if (idx <? n)%nat then mret tt else undef UbIndex.

Definition lookup_key (idx : nat) (key : bytes) : M (option Entry) :=
  check_db idx ≫= fun _ =>
  now ← NowMs;
  db ← gets w_db;
  let '(r, db') := Lookup now idx key db in
  modify (with_db db') ≫= fun _ => mret r.

Definition set_key (idx : nat) (key : bytes) (v : Value) (expires : Z) : M unit :=
  check_db idx ≫= fun _ => modify (fun w => with_db (Set_ idx key v expires (w_db w)) w).

Definition delete_key (idx : nat) (key : bytes) : M bool :=
  check_db idx ≫= fun _ =>
  db ← gets w_db;
  let '(b, db') := Delete idx key db in
  modify (with_db db') ≫= fun _ => mret b.

(** Assignment through a pointer into the table. *)
Definition poke (idx : nat) (key : bytes) (f : Entry -> Entry) : M unit :=
  db ← gets w_db;
  match table db idx !! key with
  | Some e => modify (with_db (set_table idx (<[key := f e]> (table db idx)) db))
  | None => undef UbDangling
  end.

Definition set_expires (idx : nat) (key : bytes) (x : Z) : M unit :=
  poke idx key (fun e => mkEntry (value e) x).

(** The keys of a table, or of the container under a key, in their order. *)
Definition iterate (idx : nat) (k : option bytes) (l : list bytes) : M (list bytes) :=
  t ← tick; mret (iter_order t idx k l).
End access.

(** ** Typed values: [std::get_if<T>] *)

Class Prism (T : Type) := { inj : T -> Value; proj : Value -> option T }.

#[export] Instance string_prism : Prism bytes :=
  {| inj := RawString; proj v := match v with RawString s => Some s | _ => None end |}.
#[export] Instance hash_prism : Prism (gmap bytes bytes) :=
  {| inj := HashValue; proj v := match v with HashValue h => Some h | _ => None end |}.
#[export] Instance list_prism : Prism (list bytes) :=
  {| inj := ListValue; proj v := match v with ListValue l => Some l | _ => None end |}.
#[export] Instance set_prism : Prism (gset bytes) :=
  {| inj := SetValue; proj v := match v with SetValue s => Some s | _ => None end |}.
#[export] Instance zset_prism : Prism ZSetValue :=
  {| inj := ZSet; proj v := match v with ZSet z => Some z | _ => None end |}.

Inductive LookupResult (T : Type) := kMissing | kFound (v : T) | kWrongType.
Arguments kMissing {T}.
Arguments kFound {T} v.
Arguments kWrongType {T}.

Section typed.
Context `{O : Oracle} (T : Type) `{!Prism T}.

(** [GetTyped<T>]: the value the pointer leads to when it is found. *)
Definition GetTyped (idx : nat) (key : bytes) : M (LookupResult T) :=
  e ← lookup_key idx key;
  mret match e with
       | None => kMissing
       | Some e => match proj (value e) with Some v => kFound v | None => kWrongType end
       end.

Definition deref (idx : nat) (key : bytes) : M T :=
  db ← gets w_db;
  match table db idx !! key with
  | Some e => from_option_ub UbDangling (proj (value e))
  | None => undef UbDangling
  end.

Definition store (idx : nat) (key : bytes) (v : T) : M unit :=
  poke idx key (fun e => mkEntry (inj v) (expires_at_ms e)).

(** [Lookup], [Set] of an empty value if there is none, [Lookup] again, then
    [std::get_if<T>]; [None] is the null pointer. *)
Definition get_or_create (empty : T) (idx : nat) (key : bytes) : M (option T) :=
  e ← lookup_key idx key;
  match e with
  | Some e => mret (proj (value e))
  | None =>
      set_key idx key (inj empty) 0 ≫= fun _ =>
      e' ← lookup_key idx key;
      match e' with
      | Some e' => mret (proj (value e'))
      | None => undef UbNull
      end
  end.
End typed.

Arguments GetTyped {O} T {_} idx key.
Arguments deref T {_} idx key.
Arguments store {T _} idx key v.
Arguments get_or_create {O T _} empty idx key.

Section creators.
Context `{O : Oracle}.

Definition GetOrCreateStringEntry (idx : nat) (key : bytes) : M (option bytes) :=
  get_or_create ([] : bytes) idx key.
Definition HashOrCreate (idx : nat) (key : bytes) : M (option (gmap bytes bytes)) :=
  get_or_create ∅ idx key.
Definition ListCreate (idx : nat) (key : bytes) : M (option (list bytes)) :=
  get_or_create ([] : list bytes) idx key.
Definition SetCreate (idx : nat) (key : bytes) : M (option (gset bytes)) :=
  get_or_create ∅ idx key.
Definition ZSetCreate (idx : nat) (key : bytes) : M (option ZSetValue) :=
  get_or_create (mkZSet empty_list ∅) idx key.

(** [KeyIsLiveExpired] *)
Definition KeyIsLiveExpired (e : Entry) : M bool :=
  if expires_at_ms e =? 0 then mret false
  else now ← NowMs; mret (expires_at_ms e <=? now).
End creators.

(** ** The command table *)

Definition ArityTable : list (bytes * (Z * Z)) :=
  map (fun x => (lit x.1, x.2))
  [ ("PING"%string, (1, 2)); ("ECHO"%string, (2, 2)); ("SELECT"%string, (2, 2)); ("AUTH"%string, (2, 2));
    ("QUIT"%string, (1, 1)); ("HELLO"%string, (1, -1)); ("COMMAND"%string, (1, 2)); ("INFO"%string, (1, 2));
    ("DBSIZE"%string, (1, 1)); ("FLUSHDB"%string, (1, 2)); ("FLUSHALL"%string, (1, 2)); ("SAVE"%string, (1, 1));
    ("BGSAVE"%string, (1, 1)); ("LASTSAVE"%string, (1, 1)); ("BGREWRITEAOF"%string, (1, 1));
    ("WAIT"%string, (3, 3)); ("TIME"%string, (1, 1)); ("ROLE"%string, (1, 1)); ("SHUTDOWN"%string, (1, 2));
    ("CONFIG"%string, (3, 3)); ("CLIENT"%string, (2, -1)); ("MEMORY"%string, (3, 3)); ("GET"%string, (2, 2));
    ("SET"%string, (3, -1)); ("SETNX"%string, (3, 3)); ("SETEX"%string, (4, 4)); ("PSETEX"%string, (4, 4));
    ("GETSET"%string, (3, 3)); ("GETDEL"%string, (2, 2)); ("GETRANGE"%string, (4, 4));
    ("SETRANGE"%string, (4, 4)); ("STRLEN"%string, (2, 2)); ("APPEND"%string, (3, 3)); ("INCR"%string, (2, 2));
    ("DECR"%string, (2, 2)); ("INCRBY"%string, (3, 3)); ("DECRBY"%string, (3, 3)); ("INCRBYFLOAT"%string, (3, 3));
    ("MGET"%string, (2, -1)); ("MSET"%string, (3, -1)); ("MSETNX"%string, (3, -1)); ("DEL"%string, (2, -1));
    ("UNLINK"%string, (2, -1)); ("EXISTS"%string, (2, -1)); ("KEYS"%string, (2, 2)); ("RANDOMKEY"%string, (1, 1));
    ("TYPE"%string, (2, 2)); ("RENAME"%string, (3, 3)); ("EXPIRE"%string, (3, 3)); ("PEXPIRE"%string, (3, 3));
    ("EXPIREAT"%string, (3, 3)); ("PEXPIREAT"%string, (3, 3)); ("TTL"%string, (2, 2)); ("PTTL"%string, (2, 2));
    ("PERSIST"%string, (2, 2)); ("SCAN"%string, (2, -1)); ("HSET"%string, (4, -1)); ("HMSET"%string, (4, -1));
    ("HGET"%string, (3, 3)); ("HMGET"%string, (3, -1)); ("HGETALL"%string, (2, 2)); ("HDEL"%string, (3, -1));
    ("HEXISTS"%string, (3, 3)); ("HLEN"%string, (2, 2)); ("HKEYS"%string, (2, 2)); ("HVALS"%string, (2, 2));
    ("HSETNX"%string, (4, 4)); ("HINCRBY"%string, (4, 4)); ("HINCRBYFLOAT"%string, (4, 4));
    ("HSTRLEN"%string, (3, 3)); ("LPUSH"%string, (3, -1)); ("RPUSH"%string, (3, -1)); ("LPOP"%string, (2, 3));
    ("RPOP"%string, (2, 3)); ("LLEN"%string, (2, 2)); ("LRANGE"%string, (4, 4)); ("LINDEX"%string, (3, 3));
    ("LSET"%string, (4, 4)); ("LREM"%string, (4, 4)); ("LINSERT"%string, (5, 5)); ("LTRIM"%string, (4, 4));
    ("LMOVE"%string, (5, 5)); ("RPOPLPUSH"%string, (3, 3)); ("SADD"%string, (3, -1)); ("SREM"%string, (3, -1));
    ("SMEMBERS"%string, (2, 2)); ("SISMEMBER"%string, (3, 3)); ("SCARD"%string, (2, 2)); ("SPOP"%string, (2, 3));
    ("SRANDMEMBER"%string, (2, 3)); ("SMOVE"%string, (4, 4)); ("SINTER"%string, (2, -1)); ("SUNION"%string, (2, -1));
    ("SDIFF"%string, (2, -1)); ("SINTERSTORE"%string, (3, -1)); ("SUNIONSTORE"%string, (3, -1));
    ("SDIFFSTORE"%string, (3, -1)); ("ZADD"%string, (4, -1)); ("ZSCORE"%string, (3, 3)); ("ZCARD"%string, (2, 2));
    ("ZRANGE"%string, (3, -1)); ("ZREVRANGE"%string, (4, -1)); ("ZRANGEBYSCORE"%string, (4, -1));
    ("ZREVRANGEBYSCORE"%string, (4, -1)); ("ZRANK"%string, (3, 3)); ("ZREVRANK"%string, (3, 3));
    ("ZCOUNT"%string, (4, 4)); ("ZREM"%string, (3, -1)); ("ZINCRBY"%string, (4, 4)); ("ZPOPMIN"%string, (2, 3));
    ("ZPOPMAX"%string, (2, 3)); ("ZREMRANGEBYRANK"%string, (4, 4)); ("ZREMRANGEBYSCORE"%string, (4, 4));
    ("MULTI"%string, (1, 1)); ("EXEC"%string, (1, 1)); ("DISCARD"%string, (1, 1)) ].

Fixpoint assoc {A} (k : bytes) (l : list (bytes * A)) : option A :=
  match l with
  | [] => None
  | (k', v) :: r => if bool_decide (k = k') then Some v else assoc k r
  end.

Definition CommandExists (upper : bytes) : bool :=
  match assoc upper ArityTable with Some _ => true | None => false end.

(** [(int)argc] is the argument count; it is far below 2^31. *)
Definition ArityOk (upper : bytes) (argc : Z) : bool :=
  match assoc upper ArityTable with
  | None => false
  | Some (mn, mx) => negb (argc <? mn) && negb ((0 <=? mx) && (mx <? argc))
  end.

Definition WriteCommands : list bytes :=
  map lit
  [ "SET"; "SETNX"; "SETEX"; "PSETEX"; "GETSET"; "SETRANGE"; "APPEND"; "INCR"; "DECR"; "INCRBY"; "DECRBY";
    "INCRBYFLOAT"; "MSET"; "MSETNX"; "DEL"; "UNLINK"; "RENAME"; "EXPIRE"; "PEXPIRE"; "EXPIREAT"; "PEXPIREAT";
    "PERSIST"; "GETDEL"; "HSET"; "HMSET"; "HDEL"; "HSETNX"; "HINCRBY"; "HINCRBYFLOAT"; "LPUSH"; "RPUSH"; "LPOP";
    "RPOP"; "LSET"; "LREM"; "LINSERT"; "LTRIM"; "LMOVE"; "RPOPLPUSH"; "SADD"; "SREM"; "SPOP"; "SMOVE";
    "SINTERSTORE"; "SUNIONSTORE"; "SDIFFSTORE"; "ZADD"; "ZREM"; "ZINCRBY"; "ZPOPMIN"; "ZPOPMAX";
    "ZREMRANGEBYRANK"; "ZREMRANGEBYSCORE"; "FLUSHDB"; "FLUSHALL" ]%string.

Definition IsWriteCommand (upper : bytes) : bool :=
  existsb (fun c => bool_decide (upper = c)) WriteCommands.
