(* ===== verification/ExecLogic.v ===== *)
(** * A program logic for commands

    [wp us m Q w] says that the command [m] run in the world [w] ends in a world
    that satisfies [Q], or in one of the kinds [us] of undefined behaviour.
    [Inv] is the invariant of the server that every command keeps: sixteen key
    spaces, a selected database among them, sorted sets whose dictionary and
    skip list agree, a transaction state that the command leaves alone, and a
    reply buffer that only grows.  The rules below are one per primitive of
    [Exec.v]; the tactic [wp_run] applies them. *)

From S2P Require Import Prelude Bytes Resp Double SkipList SkipListInv SkipListProofs SkipListQueries.
From S2P Require Import SkipListRefine Db DbProofs DbRefine Rdb RdbProofs RdbFile ZsetProofs FloatText Exec.
Local Open Scope Z_scope.

#[export] Instance Ub_eq_dec : EqDecision Ub.
Proof. solve_decision. Defined.

Definition ub_in (u : Ub) (us : list Ub) : bool := existsb (fun x => bool_decide (u = x)) us.

Definition wp {A} (us : list Ub) (m : M A) (Q : A -> World -> Prop) (w : World) : Prop :=
  match m w with Done a w' => Q a w' | Undef u => ub_in u us = true end.

(** ** The invariant *)

(** A sorted set of at most [B] members that is consistent. *)
Definition zset_inv (B : Z) (z : ZSetValue) : Prop := exists ks, zset_ok wf z ks /\ zlen ks <= B.

Definition value_ok (B : Z) (v : Value) : Prop :=
  match v with ZSet z => zset_inv B z | _ => True end.

Definition entry_ok (B : Z) (e : Entry) : Prop := value_ok B (value e) /\ in_i64 (expires_at_ms e) = true.

Definition Tx : Type := bool * bool * list (list bytes).
Definition tx_of (c : ClientState) : Tx := (in_multi c, multi_error c, multi_queue c).

Record Inv (B : Z) (tx : Tx) (o : bytes) (w : World) : Prop := mkInv {
  inv_dbs : length (dbs_ (w_db w)) = kNumDatabases;
  inv_idx : (db_index (w_cs w) < kNumDatabases)%nat;
  inv_vals : forall i k e, table (w_db w) i !! k = Some e -> entry_ok B e;
  inv_tx : tx_of (w_cs w) = tx;
  inv_out : o `prefix_of` w_out w;
  inv_bound : 0 <= B;
  inv_start : 0 <= start_time_us (w_stats w) <= LLONG_MAX
}.

(** The key holds a value of type [T], namely [v]. *)
Definition at_ (T : Type) `{!Prism T} (idx : nat) (key : bytes) (v : T) (db : Database) : Prop :=
  exists e, table db idx !! key = Some e /\ proj (value e) = Some v.

(** What is written back is read back, and only sorted sets carry an obligation. *)
Class PrismOk (T : Type) `{!Prism T} : Prop := {
  proj_inj : forall v : T, proj (inj v) = Some v;
  inj_proj : forall (x : Value) (v : T), proj x = Some v -> x = inj v
}.

#[export] Instance string_prism_ok : PrismOk bytes.
Proof. split; [done|]. intros [] v; simpl; congruence. Qed.
#[export] Instance hash_prism_ok : PrismOk (gmap bytes bytes).
Proof. split; [done|]. intros [] v; simpl; congruence. Qed.
#[export] Instance list_prism_ok : PrismOk (list bytes).
Proof. split; [done|]. intros [] v; simpl; congruence. Qed.
#[export] Instance set_prism_ok : PrismOk (gset bytes).
Proof. split; [done|]. intros [] v; simpl; congruence. Qed.
#[export] Instance zset_prism_ok : PrismOk ZSetValue.
Proof. split; [done|]. intros [] v; simpl; congruence. Qed.

(** A reply function only appends. *)
Class Appends (f : bytes -> bytes) : Prop := appends : forall o, o `prefix_of` f o.

(** ** Structural rules *)

Section rules.
Context (us : list Ub).

Lemma wp_ret {A} (a : A) Q w : Q a w -> wp us (mret a) Q w.
Proof. done. Qed.

Lemma wp_bind {A C} (m : M A) (f : A -> M C) Q w :
  wp us m (fun a w' => wp us (f a) Q w') w -> wp us (m ≫= f) Q w.
Proof. unfold wp, mbind, M_bind. by destruct (m w). Qed.

Lemma wp_mono {A} (m : M A) (P Q : A -> World -> Prop) w :
  wp us m P w -> (forall a w', P a w' -> Q a w') -> wp us m Q w.
Proof. unfold wp. destruct (m w); auto. Qed.

Lemma wp_gets {A} (f : World -> A) Q w : Q (f w) w -> wp us (gets f) Q w.
Proof. done. Qed.

Lemma wp_undef {A} u (Q : A -> World -> Prop) w : ub_in u us = true -> wp us (undef u) Q w.
Proof. done. Qed.

Lemma wp_chk z Q w :
  (in_i64 z = true -> Q z w) -> (in_i64 z = false -> ub_in UbOverflow us = true) -> wp us (chk z) Q w.
Proof. unfold wp, chk. destruct (in_i64 z); simpl; auto. Qed.

Lemma wp_arg argv i Q w :
  (forall a, argv !! i = Some a -> Q a w) -> ((length argv <= i)%nat -> ub_in UbIndex us = true) ->
  wp us (arg argv i) Q w.
Proof.
  intros H1 H2. unfold wp, arg. destruct (argv !! i) eqn:E; simpl; [auto|].
  apply H2. by apply lookup_ge_None.
Qed.

Lemma wp_from_option {A} u (x : option A) Q w :
  (forall a, x = Some a -> Q a w) -> (x = None -> ub_in u us = true) -> wp us (from_option_ub u x) Q w.
Proof. intros H1 H2. unfold wp, from_option_ub. destruct x; simpl; auto. Qed.

Lemma wp_for_each {A} (f : A -> M unit) l (I : World -> Prop) w :
  I w -> (forall x w', x ∈ l -> I w' -> wp us (f x) (fun _ => I) w') -> wp us (for_each f l) (fun _ => I) w.
Proof.
  revert w. induction l as [|x l IH]; intros w HI Hf; [done|]. simpl. apply wp_bind.
  eapply wp_mono; [apply Hf; [by left|done]|]. intros ? w' HI'. apply IH; [done|].
  intros y w'' Hy. apply Hf. by right.
Qed.

Lemma wp_fold_m {A C} (f : C -> A -> M C) l (I : C -> World -> Prop) c w :
  I c w -> (forall c x w', x ∈ l -> I c w' -> wp us (f c x) I w') -> wp us (fold_m f c l) I w.
Proof.
  revert c w. induction l as [|x l IH]; intros c w HI Hf; [done|]. simpl. apply wp_bind.
  eapply wp_mono; [apply Hf; [by left|done]|]. intros c' w' HI'. apply IH; [done|].
  intros c'' y w'' Hy. apply Hf. by right.
Qed.
End rules.

(** ** Replies *)

#[export] Instance appends_simple s : Appends (fun o => AppendSimpleReply o s).
Proof. intros o. unfold AppendSimpleReply. by exists ("+"%char :: s ++ crlf). Qed.
#[export] Instance appends_error s : Appends (fun o => AppendErrorReply o s).
Proof. intros o. unfold AppendErrorReply. by exists ("-"%char :: s ++ crlf). Qed.
#[export] Instance appends_int v : Appends (fun o => AppendIntReply o v).
Proof. intros o. unfold AppendIntReply. by eexists. Qed.
#[export] Instance appends_bulk s : Appends (fun o => AppendBulkReply o s).
Proof. intros o. unfold AppendBulkReply. by eexists. Qed.
#[export] Instance appends_null : Appends AppendNullBulkReply.
Proof. intros o. unfold AppendNullBulkReply. by eexists. Qed.
#[export] Instance appends_array n : Appends (fun o => AppendArrayReply o n).
Proof. intros o. unfold AppendArrayReply. by eexists. Qed.
#[export] Instance appends_empty : Appends AppendEmptyArrayReply.
Proof. intros o. unfold AppendEmptyArrayReply. by eexists. Qed.
#[export] Instance appends_bulk_array l : Appends (fun o => AppendBulkArray o l).
Proof.
  intros o. unfold AppendBulkArray. transitivity (AppendArrayReply o (zlen l)); [apply appends_array|].
  generalize (AppendArrayReply o (zlen l)). induction l as [|x l IH]; intros o'; [done|]. simpl.
  transitivity (AppendBulkReply o' x); [apply appends_bulk|apply IH].
Qed.

(** ** The invariant under changes of the world *)

Section invariant.
Context (B : Z) (tx : Tx) (o : bytes).
Abbreviation I := (Inv B tx o).

Lemma Inv_out f w : Appends f -> I w -> I (with_out (f (w_out w)) w).
Proof. intros Hf []. split; try done. simpl. etrans; [done|]. apply Hf. Qed.

Lemma Inv_tick w : I w -> I (next_tick w).
Proof. by intros []. Qed.

Lemma Inv_stats s w : I w -> start_time_us s = start_time_us (w_stats w) -> I (with_stats s w).
Proof. intros [] E. split; try done. cbn. by rewrite E. Qed.

Lemma Inv_files r cs w : I w -> I (with_files r cs w).
Proof. by intros []. Qed.

Lemma Inv_cs c w :
  I w -> (db_index c < kNumDatabases)%nat -> tx_of c = tx -> I (with_cs c w).
Proof. by intros []. Qed.

Lemma Inv_db db w :
  I w -> length (dbs_ db) = kNumDatabases ->
  (forall i k e, table db i !! k = Some e -> entry_ok B e) -> I (with_db db w).
Proof. by intros []. Qed.

(** A database whose entries come from the old one. *)
Lemma Inv_sub db w :
  I w -> length (dbs_ db) = kNumDatabases -> (forall i, table db i ⊆ table (w_db w) i) -> I (with_db db w).
Proof.
  intros HI Hl Hs. apply Inv_db; [done|done|]. intros i k e H. apply (inv_vals _ _ _ _ HI i k).
  by eapply lookup_weaken.
Qed.

Lemma drop_entry_sub idx key e db i :
  length (dbs_ db) = kNumDatabases -> (idx < kNumDatabases)%nat ->
  table (drop_entry idx key e db) i ⊆ table db i.
Proof.
  intros Hl Hi. rewrite table_drop_entry by done. destruct (decide (i = idx)) as [->|]; [|done].
  apply delete_subseteq.
Qed.

Lemma Lookup_sub now idx key db i :
  length (dbs_ db) = kNumDatabases -> (idx < kNumDatabases)%nat ->
  table (Lookup now idx key db).2 i ⊆ table db i.
Proof.
  intros Hl Hi. unfold Lookup. destruct (table db idx !! key) as [e|]; [|done].
  destruct (expired now e); [|done]. by apply (drop_entry_sub idx key e db).
Qed.

Lemma Delete_sub idx key db i :
  length (dbs_ db) = kNumDatabases -> (idx < kNumDatabases)%nat ->
  table (Delete idx key db).2 i ⊆ table db i.
Proof.
  intros Hl Hi. unfold Delete. destruct (table db idx !! key) as [e|]; [|done].
  by apply (drop_entry_sub idx key e db).
Qed.

Lemma FlushDb_dbs ord idx db : dbs_ (FlushDb ord idx db) = <[idx := ∅]> (dbs_ db).
Proof.
  unfold FlushDb, set_table. cbn [dbs_]. f_equal. generalize (ord idx None (keys_of (table db idx))).
  generalize (table db idx). intros t l. revert db. induction l as [|k l IH]; intros db; simpl; [done|].
  rewrite IH. by destruct (t !! k).
Qed.

Lemma FlushDb_sub ord idx db i : table (FlushDb ord idx db) i ⊆ table db i.
Proof.
  unfold table. rewrite FlushDb_dbs. destruct (decide (i = idx)) as [->|Hne].
  - destruct (decide (idx < length (dbs_ db))%nat).
    + rewrite list_lookup_insert_eq by done. simpl; apply (map_empty_subseteq (M := gmap bytes)).
    + by rewrite list_insert_ge by lia.
  - by rewrite list_lookup_insert_ne.
Qed.

Lemma FlushAll_keeps ord db :
  length (dbs_ (FlushAll ord db)) = length (dbs_ db) /\ forall i, table (FlushAll ord db) i ⊆ table db i.
Proof.
  unfold FlushAll. generalize (seq 0 kNumDatabases). intros l. revert db.
  induction l as [|d l IH]; intros db; simpl; [done|]. destruct (IH (FlushDb ord d db)) as [H1 H2]. split.
  - by rewrite H1, FlushDb_dbs, length_insert.
  - intros i. etrans; [apply H2|apply FlushDb_sub].
Qed.

Lemma Inv_FlushDb ord idx w : I w -> I (with_db (FlushDb ord idx (w_db w)) w).
Proof.
  intros HI. apply Inv_sub; [done| |intros; apply FlushDb_sub].
  rewrite FlushDb_dbs, length_insert. by apply (inv_dbs _ _ _ _ HI).
Qed.

Lemma Inv_FlushAll ord w : I w -> I (with_db (FlushAll ord (w_db w)) w).
Proof.
  intros HI. destruct (FlushAll_keeps ord (w_db w)) as [H1 H2].
  apply Inv_sub; [done|rewrite H1; by apply (inv_dbs _ _ _ _ HI)|done].
Qed.

Lemma Inv_max_memory cap w : I w -> I (with_db (set_max_memory cap (w_db w)) w).
Proof. by intros []. Qed.

Lemma Inv_Set idx key v x w :
  I w -> (idx < kNumDatabases)%nat -> value_ok B v -> in_i64 x = true -> I (with_db (Set_ idx key v x (w_db w)) w).
Proof.
  intros HI Hi Hv Hx. pose proof (inv_dbs _ _ _ _ HI) as Hl. apply Inv_db; [done|by rewrite Set_len|].
  intros i k e. rewrite table_Set by done. destruct (decide (i = idx)) as [->|]; [|apply (inv_vals _ _ _ _ HI)].
  destruct (decide (key = k)) as [->|Hk].
  - rewrite lookup_insert_eq. intros E. by injection E as <-.
  - rewrite lookup_insert_ne by done. apply (inv_vals _ _ _ _ HI).
Qed.

Lemma Inv_poke idx key e w :
  I w -> (idx < kNumDatabases)%nat -> entry_ok B e ->
  I (with_db (set_table idx (<[key := e]> (table (w_db w) idx)) (w_db w)) w).
Proof.
  intros HI Hi Hv. pose proof (inv_dbs _ _ _ _ HI) as Hl.
  apply Inv_db; [done|simpl; by rewrite length_insert|]. intros i k e'.
  destruct (decide (i = idx)) as [->|]; [|rewrite table_set_table_ne by done; apply (inv_vals _ _ _ _ HI)].
  rewrite table_set_table by done. destruct (decide (key = k)) as [->|Hk].
  - rewrite lookup_insert_eq. intros E. by injection E as <-.
  - rewrite lookup_insert_ne by done. apply (inv_vals _ _ _ _ HI).
Qed.
End invariant.

Lemma value_ok_mono B B' v : B <= B' -> value_ok B v -> value_ok B' v.
Proof. intros HB. destruct v; simpl; auto. intros (ks & H & Hk). exists ks. split; [done|lia]. Qed.

Lemma Inv_mono B B' tx o w : B <= B' -> Inv B tx o w -> Inv B' tx o w.
Proof.
  intros HB []. split; try done; [|lia]. intros i k e H. destruct (inv_vals0 i k e H) as [Hv Hx].
  split; [by eapply value_ok_mono|done].
Qed.

(** A pointer to a sorted set leads to a consistent one. *)
Lemma at_zset B tx o idx key z w :
  Inv B tx o w -> at_ ZSetValue idx key z (w_db w) -> zset_inv B z.
Proof.
  intros HI (e & He & Hp). pose proof (inv_vals _ _ _ _ HI _ _ _ He) as [Hv _].
  by rewrite (inj_proj _ _ Hp) in Hv.
Qed.

Lemma at_unique (T : Type) `{!Prism T} idx key (v v' : T) db : at_ T idx key v db -> at_ T idx key v' db -> v = v'.
Proof. intros (e & He & Hp) (e' & He' & Hp'). congruence. Qed.

(** ** Rules for the primitives *)

Section primitives.
Context `{O : Oracle} `{!OracleLaws O} (us : list Ub) (B : Z) (tx : Tx) (o : bytes).
Abbreviation I := (Inv B tx o).

Lemma wp_reply f Q w :
  Appends f -> I w -> (forall o', I (with_out o' w) -> Q tt (with_out o' w)) -> wp us (reply f) Q w.
Proof. intros Hf HI HQ. apply HQ. by apply Inv_out. Qed.

Lemma wp_tick Q w : I w -> (I (next_tick w) -> Q (w_tick w) (next_tick w)) -> wp us tick Q w.
Proof. intros HI HQ. by apply HQ, Inv_tick. Qed.

Lemma wp_NowMs Q w :
  I w -> (forall t, 1000 <= t <= LLONG_MAX -> I (next_tick w) -> Q t (next_tick w)) -> wp us NowMs Q w.
Proof.
  intros HI HQ. apply HQ; [|by apply Inv_tick]. pose proof (clock_range (w_tick w)) as Hc.
  rewrite Z.quot_div_nonneg by lia. split.
  - apply Z.div_le_lower_bound; lia.
  - apply Z.div_le_upper_bound; [lia|]. unfold LLONG_MAX in *. lia.
Qed.

Lemma wp_NowUs Q w :
  I w -> (forall t, 0 <= t <= LLONG_MAX -> I (next_tick w) -> Q t (next_tick w)) -> wp us NowUs Q w.
Proof.
  intros HI HQ. apply HQ; [|by apply Inv_tick]. pose proof (clock_range (w_tick w)). lia.
Qed.

Lemma wp_iterate idx k l Q w :
  I w -> (forall l', l' ≡ₚ l -> I (next_tick w) -> Q l' (next_tick w)) -> wp us (iterate idx k l) Q w.
Proof. intros HI HQ. apply HQ; [apply iter_order_perm|by apply Inv_tick]. Qed.

Lemma wp_cur_db Q w : I w -> (forall idx, (idx < kNumDatabases)%nat -> Q idx w) -> wp us cur_db Q w.
Proof. intros HI HQ. apply HQ, (inv_idx _ _ _ _ HI). Qed.

Lemma wp_check_db idx Q w : I w -> (idx < kNumDatabases)%nat -> Q tt w -> wp us (check_db idx) Q w.
Proof.
  intros HI Hi HQ. unfold check_db. apply wp_bind, wp_gets. rewrite (inv_dbs _ _ _ _ HI).
  by rewrite (proj2 (Nat.ltb_lt _ _) Hi).
Qed.

(** The lookup may drop the key it looks for, unless that has no expiry, and
    leaves the others alone. *)
Lemma wp_lookup_frame idx key Q w :
  I w -> (idx < kNumDatabases)%nat ->
  (forall r w', I w' -> table (w_db w') idx !! key = r ->
     (forall k, k <> key -> table (w_db w') idx !! k = table (w_db w) idx !! k) ->
     match table (w_db w) idx !! key with
     | Some e => r = None \/ r = Some e
     | None => r = None
     end ->
     (forall e, table (w_db w) idx !! key = Some e -> expires_at_ms e = 0 -> r = Some e) ->
     (forall e, r = Some e -> expires_at_ms e = 0 \/ 1000 <= expires_at_ms e <= LLONG_MAX) ->
     Q r w') ->
  wp us (lookup_key idx key) Q w.
Proof.
  intros HI Hi HQ. pose proof (inv_dbs _ _ _ _ HI) as Hl. unfold lookup_key.
  apply wp_bind, wp_check_db; [done|done|]. apply wp_bind, wp_NowMs; [done|]. intros t Ht HI'.
  apply wp_bind, wp_gets. cbn [w_db next_tick].
  assert (I (with_db (Lookup t idx key (w_db w)).2 (next_tick w))) as HI2.
  { apply Inv_sub; [done|by rewrite Lookup_len|]. intros i. by apply Lookup_sub. }
  unfold Lookup in HI2 |- *. destruct (table (w_db w) idx !! key) as [e|] eqn:Ek.
  2: { apply wp_bind. by apply HQ; rewrite ?Ek. }
  destruct (expired t e) eqn:Ex.
  2: { apply wp_bind. apply HQ; rewrite ?Ek; [done|done|done|by right|intros; congruence|].
       intros e' E'. injection E' as <-. destruct (inv_vals _ _ _ _ HI _ _ _ Ek) as [_ Hx].
       unfold expired, in_i64 in *. lia. }
  assert (Hdel : table (count_expired 1 (drop_entry idx key e (w_db w))) idx = delete key (table (w_db w) idx)).
  { change (table (drop_entry idx key e (w_db w)) idx = delete key (table (w_db w) idx)).
    rewrite table_drop_entry by done. by rewrite decide_True. }
  apply wp_bind. apply HQ; [exact HI2|..]; cbn [w_db with_db].
  - by rewrite Hdel, lookup_delete_eq.
  - intros k Hk. by rewrite Hdel, lookup_delete_ne.
  - by left.
  - intros e' E' Hz. injection E' as <-. unfold expired in Ex. by rewrite Hz in Ex.
  - done.
Qed.

Lemma wp_lookup idx key Q w :
  I w -> (idx < kNumDatabases)%nat ->
  (forall w', I w' -> Q None w') ->
  (forall e w', I w' -> table (w_db w') idx !! key = Some e ->
     expires_at_ms e = 0 \/ 1000 <= expires_at_ms e <= LLONG_MAX -> Q (Some e) w') ->
  wp us (lookup_key idx key) Q w.
Proof.
  intros HI Hi HN HS. apply wp_lookup_frame; [done|done|]. intros [e|] w' HI' Ek _ _ _ Hx; auto.
Qed.

Lemma wp_modify f Q w : I (f w) -> (I (f w) -> Q tt (f w)) -> wp us (modify f) Q w.
Proof. intros HI HQ. by apply HQ. Qed.

Lemma wp_each {A} (f : A -> M unit) l Q w :
  I w -> (forall x w', x ∈ l -> I w' -> wp us (f x) (fun _ => I) w') -> (forall w', I w' -> Q tt w') ->
  wp us (for_each f l) Q w.
Proof. intros HI Hf HQ. eapply wp_mono; [by apply wp_for_each|]. intros [] w' HI'. by apply HQ. Qed.

Lemma wp_fold {A C} (f : C -> A -> M C) l c Q w :
  I w -> (forall c x w', x ∈ l -> I w' -> wp us (f c x) (fun _ => I) w') -> (forall c w', I w' -> Q c w') ->
  wp us (fold_m f c l) Q w.
Proof. intros HI Hf HQ. eapply wp_mono; [by apply (wp_fold_m us f l (fun _ => I))|]. intros. by apply HQ. Qed.

Lemma wp_set_key_frame idx key v x Q w :
  I w -> (idx < kNumDatabases)%nat -> value_ok B v -> in_i64 x = true ->
  (forall w', I w' -> table (w_db w') idx !! key = Some (mkEntry v x) ->
     (forall k, k <> key -> table (w_db w') idx !! k = table (w_db w) idx !! k) -> Q tt w') ->
  wp us (set_key idx key v x) Q w.
Proof.
  intros HI Hi Hv Hx HQ. unfold set_key. apply wp_bind, wp_check_db; [done|done|].
  pose proof (table_Set (w_db w) idx key v x idx (inv_dbs _ _ _ _ HI) Hi) as Ht.
  rewrite decide_True in Ht by done.
  apply HQ; [by apply Inv_Set|..]; cbn [w_db with_db]; rewrite Ht.
  - by rewrite lookup_insert_eq.
  - intros k Hk. by rewrite lookup_insert_ne.
Qed.

Lemma wp_set_key idx key v x Q w :
  I w -> (idx < kNumDatabases)%nat -> value_ok B v -> in_i64 x = true ->
  (forall w', I w' -> table (w_db w') idx !! key = Some (mkEntry v x) -> Q tt w') ->
  wp us (set_key idx key v x) Q w.
Proof. intros HI Hi Hv Hx HQ. apply wp_set_key_frame; auto. Qed.

Lemma wp_delete_key idx key Q w :
  I w -> (idx < kNumDatabases)%nat -> (forall b w', I w' -> Q b w') -> wp us (delete_key idx key) Q w.
Proof.
  intros HI Hi HQ. pose proof (inv_dbs _ _ _ _ HI) as Hl. unfold delete_key.
  apply wp_bind, wp_check_db; [done|done|]. apply wp_bind, wp_gets.
  pose proof (Delete_sub idx key (w_db w)) as Hsub. pose proof (Delete_len idx key (w_db w)) as Hlen.
  destruct (Delete idx key (w_db w)) as [b db']. simpl in *. apply HQ.
  apply Inv_sub; [done|by rewrite Hlen|]. intros i. by apply Hsub.
Qed.

Lemma wp_poke idx key f Q w :
  I w -> (idx < kNumDatabases)%nat ->
  (forall e, table (w_db w) idx !! key = Some e -> entry_ok B e -> entry_ok B (f e)) ->
  (forall e w', I w' -> table (w_db w) idx !! key = Some e ->
     table (w_db w') idx !! key = Some (f e) -> Q tt w') ->
  (table (w_db w) idx !! key = None -> ub_in UbDangling us = true) ->
  wp us (poke idx key f) Q w.
Proof.
  intros HI Hi Hf HQ HN. pose proof (inv_dbs _ _ _ _ HI) as Hl. unfold poke. apply wp_bind, wp_gets.
  destruct (table (w_db w) idx !! key) as [e|] eqn:E; [|by apply wp_undef, HN].
  pose proof (inv_vals _ _ _ _ HI _ _ _ E) as He.
  apply (HQ e); [apply Inv_poke; auto|done|]. simpl. rewrite table_set_table by done. by rewrite lookup_insert_eq.
Qed.

Lemma wp_set_expires idx key x Q w :
  I w -> (idx < kNumDatabases)%nat -> in_i64 x = true -> (forall w', I w' -> Q tt w') ->
  (table (w_db w) idx !! key = None -> ub_in UbDangling us = true) ->
  wp us (set_expires idx key x) Q w.
Proof.
  intros HI Hi Hx HQ HN. apply wp_poke; [done|done| |eauto|done]. by intros e _ [Hv _].
Qed.

Section typed_rules.
Context (T : Type) `{!Prism T, !PrismOk T}.

Lemma wp_GetTyped idx key Q w :
  I w -> (idx < kNumDatabases)%nat ->
  (forall w', I w' -> Q kMissing w') -> (forall w', I w' -> Q kWrongType w') ->
  (forall v w', I w' -> at_ T idx key v (w_db w') -> Q (kFound v) w') ->
  wp us (GetTyped T idx key) Q w.
Proof.
  intros HI Hi HM HW HF. unfold GetTyped. apply wp_bind, wp_lookup; [done|done|intros w' HI'; by apply HM|].
  intros e w' HI' He _. apply wp_ret. destruct (proj (value e)) as [v|] eqn:E; [|by apply HW].
  apply HF; [done|]. by exists e.
Qed.

Lemma wp_deref idx key Q w :
  (forall v, at_ T idx key v (w_db w) -> Q v w) ->
  ((forall v, ~ at_ T idx key v (w_db w)) -> ub_in UbDangling us = true) ->
  wp us (deref T idx key) Q w.
Proof.
  intros HQ HN. unfold deref. apply wp_bind, wp_gets.
  destruct (table (w_db w) idx !! key) as [e|] eqn:E.
  - apply wp_from_option; [intros v Hv; apply HQ; by exists e|].
    intros Hp. apply HN. intros v (e' & He' & Hv). congruence.
  - apply wp_undef, HN. intros v (e' & He' & _). congruence.
Qed.

Lemma wp_store idx key (v : T) Q w :
  I w -> (idx < kNumDatabases)%nat -> value_ok B (inj v) ->
  (forall w', I w' -> at_ T idx key v (w_db w') -> Q tt w') ->
  ((forall v, ~ at_ T idx key v (w_db w)) -> ub_in UbDangling us = true) ->
  wp us (store idx key v) Q w.
Proof.
  intros HI Hi Hv HQ HN. apply wp_poke; [done|done|by intros e _ [_ Hx]|..].
  - intros e w' HI' He He'. apply HQ; [done|]. eexists. split; [exact He'|]. apply proj_inj.
  - intros E. apply HN. intros v' (e & He & _). congruence.
Qed.

(** The outcome of a typed lookup, with what it tells about the table. *)
Lemma wp_GetTyped_frame idx key Q w :
  I w -> (idx < kNumDatabases)%nat ->
  (forall r w', I w' ->
     match r with
     | kMissing => table (w_db w') idx !! key = None
     | kFound v => at_ T idx key v (w_db w')
     | kWrongType => True
     end ->
     (forall k, k <> key -> table (w_db w') idx !! k = table (w_db w) idx !! k) -> Q r w') ->
  wp us (GetTyped T idx key) Q w.
Proof.
  intros HI Hi HQ. unfold GetTyped. apply wp_bind, wp_lookup_frame; [done|done|].
  intros r w' HI' Er Hf _ _ _. apply wp_ret. destruct r as [e|]; [|by apply HQ].
  destruct (proj (value e)) as [v|] eqn:E; apply HQ; try done. by exists e.
Qed.

(** The value just set has no expiry, so the second lookup finds it. *)
Lemma wp_create (empty : T) idx key Q w :
  I w -> (idx < kNumDatabases)%nat -> value_ok B (inj empty) ->
  (forall w', I w' -> at_ T idx key empty (w_db w') ->
     (forall k, k <> key -> table (w_db w') idx !! k = table (w_db w) idx !! k) -> Q (Some empty) w') ->
  wp us (set_key idx key (inj empty) 0 ≫= fun _ =>
         e' ← lookup_key idx key;
         match e' with Some e' => mret (proj (value e')) | None => undef UbNull end) Q w.
Proof.
  intros HI Hi Hv HQ. apply wp_bind, wp_set_key_frame; [done|done|done|done|]. intros w1 H1 E1 F1.
  apply wp_bind, wp_lookup_frame; [done|done|]. intros r w2 H2 E2 F2 _ Hkeep _.
  rewrite (Hkeep _ E1 eq_refl) in E2 |- *. apply wp_ret. cbn [value]. rewrite proj_inj.
  apply HQ; [done|eexists; split; [exact E2|apply proj_inj]|].
  intros k Hk. by rewrite F2, F1.
Qed.

Lemma wp_create_missing (empty : T) idx key Q w :
  I w -> (idx < kNumDatabases)%nat -> value_ok B (inj empty) -> table (w_db w) idx !! key = None ->
  (forall w', I w' -> at_ T idx key empty (w_db w') ->
     (forall k, k <> key -> table (w_db w') idx !! k = table (w_db w) idx !! k) -> Q (Some empty) w') ->
  wp us (get_or_create empty idx key) Q w.
Proof.
  intros HI Hi Hv HN HQ. unfold get_or_create. apply wp_bind, wp_lookup_frame; [done|done|].
  intros r w1 H1 Er Hf Hold _ _. rewrite HN in Hold. subst r. rewrite Hold.
  apply wp_create; [done|done|done|]. intros w2 H2 A2 F2. apply HQ; [done|done|].
  intros k Hk. by rewrite F2, Hf.
Qed.

Lemma wp_get_or_create (empty : T) idx key Q w :
  I w -> (idx < kNumDatabases)%nat -> value_ok B (inj empty) ->
  (forall w', I w' -> Q None w') -> (forall v w', I w' -> at_ T idx key v (w_db w') -> Q (Some v) w') ->
  wp us (get_or_create empty idx key) Q w.
Proof.
  intros HI Hi Hv HN HS. unfold get_or_create. apply wp_bind, wp_lookup; [done|done| |].
  - intros w1 H1. apply wp_create; [done|done|done|]. intros w2 H2 A2 _. by apply HS.
  - intros e w1 H1 He _. apply wp_ret. destruct (proj (value e)) as [v|] eqn:E; [|by apply HN].
    apply HS; [done|]. by exists e.
Qed.
End typed_rules.

Lemma wp_KeyIsLiveExpired e Q w :
  I w -> (forall b w', I w' -> w_db w' = w_db w -> Q b w') -> wp us (KeyIsLiveExpired e) Q w.
Proof.
  intros HI HQ. unfold KeyIsLiveExpired. destruct (_ =? _); [by apply HQ|].
  apply wp_bind, wp_NowMs; [done|]. intros t Ht HI'. by apply HQ.
Qed.
End primitives.

(** ** Automation

    [wp_step] applies the rule for the head of the command; side conditions on
    undefined behaviour hold because it is allowed or because a hypothesis rules
    it out. *)

Lemma Inv_expires B tx o idx key e w :
  Inv B tx o w -> table (w_db w) idx !! key = Some e -> in_i64 (expires_at_ms e) = true.
Proof. intros HI He. by destruct (inv_vals _ _ _ _ HI _ _ _ He). Qed.

Lemma ParseIntStrict_in_i64 s n : ParseIntStrict s = Some n -> in_i64 n = true.
Proof. intros E%ParseIntStrict_range. unfold in_i64. lia. Qed.

Ltac in_range :=
  repeat case_match;
  first [ reflexivity | assumption | eapply ParseIntStrict_in_i64; eassumption
        | eapply Inv_expires; eassumption ].

Create HintDb inv.
#[export] Hint Resolve Inv_tick Inv_stats Inv_files Inv_FlushDb Inv_FlushAll Inv_max_memory : inv.
Create HintDb wp.

Ltac wp_excuse :=
  first
  [ intros; reflexivity
  | intros; exfalso; lia
  | intros; exfalso; unfold zlen in *; simpl in *; lia
  | intros; exfalso; unfold in_i64, LLONG_MIN, LLONG_MAX in *; lia
  | intros; exfalso; cbn [w_db next_tick with_out] in *; congruence
  | let H := fresh in intros H; exfalso; eapply H; eassumption ].

Ltac head_of t := lazymatch t with ?f _ => head_of f | _ => t end.

Ltac wp_step :=
  lazymatch goal with
  | |- wp _ (mbind _ _) _ _ => apply wp_bind
  | |- wp _ (mret _) _ _ => apply wp_ret
  | |- wp _ (gets _) _ _ => apply wp_gets
  | |- wp _ (undef _) _ _ => apply wp_undef; wp_excuse
  | |- wp _ (chk _) _ _ => apply wp_chk; [intros ?|wp_excuse]
  | |- wp _ (arg _ _) _ _ => apply wp_arg; [intros ? ?|wp_excuse]
  | |- wp _ (reply _) _ _ => eapply wp_reply; [apply _|eassumption|intros ? ?]
  | |- wp _ tick _ _ => eapply wp_tick; [eassumption|intros ?]
  | |- wp _ NowMs _ _ => eapply wp_NowMs; [eassumption|intros ? ? ?]
  | |- wp _ NowUs _ _ => eapply wp_NowUs; [eassumption|intros ? ? ?]
  | |- wp _ (iterate _ _ _) _ _ => eapply wp_iterate; [eassumption|intros ? ? ?]
  | |- wp _ cur_db _ _ => eapply wp_cur_db; [eassumption|intros ? ?]
  | |- wp _ (check_db _) _ _ => eapply wp_check_db; [eassumption|eassumption|]
  | |- wp _ (lookup_key _ _) _ _ =>
      eapply wp_lookup; [eassumption|eassumption|intros ? ?|intros ? ? ? ? ?]
  | |- wp _ (set_key _ _ _ _) _ _ =>
      eapply wp_set_key;
        [eassumption|eassumption|try exact Logic.I|try solve [in_range]|intros ? ? ?]
  | |- wp _ (delete_key _ _) _ _ => eapply wp_delete_key; [eassumption|eassumption|intros ? ? ?]
  | |- wp _ (set_expires _ _ _) _ _ =>
      eapply wp_set_expires;
        [eassumption|eassumption|try solve [in_range]|intros ? ?|wp_excuse]
  | |- wp _ (GetTyped _ _ _) _ _ =>
      eapply wp_GetTyped; [eassumption|eassumption|intros ? ?|intros ? ?|intros ? ? ? ?]
  | |- wp _ (deref _ _ _) _ _ => eapply wp_deref; [intros ? ?|wp_excuse]
  | |- wp _ (store _ _ _) _ _ =>
      eapply wp_store; [apply _|eassumption|eassumption|try exact Logic.I|intros ? ? ?|wp_excuse]
  | |- wp _ (get_or_create _ _ _) _ _ =>
      eapply wp_get_or_create;
        [apply _|eassumption|eassumption|try exact Logic.I|intros ? ?|intros ? ? ? ?]
  | |- wp _ (KeyIsLiveExpired _) _ _ => eapply wp_KeyIsLiveExpired; [eassumption|intros ? ? ? ?]
  | |- wp _ (from_option_ub _ _) _ _ => apply wp_from_option; [intros ? ?|try wp_excuse]
  | |- wp _ (modify _) _ _ => eapply wp_modify; [solve [eauto with inv]|intros ?]
  | |- wp _ (for_each _ _) _ _ => eapply wp_each; [eassumption|intros ? ? ? ?|intros ? ?]
  | |- wp _ (fold_m _ _ _) _ _ => eapply wp_fold; [eassumption|intros ? ? ? ? ?|intros ? ? ?]
  | |- wp _ (match ?x with _ => _ end) _ _ => destruct x eqn:?
  | |- wp _ ?m _ _ =>
      first [ eapply wp_mono; [solve [eauto with wp]|cbv beta; intros ? ? ?]
            | let h := head_of m in progress unfold h ]
  end; cbv beta zeta.

Ltac wp_run := repeat wp_step; try assumption.
