(* ===== verification/StringCmds.v ===== *)
(** * String commands

    Models the string branches of [Dispatch] and their helpers [CmdSet] and
    [CmdIncrBy] in [src/src/commands.cpp].  Each definition is one branch: its
    guards in the order of the code, early returns included. *)

From S2P Require Import Prelude Bytes Resp Double SkipList Db Rdb RdbFile FloatText Exec.
Local Open Scope Z_scope.

Abbreviation is_ a s := (bool_decide (a = lit s)).

(** ** SET *)

Record SetOpts := mkSetOpts {
  ex_s : Z; px_ms : Z; nx : bool; xx : bool; keepttl : bool; want_get : bool
}.

(** The option loop of [CmdSet]; [None] after a syntax error. *)
Fixpoint set_options (args : list bytes) (o : SetOpts) : option SetOpts :=
  match args with
  | [] => Some o
  | a :: rest =>
      let u := ToUpper a in
      if is_ u "NX" then set_options rest (mkSetOpts (ex_s o) (px_ms o) true (xx o) (keepttl o) (want_get o))
      else if is_ u "XX" then set_options rest (mkSetOpts (ex_s o) (px_ms o) (nx o) true (keepttl o) (want_get o))
      else if is_ u "KEEPTTL" then
        set_options rest (mkSetOpts (ex_s o) (px_ms o) (nx o) (xx o) true (want_get o))
      else if is_ u "GET" then set_options rest (mkSetOpts (ex_s o) (px_ms o) (nx o) (xx o) (keepttl o) true)
      else if is_ u "EX" then
        match rest with
        | v :: rest' =>
            match ParseIntStrict v with
            | Some n => if n <=? 0 then None
                        else set_options rest' (mkSetOpts n (px_ms o) (nx o) (xx o) (keepttl o) (want_get o))
            | None => None
            end
        | [] => None
        end
      else if is_ u "PX" then
        match rest with
        | v :: rest' =>
            match ParseIntStrict v with
            | Some n => if n <=? 0 then None
                        else set_options rest' (mkSetOpts (ex_s o) n (nx o) (xx o) (keepttl o) (want_get o))
            | None => None
            end
        | [] => None
        end
      else None
  end.

Section commands.
Context `{O : Oracle}.

Definition CmdSet (argv : list bytes) : M unit :=
  key ← arg argv 1;
  val ← arg argv 2;
  match set_options (drop 3 argv) (mkSetOpts (-1) (-1) false false false false) with
  | None => ErrSyntax
  | Some o =>
      if nx o && xx o then ErrSyntax else
      idx ← cur_db;
      e ← lookup_key idx key;
      let finish : M unit :=
        if (match e with Some _ => true | None => false end) && nx o then
          if want_get o then mret tt else reply_null
        else if (match e with Some _ => false | None => true end) && xx o then
          if want_get o then mret tt else reply_null
        else
          let keep_ttl := match e with Some e => if keepttl o then expires_at_ms e else 0 | None => 0 end in
          expires ← (if 0 <? ex_s o then
                       now ← NowMs; ms ← chk (ex_s o * 1000); chk (now + ms)
                     else mret keep_ttl);
          expires ← (if 0 <? px_ms o then now ← NowMs; chk (now + px_ms o) else mret expires);
          set_key idx key (RawString val) expires ≫= fun _ =>
          if want_get o then mret tt else reply_simple (lit "OK") in
      if want_get o then
        match e with
        | None => reply_null ≫= fun _ => finish
        | Some e =>
            match value e with
            | RawString s => reply_bulk s ≫= fun _ => finish
            | _ => ErrWrongType
            end
        end
      else finish
  end.

(** ** Counters *)

(** The part of [CmdIncrBy] for integers. *)
Definition incr_int (idx : nat) (key s : bytes) (by_ : Z) : M unit :=
  match (if bool_decide (s = []) then Some 0 else ParseIntStrict s) with
  | None => ErrNotInt
  | Some cur =>
      let res := cur + by_ in
      if negb (in_i64 res) then ErrNotInt
      else store (T := bytes) idx key (print_signed res) ≫= fun _ => reply_int res
  end.

(** The part of [CmdIncrBy] for floating point. *)
Definition incr_float (idx : nat) (key s : bytes) (argv : list bytes) : M unit :=
  match (if bool_decide (s = []) then Some (S754_zero false) else parse_strict ld_prec ld_emax s) with
  | None => ErrNotFloat
  | Some cur =>
      a ← arg argv 2;
      match parse_strict ld_prec ld_emax a with
      | None => ErrNotFloat
      | Some delta =>
          let res := SFadd ld_prec ld_emax cur delta in
          if isnan res || isinf res then ErrIncrOverflow
          else
            t ← from_option_ub UbBuffer (FormatLongDouble res);
            store (T := bytes) idx key t ≫= fun _ => reply_bulk t
      end
  end.

Definition CmdIncrBy (argv : list bytes) (by_ : Z) (is_float : bool) : M unit :=
  key ← arg argv 1;
  idx ← cur_db;
  rs ← GetOrCreateStringEntry idx key;
  match rs with
  | None => ErrWrongType
  | Some s => if is_float then incr_float idx key s argv else incr_int idx key s by_
  end.

(** ** The branches of Dispatch *)

Definition cmd_GET (argv : list bytes) : M unit :=
  key ← arg argv 1; idx ← cur_db; st ← GetTyped bytes idx key;
  match st with
  | kWrongType => ErrWrongType
  | kMissing => reply_null
  | kFound s => reply_bulk s
  end.

Definition cmd_SETNX (argv : list bytes) : M unit :=
  key ← arg argv 1; idx ← cur_db; e ← lookup_key idx key;
  match e with
  | Some _ => reply_int 0
  | None =>
      v ← arg argv 2;
      set_key idx key (RawString v) 0 ≫= fun _ => reply_int 1
  end.

Definition cmd_SETEX (ms : bool) (argv : list bytes) : M unit :=
  a ← arg argv 2;
  match ParseIntStrict a with
  | None => ErrNotInt
  | Some v =>
      if v <=? 0 then ErrNotInt else
      now ← NowMs;
      d ← (if ms then mret v else chk (v * 1000));
      expires ← chk (now + d);
      key ← arg argv 1; val ← arg argv 3; idx ← cur_db;
      set_key idx key (RawString val) expires ≫= fun _ => reply_simple (lit "OK")
  end.

Definition cmd_GETSET (argv : list bytes) : M unit :=
  key ← arg argv 1; idx ← cur_db; st ← GetTyped bytes idx key;
  let set_new : M unit := v ← arg argv 2; set_key idx key (RawString v) 0 in
  match st with
  | kWrongType => ErrWrongType
  | kMissing => reply_null ≫= fun _ => set_new
  | kFound s => reply_bulk s ≫= fun _ => set_new
  end.

Definition cmd_GETDEL (argv : list bytes) : M unit :=
  key ← arg argv 1; idx ← cur_db; st ← GetTyped bytes idx key;
  match st with
  | kWrongType => ErrWrongType
  | kMissing => reply_null
  | kFound s => reply_bulk s ≫= fun _ => _ ← delete_key idx key; mret tt
  end.

Definition cmd_GETRANGE (argv : list bytes) : M unit :=
  key ← arg argv 1; idx ← cur_db; st ← GetTyped bytes idx key;
  match st with
  | kWrongType => ErrWrongType
  | _ =>
      let s := match st with kFound s => s | _ => [] end in
      let len := zlen s in
      a ← arg argv 2; b ← arg argv 3;
      match ParseIntStrict a, ParseIntStrict b with
      | Some start, Some end_ =>
          if len =? 0 then reply_bulk [] else
          let start := if start <? 0 then start + len else start in
          let end_ := if end_ <? 0 then end_ + len else end_ in
          let start := if start <? 0 then 0 else start in
          let end_ := if end_ >=? len then len - 1 else end_ in
          if (start >? end_) || (start >=? len) || (end_ <? 0) then reply_bulk []
          else reply_bulk (substr s (Z.to_nat start) (Z.to_nat (end_ - start + 1)))
      | _, _ => ErrNotInt
      end
  end.

Definition cmd_SETRANGE (argv : list bytes) : M unit :=
  a ← arg argv 2;
  match ParseIntStrict a with
  | None => reply_error (lit "ERR offset is out of range")
  | Some offset =>
      if offset <? 0 then reply_error (lit "ERR offset is out of range") else
      v ← arg argv 3;
      total ← chk (offset + zlen v);
      if total >? 512 * 1024 * 1024 then
        reply_error (lit "ERR string exceeds maximum allowed size (proto-max-bulk-len)")
      else
        key ← arg argv 1; idx ← cur_db;
        rs ← GetOrCreateStringEntry idx key;
        match rs with
        | None => ErrWrongType
        | Some s =>
            let s1 := s ++ replicate (Z.to_nat (offset + zlen v - zlen s)) (byte_of 0) in
            let s2 := take (Z.to_nat offset) s1 ++ v ++ drop (Z.to_nat offset + length v) s1 in
            store (T := bytes) idx key s2 ≫= fun _ => reply_int (zlen s2)
        end
  end.

Definition cmd_STRLEN (argv : list bytes) : M unit :=
  key ← arg argv 1; idx ← cur_db; st ← GetTyped bytes idx key;
  match st with
  | kWrongType => ErrWrongType
  | kFound s => reply_int (zlen s)
  | kMissing => reply_int 0
  end.

Definition cmd_APPEND (argv : list bytes) : M unit :=
  key ← arg argv 1; idx ← cur_db;
  rs ← GetOrCreateStringEntry idx key;
  match rs with
  | None => ErrWrongType
  | Some s =>
      v ← arg argv 2;
      store (T := bytes) idx key (s ++ v) ≫= fun _ => reply_int (zlen (s ++ v))
  end.

Definition cmd_INCR (argv : list bytes) : M unit :=
  a0 ← arg argv 0; a1 ← arg argv 1; CmdIncrBy [a0; a1; lit "1"] 1 false.
Definition cmd_DECR (argv : list bytes) : M unit :=
  a0 ← arg argv 0; a1 ← arg argv 1; CmdIncrBy [a0; a1; lit "-1"] (-1) false.

Definition cmd_INCRBY (argv : list bytes) : M unit :=
  a ← arg argv 2;
  match ParseIntStrict a with
  | None => ErrNotInt
  | Some by_ => CmdIncrBy argv by_ false
  end.

Definition cmd_DECRBY (argv : list bytes) : M unit :=
  a ← arg argv 2;
  match ParseIntStrict a with
  | None => ErrNotInt
  | Some by_ => if negb (in_i64 (- by_)) then ErrNotInt else CmdIncrBy argv (- by_) false
  end.

Definition cmd_INCRBYFLOAT (argv : list bytes) : M unit := CmdIncrBy argv 0 true.

Definition cmd_MGET (argv : list bytes) : M unit :=
  reply_array (zlen argv - 1) ≫= fun _ =>
  for_each (fun key =>
    idx ← cur_db; st ← GetTyped bytes idx key;
    match st with kFound s => reply_bulk s | _ => reply_null end) (drop 1 argv).

(** The pairs of [for (i = 1; i < argc; i += 2)]; a missing partner is read out
    of range. *)
Fixpoint pairs_of (l : list bytes) : list (bytes * option bytes) :=
  match l with
  | a :: b :: r => (a, Some b) :: pairs_of r
  | [a] => [(a, None)]
  | [] => []
  end.

(** The check of [MSETNX]: is one of the keys there? *)
Fixpoint any_exists (idx : nat) (keys : list bytes) : M bool :=
  match keys with
  | [] => mret false
  | k :: r => e ← lookup_key idx k; match e with Some _ => mret true | None => any_exists idx r end
  end.

Definition cmd_MSET (only_new : bool) (lower : bytes) (argv : list bytes) : M unit :=
  if negb ((zlen argv - 1) mod 2 =? 0) then ErrWrongArgs lower else
  idx ← cur_db;
  let ps := pairs_of (drop 1 argv) in
  found ← (if only_new then any_exists idx (ps.*1) else mret false);
  if found : bool then reply_int 0
  else
    for_each (fun p => v ← from_option_ub UbIndex p.2; set_key idx p.1 (RawString v) 0) ps ≫= fun _ =>
    if only_new then reply_int 1 else reply_simple (lit "OK").
End commands.
