(* ===== verification/KeyCmds.v ===== *)
(** * Key commands

    Models the key and TTL branches of [Dispatch] in [src/src/commands.cpp],
    [CmdExpire] and the pattern matcher [GlobMatch]. *)

From S2P Require Import Prelude Bytes Resp Double SkipList Db Rdb RdbFile FloatText Exec StringCmds.
Local Open Scope Z_scope.

(** ** Sorting: [std::sort] on strings *)

Fixpoint insert_bytes (x : bytes) (l : list bytes) : list bytes :=
  match l with
  | [] => [x]
  | y :: r => if bytes_leb x y then x :: l else y :: insert_bytes x r
  end.
Definition sort_bytes (l : list bytes) : list bytes := foldr insert_bytes [] l.

(** ** GlobMatch *)

(** The final loop: only stars may be left. *)
Fixpoint skip_stars (p : bytes) : bytes :=
  match p with
  | c :: r => if bool_decide (c = "*"%char) then skip_stars r else p
  | [] => []
  end.

(** The main loop.  [p] and [s] are the rest of the pattern and of the string;
    [star] holds the pattern after the last star and the string at [star_s]. *)
Fixpoint glob_loop (fuel : nat) (p s : bytes) (star : option (bytes * bytes)) : option bool :=
  match s with
  | [] => Some (bool_decide (skip_stars p = []))
  | x :: s' =>
      match fuel with
      | O => None
      | S f =>
          match p with
          | c :: p' =>
              if bool_decide (c = "?"%char) || bool_decide (c = x) then glob_loop f p' s' star
              else if bool_decide (c = "*"%char) then glob_loop f p' s (Some (p', s))
              else
                match star with
                | Some (sp, ss) => glob_loop f sp (drop 1 ss) (Some (sp, drop 1 ss))
                | None => Some false
                end
          | [] =>
              match star with
              | Some (sp, ss) => glob_loop f sp (drop 1 ss) (Some (sp, drop 1 ss))
              | None => Some false
              end
          end
      end
  end.

(** Every step of the loop advances in the pattern or in the string, or moves
    the point of the last star forward. *)
Definition glob_fuel (p s : bytes) : nat := (S (length s) * S (S (length p + length s)))%nat.

Definition GlobMatch (pattern str : bytes) : bool :=
  default false (glob_loop (glob_fuel pattern str) pattern str None).

Section commands.
Context `{O : Oracle}.

(** ** Presence *)

Definition cmd_DEL (argv : list bytes) : M unit :=
  idx ← cur_db;
  n ← fold_m (fun n k => b ← delete_key idx k; mret (if b : bool then n + 1 else n)) 0 (drop 1 argv);
  reply_int n.

Definition cmd_EXISTS (argv : list bytes) : M unit :=
  idx ← cur_db;
  n ← fold_m (fun n k => e ← lookup_key idx k; mret (match e with Some _ => n + 1 | None => n end)) 0
        (drop 1 argv);
  reply_int n.

(** ** Enumeration *)

(** The loop of KEYS: the matching live keys and the stale ones. *)
Definition keys_loop (pattern : bytes) (t : Table) (acc : list bytes * list bytes) (k : bytes)
    : M (list bytes * list bytes) :=
  match t !! k with
  | None => mret acc
  | Some e =>
      stale ← KeyIsLiveExpired e;
      mret (if stale : bool then (acc.1, acc.2 ++ [k])
            else if GlobMatch pattern k then (acc.1 ++ [k], acc.2) else acc)
  end.

Definition count_expired_key : M unit :=
  modify (fun w => let s := w_stats w in
    with_stats (mkStats (total_commands s) (total_connections s) (rejected_connections s)
      (u64 (expired_keys s + 1)) (start_time_us s) (connected_clients s)
      (shutdown_requested s) (shutdown_nosave s)) w).

Definition cmd_KEYS (argv : list bytes) : M unit :=
  idx ← cur_db;
  check_db idx ≫= fun _ =>
  pattern ← arg argv 1;
  db ← gets w_db;
  let t := table db idx in
  order ← iterate idx None (keys_of t);
  r ← fold_m (keys_loop pattern t) ([], []) order;
  for_each (fun k => _ ← delete_key idx k; count_expired_key) r.2 ≫= fun _ =>
  reply_bulk_array (sort_bytes r.1).

(** The option loop of SCAN; [inr true]: not an integer, [inr false]: syntax. *)
Fixpoint scan_options (args : list bytes) (pattern : bytes) (count : Z) : (bytes * Z) + bool :=
  match args with
  | [] => inl (pattern, count)
  | a :: rest =>
      let u := ToUpper a in
      if is_ u "MATCH" && negb (bool_decide (rest = [])) then
        match rest with p :: rest' => scan_options rest' p count | [] => inr false end
      else if is_ u "COUNT" && negb (bool_decide (rest = [])) then
        match rest with
        | c :: rest' =>
            match ParseIntStrict c with
            | Some n => if n <? 0 then inr true else scan_options rest' pattern n
            | None => inr true
            end
        | [] => inr false
        end
      else inr false
  end.

Fixpoint scan_loop (pattern : bytes) (count : Z) (t : Table) (order : list bytes) (acc : list bytes)
    : M (list bytes) :=
  match order with
  | [] => mret acc
  | k :: rest =>
      match t !! k with
      | None => scan_loop pattern count t rest acc
      | Some e =>
          stale ← KeyIsLiveExpired e;
          if stale : bool then scan_loop pattern count t rest acc
          else
            let acc := if GlobMatch pattern k then acc ++ [k] else acc in
            if (0 <=? count) && (count <=? zlen acc) then mret acc
            else scan_loop pattern count t rest acc
      end
  end.

Definition cmd_SCAN (argv : list bytes) : M unit :=
  a ← arg argv 1;
  match ParseIntStrict a with
  | None => reply_error (lit "ERR invalid cursor")
  | Some cursor =>
      if negb (cursor =? 0) then reply_error (lit "ERR invalid cursor") else
      match scan_options (drop 2 argv) (lit "*") (-1) with
      | inr true => ErrNotInt
      | inr false => ErrSyntax
      | inl (pattern, count) =>
          idx ← cur_db;
          check_db idx ≫= fun _ =>
          db ← gets w_db;
          let t := table db idx in
          order ← iterate idx None (keys_of t);
          keys ← scan_loop pattern count t order [];
          reply_array 2 ≫= fun _ =>
          reply_bulk (lit "0") ≫= fun _ =>
          reply_bulk_array (sort_bytes keys)
      end
  end.

Definition cmd_RANDOMKEY (argv : list bytes) : M unit :=
  idx ← cur_db;
  check_db idx ≫= fun _ =>
  db ← gets w_db;
  let t := table db idx in
  if bool_decide (t = ∅) then reply_null else
  order ← iterate idx None (keys_of t);
  n ← tick;
  k ← from_option_ub UbIndex (order !! Z.to_nat (rng32 n mod Z.of_nat (size t)));
  e ← from_option_ub UbIndex (t !! k);
  stale ← KeyIsLiveExpired e;
  if stale : bool then
    _ ← delete_key idx k;
    count_expired_key ≫= fun _ => reply_null
  else reply_bulk k.

Definition cmd_TYPE (argv : list bytes) : M unit :=
  key ← arg argv 1; idx ← cur_db; e ← lookup_key idx key;
  match e with
  | None => reply_simple (lit "none")
  | Some e => reply_simple (ValueTypeName (TypeOf (value e)))
  end.

(** [Entry copy = std::move( *e )] leaves a moved-from value in the table, which
    [Delete] then measures. *)
Definition cmd_RENAME (argv : list bytes) : M unit :=
  oldk ← arg argv 1; newk ← arg argv 2; idx ← cur_db;
  e ← lookup_key idx oldk;
  match e with
  | None => reply_error (lit "ERR no such key")
  | Some e =>
      if bool_decide (oldk = newk) then reply_simple (lit "OK") else
      n ← tick;
      poke idx oldk (fun e => mkEntry (moved_from n (value e)) (expires_at_ms e)) ≫= fun _ =>
      _ ← delete_key idx oldk;
      set_key idx newk (value e) (expires_at_ms e) ≫= fun _ =>
      reply_simple (lit "OK")
  end.

(** ** Time to live *)

Definition CmdExpire (argv : list bytes) (at_ ms : bool) : M unit :=
  key ← arg argv 1; a ← arg argv 2;
  match ParseIntStrict a with
  | None => ErrNotInt
  | Some v =>
      idx ← cur_db;
      e ← lookup_key idx key;
      match e with
      | None => reply_int 0
      | Some _ =>
          expires ← (if at_ then (if ms then mret v else chk (v * 1000))
                     else now ← NowMs; d ← (if ms then mret v else chk (v * 1000)); chk (now + d));
          set_expires idx key expires ≫= fun _ => reply_int 1
      end
  end.

Definition cmd_TTL (ms : bool) (argv : list bytes) : M unit :=
  key ← arg argv 1; idx ← cur_db; e ← lookup_key idx key;
  match e with
  | None => reply_int (-2)
  | Some e =>
      if expires_at_ms e =? 0 then reply_int (-1) else
      now ← NowMs;
      rem ← chk (expires_at_ms e - now);
      if rem <=? 0 then reply_int (-2)
      else if ms then reply_int rem
      else r ← chk (rem + 999); reply_int (Z.quot r 1000)
  end.

Definition cmd_PERSIST (argv : list bytes) : M unit :=
  key ← arg argv 1; idx ← cur_db; e ← lookup_key idx key;
  match e with
  | None => reply_int 0
  | Some e =>
      if expires_at_ms e =? 0 then reply_int 0
      else set_expires idx key 0 ≫= fun _ => reply_int 1
  end.
End commands.
