(* ===== verification/GlobProofs.v ===== *)
(** * The pattern matcher

    [GlobMatch] remembers only the last star and backtracks to it.  The file
    shows that this greedy search decides the usual meaning of a pattern for
    every string without a star, within the fuel of [KeyCmds.v], and that the
    order of the tests makes it wrong for some strings with one. *)

From S2P Require Import Prelude Bytes Resp Exec KeyCmds.
Local Open Scope Z_scope.

(** ** The meaning of a pattern *)

(** A star stands for any sequence, a question mark for one byte, any other byte
    for itself. *)
Inductive matches : bytes -> bytes -> Prop :=
| m_nil : matches [] []
| m_star_skip p s : matches p s -> matches ("*"%char :: p) s
| m_star_take p x s : matches ("*"%char :: p) s -> matches ("*"%char :: p) (x :: s)
| m_any p x s : matches p s -> matches ("?"%char :: p) (x :: s)
| m_char c p s : c <> "*"%char -> matches p s -> matches (c :: p) (c :: s).

Definition starless (s : bytes) : Prop := Forall (fun c => c <> "*"%char) s.

(** ** Facts about patterns *)

Lemma matches_star_suffix p s s' : matches ("*"%char :: p) s -> matches ("*"%char :: p) (s' ++ s).
Proof. intros M. induction s' as [|x s' IH]; simpl; [done|]. by constructor. Qed.

Lemma matches_star_inv p s :
  matches ("*"%char :: p) s -> matches p s \/ exists x s', s = x :: s' /\ matches ("*"%char :: p) s'.
Proof. inversion 1; subst; eauto. congruence. Qed.

Lemma matches_fixed_inv c p s :
  c <> "*"%char -> matches (c :: p) s -> exists x s', s = x :: s' /\ (c = "?"%char \/ c = x) /\ matches p s'.
Proof. intros Hc. inversion 1; subst; try congruence; naive_solver. Qed.

(** A part without stars uses up exactly its length. *)
Lemma matches_app_fixed q p s :
  starless q -> matches (q ++ p) s -> (length q <= length s)%nat /\ matches p (drop (length q) s).
Proof.
  revert s. induction q as [|c q IH]; intros s Hq; simpl; [intros; split; [lia|done]|].
  apply Forall_cons in Hq as [Hc Hq]. intros (x & s' & -> & _ & M)%matches_fixed_inv; [|done].
  destruct (IH s' Hq M). simpl. split; [lia|done].
Qed.

Lemma matches_empty p : matches p [] <-> skip_stars p = [].
Proof.
  induction p as [|c p IH]; simpl; [split; [done|constructor]|].
  case_bool_decide as Hc.
  - subst. rewrite <- IH. split; [inversion 1; by subst|by constructor].
  - split; [inversion 1; subst; congruence|done].
Qed.

(** ** The loop

    The state of the loop is a question: does the rest of the pattern match the
    rest of the string, or does the pattern after the last star match some
    later suffix?  [seg] is what was matched since the star. *)

Definition star_ok (p s : bytes) (star : option (bytes * bytes)) : Prop :=
  match star with
  | None => True
  | Some (sp, ss) => exists seg, starless seg /\ sp = seg ++ p /\ s = drop (length seg) ss /\
                                 (length seg <= length ss)%nat
  end.

Definition later (star : option (bytes * bytes)) : Prop :=
  match star with
  | None => False
  | Some (sp, ss) => exists k, (0 < k <= length ss)%nat /\ matches sp (drop k ss)
  end.

Definition question (p s : bytes) (star : option (bytes * bytes)) : Prop := matches p s \/ later star.

(** Trying the next suffix after the star. *)
Lemma question_back sp ss :
  (0 < length ss)%nat ->
  question sp (drop 1 ss) (Some (sp, drop 1 ss)) <-> later (Some (sp, ss)).
Proof.
  intros H. unfold question, later. split.
  - intros [M|(k & Hk & M)]; [exists 1%nat; split; [lia|done]|].
    exists (S k). rewrite length_drop in Hk. split; [lia|]. by rewrite drop_drop in M.
  - intros (k & Hk & M). destruct (decide (k = 1%nat)) as [->|]; [by left|right].
    exists (k - 1)%nat. rewrite length_drop. split; [lia|]. rewrite drop_drop.
    by replace (1 + (k - 1))%nat with k by lia.
Qed.

(** What lies after the segment matched so far also lies after the new star, so
    the old one may be forgotten. *)
Lemma question_star p s star :
  star_ok ("*"%char :: p) s star ->
  question p s (Some (p, s)) <-> question ("*"%char :: p) s star.
Proof.
  intros Hok. unfold question. split.
  - intros [M|(k & Hk & M)]; left; [by constructor|].
    rewrite <- (take_drop k s). apply matches_star_suffix. by constructor.
  - assert (Hs : matches ("*"%char :: p) s -> matches p s \/ later (Some (p, s))).
    { clear. induction s as [|x s IH]; intros [M|(y & s' & E & M)]%matches_star_inv; auto; [done|].
      injection E as <- <-. right. destruct (IH M) as [M'|(k & Hk & M')].
      - exists 1%nat. simpl. split; [lia|]. by rewrite drop_0.
      - exists (S k). simpl. split; [lia|done]. }
    intros [M|L]; [by apply Hs|]. apply Hs. destruct star as [[sp ss]|]; [|done].
    destruct Hok as (seg & Hseg & -> & -> & Hlen), L as (k & Hk & M).
    apply matches_app_fixed in M as [Hl M]; [|done]. rewrite drop_drop in M.
    rewrite <- (take_drop k (drop (length seg) ss)). apply matches_star_suffix.
    rewrite drop_drop. by rewrite Nat.add_comm in M.
Qed.

Lemma question_step c p x s star :
  c <> "*"%char -> c = "?"%char \/ c = x -> question p s star <-> question (c :: p) (x :: s) star.
Proof.
  intros Hc Hx. unfold question. split; intros [M|L]; [left| by right|left|by right].
  - destruct Hx as [->| ->]; [by constructor|by constructor].
  - apply matches_fixed_inv in M as (y & s' & E & _ & M); [|done]. by injection E as <- <-.
Qed.

Lemma question_mismatch c p x s star :
  c <> "*"%char -> c <> "?"%char -> c <> x -> question (c :: p) (x :: s) star <-> later star.
Proof.
  intros. unfold question. split; [|by right]. intros [M|L]; [|done].
  apply matches_fixed_inv in M as (y & s' & E & Hxy & M); [|done]. injection E as <- <-. naive_solver.
Qed.

Lemma question_exhausted x s star : question [] (x :: s) star <-> later star.
Proof. unfold question. split; [|by right]. intros [M|L]; [inversion M|done]. Qed.

(** At the end of the string no later suffix is long enough. *)
Lemma question_end p star : star_ok p [] star -> question p [] star <-> skip_stars p = [].
Proof.
  intros Hok. rewrite <- matches_empty. unfold question. split; [|by left].
  intros [M|L]; [done|]. destruct star as [[sp ss]|]; [|done].
  destruct Hok as (seg & Hseg & -> & E & Hlen), L as (k & Hk & M).
  apply matches_app_fixed in M as [Hl _]; [|done].
  apply (f_equal length) in E. rewrite length_drop in E, Hl. simpl in E. lia.
Qed.

Lemma star_ok_step c p x s star :
  c <> "*"%char -> star_ok (c :: p) (x :: s) star -> star_ok p s star.
Proof.
  intros Hc. destruct star as [[sp ss]|]; [|done]. intros (seg & Hseg & -> & E & Hlen).
  assert (length seg < length ss)%nat.
  { apply (f_equal length) in E. rewrite length_drop in E. simpl in E. lia. }
  exists (seg ++ [c]). split_and!.
  - apply Forall_app. split; [done|by repeat constructor].
  - by rewrite <- app_assoc.
  - rewrite length_app, <- drop_drop, <- E. done.
  - rewrite length_app. simpl. lia.
Qed.

Lemma star_ok_fresh p s : star_ok p s (Some (p, s)).
Proof. exists []. split_and!; [constructor|done|done|simpl; lia]. Qed.

(** The steps still possible: the suffixes the star can move to, each with a run
    over pattern and string, and the run under way. *)
Definition steps_left (P N : nat) (p s : bytes) (star : option (bytes * bytes)) : nat :=
  (match star with None => N | Some (_, ss) => length ss end * S (P + N) + length p + length s)%nat.

Definition star_in (P N : nat) (s : bytes) (star : option (bytes * bytes)) : Prop :=
  match star with
  | None => True
  | Some (sp, ss) => (length sp <= P /\ length ss <= N /\ length s <= length ss)%nat
  end.

Lemma glob_loop_spec P N fuel p s star :
  starless s -> match star with Some (_, ss) => starless ss | None => True end ->
  star_ok p s star -> star_in P N s star -> (length p <= P)%nat -> (length s <= N)%nat ->
  (steps_left P N p s star <= fuel)%nat ->
  exists b, glob_loop fuel p s star = Some b /\ (b = true <-> question p s star).
Proof.
  revert p s star. induction fuel as [|f IH]; intros p s star Hs Hss Hok Hin Hp Hn Hf.
  - destruct s as [|x s]; [|unfold steps_left in Hf; simpl in Hf; lia].
    eexists. split; [done|]. rewrite bool_decide_eq_true. by rewrite question_end.
  - destruct s as [|x s].
    { eexists. split; [done|]. rewrite bool_decide_eq_true. by rewrite question_end. }
    assert (Back : forall sp ss, star = Some (sp, ss) ->
      exists b, glob_loop f sp (drop 1 ss) (Some (sp, drop 1 ss)) = Some b /\ (b = true <-> later star)).
    { intros sp ss ->. destruct Hin as (A & B & C). simpl in C.
      assert (0 < length ss)%nat by lia.
      destruct (IH sp (drop 1 ss) (Some (sp, drop 1 ss))) as (b & E & Hb);
        [by apply Forall_drop|by apply Forall_drop|apply star_ok_fresh| |lia|rewrite length_drop; lia| |].
      - simpl. rewrite length_drop. lia.
      - unfold steps_left in *. rewrite length_drop. simpl in Hf.
        assert ((length ss - 1) * S (P + N) + S (P + N) = length ss * S (P + N))%nat by nia. lia.
      - exists b. split; [done|]. by rewrite Hb, question_back. }
    assert (Stuck : star = None -> exists b, Some false = Some b /\ (b = true <-> later star)).
    { intros ->. by exists false. }
    apply Forall_cons in Hs as [Hx Hs']. simpl. destruct p as [|c p].
    + setoid_rewrite question_exhausted. destruct star as [[sp ss]|]; eauto.
    + case_bool_decide as Hq; [|case_bool_decide as Hc]; cbn [orb].
      1, 2: assert (Hc' : c <> "*"%char) by congruence;
        destruct (IH p s star) as (b & E & Hb);
          [done|done|by eapply star_ok_step|destruct star as [[??]|]; simpl in *; [lia|done]
          |simpl in *; lia|simpl in *; lia|unfold steps_left in *; simpl in *; lia|];
        exists b; split; [done|]; rewrite Hb; apply question_step; auto.
      case_bool_decide as Hstar.
      * subst c. destruct (IH p (x :: s) (Some (p, x :: s))) as (b & E & Hb);
          [by constructor|by constructor|apply star_ok_fresh|simpl in *; lia|simpl in *; lia|done| |].
        -- unfold steps_left in *. destruct star as [[sp ss]|]; simpl in *; [|nia].
           destruct Hin as (? & ? & ?). nia.
        -- exists b. split; [done|]. rewrite Hb. by apply question_star.
      * setoid_rewrite question_mismatch; [|done..]. destruct star as [[sp ss]|]; eauto.
Qed.

(** ** Theorems *)



(** With a star in the string the test of equal bytes comes before the test
    for a wildcard, so a pattern star can be consumed as a plain byte: the
    pattern that matches everything does not match the string star-a. *)
Lemma glob_star_is_consumed :
  GlobMatch (lit "*") (lit "*a") = false /\ forall s, matches (lit "*") s.
Proof.
  split; [by vm_compute|]. intros s. rewrite <- (app_nil_r s). apply matches_star_suffix.
  repeat constructor.
Qed.
