(* ===== verification/SortProofs.v ===== *)
(** * Sorted replies

    The sort that KEYS, SMEMBERS and their like apply to what they collected:
    its result is sorted, a permutation, and so independent of the order in which
    the hash tables were walked. *)

From stdpp Require Import sorting.
From S2P Require Import Prelude Bytes Exec KeyCmds.
Local Open Scope Z_scope.

(** [operator<=] on [std::string]. *)
Definition bytes_le (a b : bytes) : Prop := bytes_leb a b = true.

Lemma bytes_le_alt a b : bytes_le a b <-> a = b \/ bytes_compare a b = Lt.
Proof.
  unfold bytes_le, bytes_leb. destruct (bytes_compare a b) eqn:E; split; auto; try done.
  - apply bytes_compare_eq in E. auto.
  - intros [->|]; [by rewrite bytes_compare_refl in E|done].
Qed.

#[export] Instance bytes_le_trans : Transitive bytes_le.
Proof.
  intros a b c. rewrite !bytes_le_alt. intros [->|H1] [->|H2]; auto. right. by eapply bytes_compare_trans.
Qed.

#[export] Instance bytes_le_antisym : AntiSymm (=) bytes_le.
Proof.
  intros a b. rewrite !bytes_le_alt. intros [->|H1] [H2|H2]; auto.
  by rewrite bytes_compare_antisym, H1 in H2.
Qed.

Lemma bytes_leb_total a b : bytes_leb a b = false -> bytes_le b a.
Proof.
  unfold bytes_le, bytes_leb. rewrite (bytes_compare_antisym a b). by destruct (bytes_compare a b).
Qed.

Lemma insert_bytes_perm x l : insert_bytes x l ≡ₚ x :: l.
Proof.
  induction l as [|y l IH]; [done|]. cbn [insert_bytes]. destruct (bytes_leb x y); [done|].
  rewrite IH. apply Permutation_swap.
Qed.

Lemma sort_bytes_perm l : sort_bytes l ≡ₚ l.
Proof. induction l as [|x l IH]; [done|]. simpl. by rewrite insert_bytes_perm, IH. Qed.

Lemma insert_bytes_sorted x l : Sorted bytes_le l -> Sorted bytes_le (insert_bytes x l).
Proof.
  induction l as [|y l IH]; intros Hs; [by repeat constructor|]. cbn [insert_bytes].
  destruct (bytes_leb x y) eqn:E; [constructor; [done|by constructor]|].
  apply Sorted_inv in Hs as [Hs Hy]. constructor; [by apply IH|]. apply bytes_leb_total in E.
  destruct l as [|z l]; [by constructor|]. cbn [insert_bytes]. destruct (bytes_leb x z); [by constructor|].
  inversion Hy; subst. by constructor.
Qed.

Lemma sort_bytes_sorted l : Sorted bytes_le (sort_bytes l).
Proof. induction l; simpl; [constructor|by apply insert_bytes_sorted]. Qed.

(** The order of the input does not matter. *)
#[export] Instance sort_bytes_proper : Proper ((≡ₚ) ==> (=)) sort_bytes.
Proof.
  intros l1 l2 H. apply (Sorted_unique bytes_le); [apply sort_bytes_sorted..|]. by rewrite !sort_bytes_perm.
Qed.
