(* ===== verification/HashCmds.v ===== *)
(** * Hash commands

    Models the hash branches of [Dispatch] in [src/src/commands.cpp].  HGET,
    HMGET and HSTRLEN evaluate [h->h.end()] with a null [h] when the key is
    missing; the model gives them the reply the comparison of two end iterators
    leads to.  HDEL erases through the null pointer, which is [Undef]. *)

From S2P Require Import Prelude Bytes Resp Double SkipList Db Rdb RdbFile FloatText Exec StringCmds KeyCmds.
Local Open Scope Z_scope.

Abbreviation Hash := (gmap bytes bytes).

Section commands.
Context `{O : Oracle}.

(** The loop of HSET: the number of new fields and the hash. *)
Definition hset_pair (acc : Z * Hash) (p : bytes * option bytes) : M (Z * Hash) :=
  v ← from_option_ub UbIndex p.2;
  mret (match acc.2 !! p.1 with Some _ => acc.1 | None => acc.1 + 1 end, <[p.1 := v]> acc.2).

Definition cmd_HSET (hmset : bool) (lower : bytes) (argv : list bytes) : M unit :=
  if negb ((zlen argv - 2) mod 2 =? 0) then ErrWrongArgs lower else
  key ← arg argv 1; idx ← cur_db; h ← HashOrCreate idx key;
  match h with
  | None => ErrWrongType
  | Some h =>
      r ← fold_m hset_pair (0, h) (pairs_of (drop 2 argv));
      store idx key r.2 ≫= fun _ =>
      if hmset then reply_simple (lit "OK") else reply_int r.1
  end.

Definition cmd_HGET (argv : list bytes) : M unit :=
  key ← arg argv 1; idx ← cur_db; st ← GetTyped Hash idx key;
  match st with
  | kWrongType => ErrWrongType
  | kMissing => reply_null
  | kFound h =>
      f ← arg argv 2;
      match h !! f with Some v => reply_bulk v | None => reply_null end
  end.

Definition cmd_HMGET (argv : list bytes) : M unit :=
  key ← arg argv 1; idx ← cur_db; st ← GetTyped Hash idx key;
  match st with
  | kWrongType => ErrWrongType
  | _ =>
      let h : Hash := match st with kFound h => h | _ => ∅ end in
      reply_array (zlen argv - 2) ≫= fun _ =>
      for_each (fun f => match h !! f with Some v => reply_bulk v | None => reply_null end) (drop 2 argv)
  end.

Inductive HashView := HGetAll | HKeys | HVals.

Definition cmd_HGETALL (view : HashView) (argv : list bytes) : M unit :=
  key ← arg argv 1; idx ← cur_db; st ← GetTyped Hash idx key;
  match st with
  | kWrongType => ErrWrongType
  | kMissing => reply_empty_array
  | kFound h =>
      order ← iterate idx (Some key) (keys_of h);
      let keys := sort_bytes order in
      let vals := sort_bytes (omap (fun k => h !! k) order) in
      match view with
      | HGetAll =>
          reply_array (zlen keys * 2) ≫= fun _ =>
          for_each (fun k => reply_bulk k ≫= fun _ => reply_bulk (default [] (h !! k))) keys
      | HKeys => reply_bulk_array keys
      | HVals => reply_bulk_array vals
      end
  end.

(** [n += h->h.erase(f)] *)
Definition hdel_field (acc : Z * Hash) (f : bytes) : Z * Hash :=
  (match acc.2 !! f with Some _ => acc.1 + 1 | None => acc.1 end, delete f acc.2).

Definition cmd_HDEL (argv : list bytes) : M unit :=
  key ← arg argv 1; idx ← cur_db; st ← GetTyped Hash idx key;
  match st with
  | kWrongType => ErrWrongType
  | kMissing => if bool_decide (drop 2 argv = []) then reply_int 0 else undef UbNull
  | kFound h =>
      let r := foldl hdel_field (0, h) (drop 2 argv) in
      store idx key r.2 ≫= fun _ => reply_int r.1
  end.

Definition cmd_HEXISTS (argv : list bytes) : M unit :=
  key ← arg argv 1; idx ← cur_db; st ← GetTyped Hash idx key;
  match st with
  | kWrongType => ErrWrongType
  | kMissing => reply_int 0
  | kFound h =>
      f ← arg argv 2;
      reply_int (match h !! f with Some _ => 1 | None => 0 end)
  end.

Definition cmd_HLEN (argv : list bytes) : M unit :=
  key ← arg argv 1; idx ← cur_db; st ← GetTyped Hash idx key;
  match st with
  | kWrongType => ErrWrongType
  | kMissing => reply_int 0
  | kFound h => reply_int (Z.of_nat (size h))
  end.

Definition cmd_HSETNX (argv : list bytes) : M unit :=
  key ← arg argv 1; idx ← cur_db; h ← HashOrCreate idx key;
  match h with
  | None => ErrWrongType
  | Some h =>
      f ← arg argv 2;
      match h !! f with
      | Some _ => reply_int 0
      | None => v ← arg argv 3; store idx key (<[f := v]> h) ≫= fun _ => reply_int 1
      end
  end.

Definition cmd_HSTRLEN (argv : list bytes) : M unit :=
  key ← arg argv 1; idx ← cur_db; st ← GetTyped Hash idx key;
  match st with
  | kWrongType => ErrWrongType
  | kMissing => reply_int 0
  | kFound h =>
      f ← arg argv 2;
      reply_int (match h !! f with Some v => zlen v | None => 0 end)
  end.

Definition cmd_HINCRBY (argv : list bytes) : M unit :=
  a ← arg argv 3;
  match ParseIntStrict a with
  | None => ErrNotInt
  | Some by_ =>
      key ← arg argv 1; idx ← cur_db; h ← HashOrCreate idx key;
      match h with
      | None => ErrWrongType
      | Some h =>
          f ← arg argv 2;
          match h !! f with
          | None => store idx key (<[f := print_signed by_]> h) ≫= fun _ => reply_int by_
          | Some s =>
              match ParseIntStrict s with
              | None => ErrHashNotInt
              | Some cur =>
                  let res := cur + by_ in
                  if negb (in_i64 res) then ErrNotInt
                  else store idx key (<[f := print_signed res]> h) ≫= fun _ => reply_int res
              end
          end
      end
  end.

Definition cmd_HINCRBYFLOAT (argv : list bytes) : M unit :=
  a ← arg argv 3;
  match parse_strict ld_prec ld_emax a with
  | None => ErrNotFloat
  | Some by_ =>
      key ← arg argv 1; idx ← cur_db; h ← HashOrCreate idx key;
      match h with
      | None => ErrWrongType
      | Some h =>
          f ← arg argv 2;
          match (match h !! f with
                 | None => Some (S754_zero false)
                 | Some s => parse_strict ld_prec ld_emax s
                 end) with
          | None => ErrHashNotFloat
          | Some cur =>
              let res := SFadd ld_prec ld_emax cur by_ in
              if isnan res || isinf res then ErrIncrOverflow
              else
                s ← from_option_ub UbBuffer (FormatLongDouble res);
                store idx key (<[f := s]> h) ≫= fun _ => reply_bulk s
          end
      end
  end.
End commands.
