(* ===== verification/ListCmds.v ===== *)
(** * List commands

    Models the list branches of [Dispatch] in [src/src/commands.cpp] with
    [CmdPush], [CmdPop], [ListIndexRange] and [CmdLMove].  A [std::list] is a
    list; an iterator is a position. *)

From S2P Require Import Prelude Bytes Resp Double SkipList Db Rdb RdbFile FloatText Exec StringCmds.
Local Open Scope Z_scope.

Abbreviation Lst := (list bytes).

(** The window [start, stop] of a list of length [llen]; [None] when empty. *)
Definition ListIndexRange (start stop llen : Z) : option (Z * Z) :=
  let start := if start <? 0 then start + llen else start in
  let stop := if stop <? 0 then stop + llen else stop in
  let start := if start <? 0 then 0 else start in
  let stop := if stop >=? llen then llen - 1 else stop in
  if stop <? start then None else Some (start, stop).

(** [front] and [pop_front], or [back] and [pop_back]. *)
Definition pop_end (left : bool) (l : Lst) : option (bytes * Lst) :=
  if left then match l with x :: r => Some (x, r) | [] => None end
  else match last l with Some x => Some (x, take (length l - 1) l) | None => None end.

Definition push_end (left : bool) (x : bytes) (l : Lst) : Lst := if left then x :: l else l ++ [x].

(** The popping loop of [CmdPop]: [n] times. *)
Fixpoint pop_many (left : bool) (n : nat) (l : Lst) : option (Lst * Lst) :=
  match n with
  | O => Some ([], l)
  | S n =>
      match pop_end left l with
      | None => None
      | Some (x, r) =>
          match pop_many left n r with Some (xs, r') => Some (x :: xs, r') | None => None end
      end
  end.

(** The reading loop of LRANGE. *)
Fixpoint range_loop (start stop i : Z) (l : Lst) : Lst :=
  match l with
  | [] => []
  | v :: r =>
      if i >? stop then []
      else if i >=? start then v :: range_loop start stop (i + 1) r
      else range_loop start stop (i + 1) r
  end.

(** The erasing loop of LTRIM. *)
Fixpoint trim_loop (start stop li : Z) (l : Lst) : Lst :=
  match l with
  | [] => []
  | v :: r =>
      if (li <? start) || (li >? stop) then trim_loop start stop (li + 1) r
      else v :: trim_loop start stop (li + 1) r
  end.

(** The forward loop of LREM: what is left and the number removed. *)
Fixpoint lrem_forward (count : Z) (x : bytes) (removed : Z) (l : Lst) : Lst * Z :=
  match l with
  | [] => ([], removed)
  | v :: r =>
      if (count =? 0) || (removed <? count) then
        if bool_decide (v = x) then lrem_forward count x (removed + 1) r
        else let '(r', n) := lrem_forward count x removed r in (v :: r', n)
      else (l, removed)
  end.

(** The iterators collected by LREM with a negative count. *)
Fixpoint hits_from (i : nat) (x : bytes) (l : Lst) : list nat :=
  match l with
  | [] => []
  | v :: r => if bool_decide (v = x) then i :: hits_from (S i) x r else hits_from (S i) x r
  end.

(** Erases the last [want] hits, the last one first. *)
Definition lrem_backward (want : nat) (x : bytes) (l : Lst) : Lst :=
  foldl (fun l i => del_at i l) l (take want (rev (hits_from 0 x l))).

(** The loop of LINSERT; [None] when the pivot is not there. *)
Fixpoint linsert (before : bool) (pivot x : bytes) (l : Lst) : option Lst :=
  match l with
  | [] => None
  | v :: r =>
      if bool_decide (v = pivot) then Some (if before then x :: v :: r else v :: x :: r)
      else match linsert before pivot x r with Some r' => Some (v :: r') | None => None end
  end.

Section commands.
Context `{O : Oracle}.

Definition CmdPush (argv : list bytes) (left : bool) : M unit :=
  key ← arg argv 1; idx ← cur_db; l ← ListCreate idx key;
  match l with
  | None => ErrWrongType
  | Some l =>
      let l' := foldl (fun l x => push_end left x l) l (drop 2 argv) in
      store (T := Lst) idx key l' ≫= fun _ => reply_int (zlen l')
  end.

Definition CmdPop (argv : list bytes) (left : bool) : M unit :=
  key ← arg argv 1;
  let parsed :=
    if zlen argv =? 3 then
      match argv !! 2%nat with
      | Some a => match ParseIntStrict a with Some c => if c <? 0 then None else Some c | None => None end
      | None => None
      end
    else Some (-1) in
  match parsed with
  | None => ErrNotInt
  | Some count =>
      idx ← cur_db; st ← GetTyped Lst idx key;
      match st with
      | kWrongType => ErrWrongType
      | kMissing => reply_null
      | kFound l =>
          if bool_decide (l = []) then reply_null
          else if count <? 0 then
            p ← from_option_ub UbIndex (pop_end left l);
            store (T := Lst) idx key p.2 ≫= fun _ => reply_bulk p.1
          else
            let n := Z.min count (zlen l) in
            p ← from_option_ub UbIndex (pop_many left (Z.to_nat n) l);
            store (T := Lst) idx key p.2 ≫= fun _ =>
            if n =? 0 then reply_empty_array else reply_bulk_array p.1
      end
  end.

(** The move between two places: [sl] and [dl] are pointers, so the lists are
    read where the code reads them. *)
Definition lmove_step (idx : nat) (src dst : bytes) (from_left to_left : bool) : M unit :=
  l ← deref Lst idx src;
  p ← from_option_ub UbIndex (pop_end from_left l);
  (if bool_decide (src = dst) then
     if Bool.eqb from_left to_left then mret tt
     else store (T := Lst) idx src (push_end to_left p.1 p.2)
   else
     store (T := Lst) idx src p.2 ≫= fun _ =>
     d ← deref Lst idx dst;
     store (T := Lst) idx dst (push_end to_left p.1 d)) ≫= fun _ =>
  reply_bulk p.1.

Definition CmdLMove (argv : list bytes) : M unit :=
  src ← arg argv 1; dst ← arg argv 2; a3 ← arg argv 3; a4 ← arg argv 4;
  let from_left := is_ (ToUpper a3) "LEFT" in
  let to_left := is_ (ToUpper a4) "LEFT" in
  if negb from_left && negb (is_ (ToUpper a3) "RIGHT") then ErrSyntax
  else if negb to_left && negb (is_ (ToUpper a4) "RIGHT") then ErrSyntax
  else
    idx ← cur_db;
    sst ← GetTyped Lst idx src;
    match sst with
    | kWrongType => ErrWrongType
    | _ =>
        dst_st ← GetTyped Lst idx dst;
        match dst_st with
        | kWrongType => ErrWrongType
        | _ =>
            empty ← (match sst with
                     | kFound _ => l ← deref Lst idx src; mret (bool_decide (l = []))
                     | _ => mret true
                     end);
            if empty : bool then reply_null
            else
              match dst_st with
              | kMissing =>
                  dl ← ListCreate idx dst;
                  match dl with
                  | None => ErrWrongType
                  | Some _ => lmove_step idx src dst from_left to_left
                  end
              | _ => lmove_step idx src dst from_left to_left
              end
        end
    end.

Definition cmd_LLEN (argv : list bytes) : M unit :=
  key ← arg argv 1; idx ← cur_db; st ← GetTyped Lst idx key;
  match st with
  | kWrongType => ErrWrongType
  | kMissing => reply_int 0
  | kFound l => reply_int (zlen l)
  end.

Definition cmd_LRANGE (argv : list bytes) : M unit :=
  key ← arg argv 1; idx ← cur_db; st ← GetTyped Lst idx key;
  match st with
  | kWrongType => ErrWrongType
  | _ =>
      a ← arg argv 2; b ← arg argv 3;
      match ParseIntStrict a, ParseIntStrict b with
      | Some start, Some stop =>
          match ListIndexRange start stop (match st with kFound l => zlen l | _ => 0 end) with
          | None => reply_empty_array
          | Some (start, stop) =>
              match st with
              | kFound l => reply_bulk_array (range_loop start stop 0 l)
              | _ => undef UbNull
              end
          end
      | _, _ => ErrNotInt
      end
  end.

Definition cmd_LINDEX (argv : list bytes) : M unit :=
  key ← arg argv 1; idx ← cur_db; st ← GetTyped Lst idx key;
  match st with
  | kWrongType => ErrWrongType
  | _ =>
      a ← arg argv 2;
      match ParseIntStrict a with
      | None => ErrNotInt
      | Some i =>
          match st with
          | kFound l =>
              let llen := zlen l in
              let i := if i <? 0 then i + llen else i in
              if (i <? 0) || (i >=? llen) then reply_null
              else v ← from_option_ub UbIndex (l !! Z.to_nat i); reply_bulk v
          | _ => reply_null
          end
      end
  end.

Definition cmd_LSET (argv : list bytes) : M unit :=
  key ← arg argv 1; idx ← cur_db; st ← GetTyped Lst idx key;
  match st with
  | kWrongType => ErrWrongType
  | _ =>
      a ← arg argv 2;
      match ParseIntStrict a with
      | None => ErrNotInt
      | Some i =>
          match st with
          | kFound (x :: r) =>
              let l := x :: r in
              let llen := zlen l in
              let i := if i <? 0 then i + llen else i in
              if (i <? 0) || (i >=? llen) then reply_error (lit "ERR index out of range")
              else
                v ← arg argv 3;
                store (T := Lst) idx key (<[Z.to_nat i := v]> l) ≫= fun _ => reply_simple (lit "OK")
          | _ => reply_error (lit "ERR no such key")
          end
      end
  end.

Definition cmd_LREM (argv : list bytes) : M unit :=
  key ← arg argv 1; idx ← cur_db; st ← GetTyped Lst idx key;
  match st with
  | kWrongType => ErrWrongType
  | _ =>
      a ← arg argv 2;
      match ParseIntStrict a with
      | None => ErrNotInt
      | Some count =>
          match st with
          | kFound l =>
              x ← arg argv 3;
              if 0 <=? count then
                let r := lrem_forward count x 0 l in
                store (T := Lst) idx key r.1 ≫= fun _ => reply_int r.2
              else
                c ← chk (- count);
                let want := Z.min (zlen (hits_from 0 x l)) c in
                store (T := Lst) idx key (lrem_backward (Z.to_nat want) x l) ≫= fun _ => reply_int want
          | _ => reply_int 0
          end
      end
  end.

Definition cmd_LINSERT (argv : list bytes) : M unit :=
  a ← arg argv 2;
  let before := is_ (ToUpper a) "BEFORE" in
  if negb before && negb (is_ (ToUpper a) "AFTER") then ErrSyntax else
  key ← arg argv 1; idx ← cur_db; st ← GetTyped Lst idx key;
  match st with
  | kWrongType => ErrWrongType
  | kMissing => reply_int 0
  | kFound l =>
      pivot ← arg argv 3; x ← arg argv 4;
      match linsert before pivot x l with
      | Some l' => store (T := Lst) idx key l' ≫= fun _ => reply_int (zlen l')
      | None => reply_int (-1)
      end
  end.

Definition cmd_LTRIM (argv : list bytes) : M unit :=
  key ← arg argv 1; idx ← cur_db; st ← GetTyped Lst idx key;
  match st with
  | kWrongType => ErrWrongType
  | _ =>
      a ← arg argv 2; b ← arg argv 3;
      match ParseIntStrict a, ParseIntStrict b with
      | Some start, Some stop =>
          match st with
          | kFound (x :: r) =>
              let l := x :: r in
              match ListIndexRange start stop (zlen l) with
              | None => _ ← delete_key idx key; reply_simple (lit "OK")
              | Some (start, stop) =>
                  let l' := trim_loop start stop 0 l in
                  store (T := Lst) idx key l' ≫= fun _ =>
                  (if bool_decide (l' = []) then _ ← delete_key idx key; mret tt else mret tt) ≫= fun _ =>
                  reply_simple (lit "OK")
              end
          | _ => reply_simple (lit "OK")
          end
      | _, _ => ErrNotInt
      end
  end.

Definition cmd_RPOPLPUSH (argv : list bytes) : M unit :=
  a1 ← arg argv 1; a2 ← arg argv 2;
  CmdLMove [lit "LMOVE"; a1; a2; lit "RIGHT"; lit "LEFT"].
End commands.
