(* ===== verification/ListProofs.v ===== *)
(** * Lists: the loops against reference functions

    LRANGE and LTRIM against the slice of a list, LREM with a negative count
    against LREM on the reversed list, and popping many against one slice. *)

From Stdlib Require Import Sorting.Sorted.
From S2P Require Import Prelude Bytes Double SkipList SkipListProofs Exec ListCmds.
Local Open Scope Z_scope.

(** ** Windows *)

Lemma range_loop_past start stop i (l : list bytes) : stop < i -> range_loop start stop i l = [].
Proof. destruct l as [|v l]; simpl; [done|]. intros. destruct (i >? stop) eqn:E; [done|lia]. Qed.

Lemma range_loop_slice start stop i (l : list bytes) :
  range_loop start stop i l =
  take (Z.to_nat (stop - Z.max start i + 1)) (drop (Z.to_nat (start - i)) l).
Proof.
  revert i. induction l as [|v l IH]; intros i; cbn [range_loop]; [by rewrite drop_nil, take_nil|].
  destruct (i >? stop) eqn:E1.
  { replace (Z.to_nat (stop - Z.max start i + 1)) with 0%nat by lia. done. }
  destruct (i >=? start) eqn:E2.
  - rewrite IH. replace (Z.to_nat (start - i)) with 0%nat by lia.
    replace (Z.to_nat (start - (i + 1))) with 0%nat by lia. rewrite !drop_0.
    replace (Z.to_nat (stop - Z.max start i + 1)) with (S (Z.to_nat (stop - Z.max start (i + 1) + 1))) by lia.
    done.
  - rewrite IH. replace (Z.to_nat (start - i)) with (S (Z.to_nat (start - (i + 1)))) by lia. cbn [drop].
    f_equal. f_equal. lia.
Qed.

Lemma trim_loop_range start stop i (l : list bytes) : trim_loop start stop i l = range_loop start stop i l.
Proof.
  revert i. induction l as [|v l IH]; intros i; cbn [range_loop trim_loop]; [done|]. rewrite IH.
  destruct (i <? start) eqn:E1, (i >? stop) eqn:E2, (i >=? start) eqn:E3; cbn [orb]; try done; try lia;
    apply range_loop_past; lia.
Qed.

(** The loops produce the elements from the first index to the second, negative
    ones counted from the end, and the window is refused exactly when there are
    none. *)
Lemma list_window_slice start stop (l : list bytes) :
  match ListIndexRange start stop (zlen l) with
  | Some (s, e) =>
      range_loop s e 0 l = ref_slice start stop l /\ trim_loop s e 0 l = ref_slice start stop l /\
      ref_slice start stop l <> []
  | None => ref_slice start stop l = []
  end.
Proof.
  assert (Hl : 0 <= zlen l) by (unfold zlen; lia). unfold ListIndexRange, ref_slice. cbv zeta.
  set (s := if start <? 0 then start + zlen l else start). set (e := if stop <? 0 then stop + zlen l else stop).
  replace (if start <? 0 then zlen l + start else start) with s by (unfold s; destruct (start <? 0); lia).
  replace (if stop <? 0 then zlen l + stop else stop) with e by (unfold e; destruct (stop <? 0); lia).
  replace (if s <? 0 then 0 else s) with (Z.max 0 s) by (destruct (s <? 0) eqn:?; lia).
  replace (if e >=? zlen l then zlen l - 1 else e) with (Z.min (zlen l - 1) e) by (destruct (e >=? zlen l) eqn:?; lia).
  clearbody s e. destruct (_ <? _) eqn:E.
  - by replace (Z.to_nat (_ - _ + 1)) with 0%nat by lia.
  - rewrite trim_loop_range, range_loop_slice, Z.sub_0_r.
    replace (Z.max (Z.max 0 s) 0) with (Z.max 0 s) by lia. split_and!; [done|done|].
    intros Hn. apply (f_equal length) in Hn. rewrite length_take, length_drop in Hn. simpl in Hn.
    unfold zlen in *. lia.
Qed.

(** ** LREM from the tail *)

(** Removes the first [n] elements equal to [x]. *)
Fixpoint remove_first (n : nat) (x : bytes) (l : list bytes) : list bytes :=
  match l with
  | [] => []
  | v :: r =>
      if bool_decide (v = x) then match n with O => v :: r | S n => remove_first n x r end
      else v :: remove_first n x r
  end.

Lemma lrem_forward_first count x removed (l : list bytes) :
  0 < count -> 0 <= removed ->
  (lrem_forward count x removed l).1 = remove_first (Z.to_nat (count - removed)) x l.
Proof.
  intros Hc. revert removed. induction l as [|v l IH]; intros removed Hr; cbn [lrem_forward remove_first]; [done|].
  replace (count =? 0) with false by lia. cbn [orb]. destruct (removed <? count) eqn:E.
  - case_bool_decide.
    + rewrite IH by lia. by replace (Z.to_nat (count - removed)) with (S (Z.to_nat (count - (removed + 1)))) by lia.
    + specialize (IH removed Hr). destruct (lrem_forward count x removed l). simpl in *. by rewrite IH.
  - replace (Z.to_nat (count - removed)) with 0%nat by lia. cbn [fst].
    case_bool_decide; [done|]. f_equal. clear. induction l as [|v l IH]; simpl; [done|].
    case_bool_decide; [done|]. by rewrite <- IH.
Qed.

Lemma hits_from_shift i x (l : list bytes) : hits_from (S i) x l = S <$> hits_from i x l.
Proof. revert i. induction l as [|v l IH]; intros i; simpl; [done|]. rewrite IH. by case_bool_decide. Qed.

Lemma hits_from_app i x (l1 l2 : list bytes) :
  hits_from i x (l1 ++ l2) = hits_from i x l1 ++ hits_from (i + length l1) x l2.
Proof.
  revert i. induction l1 as [|v l1 IH]; intros i; simpl; [by rewrite Nat.add_0_r|].
  rewrite IH. replace (S i + length l1)%nat with (i + S (length l1))%nat by lia. by case_bool_decide.
Qed.

Lemma hits_below x (l : list bytes) : Forall (fun i => i < length l)%nat (hits_from 0 x l).
Proof.
  induction l as [|v l IH]; simpl; [constructor|]. rewrite hits_from_shift.
  assert (Forall (fun i => i < S (length l))%nat (S <$> hits_from 0 x l)).
  { apply Forall_fmap. eapply Forall_impl; [exact IH|]. intros i Hi. simpl in *. lia. }
  case_bool_decide; [constructor; [lia|done]|done].
Qed.

(** Erasing positions inside the front part leaves the rest alone. *)
Lemma erase_front is_ (l r : list bytes) :
  Forall (fun i => i < length l)%nat is_ -> StronglySorted (fun i j => j < i)%nat is_ ->
  foldl (fun l i => del_at i l) (l ++ r) is_ = foldl (fun l i => del_at i l) l is_ ++ r.
Proof.
  revert l. induction is_ as [|i is_ IH]; intros l Hb Hs; [done|]. simpl.
  apply Forall_cons in Hb as [Hi Hb]. apply StronglySorted_inv in Hs as [Hs Hlt].
  assert (del_at i (l ++ r) = del_at i l ++ r) as ->.
  { unfold del_at. rewrite take_app_le by lia. rewrite drop_app_le by lia. by rewrite app_assoc. }
  apply IH; [|done]. rewrite Forall_forall in Hb, Hlt |- *. intros j Hj. specialize (Hlt j Hj).
  rewrite del_at_length by done. lia.
Qed.

Lemma hits_sorted i x (l : list bytes) : StronglySorted (fun i j => i < j)%nat (hits_from i x l).
Proof.
  revert i. induction l as [|v l IH]; intros i; simpl; [constructor|].
  case_bool_decide; [|apply IH]. constructor; [apply IH|].
  assert (forall j, Forall (fun k => j <= k)%nat (hits_from j x l)) as Hge.
  { clear. induction l as [|v l IH]; intros j; simpl; [constructor|].
    specialize (IH (S j)). assert (Forall (fun k => j <= k)%nat (hits_from (S j) x l)).
    { eapply Forall_impl; [exact IH|]. intros k ?. simpl in *. lia. }
    case_bool_decide; [constructor; [lia|done]|done]. }
  eapply Forall_impl; [apply (Hge (S i))|]. intros k ?. simpl in *. lia.
Qed.

Lemma sorted_rev_take n (is_ : list nat) :
  StronglySorted (fun i j => i < j)%nat is_ -> StronglySorted (fun i j => j < i)%nat (take n (rev is_)).
Proof.
  intros H. assert (StronglySorted (fun i j => j < i)%nat (rev is_)) as Hr.
  { induction is_ as [|i is_ IH]; [constructor|]. apply StronglySorted_inv in H as [H Hlt]. simpl.
    specialize (IH H). clear H. assert (Forall (fun j => i < j)%nat (rev is_)) as Hb.
    { rewrite Forall_forall in Hlt |- *. intros j Hj. apply Hlt. by apply list_elem_of_In, in_rev, list_elem_of_In. }
    clear Hlt. induction IH as [|j js Hs IH Hj]; simpl; [repeat constructor|].
    apply Forall_cons in Hb as [? Hb]. constructor; [by apply IH|].
    apply Forall_app. split; [done|]. by repeat constructor. }
  revert n. induction Hr as [|j js Hs IH Hj]; intros [|n]; simpl; try constructor; [apply IH|].
  by apply Forall_take.
Qed.

Lemma lrem_backward_snoc want x v (l : list bytes) :
  lrem_backward want x (l ++ [v]) =
  if bool_decide (v = x)
  then match want with O => l ++ [v] | S want => lrem_backward want x l end
  else lrem_backward want x l ++ [v].
Proof.
  unfold lrem_backward. rewrite hits_from_app. simpl. 
  assert (Hb : forall n, Forall (fun i => i < length l)%nat (take n (rev (hits_from 0 x l)))).
  { intros n. apply Forall_take. rewrite rev_alt. apply Forall_reverse, hits_below. }
  assert (Hs : forall n, StronglySorted (fun i j => j < i)%nat (take n (rev (hits_from 0 x l)))).
  { intros n. apply sorted_rev_take, hits_sorted. }
  case_bool_decide.
  - rewrite rev_unit. destruct want as [|want]; simpl; [done|]. f_equal.
    unfold del_at. rewrite take_app_length, drop_ge by (rewrite length_app; simpl; lia). by rewrite app_nil_r.
  - rewrite app_nil_r. by apply erase_front.
Qed.

(** Counting from the tail is counting from the head of the mirrored list. *)
Lemma lrem_backward_mirror want x (l : list bytes) :
  lrem_backward want x l = rev (remove_first want x (rev l)).
Proof.
  revert want. induction l as [|v l IH] using rev_ind; intros want; [by destruct want|].
  rewrite lrem_backward_snoc, rev_unit. cbn [remove_first].
  case_bool_decide; [|by rewrite IH]. destruct want; [|by rewrite IH]. cbn [rev]. by rewrite rev_involutive.
Qed.

(** ** LREM against one reference *)

(** The first [count] occurrences, all of them for zero, the last [- count] for a
    negative count. *)
Definition ref_lrem (count : Z) (x : bytes) (l : list bytes) : list bytes :=
  if count =? 0 then filter (fun v => v <> x) l
  else if 0 <? count then remove_first (Z.to_nat count) x l
  else rev (remove_first (Z.to_nat (- count)) x (rev l)).

Lemma lrem_forward_all x removed (l : list bytes) :
  (lrem_forward 0 x removed l).1 = filter (fun v => v <> x) l.
Proof.
  revert removed. induction l as [|v l IH]; intros removed; [done|]. cbn [lrem_forward]. cbn [Z.eqb orb].
  rewrite filter_cons. case_bool_decide as E.
  - rewrite decide_False by naive_solver. apply IH.
  - rewrite decide_True by done. specialize (IH removed). destruct (lrem_forward 0 x removed l). simpl in *.
    by rewrite IH.
Qed.

Lemma lrem_forward_count count x removed (l : list bytes) :
  (lrem_forward count x removed l).2 = removed + zlen l - zlen (lrem_forward count x removed l).1.
Proof.
  revert removed. induction l as [|v l IH]; intros removed; cbn [lrem_forward]; [cbn; lia|].
  destruct (_ || _); [|cbn; lia]. case_bool_decide.
  - rewrite IH. unfold zlen. cbn [length]. lia.
  - specialize (IH removed). destruct (lrem_forward count x removed l) as [r n]. cbn in *. unfold zlen in *.
    cbn [length]. lia.
Qed.

Lemma lrem_forward_ref count x (l : list bytes) : 0 <= count -> (lrem_forward count x 0 l).1 = ref_lrem count x l.
Proof.
  intros Hc. unfold ref_lrem. destruct (count =? 0) eqn:E.
  - replace count with 0 by lia. apply lrem_forward_all.
  - replace (0 <? count) with true by lia. rewrite lrem_forward_first by lia. by rewrite Z.sub_0_r.
Qed.

Lemma lrem_backward_min want x (l : list bytes) :
  lrem_backward (Nat.min (length (hits_from 0 x l)) want) x l = lrem_backward want x l.
Proof.
  unfold lrem_backward. f_equal. rewrite <- (length_rev (hits_from 0 x l)).
  destruct (Nat.min_spec (length (rev (hits_from 0 x l))) want) as [[? ->]|[? ->]]; [|done].
  by rewrite !take_ge by lia.
Qed.

Lemma erase_length is_ (l : list bytes) :
  Forall (fun i => i < length l)%nat is_ -> StronglySorted (fun i j => j < i)%nat is_ ->
  length (foldl (fun l i => del_at i l) l is_) = (length l - length is_)%nat.
Proof.
  revert l. induction is_ as [|i is_ IH]; intros l Hb Hs; simpl; [lia|].
  apply Forall_cons in Hb as [Hi Hb]. apply StronglySorted_inv in Hs as [Hs Hlt].
  rewrite IH; rewrite ?del_at_length by done; [lia| |done].
  rewrite Forall_forall in Hlt |- *. intros j Hj. specialize (Hlt j Hj). lia.
Qed.

Lemma lrem_backward_length want x (l : list bytes) :
  (want <= length (hits_from 0 x l))%nat -> length (lrem_backward want x l) = (length l - want)%nat.
Proof.
  intros Hw. unfold lrem_backward. rewrite erase_length.
  - rewrite length_take, length_rev. lia.
  - apply Forall_take. rewrite rev_alt. apply Forall_reverse, hits_below.
  - apply sorted_rev_take, hits_sorted.
Qed.

Lemma hits_length x (l : list bytes) : (length (hits_from 0 x l) <= length l)%nat.
Proof.
  generalize 0%nat. induction l as [|v l IH]; intros i; simpl; [lia|]. specialize (IH (S i)).
  case_bool_decide; simpl; lia.
Qed.

(** The negative branch: the list and the number it reports. *)
Lemma lrem_backward_ref count x (l : list bytes) :
  count < 0 ->
  let want := Z.min (zlen (hits_from 0 x l)) (- count) in
  lrem_backward (Z.to_nat want) x l = ref_lrem count x l /\ want = zlen l - zlen (ref_lrem count x l).
Proof.
  intros Hc want. assert (lrem_backward (Z.to_nat want) x l = ref_lrem count x l) as E.
  { unfold ref_lrem. replace (count =? 0) with false by lia. replace (0 <? count) with false by lia.
    rewrite <- lrem_backward_mirror, <- (lrem_backward_min (Z.to_nat (- count))). f_equal. unfold want, zlen. lia. }
  split; [done|]. rewrite <- E. unfold zlen. pose proof (hits_length x l).
  rewrite lrem_backward_length by (unfold want, zlen; lia). unfold want, zlen. lia.
Qed.
