(* ===== verification/SetCmds.v ===== *)
(** * Set commands

    Models the set branches of [Dispatch] in [src/src/commands.cpp] with
    [EvalSetOp], [CmdSetOp] and [CmdSetOpStore].  The pointers that [EvalSetOp]
    collects are places, read only after the last lookup. *)

From S2P Require Import Prelude Bytes Resp Double SkipList Db Rdb RdbFile FloatText Exec StringCmds KeyCmds.
Local Open Scope Z_scope.

Abbreviation BSet := (gset bytes).

Inductive SetOp := kUnion | kInter | kDiff.

(** The three loops of [EvalSetOp] over the collected sets. *)
Definition combine_sets (op : SetOp) (base : BSet) (others : list BSet) : BSet :=
  match op with
  | kUnion => foldl (∪) base others
  | kInter => filter (fun m => forallb (fun o => bool_decide (m ∈ o)) others = true) base
  | kDiff => filter (fun m => existsb (fun o => bool_decide (m ∈ o)) others = false) base
  end.

(** What the collecting loop ends with. *)
Inductive Collected := CWrongType | CEmpty | CSets (keys : list bytes).

(** [sp->s.insert(x)], counting the insertions that took place. *)
Definition sadd_member (acc : Z * BSet) (x : bytes) : Z * BSet :=
  (if bool_decide (x ∈ acc.2) then acc.1 else acc.1 + 1, {[ x ]} ∪ acc.2).

(** [n += sp->s.erase(x)] *)
Definition srem_member (acc : Z * BSet) (x : bytes) : Z * BSet :=
  (if bool_decide (x ∈ acc.2) then acc.1 + 1 else acc.1, acc.2 ∖ {[ x ]}).

Section commands.
Context `{O : Oracle}.

(** [SetMembersSorted] *)
Definition SetMembersSorted (idx : nat) (key : option bytes) (s : BSet) : M (list bytes) :=
  order ← iterate idx key (elements s);
  mret (sort_bytes order).

Fixpoint collect_sets (idx : nat) (op : SetOp) (keys found : list bytes) : M Collected :=
  match keys with
  | [] => mret (CSets found)
  | k :: rest =>
      st ← GetTyped BSet idx k;
      match st with
      | kWrongType => ErrWrongType ≫= fun _ => mret CWrongType
      | kMissing =>
          match op with
          | kInter => mret CEmpty
          | _ => collect_sets idx op rest found
          end
      | kFound _ => collect_sets idx op rest (found ++ [k])
      end
  end.

(** [None] when [*ok] is false: the error is already written. *)
Definition EvalSetOp (idx : nat) (argv : list bytes) (skip : nat) (op : SetOp) : M (option BSet) :=
  c ← collect_sets idx op (drop skip argv) [];
  match c with
  | CWrongType => mret None
  | CEmpty | CSets [] => mret (Some ∅)
  | CSets (b :: os) =>
      base ← deref BSet idx b;
      others ← fold_m (fun acc k => s ← deref BSet idx k; mret (acc ++ [s])) [] os;
      mret (Some (combine_sets op base others))
  end.

Definition CmdSetOp (argv : list bytes) (op : SetOp) : M unit :=
  idx ← cur_db;
  r ← EvalSetOp idx argv 1 op;
  match r with
  | None => mret tt
  | Some s => l ← SetMembersSorted idx None s; reply_bulk_array l
  end.

Definition CmdSetOpStore (argv : list bytes) (op : SetOp) : M unit :=
  dst ← arg argv 1;
  idx ← cur_db;
  r ← EvalSetOp idx argv 2 op;
  match r with
  | None => mret tt
  | Some s =>
      set_key idx dst (SetValue s) 0 ≫= fun _ =>
      e ← lookup_key idx dst;
      e ← from_option_ub UbNull e;
      sp ← from_option_ub UbNull (proj (T := BSet) (value e));
      reply_int (Z.of_nat (size sp))
  end.

Definition cmd_SADD (argv : list bytes) : M unit :=
  key ← arg argv 1; idx ← cur_db; sp ← SetCreate idx key;
  match sp with
  | None => ErrWrongType
  | Some s =>
      let r := foldl sadd_member (0, s) (drop 2 argv) in
      store idx key r.2 ≫= fun _ => reply_int r.1
  end.

(** A missing key leaves [sp] null, and the loop erases through it. *)
Definition cmd_SREM (argv : list bytes) : M unit :=
  key ← arg argv 1; idx ← cur_db; st ← GetTyped BSet idx key;
  match st with
  | kWrongType => ErrWrongType
  | kMissing => if bool_decide (drop 2 argv = []) then reply_int 0 else undef UbNull
  | kFound s =>
      let r := foldl srem_member (0, s) (drop 2 argv) in
      store idx key r.2 ≫= fun _ => reply_int r.1
  end.

Definition cmd_SMEMBERS (argv : list bytes) : M unit :=
  key ← arg argv 1; idx ← cur_db; st ← GetTyped BSet idx key;
  match st with
  | kWrongType => ErrWrongType
  | kMissing => reply_bulk_array []
  | kFound s => l ← SetMembersSorted idx (Some key) s; reply_bulk_array l
  end.

Definition cmd_SISMEMBER (argv : list bytes) : M unit :=
  key ← arg argv 1; idx ← cur_db; st ← GetTyped BSet idx key;
  match st with
  | kWrongType => ErrWrongType
  | kMissing => reply_int 0
  | kFound s => m ← arg argv 2; reply_int (if bool_decide (m ∈ s) then 1 else 0)
  end.

Definition cmd_SCARD (argv : list bytes) : M unit :=
  key ← arg argv 1; idx ← cur_db; st ← GetTyped BSet idx key;
  match st with
  | kWrongType => ErrWrongType
  | kMissing => reply_int 0
  | kFound s => reply_int (Z.of_nat (size s))
  end.

(** The [random_member] lambdas: the generator's value picks a position. *)
Definition random_member (idx : nat) (key : bytes) : M bytes :=
  s ← deref BSet idx key;
  order ← iterate idx (Some key) (elements s);
  n ← tick;
  if (size s =? 0)%nat then undef UbIndex
  else from_option_ub UbIndex (order !! Z.to_nat (rng32 n mod Z.of_nat (size s))).

Definition pop_member (idx : nat) (key : bytes) : M bytes :=
  m ← random_member idx key;
  s ← deref BSet idx key;
  store idx key (s ∖ {[ m ]}) ≫= fun _ => mret m.

(** [n] calls, collecting the results. *)
Fixpoint repeat_m (n : nat) (f : M bytes) : M (list bytes) :=
  match n with
  | 0%nat => mret []
  | S n => x ← f; xs ← repeat_m n f; mret (x :: xs)
  end.

(** The optional count argument: [None] when it does not parse. *)
Definition count_arg (argv : list bytes) : option Z :=
  if zlen argv =? 3 then a ← argv !! 2%nat; ParseIntStrict a else Some (-1).

Definition cmd_SPOP (argv : list bytes) : M unit :=
  key ← arg argv 1; idx ← cur_db; st ← GetTyped BSet idx key;
  match st with
  | kWrongType => ErrWrongType
  | _ =>
      match count_arg argv with
      | None => ErrNotInt
      | Some count =>
          if (zlen argv =? 3) && (count <? 0) then ErrNotInt else
          match st with
          | kFound s =>
              if bool_decide (s = ∅) then reply_null
              else if count <? 0 then m ← pop_member idx key; reply_bulk m
              else if count =? 0 then reply_empty_array
              else
                items ← repeat_m (Z.to_nat (Z.min count (Z.of_nat (size s)))) (pop_member idx key);
                reply_bulk_array items
          | _ => reply_null
          end
      end
  end.

Definition cmd_SRANDMEMBER (argv : list bytes) : M unit :=
  key ← arg argv 1; idx ← cur_db; st ← GetTyped BSet idx key;
  match st with
  | kWrongType => ErrWrongType
  | _ =>
      match count_arg argv with
      | None => ErrNotInt
      | Some count =>
          let s : BSet := match st with kFound s => s | _ => ∅ end in
          if bool_decide (s = ∅) then
            if (count <? 0) || (zlen argv =? 2) then reply_null else reply_empty_array
          else if zlen argv =? 2 then m ← random_member idx key; reply_bulk m
          else if 0 <=? count then
            pool ← iterate idx (Some key) (elements s);
            n ← tick;
            reply_bulk_array (sort_bytes
              (take (Z.to_nat (Z.min count (Z.of_nat (size s)))) (shuffled n pool)))
          else
            c ← chk (- count);
            items ← repeat_m (Z.to_nat c) (random_member idx key);
            reply_bulk_array (sort_bytes items)
      end
  end.

Definition cmd_SMOVE (argv : list bytes) : M unit :=
  a1 ← arg argv 1; a2 ← arg argv 2; idx ← cur_db;
  sst ← GetTyped BSet idx a1;
  match sst with
  | kWrongType => ErrWrongType
  | _ =>
      dst_st ← GetTyped BSet idx a2;
      match dst_st with
      | kWrongType => ErrWrongType
      | _ =>
          m ← arg argv 3;
          has ← (match sst with
                 | kFound _ => s ← deref BSet idx a1; mret (bool_decide (m ∈ s))
                 | _ => mret false
                 end);
          if negb has then reply_int 0
          else if bool_decide (a1 = a2) then reply_int 1
          else
            (match dst_st with
             | kMissing => d ← SetCreate idx a2; _ ← from_option_ub UbNull d; mret tt
             | _ => mret tt
             end) ≫= fun _ =>
            s ← deref BSet idx a1;
            store idx a1 (s ∖ {[ m ]}) ≫= fun _ =>
            d ← deref BSet idx a2;
            store idx a2 ({[ m ]} ∪ d) ≫= fun _ =>
            reply_int 1
      end
  end.
End commands.
