(* ===== verification/ZsetCmds.v ===== *)
(** * Sorted set commands

    Models the sorted set branches of [Dispatch] in [src/src/commands.cpp] with
    [ParseScoreBound], [ToRange] and [AppendScoredPairs].  A sorted set is a
    skip list and a dictionary; each branch updates both where the code does.
    ZSCORE and ZREM evaluate [z->dict.end()] with a null [z] on a missing key,
    which the model treats as an end iterator. *)

From S2P Require Import Prelude Bytes Resp Double SkipList Db Rdb RdbFile FloatText Exec StringCmds.
Local Open Scope Z_scope.

(** ** Score bounds *)

Record ScoreBound := mkBound { b_v : double; b_exclusive : bool; b_ok : bool }.

Definition ParseScoreBound (s : bytes) : ScoreBound :=
  let '(exclusive, t) :=
    match s with
    | c :: r => if bool_decide (c = "("%char) then (true, r) else (false, s)
    | [] => (false, s)
    end in
  if is_ t "-inf" || is_ t "-infinity" then mkBound (S754_infinity true) exclusive true
  else if is_ t "+inf" || is_ t "inf" || is_ t "infinity" then mkBound (S754_infinity false) exclusive true
  else match ParseDoubleStrict t with
       | None => mkBound dzero exclusive false
       | Some d => mkBound d exclusive true
       end.

Definition ToRange (mn mx : ScoreBound) : ScoreRange :=
  mkRange (b_v mn) (b_v mx) (b_exclusive mn) (b_exclusive mx).

(** ** Options *)

Record ZaddOpts := mkZadd { z_nx : bool; z_xx : bool; z_ch : bool; z_incr : bool }.

(** The flags of ZADD and what follows them. *)
Fixpoint zadd_options (args : list bytes) (o : ZaddOpts) : ZaddOpts * list bytes :=
  match args with
  | [] => (o, [])
  | a :: rest =>
      let u := ToUpper a in
      if is_ u "NX" then zadd_options rest (mkZadd true (z_xx o) (z_ch o) (z_incr o))
      else if is_ u "XX" then zadd_options rest (mkZadd (z_nx o) true (z_ch o) (z_incr o))
      else if is_ u "CH" then zadd_options rest (mkZadd (z_nx o) (z_xx o) true (z_incr o))
      else if is_ u "INCR" then zadd_options rest (mkZadd (z_nx o) (z_xx o) (z_ch o) true)
      else (o, args)
  end.

(** The options of ZRANGE and ZREVRANGE: [WITHSCORES] and [REV]. *)
Fixpoint zrange_options (zrange : bool) (args : list bytes) (with_scores rev_ : bool) : option (bool * bool) :=
  match args with
  | [] => Some (with_scores, rev_)
  | a :: rest =>
      let u := ToUpper a in
      if is_ u "WITHSCORES" then zrange_options zrange rest true rev_
      else if is_ u "REV" && zrange then zrange_options zrange rest with_scores true
      else None
  end.

(** The options of the ranges by score; [inr true]: not an integer. *)
Fixpoint zscore_options (args : list bytes) (with_scores : bool) (offset count : Z)
    : (bool * Z * Z) + bool :=
  match args with
  | [] => inl (with_scores, offset, count)
  | a :: rest =>
      let u := ToUpper a in
      if is_ u "WITHSCORES" then zscore_options rest true offset count
      else if is_ u "LIMIT" then
        match rest with
        | x :: y :: rest' =>
            match ParseIntStrict x, ParseIntStrict y with
            | Some x, Some y => zscore_options rest' with_scores x y
            | _, _ => inr true
            end
        | _ => inr false
        end
      else inr false
  end.

Inductive ZaddEnd :=
| ZError                          (* the error is written *)
| ZIncrNil
| ZIncrTo (text : bytes)
| ZCounts (added changed : Z).

Section commands.
Context `{O : Oracle}.

Definition AppendScoredPairs (v : list (double * bytes)) (with_scores : bool) : M unit :=
  if bool_decide (v = []) then reply_empty_array
  else if negb with_scores then
    reply_array (zlen v) ≫= fun _ => for_each (fun p => reply_bulk p.2) v
  else
    reply_array (zlen v * 2) ≫= fun _ =>
    for_each (fun p => reply_bulk p.2 ≫= fun _ => reply_bulk (FormatDouble p.1)) v.

(** Gives [m] the score [res]: [old] is its entry in the dictionary. *)
Definition zset_put (idx : nat) (key m : bytes) (old : option double) (res : double) : M unit :=
  z ← deref ZSetValue idx key;
  sl1 ← (match old with
         | Some o => r ← from_option_ub UbSkipList (Erase (sl z) o m); mret r.2
         | None => mret (sl z)
         end);
  n ← tick;
  r ← from_option_ub UbSkipList (Insert (libc_random n) sl1 res m);
  store idx key (mkZSet r.2 (<[m := res]> (dict z))).

(** The loop of ZADD over score and member pairs. *)
Fixpoint zadd_loop (idx : nat) (key : bytes) (o : ZaddOpts) (ps : list (bytes * option bytes))
    (added changed : Z) : M ZaddEnd :=
  match ps with
  | [] => mret (ZCounts added changed)
  | (a, mo) :: rest =>
      match ParseDoubleStrict a with
      | None => ErrNotFloat ≫= fun _ => mret ZError
      | Some sc =>
          if isnan sc then ErrNotFloat ≫= fun _ => mret ZError else
          m ← from_option_ub UbIndex mo;
          z ← deref ZSetValue idx key;
          let old := dict z !! m in
          let exists_ := match old with Some _ => true | None => false end in
          if z_incr o then
            if (z_nx o && negb exists_) || (z_xx o && exists_) then mret ZIncrNil
            else
              let res := dadd (default dzero old) sc in
              if isnan res || isinf res then ErrIncrOverflow ≫= fun _ => mret ZError
              else zset_put idx key m old res ≫= fun _ => mret (ZIncrTo (FormatDouble res))
          else if z_nx o && exists_ then zadd_loop idx key o rest added changed
          else if z_xx o && negb exists_ then zadd_loop idx key o rest added changed
          else
            match old with
            | Some s0 =>
                if deq s0 sc then zadd_loop idx key o rest added changed
                else zset_put idx key m old sc ≫= fun _ => zadd_loop idx key o rest added (changed + 1)
            | None =>
                zset_put idx key m None sc ≫= fun _ =>
                zadd_loop idx key o rest (added + 1) (changed + 1)
            end
      end
  end.

Definition cmd_ZADD (lower : bytes) (argv : list bytes) : M unit :=
  let '(o, rest) := zadd_options (drop 2 argv) (mkZadd false false false false) in
  if z_nx o && z_xx o then ErrSyntax
  else if z_incr o && negb (zlen rest =? 2) then ErrSyntax
  else if (zlen rest =? 0) || negb (zlen rest mod 2 =? 0) then ErrWrongArgs lower
  else
    key ← arg argv 1; idx ← cur_db; z ← ZSetCreate idx key;
    match z with
    | None => ErrWrongType
    | Some _ =>
        r ← zadd_loop idx key o (pairs_of rest) 0 0;
        match r with
        | ZError => mret tt
        | ZIncrNil => reply_null
        | ZIncrTo t => reply_bulk t
        | ZCounts added changed => reply_int (if z_ch o then changed else added)
        end
    end.

Definition cmd_ZSCORE (argv : list bytes) : M unit :=
  key ← arg argv 1; idx ← cur_db; st ← GetTyped ZSetValue idx key;
  match st with
  | kWrongType => ErrWrongType
  | kMissing => reply_null
  | kFound z =>
      m ← arg argv 2;
      match dict z !! m with Some d => reply_bulk (FormatDouble d) | None => reply_null end
  end.

Definition cmd_ZCARD (argv : list bytes) : M unit :=
  key ← arg argv 1; idx ← cur_db; st ← GetTyped ZSetValue idx key;
  match st with
  | kWrongType => ErrWrongType
  | kMissing => reply_int 0
  | kFound z => reply_int (Z.of_nat (size (dict z)))
  end.

(** [argv[3]] is read only when [argv[2]] is an integer. *)
Definition cmd_ZRANGE (zrange : bool) (argv : list bytes) : M unit :=
  key ← arg argv 1; idx ← cur_db; st ← GetTyped ZSetValue idx key;
  match st with
  | kWrongType => ErrWrongType
  | _ =>
      a ← arg argv 2;
      match ParseIntStrict a with
      | None => ErrNotInt
      | Some start =>
          b ← arg argv 3;
          match ParseIntStrict b with
          | None => ErrNotInt
          | Some stop =>
              match zrange_options zrange (drop 4 argv) false (negb zrange) with
              | None => ErrSyntax
              | Some (with_scores, rev_) =>
                  match st with
                  | kFound z =>
                      v ← from_option_ub UbSkipList (RangeByRank (sl z) start stop rev_);
                      AppendScoredPairs v with_scores
                  | _ => reply_empty_array
                  end
              end
          end
      end
  end.

Definition ErrMinMax : M unit := reply_error (lit "ERR min or max is not a float").

Definition cmd_ZRANGEBYSCORE (max_first : bool) (argv : list bytes) : M unit :=
  key ← arg argv 1; idx ← cur_db; st ← GetTyped ZSetValue idx key;
  match st with
  | kWrongType => ErrWrongType
  | _ =>
      a ← arg argv (if max_first then 3 else 2);
      b ← arg argv (if max_first then 2 else 3);
      let minb := ParseScoreBound a in
      let maxb := ParseScoreBound b in
      if negb (b_ok minb) || negb (b_ok maxb) then ErrMinMax else
      match zscore_options (drop 4 argv) false 0 (-1) with
      | inr true => ErrNotInt
      | inr false => ErrSyntax
      | inl (with_scores, offset, count) =>
          match st with
          | kFound z =>
              v ← from_option_ub UbSkipList (RangeByScore (sl z) (ToRange minb maxb) max_first offset count);
              AppendScoredPairs v with_scores
          | _ => reply_empty_array
          end
      end
  end.

Definition cmd_ZRANK (rev_ : bool) (argv : list bytes) : M unit :=
  key ← arg argv 1; idx ← cur_db; st ← GetTyped ZSetValue idx key;
  match st with
  | kWrongType => ErrWrongType
  | kMissing => reply_null
  | kFound z =>
      m ← arg argv 2;
      match dict z !! m with
      | None => reply_null
      | Some d =>
          r ← from_option_ub UbSkipList (if rev_ then RevRank (sl z) d m else Rank (sl z) d m);
          if r =? SIZE_MAX then reply_null else reply_int (i64_of_u64 r)
      end
  end.

Definition cmd_ZCOUNT (argv : list bytes) : M unit :=
  key ← arg argv 1; idx ← cur_db; st ← GetTyped ZSetValue idx key;
  match st with
  | kWrongType => ErrWrongType
  | _ =>
      a ← arg argv 2; b ← arg argv 3;
      let minb := ParseScoreBound a in
      let maxb := ParseScoreBound b in
      if negb (b_ok minb) || negb (b_ok maxb) then ErrMinMax else
      match st with
      | kFound z =>
          n ← from_option_ub UbSkipList (CountInRange (sl z) (ToRange minb maxb));
          reply_int (i64_of_u64 n)
      | _ => reply_int 0
      end
  end.

(** One member of ZREM. *)
Definition zrem_member (idx : nat) (key : bytes) (n : Z) (m : bytes) : M Z :=
  z ← deref ZSetValue idx key;
  match dict z !! m with
  | None => mret n
  | Some d =>
      r ← from_option_ub UbSkipList (Erase (sl z) d m);
      store idx key (mkZSet r.2 (delete m (dict z))) ≫= fun _ => mret (n + 1)
  end.

Definition cmd_ZREM (argv : list bytes) : M unit :=
  key ← arg argv 1; idx ← cur_db; st ← GetTyped ZSetValue idx key;
  match st with
  | kWrongType => ErrWrongType
  | kMissing => reply_int 0
  | kFound _ => n ← fold_m (zrem_member idx key) 0 (drop 2 argv); reply_int n
  end.

Definition cmd_ZINCRBY (argv : list bytes) : M unit :=
  a ← arg argv 2;
  match ParseDoubleStrict a with
  | None => ErrNotFloat
  | Some by_ =>
      if isnan by_ then ErrNotFloat else
      key ← arg argv 1; idx ← cur_db; z ← ZSetCreate idx key;
      match z with
      | None => ErrWrongType
      | Some z =>
          m ← arg argv 3;
          let old := dict z !! m in
          let res := dadd (default dzero old) by_ in
          if isnan res || isinf res then ErrIncrOverflow
          else zset_put idx key m old res ≫= fun _ => reply_bulk (FormatDouble res)
      end
  end.

(** The popping loop, at most [n] times; the flat reply. *)
Fixpoint zpop_loop (idx : nat) (key : bytes) (min_mode : bool) (n : nat) (flat : list bytes)
    : M (list bytes) :=
  match n with
  | 0%nat => mret flat
  | S n =>
      z ← deref ZSetValue idx key;
      r ← from_option_ub UbSkipList (if min_mode then PopMin (sl z) else PopMax (sl z));
      match r.1 with
      | None => mret flat
      | Some k =>
          store idx key (mkZSet r.2 (delete k.2 (dict z))) ≫= fun _ =>
          zpop_loop idx key min_mode n (flat ++ [k.2; FormatDouble k.1])
      end
  end.

Definition cmd_ZPOP (min_mode : bool) (argv : list bytes) : M unit :=
  key ← arg argv 1; idx ← cur_db; st ← GetTyped ZSetValue idx key;
  match st with
  | kWrongType => ErrWrongType
  | _ =>
      match (if zlen argv =? 3 then a ← argv !! 2%nat; ParseIntStrict a else Some 1) with
      | None => ErrNotInt
      | Some count =>
          if count <? 0 then ErrNotInt else
          match st with
          | kFound _ =>
              if count =? 0 then reply_empty_array
              else flat ← zpop_loop idx key min_mode (Z.to_nat count) []; reply_bulk_array flat
          | _ => reply_empty_array
          end
      end
  end.

(** Erases a victim of the range removals. *)
Definition zset_drop (idx : nat) (key : bytes) (p : double * bytes) : M unit :=
  z ← deref ZSetValue idx key;
  r ← from_option_ub UbSkipList (Erase (sl z) p.1 p.2);
  store idx key (mkZSet r.2 (delete p.2 (dict z))).

Definition cmd_ZREMRANGEBYRANK (argv : list bytes) : M unit :=
  key ← arg argv 1; idx ← cur_db; st ← GetTyped ZSetValue idx key;
  match st with
  | kWrongType => ErrWrongType
  | _ =>
      a ← arg argv 2; b ← arg argv 3;
      match ParseIntStrict a, ParseIntStrict b with
      | Some start, Some stop =>
          match st with
          | kFound z =>
              victims ← from_option_ub UbSkipList (RangeByRank (sl z) start stop false);
              for_each (zset_drop idx key) victims ≫= fun _ => reply_int (zlen victims)
          | _ => reply_int 0
          end
      | _, _ => ErrNotInt
      end
  end.

Definition cmd_ZREMRANGEBYSCORE (argv : list bytes) : M unit :=
  key ← arg argv 1; idx ← cur_db; st ← GetTyped ZSetValue idx key;
  match st with
  | kWrongType => ErrWrongType
  | _ =>
      a ← arg argv 2; b ← arg argv 3;
      let minb := ParseScoreBound a in
      let maxb := ParseScoreBound b in
      if negb (b_ok minb) || negb (b_ok maxb) then ErrMinMax else
      match st with
      | kFound z =>
          victims ← from_option_ub UbSkipList (RangeByScore (sl z) (ToRange minb maxb) false 0 (-1));
          for_each (zset_drop idx key) victims ≫= fun _ => reply_int (zlen victims)
      | _ => reply_int 0
      end
  end.
End commands.
