(* ===== verification/ServerCmds.v ===== *)
(** * Server commands

    Models the connection and server branches of [Dispatch] in
    [src/src/commands.cpp] with [BuildInfo].  [Dispatch] never writes to the
    options, so they are an argument. *)

From S2P Require Import Prelude Bytes Resp Double SkipList Db Rdb RdbFile FloatText Exec StringCmds.
Local Open Scope Z_scope.

(** ** Updates of the client and of the statistics *)

Definition set_db_index (i : nat) (c : ClientState) : ClientState :=
  mkClient i (name c) (id c) (in_multi c) (multi_error c) (multi_queue c) (quit_requested c).
Definition set_name (n : bytes) (c : ClientState) : ClientState :=
  mkClient (db_index c) n (id c) (in_multi c) (multi_error c) (multi_queue c) (quit_requested c).
Definition set_multi (b e : bool) (q : list (list bytes)) (c : ClientState) : ClientState :=
  mkClient (db_index c) (name c) (id c) b e q (quit_requested c).
Definition set_quit (c : ClientState) : ClientState :=
  mkClient (db_index c) (name c) (id c) (in_multi c) (multi_error c) (multi_queue c) true.

Definition update_client (f : ClientState -> ClientState) : M unit :=
  modify (fun w => with_cs (f (w_cs w)) w).

Definition request_shutdown (nosave : bool) (s : ServerStats) : ServerStats :=
  mkStats (total_commands s) (total_connections s) (rejected_connections s) (expired_keys s)
    (start_time_us s) (connected_clients s) true nosave.

(** ** INFO *)

Definition kv (k : string) (v : bytes) : bytes := lit k ++ lit ":" ++ v ++ crlf.

(** The line of one database in the key space section. *)
Definition keyspace_line (db : Database) (i : nat) : bytes :=
  if Size db i =? 0 then []
  else
    lit "db" ++ print_signed (Z.of_nat i) ++ lit ":" ++
    lit "keys=" ++ print_signed (Size db i) ++ lit ",expires=" ++
    print_signed (count_if (fun e => negb (expires_at_ms e =? 0)) (table db i)) ++ lit ",avg_ttl=0" ++ crlf.

Definition BuildInfo (db : Database) (opts : ServerOptions) (stats : ServerStats) (rdb : RdbState)
    (uptime_s : Z) (section : bytes) : bytes :=
  let want (n : string) :=
    bool_decide (section = []) || is_ section "all" || is_ section "default" || bool_decide (section = lit n) in
  (if want "Server"%string then
     lit "# Server" ++ crlf ++ kv "redis_version" (lit "7.4.0-tiny") ++ kv "redis_mode" (lit "standalone") ++
     kv "os" (lit "Darwin tiny-redis-runtime") ++ kv "run_id" (lit "0000000000000000000000000000000000000000") ++
     kv "tcp_port" (print_signed (port opts)) ++ kv "uptime_in_seconds" (print_signed uptime_s)
   else []) ++
  (if want "Clients"%string then
     lit "# Clients" ++ crlf ++ kv "connected_clients" (print_signed (connected_clients stats))
   else []) ++
  (if want "Memory"%string then
     lit "# Memory" ++ crlf ++ kv "used_memory" (print_signed (used_memory db)) ++
     kv "used_memory_human" (print_signed (used_memory db / 1024) ++ lit "K") ++
     kv "maxmemory" (print_signed (max_memory db)) ++ kv "maxmemory_policy" (lit "noeviction")
   else []) ++
  (if want "Persistence"%string then
     lit "# Persistence" ++ crlf ++ kv "loading" (lit "0") ++
     kv "rdb_last_save_time" (print_signed (last_save_time rdb))
   else []) ++
  (if want "Stats"%string then
     lit "# Stats" ++ crlf ++ kv "total_connections_received" (print_signed (total_connections stats)) ++
     kv "total_commands_processed" (print_signed (total_commands stats)) ++
     kv "expired_keys" (print_signed (expired_keys stats))
   else []) ++
  (if want "Replication"%string then
     lit "# Replication" ++ crlf ++ kv "role" (lit "master") ++ kv "connected_slaves" (lit "0")
   else []) ++
  (if want "Keyspace"%string then
     lit "# Keyspace" ++ crlf ++ concat (map (keyspace_line db) (seq 0 kNumDatabases))
   else []).

(** The pairs of CONFIG GET. *)
Definition config_get (db : Database) (opts : ServerOptions) (param : bytes) : option (list bytes) :=
  if is_ param "maxmemory" then Some [lit "maxmemory"; print_signed (max_memory db)]
  else if is_ param "port" then Some [lit "port"; print_signed (port opts)]
  else if is_ param "databases" then Some [lit "databases"; print_signed (num_databases opts)]
  else if is_ param "dir" then Some [lit "dir"; dir opts]
  else if is_ param "dbfilename" then Some [lit "dbfilename"; dbfilename opts]
  else if is_ param "save" then Some [lit "save"; []]
  else if is_ param "timeout" then Some [lit "timeout"; lit "0"]
  else None.

Definition rdb_path (opts : ServerOptions) : bytes := dir opts ++ lit "/" ++ dbfilename opts.

Section commands.
Context `{O : Oracle} (opts : ServerOptions).

Definition cmd_PING (argv : list bytes) : M unit :=
  if zlen argv =? 2 then a ← arg argv 1; reply_bulk a else reply_simple (lit "PONG").

Definition cmd_ECHO (argv : list bytes) : M unit := a ← arg argv 1; reply_bulk a.

Definition cmd_SELECT (argv : list bytes) : M unit :=
  a ← arg argv 1;
  match ParseIntStrict a with
  | None => reply_error (lit "ERR DB index is out of range")
  | Some i =>
      if (i <? 0) || (i >=? num_databases opts) then reply_error (lit "ERR DB index is out of range")
      else update_client (set_db_index (Z.to_nat i)) ≫= fun _ => reply_simple (lit "OK")
  end.

Definition cmd_AUTH (argv : list bytes) : M unit :=
  reply_error (lit "ERR Client sent AUTH, but no password is set").

Definition cmd_QUIT (argv : list bytes) : M unit :=
  update_client set_quit ≫= fun _ => reply_simple (lit "OK").

Definition cmd_HELLO (argv : list bytes) : M unit :=
  let ok :=
    match argv !! 1%nat with
    | Some a => match ParseIntStrict a with Some p => p =? 2 | None => false end
    | None => true
    end in
  if negb ok then reply_error (lit "NOPROTO unsupported protocol version")
  else
    reply_array 14 ≫= fun _ =>
    for_each (fun f => reply_bulk (lit f))
      [ "server"; "redis"; "version"; "7.4.0-tiny"; "proto"; "2"; "id"; "1"; "mode"; "standalone";
        "role"; "master"; "modules"; "" ]%string.

Definition cmd_COMMAND (argv : list bytes) : M unit := reply_empty_array.

Definition cmd_DBSIZE (argv : list bytes) : M unit :=
  idx ← cur_db; check_db idx ≫= fun _ => db ← gets w_db; reply_int (Size db idx).

Definition cmd_FLUSHDB (argv : list bytes) : M unit :=
  idx ← cur_db; check_db idx ≫= fun _ =>
  n ← tick;
  modify (fun w => with_db (FlushDb (iter_order n) idx (w_db w)) w) ≫= fun _ => reply_simple (lit "OK").

Definition cmd_FLUSHALL (argv : list bytes) : M unit :=
  n ← tick;
  modify (fun w => with_db (FlushAll (iter_order n) (w_db w)) w) ≫= fun _ => reply_simple (lit "OK").

Definition cmd_TIME (argv : list bytes) : M unit :=
  us ← NowUs;
  reply_array 2 ≫= fun _ =>
  reply_bulk (print_signed (Z.quot us 1000000)) ≫= fun _ => reply_bulk (print_signed (Z.rem us 1000000)).

Definition cmd_ROLE (argv : list bytes) : M unit :=
  reply_array 3 ≫= fun _ => reply_bulk (lit "master") ≫= fun _ => reply_int 0 ≫= fun _ => reply_array 0.

Definition cmd_WAIT (argv : list bytes) : M unit := reply_int 0.

Definition cmd_LASTSAVE (argv : list bytes) : M unit :=
  r ← gets w_rdb; reply_int (last_save_time r).

Definition cmd_SAVE (argv : list bytes) : M unit :=
  n ← tick;
  db ← gets w_db; rdb ← gets w_rdb; children ← gets w_children;
  let '(r, st) := SaveToFile (iter_order n) (rdb_path opts) db (disk n) (time_s n) rdb in
  modify (with_files st children) ≫= fun _ =>
  match r with inl _ => reply_simple (lit "OK") | inr err => reply_error err end.

Definition cmd_BGSAVE (argv : list bytes) : M unit :=
  n ← tick;
  db ← gets w_db; rdb ← gets w_rdb; children ← gets w_children;
  let '(pid, errno) := fork_result n in
  let '(r, (st, cs)) :=
    BgSaveFork (iter_order n) (rdb_path opts) db pid errno (time_s n) (rdb, children) in
  modify (with_files st cs) ≫= fun _ =>
  match r with
  | inl p => if 0 <? p then reply_simple (lit "Background saving started") else reply_error []
  | inr err => reply_error err
  end.

Definition cmd_BGREWRITEAOF (argv : list bytes) : M unit :=
  reply_simple (lit "Background append only file rewriting started").

Definition cmd_INFO (argv : list bytes) : M unit :=
  sec ← (if zlen argv =? 2 then a ← arg argv 1; mret (ToLower a) else mret []);
  db ← gets w_db; stats ← gets w_stats; rdb ← gets w_rdb;
  uptime ← (if start_time_us stats =? 0 then mret 0
            else now ← NowUs; d ← chk (now - start_time_us stats); mret (Z.quot d 1000000));
  reply_bulk (BuildInfo db opts stats rdb uptime sec).

Definition cmd_SHUTDOWN (argv : list bytes) : M unit :=
  let how := if zlen argv =? 2 then option_map ToUpper (argv !! 1%nat) else None in
  let nosave := bool_decide (how = Some (lit "NOSAVE")) in
  if (zlen argv =? 2) && negb nosave && negb (bool_decide (how = Some (lit "SAVE"))) then ErrSyntax
  else modify (fun w => with_stats (request_shutdown nosave (w_stats w)) w).

Definition cmd_CONFIG (argv : list bytes) : M unit :=
  a1 ← arg argv 1;
  let sub := ToUpper a1 in
  if is_ sub "GET" then
    a2 ← arg argv 2;
    db ← gets w_db;
    match config_get db opts (ToLower a2) with
    | Some pairs => reply_array (zlen pairs) ≫= fun _ => for_each reply_bulk pairs
    | None => reply_error (lit "ERR Unknown option or number of arguments for CONFIG GET -- '" ++
                           ToLower a2 ++ lit "'")
    end
  else if is_ sub "SET" then
    a2 ← arg argv 2;
    if is_ (ToLower a2) "maxmemory" then
      a3 ← arg argv 3;
      match ParseIntStrict a3 with
      | None => ErrNotInt
      | Some cap =>
          if cap <? 0 then ErrNotInt
          else modify (fun w => with_db (set_max_memory cap (w_db w)) w) ≫= fun _ => reply_simple (lit "OK")
      end
    else reply_error (lit "ERR Unsupported CONFIG parameter: " ++ ToLower a2)
  else ErrSyntax.

Definition cmd_CLIENT (argv : list bytes) : M unit :=
  a1 ← arg argv 1;
  cs ← gets w_cs;
  let sub := ToUpper a1 in
  let db_text := print_signed (Z.of_nat (db_index cs)) in
  if is_ sub "ID" then reply_int (i64_of_u64 (id cs))
  else if is_ sub "GETNAME" then
    if bool_decide (name cs = []) then reply_null else reply_bulk (name cs)
  else if is_ sub "SETNAME" then
    a2 ← arg argv 2; update_client (set_name a2) ≫= fun _ => reply_simple (lit "OK")
  else if is_ sub "INFO" then
    reply_bulk (lit "id=" ++ print_signed (id cs) ++ lit " addr=127.0.0.1:0 laddr=127.0.0.1:" ++
                print_signed (port opts) ++ lit " name=" ++ name cs ++ lit " db=" ++ db_text)
  else if is_ sub "LIST" then
    reply_bulk (lit "id=" ++ print_signed (id cs) ++ lit " addr=127.0.0.1:0 fd=-1 name=" ++ name cs ++
                lit " db=" ++ db_text ++ lit " cmd=client")
  else reply_error (lit "ERR Unknown CLIENT subcommand or wrong number of arguments for '" ++
                    ToLower a1 ++ lit "'").

Definition cmd_MEMORY (argv : list bytes) : M unit :=
  a1 ← arg argv 1;
  if is_ (ToUpper a1) "USAGE" then
    key ← arg argv 2; idx ← cur_db; e ← lookup_key idx key;
    match e with
    | None => reply_null
    | Some e => reply_int (i64_of_u64 (u64 (48 + zlen key + ValueSize (value e))))
    end
  else ErrSyntax.
End commands.
