(* ===== verification/Dispatch.v ===== *)
(** * Dispatch and transactions

    Models [Dispatch] of [src/src/commands.cpp]: the queueing path of MULTI, the
    arity check, the memory gate and the chain of branches, written as a table
    from upper-case names to the branches.  EXEC calls [Dispatch] again for the
    queued commands; the recursion is bounded by [fuel], and two levels are
    enough because EXEC is never queued ([DispatchProofs.v]). *)

From S2P Require Import Prelude Bytes Resp Double SkipList Db Rdb RdbFile FloatText Exec StringCmds KeyCmds.
From S2P Require Import HashCmds ListCmds SetCmds ZsetCmds ServerCmds.
Local Open Scope Z_scope.

(** The commands that are not queued inside MULTI. *)
Definition bypasses_queue (upper : bytes) : bool :=
  is_ upper "MULTI" || is_ upper "EXEC" || is_ upper "DISCARD" || is_ upper "QUIT".

Section dispatch.
Context `{O : Oracle} (opts : ServerOptions).

(** ** Transactions *)

Definition cmd_MULTI (argv : list bytes) : M unit :=
  cs ← gets w_cs;
  if in_multi cs then reply_error (lit "ERR MULTI calls can not be nested")
  else update_client (set_multi true false []) ≫= fun _ => reply_simple (lit "OK").

Definition cmd_EXEC (dispatch : list bytes -> M unit) (argv : list bytes) : M unit :=
  cs ← gets w_cs;
  if negb (in_multi cs) then reply_error (lit "ERR EXEC without MULTI")
  else if multi_error cs then
    update_client (set_multi false true []) ≫= fun _ =>
    reply_error (lit "EXECABORT Transaction discarded because of previous errors.")
  else
    let queue := multi_queue cs in
    update_client (set_multi false false []) ≫= fun _ =>
    reply_array (zlen queue) ≫= fun _ =>
    for_each dispatch queue.

Definition cmd_DISCARD (argv : list bytes) : M unit :=
  cs ← gets w_cs;
  if negb (in_multi cs) then reply_error (lit "ERR DISCARD without MULTI")
  else update_client (set_multi false false []) ≫= fun _ => reply_simple (lit "OK").

(** ** The branches *)

(** Those that do not concern transactions. *)
Definition plain_handlers (lower : bytes) : list (string * (list bytes -> M unit)) :=
  [ ("PING", cmd_PING); ("ECHO", cmd_ECHO); ("SELECT", cmd_SELECT opts); ("AUTH", cmd_AUTH);
    ("HELLO", cmd_HELLO); ("COMMAND", cmd_COMMAND); ("DBSIZE", cmd_DBSIZE);
    ("FLUSHDB", cmd_FLUSHDB); ("FLUSHALL", cmd_FLUSHALL); ("TIME", cmd_TIME); ("ROLE", cmd_ROLE);
    ("WAIT", cmd_WAIT); ("LASTSAVE", cmd_LASTSAVE); ("SAVE", cmd_SAVE opts); ("BGSAVE", cmd_BGSAVE opts);
    ("BGREWRITEAOF", cmd_BGREWRITEAOF); ("INFO", cmd_INFO opts); ("SHUTDOWN", cmd_SHUTDOWN);
    ("CONFIG", cmd_CONFIG opts); ("CLIENT", cmd_CLIENT opts); ("MEMORY", cmd_MEMORY);
    ("GET", cmd_GET); ("SET", CmdSet); ("SETNX", cmd_SETNX); ("SETEX", cmd_SETEX false);
    ("PSETEX", cmd_SETEX true); ("GETSET", cmd_GETSET); ("GETDEL", cmd_GETDEL);
    ("GETRANGE", cmd_GETRANGE); ("SETRANGE", cmd_SETRANGE); ("STRLEN", cmd_STRLEN);
    ("APPEND", cmd_APPEND); ("INCR", cmd_INCR); ("DECR", cmd_DECR); ("INCRBY", cmd_INCRBY);
    ("DECRBY", cmd_DECRBY); ("INCRBYFLOAT", cmd_INCRBYFLOAT); ("MGET", cmd_MGET);
    ("MSET", cmd_MSET false lower); ("MSETNX", cmd_MSET true lower);
    ("DEL", cmd_DEL); ("UNLINK", cmd_DEL); ("EXISTS", cmd_EXISTS); ("KEYS", cmd_KEYS);
    ("SCAN", cmd_SCAN); ("RANDOMKEY", cmd_RANDOMKEY); ("TYPE", cmd_TYPE); ("RENAME", cmd_RENAME);
    ("EXPIRE", fun a => CmdExpire a false false); ("PEXPIRE", fun a => CmdExpire a false true);
    ("EXPIREAT", fun a => CmdExpire a true false); ("PEXPIREAT", fun a => CmdExpire a true true);
    ("TTL", cmd_TTL false); ("PTTL", cmd_TTL true); ("PERSIST", cmd_PERSIST);
    ("HSET", cmd_HSET false lower); ("HMSET", cmd_HSET true lower); ("HGET", cmd_HGET);
    ("HMGET", cmd_HMGET); ("HGETALL", cmd_HGETALL HGetAll); ("HKEYS", cmd_HGETALL HKeys);
    ("HVALS", cmd_HGETALL HVals); ("HDEL", cmd_HDEL); ("HEXISTS", cmd_HEXISTS); ("HLEN", cmd_HLEN);
    ("HSETNX", cmd_HSETNX); ("HSTRLEN", cmd_HSTRLEN); ("HINCRBY", cmd_HINCRBY);
    ("HINCRBYFLOAT", cmd_HINCRBYFLOAT);
    ("LPUSH", fun a => CmdPush a true); ("RPUSH", fun a => CmdPush a false);
    ("LPOP", fun a => CmdPop a true); ("RPOP", fun a => CmdPop a false); ("LLEN", cmd_LLEN);
    ("LRANGE", cmd_LRANGE); ("LINDEX", cmd_LINDEX); ("LSET", cmd_LSET); ("LREM", cmd_LREM);
    ("LINSERT", cmd_LINSERT); ("LTRIM", cmd_LTRIM); ("RPOPLPUSH", cmd_RPOPLPUSH); ("LMOVE", CmdLMove);
    ("SADD", cmd_SADD); ("SREM", cmd_SREM); ("SMEMBERS", cmd_SMEMBERS); ("SISMEMBER", cmd_SISMEMBER);
    ("SCARD", cmd_SCARD); ("SPOP", cmd_SPOP); ("SRANDMEMBER", cmd_SRANDMEMBER); ("SMOVE", cmd_SMOVE);
    ("SINTER", fun a => CmdSetOp a kInter); ("SUNION", fun a => CmdSetOp a kUnion);
    ("SDIFF", fun a => CmdSetOp a kDiff); ("SINTERSTORE", fun a => CmdSetOpStore a kInter);
    ("SUNIONSTORE", fun a => CmdSetOpStore a kUnion); ("SDIFFSTORE", fun a => CmdSetOpStore a kDiff);
    ("ZADD", cmd_ZADD lower); ("ZSCORE", cmd_ZSCORE); ("ZCARD", cmd_ZCARD);
    ("ZRANGE", cmd_ZRANGE true); ("ZREVRANGE", cmd_ZRANGE false);
    ("ZRANGEBYSCORE", cmd_ZRANGEBYSCORE false); ("ZREVRANGEBYSCORE", cmd_ZRANGEBYSCORE true);
    ("ZRANK", cmd_ZRANK false); ("ZREVRANK", cmd_ZRANK true); ("ZCOUNT", cmd_ZCOUNT);
    ("ZREM", cmd_ZREM); ("ZINCRBY", cmd_ZINCRBY); ("ZPOPMIN", cmd_ZPOP true);
    ("ZPOPMAX", cmd_ZPOP false); ("ZREMRANGEBYRANK", cmd_ZREMRANGEBYRANK);
    ("ZREMRANGEBYSCORE", cmd_ZREMRANGEBYSCORE) ]%string.

Definition handlers (dispatch : list bytes -> M unit) (lower : bytes)
    : list (bytes * (list bytes -> M unit)) :=
  map (fun x => (lit x.1, x.2))
    (plain_handlers lower ++
     [ ("QUIT", cmd_QUIT); ("MULTI", cmd_MULTI); ("EXEC", cmd_EXEC dispatch);
       ("DISCARD", cmd_DISCARD) ]%string).

(** ** Dispatch *)

(** The queueing path. *)
Definition enqueue (upper lower : bytes) (argv : list bytes) : M unit :=
  if negb (CommandExists upper) then
    ErrUnknownCommand argv ≫= fun _ => update_client (fun c => set_multi (in_multi c) true (multi_queue c) c)
  else if negb (ArityOk upper (zlen argv)) then
    ErrWrongArgs lower ≫= fun _ => update_client (fun c => set_multi (in_multi c) true (multi_queue c) c)
  else
    reply_simple (lit "QUEUED") ≫= fun _ =>
    update_client (fun c => set_multi (in_multi c) (multi_error c) (multi_queue c ++ [argv]) c).

Definition maxmemory_blocks (upper : bytes) (db : Database) : bool :=
  (0 <? maxmemory opts) && IsWriteCommand upper && (maxmemory opts <? used_memory db) &&
  negb (is_ upper "FLUSHDB") && negb (is_ upper "FLUSHALL").

Definition dispatch_body (dispatch : list bytes -> M unit) (argv : list bytes) : M unit :=
  match argv with
  | [] => mret tt
  | a0 :: _ =>
      let upper := ToUpper a0 in
      let lower := ToLower a0 in
      cs ← gets w_cs;
      if in_multi cs && negb (bypasses_queue upper) then enqueue upper lower argv
      else if negb (CommandExists upper) then ErrUnknownCommand argv
      else if negb (ArityOk upper (zlen argv)) then ErrWrongArgs lower
      else
        db ← gets w_db;
        if maxmemory_blocks upper db then
          reply_error (lit "OOM command not allowed when used memory > 'maxmemory'.")
        else
          match assoc upper (handlers dispatch lower) with
          | Some h => h argv
          | None => ErrUnknownCommand argv
          end
  end.

Fixpoint Dispatch (fuel : nat) (argv : list bytes) : M unit :=
  match fuel with
  | 0%nat => undef OutOfFuel
  | S f => dispatch_body (Dispatch f) argv
  end.
End dispatch.
