(* ===== verification/CommandSafety.v ===== *)
(** * Commands keep the invariant

    For every command but the four of transactions: run in a world that
    satisfies [Inv] with as many arguments as its arity demands, it ends in such
    a world, with the same transaction state and a longer reply buffer, or in a
    kind of undefined behaviour that [faults] lists for it. *)

From S2P Require Import Prelude Bytes Resp Double SkipList SkipListInv SkipListProofs SkipListQueries.
From S2P Require Import SkipListRefine Db DbProofs DbRefine Rdb RdbProofs RdbFile ZsetProofs FloatText Exec.
From S2P Require Import ExecLogic StringCmds KeyCmds HashCmds ListCmds SetCmds ZsetCmds ServerCmds Dispatch.
Local Open Scope Z_scope.

(** The undefined behaviour a command can have; none for those not listed. *)
Definition fault_table : list (string * list Ub) :=
  [ ("CONFIG", [UbIndex]); ("CLIENT", [UbIndex]); ("SET", [UbOverflow]);
    ("SETEX", [UbOverflow]); ("PSETEX", [UbOverflow]); ("SETRANGE", [UbOverflow]);
    ("INCRBYFLOAT", [UbBuffer]); ("EXPIRE", [UbOverflow]); ("PEXPIRE", [UbOverflow]);
    ("EXPIREAT", [UbOverflow]); ("HDEL", [UbNull]);
    ("HINCRBYFLOAT", [UbBuffer]); ("LREM", [UbOverflow]); ("LMOVE", [UbDangling]);
    ("RPOPLPUSH", [UbDangling]); ("SREM", [UbNull]); ("SRANDMEMBER", [UbOverflow]);
    ("SMOVE", [UbDangling]); ("SUNION", [UbDangling]); ("SDIFF", [UbDangling]);
    ("SUNIONSTORE", [UbDangling]); ("SDIFFSTORE", [UbDangling]);
    ("ZRANGE", [UbIndex]); ("ZREVRANGEBYSCORE", [UbSkipList]) ]%string.

Definition faults (upper : bytes) : list Ub :=
  default [] (assoc upper (map (fun x => (lit x.1, x.2)) fault_table)).

(** The command keeps the invariant and the bound on sorted sets. *)
Definition keeps `{O : Oracle} (us : list Ub) (n : nat) (h : list bytes -> M unit) : Prop :=
  forall B tx o w argv, Inv B tx o w -> B <= LLONG_MAX -> (n <= length argv)%nat ->
    wp us (h argv) (fun _ => Inv B tx o) w.

(** The same, with room for one more member per argument. *)
Definition safe `{O : Oracle} (us : list Ub) (n : nat) (h : list bytes -> M unit) : Prop :=
  forall B tx o w argv, Inv B tx o w -> B + zlen argv <= LLONG_MAX -> (n <= length argv)%nat ->
    wp us (h argv) (fun _ => Inv (B + zlen argv) tx o) w.

Lemma keeps_safe `{O : Oracle} us n h : keeps us n h -> safe us n h.
Proof.
  intros Hk B tx o w argv HI HB Hn. assert (0 <= zlen argv) by (unfold zlen; lia).
  eapply wp_mono; [apply Hk; [exact HI|lia|done]|]. intros ? w'. apply Inv_mono. lia.
Qed.

Ltac keep := intros B tx o w argv HI HB Hn; cbv beta; wp_run.

(** ** Facts about the data *)

Lemma pairs_of_full l p : (zlen l mod 2 =? 0) = true -> p ∈ pairs_of l -> is_Some p.2.
Proof.
  rewrite Z.eqb_eq. remember (length l) as n eqn:En. revert l En.
  induction (lt_wf n) as [n _ IH]. intros [|a [|b l]] En He Hp; simpl in *.
  - by apply not_elem_of_nil in Hp.
  - by vm_compute in He.
  - apply elem_of_cons in Hp as [->|Hp]; [done|]. apply (IH (length l)) with (l := l); [lia|done| |done].
    unfold zlen in *. simpl in He. replace (Z.of_nat (S (S (length l)))) with (Z.of_nat (length l) + 1 * 2) in He by lia.
    by rewrite Z_mod_plus_full in He.
Qed.

(** The position drawn from a container that is not empty is one of it. *)
Lemma drawn_position {A} (l l' : list A) (r : Z) :
  l' ≡ₚ l -> l <> [] -> exists x, l' !! Z.to_nat (r mod zlen l) = Some x /\ x ∈ l.
Proof.
  intros Hp Hne. assert (0 < zlen l) by (destruct l; [done|unfold zlen; simpl; lia]).
  pose proof (Z.mod_pos_bound r (zlen l) ltac:(lia)) as Hr.
  destruct (lookup_lt_is_Some_2 l' (Z.to_nat (r mod zlen l))) as [x Hx].
  { rewrite Hp. unfold zlen in *. lia. }
  exists x. split; [done|]. rewrite <- Hp. by eapply list_elem_of_lookup_2.
Qed.

Lemma pop_end_some left (l : list bytes) : l <> [] -> exists x r, pop_end left l = Some (x, r) /\ length l = S (length r).
Proof.
  intros Hne. unfold pop_end. destruct left.
  - destruct l as [|x r]; [done|]. by exists x, r.
  - destruct (last l) as [x|] eqn:E; [|by apply last_None in E].
    do 2 eexists. split; [done|]. rewrite length_take. destruct l; [done|simpl; lia].
Qed.

Lemma pop_many_some left n (l : list bytes) : (n <= length l)%nat -> is_Some (pop_many left n l).
Proof.
  revert l. induction n as [|n IH]; intros l Hn; simpl; [by eexists|].
  destruct (pop_end_some left l) as (x & r & -> & Hl); [by intros ->; simpl in Hn; lia|].
  destruct (IH r ltac:(lia)) as [[xs r'] ->]. by eexists.
Qed.

Lemma ListIndexRange_empty start stop : ListIndexRange start stop 0 = None.
Proof.
  unfold ListIndexRange. repeat (case_match; try lia); done.
Qed.

(** ** Helpers of the commands *)

Section helpers.
Context `{O : Oracle} `{!OracleLaws O} (us : list Ub) (B : Z) (tx : Tx) (o : bytes).
Implicit Types (idx : nat) (key m : bytes) (w : World).
Abbreviation I := (Inv B tx o).

Lemma wp_any_exists idx keys w :
  I w -> (idx < kNumDatabases)%nat -> wp us (any_exists idx keys) (fun _ => I) w.
Proof. intros HI Hi. revert w HI. induction keys as [|k keys IH]; intros w HI; simpl; wp_run. Qed.

Lemma wp_scan_loop pattern count t order acc w :
  I w -> wp us (scan_loop pattern count t order acc) (fun _ => I) w.
Proof.
  intros HI. revert acc w HI. induction order as [|k order IH]; intros acc w HI; simpl; wp_run; by apply IH.
Qed.

(** The moved-from value is erased at once. *)
Lemma Delete_overwritten idx key x db :
  length (dbs_ db) = kNumDatabases -> (idx < kNumDatabases)%nat ->
  exists db', Delete idx key (set_table idx (<[key := x]> (table db idx)) db) = (true, db') /\
    length (dbs_ db') = kNumDatabases /\ forall i, table db' i ⊆ table db i.
Proof.
  intros Hl Hi. set (db1 := set_table _ _ _).
  assert (Hl1 : length (dbs_ db1) = kNumDatabases) by (simpl; by rewrite length_insert).
  assert (Ht : table db1 idx = <[key := x]> (table db idx)) by (by apply table_set_table).
  unfold Delete. rewrite Ht, lookup_insert_eq. eexists. split; [done|]. split.
  - simpl. by rewrite !length_insert.
  - intros i. rewrite table_drop_entry by done. destruct (decide (i = idx)) as [->|Hne].
    + rewrite Ht, delete_insert_eq. apply delete_subseteq.
    + unfold db1. by rewrite table_set_table_ne.
Qed.

Lemma wp_move_out idx key f Q w e :
  I w -> (idx < kNumDatabases)%nat -> table (w_db w) idx !! key = Some e -> (forall w', I w' -> Q true w') ->
  wp us (poke idx key f) (fun _ w' => wp us (delete_key idx key) Q w') w.
Proof.
  intros HI Hi He HQ. pose proof (inv_dbs _ _ _ _ HI) as Hl.
  unfold poke. apply wp_bind, wp_gets. rewrite He. unfold wp at 1, modify.
  destruct (Delete_overwritten idx key (f e) (w_db w) Hl Hi) as (db' & E & Hl' & Hsub).
  unfold delete_key. apply wp_bind. unfold check_db. apply wp_bind, wp_gets.
  cbn [w_db with_db set_table dbs_]. rewrite length_insert, Hl, (proj2 (Nat.ltb_lt _ _) Hi).
  apply wp_ret, wp_bind, wp_gets. cbn [w_db with_db]. rewrite E. apply HQ.
  by apply (Inv_sub B tx o db' w).
Qed.

Lemma wp_hset_loop ps acc w :
  (forall p, p ∈ ps -> is_Some p.2) -> wp us (fold_m hset_pair acc ps) (fun _ w' => w' = w) w.
Proof.
  intros Hp. apply (wp_fold_m us hset_pair ps (fun _ w' => w' = w)); [done|].
  intros c p w' Hin ->. unfold hset_pair. destruct (Hp p Hin) as [v ->]. done.
Qed.
End helpers.
#[export] Hint Resolve wp_any_exists wp_scan_loop : wp.

(** *** Sets *)

Section set_helpers.
Context `{O : Oracle} `{!OracleLaws O} (us : list Ub) (B : Z) (tx : Tx) (o : bytes).
Implicit Types (idx : nat) (key m : bytes) (w : World).
Abbreviation I := (Inv B tx o).

Lemma elements_nonempty (s : gset bytes) : s <> ∅ -> elements s <> [].
Proof. intros Hs He. apply Hs. apply elements_empty_iff in He. by apply leibniz_equiv. Qed.

Lemma wp_random_member idx key (s : gset bytes) w :
  I w -> at_ (gset bytes) idx key s (w_db w) -> s <> ∅ ->
  wp us (random_member idx key) (fun m w' => (I w' /\ w_db w' = w_db w) /\ m ∈ s) w.
Proof.
  intros HI Hs Hne. unfold random_member. apply wp_bind, wp_deref; [|wp_excuse]. intros s' Hs'.
  rewrite (at_unique _ _ _ _ _ _ Hs' Hs). clear s' Hs'. wp_step. wp_step. wp_step. wp_step.
  assert (Hsz : size s <> 0%nat) by (by intros ?%size_empty_inv%leibniz_equiv).
  rewrite (proj2 (Nat.eqb_neq _ _) Hsz). cbv beta.
  destruct (drawn_position _ _ (rng32 (w_tick (next_tick w))) H (elements_nonempty s Hne)) as (m & Em & Hm).
  change (Z.of_nat (size s)) with (zlen (elements s)). rewrite Em. simpl. split; [done|by apply elem_of_elements].
Qed.

Lemma wp_pop_member idx key (s : gset bytes) w :
  I w -> (idx < kNumDatabases)%nat -> at_ (gset bytes) idx key s (w_db w) -> s <> ∅ ->
  wp us (pop_member idx key)
    (fun m w' => I w' /\ at_ (gset bytes) idx key (s ∖ {[ m ]}) (w_db w') /\ m ∈ s) w.
Proof.
  intros HI Hi Hs Hne. unfold pop_member. apply wp_bind.
  eapply wp_mono; [by apply wp_random_member|]. intros m w1 [[H1 E1] Hm].
  rewrite <- E1 in Hs. apply wp_bind, wp_deref; [|wp_excuse]. intros s' Hs'.
  rewrite (at_unique _ _ _ _ _ _ Hs' Hs). wp_step. wp_step. by wp_step.
Qed.

Lemma wp_repeat_random idx key (s : gset bytes) n w :
  I w -> at_ (gset bytes) idx key s (w_db w) -> s <> ∅ ->
  wp us (repeat_m n (random_member idx key)) (fun _ => I) w.
Proof.
  intros HI Hs Hne. revert w HI Hs. induction n as [|n IH]; intros w HI Hs; [done|]. simpl.
  apply wp_bind. eapply wp_mono; [by apply wp_random_member|]. intros m w1 [[H1 E1] _].
  apply wp_bind. eapply wp_mono; [apply IH; [done|by rewrite E1]|]. by intros l w2 H2.
Qed.

Lemma wp_repeat_pop idx key (s : gset bytes) n w :
  I w -> (idx < kNumDatabases)%nat -> at_ (gset bytes) idx key s (w_db w) -> (n <= size s)%nat ->
  wp us (repeat_m n (pop_member idx key)) (fun _ => I) w.
Proof.
  intros HI Hi. revert s w HI. induction n as [|n IH]; intros s w HI Hs Hn; [done|]. simpl.
  apply wp_bind. eapply wp_mono.
  { apply wp_pop_member; [done|done|exact Hs|]. intros ->. rewrite size_empty in Hn. lia. }
  intros m w1 (H1 & A1 & Hm). apply wp_bind. eapply wp_mono.
  { eapply IH; [done|exact A1|]. rewrite size_difference by set_solver. rewrite size_singleton. lia. }
  by intros l w2 H2.
Qed.

(** An intersection stops at the first missing key, so no set collected before
    it can have been dropped. *)
Lemma wp_collect_inter idx keys found w :
  I w -> (idx < kNumDatabases)%nat -> (forall k, k ∈ found -> exists s, at_ (gset bytes) idx k s (w_db w)) ->
  wp us (collect_sets idx kInter keys found)
    (fun c w' => I w' /\ match c with
                         | CSets ks => forall k, k ∈ ks -> exists s, at_ (gset bytes) idx k s (w_db w')
                         | _ => True
                         end) w.
Proof.
  intros HI Hi. revert found w HI. induction keys as [|k keys IH]; intros found w HI Hf; [done|]. simpl.
  apply wp_bind, (wp_GetTyped_frame _ B tx o); [done|done|]. intros r w1 H1 Hr F1.
  destruct r as [|s|]; [done| |].
  - apply IH; [done|]. intros k' Hk'. destruct (decide (k' = k)) as [->|Hne]; [by eexists|].
    destruct (Hf k') as (s' & e & He & Hp); [set_solver|]. exists s', e. by rewrite F1.
  - unfold ErrWrongType, reply_error. wp_run. done.
Qed.

Lemma wp_EvalSetOp_inter idx argv skip w :
  I w -> (idx < kNumDatabases)%nat -> wp us (EvalSetOp idx argv skip kInter) (fun _ => I) w.
Proof.
  intros HI Hi. unfold EvalSetOp. apply wp_bind.
  eapply wp_mono; [apply wp_collect_inter; [done|done|by intros k ?%not_elem_of_nil]|].
  intros c w1 [H1 Hc]. destruct c as [| |[|b os]]; try done.
  apply wp_bind, wp_deref; [|intros Hno; by destruct (Hc b ltac:(left)) as [s ?%Hno]]. intros base _.
  apply wp_bind. eapply wp_mono; [apply (wp_fold_m us _ _ (fun _ w' => w' = w1)); [done|]|by intros ? ? ->].
  intros acc k w' Hk ->. apply wp_bind, wp_deref; [done|].
  intros Hno. by destruct (Hc k ltac:(by right)) as [s ?%Hno].
Qed.

Lemma wp_collect_sets idx op keys found w :
  I w -> (idx < kNumDatabases)%nat -> wp us (collect_sets idx op keys found) (fun _ => I) w.
Proof.
  intros HI Hi. revert found w HI. induction keys as [|k keys IH]; intros found w HI; simpl; wp_run.
Qed.
End set_helpers.
#[export] Hint Resolve wp_collect_sets : wp.

(** *** Sorted sets *)

Section zset_helpers.
Context `{O : Oracle} `{!OracleLaws O} (us : list Ub) (B : Z) (tx : Tx) (o : bytes).
Implicit Types (idx : nat) (key m : bytes) (w : World).
Abbreviation I := (Inv B tx o).

(** The reading operations return on a consistent set. *)
Lemma zset_reads z :
  zset_inv B z -> B <= LLONG_MAX ->
  (forall a b r, RangeByRank (sl z) a b r <> None) /\
  (forall r a b, RangeByScore (sl z) r false a b <> None) /\
  (forall r, CountInRange (sl z) r <> None) /\
  (forall m d, dict z !! m = Some d -> Rank (sl z) d m <> None /\ RevRank (sl z) d m <> None).
Proof.
  intros (ks & Hz & Hk) HB. pose proof Hz as [A _]. split_and!; intros.
  - by rewrite (zi_range_by_rank _ _ _ _ _ A).
  - rewrite (zi_range_by_score _ _ _ false _ _ A); [done|lia|done].
  - by rewrite (zi_count _ _ _ A).
  - pose proof (zset_num wf _ _ _ _ Hz H) as Hn.
    pose proof (zi_rank _ _ (d, m) A Hn) as E1. pose proof (zi_rev_rank _ _ (d, m) A Hn) as E2.
    cbn [fst snd] in E1, E2. by rewrite E1, E2.
Qed.

(** Some sorted set is stored at the key. *)
Definition has_zset (idx : nat) (key : bytes) (w : World) : Prop :=
  I w /\ exists z, at_ ZSetValue idx key z (w_db w).

Lemma wp_zset_deref idx key (Q : ZSetValue -> World -> Prop) w :
  has_zset idx key w ->
  (forall z ks, at_ ZSetValue idx key z (w_db w) -> zset_ok wf z ks -> zlen ks <= B -> Q z w) ->
  wp us (deref ZSetValue idx key) Q w.
Proof.
  intros [HI [z Hz]] HQ. apply wp_deref; [|wp_excuse]. intros z' Hz'.
  destruct (at_zset _ _ _ _ _ _ _ HI Hz') as (ks & Hok & Hk). by eapply HQ.
Qed.

Lemma wp_zset_store idx key z ks z0 (Q : unit -> World -> Prop) w :
  I w -> (idx < kNumDatabases)%nat -> at_ ZSetValue idx key z0 (w_db w) -> zset_ok wf z ks -> zlen ks <= B ->
  (forall w', has_zset idx key w' -> at_ ZSetValue idx key z (w_db w') -> Q tt w') ->
  wp us (store idx key z) Q w.
Proof.
  intros HI Hi H0 Hok Hk HQ. eapply wp_store; [apply _|done|done|by exists ks|..|wp_excuse].
  intros w' HI' A'. apply HQ; [|done]. split; [done|by eexists].
Qed.

Lemma wp_zrem_member idx key n m w :
  (idx < kNumDatabases)%nat -> has_zset idx key w ->
  wp us (zrem_member idx key n m) (fun _ => has_zset idx key) w.
Proof.
  intros Hi HI. unfold zrem_member. apply wp_bind, wp_zset_deref; [done|]. intros z ks A Hok Hk.
  destruct (dict z !! m) as [d|] eqn:E; [|done].
  destruct (zset_erase_ok wf z ks m d Hok E) as (sl' & ks' & Er & Hok' & Hp). rewrite Er.
  apply wp_bind, wp_ret, wp_bind.
  eapply wp_zset_store; [apply HI|done|exact A|exact Hok'| |by intros].
  unfold zlen in *. apply Permutation_length in Hp. simpl in Hp. lia.
Qed.

(** The victims are stored, and no two have the same member. *)
Lemma wp_drop_victims idx key l z ks w :
  I w -> (idx < kNumDatabases)%nat -> at_ ZSetValue idx key z (w_db w) -> zset_ok wf z ks -> zlen ks <= B ->
  l `sublist_of` ks -> wp us (for_each (zset_drop idx key) l) (fun _ => I) w.
Proof.
  intros HI Hi A Hok Hk Hl.
  assert (Hn : NoDup l.*2).
  { eapply sublist_NoDup; [exact (zset_members_nodup wf _ _ Hok)|by apply fmap_sublist]. }
  assert (Hin : forall p, p ∈ l -> p ∈ ks) by (intros p Hp; by eapply elem_of_sublist).
  clear Hl. revert z ks w HI A Hok Hk Hn Hin. induction l as [|[d m] l IH]; intros z ks w HI A Hok Hk Hn Hin; [done|].
  simpl. apply wp_bind. unfold zset_drop at 1.
  apply wp_bind, wp_deref; [|wp_excuse]. intros z' A'. rewrite (at_unique _ _ _ _ _ _ A' A).
  assert (Hd : dict z !! m = Some d) by (apply (zset_lookup wf z ks); [done|apply Hin; left]).
  destruct (zset_erase_ok wf z ks m d Hok Hd) as (sl' & ks' & Er & Hok' & Hp). cbn [fst snd]. rewrite Er.
  apply wp_bind, wp_ret. cbn [snd].
  eapply wp_zset_store; [done|done|exact A|exact Hok'| |].
  { unfold zlen in *. apply Permutation_length in Hp. simpl in Hp. lia. }
  intros w' [HI' _] A''. cbn [fmap list_fmap fst snd] in Hn. apply NoDup_cons in Hn as [Hm Hn].
  eapply IH; [done|exact A''|exact Hok'| |done|].
  { unfold zlen in *. apply Permutation_length in Hp. simpl in Hp. lia. }
  intros p Hpl. assert (p ∈ ks) as Hpk by (apply Hin; by right).
  rewrite Hp in Hpk. apply elem_of_cons in Hpk as [->|]; [|done].
  exfalso. apply Hm. by apply (list_elem_of_fmap_2 snd) in Hpl.
Qed.

Lemma PopMin_perm ks k : (ref_pop_min ks).1 = Some k -> ks ≡ₚ k :: (ref_pop_min ks).2.
Proof. destruct ks as [|x ks]; simpl; [done|]. intros E. by injection E as ->. Qed.

Lemma PopMax_perm ks k : (ref_pop_max ks).1 = Some k -> ks ≡ₚ k :: (ref_pop_max ks).2.
Proof.
  unfold ref_pop_max. cbn [fst snd]. intros E. apply last_Some in E as [l ->].
  rewrite removelast_last. by rewrite Permutation_app_comm.
Qed.

Lemma wp_zpop_loop idx key (min_mode : bool) n flat w :
  (idx < kNumDatabases)%nat -> has_zset idx key w ->
  wp us (zpop_loop idx key min_mode n flat) (fun _ => I) w.
Proof.
  intros Hi. revert flat w. induction n as [|n IH]; intros flat w HI; [apply wp_ret, HI|]. simpl.
  apply wp_bind, wp_zset_deref; [done|]. intros z ks A Hok Hk. pose proof Hok as [W _].
  assert (exists r sl' ks', (if min_mode then PopMin (sl z) else PopMax (sl z)) = Some (r, sl') /\
    wf sl' ks' /\ forall k, r = Some k -> ks ≡ₚ k :: ks') as (r & sl' & ks' & Er & W' & Hp).
  { destruct min_mode; [destruct (zi_pop_min _ _ W) as (sl' & E & W')|destruct (zi_pop_max _ _ W) as (sl' & E & W')];
      do 3 eexists; (split_and!; [exact E|exact W'|]); [apply PopMin_perm|apply PopMax_perm]. }
  rewrite Er. apply wp_bind, wp_ret. cbn [fst snd].
  destruct r as [k|]; [|apply wp_ret, HI]. specialize (Hp k eq_refl).
  apply wp_bind. eapply wp_zset_store; [apply HI|done|exact A|eapply zset_pop_ok; [done|exact W'|done]| |].
  - unfold zlen in *. apply Permutation_length in Hp. simpl in Hp. lia.
  - intros w' HI' _. by apply IH.
Qed.
End zset_helpers.

(** A member more. *)
Lemma wp_zset_put `{O : Oracle} us B tx o idx (key m : bytes) z res w :
  Inv B tx o w -> B + 1 <= LLONG_MAX -> (idx < kNumDatabases)%nat ->
  at_ ZSetValue idx key z (w_db w) -> isnan res = false ->
  wp us (zset_put idx key m (dict z !! m) res) (fun _ => has_zset (B + 1) tx o idx key) w.
Proof.
  intros HI HB Hi A Hres. unfold zset_put.
  apply wp_bind, wp_deref; [|wp_excuse]. intros z' A'. rewrite (at_unique _ _ _ _ _ _ A' A). clear z' A'.
  destruct (at_zset _ _ _ _ _ _ _ HI A) as (ks & Hok & Hk).
  assert (exists sl1 ks1, wp us (match dict z !! m with
      | Some d => r ← from_option_ub UbSkipList (Erase (sl z) d m); mret r.2
      | None => mret (sl z) end) (fun a w' => a = sl1 /\ w' = w) w /\
      zset_ok wf (mkZSet sl1 (delete m (dict z))) ks1 /\ zlen ks1 <= B) as (sl1 & ks1 & W1 & Hok1 & Hk1).
  { destruct (dict z !! m) as [d|] eqn:E.
    - destruct (zset_erase_ok wf z ks m d Hok E) as (sl' & ks' & Er & Hok' & Hp).
      exists sl', ks'. split_and!; [by rewrite Er|done|].
      unfold zlen in *. apply Permutation_length in Hp. simpl in Hp. lia.
    - exists (sl z), ks. rewrite delete_id by done. by destruct z. }
  apply wp_bind. eapply wp_mono; [exact W1|]. intros ? ? [-> ->].
  apply wp_bind. eapply wp_tick; [done|]. intros HI1. apply wp_bind.
  destruct (zset_insert_ok wf (libc_random (w_tick w)) _ ks1 m res Hok1) as (b & sl2 & ks2 & Ei & Hok2 & Hl);
    [cbn [dict]; by rewrite lookup_delete_eq|done|unfold LLONG_MAX, U64 in *; lia|].
  cbn [sl dict] in Ei, Hok2. rewrite insert_delete_eq in Hok2. rewrite Ei. apply wp_ret. cbn [snd].
  eapply (wp_zset_store us (B + 1)); [eapply Inv_mono; [|exact HI1]; lia|done|exact A|exact Hok2|lia|by intros].
Qed.

Lemma wp_zadd_loop `{O : Oracle} us B tx o idx (key : bytes) opt ps added changed w :
  has_zset B tx o idx key w -> B + zlen ps <= LLONG_MAX -> (idx < kNumDatabases)%nat ->
  (forall p, p ∈ ps -> is_Some p.2) ->
  wp us (zadd_loop idx key opt ps added changed) (fun _ => Inv (B + zlen ps) tx o) w.
Proof.
  revert B added changed w. induction ps as [|[a mo] ps IH]; intros B added changed w HI HB Hi Hp.
  { apply wp_ret. unfold zlen. simpl. rewrite Z.add_0_r. apply HI. }
  assert (Hlen : zlen ((a, mo) :: ps) = 1 + zlen ps) by (unfold zlen; simpl; lia). rewrite Hlen in *.
  assert (0 <= zlen ps) by (unfold zlen; lia).
  assert (Up : forall w', Inv B tx o w' -> Inv (B + (1 + zlen ps)) tx o w') by (intros w'; apply Inv_mono; lia).
  assert (Go : forall x y w', has_zset B tx o idx key w' ->
    wp us (zadd_loop idx key opt ps x y) (fun _ => Inv (B + (1 + zlen ps)) tx o) w').
  { intros x y w' H'. eapply wp_mono; [apply IH; [done|lia|done|intros; apply Hp; by right]|].
    intros ? w2. apply Inv_mono. lia. }
  assert (Go1 : forall x y w', has_zset (B + 1) tx o idx key w' ->
    wp us (zadd_loop idx key opt ps x y) (fun _ => Inv (B + (1 + zlen ps)) tx o) w').
  { intros x y w' H'. rewrite Z.add_assoc. apply IH; [done|lia|done|intros; apply Hp; by right]. }
  destruct (Hp (a, mo)) as [m Hm]; [by left|]. cbn [snd] in Hm. subst mo.
  pose proof HI as [HI0 _]. cbn [zadd_loop].
  destruct (ParseDoubleStrict a) as [sc|]; [|wp_run; by apply Up].
  destruct (isnan sc) eqn:Esc; [wp_run; by apply Up|]. apply wp_bind, wp_ret.
  apply wp_bind. apply (wp_zset_deref us B tx o); [done|]. intros z ks A Hok Hk. cbv zeta.
  destruct (z_incr opt).
  - destruct (_ || _); [wp_run; by apply Up|].
    destruct (_ || _) eqn:Er; [wp_run; by apply Up|]. apply orb_false_iff in Er as [Er _].
    apply wp_bind. eapply wp_mono; [apply wp_zset_put; [done|lia|done|exact A|exact Er]|].
    intros ? w' [H' _]. apply wp_ret. eapply Inv_mono; [|exact H']. lia.
  - destruct (z_nx opt && _); [by apply Go|]. destruct (z_xx opt && _); [by apply Go|].
    destruct (dict z !! m) as [s0|] eqn:Ed; [destruct (deq s0 sc); [by apply Go|]|];
      rewrite <- Ed; apply wp_bind;
      (eapply wp_mono; [apply wp_zset_put; [done|lia|done|exact A|exact Esc]|]; intros ? w'; apply Go1).
Qed.
