(* ===== verification/HandlerSafety.v ===== *)
(** * Every handler is safe

    One lemma for each handler of the table of [Dispatch.v] that needs more than
    the rules of [ExecLogic.v], and the theorem for the whole table. *)

From S2P Require Import Prelude Bytes Resp Double SkipList SkipListInv SkipListProofs SkipListQueries.
From S2P Require Import SkipListRefine Db DbProofs DbRefine Rdb RdbProofs RdbFile ZsetProofs FloatText Exec.
From S2P Require Import ExecLogic StringCmds KeyCmds HashCmds ListCmds SetCmds ZsetCmds ServerCmds Dispatch.
From S2P Require Import CommandSafety.
Local Open Scope Z_scope.

Lemma Inv_name B tx o n w : Inv B tx o w -> Inv B tx o (with_cs (set_name n (w_cs w)) w).
Proof. by intros []. Qed.
Lemma Inv_select B tx o i w :
  Inv B tx o w -> (i < kNumDatabases)%nat -> Inv B tx o (with_cs (set_db_index i (w_cs w)) w).
Proof. by intros []. Qed.
#[export] Hint Resolve Inv_name Inv_select : inv.

Lemma zlen_drop {A} n (l : list A) : (n <= length l)%nat -> zlen (drop n l) = zlen l - Z.of_nat n.
Proof. intros. unfold zlen. rewrite length_drop. lia. Qed.

Lemma filter_sublist {A} (f : A -> bool) l : List.filter f l `sublist_of` l.
Proof. induction l as [|x l IH]; simpl; [done|]. destruct (f x); by constructor. Qed.

(** The least number of arguments, the name included. *)
Definition min_args (upper : bytes) : nat :=
  match assoc upper ArityTable with Some (mn, _) => Z.to_nat mn | None => 0 end.

Lemma value_ok_empty B tx o w : Inv B tx o w -> value_ok B (inj (mkZSet empty_list ∅)).
Proof. intros HI. exists []. split; [apply zset_empty_ok; apply _|apply (inv_bound _ _ _ _ HI)]. Qed.

Section handlers.
Context `{O : Oracle} `{!OracleLaws O} (opts : ServerOptions).
Hypothesis Hdbs : num_databases opts <= Z.of_nat kNumDatabases.

Lemma keeps_SELECT : keeps [] 2 (cmd_SELECT opts).
Proof.
  keep. apply (wp_modify _ B tx o); [|intros ?; wp_run]. apply Inv_select; [done|].
  apply orb_false_iff in Heqb as [? ?]. lia.
Qed.

Lemma keeps_INFO : keeps [] 1 (cmd_INFO opts).
Proof.
  intros B tx o w argv HI HB Hn. pose proof (inv_start _ _ _ _ HI) as Hs. wp_run.
Qed.

Lemma keeps_MSET only_new lower : keeps [] 3 (cmd_MSET only_new lower).
Proof.
  keep; intros En; exfalso; apply negb_false_iff in Heqb;
    rewrite <- (zlen_drop 1) in Heqb by lia;
    destruct (pairs_of_full _ x Heqb) as [? ?]; congruence.
Qed.

Lemma keeps_HSET hmset lower : keeps [] 4 (cmd_HSET hmset lower).
Proof.
  intros B tx o w argv HI HB Hn. unfold cmd_HSET. destruct (negb _) eqn:Eb; [wp_run|].
  apply negb_false_iff in Eb. rewrite <- (zlen_drop 2) in Eb by lia.
  wp_step. wp_step. wp_step. wp_step. wp_step. unfold HashOrCreate. wp_step; [wp_run|].
  wp_step. eapply wp_mono; [apply wp_hset_loop; intros p; by apply pairs_of_full|].
  intros r ? ->. wp_run.
Qed.

Lemma keeps_RANDOMKEY : keeps [] 1 cmd_RANDOMKEY.
Proof.
  keep; (assert (Hne : keys_of (table (w_db w) idx) <> []);
    [ unfold keys_of; intros E%fmap_nil_inv%map_to_list_empty_iff; by apply bool_decide_eq_false in Heqb |]);
    assert (Hz : Z.of_nat (size (table (w_db w) idx)) = zlen (keys_of (table (w_db w) idx)))
      by (by rewrite keys_of_length);
    rewrite Hz in *;
    destruct (drawn_position _ _ (rng32 (w_tick (next_tick w))) H0 Hne) as (k & Ek & Hk).
  - intros E. apply elem_of_keys in Hk as [? ?]. congruence.
  - intros E. congruence.
Qed.

Lemma keeps_RENAME : keeps [] 3 cmd_RENAME.
Proof.
  intros B tx o w argv HI HB Hn. unfold cmd_RENAME. do 8 wp_step; [wp_run|].
  wp_step; [wp_run|]. wp_step. wp_step. wp_step. destruct (inv_vals _ _ _ _ H2 _ _ _ H3) as [Hv Hx].
  eapply wp_mono; [eapply (wp_move_out [] B tx o idx a _ (fun _ => Inv B tx o)); [exact H5|exact H1|exact H3|done]|].
  intros ? w1 W1. wp_step. eapply wp_mono; [exact W1|]. cbv beta. intros ? w2 H2'. wp_step.
  eapply wp_set_key; [exact H2'|exact H1|done|done|]. intros w3 ? _. wp_run.
Qed.

(** *** Lists *)

Lemma keeps_CmdPop left : keeps [] 2 (fun a => CmdPop a left).
Proof.
  keep; intros E; exfalso; apply bool_decide_eq_false in Heqb.
  - destruct (pop_end_some left v Heqb) as (? & ? & ? & _). congruence.
  - destruct (pop_many_some left (Z.to_nat (Z.min z (zlen v))) v) as [? ?]; [unfold zlen; lia|congruence].
Qed.

Lemma keeps_LRANGE : keeps [] 4 cmd_LRANGE.
Proof. keep. by rewrite ListIndexRange_empty in Heqo2. Qed.

Lemma keeps_LINDEX : keeps [] 3 cmd_LINDEX.
Proof.
  keep. intros E. exfalso. apply orb_false_iff in Heqb as [? ?]. apply lookup_ge_None in E.
  unfold zlen in *. lia.
Qed.

(** Between the test for emptiness and the move the source list does not change. *)
Lemma wp_lmove_step B tx o idx (src dst : bytes) l from_left to_left w :
  Inv B tx o w -> (idx < kNumDatabases)%nat -> at_ (list bytes) idx src l (w_db w) -> l <> [] ->
  wp [UbDangling] (lmove_step idx src dst from_left to_left) (fun _ => Inv B tx o) w.
Proof.
  intros HI Hi A Hl. unfold lmove_step. apply wp_bind, wp_deref; [|done]. intros l' A'.
  rewrite (at_unique _ _ _ _ _ _ A' A). destruct (pop_end_some from_left l Hl) as (x & r & -> & _). wp_run.
Qed.

Lemma at_frame (T : Type) `{!Prism T} idx (k key : bytes) (v : T) db db' :
  k <> key -> (forall k, k <> key -> table db' idx !! k = table db idx !! k) ->
  at_ T idx k v db -> at_ T idx k v db'.
Proof. intros Hk Hf (e & He & Hp). exists e. split; [|done]. by rewrite Hf. Qed.

Lemma keeps_LMOVE : keeps [UbDangling] 5 CmdLMove.
Proof.
  intros B tx o w argv HI HB Hn. unfold CmdLMove. do 8 wp_step. cbv zeta.
  destruct (_ && _); [wp_run|]. destruct (_ && _); [wp_run|].
  wp_step. wp_step. wp_step. eapply wp_GetTyped_frame; [eassumption|done|].
  intros sst w1 H1' Hs _. destruct sst as [|l|]; [| |wp_run].
  all: wp_step; eapply wp_GetTyped_frame; [eassumption|done|]; intros dst_st w2 H2' Hd Hf.
  - destruct dst_st; wp_run.
  - destruct dst_st as [|d|]; [| |wp_run]; apply wp_bind, wp_bind; (apply wp_deref; [|done]); intros l2 A2;
      apply wp_ret; (case_bool_decide as Hl2; [wp_run|]); [|by eapply wp_lmove_step].
    apply wp_bind. unfold ListCreate. apply (wp_create_missing _ B tx o); [apply _|done|done|done|done|].
    intros w3 H3' A3 F3. apply wp_lmove_step with (l := l2); [done|done| |done].
    eapply at_frame; [|exact F3|exact A2]. intros ->. destruct A2 as (e & He & _). congruence.
Qed.

Lemma keeps_RPOPLPUSH : keeps [UbDangling] 3 cmd_RPOPLPUSH.
Proof.
  intros B tx o w argv HI HB Hn. unfold cmd_RPOPLPUSH. do 4 wp_step. apply keeps_LMOVE; [done|done|simpl; lia].
Qed.

(** *** Sets *)

Lemma keeps_SPOP : keeps [] 2 cmd_SPOP.
Proof.
  intros B tx o w argv HI HB Hn. unfold cmd_SPOP. do 6 wp_step; [wp_run|wp_run|].
  destruct (count_arg argv) as [count|]; [|wp_run]. destruct (_ && _); [wp_run|].
  case_bool_decide as Hv; [wp_run|]. destruct (count <? 0) eqn:Ec.
  - wp_step. eapply wp_mono; [by apply wp_pop_member|]. intros m w2 (Hw2 & _). wp_run.
  - destruct (count =? 0); [wp_run|]. wp_step.
    eapply wp_mono; [eapply wp_repeat_pop; [eassumption|done|exact H2|lia]|]. cbv beta. intros l w2 Hw2. wp_run.
Qed.

Lemma keeps_SRANDMEMBER : keeps [UbOverflow] 2 cmd_SRANDMEMBER.
Proof.
  intros B tx o w argv HI HB Hn. unfold cmd_SRANDMEMBER. do 6 wp_step.
  - destruct (count_arg argv); [|wp_run]. case_bool_decide; [wp_run|done].
  - wp_run.
  - destruct (count_arg argv) as [count|]; [|wp_run]. case_bool_decide as Hv; [wp_run|].
    destruct (zlen argv =? 2).
    + wp_step. eapply wp_mono; [by apply wp_random_member|]. intros m w2 [[Hw2 _] _]. wp_run.
    + destruct (0 <=? count); [wp_run|]. wp_step. wp_step. wp_step.
      eapply wp_mono; [by eapply wp_repeat_random|]. cbv beta. intros l w2 Hw2. wp_run.
Qed.

Lemma keeps_SMOVE : keeps [UbDangling] 4 cmd_SMOVE.
Proof.
  intros B tx o w argv HI HB Hn. unfold cmd_SMOVE. do 7 wp_step. eapply wp_GetTyped_frame; [eassumption|done|].
  intros sst w1 H1' _ _. destruct sst as [|s|]; [| |wp_run].
  all: wp_step; eapply wp_GetTyped_frame; [eassumption|done|]; intros dst_st w2 H2' Hd Hf.
  - destruct dst_st; wp_run.
  - destruct dst_st as [|d|]; [| |wp_run]; wp_step; wp_step; wp_step; wp_step; wp_step; wp_step;
      (destruct (negb _); [wp_run|]); (case_bool_decide as Ha; [wp_run|]); [|wp_run].
    apply wp_bind, wp_bind. unfold SetCreate.
    apply (wp_create_missing _ B tx o); [apply _|done|done|done|done|]. intros w3 H3' A3 F3. wp_run.
Qed.

Lemma wp_CmdSetOpStore us op B tx o w argv :
  Inv B tx o w -> (3 <= length argv)%nat ->
  (forall idx w', Inv B tx o w' -> (idx < kNumDatabases)%nat ->
     wp us (EvalSetOp idx argv 2 op) (fun _ => Inv B tx o) w') ->
  wp us (CmdSetOpStore argv op) (fun _ => Inv B tx o) w.
Proof.
  intros HI Hn He. unfold CmdSetOpStore. do 5 wp_step.
  eapply wp_mono; [by apply He|]. cbv beta. intros r w1 H1'.
  destruct r as [s|]; [|wp_run]. wp_step.
  eapply wp_set_key; [eassumption|done|done|done|]. intros w2 H2' E2. wp_step.
  eapply wp_lookup_frame; [eassumption|done|]. intros r w3 H3' _ _ _ Hkeep _. rewrite (Hkeep _ E2 eq_refl).
  apply wp_bind, wp_ret, wp_bind, wp_ret. wp_run.
Qed.

Lemma keeps_CmdSetOpStore op : keeps [UbDangling] 3 (fun a => CmdSetOpStore a op).
Proof. intros B tx o w argv HI HB Hn. apply wp_CmdSetOpStore; [done|done|]. intros. wp_run. Qed.

Lemma keeps_SINTERSTORE : keeps [] 3 (fun a => CmdSetOpStore a kInter).
Proof. intros B tx o w argv HI HB Hn. apply wp_CmdSetOpStore; [done|done|]. intros. by apply wp_EvalSetOp_inter. Qed.

Lemma keeps_SINTER : keeps [] 2 (fun a => CmdSetOp a kInter).
Proof.
  intros B tx o w argv HI HB Hn. unfold CmdSetOp. do 3 wp_step.
  eapply wp_mono; [by apply (wp_EvalSetOp_inter _ B tx o)|]. cbv beta. intros r w1 H1. wp_run.
Qed.

(** *** Sorted sets *)

Ltac zset_total :=
  match goal with
  | HI : Inv _ _ _ ?w, A : at_ ZSetValue _ _ _ (w_db ?w), HB : _ <= LLONG_MAX |- _ =>
      let R1 := fresh in let R2 := fresh in let R3 := fresh in let R4 := fresh in
      destruct (zset_reads _ _ (at_zset _ _ _ _ _ _ _ HI A) HB) as (R1 & R2 & R3 & R4);
      intros ?; exfalso; first [by eapply R1|by eapply R2|by eapply R3|idtac]
  end.

Lemma keeps_ZRANGE zrange : keeps [UbIndex] 3 (cmd_ZRANGE zrange).
Proof. keep. zset_total. Qed.

(** ZREVRANGE asks for one argument more. *)
Lemma keeps_ZREVRANGE : keeps [] 4 (cmd_ZRANGE false).
Proof. keep. zset_total. Qed.

Lemma keeps_ZRANGEBYSCORE : keeps [] 4 (cmd_ZRANGEBYSCORE false).
Proof. keep. zset_total. Qed.

Lemma keeps_ZRANK rev_ : keeps [] 3 (cmd_ZRANK rev_).
Proof. keep. zset_total. edestruct H7; [eassumption|]. by destruct rev_. Qed.

Lemma keeps_ZCOUNT : keeps [] 4 cmd_ZCOUNT.
Proof. keep. zset_total. Qed.

Lemma keeps_ZREM : keeps [] 3 cmd_ZREM.
Proof.
  intros B tx o w argv HI HB Hn. unfold cmd_ZREM. do 6 wp_step; [wp_run|wp_run|]. wp_step.
  eapply wp_mono.
  { apply (wp_fold_m [] _ _ (fun _ => has_zset B tx o idx a)); [split; [done|by eexists]|].
    intros c m w2 _ Hw2. by apply wp_zrem_member. }
  intros n w2 [Hw2 _]. wp_run.
Qed.

Lemma keeps_ZPOP min_mode : keeps [] 2 (cmd_ZPOP min_mode).
Proof.
  intros B tx o w argv HI HB Hn. unfold cmd_ZPOP. do 6 wp_step; [wp_run|wp_run|].
  wp_step; [|wp_run]. wp_step; [wp_run|]. wp_step; [wp_run|]. wp_step.
  eapply wp_mono; [apply (wp_zpop_loop _ B tx o); [done|split; [done|by eexists]]|].
  cbv beta. intros l w2 Hw2. wp_run.
Qed.

Lemma keeps_ZREMRANGEBYRANK : keeps [] 4 cmd_ZREMRANGEBYRANK.
Proof.
  intros B tx o w argv HI HB Hn. unfold cmd_ZREMRANGEBYRANK. do 6 wp_step; [wp_run|wp_run|].
  do 4 wp_step. destruct (ParseIntStrict a0) as [start|]; [|wp_run]. destruct (ParseIntStrict a1) as [stop|]; [|wp_run].
  destruct (at_zset _ _ _ _ _ _ _ H1 H2) as (ks & Hok & Hk). pose proof Hok as [W _].
  wp_step. rewrite (zi_range_by_rank _ _ _ _ _ W). apply wp_ret, wp_bind.
  eapply wp_mono; [eapply (wp_drop_victims _ B tx o); [exact H1|done|exact H2|exact Hok|done|]|].
  - unfold ref_slice. etrans; [apply sublist_take|apply sublist_drop].
  - cbv beta. intros ? w2 Hw2. wp_run.
Qed.

Lemma keeps_ZREMRANGEBYSCORE : keeps [] 4 cmd_ZREMRANGEBYSCORE.
Proof.
  intros B tx o w argv HI HB Hn. unfold cmd_ZREMRANGEBYSCORE. do 6 wp_step; [wp_run|wp_run|].
  do 4 wp_step. destruct (_ || _); [wp_run|].
  destruct (at_zset _ _ _ _ _ _ _ H1 H2) as (ks & Hok & Hk). pose proof Hok as [W _].
  wp_step. rewrite (zi_range_by_score _ _ _ false _ _ W); [|lia|done]. apply wp_ret, wp_bind.
  eapply wp_mono; [eapply (wp_drop_victims _ B tx o); [exact H1|done|exact H2|exact Hok|done|]|].
  - unfold ref_limit. simpl. apply filter_sublist.
  - cbv beta. intros ? w2 Hw2. wp_run.
Qed.

Lemma zadd_options_length args o : (length (zadd_options args o).2 <= length args)%nat.
Proof.
  revert o. induction args as [|a args IH]; intros o; simpl; [lia|].
  repeat (case_bool_decide; [etrans; [apply IH|lia]|]). simpl. lia.
Qed.

Lemma pairs_of_length l : zlen (pairs_of l) <= zlen l.
Proof.
  remember (length l) as n eqn:En. revert l En. induction (lt_wf n) as [n _ IH].
  intros [|a [|b l]] En; unfold zlen in *; simpl in *; [lia|lia|].
  specialize (IH (length l) ltac:(lia) l eq_refl). lia.
Qed.

Lemma safe_ZADD lower : safe [] 4 (cmd_ZADD lower).
Proof.
  intros B tx o w argv HI HB Hn. assert (0 <= zlen argv) by (unfold zlen; lia).
  assert (Up : forall w', Inv B tx o w' -> Inv (B + zlen argv) tx o w') by (intros w'; apply Inv_mono; lia).
  unfold cmd_ZADD. pose proof (zadd_options_length (drop 2 argv) (mkZadd false false false false)) as Hl.
  destruct (zadd_options _ _) as [opt rest]. cbn [snd] in Hl. rewrite length_drop in Hl.
  destruct (_ && _); [wp_run; by apply Up|]. destruct (_ && _); [wp_run; by apply Up|].
  destruct (_ || _) eqn:Eb; [wp_run; by apply Up|]. apply orb_false_iff in Eb as [_ Eb]. apply negb_false_iff in Eb.
  wp_step. wp_step. wp_step. wp_step. wp_step. unfold ZSetCreate. eapply wp_get_or_create;
    [apply _|eassumption|done|apply (value_ok_empty B tx o w HI)|intros w1 Hw1|intros z w1 Hw1 A1].
  { wp_run. by apply Up. }
  wp_step. eapply wp_mono.
  { apply (wp_zadd_loop _ B tx o); [split; [done|by eexists]| |done|intros p; by apply pairs_of_full].
    pose proof (pairs_of_length rest). unfold zlen in *. lia. }
  intros r w2 Hw2. cbv beta in Hw2.
  assert (Inv (B + zlen argv) tx o w2).
  { eapply Inv_mono; [|exact Hw2]. pose proof (pairs_of_length rest). unfold zlen in *. lia. }
  wp_run.
Qed.

Lemma safe_ZINCRBY : safe [] 4 cmd_ZINCRBY.
Proof.
  intros B tx o w argv HI HB Hn. assert (4 <= zlen argv) by (unfold zlen; lia).
  assert (Up : forall w', Inv B tx o w' -> Inv (B + zlen argv) tx o w') by (intros w'; apply Inv_mono; lia).
  unfold cmd_ZINCRBY. wp_step. wp_step. destruct (ParseDoubleStrict _) as [by_|]; [|wp_run; by apply Up].
  destruct (isnan by_); [wp_run; by apply Up|].
  wp_step. wp_step. wp_step. wp_step. wp_step. unfold ZSetCreate. eapply wp_get_or_create;
    [apply _|eassumption|done|apply (value_ok_empty B tx o w HI)|intros w1 Hw1|intros z w1 Hw1 A1].
  { wp_run. by apply Up. }
  wp_step. wp_step. destruct (_ || _) eqn:Er; [wp_run; by apply Up|]. apply orb_false_iff in Er as [Er _].
  wp_step. eapply wp_mono; [apply (wp_zset_put _ B tx o); [done|lia|done|exact A1|exact Er]|].
  intros ? w2 [Hw2 _]. assert (Inv (B + zlen argv) tx o w2) by (eapply Inv_mono; [|exact Hw2]; lia). wp_run.
Qed.

(** *** The whole table *)

Ltac known_handler :=
  first
  [ exact (safe_ZADD _) | exact safe_ZINCRBY
  | apply keeps_safe; first
    [ exact keeps_SELECT | exact keeps_INFO | apply keeps_MSET | apply keeps_HSET | exact keeps_RANDOMKEY | exact keeps_RENAME
    | apply keeps_CmdPop | exact keeps_LRANGE | exact keeps_LINDEX | exact keeps_LMOVE | exact keeps_RPOPLPUSH
    | exact keeps_SPOP | exact keeps_SRANDMEMBER | exact keeps_SMOVE | exact keeps_SINTER | exact keeps_SINTERSTORE | apply keeps_CmdSetOpStore
    | exact keeps_ZREVRANGE | apply keeps_ZRANGE | exact keeps_ZRANGEBYSCORE | apply keeps_ZRANK
    | exact keeps_ZCOUNT | exact keeps_ZREM | apply keeps_ZPOP | exact keeps_ZREMRANGEBYRANK
    | exact keeps_ZREMRANGEBYSCORE ] ].

Lemma table_safe lower :
  Forall (fun x => safe (faults (lit x.1)) (min_args (lit x.1)) x.2) (plain_handlers opts lower).
Proof.
  unfold plain_handlers.
  repeat (apply Forall_cons; split; [cbn [fst snd];
    match goal with
    | |- safe (faults ?n) (min_args ?n) _ =>
        let us := eval vm_compute in (faults n) in
        let k := eval vm_compute in (min_args n) in
        change (faults n) with us; change (min_args n) with k
    end; first [known_handler|apply keeps_safe; solve [keep]]|]).
  constructor.
Qed.
End handlers.
