(* ===== verification/DispatchProofs.v ===== *)
(** * Dispatch: safety and transactions

    The invariant of the server is kept by every command and every transaction,
    the recursion of EXEC stops after one level, and undefined behaviour is
    confined to the commands of [fault_table]. *)

From S2P Require Import Prelude Bytes Resp Double SkipList SkipListInv SkipListRefine Db DbProofs Rdb RdbFile.
From S2P Require Import FloatText Exec ExecLogic StringCmds KeyCmds HashCmds ListCmds SetCmds ZsetCmds.
From S2P Require Import ServerCmds Dispatch CommandSafety HandlerSafety.
Local Open Scope Z_scope.

(** ** The invariant between commands *)

(** A queued command exists, has its arity, and does not concern transactions. *)
Definition queued_ok (argv : list bytes) : Prop :=
  match argv with
  | [] => False
  | a0 :: _ => CommandExists (ToUpper a0) = true /\ ArityOk (ToUpper a0) (zlen argv) = true /\
               bypasses_queue (ToUpper a0) = false
  end.

(** [o] is what had been replied so far. *)
Definition server_ok (B : Z) (o : bytes) (w : World) : Prop :=
  Inv B (tx_of (w_cs w)) o w /\ Forall queued_ok (multi_queue (w_cs w)).

Definition command_faults (argv : list bytes) : list Ub :=
  match argv with [] => [] | a0 :: _ => faults (ToUpper a0) end.

(** The arguments of a command and of those it may run. *)
Definition work (argv : list bytes) (w : World) : Z :=
  zlen argv + foldr (fun c n => zlen c + n) 0 (multi_queue (w_cs w)).

(** ** The table *)

Lemma assoc_app {A} k (l1 l2 : list (bytes * A)) :
  assoc k (l1 ++ l2) = match assoc k l1 with Some v => Some v | None => assoc k l2 end.
Proof. induction l1 as [|[k' v] l1 IH]; simpl; [done|]. by case_bool_decide. Qed.

Lemma assoc_Some {A} k (l : list (bytes * A)) v : assoc k l = Some v -> (k, v) ∈ l.
Proof.
  induction l as [|[k' v'] l IH]; simpl; [done|]. case_bool_decide as Hk; [|intros; right; auto].
  intros E. injection E as ->. subst. left.
Qed.

Lemma assoc_is_Some {A} k (l : list (bytes * A)) : is_Some (assoc k l) <-> k ∈ l.*1.
Proof.
  induction l as [|[k' v] l IH]; simpl.
  - split; [by intros []|by intros ?%not_elem_of_nil].
  - rewrite elem_of_cons. case_bool_decide as Hk; [subst; by split; eauto|]. rewrite IH. naive_solver.
Qed.

Lemma ArityOk_min upper argc : ArityOk upper argc = true -> (min_args upper <= Z.to_nat argc)%nat.
Proof. unfold ArityOk, min_args. destruct (assoc upper ArityTable) as [[mn mx]|]; [|done]. lia. Qed.

Section dispatch.
Context `{O : Oracle} `{!OracleLaws O} (opts : ServerOptions).
Hypothesis Hdbs : num_databases opts <= Z.of_nat kNumDatabases.
Implicit Types (rec : list bytes -> M unit) (w : World).

Lemma handlers_cases rec lower upper h :
  assoc upper (handlers opts rec lower) = Some h ->
  (exists n, upper = lit n /\ (n, h) ∈ plain_handlers opts lower) \/
  (upper = lit "QUIT" /\ h = cmd_QUIT) \/ (upper = lit "MULTI" /\ h = cmd_MULTI) \/
  (upper = lit "EXEC" /\ h = cmd_EXEC rec) \/ (upper = lit "DISCARD" /\ h = cmd_DISCARD).
Proof.
  unfold handlers. rewrite map_app, assoc_app.
  destruct (assoc upper (map _ (plain_handlers opts lower))) as [h'|] eqn:E.
  - intros E'. injection E' as ->. left. apply assoc_Some in E.
    apply list_elem_of_fmap in E as ([n h'] & E & Hin). injection E as -> ->. eauto.
  - intros E'%assoc_Some. cbn [map fst snd] in E'. rewrite !elem_of_cons, elem_of_nil in E'. naive_solver.
Qed.

Lemma handlers_split rec lower upper h :
  assoc upper (handlers opts rec lower) = Some h ->
  safe (faults upper) (min_args upper) h \/
  (upper = lit "QUIT" /\ h = cmd_QUIT) \/ (upper = lit "MULTI" /\ h = cmd_MULTI) \/
  (upper = lit "EXEC" /\ h = cmd_EXEC rec) \/ (upper = lit "DISCARD" /\ h = cmd_DISCARD).
Proof.
  intros [(n & -> & Hin)|H]%handlers_cases; [left|by right].
  pose proof (table_safe opts Hdbs lower) as Ht. rewrite Forall_forall in Ht. by apply (Ht (n, h)).
Qed.

(** A command that is not queued or refused reaches its branch. *)
Lemma dispatch_to rec a0 rest h w :
  in_multi (w_cs w) && negb (bypasses_queue (ToUpper a0)) = false ->
  ArityOk (ToUpper a0) (zlen (a0 :: rest)) = true -> maxmemory_blocks opts (ToUpper a0) (w_db w) = false ->
  assoc (ToUpper a0) (handlers opts rec (ToLower a0)) = Some h ->
  dispatch_body opts rec (a0 :: rest) w = h (a0 :: rest) w.
Proof.
  intros H1 H2 H3 H4. unfold dispatch_body. unfold mbind at 1, M_bind at 1, gets at 1. rewrite H1.
  assert (CommandExists (ToUpper a0) = true) as ->.
  { unfold ArityOk in H2. unfold CommandExists. by destruct (assoc _ ArityTable). }
  rewrite H2. cbn [negb]. unfold mbind at 1, M_bind at 1, gets at 1. by rewrite H3, H4.
Qed.

(** ** One command *)

Lemma server_ok_mono B B' o w : B <= B' -> server_ok B o w -> server_ok B' o w.
Proof. intros HB [HI Hq]. split; [by eapply Inv_mono|done]. Qed.

Lemma wp_safe us n h argv B o w :
  safe us n h -> server_ok B o w -> B + zlen argv <= LLONG_MAX -> (n <= length argv)%nat ->
  wp us (h argv) (fun _ => server_ok (B + zlen argv) o) w.
Proof.
  intros Hs [HI Hq] HB Hn. eapply wp_mono; [by apply Hs|]. cbv beta. intros ? w' HI'.
  pose proof (inv_tx _ _ _ _ HI') as Ht. split; [by rewrite Ht|].
  injection Ht as _ _ ->. done.
Qed.

Lemma wp_error_reply us s B o w : server_ok B o w -> wp us (reply_error s) (fun _ => server_ok B o) w.
Proof. intros [HI Hq]. unfold reply_error. wp_run. by split. Qed.

Lemma wp_simple_reply us s B o w : server_ok B o w -> wp us (reply_simple s) (fun _ => server_ok B o) w.
Proof. intros [HI Hq]. unfold reply_simple. wp_run. by split. Qed.

(** A change of the client that keeps the database index and the queue well
    formed. *)
Lemma wp_update_client us f B o w :
  server_ok B o w -> db_index (f (w_cs w)) = db_index (w_cs w) -> Forall queued_ok (multi_queue (f (w_cs w))) ->
  wp us (update_client f) (fun _ => server_ok B o) w.
Proof.
  intros [[] Hq] Hi Hq'. split; [|done]. split; try done. cbn. by rewrite Hi.
Qed.

Lemma wp_unknown us a0 rest B o w :
  server_ok B o w -> wp us (ErrUnknownCommand (a0 :: rest)) (fun _ => server_ok B o) w.
Proof.
  intros H. unfold ErrUnknownCommand. apply wp_bind, wp_ret. destruct (1 <? _) eqn:E; [|by apply wp_error_reply].
  destruct rest as [|a1 rest]; [done|]. apply wp_bind, wp_ret. by apply wp_error_reply.
Qed.

Lemma wp_enqueue us a0 rest B o w :
  server_ok B o w -> bypasses_queue (ToUpper a0) = false ->
  wp us (enqueue (ToUpper a0) (ToLower a0) (a0 :: rest)) (fun _ => server_ok B o) w.
Proof.
  intros H Hb. pose proof H as [_ Hq]. unfold enqueue.
  assert (Mark : forall w', server_ok B o w' ->
    wp us (update_client (fun c => set_multi (in_multi c) true (multi_queue c) c)) (fun _ => server_ok B o) w').
  { intros w' H'. apply wp_update_client; [done|done|apply H']. }
  destruct (CommandExists _) eqn:E1; cbn [negb]; [destruct (ArityOk _ _) eqn:E2; cbn [negb]|]; apply wp_bind.
  - eapply wp_mono; [by apply wp_simple_reply|]. cbv beta. intros ? w' H'.
    apply wp_update_client; [done|done|]. apply Forall_app. split; [apply H'|by repeat constructor].
  - eapply wp_mono; [by apply wp_error_reply|]. intros ? w' H'. by apply Mark.
  - eapply wp_mono; [by apply wp_unknown|]. intros ? w' H'. by apply Mark.
Qed.

Definition is_exec (argv : list bytes) : bool :=
  match argv with [] => false | a0 :: _ => is_ (ToUpper a0) "EXEC" end.

(** Every command but EXEC, whatever the recursive call would do. *)
Lemma wp_dispatch_body rec argv B o w :
  server_ok B o w -> B + zlen argv <= LLONG_MAX -> is_exec argv = false ->
  wp (command_faults argv) (dispatch_body opts rec argv) (fun _ => server_ok (B + zlen argv) o) w.
Proof.
  intros H HB Hx. assert (0 <= zlen argv) by (unfold zlen; lia).
  assert (Up : forall (us : list Ub) (m : M unit), wp us m (fun _ => server_ok B o) w ->
    wp us m (fun _ => server_ok (B + zlen argv) o) w).
  { intros us m Hm. eapply wp_mono; [exact Hm|]. intros ? w'. apply server_ok_mono. lia. }
  destruct argv as [|a0 rest]; [by apply Up|]. unfold dispatch_body. cbn [command_faults is_exec] in *.
  apply wp_bind, wp_gets. destruct (in_multi (w_cs w) && _) eqn:Em.
  { apply Up, wp_enqueue; [done|]. by apply andb_true_iff in Em as [_ ?%negb_true_iff]. }
  destruct (CommandExists _) eqn:E1; cbn [negb]; [|by apply Up, wp_unknown].
  destruct (ArityOk _ _) eqn:E2; cbn [negb]; [|by apply Up, wp_error_reply].
  apply wp_bind, wp_gets. destruct (maxmemory_blocks _ _ _); [by apply Up, wp_error_reply|].
  destruct (assoc _ _) as [h|] eqn:Eh; [|by apply Up, wp_unknown].
  apply handlers_split in Eh as [Hs|[[Hn ->]|[[Hn ->]|[[Hn ->]|[Hn ->]]]]].
  - eapply wp_safe; [done|done|done|]. apply ArityOk_min in E2. unfold zlen in E2. lia.
  - apply Up. unfold cmd_QUIT. apply wp_bind. eapply wp_mono; [apply wp_update_client; [done|done|apply H]|].
    intros ? w' H'. by apply wp_simple_reply.
  - apply Up. unfold cmd_MULTI. apply wp_bind, wp_gets. destruct (in_multi _); [by apply wp_error_reply|].
    apply wp_bind. eapply wp_mono; [apply wp_update_client; [done|done|constructor]|].
    intros ? w' H'. by apply wp_simple_reply.
  - by rewrite Hn in Hx.
  - apply Up. unfold cmd_DISCARD. apply wp_bind, wp_gets. destruct (in_multi _); [|by apply wp_error_reply].
    apply wp_bind. eapply wp_mono; [apply wp_update_client; [done|done|constructor]|].
    intros ? w' H'. by apply wp_simple_reply.
Qed.

(** ** Transactions *)

Lemma queued_not_exec c : queued_ok c -> is_exec c = false.
Proof.
  destruct c as [|a0 c]; [done|]. intros (_ & _ & Hb). unfold bypasses_queue in Hb. cbn [is_exec].
  apply orb_false_iff in Hb as [Hb _]. apply orb_false_iff in Hb as [Hb _].
  by apply orb_false_iff in Hb as [_ Hb].
Qed.

(** What a run may end in: the invariant, or the fault of a command among [cs]. *)
Definition ends_ok (cs : list (list bytes)) (B : Z) (o : bytes) (r : Outcome unit) : Prop :=
  match r with
  | Done _ w' => server_ok B o w'
  | Undef u => exists c, c ∈ cs /\ ub_in u (command_faults c) = true
  end.

Lemma run_queue n q B o w :
  Forall queued_ok q -> server_ok B o w -> B + foldr (fun c k => zlen c + k) 0 q <= LLONG_MAX ->
  ends_ok q (B + foldr (fun c k => zlen c + k) 0 q) o (for_each (Dispatch opts (S n)) q w).
Proof.
  intros Hq. revert B w. induction Hq as [|c q Hc Hq IH]; intros B w H HB; cbn [foldr for_each] in *.
  { cbn. by rewrite Z.add_0_r. }
  assert (0 <= foldr (fun c k => zlen c + k) 0 q).
  { clear. induction q; simpl; [lia|unfold zlen at 1; lia]. }
  assert (0 <= zlen c) by (unfold zlen; lia).
  pose proof (wp_dispatch_body (Dispatch opts n) c B o w H ltac:(lia) (queued_not_exec c Hc)) as W.
  cbn [Dispatch]. unfold mbind, M_bind. unfold wp in W.
  destruct (dispatch_body opts (Dispatch opts n) c w) as [[] w1|u]; [|exists c; split; [left|done]].
  specialize (IH (B + zlen c) w1 W ltac:(lia)). rewrite Z.add_assoc. cbn [Dispatch] in IH.
  destruct (for_each _ q w1) as [? w2|u]; [done|].
  destruct IH as (c' & Hin & Hu). exists c'. split; [by right|done].
Qed.

Lemma exec_handler rec lower : assoc (lit "EXEC") (handlers opts rec lower) = Some (cmd_EXEC rec).
Proof. reflexivity. Qed.

Lemma exec_ok n argv B o w :
  server_ok B o w -> B + work argv w <= LLONG_MAX -> is_exec argv = true ->
  ends_ok (multi_queue (w_cs w)) (B + work argv w) o (dispatch_body opts (Dispatch opts (S n)) argv w).
Proof.
  intros H HB Hx. destruct argv as [|a0 rest]; [done|]. cbn [is_exec] in Hx. apply bool_decide_eq_true in Hx.
  assert (Hsum : 0 <= foldr (fun c k => zlen c + k) 0 (multi_queue (w_cs w))).
  { induction (multi_queue (w_cs w)); simpl; [lia|unfold zlen at 1; lia]. }
  assert (0 <= zlen (a0 :: rest)) by (unfold zlen; lia).
  assert (Up : forall m : M unit, wp [] m (fun _ => server_ok B o) w ->
    ends_ok (multi_queue (w_cs w)) (B + work (a0 :: rest) w) o (m w)).
  { intros m. unfold wp, ends_ok. destruct (m w); [|done]. apply server_ok_mono. unfold work. lia. }
  unfold dispatch_body. rewrite Hx. unfold mbind at 1, M_bind at 1, gets at 1.
  replace (in_multi (w_cs w) && negb (bypasses_queue (lit "EXEC"))) with false by (by destruct (in_multi _)).
  destruct (CommandExists _); cbn [negb]; [|by apply Up, wp_unknown].
  destruct (ArityOk _ _); cbn [negb]; [|by apply Up, wp_error_reply].
  unfold mbind at 1, M_bind at 1, gets at 1.
  destruct (maxmemory_blocks _ _ _); [by apply Up, wp_error_reply|].
  rewrite exec_handler. unfold cmd_EXEC. unfold mbind at 1, M_bind at 1, gets at 1.
  destruct (in_multi (w_cs w)); cbn [negb]; [|by apply Up, wp_error_reply].
  destruct (multi_error (w_cs w)).
  { apply (Up (update_client _ ≫= _)). apply wp_bind.
    eapply wp_mono; [apply wp_update_client; [done|done|constructor]|]. intros ? w' H'. by apply wp_error_reply. }
  unfold mbind at 1, M_bind at 1, update_client at 1, modify at 1. cbv beta iota.
  unfold mbind at 1, M_bind at 1, reply_array at 1, reply at 1, modify at 1. cbv beta iota.
  destruct H as [HI Hq]. set (w1 := with_out _ _).
  assert (H1 : server_ok B o w1).
  { split; [|constructor]. destruct HI. split; try done. cbn. etrans; [done|]. apply appends_array. }
  pose proof (run_queue n _ B o w1 Hq H1) as R. unfold work in *.
  specialize (R ltac:(lia)). unfold ends_ok in *. destruct (for_each _ _ w1); [|done].
  eapply server_ok_mono; [|exact R]. lia.
Qed.

(** ** The recursion *)

Lemma handlers_rec rec rec' lower upper :
  bool_decide (upper = lit "EXEC") = false ->
  assoc upper (handlers opts rec lower) = assoc upper (handlers opts rec' lower).
Proof.
  intros Hx. unfold handlers. rewrite !map_app, !assoc_app. destruct (assoc upper (map _ _)); [done|].
  cbn [map fst snd assoc]. by rewrite Hx.
Qed.

Lemma dispatch_body_rec rec rec' argv w :
  is_exec argv = false -> dispatch_body opts rec argv w = dispatch_body opts rec' argv w.
Proof.
  intros Hx. destruct argv as [|a0 rest]; [done|]. unfold dispatch_body.
  by rewrite (handlers_rec rec rec' _ _ Hx).
Qed.

Lemma for_each_ext {A} (f g : A -> M unit) l w :
  (forall x w', x ∈ l -> f x w' = g x w') -> for_each f l w = for_each g l w.
Proof.
  revert w. induction l as [|x l IH]; intros w Hfg; [done|]. simpl. unfold mbind, M_bind.
  rewrite (Hfg x w); [|by left]. destruct (g x w); [|done]. apply IH. intros y w' Hy. apply Hfg. by right.
Qed.

Lemma dispatch_body_ext rec rec' argv w :
  (forall c w', c ∈ multi_queue (w_cs w) -> rec c w' = rec' c w') ->
  dispatch_body opts rec argv w = dispatch_body opts rec' argv w.
Proof.
  intros Hrec. destruct (is_exec argv) eqn:Hx; [|by apply dispatch_body_rec].
  destruct argv as [|a0 rest]; [done|]. unfold dispatch_body. cbn [is_exec] in Hx.
  apply bool_decide_eq_true in Hx. rewrite Hx, !exec_handler.
  unfold mbind, M_bind, gets. repeat (case_match; try done).
  unfold cmd_EXEC, mbind, M_bind, gets. repeat (case_match; try done).
  by apply for_each_ext.
Qed.

(** ** Theorems *)


(** C21: The recursion of [Dispatch] through EXEC is one level deep: with a queue
    of commands that the queueing path accepted, two levels of calls give the
    same outcome as any larger number, so the fuel never decides the result. *)
Theorem dispatch_two_levels n argv w :
  Forall queued_ok (multi_queue (w_cs w)) -> Dispatch opts (2 + n) argv w = Dispatch opts 2 argv w.
Proof.
  intros Hq. cbn [Dispatch Nat.add]. apply dispatch_body_ext. intros c w' Hc.
  rewrite Forall_forall in Hq. by apply dispatch_body_rec, queued_not_exec, Hq.
Qed.
End dispatch.

(** C32: The table of arities and the chain of branches name the same commands,
    each once: a command that passes the existence check always reaches a
    branch of its own, so the last branch of [Dispatch] is dead code. *)
Theorem every_command_has_a_branch `{O : Oracle} opts rec lower :
  ArityTable.*1 ≡ₚ (handlers opts rec lower).*1 /\ NoDup (ArityTable.*1) /\
  forall upper, CommandExists upper = true <-> is_Some (assoc upper (handlers opts rec lower)).
Proof.
  assert (Hn : NoDup (ArityTable.*1)) by (apply (bool_decide_unpack _); by vm_compute).
  set (names := map lit (map fst (plain_handlers opts lower) ++ ["QUIT"; "MULTI"; "EXEC"; "DISCARD"]%string)).
  assert (Hk : (handlers opts rec lower).*1 = names).
  { reflexivity. }
  assert (Hp : ArityTable.*1 ≡ₚ names).
  { apply NoDup_Permutation; [done|apply (bool_decide_unpack _); by vm_compute|].
    assert (Forall (fun k => k ∈ names) (ArityTable.*1)) as H1 by (apply (bool_decide_unpack _); by vm_compute).
    assert (Forall (fun k => k ∈ ArityTable.*1) names) as H2 by (apply (bool_decide_unpack _); by vm_compute).
    rewrite Forall_forall in H1, H2. split; auto. }
  split_and!; [by rewrite Hk|done|]. intros upper. unfold CommandExists.
  rewrite (assoc_is_Some upper (handlers opts rec lower)), Hk, <- Hp, <- assoc_is_Some.
  destruct (assoc upper ArityTable); [by split; eauto|]. split; [done|by intros []].
Qed.
