(* ===== verification/CommandFrame.v ===== *)
(** * What commands leave alone

    A relation between the world before and after a command that the event loop
    relies on: the client keeps its identity, the counters of the server are
    not touched, and a request to quit or to shut down is never withdrawn. *)

From S2P Require Import Prelude Bytes Resp Double SkipList Db Rdb RdbFile FloatText Exec ExecLogic.
From S2P Require Import StringCmds KeyCmds HashCmds ListCmds SetCmds ZsetCmds ServerCmds Dispatch.
From S2P Require Import CommandSafety HandlerSafety DispatchProofs.
Local Open Scope Z_scope.

(** [q] tells whether the client may ask to quit in between. *)
Record keeps_server (q : bool) (w w' : World) : Prop := {
  ks_id : id (w_cs w') = id (w_cs w);
  ks_commands : total_commands (w_stats w') = total_commands (w_stats w);
  ks_connections : total_connections (w_stats w') = total_connections (w_stats w);
  ks_clients : connected_clients (w_stats w') = connected_clients (w_stats w);
  ks_quit : quit_requested (w_cs w') = quit_requested (w_cs w) \/ (q = true /\ quit_requested (w_cs w') = true);
  ks_shutdown : shutdown_requested (w_stats w) = true -> shutdown_requested (w_stats w') = true
}.

#[export] Instance keeps_server_refl q : Reflexive (keeps_server q).
Proof. split; auto. Qed.
#[export] Instance keeps_server_trans q : Transitive (keeps_server q).
Proof.
  intros w1 w2 w3 [] []. split; try congruence; auto.
  destruct ks_quit0 as [E0|[? E0]], ks_quit1 as [E1|[? E1]]; [left; congruence|right; auto..]. split; congruence.
Qed.

Lemma keeps_server_weaken w w' : keeps_server false w w' -> keeps_server true w w'.
Proof. intros []. split; try done. left. by destruct ks_quit0 as [?|[? ?]]. Qed.

(** The computation ends in a related world if it ends. *)
Definition polite {A} (q : bool) (m : M A) : Prop :=
  forall w, match m w with Done _ w' => keeps_server q w w' | Undef _ => True end.

Section polite.
Context (q : bool).

Lemma polite_ret {A} (a : A) : polite q (mret a).
Proof. intros w. cbn. reflexivity. Qed.
Lemma polite_undef {A} u : polite q (undef (A := A) u).
Proof. by intros w. Qed.
Lemma polite_bind {A C} (m : M A) (f : A -> M C) : polite q m -> (forall a, polite q (f a)) -> polite q (m ≫= f).
Proof.
  intros Hm Hf w. unfold mbind, M_bind. specialize (Hm w). destruct (m w) as [a w'|]; [|done].
  specialize (Hf a w'). destruct (f a w'); [|done]. by etrans.
Qed.
Lemma polite_gets {A} (f : World -> A) : polite q (gets f).
Proof. intros w. cbn. reflexivity. Qed.
Lemma polite_modify f : (forall w, keeps_server q w (f w)) -> polite q (modify f).
Proof. intros Hf w. apply Hf. Qed.
Lemma polite_tick : polite q tick.
Proof. intros w. split; auto. Qed.
Lemma polite_for_each {A} (f : A -> M unit) l : (forall x, polite q (f x)) -> polite q (for_each f l).
Proof. intros Hf. induction l; simpl; [by apply polite_ret|]. by apply polite_bind. Qed.
Lemma polite_for_each_in {A} (f : A -> M unit) l : Forall (fun x => polite q (f x)) l -> polite q (for_each f l).
Proof. intros Hf. induction Hf; simpl; [by apply polite_ret|]. by apply polite_bind. Qed.
Lemma polite_fold_m {A C} (f : C -> A -> M C) l c : (forall c x, polite q (f c x)) -> polite q (fold_m f c l).
Proof. intros Hf. revert c. induction l; intros c; simpl; [by apply polite_ret|]. by apply polite_bind. Qed.

End polite.

Create HintDb polite.

Ltac po_step :=
  lazymatch goal with
  | |- polite _ (mbind _ _) => apply polite_bind; [|intros ?]
  | |- polite _ (mret _) => apply polite_ret
  | |- polite _ (undef _) => apply polite_undef
  | |- polite _ (gets _) => apply polite_gets
  | |- polite _ (modify _) => apply polite_modify; intros ?; split; solve [auto]
  | |- polite _ tick => apply polite_tick
  | |- polite _ (for_each _ _) => apply polite_for_each; intros ?
  | |- polite _ (fold_m _ _ _) => apply polite_fold_m; intros ? ?
  | |- polite _ (match ?x with _ => _ end) => destruct x
  | |- polite _ ?m => first [solve [eauto with polite] | let h := head_of m in progress unfold h]
  end; cbv beta zeta.
Ltac po := repeat po_step.

Section helpers.
Context `{O : Oracle} (q : bool).

Lemma polite_any_exists idx keys : polite q (any_exists idx keys).
Proof. induction keys; simpl; po. Qed.
Lemma polite_scan_loop pattern count t order acc : polite q (scan_loop pattern count t order acc).
Proof. revert acc. induction order; intros acc; simpl; po. Qed.
Lemma polite_collect_sets idx op keys found : polite q (collect_sets idx op keys found).
Proof. revert found. induction keys; intros found; simpl; po. Qed.
Lemma polite_repeat_m n f : polite q f -> polite q (repeat_m n f).
Proof. intros Hf. induction n; simpl; po. Qed.
Lemma polite_zadd_loop idx key o ps added changed : polite q (zadd_loop idx key o ps added changed).
Proof. revert added changed. induction ps as [|[a mo] ps IH]; intros added changed; simpl; po. Qed.
Lemma polite_zpop_loop idx key min_mode n flat : polite q (zpop_loop idx key min_mode n flat).
Proof. revert flat. induction n; intros flat; simpl; po. Qed.
End helpers.
#[export] Hint Resolve polite_any_exists polite_scan_loop polite_collect_sets polite_zadd_loop polite_zpop_loop
  : polite.
#[export] Hint Extern 2 (polite _ (repeat_m _ _)) => apply polite_repeat_m; po : polite.

Section dispatch.
Context `{O : Oracle} (opts : ServerOptions).

Lemma plain_polite lower argv : Forall (fun x => polite false (x.2 argv)) (plain_handlers opts lower).
Proof.
  unfold plain_handlers. repeat (apply Forall_cons; split; [cbn [snd]; solve [po]|]). constructor.
Qed.

Lemma polite_weaken {A} (m : M A) : polite false m -> polite true m.
Proof. intros Hm w. specialize (Hm w). destruct (m w); [|done]. by apply keeps_server_weaken. Qed.

Lemma handlers_polite rec lower upper h argv :
  (forall c, polite true (rec c)) -> assoc upper (handlers opts rec lower) = Some h -> polite true (h argv).
Proof.
  intros Hr [(n & -> & Hin)|H]%handlers_cases.
  - pose proof (plain_polite lower argv) as Hp. rewrite Forall_forall in Hp. by apply polite_weaken, (Hp (n, h)).
  - destruct H as [[_ ->]|[[_ ->]|[[_ ->]|[_ ->]]]]; po.
Qed.

Lemma Dispatch_polite fuel argv : polite true (Dispatch opts fuel argv).
Proof.
  revert argv. induction fuel as [|fuel IH]; intros argv; cbn [Dispatch]; [po|].
  unfold dispatch_body. destruct argv as [|a0 rest]; [po|]. cbv zeta.
  apply polite_bind; [po|intros cs]. destruct (_ && _); [po|]. do 2 (destruct (negb _); [po|]).
  apply polite_bind; [po|intros db]. destruct (maxmemory_blocks _ _ _); [po|].
  destruct (assoc _ _) as [h|] eqn:E; [|po]. by eapply handlers_polite.
Qed.
(** Only QUIT asks to quit. *)
Definition not_quit (argv : list bytes) : Prop :=
  match argv with [] => True | a0 :: _ => ToUpper a0 <> lit "QUIT" end.

Lemma queued_not_quit c : queued_ok c -> not_quit c.
Proof.
  destruct c as [|a0 c]; [done|]. intros (_ & _ & Hb) E. cbn [not_quit]. unfold bypasses_queue in Hb.
  rewrite E in Hb. by vm_compute in Hb.
Qed.

Lemma quiet_body rec argv : not_quit argv -> is_exec argv = false -> polite false (dispatch_body opts rec argv).
Proof.
  intros Hq Hx. unfold dispatch_body. destruct argv as [|a0 rest]; [po|]. cbv zeta. cbn [is_exec not_quit] in *.
  apply polite_bind; [po|intros cs]. destruct (_ && _); [po|]. do 2 (destruct (negb _); [po|]).
  apply polite_bind; [po|intros db]. destruct (maxmemory_blocks _ _ _); [po|].
  destruct (assoc _ _) as [h|] eqn:E; [|po]. apply handlers_cases in E as [(n & E & Hin)|H].
  - pose proof (plain_polite (ToLower a0) (a0 :: rest)) as Hp. rewrite Forall_forall in Hp. by apply (Hp (n, h)).
  - destruct H as [[E ->]|[[E ->]|[[E ->]|[E ->]]]]; [done|po| |po]. by rewrite E in Hx.
Qed.

(** The same at one world, where what the computation reads first is known. *)
Definition quiet_at {A} (m : M A) (w : World) : Prop :=
  match m w with Done _ w' => keeps_server false w w' | Undef _ => True end.

Lemma quiet_at_polite {A} (m : M A) w : polite false m -> quiet_at m w.
Proof. intros Hm. apply Hm. Qed.
Lemma quiet_at_gets {A C} (f : World -> A) (k : A -> M C) w : quiet_at (k (f w)) w -> quiet_at (gets f ≫= k) w.
Proof. done. Qed.

Lemma quiet_exec argv w :
  is_exec argv = true -> Forall queued_ok (multi_queue (w_cs w)) ->
  quiet_at (dispatch_body opts (Dispatch opts 1) argv) w.
Proof.
  intros Hx Hq. destruct argv as [|a0 rest]; [done|]. cbn [is_exec] in Hx. apply bool_decide_eq_true in Hx.
  unfold dispatch_body. rewrite Hx. apply quiet_at_gets.
  destruct (_ && _); [apply quiet_at_polite; po|]. do 2 (destruct (negb _); [apply quiet_at_polite; po|]).
  apply quiet_at_gets. destruct (maxmemory_blocks _ _ _); [apply quiet_at_polite; po|].
  rewrite exec_handler. unfold cmd_EXEC. apply quiet_at_gets.
  destruct (negb _); [apply quiet_at_polite; po|]. destruct (multi_error _); apply quiet_at_polite; [po|].
  apply polite_bind; [po|intros ?]. apply polite_bind; [po|intros ?]. apply polite_for_each_in.
  eapply Forall_impl; [exact Hq|]. intros c Hc.
  change (Dispatch opts 1 c) with (dispatch_body opts (Dispatch opts 0) c). apply quiet_body.
  - by apply queued_not_quit.
  - by apply queued_not_exec.
Qed.

Lemma Dispatch_quiet argv w :
  not_quit argv -> Forall queued_ok (multi_queue (w_cs w)) ->
  match Dispatch opts 2 argv w with Done _ w' => keeps_server false w w' | Undef _ => True end.
Proof.
  intros Hn Hq. change (Dispatch opts 2 argv w) with (dispatch_body opts (Dispatch opts 1) argv w).
  destruct (is_exec argv) eqn:Hx; [by apply quiet_exec|].
  by apply (quiet_body (Dispatch opts 1)).
Qed.
End dispatch.
