(* ===== verification/DispatchBudget.v ===== *)
(** * How fast the key spaces can grow

    [dispatch_keeps_server] bounds the sorted sets after one command.  The event
    loop runs many commands for many clients, so the bound is restated here as a
    budget that also counts the arguments a client has queued: a command line
    raises it by the number of its own arguments only, EXEC included. *)

From S2P Require Import Prelude Bytes Resp Double SkipList SkipListInv SkipListRefine Db DbProofs Rdb RdbFile.
From S2P Require Import FloatText Exec ExecLogic StringCmds KeyCmds HashCmds ListCmds SetCmds ZsetCmds.
From S2P Require Import ServerCmds Dispatch CommandSafety HandlerSafety DispatchProofs.
Local Open Scope Z_scope.

Definition args_of (cs : list (list bytes)) : Z := foldr (fun c n => zlen c + n) 0 cs.
Definition queue_args (cs : ClientState) : Z := args_of (multi_queue cs).

Lemma args_of_cons c cs : args_of (c :: cs) = zlen c + args_of cs.
Proof. done. Qed.

Lemma args_of_nonneg cs : 0 <= args_of cs.
Proof. induction cs as [|c cs IH]; [done|]. rewrite args_of_cons. unfold zlen. lia. Qed.

Lemma args_of_app cs ds : args_of (cs ++ ds) = args_of cs + args_of ds.
Proof. induction cs as [|c cs IH]; [done|]. cbn [app]. rewrite !args_of_cons, IH. lia. Qed.

Section budget.
Context `{O : Oracle} `{!OracleLaws O} (opts : ServerOptions).
Context (A : list bytes -> Prop).        (* what is known of every command received *)
Hypothesis Hdbs : num_databases opts <= Z.of_nat kNumDatabases.
Implicit Types (w : World) (o : bytes) (argv : list bytes).

(** The members of each sorted set and the queued arguments stay below [N]. *)
Definition within (N : Z) (o : bytes) (w : World) : Prop :=
  exists B, server_ok B o w /\ B + queue_args (w_cs w) <= N /\ Forall A (multi_queue (w_cs w)).

Lemma within_mono N N' o w : N <= N' -> within N o w -> within N' o w.
Proof. intros HN (B & H & HB & HA). exists B. split_and!; [done|lia|done]. Qed.

Lemma within_error us s N o w : within N o w -> wp us (reply_error s) (fun _ => within N o) w.
Proof. intros (B & H & HB & HA). pose proof (wp_error_reply us s B o w H) as W. by exists B. Qed.
Lemma within_simple us s N o w : within N o w -> wp us (reply_simple s) (fun _ => within N o) w.
Proof. intros (B & H & HB & HA). pose proof (wp_simple_reply us s B o w H) as W. by exists B. Qed.

Lemma within_unknown us a0 rest N o w :
  within N o w -> wp us (ErrUnknownCommand (a0 :: rest)) (fun _ => within N o) w.
Proof.
  intros H. unfold ErrUnknownCommand. apply wp_bind, wp_ret. destruct (1 <? _) eqn:E; [|by apply within_error].
  destruct rest as [|a1 rest]; [done|]. apply wp_bind, wp_ret. by apply within_error.
Qed.

(** A change of the client whose queue stays well formed and within its share. *)
Lemma within_client us f N N' o w :
  within N o w -> db_index (f (w_cs w)) = db_index (w_cs w) -> Forall queued_ok (multi_queue (f (w_cs w))) ->
  Forall A (multi_queue (f (w_cs w))) -> queue_args (f (w_cs w)) - queue_args (w_cs w) <= N' - N ->
  wp us (update_client f) (fun _ => within N' o) w.
Proof.
  intros (B & H & HB & _) Hi Hq HA Hc. pose proof (wp_update_client us f B o w H Hi Hq) as W.
  exists B. split_and!; [exact W| |exact HA]. cbn. lia.
Qed.

Lemma within_queue N o w : within N o w -> Forall queued_ok (multi_queue (w_cs w)).
Proof. by intros (B & [_ Hq] & _). Qed.
Lemma within_known N o w : within N o w -> Forall A (multi_queue (w_cs w)).
Proof. by intros (B & _ & _ & HA). Qed.

Lemma within_enqueue us a0 rest N o w :
  within N o w -> A (a0 :: rest) -> bypasses_queue (ToUpper a0) = false ->
  wp us (enqueue (ToUpper a0) (ToLower a0) (a0 :: rest)) (fun _ => within (N + zlen (a0 :: rest)) o) w.
Proof.
  intros H HA Hb. unfold enqueue. assert (0 <= zlen (a0 :: rest)) by (unfold zlen; lia).
  assert (Mark : forall w', within N o w' ->
    wp us (update_client (fun c => set_multi (in_multi c) true (multi_queue c) c))
      (fun _ => within (N + zlen (a0 :: rest)) o) w').
  { intros w' H'. eapply within_client; [done|done|by eapply within_queue|by eapply within_known|].
    unfold queue_args. cbn [multi_queue set_multi]. lia. }
  destruct (CommandExists _) eqn:E1; cbn [negb]; [destruct (ArityOk _ _) eqn:E2; cbn [negb]|]; apply wp_bind.
  - eapply wp_mono; [by apply within_simple|]. cbv beta. intros ? w' H'.
    eapply within_client; [done|done| | |].
    + apply Forall_app. split; [by eapply within_queue|by repeat constructor].
    + apply Forall_app. split; [by eapply within_known|by repeat constructor].
    + unfold queue_args. cbn [multi_queue set_multi]. rewrite args_of_app, args_of_cons. cbn. lia.
  - eapply wp_mono; [by apply within_error|]. intros ? w' H'. by apply Mark.
  - eapply wp_mono; [by apply within_unknown|]. intros ? w' H'. by apply Mark.
Qed.

Lemma no_queue_cost f (cs : ClientState) N : multi_queue (f cs) = [] -> 0 <= N -> queue_args (f cs) - queue_args cs <= N.
Proof.
  intros Hq HN. unfold queue_args. rewrite Hq. pose proof (args_of_nonneg (multi_queue cs)).
  change (args_of []) with 0. lia.
Qed.

(** Every command but EXEC. *)
Lemma within_dispatch_body rec argv N o w :
  within N o w -> A argv -> N + zlen argv <= LLONG_MAX -> is_exec argv = false ->
  wp (command_faults argv) (dispatch_body opts rec argv) (fun _ => within (N + zlen argv) o) w.
Proof.
  intros H HA HN Hx. assert (0 <= zlen argv) by (unfold zlen; lia).
  assert (Up : forall (us : list Ub) (m : M unit), wp us m (fun _ => within N o) w ->
    wp us m (fun _ => within (N + zlen argv) o) w).
  { intros us m Hm. eapply wp_mono; [exact Hm|]. intros ? w'. apply within_mono. lia. }
  pose proof (within_queue _ _ _ H) as Hq. pose proof (within_known _ _ _ H) as Hk.
  pose proof (args_of_nonneg (multi_queue (w_cs w))) as Ha.
  destruct argv as [|a0 rest]; [by apply Up|]. unfold dispatch_body. cbn [command_faults is_exec] in *.
  apply wp_bind, wp_gets. destruct (in_multi (w_cs w) && _) eqn:Em.
  { apply within_enqueue; [done|done|]. by apply andb_true_iff in Em as [_ ?%negb_true_iff]. }
  destruct (CommandExists _) eqn:E1; cbn [negb]; [|by apply Up, within_unknown].
  destruct (ArityOk _ _) eqn:E2; cbn [negb]; [|by apply Up, within_error].
  apply wp_bind, wp_gets. destruct (maxmemory_blocks _ _ _); [by apply Up, within_error|].
  destruct (assoc _ _) as [h|] eqn:Eh; [|by apply Up, within_unknown].
  apply (handlers_split opts Hdbs) in Eh as [Hs|[[Hn ->]|[[Hn ->]|[[Hn ->]|[Hn ->]]]]].
  - destruct H as (B & [HI _] & HB & _). apply ArityOk_min in E2. unfold queue_args in HB.
    eapply wp_mono; [apply (Hs B (tx_of (w_cs w)) o); [done|lia|unfold zlen in E2; lia]|].
    cbv beta. intros ? w' HI'. exists (B + zlen (a0 :: rest)). pose proof (inv_tx _ _ _ _ HI') as Ht.
    unfold queue_args. injection Ht as _ _ Ht'. rewrite Ht'. split_and!; [split|lia|done].
    + by rewrite (inv_tx _ _ _ _ HI').
    + by rewrite Ht'.
  - apply Up. unfold cmd_QUIT. apply wp_bind.
    eapply wp_mono; [apply (within_client _ _ N N); [done..|unfold queue_args; cbn [multi_queue set_quit]; lia]|].
    intros ? w' H'. by apply within_simple.
  - apply Up. unfold cmd_MULTI. apply wp_bind, wp_gets. destruct (in_multi _); [by apply within_error|].
    apply wp_bind. eapply wp_mono; [apply (within_client _ _ N N); [done|done|constructor|constructor|apply no_queue_cost; [done|lia]]|].
    intros ? w' H'. by apply within_simple.
  - by rewrite Hn in Hx.
  - apply Up. unfold cmd_DISCARD. apply wp_bind, wp_gets. destruct (in_multi _); [|by apply within_error].
    apply wp_bind. eapply wp_mono; [apply (within_client _ _ N N); [done|done|constructor|constructor|apply no_queue_cost; [done|lia]]|].
    intros ? w' H'. by apply within_simple.
Qed.
(** What a run may end in. *)
Definition ends_within (cs : list (list bytes)) (N : Z) (o : bytes) (r : Outcome unit) : Prop :=
  match r with
  | Done _ w' => within N o w'
  | Undef u => exists c, c ∈ cs /\ ub_in u (command_faults c) = true
  end.

Lemma within_run_queue n q N o w :
  Forall queued_ok q -> Forall A q -> within N o w -> N + args_of q <= LLONG_MAX ->
  ends_within q (N + args_of q) o (for_each (Dispatch opts (S n)) q w).
Proof.
  intros Hq. revert N w. induction Hq as [|c q Hc Hq IH]; intros N w HA H HN.
  { cbn. by rewrite Z.add_0_r. }
  apply Forall_cons in HA as [Hc' HA].
  rewrite args_of_cons in *. pose proof (args_of_nonneg q). assert (0 <= zlen c) by (unfold zlen; lia).
  pose proof (within_dispatch_body (Dispatch opts n) c N o w H Hc' ltac:(lia) (queued_not_exec c Hc)) as W.
  cbn [for_each Dispatch]. unfold mbind, M_bind. unfold wp in W.
  destruct (dispatch_body opts (Dispatch opts n) c w) as [[] w1|u]; [|exists c; split; [left|done]].
  specialize (IH (N + zlen c) w1 HA W ltac:(lia)). rewrite Z.add_assoc. cbn [Dispatch] in IH.
  destruct (for_each _ q w1) as [? w2|u]; [done|].
  destruct IH as (c' & Hin & Hu). exists c'. split; [by right|done].
Qed.

Lemma within_exec n argv N o w :
  within N o w -> N + zlen argv <= LLONG_MAX -> is_exec argv = true ->
  ends_within (multi_queue (w_cs w)) (N + zlen argv) o (dispatch_body opts (Dispatch opts (S n)) argv w).
Proof.
  intros H HN Hx. destruct argv as [|a0 rest]; [done|]. cbn [is_exec] in Hx. apply bool_decide_eq_true in Hx.
  assert (0 <= zlen (a0 :: rest)) by (unfold zlen; lia).
  assert (Up : forall m : M unit, wp [] m (fun _ => within N o) w ->
    ends_within (multi_queue (w_cs w)) (N + zlen (a0 :: rest)) o (m w)).
  { intros m. unfold wp, ends_within. destruct (m w); [|done]. apply within_mono. lia. }
  pose proof (within_queue _ _ _ H) as Hq. pose proof (args_of_nonneg (multi_queue (w_cs w))) as Ha.
  unfold dispatch_body. rewrite Hx. unfold mbind at 1, M_bind at 1, gets at 1.
  replace (in_multi (w_cs w) && negb (bypasses_queue (lit "EXEC"))) with false by (by destruct (in_multi _)).
  destruct (CommandExists _); cbn [negb]; [|by apply Up, within_unknown].
  destruct (ArityOk _ _); cbn [negb]; [|by apply Up, within_error].
  unfold mbind at 1, M_bind at 1, gets at 1.
  destruct (maxmemory_blocks _ _ _); [by apply Up, within_error|].
  rewrite exec_handler. unfold cmd_EXEC. unfold mbind at 1, M_bind at 1, gets at 1.
  destruct (in_multi (w_cs w)); cbn [negb]; [|by apply Up, within_error].
  destruct (multi_error (w_cs w)).
  { apply (Up (update_client _ ≫= _)). apply wp_bind.
    eapply wp_mono; [apply (within_client _ _ N N); [done|done|constructor|constructor|apply no_queue_cost; [done|lia]]|].
    intros ? w' H'. by apply within_error. }
  unfold mbind at 1, M_bind at 1, update_client at 1, modify at 1. cbv beta iota.
  unfold mbind at 1, M_bind at 1, reply_array at 1, reply at 1, modify at 1. cbv beta iota.
  set (w1 := with_out _ _). destruct H as (B & [HI _] & HB & Hk). unfold queue_args in HB.
  assert (H1 : within B o w1).
  { exists B. split_and!; [|cbn; lia|constructor]. split; [|constructor]. destruct HI. split; try done. cbn.
    etrans; [done|]. apply appends_array. }
  pose proof (within_run_queue n _ B o w1 Hq Hk H1 ltac:(lia)) as R. unfold ends_within in *.
  destruct (for_each _ _ w1); [|done]. eapply within_mono; [|exact R]. lia.
Qed.

(** Any command line. *)
Lemma within_dispatch argv N o w :
  within N o w -> A argv -> N + zlen argv <= LLONG_MAX ->
  ends_within (argv :: multi_queue (w_cs w)) (N + zlen argv) o (Dispatch opts 2 argv w).
Proof.
  intros H HA HN. cbn [Dispatch]. destruct (is_exec argv) eqn:Hx.
  - pose proof (within_exec 0 argv N o w H HN Hx) as R. cbn [Dispatch] in R. unfold ends_within in *.
    destruct (dispatch_body _ _ _ _); [done|]. destruct R as (c & Hc & Hu). exists c. split; [by right|done].
  - pose proof (within_dispatch_body (Dispatch opts 1) argv N o w H HA HN Hx) as W. unfold wp in W.
    cbn [Dispatch] in W. destruct (dispatch_body _ _ _ _); [done|]. exists argv. split; [left|done].
Qed.
End budget.
