(* ===== verification/Samples.v ===== *)
(** * A concrete server

    An oracle that satisfies the laws, the world of a server that has just
    started, and runs of command lines on it. *)

From S2P Require Import Prelude Bytes Resp Double SkipList Db DbProofs Rdb RdbFile FloatText Exec ExecLogic.
From S2P Require Import StringCmds KeyCmds HashCmds ListCmds SetCmds ZsetCmds ServerCmds Dispatch CommandSafety.
From S2P Require Import HandlerSafety DispatchProofs.
Local Open Scope Z_scope.

(** Every question takes one second; everything else is the simplest choice, with
    the x87 format for [long double]. *)
#[local] Instance ticking : Oracle := {|
  clock_us n := 1700000000000000 + Z.of_nat n mod 1000000 * 1000000;
  time_s n := 1700000000;
  rng32 n := 7;
  libc_random n k := 2147483647;
  iter_order n i k l := l;
  shuffled n l := l;
  moved_from n v := v;
  disk n := IoOk;
  fork_result n := (42, []);
  ld_prec := 64;
  ld_emax := 16384
|}.

#[local] Instance ticking_laws : OracleLaws ticking.
Proof.
  split; try done. intros n. simpl.
  pose proof (Z.mod_pos_bound (Z.of_nat n) 1000000 ltac:(lia)). unfold LLONG_MAX. lia.
Qed.

Definition start_world : World :=
  mkWorld new_database (new_client 1) (mkStats 0 0 0 0 0 0 false false) (mkRdb (mkFS ∅ ∅ 0) 0) [] [] 0.

Definition cmd (l : list string) : list bytes := map lit l.

Definition run (cs : list (list string)) : M unit := for_each (fun c => Dispatch default_options 2 (cmd c)) cs.

Lemma start_world_ok : server_ok 0 [] start_world.
Proof.
  split; [|constructor]. split; try done; cbn.
  - unfold kNumDatabases. lia.
  - intros i k e. rewrite table_new. by rewrite lookup_empty.
Qed.

(** ** Every fault is reachable *)

(** A session that ends in the fault; the last line causes it. *)
Definition fault_script (name : string) : list (list string) * list string :=
  (match name with
   | "CONFIG" => ([], ["CONFIG"; "SET"; "maxmemory"])
   | "CLIENT" => ([], ["CLIENT"; "SETNAME"])
   | "SET" => ([], ["SET"; "k"; "v"; "EX"; "9223372036854775807"])
   | "SETEX" => ([], ["SETEX"; "k"; "9223372036854775807"; "v"])
   | "PSETEX" => ([], ["PSETEX"; "k"; "9223372036854775807"; "v"])
   | "SETRANGE" => ([], ["SETRANGE"; "k"; "9223372036854775807"; "v"])
   | "INCRBYFLOAT" => ([], ["INCRBYFLOAT"; "k"; "1e115"])
   | "EXPIRE" => ([["SET"; "k"; "v"]], ["EXPIRE"; "k"; "9223372036854775807"])
   | "PEXPIRE" => ([["SET"; "k"; "v"]], ["PEXPIRE"; "k"; "9223372036854775807"])
   | "EXPIREAT" => ([["SET"; "k"; "v"]], ["EXPIREAT"; "k"; "9223372036854775807"])
   | "HDEL" => ([], ["HDEL"; "k"; "f"])
   | "HINCRBYFLOAT" => ([], ["HINCRBYFLOAT"; "k"; "f"; "1e115"])
   | "LREM" => ([["RPUSH"; "k"; "a"]], ["LREM"; "k"; "-9223372036854775808"; "a"])
   | "LMOVE" => ([["RPUSH"; "k"; "a"]; ["PEXPIRE"; "k"; "1500"]], ["LMOVE"; "k"; "k"; "LEFT"; "RIGHT"])
   | "RPOPLPUSH" => ([["RPUSH"; "k"; "a"]; ["PEXPIRE"; "k"; "1500"]], ["RPOPLPUSH"; "k"; "k"])
   | "SREM" => ([], ["SREM"; "k"; "m"])
   | "SRANDMEMBER" => ([["SADD"; "k"; "m"]], ["SRANDMEMBER"; "k"; "-9223372036854775808"])
   | "SMOVE" => ([["SADD"; "k"; "m"]; ["PEXPIRE"; "k"; "1500"]], ["SMOVE"; "k"; "k"; "m"])
   | "SUNION" => ([["SADD"; "k"; "m"]; ["PEXPIRE"; "k"; "1500"]], ["SUNION"; "k"; "k"])
   | "SDIFF" => ([["SADD"; "k"; "m"]; ["PEXPIRE"; "k"; "1500"]], ["SDIFF"; "k"; "k"])
   | "SUNIONSTORE" => ([["SADD"; "k"; "m"]; ["PEXPIRE"; "k"; "1500"]], ["SUNIONSTORE"; "d"; "k"; "k"])
   | "SDIFFSTORE" => ([["SADD"; "k"; "m"]; ["PEXPIRE"; "k"; "1500"]], ["SDIFFSTORE"; "d"; "k"; "k"])
   | "ZRANGE" => ([], ["ZRANGE"; "k"; "0"])
   | "ZREVRANGEBYSCORE" =>
       ([["ZADD"; "k"; "1"; "m"]], ["ZREVRANGEBYSCORE"; "k"; "2"; "0"; "LIMIT"; "-1"; "5"])
   | _ => ([], [])
   end)%string.

(** Does the session run to its last line, which then stops in [u]? *)
Definition ends_in_fault (u : Ub) (s : list (list string) * list string) : bool :=
  match run s.1 start_world with
  | Done _ w => match Dispatch default_options 2 (cmd s.2) w with
                | Undef u' => bool_decide (u' = u)
                | Done _ _ => false
                end
  | Undef _ => false
  end.

(** C20: Every entry of [fault_table] is real: for each command and each kind of
    undefined behaviour listed for it there is a session that a client can send
    to a freshly started server, with a clock that satisfies the laws, whose last
    line is that command and stops in that behaviour.  Together with
    [dispatch_keeps_server] the table is exact. *)
Theorem faults_are_reachable name us u :
  (name, us) ∈ fault_table -> u ∈ us ->
  exists setup args w,
    hd [] (cmd args) = lit name /\ run setup start_world = Done tt w /\
    Dispatch default_options 2 (cmd args) w = Undef u.
Proof.
  assert (All : forallb (fun x => forallb (fun u => bool_decide (hd [] (cmd (fault_script x.1).2) = lit x.1) &&
    ends_in_fault u (fault_script x.1)) x.2) fault_table = true) by by vm_compute.
  intros Hn Hu. rewrite forallb_forall in All. specialize (All (name, us) ltac:(by apply list_elem_of_In)).
  rewrite forallb_forall in All. specialize (All u ltac:(by apply list_elem_of_In)). cbn [fst snd] in All.
  apply andb_true_iff in All as [H1%bool_decide_eq_true H2]. unfold ends_in_fault in H2.
  destruct (fault_script name) as [setup args]. cbn [fst snd] in *.
  destruct (run setup start_world) as [[] w|] eqn:Er; [|done]. exists setup, args, w. split_and!; [done|done|].
  destruct (Dispatch _ _ _ w); [done|]. apply bool_decide_eq_true in H2. congruence.
Qed.

Lemma faults_are_reachable_witness :
  exists setup args w, hd [] (cmd args) = lit "HDEL" /\ run setup start_world = Done tt w /\
    Dispatch default_options 2 (cmd args) w = Undef UbNull.
Proof.
  apply (faults_are_reachable "HDEL" [UbNull]); [|by left].
  apply (bool_decide_unpack _). by vm_compute.
Defined.

Definition sample_zadd : list bytes := cmd ["ZADD"; "z"; "1.5"; "a"]%string.


(** A transaction with one queued command. *)
Definition queued_world : World :=
  with_cs (set_multi true false [cmd ["INCR"; "k"]%string] (new_client 1)) start_world.

Lemma dispatch_two_levels_witness :
  Dispatch default_options 7 (cmd ["EXEC"]%string) queued_world =
  Dispatch default_options 2 (cmd ["EXEC"]%string) queued_world.
Proof.
  apply (dispatch_two_levels default_options 5). by repeat constructor.
Defined.
