(* ===== verification/CommandSpecs.v ===== *)
(** * What commands do

    Functional correctness of commands as a client sends them, through
    [Dispatch]: replies and the key space afterwards, expiry included.  The
    clock is the oracle's: the question with number [n] is answered by [now_at n]. *)

From stdpp Require Import sorting.
From S2P Require Import Prelude Bytes Resp Double SkipList SkipListProofs Db DbProofs DbRefine Rdb RdbFile.
From S2P Require Import FloatText Exec ExecLogic StringCmds KeyCmds GlobProofs SortProofs HashCmds ListCmds.
From S2P Require Import ListProofs SetCmds ZsetCmds ServerCmds Dispatch CommandSafety HandlerSafety.
From S2P Require Import DispatchProofs Samples.
Local Open Scope Z_scope.

(** ** Running commands *)

Lemma bind_run {A C} (m : M A) (f : A -> M C) w a w' : m w = Done a w' -> (m ≫= f) w = f a w'.
Proof. intros E. unfold mbind, M_bind. by rewrite E. Qed.

(** A client outside a transaction on a server with its sixteen key spaces. *)
Record ready (w : World) : Prop := {
  ready_dbs : length (dbs_ (w_db w)) = kNumDatabases;
  ready_idx : (db_index (w_cs w) < kNumDatabases)%nat;
  ready_tx : in_multi (w_cs w) = false
}.

(** The memory gate is open. *)
Definition ungated (opts : ServerOptions) (w : World) : Prop :=
  maxmemory opts <= 0 \/ used_memory (w_db w) <= maxmemory opts.

(** The key space the client works on. *)
Definition here (w : World) : Table := table (w_db w) (db_index (w_cs w)).

(** The key space [idx] with [t] in its place; everything else is as before. *)
Definition with_table (idx : nat) (t : Table) (w : World) : World := with_db (set_table idx t (w_db w)) w.

Definition now_at `{O : Oracle} (n : nat) : Z := Z.quot (clock_us n) 1000.

(** What a lookup finds that asks for the time now. *)
Abbreviation found w idx key := (live (now_at (w_tick w)) idx (w_db w) !! key).

Section run.
Context `{O : Oracle} (opts : ServerOptions).
Implicit Types (w : World) (key : bytes).

Lemma dispatch_run (name : string) rest h w :
  ready w -> ToUpper (lit name) = lit name -> ArityOk (lit name) (zlen (lit name :: rest)) = true ->
  IsWriteCommand (lit name) = false \/ ungated opts w ->
  assoc (lit name) (handlers opts (Dispatch opts 1) (ToLower (lit name))) = Some h ->
  Dispatch opts 2 (lit name :: rest) w = h (lit name :: rest) w.
Proof.
  intros [] Hn Ha Hg Hh. cbn [Dispatch]. apply dispatch_to; rewrite ?Hn; try done; [by rewrite ready_tx0|].
  unfold maxmemory_blocks. destruct Hg as [->|[Hg|Hg]].
  - by destruct (0 <? _).
  - by replace (0 <? maxmemory opts) with false by lia.
  - replace (maxmemory opts <? used_memory (w_db w)) with false by lia. by rewrite !andb_false_r.
Qed.

Lemma check_db_run idx w : (idx < length (dbs_ (w_db w)))%nat -> check_db idx w = Done tt w.
Proof.
  intros Hi. unfold check_db, mbind, M_bind, gets.
  by replace (idx <? _)%nat with true by (symmetry; by apply Nat.ltb_lt).
Qed.

Lemma lookup_run idx key w :
  (idx < length (dbs_ (w_db w)))%nat ->
  lookup_key idx key w =
  Done (found w idx key) (with_db (Lookup (now_at (w_tick w)) idx key (w_db w)).2 (next_tick w)).
Proof.
  intros Hi. unfold lookup_key. rewrite (bind_run _ _ _ _ _ (check_db_run _ _ Hi)), <- Lookup_result.
  unfold NowMs, mbind, M_bind, gets. cbn. fold (now_at (w_tick w)). by destruct (Lookup _ _ _ _).
Qed.

Lemma found_table idx key e w : found w idx key = Some e -> table (w_db w) idx !! key = Some e.
Proof. rewrite live_lookup. destruct (_ !! key) as [e'|]; [|done]. by destruct (expired _ e'). Qed.

Lemma lookup_live idx key e w :
  (idx < length (dbs_ (w_db w)))%nat -> found w idx key = Some e ->
  lookup_key idx key w = Done (Some e) (next_tick w).
Proof.
  intros Hi He. rewrite lookup_run, He by done. rewrite live_lookup in He. unfold Lookup.
  destruct (table (w_db w) idx !! key) as [e'|]; [|done]. by destruct (expired _ e').
Qed.

Lemma GetTyped_run T `{!Prism T} idx key w :
  (idx < length (dbs_ (w_db w)))%nat ->
  GetTyped T idx key w =
  Done match found w idx key with
       | None => kMissing
       | Some e => match proj (value e) with Some v => kFound v | None => kWrongType end
       end (with_db (Lookup (now_at (w_tick w)) idx key (w_db w)).2 (next_tick w)).
Proof. intros Hi. unfold GetTyped. by rewrite (bind_run _ _ _ _ _ (lookup_run _ _ _ Hi)). Qed.

Lemma GetTyped_live T `{!Prism T} idx key e v w :
  (idx < length (dbs_ (w_db w)))%nat -> found w idx key = Some e -> proj (value e) = Some v ->
  GetTyped T idx key w = Done (kFound v) (next_tick w).
Proof.
  intros Hi He Hv. unfold GetTyped. rewrite (bind_run _ _ _ _ _ (lookup_live _ _ _ _ Hi He)). cbn. by rewrite Hv.
Qed.

Lemma store_run {T} `{!Prism T} idx key e (v : T) w :
  table (w_db w) idx !! key = Some e ->
  store idx key v w =
  Done tt (with_table idx (<[key := mkEntry (inj v) (expires_at_ms e)]> (table (w_db w) idx)) w).
Proof. intros He. unfold store, poke. unfold mbind, M_bind, gets. by rewrite He. Qed.

Lemma delete_run idx key e w :
  (idx < length (dbs_ (w_db w)))%nat -> table (w_db w) idx !! key = Some e ->
  delete_key idx key w = Done true (with_db (drop_entry idx key e (w_db w)) w).
Proof.
  intros Hi He. unfold delete_key. rewrite (bind_run _ _ _ _ _ (check_db_run _ _ Hi)).
  unfold mbind, M_bind, gets, Delete. by rewrite He.
Qed.

Lemma set_run idx key v x w :
  (idx < length (dbs_ (w_db w)))%nat -> set_key idx key v x w = Done tt (with_db (Set_ idx key v x (w_db w)) w).
Proof. intros Hi. unfold set_key. by rewrite (bind_run _ _ _ _ _ (check_db_run _ _ Hi)). Qed.
End run.

(** ** Strings *)

Section strings.
Context `{O : Oracle} `{!OracleLaws O} (opts : ServerOptions).
Implicit Types (w : World) (key : bytes).

Lemma now_positive n : 0 < now_at n.
Proof. pose proof (clock_range n). unfold now_at. apply Z.quot_str_pos. lia. Qed.

(** The world after SET with a lifetime, whatever the key held before. *)
Lemma set_px_run key v ms w :
  ready w -> ungated opts w -> 0 < ms -> in_i64 (now_at (S (w_tick w)) + ms) = true ->
  Dispatch opts 2 [lit "SET"; key; v; lit "PX"; print_signed ms] w =
  Done tt (with_out (AppendSimpleReply (w_out w) (lit "OK"))
    (with_db (Set_ (db_index (w_cs w)) key (RawString v) (now_at (S (w_tick w)) + ms)
      (Lookup (now_at (w_tick w)) (db_index (w_cs w)) key (w_db w)).2) (next_tick (next_tick w)))).
Proof.
  intros Hr Hg Hms Hd. pose proof (now_positive (S (w_tick w))) as Hp.
  rewrite (dispatch_run opts "SET" _ CmdSet); try done; [|by right].
  assert (Hi : (db_index (w_cs w) < length (dbs_ (w_db w)))%nat) by (destruct Hr; lia).
  unfold CmdSet. erewrite bind_run by done. erewrite bind_run by done. cbn [drop].
  assert (set_options [lit "PX"; print_signed ms] (mkSetOpts (-1) (-1) false false false false) =
    Some (mkSetOpts (-1) ms false false false false)) as ->.
  { cbn [set_options ToUpper]. replace (ToUpper (lit "PX")) with (lit "PX") by done. cbn.
    rewrite ParseIntStrict_print.
    replace (in_i64 ms) with true by (unfold in_i64, LLONG_MIN, LLONG_MAX in *; lia).
    by replace (ms <=? 0) with false by lia. }
  cbn [nx xx andb want_get ex_s px_ms]. erewrite bind_run by done.
  rewrite (bind_run _ _ _ _ _ (lookup_run _ _ _ Hi)). cbv zeta. rewrite !andb_false_r.
  erewrite bind_run by done. replace (0 <? ms) with true by lia.
  erewrite bind_run.
  2: { unfold NowMs. unfold mbind, M_bind, tick, mret, M_ret. cbn. fold (now_at (S (w_tick w))).
       unfold chk. rewrite Hd. done. }
  erewrite bind_run; [|apply set_run; cbn; by rewrite Lookup_len]. done.
Qed.
(** A read of a string. *)
Lemma get_run key w :
  ready w ->
  Dispatch opts 2 [lit "GET"; key] w =
  Done tt (with_out match found w (db_index (w_cs w)) key with
                    | None => AppendNullBulkReply (w_out w)
                    | Some e => match value e with
                                | RawString s => AppendBulkReply (w_out w) s
                                | _ => AppendErrorReply (w_out w)
                                    (lit "WRONGTYPE Operation against a key holding the wrong kind of value")
                                end
                    end
    (with_db (Lookup (now_at (w_tick w)) (db_index (w_cs w)) key (w_db w)).2 (next_tick w))).
Proof.
  intros Hr. rewrite (dispatch_run opts "GET" _ cmd_GET); try done; [|by left].
  assert (Hi : (db_index (w_cs w) < length (dbs_ (w_db w)))%nat) by (destruct Hr; lia).
  unfold cmd_GET. erewrite bind_run by done. erewrite bind_run by done.
  rewrite (bind_run _ _ _ _ _ (GetTyped_run _ _ _ _ Hi)).
  destruct (found w _ key) as [[[]]|]; done.
Qed.

(** C15: A value set with a lifetime is read back until its deadline and not
    after.  SET key v PX ms followed by GET, on a server that accepts writes,
    replies OK and then v, or the null bulk string if the clock has reached the
    deadline, which is the time at the second question plus ms.  From then on
    the live keys of every key space, at every later moment, are those of
    before, except that the key has the new value until the deadline and is
    absent afterwards. *)
Theorem set_px_get key v ms w :
  let n := w_tick w in
  let deadline := now_at (S n) + ms in
  let done_ o := AppendSimpleReply o (lit "OK") in
  ready w -> ungated opts w -> 0 < ms -> in_i64 deadline = true ->
  exists w',
    (Dispatch opts 2 [lit "SET"; key; v; lit "PX"; print_signed ms] ≫= fun _ =>
     Dispatch opts 2 [lit "GET"; key]) w = Done tt w' /\
    w_out w' = (if deadline <=? now_at (S (S n)) then AppendNullBulkReply (done_ (w_out w))
                else AppendBulkReply (done_ (w_out w)) v) /\
    forall t j, now_at n <= t -> now_at (S (S n)) <= t ->
      live t j (w_db w') =
      if decide (j = db_index (w_cs w)) then
        if deadline <=? t then delete key (live t j (w_db w))
        else <[key := mkEntry (RawString v) deadline]> (live t j (w_db w))
      else live t j (w_db w).
Proof.
  intros n deadline done_ Hr Hg Hms Hd. pose proof (now_positive (S n)) as Hp.
  rewrite (bind_run _ _ _ _ _ (set_px_run key v ms w Hr Hg Hms Hd)).
  destruct Hr as [Hl Hi Htx]. set (w1 := with_out _ _).
  assert (Hx : forall t, expired t (mkEntry (RawString v) deadline) = (deadline <=? t)).
  { intros t. unfold expired. cbn. by replace (deadline =? 0) with false by (unfold deadline; lia). }
  assert (Hl' : length (dbs_ (Lookup (now_at n) (db_index (w_cs w)) key (w_db w)).2) = kNumDatabases)
    by (by rewrite Lookup_len).
  assert (H1 : ready w1) by (split; [cbn; by rewrite Set_len|done..]).
  rewrite (get_run key w1 H1). eexists. split; [done|].
  assert (Hf : found w1 (db_index (w_cs w)) key = if deadline <=? now_at (S (S n)) then None
    else Some (mkEntry (RawString v) deadline)).
  { cbn [w1 w_db with_out with_db w_tick next_tick]. rewrite live_lookup, table_Set by done.
    rewrite decide_True by done. rewrite lookup_insert_eq. fold n deadline. by rewrite Hx. }
  split.
  - change (db_index (w_cs w1)) with (db_index (w_cs w)). rewrite Hf. by destruct (deadline <=? _).
  - intros t j Ht Ht2. cbn [w_db with_out with_db w1 w_tick next_tick w_cs]. fold n deadline.
    rewrite Lookup_live by (by rewrite ?Set_len). rewrite Set_live by done. rewrite Hx.
    destruct (decide (j = _)) as [->|]; [|by apply Lookup_live]. by rewrite Lookup_live.
Qed.

(** C23: INCRBY adds without losing precision or wrapping.  For a live key whose
    text reads as the integer x, INCRBY with any 64-bit amount stores the decimal
    text of the sum, keeps the deadline and replies the sum when it fits in 64
    bits; otherwise it replies the error and changes nothing but the clock. *)
Theorem incrby_exact key by_ e s x w :
  ready w -> ungated opts w -> in_i64 by_ = true ->
  found w (db_index (w_cs w)) key = Some e -> value e = RawString s -> ParseIntStrict s = Some x ->
  Dispatch opts 2 [lit "INCRBY"; key; print_signed by_] w =
  Done tt
    (if in_i64 (x + by_) then
       with_out (AppendIntReply (w_out w) (x + by_))
         (with_table (db_index (w_cs w))
           (<[key := mkEntry (RawString (print_signed (x + by_))) (expires_at_ms e)]> (here w)) (next_tick w))
     else with_out (AppendErrorReply (w_out w) (lit "ERR value is not an integer or out of range"))
       (next_tick w)).
Proof.
  intros Hr Hg Hb Hf Hv Hx. rewrite (dispatch_run opts "INCRBY" _ cmd_INCRBY); try done; [|by right].
  assert (Hi : (db_index (w_cs w) < length (dbs_ (w_db w)))%nat) by (destruct Hr; lia).
  unfold cmd_INCRBY. erewrite bind_run by done. rewrite ParseIntStrict_print, Hb.
  unfold CmdIncrBy. erewrite bind_run by done. erewrite bind_run by done.
  erewrite bind_run.
  2: { unfold GetOrCreateStringEntry, get_or_create.
       by rewrite (bind_run _ _ _ _ _ (lookup_live _ _ _ _ Hi Hf)), Hv. }
  cbn [proj string_prism]. unfold incr_int. destruct s as [|c s]; [done|].
  rewrite bool_decide_eq_false_2 by done. rewrite Hx. cbv zeta. destruct (in_i64 (x + by_)); [|done]. cbn [negb].
  erewrite bind_run; [|apply store_run; exact (found_table _ _ _ _ Hf)]. done.
Qed.
End strings.

(** ** Lists *)

Section lists.
Context `{O : Oracle} (opts : ServerOptions).
Implicit Types (w : World) (key : bytes) (l : list bytes).

(** The list a read finds; a missing key counts as an empty one. *)
Definition holds_list w key l : Prop :=
  match found w (db_index (w_cs w)) key with None => l = [] | Some e => value e = ListValue l end.

(** C25: LRANGE returns a slice.  For a live list, or a missing key taken as the
    empty list, and any two 64-bit indices, negative ones counted from the end,
    the reply is the array of exactly the elements from the first index to the
    second, empty if there are none; out of range indices are clamped. *)
Theorem lrange_exact key start stop l w :
  ready w -> in_i64 start = true -> in_i64 stop = true -> holds_list w key l ->
  Dispatch opts 2 [lit "LRANGE"; key; print_signed start; print_signed stop] w =
  Done tt (with_out (AppendBulkArray (w_out w) (ref_slice start stop l))
    (with_db (Lookup (now_at (w_tick w)) (db_index (w_cs w)) key (w_db w)).2 (next_tick w))).
Proof.
  intros Hr Ha Hb Hl. rewrite (dispatch_run opts "LRANGE" _ cmd_LRANGE); try done; [|by left].
  assert (Hi : (db_index (w_cs w) < length (dbs_ (w_db w)))%nat) by (destruct Hr; lia).
  unfold cmd_LRANGE. erewrite bind_run by done. erewrite bind_run by done.
  rewrite (bind_run _ _ _ _ _ (GetTyped_run _ _ _ _ Hi)). unfold holds_list in Hl.
  pose proof (list_window_slice start stop l) as Hs.
  destruct (found w _ key) as [e|]; [rewrite Hl; cbn [proj list_prism]|subst l]; unfold arg; cbn [lookup list_lookup];
    do 2 (erewrite bind_run by done); rewrite !ParseIntStrict_print, Ha, Hb.
  - destruct (ListIndexRange start stop (zlen l)) as [[s e']|]; [by destruct Hs as (-> & _)|by rewrite Hs].
  - change 0 with (zlen (@nil bytes)). destruct (ListIndexRange start stop (zlen [])) as [[s e']|]; [|by rewrite Hs].
    by destruct Hs as (_ & _ & []).
Qed.

(** C26: LTRIM keeps a slice.  For a live non-empty list and any two 64-bit
    indices the list afterwards is the slice LRANGE would have returned, with
    the deadline kept; an empty slice removes the key and its share of the memory
    accounting. *)
Theorem ltrim_exact key start stop e l w :
  ready w -> ungated opts w -> in_i64 start = true -> in_i64 stop = true ->
  found w (db_index (w_cs w)) key = Some e -> value e = ListValue l -> l <> [] ->
  Dispatch opts 2 [lit "LTRIM"; key; print_signed start; print_signed stop] w =
  Done tt (with_out (AppendSimpleReply (w_out w) (lit "OK"))
    (let w := next_tick w in
     if bool_decide (ref_slice start stop l = []) then
       with_db (drop_entry (db_index (w_cs w)) key e (w_db w)) w
     else with_table (db_index (w_cs w))
            (<[key := mkEntry (ListValue (ref_slice start stop l)) (expires_at_ms e)]> (here w)) w)).
Proof.
  intros Hr Hg Ha Hb Hf Hv Hne. rewrite (dispatch_run opts "LTRIM" _ cmd_LTRIM); try done; [|by right].
  assert (Hi : (db_index (w_cs w) < length (dbs_ (w_db w)))%nat) by (destruct Hr; lia).
  unfold cmd_LTRIM. erewrite bind_run by done. erewrite bind_run by done.
  erewrite bind_run; [|eapply GetTyped_live; [done|done|by rewrite Hv]]. cbv beta iota.
  do 2 (erewrite bind_run by done). rewrite !ParseIntStrict_print, Ha, Hb.
  destruct l as [|y l]; [done|]. cbv zeta. pose proof (list_window_slice start stop (y :: l)) as Hs.
  pose proof (found_table _ _ _ _ Hf) as Ht.
  destruct (ListIndexRange start stop (zlen (y :: l))) as [[s e']|].
  - destruct Hs as (_ & -> & Hs). rewrite !bool_decide_eq_false_2 by done.
    erewrite bind_run; [|by apply store_run]. by erewrite bind_run by done.
  - rewrite Hs, bool_decide_eq_true_2 by done. by erewrite bind_run; [|by apply delete_run].
Qed.

(** C24: LREM removes the occurrences its count asks for.  For a live list and a
    64-bit count other than the smallest, the list afterwards is [ref_lrem]: the
    first [count] occurrences are gone, all of them for zero, and for a negative
    count the last ones, as if the list were read backwards; the deadline is kept
    and the reply is the number of elements removed. *)
Theorem lrem_exact key count x e l w :
  ready w -> ungated opts w -> in_i64 count = true -> count <> LLONG_MIN ->
  found w (db_index (w_cs w)) key = Some e -> value e = ListValue l ->
  Dispatch opts 2 [lit "LREM"; key; print_signed count; x] w =
  Done tt (with_out (AppendIntReply (w_out w) (zlen l - zlen (ref_lrem count x l)))
    (with_table (db_index (w_cs w))
      (<[key := mkEntry (ListValue (ref_lrem count x l)) (expires_at_ms e)]> (here w)) (next_tick w))).
Proof.
  intros Hr Hg Hc Hmin Hf Hv. rewrite (dispatch_run opts "LREM" _ cmd_LREM); try done; [|by right].
  assert (Hi : (db_index (w_cs w) < length (dbs_ (w_db w)))%nat) by (destruct Hr; lia).
  unfold cmd_LREM. erewrite bind_run by done. erewrite bind_run by done.
  erewrite bind_run; [|eapply GetTyped_live; [done|done|by rewrite Hv]]. cbv beta iota.
  erewrite bind_run by done. rewrite ParseIntStrict_print, Hc. erewrite bind_run by done.
  pose proof (found_table _ _ _ _ Hf) as Ht. destruct (0 <=? count) eqn:Es.
  - cbv zeta. erewrite bind_run; [|by apply store_run].
    by rewrite lrem_forward_count, lrem_forward_ref, Z.add_0_l by lia.
  - unfold chk. replace (in_i64 (- count)) with true by (unfold in_i64, LLONG_MIN, LLONG_MAX in *; lia).
    erewrite bind_run by done. destruct (lrem_backward_ref count x l ltac:(lia)) as [E1 E2]. cbv zeta.
    erewrite bind_run; [|by apply store_run]. by rewrite E1, <- E2.
Qed.
End lists.

(** ** Sets and key enumeration *)

Section enumeration.
Context `{O : Oracle} `{!OracleLaws O} (opts : ServerOptions).
Implicit Types (w : World) (key p : bytes) (T : Table).

(** C27: SMEMBERS lists a set completely, once and in order.  For a live set the
    reply is the array of its members in the order of [std::string], whatever
    order the hash table was walked in. *)
Theorem smembers_exact key e s w :
  ready w -> found w (db_index (w_cs w)) key = Some e -> value e = SetValue s ->
  exists l,
    Dispatch opts 2 [lit "SMEMBERS"; key] w =
      Done tt (with_out (AppendBulkArray (w_out w) l) (next_tick (next_tick w))) /\
    l = sort_bytes (elements s) /\ Sorted bytes_le l /\ NoDup l /\ (forall m, m ∈ l <-> m ∈ s).
Proof.
  intros Hr Hf Hv. exists (sort_bytes (elements s)). split_and!; [|done|apply sort_bytes_sorted|..].
  - rewrite (dispatch_run opts "SMEMBERS" _ cmd_SMEMBERS); try done; [|by left].
    assert (Hi : (db_index (w_cs w) < length (dbs_ (w_db w)))%nat) by (destruct Hr; lia).
    unfold cmd_SMEMBERS. erewrite bind_run by done. erewrite bind_run by done.
    erewrite bind_run; [|eapply GetTyped_live; [done|done|by rewrite Hv]]. cbv beta iota.
    erewrite bind_run by done. unfold reply_bulk_array, reply, modify. cbn. by rewrite iter_order_perm.
  - rewrite sort_bytes_perm. apply NoDup_elements.
  - intros m. by rewrite sort_bytes_perm, elem_of_elements.
Qed.

(** Same state, possibly later. *)
Definition ticked w w' : Prop :=
  exists k, w' = mkWorld (w_db w) (w_cs w) (w_stats w) (w_rdb w) (w_children w) (w_out w) (w_tick w + k).

(** The answers to the questions from [lo] to [hi] agree with time [t] about
    every key of the table. *)
Definition steady (t : Z) T (lo hi : nat) : Prop :=
  forall m k e, (lo <= m <= hi)%nat -> T !! k = Some e -> expired (now_at m) e = expired t e.

Definition stale (t : Z) T (k : bytes) : bool := match T !! k with Some e => expired t e | None => false end.

Lemma stale_check t T k e w hi :
  steady t T (w_tick w) hi -> (S (w_tick w) <= hi)%nat -> T !! k = Some e ->
  exists w', KeyIsLiveExpired e w = Done (expired t e) w' /\ ticked w w' /\ (w_tick w' <= S (w_tick w))%nat.
Proof.
  intros Hs Hhi He. unfold KeyIsLiveExpired. destruct (expires_at_ms e =? 0) eqn:E0.
  - exists w. unfold expired. rewrite E0. split_and!; [done| |lia]. exists 0%nat. rewrite Nat.add_0_r. by destruct w.
  - exists (next_tick w). split_and!; [|exists 1%nat; unfold next_tick; by rewrite Nat.add_1_r|done].
    unfold NowMs, mbind, M_bind, mret, M_ret, tick. fold (now_at (w_tick w)).
    rewrite <- (Hs (w_tick w) k e) by (done || lia). unfold expired. by rewrite E0.
Qed.

Lemma ticked_trans w1 w2 w3 : ticked w1 w2 -> ticked w2 w3 -> ticked w1 w3.
Proof. intros [a ->] [b ->]. exists (a + b)%nat. cbn. by rewrite Nat.add_assoc. Qed.

(** The walk of KEYS collects the matching live keys and the stale ones. *)
Lemma keys_walk t p T order acc w hi :
  steady t T (w_tick w) hi -> (w_tick w + length order <= hi)%nat -> Forall (fun k => is_Some (T !! k)) order ->
  exists w', ticked w w' /\
    fold_m (keys_loop p T) acc order w =
    Done (acc.1 ++ filter (fun k => stale t T k = false /\ GlobMatch p k = true) order,
          acc.2 ++ filter (fun k => stale t T k = true) order) w'.
Proof.
  intros Hs Hhi HT. revert acc w Hs Hhi. induction HT as [|k order [e He] HT IH]; intros acc w Hs Hhi.
  { exists w. split; [exists 0%nat; rewrite Nat.add_0_r; by destruct w|]. simpl. rewrite !app_nil_r. by destruct acc. }
  cbn [length] in Hhi. destruct (stale_check t T k e w hi Hs ltac:(lia) He) as (w1 & E1 & T1 & Hk).
  assert (Hst : stale t T k = expired t e) by (unfold stale; by rewrite He).
  assert (Hlo : (w_tick w <= w_tick w1)%nat) by (destruct T1 as [? ->]; cbn; lia).
  cbn [fold_m]. unfold keys_loop at 2. rewrite He.
  erewrite bind_run; [|by rewrite (bind_run _ _ _ _ _ E1)].
  edestruct (IH (if expired t e then (acc.1, acc.2 ++ [k])
             else if GlobMatch p k then (acc.1 ++ [k], acc.2) else acc) w1) as (w' & T' & E').
  { intros m k' e' Hm. apply Hs. lia. }
  { lia. }
  exists w'. split; [by eapply ticked_trans|]. rewrite E'. clear E'. rewrite !filter_cons, Hst.
  destruct (expired t e).
  - rewrite (decide_False (P := _ /\ _)) by naive_solver. rewrite decide_True by done. cbn. by rewrite <- app_assoc.
  - rewrite (decide_False (P := false = true)) by done. destruct (GlobMatch p k).
    + rewrite decide_True by done. cbn. by rewrite <- app_assoc.
    + by rewrite decide_False by naive_solver.
Qed.
(** The loop that removes the stale keys. *)
Lemma drop_stale ks idx w :
  length (dbs_ (w_db w)) = kNumDatabases -> (idx < kNumDatabases)%nat -> NoDup ks ->
  Forall (fun k => is_Some (table (w_db w) idx !! k)) ks ->
  exists w',
    for_each (fun k => _ ← delete_key idx k; count_expired_key) ks w = Done tt w' /\
    w_out w' = w_out w /\ w_cs w' = w_cs w /\ length (dbs_ (w_db w')) = kNumDatabases /\
    (forall j, j <> idx -> table (w_db w') j = table (w_db w) j) /\
    (forall k, table (w_db w') idx !! k = if decide (k ∈ ks) then None else table (w_db w) idx !! k).
Proof.
  intros Hl Hi Hnd Hks. revert w Hl Hks. induction Hnd as [|k ks Hk Hnd IH]; intros w Hl Hks.
  { exists w. by split_and!. }
  apply Forall_cons in Hks as [[e He] Hks]. cbn [for_each].
  erewrite bind_run.
  2: { erewrite bind_run; [|apply delete_run; [lia|exact He]]. done. }
  set (w1 := with_stats _ _).
  assert (Ht : forall j, table (w_db w1) j = if decide (j = idx) then delete k (table (w_db w) idx)
    else table (w_db w) j) by (intros j; by apply table_drop_entry).
  destruct (IH w1) as (w' & E & Ho & Hc & Hl' & Hne & Heq).
  { cbn. by rewrite length_insert. }
  { rewrite Forall_forall in Hks |- *. intros k' Hk'. rewrite Ht, decide_True by done.
    rewrite lookup_delete_ne by (intros ->; done). by apply Hks. }
  exists w'. split_and!; try done.
  - intros j Hj. rewrite Hne, Ht by done. by rewrite decide_False.
  - intros k'. rewrite Heq, Ht, (decide_True (P := idx = idx)) by done. destruct (decide (k' = k)) as [->|Hkk].
    + rewrite lookup_delete_eq. rewrite (decide_True (P := k ∈ k :: ks)) by left. by case_decide.
    + rewrite lookup_delete_ne by done. apply decide_ext. rewrite elem_of_cons. naive_solver.
Qed.

(** C22: KEYS reports exactly the live keys that match.  If no deadline of the
    selected key space passes while the command runs ([steady]), the reply is
    the sorted array of the live keys accepted by [GlobMatch], whatever order the
    table was walked in; the stale keys are removed from the table and nothing
    else changes in any key space. *)
Theorem keys_exact p t w :
  let idx := db_index (w_cs w) in
  ready w -> steady t (here w) (w_tick w) (S (w_tick w) + size (here w)) ->
  exists w',
    Dispatch opts 2 [lit "KEYS"; p] w = Done tt w' /\
    w_out w' = AppendBulkArray (w_out w)
                 (sort_bytes (filter (fun k => GlobMatch p k = true) (keys_of (live t idx (w_db w))))) /\
    here w' = live t idx (w_db w) /\
    forall j, j <> idx -> table (w_db w') j = table (w_db w) j.
Proof.
  intros idx Hr Hs. rewrite (dispatch_run opts "KEYS" _ cmd_KEYS); try done; [|by left].
  assert (Hi : (idx < length (dbs_ (w_db w)))%nat) by (destruct Hr; unfold idx; lia).
  unfold cmd_KEYS. erewrite bind_run by done. rewrite (bind_run _ _ _ _ _ (check_db_run _ _ Hi)).
  do 2 (erewrite bind_run by done). cbv zeta. erewrite bind_run by done. fold idx. unfold here in Hs. fold idx in Hs.
  set (T := table (w_db w) idx) in *. set (order := iter_order _ _ _ _).
  assert (Ho : order ≡ₚ keys_of T) by apply iter_order_perm.
  assert (Hlen : length order = size T) by (rewrite Ho; unfold keys_of; by rewrite length_fmap, length_map_to_list).
  assert (Hin : forall k, k ∈ order <-> is_Some (T !! k)) by (intros k; by rewrite Ho, elem_of_keys).
  destruct (keys_walk t p T order ([], []) (next_tick w) (S (w_tick w) + size T)) as (w1 & Tk & E1).
  { intros m k e Hm. apply Hs. cbn in Hm. lia. }
  { cbn. lia. }
  { apply Forall_forall. intros k. apply Hin. }
  rewrite (bind_run _ _ _ _ _ E1). cbn [fst snd app].
  assert (Hnd : NoDup order) by (rewrite Ho; apply keys_of_NoDup).
  assert (w_db w1 = w_db w /\ w_out w1 = w_out w /\ w_cs w1 = w_cs w) as (Hd1 & Ho1 & Hc1)
    by (by destruct Tk as [? ->]).
  destruct (drop_stale (filter (fun k => stale t T k = true) order) idx w1) as (w2 & E2 & Ho2 & Hc2 & _ & Hne & Heq).
  { rewrite Hd1. apply Hr. }
  { apply Hr. }
  { by apply NoDup_filter. }
  { apply Forall_forall. intros k [_ Hk]%list_elem_of_filter. rewrite Hd1. by apply Hin. }
  rewrite Hd1 in Hne, Heq. rewrite (bind_run _ _ _ _ _ E2). eexists. split; [done|]. split_and!.
  - cbn [w_out with_out]. rewrite Ho2, Ho1. f_equal. apply sort_bytes_proper.
    apply NoDup_Permutation; [by apply NoDup_filter|apply NoDup_filter, keys_of_NoDup|]. intros k.
    rewrite !list_elem_of_filter, Hin, elem_of_keys, live_lookup. unfold stale. fold T.
    destruct (T !! k) as [e|]; [|by split; intros (? & [? ?])]. destruct (expired t e).
    + split; [by intros [[? ?] ?]|by intros (? & [? ?])].
    + split; [intros [[_ ?] _]; eauto|intros [? _]; eauto].
  - unfold here. cbn [w_cs with_out w_db]. rewrite Hc2, Hc1. fold idx. apply map_eq. intros k.
    rewrite Heq, live_lookup. fold T. destruct (T !! k) as [e|] eqn:Ek; [|by case_decide].
    destruct (expired t e) eqn:Ex.
    + rewrite decide_True; [done|]. apply list_elem_of_filter. unfold stale. rewrite Ek. split; [done|]. apply Hin. eauto.
    + rewrite decide_False; [done|]. unfold stale. rewrite list_elem_of_filter, Ek. naive_solver congruence.
  - intros i' Hi'. cbn [w_db with_out]. by rewrite Hne.
Qed.
End enumeration.

(** ** Concrete instances *)

#[local] Existing Instance ticking.
#[local] Existing Instance ticking_laws.

(** The world after a session; [start_world] if it does not end. *)
Definition world_after (cs : list (list string)) : World :=
  match run cs start_world with Done _ w => w | Undef _ => start_world end.

Definition counter_world : World := world_after [["SET"; "n"; "41"]]%string.
Definition list_world : World := world_after [["RPUSH"; "l"; "a"; "b"; "a"; "c"; "a"]]%string.
Definition set_world : World := world_after [["SADD"; "s"; "y"; "x"]]%string.
(** Two lasting keys and a third whose second has passed. *)
Definition keys_world : World :=
  world_after [["SET"; "k1"; "v"]; ["SET"; "k2"; "v"]; ["SET"; "k3"; "v"; "PX"; "500"]]%string.

Lemma set_px_get_witness :
  exists w',
    (Dispatch default_options 2 [lit "SET"; lit "k"; lit "v"; lit "PX"; print_signed 5000] ≫= fun _ =>
     Dispatch default_options 2 [lit "GET"; lit "k"]) start_world = Done tt w' /\
    w_out w' = lit "+OK" ++ crlf ++ lit "$1" ++ crlf ++ lit "v" ++ crlf.
Proof.
  destruct (set_px_get default_options (lit "k") (lit "v") 5000 start_world) as (w' & E & Ho & _).
  - split; [done|cbn; unfold kNumDatabases; lia|done].
  - by left.
  - lia.
  - by vm_compute.
  - exists w'. split; [exact E|]. rewrite Ho. by vm_compute.
Defined.

Lemma incrby_exact_witness :
  exists w', Dispatch default_options 2 [lit "INCRBY"; lit "n"; print_signed 1] counter_world = Done tt w' /\
    here w' !! lit "n" = Some (mkEntry (RawString (lit "42")) 0).
Proof.
  eexists. split; [eapply (incrby_exact default_options (lit "n") 1 (mkEntry (RawString (lit "41")) 0) (lit "41") 41)|
    by vm_compute].
  - split; vm_compute; [done|lia|done].
  - by left.
  - done.
  - by vm_compute.
  - done.
  - by vm_compute.
Defined.

Definition sample_list : list bytes := [lit "a"; lit "b"; lit "a"; lit "c"; lit "a"].

Lemma list_world_ready : ready list_world.
Proof. split; vm_compute; [done|lia|done]. Qed.

Lemma lrange_exact_witness :
  exists w', Dispatch default_options 2 [lit "LRANGE"; lit "l"; print_signed 1; print_signed (-2)] list_world =
    Done tt w' /\ w_out w' = AppendBulkArray (w_out list_world) [lit "b"; lit "a"; lit "c"].
Proof.
  eexists. split; [apply (lrange_exact default_options (lit "l") 1 (-2) sample_list list_world list_world_ready)|
    by vm_compute]; by vm_compute.
Defined.

Lemma ltrim_exact_witness :
  exists w', Dispatch default_options 2 [lit "LTRIM"; lit "l"; print_signed 1; print_signed 1] list_world =
    Done tt w' /\ here w' !! lit "l" = Some (mkEntry (ListValue [lit "b"]) 0).
Proof.
  eexists. split; [apply (ltrim_exact default_options (lit "l") 1 1 (mkEntry (ListValue sample_list) 0) sample_list
    list_world list_world_ready)|by vm_compute]; try (by vm_compute). by left.
Defined.

Lemma lrem_exact_witness :
  exists w', Dispatch default_options 2 [lit "LREM"; lit "l"; print_signed (-2); lit "a"] list_world =
    Done tt w' /\ here w' !! lit "l" = Some (mkEntry (ListValue [lit "a"; lit "b"; lit "c"]) 0).
Proof.
  eexists. split; [apply (lrem_exact default_options (lit "l") (-2) (lit "a") (mkEntry (ListValue sample_list) 0)
    sample_list list_world list_world_ready)|by vm_compute]; try (by vm_compute). by left.
Defined.

Lemma smembers_exact_witness :
  exists l w', Dispatch default_options 2 [lit "SMEMBERS"; lit "s"] set_world = Done tt w' /\
    w_out w' = AppendBulkArray (w_out set_world) l /\ l = [lit "x"; lit "y"].
Proof.
  destruct (smembers_exact default_options (lit "s") (mkEntry (SetValue {[lit "x"; lit "y"]}) 0)
    {[lit "x"; lit "y"]} set_world) as (l & E & El & _).
  - split; vm_compute; [done|lia|done].
  - by vm_compute.
  - done.
  - exists l. eexists. split_and!; [exact E|done|]. rewrite El. by vm_compute.
Defined.

Lemma keys_exact_witness :
  exists w', Dispatch default_options 2 [lit "KEYS"; lit "k?"] keys_world = Done tt w' /\
    w_out w' = AppendBulkArray (w_out keys_world) [lit "k1"; lit "k2"] /\ size (here w') = 2%nat.
Proof.
  destruct (keys_exact default_options (lit "k?") 1700000010000 keys_world) as (w' & E & Ho & Ht & _).
  - split; vm_compute; [done|lia|done].
  - assert (Forall (fun m => map_Forall (fun _ e => expired (now_at m) e = expired 1700000010000 e)
      (here keys_world)) (seq (w_tick keys_world) (2 + size (here keys_world)))) as H
      by (apply (bool_decide_unpack _); by vm_compute).
    rewrite Forall_forall in H. intros m k e Hm He. apply (H m) with (i := k); [|done].
    apply elem_of_seq. lia.
  - exists w'. split_and!; [exact E|rewrite Ho; by vm_compute|rewrite Ht; by vm_compute].
Defined.
