(* ===== verification/ZsetSpecs.v ===== *)
(** * What the sorted set commands do

    ZADD and ZRANGE as a client sends them, against a dictionary of scores and the
    sequence of its pairs in order; the skip list with its random levels is
    behind the interface of [SkipListRefine.v]. *)

From S2P Require Import Prelude Bytes Resp Double SkipList SkipListInv SkipListProofs SkipListRefine Db DbProofs DbRefine Rdb.
From S2P Require Import RdbProofs RdbFile ZsetProofs FloatText Exec ExecLogic StringCmds KeyCmds HashCmds ListCmds SetCmds.
From S2P Require Import ZsetCmds ServerCmds Dispatch CommandSafety HandlerSafety DispatchProofs Samples CommandSpecs.
Local Open Scope Z_scope.

(** ** The reference *)

(** A score given to a member; an equal score leaves the stored one. *)
Definition ref_score (d : gmap bytes double) (p : double * bytes) : gmap bytes double :=
  match d !! p.2 with
  | Some s0 => if deq s0 p.1 then d else <[p.2 := p.1]> d
  | None => <[p.2 := p.1]> d
  end.
Definition ref_zadd (d : gmap bytes double) (ps : list (double * bytes)) : gmap bytes double := foldl ref_score d ps.

(** An argument of ZADD: the text of the score, its value, the member. *)
Abbreviation item := (bytes * double * bytes)%type.
Definition numeral (p : item) : Prop := ParseDoubleStrict p.1.1 = Some p.1.2 /\ isnan p.1.2 = false.
Definition words (ps : list item) : list bytes := concat (map (fun p => [p.1.1; p.2]) ps).
Definition scored (ps : list item) : list (double * bytes) := map (fun p => (p.1.2, p.2)) ps.

Definition plain_zadd : ZaddOpts := mkZadd false false false false.

Lemma pairs_of_words ps : pairs_of (words ps) = map (fun p => (p.1.1, Some p.2)) ps.
Proof. unfold words. induction ps as [|p ps IH]; [done|]. cbn. by rewrite IH. Qed.

Lemma words_length ps : zlen (words ps) = 2 * zlen ps.
Proof. unfold zlen, words. induction ps as [|p ps IH]; [done|]. cbn in *. lia. Qed.

(** ** The world with one sorted set changed *)

Record updated (idx : nat) (key : bytes) (z : ZSetValue) (x : Z) (w w' : World) : Prop := mkUpdated {
  up_here : table (w_db w') idx = <[key := mkEntry (ZSet z) x]> (table (w_db w) idx);
  up_other : forall j, j <> idx -> table (w_db w') j = table (w_db w) j;
  up_len : length (dbs_ (w_db w')) = length (dbs_ (w_db w));
  up_cs : w_cs w' = w_cs w;
  up_out : w_out w' = w_out w
}.

Lemma updated_trans idx key z z' x w1 w2 w3 :
  updated idx key z x w1 w2 -> updated idx key z' x w2 w3 -> updated idx key z' x w1 w3.
Proof.
  intros [] []. split; [|intros j Hj|congruence..].
  - by rewrite up_here1, up_here0, insert_insert_eq.
  - by rewrite up_other1, up_other0.
Qed.

Lemma updated_self idx key z x w : table (w_db w) idx !! key = Some (mkEntry (ZSet z) x) -> updated idx key z x w w.
Proof. intros H. split; try done. by rewrite insert_id. Qed.

Lemma updated_at idx key z x w w' : updated idx key z x w w' -> table (w_db w') idx !! key = Some (mkEntry (ZSet z) x).
Proof. intros []. by rewrite up_here0, lookup_insert_eq. Qed.

Section zset.
Context `{O : Oracle} (idx : nat) (key : bytes) (x : Z).
Implicit Types (w : World) (z : ZSetValue) (ks : list (double * bytes)).

Lemma deref_run z w :
  table (w_db w) idx !! key = Some (mkEntry (ZSet z) x) -> deref ZSetValue idx key w = Done z w.
Proof. intros H. unfold deref, mbind, M_bind, gets. by rewrite H. Qed.

Lemma zset_store_run z z' w :
  (idx < length (dbs_ (w_db w)))%nat -> table (w_db w) idx !! key = Some (mkEntry (ZSet z) x) ->
  exists w', store idx key z' w = Done tt w' /\ updated idx key z' x w w'.
Proof.
  intros Hi H. rewrite (store_run idx key _ z' w H). eexists. split; [done|]. split; try done.
  - cbn. unfold table. cbn. by rewrite list_lookup_insert_eq.
  - intros j Hj. cbn. by apply table_set_table_ne.
  - cbn. by rewrite length_insert.
Qed.

(** A new or different score for [m]. *)
Lemma zset_put_run z ks m sc w :
  (idx < length (dbs_ (w_db w)))%nat -> table (w_db w) idx !! key = Some (mkEntry (ZSet z) x) ->
  zset_ok wf z ks -> isnan sc = false -> zlen ks + 1 < U64 - 1 ->
  exists w' z' ks', zset_put idx key m (dict z !! m) sc w = Done tt w' /\ updated idx key z' x w w' /\
    zset_ok wf z' ks' /\ dict z' = <[m := sc]> (dict z) /\ zlen ks' <= zlen ks + 1.
Proof.
  intros Hi Ht Hz Hn Hroom. unfold zset_put. rewrite (bind_run _ _ _ _ _ (deref_run _ _ Ht)).
  assert (exists sl1 ks1, (match dict z !! m with
      | Some o => r ← from_option_ub UbSkipList (Erase (sl z) o m); mret r.2
      | None => mret (sl z) end) w = Done sl1 w /\
    zset_ok wf (mkZSet sl1 (delete m (dict z))) ks1 /\ zlen ks1 <= zlen ks) as (sl1 & ks1 & E1 & Hz1 & Hl1).
  { destruct (dict z !! m) as [o|] eqn:Eo.
    - destruct (zset_erase_ok wf z ks m o Hz Eo) as (sl1 & ks1 & E & Hz1 & Hp). exists sl1, ks1.
      rewrite E. split_and!; [done|done|]. unfold zlen. rewrite Hp. cbn. lia.
    - exists (sl z), ks. rewrite delete_id by done. split_and!; [done|by destruct z|done]. }
  rewrite (bind_run _ _ _ _ _ E1). erewrite bind_run by done.
  destruct (zset_insert_ok wf (libc_random (w_tick w)) _ ks1 m sc Hz1) as (b & sl2 & ks2 & E2 & Hz2 & Hl2);
    [apply lookup_delete_eq|done|lia|].
  cbn [sl] in E2. rewrite E2. erewrite bind_run by done. cbn [dict] in Hz2. rewrite insert_delete_eq in Hz2.
  destruct (zset_store_run z (mkZSet sl2 (<[m := sc]> (dict z))) (next_tick w)) as (w' & E & []); [done|done|].
  exists w', (mkZSet sl2 (<[m := sc]> (dict z))), ks2. split_and!; [done| |done|done|lia]. by split.
Qed.

(** What the loop of ZADD leaves: the dictionary [d'], with the members that were
    not there before counted. *)
Definition zadd_post (z : ZSetValue) (d' : gmap bytes double) (w : World) (added : Z) (r : Outcome ZaddEnd) : Prop :=
  exists changed w' z' ks',
    r = Done (ZCounts (added + Z.of_nat (size d') - Z.of_nat (size (dict z))) changed) w' /\
    updated idx key z' x w w' /\ zset_ok wf z' ks' /\ dict z' = d'.

Lemma zadd_post_put z w1 z1 w m sc d' added k r :
  updated idx key z1 x w w1 -> dict z1 = <[m := sc]> (dict z) ->
  k = (if dict z !! m is Some _ then 0 else 1) -> zadd_post z1 d' w1 (added + k) r -> zadd_post z d' w added r.
Proof.
  intros U1 Hd1 Hk (c' & w' & z' & ks' & -> & U' & Hz' & Hd'). exists c', w', z', ks'.
  split_and!; [|by eapply updated_trans|done|done]. do 2 f_equal. rewrite Hd1. destruct (dict z !! m) eqn:E; subst k.
  - rewrite map_size_insert_Some by done. lia.
  - rewrite map_size_insert_None by done. lia.
Qed.

(** The loop of ZADD without options. *)
Lemma zadd_loop_run ps : forall z ks w added changed,
  (idx < length (dbs_ (w_db w)))%nat -> table (w_db w) idx !! key = Some (mkEntry (ZSet z) x) ->
  zset_ok wf z ks -> Forall numeral ps -> zlen ks + zlen ps < U64 - 1 ->
  zadd_post z (ref_zadd (dict z) (scored ps)) w added
    (zadd_loop idx key plain_zadd (map (fun p => (p.1.1, Some p.2)) ps) added changed w).
Proof.
  induction ps as [|p ps IH]; intros z ks w added changed Hi Ht Hz Hps Hroom.
  { exists changed, w, z, ks. split_and!; [|by apply updated_self|done|done]. cbn. do 2 f_equal. lia. }
  apply Forall_cons in Hps as [[Hp Hn] Hps]. cbn [map zadd_loop]. rewrite Hp, Hn. erewrite bind_run by done.
  rewrite (bind_run _ _ _ _ _ (deref_run _ _ Ht)). cbv zeta. cbn [z_incr z_nx z_xx plain_zadd andb].
  pose proof (zlen_nonneg ps) as Hps0. rewrite zlen_cons in Hroom. cbn [scored map ref_zadd foldl].
  assert (Hput : forall k, k = (if dict z !! p.2 is Some _ then 0 else 1) ->
    zadd_post z (ref_zadd (<[p.2 := p.1.2]> (dict z)) (scored ps)) w added
      ((zset_put idx key p.2 (dict z !! p.2) p.1.2 ≫= fun _ =>
        zadd_loop idx key plain_zadd (map (fun p => (p.1.1, Some p.2)) ps) (added + k) (changed + 1)) w)).
  { intros k Hk. destruct (zset_put_run z ks p.2 p.1.2 w Hi Ht Hz Hn ltac:(lia)) as (w1 & z1 & ks1 & E1 & U1 & Hz1 & Hd1 & Hl1).
    rewrite (bind_run _ _ _ _ _ E1). eapply zadd_post_put; [exact U1|exact Hd1|exact Hk|]. rewrite <- Hd1.
    apply (IH z1 ks1); [by rewrite (up_len _ _ _ _ _ _ U1)|by apply (updated_at _ _ _ _ w)|done|done|lia]. }
  unfold ref_score at 2. cbn [fst snd]. destruct (dict z !! p.2) as [s0|] eqn:Eo; cbn [negb andb].
  - destruct (deq s0 p.1.2); [apply (IH z ks); try done; lia|].
    specialize (Hput 0 eq_refl). by rewrite Z.add_0_r in Hput.
  - by apply Hput.
Qed.
End zset.

(** ** The commands *)

(** The key holds the sorted set [z] with the pairs [ks] and the deadline [x], or
    nothing, which is the empty set. *)
Definition holds_zset `{O : Oracle} (w : World) (key : bytes) (z : ZSetValue) (ks : list (double * bytes)) (x : Z) : Prop :=
  zset_ok wf z ks /\
  match found w (db_index (w_cs w)) key with
  | Some e => e = mkEntry (ZSet z) x
  | None => z = mkZSet empty_list ∅ /\ x = 0
  end.

(** The deadline, if any, is not reached. *)
Definition lasting `{O : Oracle} (x : Z) : Prop := x = 0 \/ forall n, now_at n < x.

Section zset_commands.
Context `{O : Oracle} (opts : ServerOptions).
Implicit Types (w : World) (key : bytes).

Lemma lasting_live x v n : lasting x -> expired (now_at n) (mkEntry v x) = false.
Proof.
  unfold expired. cbn. intros [->|H]; [done|]. specialize (H n). by replace (x <=? now_at n) with false by lia; rewrite andb_false_r.
Qed.

Lemma ZSetCreate_run key z ks x w :
  ready w -> lasting x -> holds_zset w key z ks x ->
  exists w', ZSetCreate (db_index (w_cs w)) key w = Done (Some z) w' /\ updated (db_index (w_cs w)) key z x w w'.
Proof.
  intros [Hl Hi _] Hx [Hz H]. set (idx := db_index (w_cs w)) in *. unfold ZSetCreate, get_or_create.
  assert (Hi' : (idx < length (dbs_ (w_db w)))%nat) by lia. destruct (found w idx key) as [e|] eqn:Ef.
  - subst e. rewrite (bind_run _ _ _ _ _ (lookup_live _ _ _ _ Hi' Ef)). eexists. split; [done|].
    apply found_table in Ef. split; try done. cbn. by rewrite insert_id.
  - destruct H as [-> ->]. rewrite (bind_run _ _ _ _ _ (lookup_run _ _ _ Hi')), Ef.
    set (w1 := with_db _ (next_tick w)).
    assert (H1 : length (dbs_ (w_db w1)) = kNumDatabases) by (cbn; by rewrite Lookup_len).
    erewrite bind_run; [|apply set_run; lia]. set (w2 := with_db _ w1).
    assert (found w2 idx key = Some (mkEntry (ZSet (mkZSet empty_list ∅)) 0)) as Ef2.
    { cbn [w2 w_db with_db]. rewrite live_lookup, table_Set by (done || lia). rewrite decide_True by done.
      rewrite lookup_insert_eq. by rewrite lasting_live. }
    assert (Hi2 : (idx < length (dbs_ (w_db w2)))%nat) by (cbn [w2 w_db with_db]; rewrite Set_len; lia).
    rewrite (bind_run _ _ _ _ _ (lookup_live _ _ _ _ Hi2 Ef2)). eexists. split; [done|].
    assert (Hw2 : forall j, table (w_db w2) j =
      if decide (j = idx) then <[key := mkEntry (ZSet (mkZSet empty_list ∅)) 0]> (table (w_db w1) idx) else table (w_db w1) j).
    { intros j. cbn [w2 w_db with_db]. by rewrite table_Set by (done || lia). }
    split; cbn [w_db w_cs w_out next_tick]; [|intros j Hj| |done|done].
    + rewrite Hw2, decide_True by done. apply map_eq. intros k.
      destruct (decide (k = key)) as [->|Hk]; [by rewrite !lookup_insert_eq|]. rewrite !lookup_insert_ne by done.
      apply Lookup_other; [done|done|by right].
    + rewrite Hw2, decide_False by done. apply map_eq. intros k. apply Lookup_other; [done|done|by left].
    + cbn [w2 w_db with_db]. by rewrite Set_len, H1.
Qed.

Lemma zadd_run key z ks x ps w :
  let d' := ref_zadd (dict z) (scored ps) in
  ready w -> ungated opts w -> lasting x -> holds_zset w key z ks x -> ps <> [] -> Forall numeral ps ->
  zadd_options (words ps) plain_zadd = (plain_zadd, words ps) -> zlen ks + zlen ps < U64 - 1 ->
  exists w' z' ks', Dispatch opts 2 (lit "ZADD" :: key :: words ps) w =
      Done tt (with_out (AppendIntReply (w_out w) (Z.of_nat (size d') - Z.of_nat (size (dict z)))) w') /\
    updated (db_index (w_cs w)) key z' x w w' /\ zset_ok wf z' ks' /\ dict z' = d'.
Proof.
  intros d' Hr Hg Hx Hz Hne Hps Hopt Hroom. pose proof (words_length ps) as Hw.
  assert (0 < zlen ps) as Hpos by (destruct ps; [done|]; rewrite zlen_cons; pose proof (zlen_nonneg ps); lia).
  rewrite (dispatch_run opts "ZADD" _ (cmd_ZADD (ToLower (lit "ZADD")))); try done; [| |by right].
  2: { unfold ArityOk. change (assoc (lit "ZADD") ArityTable) with (Some (4, -1)). cbv iota.
       rewrite !zlen_cons, Hw. by destruct (Z.ltb_spec (1 + (1 + 2 * zlen ps)) 4); [lia|]. }
  unfold cmd_ZADD. cbn [drop]. rewrite drop_0. change (mkZadd false false false false) with plain_zadd. rewrite Hopt.
  cbn [z_nx z_xx z_incr z_ch plain_zadd andb]. rewrite Hw.
  replace (2 * zlen ps =? 0) with false by lia.
  replace (2 * zlen ps mod 2 =? 0) with true by (rewrite Z.mul_comm, Z.mod_mul by lia; done). cbn [negb orb].
  do 2 (erewrite bind_run by done).
  destruct (ZSetCreate_run key z ks x w Hr Hx Hz) as (w1 & E1 & U1). rewrite (bind_run _ _ _ _ _ E1).
  rewrite pairs_of_words.
  destruct (zadd_loop_run (db_index (w_cs w)) key x ps z ks w1 0 0) as (c & w2 & z' & ks' & E2 & U2 & Hz' & Hd').
  - rewrite (up_len _ _ _ _ _ _ U1). destruct Hr. lia.
  - by apply (updated_at _ _ _ _ w).
  - apply Hz.
  - done.
  - done.
  - rewrite (bind_run _ _ _ _ _ E2). exists w2, z', ks'. pose proof (updated_trans _ _ _ _ _ _ _ _ U1 U2) as U.
    split_and!; [|done|done|done]. unfold reply_int, reply. cbn [modify]. unfold modify. do 2 f_equal.
    by rewrite (up_out _ _ _ _ _ _ U).
Qed.

Lemma for_each_bulk {A} (f : A -> bytes) (l : list A) w :
  for_each (fun a => reply_bulk (f a)) l w = Done tt (with_out (fold_left AppendBulkReply (map f l) (w_out w)) w).
Proof.
  revert w. induction l as [|a l IH]; intros w; [by destruct w|]. cbn [for_each map fold_left].
  erewrite bind_run by done. by rewrite IH.
Qed.

Lemma zrange_run key z ks x start stop w :
  ready w -> in_i64 start = true -> in_i64 stop = true ->
  found w (db_index (w_cs w)) key = Some (mkEntry (ZSet z) x) -> zset_ok wf z ks ->
  Dispatch opts 2 [lit "ZRANGE"; key; print_signed start; print_signed stop] w =
  Done tt (with_out (AppendBulkArray (w_out w) (ref_slice start stop ks).*2) (next_tick w)).
Proof.
  intros Hr Ha Hb Hf [Hz _]. rewrite (dispatch_run opts "ZRANGE" _ (cmd_ZRANGE true)); try done; [|by left].
  assert (Hi : (db_index (w_cs w) < length (dbs_ (w_db w)))%nat) by (destruct Hr; lia).
  unfold cmd_ZRANGE. do 2 (erewrite bind_run by done). erewrite bind_run; [|by eapply GetTyped_live]. cbv iota beta.
  erewrite bind_run by done. rewrite ParseIntStrict_print, Ha. erewrite bind_run by done. rewrite ParseIntStrict_print, Hb.
  cbn [drop zrange_options negb]. rewrite (zi_range_by_rank _ _ start stop false Hz). erewrite bind_run by done.
  unfold AppendScoredPairs. case_bool_decide as He; [by rewrite He|]. cbn [negb]. erewrite bind_run by done.
  rewrite for_each_bulk. unfold AppendBulkArray, zlen. by rewrite length_fmap.
Qed.

(** C9: ZADD and ZRANGE implement an ordered dictionary.  ZADD of any pairs of
    numbers and members to a sorted set, or to a key that is not there, replies how
    many members are new; a ZRANGE after it, with any two 64-bit indices, replies
    the members of the updated dictionary between the two positions of its pairs
    ordered by score and then by name, whatever the random levels were.  A member
    given twice gets its last score, an equal score leaves the stored one, and
    every other key of every key space is as before. *)
Theorem zadd_zrange key z ks x ps start stop w :
  let d' := ref_zadd (dict z) (scored ps) in
  ready w -> ungated opts w -> lasting x -> holds_zset w key z ks x -> ps <> [] -> Forall numeral ps ->
  zadd_options (words ps) plain_zadd = (plain_zadd, words ps) -> zlen ks + zlen ps < U64 - 1 ->
  in_i64 start = true -> in_i64 stop = true ->
  exists w' ks',
    (Dispatch opts 2 (lit "ZADD" :: key :: words ps) ≫= fun _ =>
     Dispatch opts 2 [lit "ZRANGE"; key; print_signed start; print_signed stop]) w = Done tt w' /\
    sorted ks' /\ (fun k => (k.2, k.1)) <$> ks' ≡ₚ map_to_list d' /\
    w_out w' = AppendBulkArray (AppendIntReply (w_out w) (Z.of_nat (size d') - Z.of_nat (size (dict z))))
                 (ref_slice start stop ks').*2 /\
    forall j k, j <> db_index (w_cs w) \/ k <> key -> table (w_db w') j !! k = table (w_db w) j !! k.
Proof.
  intros d' Hr Hg Hx Hz Hne Hps Hopt Hroom Ha Hb.
  destruct (zadd_run key z ks x ps w Hr Hg Hx Hz Hne Hps Hopt Hroom) as (w1 & z' & ks' & E1 & U & Hz' & Hd').
  rewrite (bind_run _ _ _ _ _ E1). set (w2 := with_out _ w1). destruct U as [Uh Uo Ul Uc Uout].
  assert (Hr2 : ready w2) by (destruct Hr; split; cbn; congruence).
  rewrite (zrange_run key z' ks' x start stop w2); try done.
  - eexists _, ks'. split_and!; [done|by eapply zi_sorted, Hz'|unfold d'; rewrite <- Hd'; apply Hz'|done|].
    intros j k Hjk. cbn [w2 w_db with_out next_tick]. destruct (decide (j = db_index (w_cs w))) as [->|Hj]; [|by rewrite Uo].
    rewrite Uh, lookup_insert_ne; [done|]. destruct Hjk; congruence.
  - cbn [w2 w_cs w_db with_out w_tick]. rewrite Uc, live_lookup, Uh, lookup_insert_eq. by rewrite lasting_live.
Qed.
End zset_commands.

#[local] Existing Instance ticking.
#[local] Existing Instance ticking_laws.

(** The second score of [b] replaces the first. *)
Definition sample_items : list item :=
  [(lit "2", double_of_Z 2, lit "b"); (lit "1", double_of_Z 1, lit "c"); (lit "-1e0", double_of_Z (-1), lit "b");
   (lit "1", double_of_Z 1, lit "a")].

Lemma zadd_zrange_witness :
  exists w', (Dispatch default_options 2 (lit "ZADD" :: lit "z" :: words sample_items) ≫= fun _ =>
     Dispatch default_options 2 [lit "ZRANGE"; lit "z"; print_signed 0; print_signed (-1)]) start_world = Done tt w' /\
    w_out w' = AppendBulkArray (AppendIntReply [] 3) [lit "b"; lit "a"; lit "c"].
Proof.
  destruct (zadd_zrange default_options (lit "z") (mkZSet empty_list ∅) [] 0 sample_items 0 (-1) start_world)
    as (w' & ks' & E & _).
  - split; vm_compute; [done|lia|done].
  - by left.
  - by left.
  - split; [apply zset_empty_ok, _|by vm_compute].
  - done.
  - repeat (apply Forall_cons; split); [split; by vm_compute..|done].
  - by vm_compute.
  - by vm_compute.
  - done.
  - done.
  - exists w'. split; [exact E|]. vm_compute in E. injection E as <-. by vm_compute.
Defined.
