(* ===== verification/Findings.v ===== *)
(** * Where the server does not do what it says

    Behaviours of the commands that contradict a comment, the documentation or
    the evident intent of the code: two general facts and a set of short
    sessions, each with the reply the client reads. *)

From S2P Require Import Prelude Bytes Resp RespProofs Double SkipList Db DbProofs Rdb RdbFile FloatText Exec StringCmds.
From S2P Require Import KeyCmds GlobProofs HashCmds ListCmds SetCmds ZsetCmds ServerCmds Dispatch Samples CommandSpecs.
Local Open Scope Z_scope.

(** What an outcome says of the world it leaves; [None] if there is none. *)
Definition of_world {A B} (f : World -> B) (r : Outcome A) : option B :=
  match r with Done _ w => Some (f w) | Undef _ => None end.

(** The reply text of a session on a fresh server. *)
Definition session `{O : Oracle} (cs : list (list string)) : option bytes := of_world w_out (run cs start_world).

Definition lines (l : list string) : bytes := concat (map (fun x => lit x ++ crlf) l).

(** ** INFO *)

Lemma lower_no_capital d c : In c (lit "SCMPRK") -> lower_char d <> c.
Proof.
  assert (H : forallb (fun d => forallb (fun c => negb (bool_decide (lower_char (ascii_of_nat d) = c))) (lit "SCMPRK"))
    (seq 0 256) = true) by by vm_compute.
  intros Hc. rewrite forallb_forall in H. specialize (H (nat_of_ascii d)).
  rewrite ascii_nat_embedding in H. rewrite forallb_forall in H. intros E.
  specialize (H ltac:(apply in_seq; pose proof (nat_ascii_bounded d); lia) c Hc).
  by rewrite bool_decide_eq_true_2 in H.
Qed.

Lemma ToLower_no_capital c r s : In c (lit "SCMPRK") -> ToLower s <> c :: r.
Proof.
  intros Hc. destruct s as [|d s]; [done|]. intros E. injection E as E _. by apply (lower_no_capital d c).
Qed.

(** INFO with the name of a section is empty.  The argument is lowered
    before it is compared with the capitalised names, so no section is ever
    selected by name: for every argument other than the empty string, "all" and
    "default", in any case, the text is empty. *)
Lemma info_by_name_is_empty db opts stats rdb uptime a :
  ToLower a <> [] -> ToLower a <> lit "all" -> ToLower a <> lit "default" ->
  BuildInfo db opts stats rdb uptime (ToLower a) = [].
Proof.
  intros H1 H2 H3. unfold BuildInfo. rewrite !(bool_decide_eq_false_2 (ToLower a = [])) by done.
  rewrite !(bool_decide_eq_false_2 (ToLower a = lit "all")) by done.
  rewrite !(bool_decide_eq_false_2 (ToLower a = lit "default")) by done. cbn [orb].
  rewrite !bool_decide_eq_false_2; [done|apply ToLower_no_capital; cbn; tauto..].
Qed.

(** ** Memory *)

Section memory.
Context `{O : Oracle} (opts : ServerOptions).

(** C33: In-place updates escape the memory accounting.  APPEND to a live string
    stores the longer text and replies its length, but the figure the memory
    gate and INFO use stays what it was, however much is appended; so the limit
    can be passed without bound. *)
Theorem append_not_accounted key a e s w :
  ready w -> ungated opts w -> found w (db_index (w_cs w)) key = Some e -> value e = RawString s ->
  exists w',
    Dispatch opts 2 [lit "APPEND"; key; a] w = Done tt w' /\
    w_out w' = AppendIntReply (w_out w) (zlen (s ++ a)) /\
    here w' !! key = Some (mkEntry (RawString (s ++ a)) (expires_at_ms e)) /\
    used_memory (w_db w') = used_memory (w_db w).
Proof.
  intros Hr Hg Hf Hv. rewrite (dispatch_run opts "APPEND" _ cmd_APPEND); try done; [|by right].
  assert (Hi : (db_index (w_cs w) < length (dbs_ (w_db w)))%nat) by (destruct Hr; lia).
  unfold cmd_APPEND. erewrite bind_run by done. erewrite bind_run by done.
  erewrite bind_run.
  2: { unfold GetOrCreateStringEntry, get_or_create.
       by rewrite (bind_run _ _ _ _ _ (lookup_live _ _ _ _ Hi Hf)), Hv. }
  cbn [proj string_prism]. erewrite bind_run by done.
  erewrite bind_run; [|apply store_run; exact (found_table _ _ _ _ Hf)].
  eexists. split_and!; [done|done| |done]. unfold here. cbn [w_cs w_db with_out with_table with_db next_tick].
  destruct Hr. rewrite table_set_table by done. by rewrite lookup_insert_eq.
Qed.
End memory.

#[local] Existing Instance ticking.

Lemma append_not_accounted_witness :
  exists w', Dispatch default_options 2 [lit "APPEND"; lit "n"; lit "000000000000"] counter_world = Done tt w' /\
    here w' !! lit "n" = Some (mkEntry (RawString (lit "41000000000000")) 0) /\
    used_memory (w_db w') = used_memory (w_db counter_world).
Proof.
  destruct (append_not_accounted default_options (lit "n") (lit "000000000000")
    (mkEntry (RawString (lit "41")) 0) (lit "41") counter_world) as (w' & E & _ & Ht & Hu).
  - split; vm_compute; [done|lia|done].
  - by left.
  - by vm_compute.
  - done.
  - exists w'. split; [exact E|]. split; [rewrite Ht; reflexivity|exact Hu].
Defined.

(** ** Text of doubles *)

(** C39: Comments that promise something else.  For the smallest positive double
    [FormatDouble] prints fifteen digits where one is enough, not the shortest
    text that reads back; of the two requests that the comment of
    [TryParseMultiBulk] calls empty commands, the one with a negative count is a
    protocol error; the pattern that matches every string does not match the
    string star-a, because a star in the text is compared literally first; and
    INFO with the name of a section is empty, whatever the section and the state
    of the server, because the name is lowered before it is compared with the
    capitalised ones. *)
Theorem text_anomalies :
  (exists d, ParseDoubleStrict (lit "5e-324") = Some d /\ FormatDouble d = lit "4.94065645841247e-324" /\
     ParseDoubleStrict (FormatDouble d) = Some d) /\
  (Feed (lit "*0" ++ crlf) (mkParser [] []) = Some ([[]], mkParser [] []) /\
   Feed (lit "*-1" ++ crlf) (mkParser [] []) = Some ([], mkParser (lit "*-1" ++ crlf) err_multibulk_len)) /\
  (GlobMatch (lit "*") (lit "*a") = false /\ forall s, matches (lit "*") s) /\
  forall db opts stats rdb uptime name,
    name ∈ map lit ["Server"; "Clients"; "Memory"; "Persistence"; "Stats"; "Replication"; "Keyspace"]%string ->
    BuildInfo db opts stats rdb uptime (ToLower name) = [].
Proof.
  split_and!; [|by vm_compute..|apply glob_star_is_consumed|].
  - eexists. split; [by vm_compute|]. split; by vm_compute.
  - intros db opts stats rdb uptime name Hn%list_elem_of_In. cbn in Hn.
    apply info_by_name_is_empty; repeat (destruct Hn as [<-|Hn]; [by vm_compute|]); done.
Qed.

(** ** Sessions *)

(** Command lines and the lines of the replies to all of them. *)
Definition anomalies : list (list (list string) * list string) := [
  (* ZADD NX INCR of a new member replies null and does not add it *)
  ([["ZADD"; "z"; "NX"; "INCR"; "1"; "m"]; ["ZCARD"; "z"]], ["$-1"; ":0"]);
  (* SDIFF of a missing first key replies the second set *)
  ([["SADD"; "b"; "x"]; ["SDIFF"; "a"; "b"]], [":1"; "*1"; "$1"; "x"]);
  (* a list that was emptied still exists *)
  ([["RPUSH"; "l"; "a"]; ["LPOP"; "l"]; ["EXISTS"; "l"]], [":1"; "$1"; "a"; ":1"]);
  (* a deadline of zero makes the key last for ever *)
  ([["SET"; "k"; "v"]; ["EXPIREAT"; "k"; "0"]; ["TTL"; "k"]], ["+OK"; ":1"; ":-1"]);
  (* DEL counts a key whose deadline has passed, EXISTS does not *)
  ([["SET"; "k"; "v"; "PX"; "1"]; ["DEL"; "k"]; ["SET"; "k"; "v"; "PX"; "1"]; ["EXISTS"; "k"]],
   ["+OK"; ":1"; "+OK"; ":0"]);
  (* SHUTDOWN leaves the array that EXEC announced without its element *)
  ([["MULTI"]; ["SHUTDOWN"]; ["EXEC"]; ["PING"]], ["+OK"; "+QUEUED"; "*1"; "+PONG"]);
  (* SCAN with COUNT drops keys and says that it is complete *)
  ([["MSET"; "a"; "1"; "b"; "2"; "c"; "3"]; ["SCAN"; "0"; "COUNT"; "1"]],
   ["+OK"; "*2"; "$1"; "0"; "*1"; "$1"; "c"]);
  (* a failed INCRBYFLOAT leaves an empty string behind *)
  ([["INCRBYFLOAT"; "k"; "x"]; ["EXISTS"; "k"]], ["-ERR value is not a valid float"; ":1"])
]%string.

(** The limit of the command line, in bytes. *)
Definition limited : ServerOptions := mkOptions 6379 (lit "127.0.0.1") (lit ".") (lit "dump.rdb") 10 16.

