(* ===== verification/Transactions.v ===== *)
(** * Transactions run like the commands themselves

    Commands only append to the reply buffer and never look at it ([framed]), so
    a run can be moved behind other replies.  With that, MULTI, a list of
    commands and EXEC are equivalent to the commands sent one by one. *)

From S2P Require Import Prelude Bytes Resp Double SkipList Db Rdb RdbFile FloatText Exec ExecLogic StringCmds.
From S2P Require Import KeyCmds HashCmds ListCmds SetCmds ZsetCmds ServerCmds Dispatch CommandSafety.
From S2P Require Import HandlerSafety DispatchProofs Samples.
Local Open Scope Z_scope.

(** ** Moving a run behind other replies *)

Definition pre (p : bytes) (w : World) : World := with_out (p ++ w_out w) w.

Definition map_world {A} (f : World -> World) (r : Outcome A) : Outcome A :=
  match r with Done a w => Done a (f w) | Undef u => Undef u end.

Definition framed {A} (m : M A) : Prop := forall p w, m (pre p w) = map_world (pre p) (m w).

Lemma framed_ret {A} (a : A) : framed (mret a).
Proof. done. Qed.
Lemma framed_undef {A} u : framed (undef (A := A) u).
Proof. done. Qed.
Lemma framed_bind {A C} (m : M A) (f : A -> M C) : framed m -> (forall a, framed (f a)) -> framed (m ≫= f).
Proof.
  intros Hm Hf p w. unfold mbind, M_bind. rewrite Hm. destruct (m w) as [a w'|]; [|done]. apply Hf.
Qed.
Lemma framed_gets {A} (f : World -> A) : (forall p w, f (pre p w) = f w) -> framed (gets f).
Proof. intros Hf p w. unfold gets. cbn. by rewrite Hf. Qed.
Lemma framed_modify f : (forall p w, f (pre p w) = pre p (f w)) -> framed (modify f).
Proof. intros Hf p w. unfold modify. cbn. by rewrite Hf. Qed.
Lemma framed_tick : framed tick.
Proof. done. Qed.
Lemma framed_reply f : (forall p o, f (p ++ o) = p ++ f o) -> framed (reply f).
Proof. intros Hf. apply framed_modify. intros p w. unfold pre. cbn. by rewrite Hf. Qed.
Lemma framed_for_each {A} (f : A -> M unit) l : (forall x, framed (f x)) -> framed (for_each f l).
Proof. intros Hf. induction l; simpl; [done|]. by apply framed_bind. Qed.
Lemma framed_fold_m {A C} (f : C -> A -> M C) l c : (forall c x, framed (f c x)) -> framed (fold_m f c l).
Proof. intros Hf. revert c. induction l; intros c; simpl; [done|]. by apply framed_bind. Qed.

Lemma AppendBulkArray_frame l p o : AppendBulkArray (p ++ o) l = p ++ AppendBulkArray o l.
Proof.
  unfold AppendBulkArray, AppendArrayReply. rewrite <- app_assoc.
  generalize (o ++ "*"%char :: print_signed (zlen l) ++ crlf). induction l as [|x l IH]; intros o'; [done|].
  simpl. unfold AppendBulkReply at 2 4. by rewrite <- app_assoc, IH.
Qed.

Create HintDb framed.

Ltac fr_step :=
  lazymatch goal with
  | |- framed (mbind _ _) => apply framed_bind; [|intros ?]
  | |- framed (mret _) => apply framed_ret
  | |- framed (undef _) => apply framed_undef
  | |- framed (gets _) => apply framed_gets; reflexivity
  | |- framed (modify _) => apply framed_modify; reflexivity
  | |- framed tick => apply framed_tick
  | |- framed (reply _) =>
      apply framed_reply; intros ? ?;
      first [apply AppendBulkArray_frame | symmetry; apply app_assoc | apply eq_sym, app_assoc]
  | |- framed (for_each _ _) => apply framed_for_each; intros ?
  | |- framed (fold_m _ _ _) => apply framed_fold_m; intros ? ?
  | |- framed (match ?x with _ => _ end) => destruct x
  | |- framed ?m => first [solve [eauto with framed] | let h := head_of m in progress unfold h]
  end; cbv beta zeta.
Ltac fr := repeat fr_step.

Section framed_helpers.
Context `{O : Oracle}.

Lemma framed_any_exists idx keys : framed (any_exists idx keys).
Proof. induction keys; simpl; fr. Qed.
Lemma framed_scan_loop pattern count t order acc : framed (scan_loop pattern count t order acc).
Proof. revert acc. induction order; intros acc; simpl; fr. Qed.
Lemma framed_collect_sets idx op keys found : framed (collect_sets idx op keys found).
Proof. revert found. induction keys; intros found; simpl; fr. Qed.
Lemma framed_repeat_m n f : framed f -> framed (repeat_m n f).
Proof. intros Hf. induction n; simpl; fr. Qed.
Lemma framed_zadd_loop idx key o ps added changed : framed (zadd_loop idx key o ps added changed).
Proof. revert added changed. induction ps as [|[a mo] ps IH]; intros added changed; simpl; fr. Qed.
Lemma framed_zpop_loop idx key min_mode n flat : framed (zpop_loop idx key min_mode n flat).
Proof. revert flat. induction n; intros flat; simpl; fr. Qed.
End framed_helpers.
#[export] Hint Resolve framed_any_exists framed_scan_loop framed_collect_sets framed_zadd_loop framed_zpop_loop
  : framed.
#[export] Hint Extern 2 (framed (repeat_m _ _)) => apply framed_repeat_m; fr : framed.

Section transactions.
Context `{O : Oracle} (opts : ServerOptions).

Lemma plain_framed lower argv : Forall (fun x => framed (x.2 argv)) (plain_handlers opts lower).
Proof.
  unfold plain_handlers. repeat (apply Forall_cons; split; [cbn [snd]; solve [fr]|]). constructor.
Qed.

Lemma handlers_framed rec lower upper h argv :
  (forall c, framed (rec c)) -> assoc upper (handlers opts rec lower) = Some h -> framed (h argv).
Proof.
  intros Hr [(n & -> & Hin)|H]%handlers_cases.
  - pose proof (plain_framed lower argv) as Hp. rewrite Forall_forall in Hp. by apply (Hp (n, h)).
  - destruct H as [[_ ->]|[[_ ->]|[[_ ->]|[_ ->]]]]; fr.
Qed.

Lemma Dispatch_framed fuel argv : framed (Dispatch opts fuel argv).
Proof.
  revert argv. induction fuel as [|fuel IH]; intros argv; cbn [Dispatch]; [fr|].
  unfold dispatch_body. destruct argv as [|a0 rest]; [fr|]. cbv zeta.
  apply framed_bind; [fr|intros cs]. destruct (_ && _); [fr|]. do 2 (destruct (negb _); [fr|]).
  apply framed_bind; [fr|intros db]. destruct (maxmemory_blocks _ _ _); [fr|].
  destruct (assoc _ _) as [h|] eqn:E; [|fr]. by eapply handlers_framed.
Qed.

(** ** The transaction *)

Definition transaction (cs : list (list bytes)) : M unit :=
  Dispatch opts 2 [lit "MULTI"] ≫= fun _ =>
  for_each (Dispatch opts 2) cs ≫= fun _ =>
  Dispatch opts 2 [lit "EXEC"].

(** What the client sees before the replies of the commands: OK, one QUEUED for
    each of them, and the header of the array. *)
Definition transaction_header (n : nat) : bytes :=
  AppendArrayReply (Nat.iter n (fun o => AppendSimpleReply o (lit "QUEUED")) (AppendSimpleReply [] (lit "OK")))
    (Z.of_nat n).

Lemma header_frame o n :
  o ++ transaction_header n =
  AppendArrayReply (Nat.iter n (fun o => AppendSimpleReply o (lit "QUEUED")) (AppendSimpleReply o (lit "OK")))
    (Z.of_nat n).
Proof.
  unfold transaction_header, AppendArrayReply. rewrite app_assoc. f_equal.
  induction n as [|n IH]; [done|]. rewrite !Nat.iter_succ, <- IH.
  unfold AppendSimpleReply at 1 3. by rewrite app_assoc.
Qed.

Definition set_tx (b e : bool) (q : list (list bytes)) (w : World) : World :=
  with_cs (set_multi b e q (w_cs w)) w.

Lemma enqueue_step c q w :
  queued_ok c ->
  Dispatch opts 2 c (set_tx true false q w) =
  Done tt (with_out (AppendSimpleReply (w_out w) (lit "QUEUED")) (set_tx true false (q ++ [c]) w)).
Proof.
  intros Hc. destruct c as [|a0 rest]; [done|]. destruct Hc as (H1 & H2 & H3).
  cbn [Dispatch]. unfold dispatch_body, mbind, M_bind, gets. cbn [w_cs set_tx with_cs set_multi in_multi].
  rewrite H3. cbn [negb andb]. unfold enqueue. by rewrite H1, H2.
Qed.

Lemma enqueue_all cs q w :
  Forall queued_ok cs ->
  for_each (Dispatch opts 2) cs (set_tx true false q w) =
  Done tt (with_out (Nat.iter (length cs) (fun o => AppendSimpleReply o (lit "QUEUED")) (w_out w))
    (set_tx true false (q ++ cs) w)).
Proof.
  intros Hcs. revert q w. induction Hcs as [|c cs Hc Hcs IH]; intros q w.
  { simpl. rewrite app_nil_r. by destruct w. }
  cbn [for_each]. unfold mbind at 1, M_bind at 1. rewrite enqueue_step by done.
  change (with_out ?o (set_tx true false ?q' w)) with (set_tx true false q' (with_out o w)).
  rewrite IH. cbn [length w_out with_out]. rewrite <- app_assoc, Nat.iter_succ_r. done.
Qed.

Lemma exec_step q w :
  Dispatch opts 2 [lit "EXEC"] (set_tx true false q w) =
  for_each (Dispatch opts 1) q (with_out (AppendArrayReply (w_out w) (zlen q)) (set_tx false false [] w)).
Proof.
  cbn [Dispatch]. rewrite (dispatch_to opts _ _ _ (cmd_EXEC (Dispatch opts 1))); [done|done|done| |done].
  unfold maxmemory_blocks. by destruct (0 <? _).
Qed.

(** C10: A transaction is equivalent to its commands.  For a client outside a
    transaction and commands that the queueing path accepts, MULTI, the commands
    and EXEC leave exactly the world that the commands leave when they are
    dispatched one after the other (database, client, statistics, files,
    undefined behaviour included), and the client reads OK, one QUEUED per
    command, the array header, and then the replies of the commands in order. *)
Theorem transaction_runs_commands cs w :
  Forall queued_ok cs -> in_multi (w_cs w) = false ->
  transaction cs w =
  map_world (pre (w_out w ++ transaction_header (length cs)))
    (for_each (Dispatch opts 2) cs (with_out [] (set_tx false false [] w))).
Proof.
  intros Hcs Hm.
  assert (Start : Dispatch opts 2 [lit "MULTI"] w =
    Done tt (set_tx true false [] (with_out (AppendSimpleReply (w_out w) (lit "OK")) w))).
  { cbn [Dispatch]. rewrite (dispatch_to opts _ _ _ cmd_MULTI); [|by rewrite Hm|done| |done].
    - unfold cmd_MULTI, mbind, M_bind, gets. by rewrite Hm.
    - unfold maxmemory_blocks. by destruct (0 <? _). }
  unfold transaction. unfold mbind at 1, M_bind at 1. rewrite Start.
  unfold mbind at 1, M_bind at 1. rewrite enqueue_all by done. cbn [app].
  change (with_out ?o (set_tx true false ?q' ?x)) with (set_tx true false q' (with_out o x)).
  rewrite exec_step.
  rewrite (for_each_ext _ (Dispatch opts 2)).
  2: { intros c w' Hc. rewrite Forall_forall in Hcs. cbn [Dispatch].
       by apply dispatch_body_rec, queued_not_exec, Hcs. }
  rewrite <- (framed_for_each (Dispatch opts 2) cs (Dispatch_framed 2)).
  f_equal. unfold pre. cbn [w_out with_out]. rewrite app_nil_r, header_frame. done.
Qed.
End transactions.

#[local] Existing Instance ticking.

(** An increment and a push, sent in a transaction. *)
Definition sample_commands : list (list bytes) := [cmd ["INCR"; "k"]; cmd ["RPUSH"; "l"; "a"]]%string.

Lemma transaction_runs_commands_witness :
  transaction default_options sample_commands start_world =
  map_world (pre (w_out start_world ++ transaction_header (length sample_commands)))
    (for_each (Dispatch default_options 2) sample_commands (with_out [] (set_tx false false [] start_world))).
Proof.
  apply (transaction_runs_commands default_options); [by repeat constructor|done].
Defined.
