(* ===== verification/Server.v ===== *)
(** * The event loop

    Models [src/include/server.h] and [src/src/server.cpp]: the connections, the
    handlers of the reactor and the loop itself.

    Connections are objects in a heap.  [conns_] owns them by file descriptor,
    and the [udata] of a kqueue registration is a plain pointer to them, so an
    address that is no longer in the heap is a dangling pointer and using it is
    undefined behaviour.  The kernel is the environment: the results of [read],
    [write], [accept] and [kevent] are scripts that the handlers consume in order;
    a script that ends too early leaves the handler [Stalled] in its loop. *)

From S2P Require Import Prelude Bytes Resp Double SkipList Db Rdb RdbFile FloatText Exec.
From S2P Require Import StringCmds KeyCmds HashCmds ListCmds SetCmds ZsetCmds ServerCmds Dispatch.
Local Open Scope Z_scope.

(** ** State *)

(** The field [in] of the source is never used and is left out. *)
Record Connection := mkConn {
  fd : Z;
  out : bytes;
  parser : RequestParser;
  state : ClientState;
  want_write : bool
}.

Inductive Filter := EVFILT_READ | EVFILT_WRITE.

#[export] Instance filter_eq_dec : EqDecision Filter.
Proof. solve_decision. Defined.
#[export] Instance filter_countable : Countable Filter.
Proof.
  refine (inj_countable' (fun f => bool_decide (f = EVFILT_READ))
    (fun b : bool => if b then EVFILT_READ else EVFILT_WRITE) _). by intros [].
Defined.

Record Server := mkServer {
  db_ : Database;
  stats_ : ServerStats;
  rdb_ : RdbState;
  children_ : list Child;
  ticks : nat;
  quit_ : bool;
  next_client_id_ : Z;
  conns_ : gmap Z nat;                (* file descriptor to the address of the connection *)
  heap : gmap nat Connection;
  next_addr : nat;
  kq : gmap (Z * Filter) nat;         (* registrations with their udata *)
  sent : gmap nat bytes               (* what the kernel has taken from each connection *)
}.

(** ** The environment *)

Inductive ReadRes := RData (b : bytes) | RAgain | RIntr | RErr.     (* no bytes: end of file *)
Inductive WriteRes := WSent (n : nat) | WAgain | WIntr | WErr.
Inductive AcceptRes := AFd (new_fd : Z) | AAgain | AIntr | AErr.

Inductive Event :=
| EvSignal
| EvListen (accepts : list AcceptRes)
| EvNull
| EvConn (udata : nat) (filter : Filter) (reads : list ReadRes) (writes : list WriteRes).

Inductive Poll := PEvents (events : list Event) | PIntr | PFail.

Definition kReadBuf : Z := 65536.

(** ** Effects *)

Inductive Result (A : Type) := Ok (a : A) (s : Server) | Bad (why : Ub) | Stalled.
Arguments Ok {A} a s.
Arguments Bad {A} why.
Arguments Stalled {A}.

Definition SM (A : Type) : Type := Server -> Result A.
#[export] Instance SM_ret : MRet SM := fun A a s => Ok a s.
#[export] Instance SM_bind : MBind SM := fun A B f m s =>
  match m s with Ok a s' => f a s' | Bad u => Bad u | Stalled => Stalled end.

Definition ask {A} (f : Server -> A) : SM A := fun s => Ok (f s) s.
Definition update (f : Server -> Server) : SM unit := fun s => Ok tt (f s).
Definition bad {A} (u : Ub) : SM A := fun _ => Bad u.
Definition stalled {A} : SM A := fun _ => Stalled.

Definition set_stats (st : ServerStats) (s : Server) : Server :=
  mkServer (db_ s) st (rdb_ s) (children_ s) (ticks s) (quit_ s) (next_client_id_ s) (conns_ s) (heap s)
    (next_addr s) (kq s) (sent s).
Definition set_quit_ (b : bool) (s : Server) : Server :=
  mkServer (db_ s) (stats_ s) (rdb_ s) (children_ s) (ticks s) b (next_client_id_ s) (conns_ s) (heap s)
    (next_addr s) (kq s) (sent s).
Definition set_heap (h : gmap nat Connection) (s : Server) : Server :=
  mkServer (db_ s) (stats_ s) (rdb_ s) (children_ s) (ticks s) (quit_ s) (next_client_id_ s) (conns_ s) h
    (next_addr s) (kq s) (sent s).
Definition set_kq (k : gmap (Z * Filter) nat) (s : Server) : Server :=
  mkServer (db_ s) (stats_ s) (rdb_ s) (children_ s) (ticks s) (quit_ s) (next_client_id_ s) (conns_ s) (heap s)
    (next_addr s) k (sent s).
Definition set_conns (c : gmap Z nat) (s : Server) : Server :=
  mkServer (db_ s) (stats_ s) (rdb_ s) (children_ s) (ticks s) (quit_ s) (next_client_id_ s) c (heap s)
    (next_addr s) (kq s) (sent s).
Definition set_sent (m : gmap nat bytes) (s : Server) : Server :=
  mkServer (db_ s) (stats_ s) (rdb_ s) (children_ s) (ticks s) (quit_ s) (next_client_id_ s) (conns_ s) (heap s)
    (next_addr s) (kq s) m.

(** What a command sees and what it leaves. *)
Definition world_of (s : Server) (c : Connection) : World :=
  mkWorld (db_ s) (state c) (stats_ s) (rdb_ s) (children_ s) (out c) (ticks s).
Definition set_world (w : World) (s : Server) : Server :=
  mkServer (w_db w) (w_stats w) (w_rdb w) (w_children w) (w_tick w) (quit_ s) (next_client_id_ s) (conns_ s)
    (heap s) (next_addr s) (kq s) (sent s).

(** [*c] *)
Definition conn (a : nat) : SM Connection :=
  h ← ask heap; match h !! a with Some c => mret c | None => bad UbDangling end.
Definition assign (a : nat) (c : Connection) : SM unit := update (fun s => set_heap (<[a := c]> (heap s)) s).

Definition with_output (o : bytes) (c : Connection) : Connection :=
  mkConn (fd c) o (parser c) (state c) (want_write c).
Definition with_parser (p : RequestParser) (c : Connection) : Connection :=
  mkConn (fd c) (out c) p (state c) (want_write c).
Definition with_want (b : bool) (c : Connection) : Connection :=
  mkConn (fd c) (out c) (parser c) (state c) b.
Definition with_client (cs : ClientState) (o : bytes) (c : Connection) : Connection :=
  mkConn (fd c) o (parser c) cs (want_write c).

Definition map_stats (f : ServerStats -> ServerStats) : SM unit := update (fun s => set_stats (f (stats_ s)) s).

Definition clients (f : Z -> Z) (s : ServerStats) : ServerStats :=
  mkStats (total_commands s) (total_connections s) (rejected_connections s) (expired_keys s) (start_time_us s)
    (f (connected_clients s)) (shutdown_requested s) (shutdown_nosave s).
Definition one_connection (s : ServerStats) : ServerStats :=
  mkStats (total_commands s) (u64 (total_connections s + 1)) (rejected_connections s) (expired_keys s)
    (start_time_us s) (connected_clients s) (shutdown_requested s) (shutdown_nosave s).
Definition one_command (s : ServerStats) : ServerStats :=
  mkStats (u64 (total_commands s + 1)) (total_connections s) (rejected_connections s) (expired_keys s)
    (start_time_us s) (connected_clients s) (shutdown_requested s) (shutdown_nosave s).
Definition more_expired (n : Z) (s : ServerStats) : ServerStats :=
  mkStats (total_commands s) (total_connections s) (rejected_connections s) (u64 (expired_keys s + n))
    (start_time_us s) (connected_clients s) (shutdown_requested s) (shutdown_nosave s).
Definition shutdown_flags (requested nosave : bool) (s : ServerStats) : ServerStats :=
  mkStats (total_commands s) (total_connections s) (rejected_connections s) (expired_keys s) (start_time_us s)
    (connected_clients s) requested nosave.

(** ** Connections *)

Definition RequestShutdown (save : bool) : SM unit :=
  map_stats (fun st => shutdown_flags true (negb save) st) ≫= fun _ => update (set_quit_ true).

Definition EnableWrite (a : nat) (enable : bool) : SM unit :=
  c ← conn a;
  if enable && negb (want_write c) then
    update (fun s => set_kq (<[(fd c, EVFILT_WRITE) := a]> (kq s)) s) ≫= fun _ => assign a (with_want true c)
  else if negb enable && want_write c then
    update (fun s => set_kq (delete (fd c, EVFILT_WRITE) (kq s)) s) ≫= fun _ => assign a (with_want false c)
  else mret tt.

(** [close] also drops the registrations of the descriptor. *)
Definition close (f : Z) : SM unit :=
  update (fun s => set_kq (delete (f, EVFILT_READ) (delete (f, EVFILT_WRITE) (kq s))) s).

(** [conns_.erase(it)] frees the connection that the entry owns. *)
Definition erase_conn (f : Z) (owned : nat) : SM unit :=
  update (fun s => set_heap (delete owned (heap s)) (set_conns (delete f (conns_ s)) s)).

Definition CloseConn (a : nat) : SM unit :=
  c ← conn a;
  m ← ask conns_;
  match m !! fd c with
  | None => mret tt
  | Some owned =>
      (if want_write c then EnableWrite a false else mret tt) ≫= fun _ =>
      close (fd c) ≫= fun _ =>
      erase_conn (fd c) owned ≫= fun _ =>
      map_stats (fun st => if 0 <? connected_clients st then clients (fun n => n - 1) st else st)
  end.

(** Each round closes one connection; [n] bounds the rounds. *)
Fixpoint close_all (n : nat) : SM unit :=
  m ← ask conns_;
  match map_to_list m with
  | [] => mret tt
  | (_, a) :: _ => match n with O => stalled | S n => CloseConn a ≫= fun _ => close_all n end
  end.

Definition CloseAll : SM unit := n ← ask (fun s => size (conns_ s)); close_all n.

(** [conns_[fd] = std::move(conn)]: an entry that was there is replaced and what
    it owned is freed. *)
Definition add_conn (f : Z) : SM unit :=
  update (fun s =>
    let a := next_addr s in
    let c := mkConn f [] (mkParser [] []) (new_client (next_client_id_ s)) false in
    let h := match conns_ s !! f with Some old => delete old (heap s) | None => heap s end in
    mkServer (db_ s) (stats_ s) (rdb_ s) (children_ s) (ticks s) (quit_ s) (u64 (next_client_id_ s + 1))
      (<[f := a]> (conns_ s)) (<[a := c]> h) (S a) (kq s) (<[a := []]> (sent s))).

Fixpoint OnAccept (accepts : list AcceptRes) : SM unit :=
  match accepts with
  | [] => stalled
  | AAgain :: _ => mret tt
  | AIntr :: r => OnAccept r
  | AErr :: _ => mret tt
  | AFd f :: r =>
      map_stats one_connection ≫= fun _ =>
      add_conn f ≫= fun _ =>
      map_stats (clients (fun n => u64 (n + 1))) ≫= fun _ =>
      update (fun s => match conns_ s !! f with
                       | Some a => set_kq (<[(f, EVFILT_READ) := a]> (kq s)) s
                       | None => s
                       end) ≫= fun _ =>
      OnAccept r
  end.

(** ** Output *)

(** What the kernel took. *)
Definition note_sent (a : nat) (b : bytes) : SM unit :=
  update (fun s => set_sent (<[a := default [] (sent s !! a) ++ b]> (sent s)) s).

Fixpoint OnWritable (a : nat) (writes : list WriteRes) : SM unit :=
  c ← conn a;
  if bool_decide (out c = []) then EnableWrite a false
  else
    match writes with
    | [] => stalled
    | WSent (S n) :: r =>
        note_sent a (take (S n) (out c)) ≫= fun _ =>
        assign a (with_output (drop (S n) (out c)) c) ≫= fun _ => OnWritable a r
    | WAgain :: _ => EnableWrite a true
    | WIntr :: r => OnWritable a r
    | WSent O :: _ | WErr :: _ => CloseConn a
    end.

(** ** Input *)

Section handlers.
Context `{O : Oracle} (opts_ : ServerOptions).

(** [Dispatch] with the connection's client state and buffer. *)
Definition call_dispatch (a : nat) (c : Connection) (argv : list bytes) : SM unit := fun s =>
  match Dispatch opts_ 2 argv (world_of s c) with
  | Undef u => Bad u
  | Done _ w => Ok tt (set_heap (<[a := with_client (w_cs w) (w_out w) c]> (heap s)) (set_world w s))
  end.

Definition dispatch (a : nat) (argv : list bytes) : SM unit :=
  map_stats one_command ≫= fun _ => c ← conn a; call_dispatch a c argv.

(** The loop over the parsed commands; the result is [shutdown_seen]. *)
Fixpoint run_commands (a : nat) (cmds : list (list bytes)) : SM bool :=
  match cmds with
  | [] => mret false
  | argv :: r =>
      if bool_decide (argv = []) then run_commands a r
      else
        dispatch a argv ≫= fun _ =>
        c ← conn a; st ← ask stats_;
        if quit_requested (state c) then mret false
        else if shutdown_requested st then mret true
        else run_commands a r
  end.

(** What both handlers do after the commands: [true] when they return there. *)
Definition after_commands (a : nat) (shutdown_seen : bool) (writes : list WriteRes) : SM bool :=
  st ← ask stats_;
  if shutdown_requested st || shutdown_seen then
    map_stats (fun st => shutdown_flags true (shutdown_nosave st) st) ≫= fun _ =>
    update (set_quit_ true) ≫= fun _ => mret true
  else
    c ← conn a;
    if quit_requested (state c) then
      OnWritable a writes ≫= fun _ =>
      c ← conn a;
      (if want_write c then mret tt else CloseConn a) ≫= fun _ => mret true
    else mret false.

(** The reply to a protocol error, after which the connection is closed. *)
Definition protocol_error (a : nat) (writes : list WriteRes) : SM unit :=
  c ← conn a;
  assign a (with_output (AppendErrorReply (out c) (error_msg_ (parser c))) c) ≫= fun _ =>
  OnWritable a writes ≫= fun _ => CloseConn a.

Definition flush (a : nat) (writes : list WriteRes) : SM unit :=
  c ← conn a; if bool_decide (out c = []) then mret tt else OnWritable a writes.

Definition ProcessBuffered (a : nat) (writes : list WriteRes) : SM unit :=
  c ← conn a;
  match ParseBuffered (parser c) with
  | None => bad UbIndex
  | Some (cmds, p) =>
      assign a (with_parser p c) ≫= fun _ =>
      seen ← run_commands a cmds;
      returned ← after_commands a seen writes;
      if returned : bool then mret tt
      else
        c ← conn a;
        if has_error (parser c) then protocol_error a writes else flush a writes
  end.

(** The reading loop: the commands, or [None] when the handler has returned. *)
Fixpoint read_loop (a : nat) (reads : list ReadRes) (writes : list WriteRes) (parsed_cmds : list (list bytes))
    : SM (option (list (list bytes))) :=
  match reads with
  | [] => stalled
  | RData [] :: _ => CloseConn a ≫= fun _ => mret None
  | RData b :: r =>
      c ← conn a;
      match Feed b (parser c) with
      | None => bad UbIndex
      | Some (cmds, p) =>
          assign a (with_parser p c) ≫= fun _ =>
          if has_error p then protocol_error a writes ≫= fun _ => mret None
          else if zlen b <? kReadBuf then mret (Some (parsed_cmds ++ cmds))
          else read_loop a r writes (parsed_cmds ++ cmds)
      end
  | RAgain :: _ => mret (Some parsed_cmds)
  | RIntr :: r => read_loop a r writes parsed_cmds
  | RErr :: _ => CloseConn a ≫= fun _ => mret None
  end.

Definition OnReadable (a : nat) (reads : list ReadRes) (writes : list WriteRes) : SM unit :=
  cmds ← read_loop a reads writes [];
  match cmds with
  | None => mret tt
  | Some cmds =>
      seen ← run_commands a cmds;
      returned ← after_commands a seen writes;
      if returned : bool then mret tt else flush a writes
  end.

(** ** The loop *)

Definition exited (c : Child) : bool := match c_phase c with PExit _ => true | _ => false end.

(** The clock and the generator are asked once for each key space. *)
Definition PeriodicTasks : SM unit :=
  t ← ask ticks;
  db ← ask db_;
  let r := ActiveExpireCycle (iter_order t) (fun d => rng32 (t + d)) (fun d => Z.quot (clock_us (t + d)) 1000) db in
  update (fun s => mkServer r.2 (more_expired r.1 (stats_ s)) (rdb_ s)
    (filter (fun c => exited c = false) (children_ s)) (t + kNumDatabases) (quit_ s) (next_client_id_ s)
    (conns_ s) (heap s) (next_addr s) (kq s) (sent s)).

Definition handle_event (ev : Event) : SM unit :=
  match ev with
  | EvSignal => RequestShutdown true
  | EvListen accepts => OnAccept accepts
  | EvNull => mret tt
  | EvConn a f reads writes =>
      c ← conn a;
      m ← ask conns_;
      match m !! fd c with
      | None => mret tt
      | Some _ => match f with EVFILT_READ => OnReadable a reads writes | EVFILT_WRITE => OnWritable a writes end
      end
  end.

Fixpoint handle_events (evs : list Event) : SM unit :=
  match evs with
  | [] => mret tt
  | ev :: r => handle_event ev ≫= fun _ => handle_events r
  end.

(** Graceful shutdown: the snapshot, unless it was declined, and the connections. *)
Definition shut_down : SM unit :=
  st ← ask stats_;
  (if shutdown_nosave st then mret tt
   else
     t ← ask ticks; db ← ask db_; rdb ← ask rdb_;
     let '(_, rdb') := SaveToFile (iter_order t) (rdb_path opts_) db (disk t) (time_s t) rdb in
     update (fun s => mkServer (db_ s) (stats_ s) rdb' (children_ s) (S t) (quit_ s) (next_client_id_ s)
       (conns_ s) (heap s) (next_addr s) (kq s) (sent s))) ≫= fun _ =>
  CloseAll.

Fixpoint Run (polls : list Poll) : SM unit :=
  q ← ask quit_;
  if q : bool then shut_down
  else
    match polls with
    | [] => stalled
    | PIntr :: r => Run r
    | PFail :: _ => shut_down
    | PEvents evs :: r => handle_events evs ≫= fun _ => PeriodicTasks ≫= fun _ => Run r
    end.
End handlers.
