(* ===== verification/ServerInv.v ===== *)
(** * The invariant of the event loop

    The table of connections, the heap and the kqueue registrations agree, the
    counter of clients is exact, and the data behind the commands satisfies the
    invariant of the command layer.  Each operation on a connection that is still
    there keeps the invariant; what it did to the connection is stated exactly. *)

From S2P Require Import Prelude Bytes Resp Double SkipList Db DbProofs Rdb RdbFile FloatText Exec ExecLogic.
From S2P Require Import StringCmds KeyCmds HashCmds ListCmds SetCmds ZsetCmds ServerCmds Dispatch.
From S2P Require Import CommandSafety HandlerSafety DispatchProofs CommandFrame DispatchBudget Server.
Local Open Scope Z_scope.

(** ** Scripts *)

(** A failure after which the connection is closed. *)
Definition hard (x : WriteRes) : bool := match x with WErr | WSent O => true | _ => false end.
Definition soft_writes (ws : list WriteRes) : Prop := Forall (fun x => hard x = false) ws.

(** The kernel answers something that ends the loop. *)
Definition complete_writes (ws : list WriteRes) : Prop := Exists (fun x => hard x = true \/ x = WAgain) ws.
Definition complete_reads (rs : list ReadRes) : Prop :=
  Exists (fun x => match x with RData b => zlen b < kReadBuf | RAgain | RErr => True | RIntr => False end) rs.
Definition complete_accepts (acc : list AcceptRes) : Prop := Exists (fun x => x = AAgain \/ x = AErr) acc.

(** [accept] returns descriptors that are not in use. *)
Fixpoint accepts_ok (used : gset Z) (acc : list AcceptRes) : Prop :=
  match acc with
  | AFd f :: r => (0 <= f < 2 ^ 31) /\ (f ∉ used) /\ accepts_ok ({[ f ]} ∪ used) r
  | AIntr :: r => accepts_ok used r
  | _ => True
  end.

(** ** The invariant *)

(** The arguments queued by all clients. *)
Definition heap_args (h : gmap nat Connection) : Z := map_fold (fun _ c n => queue_args (state c) + n) 0 h.

Section inv.
Context (A : list bytes -> Prop).       (* what is known of every command received *)

Record client_ok (cs : ClientState) : Prop := {
  client_db : (db_index cs < kNumDatabases)%nat;
  client_queue : Forall queued_ok (multi_queue cs);
  client_known : Forall A (multi_queue cs)
}.

Record data_ok (B : Z) (s : Server) : Prop := {
  data_dbs : length (dbs_ (db_ s)) = kNumDatabases;
  data_vals : forall i k e, table (db_ s) i !! k = Some e -> entry_ok B e;
  data_bound : 0 <= B;
  data_start : 0 <= start_time_us (stats_ s) <= LLONG_MAX
}.

Record srv_ok (N : Z) (s : Server) : Prop := {
  ok_owner : forall f a, conns_ s !! f = Some a -> exists c, heap s !! a = Some c /\ fd c = f;
  ok_heap : forall a c, heap s !! a = Some c -> conns_ s !! fd c = Some a /\ (a < next_addr s)%nat;
  ok_kq : forall f k a, kq s !! (f, k) = Some a <->
    exists c, heap s !! a = Some c /\ fd c = f /\ (k = EVFILT_WRITE -> want_write c = true);
  ok_fds : forall f a, conns_ s !! f = Some a -> 0 <= f < 2 ^ 31;
  ok_count : connected_clients (stats_ s) = Z.of_nat (size (conns_ s));
  ok_clients : forall a c, heap s !! a = Some c -> client_ok (state c);
  ok_data : exists B, data_ok B s /\ B + heap_args (heap s) <= N
}.
End inv.

(** ** The queued arguments *)

Lemma heap_args_empty : heap_args ∅ = 0.
Proof. apply map_fold_empty. Qed.

Lemma heap_args_new h a c : h !! a = None -> heap_args (<[a := c]> h) = queue_args (state c) + heap_args h.
Proof. intros Ha. unfold heap_args. rewrite map_fold_insert_L; [done| |done]. intros. lia. Qed.

Lemma heap_args_delete h a c : h !! a = Some c -> heap_args (delete a h) = heap_args h - queue_args (state c).
Proof.
  intros Ha. rewrite <- (insert_delete_id h a c Ha) at 2. rewrite heap_args_new by apply lookup_delete_eq. lia.
Qed.

Lemma heap_args_replace h a c c' :
  h !! a = Some c -> heap_args (<[a := c']> h) = heap_args h - queue_args (state c) + queue_args (state c').
Proof.
  intros Ha. rewrite <- insert_delete_eq. rewrite heap_args_new by apply lookup_delete_eq.
  rewrite (heap_args_delete _ _ _ Ha). lia.
Qed.

Lemma heap_args_nonneg h : 0 <= heap_args h.
Proof.
  induction h as [|a c h Ha IH] using map_ind; [by rewrite heap_args_empty|].
  rewrite heap_args_new by done. pose proof (args_of_nonneg (multi_queue (state c))). unfold queue_args. lia.
Qed.

(** Descriptors are integers of the C type, so there are fewer than 2^31 + 1. *)
Lemma few_conns (m : gmap Z nat) : (forall f a, m !! f = Some a -> 0 <= f < 2 ^ 31) -> Z.of_nat (size m) <= 2 ^ 31.
Proof.
  intros Hf. rewrite <- size_dom.
  assert (dom m ⊆ list_to_set (seqZ 0 (2 ^ 31))) as Hsub.
  { intros f [a Ha]%elem_of_dom. apply elem_of_list_to_set, elem_of_seqZ. specialize (Hf _ _ Ha). lia. }
  apply subseteq_size in Hsub. rewrite size_list_to_set in Hsub by apply NoDup_seqZ.
  rewrite length_seqZ in Hsub. lia.
Qed.

(** ** Running *)

Lemma sbind_run {A B} (m : SM A) (f : A -> SM B) s a s' : m s = Ok a s' -> (m ≫= f) s = f a s'.
Proof. intros E. unfold mbind, SM_bind. by rewrite E. Qed.

Lemma conn_run a c s : heap s !! a = Some c -> conn a s = Ok c s.
Proof. intros Hc. unfold conn, mbind, SM_bind, ask. by rewrite Hc. Qed.

(** Nothing but connections, registrations and what was sent has changed. *)
Record same_rest (s s' : Server) : Prop := {
  same_db : db_ s' = db_ s;
  same_rdb : rdb_ s' = rdb_ s;
  same_children : children_ s' = children_ s;
  same_ticks : ticks s' = ticks s;
  same_quit : quit_ s' = quit_ s;
  same_next : next_addr s' = next_addr s;
  same_id : next_client_id_ s' = next_client_id_ s;
  same_stats : clients (fun _ => 0) (stats_ s') = clients (fun _ => 0) (stats_ s)
}.

#[export] Instance same_rest_refl : Reflexive same_rest.
Proof. by split. Qed.
#[export] Instance same_rest_trans : Transitive same_rest.
Proof. intros s1 s2 s3 [] []. split; congruence. Qed.

(** The counter of clients is all that can differ. *)
Lemma clients_eq f st st' :
  clients (fun _ => 0) st' = clients (fun _ => 0) st -> connected_clients st' = f (connected_clients st) ->
  st' = clients f st.
Proof. destruct st, st'. unfold clients. cbn. intros [= -> -> -> -> -> -> ->] ->. done. Qed.

Lemma same_rest_stats s s' :
  same_rest s s' -> connected_clients (stats_ s') = connected_clients (stats_ s) -> stats_ s' = stats_ s.
Proof. intros Hr E. rewrite (clients_eq (fun n => n) _ _ (same_stats _ _ Hr) E). by destruct (stats_ s). Qed.

(** ** Operations on one connection *)

Section ops.
Context (A : list bytes -> Prop).
Implicit Types (s : Server) (a : nat) (c : Connection).

Lemma data_ok_mono B B' s : B <= B' -> data_ok B s -> data_ok B' s.
Proof.
  intros HB []. split; try done; [|lia]. intros i k e He. destruct (data_vals0 i k e He) as [Hv Hx].
  split; [by eapply value_ok_mono|done].
Qed.

Lemma srv_ok_mono N N' s : N <= N' -> srv_ok A N s -> srv_ok A N' s.
Proof. intros HN []. destruct ok_data0 as (B & HB & HN'). split; try done. exists B. split; [done|lia]. Qed.

(** A connection may change its buffers and its parser. *)
Lemma ok_assign N s a c c' :
  srv_ok A N s -> heap s !! a = Some c -> fd c' = fd c -> want_write c' = want_write c -> state c' = state c ->
  srv_ok A N (set_heap (<[a := c']> (heap s)) s).
Proof.
  intros [] Hc Hfd Hw Hs. split; cbn.
  - intros f b Hb. destruct (ok_owner0 _ _ Hb) as (d & Hd & <-). destruct (decide (b = a)) as [->|Hne].
    + exists c'. rewrite lookup_insert_eq. split; [done|]. congruence.
    + exists d. by rewrite lookup_insert_ne.
  - intros b d [[<- <-]|[Hne Hd]]%lookup_insert_Some; [rewrite Hfd|]; by apply ok_heap0.
  - intros f k b. rewrite ok_kq0. split; intros (d & Hd & Hf & Hk).
    + destruct (decide (b = a)) as [->|Hne].
      * exists c'. rewrite lookup_insert_eq. assert (d = c) as -> by congruence. split_and!; [done|congruence|].
        rewrite Hw. done.
      * exists d. by rewrite lookup_insert_ne.
    + apply lookup_insert_Some in Hd as [[<- <-]|[Hne Hd]].
      * exists c. split_and!; [done|congruence|]. by rewrite <- Hw.
      * by exists d.
  - done.
  - done.
  - intros b d [[<- <-]|[Hne Hd]]%lookup_insert_Some; [rewrite Hs|]; by eapply ok_clients0.
  - destruct ok_data0 as (B & [] & HN). exists B. split; [by split|].
    rewrite (heap_args_replace _ _ _ _ Hc), Hs. lia.
Qed.

Lemma ok_fd_inj N s a b c d :
  srv_ok A N s -> heap s !! a = Some c -> heap s !! b = Some d -> fd c = fd d -> a = b.
Proof. intros H Ha Hb E. destruct (ok_heap _ _ _ H _ _ Ha), (ok_heap _ _ _ H _ _ Hb). congruence. Qed.

(** A connection changes its interest in writing together with the registration. *)
Lemma ok_want N s a c en k' :
  srv_ok A N s -> heap s !! a = Some c ->
  (forall f k b, k' !! (f, k) = Some b <-> if decide ((f, k) = (fd c, EVFILT_WRITE)) then en = true /\ b = a
    else kq s !! (f, k) = Some b) ->
  srv_ok A N (set_heap (<[a := with_want en c]> (heap s)) (set_kq k' s)).
Proof.
  intros H Hc Hk'. pose proof H as [].
  assert (Hins : forall b d, <[a := with_want en c]> (heap s) !! b = Some d ->
    (b = a /\ d = with_want en c) \/ (b <> a /\ heap s !! b = Some d)).
  { intros b d [[<- <-]|[Hne Hd]]%lookup_insert_Some; eauto. }
  split; cbn; try done.
  - intros f b Hb. destruct (ok_owner0 _ _ Hb) as (d & Hd & <-). destruct (decide (b = a)) as [->|Hne].
    + exists (with_want en c). rewrite lookup_insert_eq. split; [done|]. cbn. congruence.
    + exists d. by rewrite lookup_insert_ne.
  - intros b d [[-> ->]|[_ Hd]]%Hins; [exact (ok_heap0 a c Hc)|by apply ok_heap0].
  - intros f k b. rewrite Hk'. case_decide as E.
    + injection E as -> ->. split.
      * intros [-> ->]. exists (with_want true c). rewrite lookup_insert_eq. done.
      * intros (d & [[-> ->]|[Hne Hd]]%Hins & Hf & Hw); [cbn in Hw; auto|].
        exfalso. apply Hne. by eapply ok_fd_inj.
    + rewrite ok_kq0. split; intros (d & Hd & Hf & Hw).
      * destruct (decide (b = a)) as [->|Hne]; [|exists d; by rewrite lookup_insert_ne].
        exists (with_want en c). rewrite lookup_insert_eq. assert (d = c) as -> by congruence.
        split_and!; [done|done|]. intros ->. by rewrite Hf in E.
      * apply Hins in Hd as [[-> ->]|[Hne Hd]]; [|by exists d]. exists c. split_and!; [done|done|].
        intros ->. cbn in Hf. by rewrite Hf in E.
  - intros b d [[-> ->]|[_ Hd]]%Hins; [exact (ok_clients0 a c Hc)|by eapply ok_clients0].
  - destruct ok_data0 as (B & [] & HN). exists B. split; [by split|].
    rewrite (heap_args_replace _ _ _ _ Hc). cbn. lia.
Qed.

Lemma EnableWrite_ok N s a c en :
  srv_ok A N s -> heap s !! a = Some c ->
  exists s', EnableWrite a en s = Ok tt s' /\ srv_ok A N s' /\ same_rest s s' /\ stats_ s' = stats_ s /\
    sent s' = sent s /\ conns_ s' = conns_ s /\ heap s' = <[a := with_want en c]> (heap s).
Proof.
  intros H Hc. unfold EnableWrite. rewrite (sbind_run _ _ _ _ _ (conn_run _ _ _ Hc)).
  assert (Hsame : want_write c = en -> heap s = <[a := with_want en c]> (heap s)).
  { intros <-. symmetry. apply insert_id. rewrite Hc. by destruct c. }
  destruct en, (want_write c) eqn:Ew; cbn [andb negb].
  1, 4: exists s; split_and!; [done|done|done|done|done|done|by apply Hsame].
  - eexists. split; [done|]. split_and!; [|done..]. apply (ok_want N s a c); [done|done|]. intros f k b.
    case_decide as E; [rewrite E, lookup_insert_eq; naive_solver|by rewrite lookup_insert_ne].
  - eexists. split; [done|]. split_and!; [|done..]. apply (ok_want N s a c); [done|done|]. intros f k b.
    case_decide as E; [rewrite E, lookup_delete_eq; naive_solver|by rewrite lookup_delete_ne].
Qed.

(** A connection leaves. *)
Lemma ok_remove N s a c :
  srv_ok A N s -> heap s !! a = Some c ->
  srv_ok A N (set_stats (clients (fun n => n - 1) (stats_ s))
    (set_heap (delete a (heap s)) (set_conns (delete (fd c) (conns_ s))
      (set_kq (delete (fd c, EVFILT_READ) (delete (fd c, EVFILT_WRITE) (kq s))) s)))).
Proof.
  intros H Hc. pose proof H as []. destruct (ok_heap0 _ _ Hc) as [Hconn _].
  assert (Hdel : forall b d, delete a (heap s) !! b = Some d <-> b <> a /\ heap s !! b = Some d).
  { intros b d. rewrite lookup_delete_Some. naive_solver. }
  split; cbn.
  - intros f b [Hf Hb]%lookup_delete_Some. destruct (ok_owner0 _ _ Hb) as (d & Hd & <-). exists d.
    split; [|done]. apply Hdel. split; [|done]. intros ->. congruence.
  - intros b d [Hne Hd]%Hdel. destruct (ok_heap0 _ _ Hd) as [Hb Hlt]. split; [|done].
    apply lookup_delete_Some. split; [|done]. intros E. apply Hne. by eapply ok_fd_inj.
  - intros f k b. rewrite !lookup_delete_Some. rewrite ok_kq0. split.
    + intros (H1 & H2 & d & Hd & <- & Hw). exists d. rewrite Hdel. split_and!; try done.
      intros ->. assert (d = c) as -> by congruence. destruct k; naive_solver.
    + intros (d & [Hne Hd]%Hdel & <- & Hw). split_and!; [| |by exists d];
        intros [= E]; apply Hne; by eapply (ok_fd_inj N s b a d c).
  - intros f b [_ Hb]%lookup_delete_Some. by eapply ok_fds0.
  - rewrite ok_count0, <- (insert_delete_id (conns_ s) (fd c) a Hconn) at 1.
    rewrite map_size_insert_None by apply lookup_delete_eq. lia.
  - intros b d [_ Hd]%Hdel. by eapply ok_clients0.
  - destruct ok_data0 as (B & [] & HN). exists B. split; [by split|].
    rewrite (heap_args_delete _ _ _ Hc). pose proof (args_of_nonneg (multi_queue (state c))).
    unfold queue_args. lia.
Qed.

Lemma CloseConn_ok N s a c :
  srv_ok A N s -> heap s !! a = Some c ->
  exists s', CloseConn a s = Ok tt s' /\ srv_ok A N s' /\ same_rest s s' /\ sent s' = sent s /\
    heap s' = delete a (heap s) /\ conns_ s' = delete (fd c) (conns_ s).
Proof.
  intros H Hc. unfold CloseConn. rewrite (sbind_run _ _ _ _ _ (conn_run _ _ _ Hc)).
  destruct (ok_heap _ _ _ H _ _ Hc) as [Hconn _]. erewrite sbind_run by done. rewrite Hconn.
  assert (exists s1 c1, (if want_write c then EnableWrite a false else mret tt) s = Ok tt s1 /\ srv_ok A N s1 /\
    same_rest s s1 /\ stats_ s1 = stats_ s /\ sent s1 = sent s /\ conns_ s1 = conns_ s /\
    heap s1 !! a = Some c1 /\ fd c1 = fd c /\ delete a (heap s1) = delete a (heap s))
    as (s1 & c1 & E1 & H1 & Hr & Hst & Hse & Hco & Hc1 & Hfd & Hdel).
  { destruct (want_write c); [|by exists s, c].
    destruct (EnableWrite_ok N s a c false H Hc) as (s1 & E & H1 & Hr & Hst & Hse & Hco & Hh).
    exists s1, (with_want false c). rewrite Hh, lookup_insert_eq, delete_insert_eq. done. }
  rewrite (sbind_run _ _ _ _ _ E1). unfold mbind, SM_bind.
  pose proof (ok_remove N s1 a c1 H1 Hc1) as Hrem. rewrite Hfd in Hrem.
  assert (0 <? connected_clients (stats_ s1) = true) as Hpos.
  { rewrite (ok_count _ _ _ H1), Hco. assert (size (conns_ s) <> 0%nat); [|lia].
    rewrite map_size_non_empty_iff. intros E. by rewrite E in Hconn. }
  eexists. split; [unfold close, erase_conn, map_stats, update; cbn; by rewrite Hpos|].
  split; [exact Hrem|]. cbn. split_and!; [|done..|by rewrite Hco].
  destruct Hr. by split.
Qed.
End ops.
