(* ===== verification/ServerSafety.v ===== *)
(** * The handlers of the event loop are safe

    Each handler keeps the invariant of [ServerInv.v].  Undefined behaviour needs
    a faulty command, a write that fails while the connection is used again, or
    two events for one connection in a batch; without these there is none, and
    the loop ends with every connection closed. *)

From S2P Require Import Prelude Bytes Resp RespProofs Double SkipList Db DbProofs DbRefine Rdb RdbFile FloatText.
From S2P Require Import Exec ExecLogic StringCmds KeyCmds HashCmds ListCmds SetCmds ZsetCmds ServerCmds Dispatch.
From S2P Require Import CommandSafety HandlerSafety DispatchProofs CommandFrame DispatchBudget Server ServerInv.
Local Open Scope Z_scope.

(** What left a connection: sent to the kernel or still buffered. *)
Definition sent_of (s : Server) (a : nat) : bytes := default [] (sent s !! a).

(** ** Writing *)

Section writing.
Context (A : list bytes -> Prop).
Implicit Types (s : Server) (a : nat) (c : Connection).

(** The connection after writing: some bytes moved from the buffer to the kernel,
    and the server waits for the socket exactly if some are left. *)
Record written s a c s' c' : Prop := {
  wr_heap : heap s' = <[a := c']> (heap s);
  wr_conns : conns_ s' = conns_ s;
  wr_fd : fd c' = fd c;
  wr_state : state c' = state c;
  wr_parser : parser c' = parser c;
  wr_bytes : sent_of s' a ++ out c' = sent_of s a ++ out c;
  wr_left : (length (out c') <= length (out c))%nat;
  wr_others : forall b, b <> a -> sent_of s' b = sent_of s b;
  wr_want : want_write c' = negb (bool_decide (out c' = []))
}.

(** What [OnWritable] may end in. *)
Definition write_post N ws s a c (r : Result unit) : Prop :=
  match r with
  | Ok _ s' =>
      srv_ok A N s' /\ same_rest s s' /\
      ((exists c', written s a c s' c') \/
       (~ soft_writes ws /\ heap s' = delete a (heap s) /\ conns_ s' = delete (fd c) (conns_ s)))
  | Bad _ => False
  | Stalled => ~ complete_writes ws
  end.

Lemma ok_sent N s m : srv_ok A N s -> srv_ok A N (set_sent m s).
Proof.
  intros H. destruct (ok_data _ _ _ H) as (B & [] & HN). destruct H. split; try done. exists B. by split.
Qed.

Lemma write_enable N ws s a c en :
  srv_ok A N s -> heap s !! a = Some c -> en = negb (bool_decide (out c = [])) ->
  write_post N ws s a c (EnableWrite a en s).
Proof.
  intros H Hc He. destruct (EnableWrite_ok A N s a c en H Hc) as (s' & -> & H' & Hr & _ & Hse & Hco & Hh).
  split_and!; [done|done|]. left. exists (with_want en c). split; try done; unfold sent_of; by rewrite Hse.
Qed.

Lemma write_close N x ws s a c :
  srv_ok A N s -> heap s !! a = Some c -> hard x = true -> write_post N (x :: ws) s a c (CloseConn a s).
Proof.
  intros H Hc Hx. destruct (CloseConn_ok A N s a c H Hc) as (s' & -> & H' & Hr & Hse & Hh & Hco).
  split_and!; [done|done|]. right. split_and!; [|done|done]. intros [? _]%Forall_cons. congruence.
Qed.

(** The loop goes on after an answer that does not end it ... *)
Lemma write_skip N x ws s a c r :
  hard x = false -> x <> WAgain -> write_post N ws s a c r -> write_post N (x :: ws) s a c r.
Proof.
  intros Hx1 Hx2. destruct r as [? s'|u|]; cbn [write_post]; [|done|].
  - intros (H' & Hr' & [?|(Hns & Hh & Hco)]); split_and!; [done|done|by left|done|done|right].
    split_and!; [by intros [_ ?]%Forall_cons|done|done].
  - intros Hn [[?|?]|?]%Exists_cons; [congruence|done|done].
Qed.

(** ... and after [n] bytes were taken. *)
Lemma write_more N ws s a c n s1 c1 r :
  heap s !! a = Some c -> c1 = with_output (drop n (out c)) c ->
  s1 = set_heap (<[a := c1]> (heap s)) (set_sent (<[a := sent_of s a ++ take n (out c)]> (sent s)) s) ->
  write_post N ws s1 a c1 r -> write_post N ws s a c r.
Proof.
  intros Hc -> ->. destruct r as [? s'|u|]; cbn [write_post]; [|done|done].
  intros (H' & Hr' & Hcase). split_and!; [done|destruct Hr'; by split|].
  destruct Hcase as [(c' & [])|(Hns & Hh & Hco)]; [left; exists c'|right].
  - split; try done.
    + rewrite wr_heap0. cbn. by rewrite insert_insert_eq.
    + rewrite wr_bytes0. unfold sent_of at 1. cbn. rewrite lookup_insert_eq. cbn. by rewrite <- app_assoc, take_drop.
    + cbn in wr_left0. rewrite length_drop in wr_left0. lia.
    + intros b Hb. rewrite wr_others0 by done. unfold sent_of. cbn. by rewrite lookup_insert_ne.
  - split_and!; [done|rewrite Hh; cbn; by rewrite delete_insert_eq|done].
Qed.

Lemma OnWritable_ok N ws s a c :
  srv_ok A N s -> heap s !! a = Some c -> write_post N ws s a c (OnWritable a ws s).
Proof.
  revert s c. induction ws as [|x ws IH]; intros s c H Hc; cbn [OnWritable];
    rewrite (sbind_run _ _ _ _ _ (conn_run _ _ _ Hc)); case_bool_decide as Eo;
    [apply write_enable; [done|done|by rewrite bool_decide_eq_true_2]|by intros ?%Exists_nil|
     apply write_enable; [done|done|by rewrite bool_decide_eq_true_2]|].
  destruct x as [[|n]| | |].
  - by apply write_close.
  - apply write_skip; [done|done|]. eapply (write_more N ws s a c (S n)); [done|done|done|]. apply IH.
    + apply (ok_assign A N (set_sent _ s) a c); try done. by apply ok_sent.
    + cbn. by rewrite lookup_insert_eq.
  - apply write_enable; [done|done|by rewrite bool_decide_eq_false_2].
  - apply write_skip; [done|done|]. by apply IH.
  - by apply write_close.
Qed.

(** The kernel takes a byte before it asks to wait. *)
Fixpoint takes (ws : list WriteRes) : bool :=
  match ws with WIntr :: r => takes r | WSent (S _) :: _ => true | _ => false end.

(** What a writable event leaves when the kernel takes something. *)
Definition drained N s a c (r : Result unit) : Prop :=
  exists s' c', r = Ok tt s' /\ srv_ok A N s' /\ same_rest s s' /\ written s a c s' c' /\
    (length (out c') <= pred (length (out c)))%nat.

Lemma OnWritable_idle N ws s a c :
  srv_ok A N s -> heap s !! a = Some c -> out c = [] -> drained N s a c (OnWritable a ws s).
Proof.
  intros H Hc Eo. pose proof (write_enable N [] s a c false H Hc) as W. rewrite Eo in W. specialize (W eq_refl).
  assert (OnWritable a ws s = EnableWrite a false s) as ->.
  { destruct ws; cbn [OnWritable]; rewrite (sbind_run _ _ _ _ _ (conn_run _ _ _ Hc)), Eo; done. }
  destruct (EnableWrite_ok A N s a c false H Hc) as (s' & E & _). rewrite E in *.
  destruct W as (H' & Hr & [(c' & W)|(Hn & _)]); [|by destruct Hn; constructor]. exists s', c'. split_and!; try done.
  destruct W. rewrite Eo in *. cbn in *. lia.
Qed.

Lemma OnWritable_takes N ws s a c :
  srv_ok A N s -> heap s !! a = Some c -> soft_writes ws -> complete_writes ws -> takes ws = true ->
  drained N s a c (OnWritable a ws s).
Proof.
  intros H Hc.
  destruct (decide (out c = [])) as [Eo|Eo]; [intros _ _ _; by apply OnWritable_idle|].
  induction ws as [|x ws IH]; [done|]. intros Hs Hw Ht. apply Forall_cons in Hs as [Hx Hs].
  destruct x as [[|n]| | |]; try done; cbn [OnWritable]; rewrite (sbind_run _ _ _ _ _ (conn_run _ _ _ Hc));
    rewrite bool_decide_eq_false_2 by done.
  - set (c1 := with_output (drop (S n) (out c)) c).
    set (s1 := set_heap (<[a := c1]> (heap s)) (set_sent (<[a := sent_of s a ++ take (S n) (out c)]> (sent s)) s)).
    change (drained N s a c (OnWritable a ws s1)).
    assert (write_post N ws s1 a c1 (OnWritable a ws s1)) as W1.
    { apply OnWritable_ok; [|cbn; by rewrite lookup_insert_eq].
      apply (ok_assign A N (set_sent _ s) a c); try done. by apply ok_sent. }
    pose proof (write_more N ws s a c (S n) s1 c1 _ Hc eq_refl eq_refl W1) as W.
    destruct (OnWritable a ws s1) as [[] s'|u|]; [|done|].
    2: { exfalso. apply W. by apply Exists_cons in Hw as [[?|?]|?]. }
    destruct W1 as (H' & _ & [(c' & W1)|(Hn & _)]); [|done]. destruct W as (_ & Hr & [(c2 & W)|(Hn & _)]); [|done].
    assert (c2 = c') as ->.
    { pose proof (wr_heap _ _ _ _ _ W) as E. rewrite (wr_heap _ _ _ _ _ W1) in E.
      apply (f_equal (fun h => h !! a)) in E. rewrite !lookup_insert_eq in E. by injection E. }
    exists s', c'. split_and!; try done. pose proof (wr_left _ _ _ _ _ W1) as Hl. cbn in Hl. rewrite length_drop in Hl. lia.
  - apply IH; [done| |done]. by apply Exists_cons in Hw as [[?|?]|?].
Qed.
End writing.

(** ** Accepting *)

Section accepting.
Context (A : list bytes -> Prop).
Implicit Types (s : Server) (a : nat) (c : Connection).

(** The state after one new connection. *)
Definition accepted s (f : Z) : Server :=
  let a := next_addr s in
  let c := mkConn f [] (mkParser [] []) (new_client (next_client_id_ s)) false in
  mkServer (db_ s) (clients (fun n => n + 1) (one_connection (stats_ s))) (rdb_ s) (children_ s) (ticks s) (quit_ s)
    (u64 (next_client_id_ s + 1)) (<[f := a]> (conns_ s)) (<[a := c]> (heap s)) (S a)
    (<[(f, EVFILT_READ) := a]> (kq s)) (<[a := []]> (sent s)).

Lemma accepted_ok N s f : srv_ok A N s -> 0 <= f < 2 ^ 31 -> conns_ s !! f = None -> srv_ok A N (accepted s f).
Proof.
  intros H Hf Hnew. destruct (ok_data _ _ _ H) as (B & [] & HN). destruct H as [Hown Hheap Hkq Hfds Hcount Hcl _].
  assert (Hfresh : heap s !! next_addr s = None).
  { destruct (heap s !! next_addr s) as [c|] eqn:E; [|done]. destruct (Hheap _ _ E) as [_ ?]. lia. }
  unfold accepted. set (a := next_addr s) in *. set (c := mkConn f _ _ _ _).
  assert (Hfd : forall b d, heap s !! b = Some d -> fd d <> f).
  { intros b d Hd E. destruct (Hheap _ _ Hd) as [Hb _]. congruence. }
  split; cbn.
  - intros g b [[<- <-]|[Hne Hb]]%lookup_insert_Some; [exists c; by rewrite lookup_insert_eq|].
    destruct (Hown _ _ Hb) as (d & Hd & Hg). exists d. rewrite lookup_insert_ne; [done|congruence].
  - intros b d [[<- <-]|[Hne Hd]]%lookup_insert_Some; [cbn; rewrite lookup_insert_eq; split; [done|lia]|].
    destruct (Hheap _ _ Hd) as [Hb Hlt]. rewrite lookup_insert_ne by (by apply not_eq_sym, (Hfd b)). split; [done|lia].
  - intros g k b. rewrite lookup_insert_Some, Hkq. split.
    + intros [[E <-]|[Hne (d & Hd & Hg & Hw)]].
      * injection E as <- <-. exists c. by rewrite lookup_insert_eq.
      * exists d. rewrite lookup_insert_ne; [done|congruence].
    + intros (d & [[<- <-]|[Hne Hd]]%lookup_insert_Some & Hg & Hw).
      * left. split; [|done]. destruct k; [by rewrite <- Hg|by specialize (Hw eq_refl)].
      * right. split; [|by exists d]. intros E. injection E as -> _. by apply (Hfd b d).
  - intros g b [[<- _]|[_ Hb]]%lookup_insert_Some; [done|by eapply Hfds].
  - rewrite Hcount, map_size_insert_None by done. lia.
  - intros b d [[_ <-]|[_ Hd]]%lookup_insert_Some; [|by eapply Hcl].
    split; cbn; [unfold kNumDatabases; lia|constructor|constructor].
  - exists B. split; [by split|]. rewrite heap_args_new by done. cbn. unfold queue_args. cbn. lia.
Qed.

Lemma OnAccept_step N f acc s :
  srv_ok A N s -> conns_ s !! f = None -> OnAccept (AFd f :: acc) s = OnAccept acc (accepted s f).
Proof.
  intros H Hnew. cbn [OnAccept]. unfold map_stats, add_conn, update, mbind, SM_bind. cbv beta iota.
  cbn [conns_ set_stats stats_]. rewrite lookup_insert_eq. cbn [conns_ set_stats]. rewrite Hnew.
  f_equal. unfold accepted, set_kq, set_stats, clients, one_connection. cbn. rewrite (u64_small (connected_clients (stats_ s) + 1)); [done|].
  rewrite (ok_count _ _ _ H). pose proof (few_conns _ (ok_fds _ _ _ H)). unfold U64. lia.
Qed.

Lemma OnAccept_ok N acc s :
  srv_ok A N s -> accepts_ok (dom (conns_ s)) acc ->
  match OnAccept acc s with
  | Ok _ s' => srv_ok A N s' /\ (forall a c, heap s !! a = Some c -> heap s' !! a = Some c)
  | Bad _ => False
  | Stalled => ~ complete_accepts acc
  end.
Proof.
  revert s. induction acc as [|x acc IH]; intros s H Hacc; [by intros ?%Exists_nil|].
  destruct x as [f| | |]; [|done| |done].
  - destruct Hacc as (Hf & Hnew%not_elem_of_dom & Hacc). rewrite (OnAccept_step N) by done.
    specialize (IH (accepted s f) (accepted_ok N s f H Hf Hnew)).
    unfold accepted in IH at 1. cbn [conns_] in IH. rewrite dom_insert_L in IH. specialize (IH Hacc).
    destruct (OnAccept acc (accepted s f)) as [? s'|u|]; [|done|].
    + destruct IH as [H' Hh]. split; [done|]. intros b c Hc. apply Hh. cbn. rewrite lookup_insert_ne; [done|].
      destruct (ok_heap _ _ _ H _ _ Hc). lia.
    + intros [[?|?]|?]%Exists_cons; done.
  - specialize (IH s H Hacc). cbn [OnAccept]. destruct (OnAccept acc s); [done|done|].
    intros [[?|?]|?]%Exists_cons; done.
Qed.
End accepting.

(** ** Commands *)

Section commands.
Context `{O : Oracle} `{!OracleLaws O} (opts : ServerOptions).
Hypothesis Hdbs : num_databases opts <= Z.of_nat kNumDatabases.
Context (A : list bytes -> Prop).
Implicit Types (s : Server) (a : nat) (c : Connection) (argv : list bytes).

(** Undefined behaviour that the fault table lists for a command received. *)
Definition faulty (u : Ub) : Prop := exists argv, A argv /\ ub_in u (command_faults argv) = true.

(** The connection after commands: the socket and the parser are as before. *)
Record served s a c s' c' : Prop := {
  sv_heap : heap s' = <[a := c']> (heap s);
  sv_conns : conns_ s' = conns_ s;
  sv_sent : sent s' = sent s;
  sv_quit : quit_ s' = quit_ s;
  sv_next : next_addr s' = next_addr s;
  sv_id : next_client_id_ s' = next_client_id_ s;
  sv_fd : fd c' = fd c;
  sv_parser : parser c' = parser c;
  sv_want : want_write c' = want_write c
}.

Lemma served_trans s a c s1 c1 s2 c2 : served s a c s1 c1 -> served s1 a c1 s2 c2 -> served s a c s2 c2.
Proof.
  intros [] []. split; try congruence. by rewrite sv_heap1, sv_heap0, insert_insert_eq.
Qed.

Lemma world_within N s a c :
  srv_ok A N s -> heap s !! a = Some c ->
  within A (N - (heap_args (heap s) - queue_args (state c))) (out c) (world_of s c).
Proof.
  intros H Hc. destruct (ok_data _ _ _ H) as (B & [] & HN), (ok_clients _ _ _ H _ _ Hc). exists B. split_and!.
  - split; [|done]. by split.
  - cbn. lia.
  - done.
Qed.

Lemma heap_args_ge (h : gmap nat Connection) a c : h !! a = Some c -> queue_args (state c) <= heap_args h.
Proof. intros Hc. pose proof (heap_args_nonneg (delete a h)) as Hd. rewrite (heap_args_delete _ _ _ Hc) in Hd. lia. Qed.

(** The server around the world a command left. *)
Lemma ok_world N n s a c w :
  srv_ok A N s -> heap s !! a = Some c -> keeps_server true (world_of s c) w ->
  within A (N - (heap_args (heap s) - queue_args (state c)) + n) (out c) w ->
  srv_ok A (N + n) (set_heap (<[a := with_client (w_cs w) (w_out w) c]> (heap s)) (set_world w s)).
Proof.
  intros H Hc [] (B & [[] Hq] & HB & HA). pose proof (ok_data _ _ _ H) as (B0 & Hdata & _).
  destruct H as [Hown Hheap Hkq Hfds Hcount Hcl _].
  assert (Hins : forall b d, <[a := with_client (w_cs w) (w_out w) c]> (heap s) !! b = Some d ->
    exists d0, heap s !! b = Some d0 /\ fd d = fd d0 /\ want_write d = want_write d0).
  { intros b d [[<- <-]|[Hne Hd]]%lookup_insert_Some; [by exists c|by exists d]. }
  assert (Hins' : forall b d0, heap s !! b = Some d0 ->
    exists d, <[a := with_client (w_cs w) (w_out w) c]> (heap s) !! b = Some d /\ fd d = fd d0 /\
      want_write d = want_write d0).
  { intros b d Hd. destruct (decide (b = a)) as [->|Hne].
    - rewrite lookup_insert_eq. eexists. split; [done|]. assert (d = c) as -> by congruence. done.
    - rewrite lookup_insert_ne by done. by exists d. }
  split; cbn.
  - intros f b Hb. destruct (Hown _ _ Hb) as (d0 & Hd & <-). destruct (Hins' _ _ Hd) as (d & ? & ? & _). eauto.
  - intros b d (d0 & Hd & -> & _)%Hins. by apply Hheap.
  - intros f k b. rewrite Hkq. split.
    + intros (d0 & Hd & <- & Hw). destruct (Hins' _ _ Hd) as (d & ? & ? & E). exists d. rewrite E. eauto.
    + intros (d & (d0 & Hd & E1 & E2)%Hins & <- & Hw). exists d0. rewrite <- E2. eauto.
  - done.
  - by rewrite ks_clients.
  - intros b d [[_ <-]|[_ Hd]]%lookup_insert_Some; [by split|by eapply Hcl].
  - exists B. split; [by split|]. rewrite (heap_args_replace _ _ _ _ Hc). cbn. lia.
Qed.

Lemma ok_one_command N s : srv_ok A N s -> srv_ok A N (set_stats (one_command (stats_ s)) s).
Proof.
  intros H. destruct (ok_data _ _ _ H) as (B & [] & HN). destruct H. split; try done. exists B. by split.
Qed.

(** What commands may end in: connection [a] has become [c']. *)
Definition serve_post {R} N s a c (same_quit : Prop) (r : Result R) : Prop :=
  match r with
  | Ok _ s' =>
      exists c', srv_ok A N s' /\ served s a c s' c' /\ heap s' !! a = Some c' /\
        (same_quit -> quit_requested (state c') = quit_requested (state c))
  | Bad u => faulty u
  | Stalled => False
  end.

Lemma dispatch_ok N s a c argv :
  srv_ok A N s -> heap s !! a = Some c -> A argv -> N + zlen argv <= LLONG_MAX ->
  serve_post (N + zlen argv) s a c (not_quit argv) (dispatch opts a argv s).
Proof.
  intros H Hc HA HN. unfold dispatch. erewrite sbind_run by done. set (s1 := set_stats _ _).
  assert (H1 : srv_ok A N s1) by (by apply ok_one_command).
  rewrite (sbind_run _ _ _ _ _ (conn_run a c s1 Hc)). unfold call_dispatch.
  pose proof (world_within N s1 a c H1 Hc) as W. pose proof (heap_args_ge _ _ _ Hc).
  pose proof (within_dispatch opts A Hdbs argv _ (out c) _ W HA ltac:(cbn; lia)) as R.
  pose proof (Dispatch_polite opts 2 argv (world_of s1 c)) as K. unfold ends_within in R.
  pose proof (client_queue _ _ (ok_clients _ _ _ H _ _ Hc)) as Hq.
  pose proof (fun Hn => Dispatch_quiet opts argv (world_of s1 c) Hn Hq) as Q.
  destruct (Dispatch opts 2 argv (world_of s1 c)) as [[] w|u].
  - exists (with_client (w_cs w) (w_out w) c). split_and!; [by apply ok_world|by split|cbn; by rewrite lookup_insert_eq|].
    intros Hn. by destruct (ks_quit _ _ _ (Q Hn)) as [?|[? _]].
  - destruct R as (argv' & Hin & Hu). exists argv'. split; [|done].
    apply elem_of_cons in Hin as [->|Hin]; [done|]. pose proof (client_known _ _ (ok_clients _ _ _ H _ _ Hc)) as Hk.
    rewrite Forall_forall in Hk. by apply Hk.
Qed.

Lemma run_commands_ok N s a c cmds :
  srv_ok A N s -> heap s !! a = Some c -> Forall A cmds -> N + args_of cmds <= LLONG_MAX ->
  serve_post (N + args_of cmds) s a c (Forall not_quit cmds) (run_commands opts a cmds s).
Proof.
  intros H Hc HA. revert N s c H Hc. induction HA as [|argv cmds HA HAs IH]; intros N s c H Hc HN.
  { exists c. cbn. rewrite Z.add_0_r. split_and!; try done. split; try done. by rewrite insert_id. }
  rewrite args_of_cons in *. pose proof (args_of_nonneg cmds) as Hn1.
  assert (Hn2 : 0 <= zlen argv) by (unfold zlen; lia).
  cbn [run_commands]. case_bool_decide as E.
  { subst argv. specialize (IH N s c H Hc ltac:(lia)). destruct (run_commands opts a cmds s) as [b s'|u|]; [|done|done].
    destruct IH as (c' & H' & Hs & Hc' & Hq). exists c'. split_and!; try done. intros [_ Ha]%Forall_cons. by apply Hq. }
  pose proof (dispatch_ok N s a c argv H Hc HA ltac:(lia)) as D. unfold mbind at 1, SM_bind at 1.
  destruct (dispatch opts a argv s) as [[] s1|u|]; [|done|done]. destruct D as (c1 & H1 & Hs1 & Hc1 & Hq1).
  rewrite (sbind_run _ _ _ _ _ (conn_run _ _ _ Hc1)). erewrite sbind_run by done.
  assert (Stop : forall b : bool, serve_post (N + (zlen argv + args_of cmds)) s a c (Forall not_quit (argv :: cmds))
    (mret (M := SM) b s1)).
  { intros b. exists c1. split_and!; try done; [eapply srv_ok_mono; [|exact H1]; lia|].
    intros [Ha _]%Forall_cons. by apply Hq1. }
  destruct (quit_requested _) eqn:Eq; [apply Stop|]. destruct (shutdown_requested _); [apply Stop|].
  specialize (IH _ s1 c1 H1 Hc1 ltac:(lia)). destruct (run_commands opts a cmds s1) as [b s'|u|]; [|done|done].
  destruct IH as (c' & H' & Hs & Hc' & Hq').
  exists c'. split_and!; try done; [by rewrite Z.add_assoc|by eapply served_trans|].
  intros [Ha Hb]%Forall_cons. rewrite (Hq' Hb), Eq. by apply Hq1.
Qed.
End commands.
