(* ===== verification/LoopSafety.v ===== *)
(** * The loop is safe

    The handlers of [src/src/server.cpp] composed: reading, running the commands,
    replying, the batch of events, the periodic work and the shutdown.  The
    conditions under which nothing goes wrong are spelled out in [event_ok] and
    [batch_ok]; [loop_anomalies] shows that they cannot be dropped. *)

From S2P Require Import Prelude Bytes Resp RespProofs Double SkipList Db DbProofs DbRefine Rdb RdbFile FloatText.
From S2P Require Import Exec ExecLogic StringCmds KeyCmds HashCmds ListCmds SetCmds ZsetCmds ServerCmds Dispatch.
From S2P Require Import CommandSafety HandlerSafety DispatchProofs CommandFrame DispatchBudget Samples.
From S2P Require Import Server ServerInv ServerSafety.
Local Open Scope Z_scope.

(** ** What a client sends in one event *)

Inductive Input := Commands (cmds : list (list bytes)) | Hangup | Garbage.

(** What the reading loop makes of the answers of [read]. *)
Fixpoint input_of (p : RequestParser) (reads : list ReadRes) : Input :=
  match reads with
  | [] | RAgain :: _ => Commands []
  | RErr :: _ | RData [] :: _ => Hangup
  | RIntr :: r => input_of p r
  | RData b :: r =>
      match Feed b p with
      | None => Garbage
      | Some (cmds, p') =>
          if has_error p' then Garbage
          else if zlen b <? kReadBuf then Commands cmds
          else match input_of p' r with Commands cs => Commands (cmds ++ cs) | x => x end
      end
  end.

Definition input_cost (i : Input) : Z := match i with Commands cs => args_of cs | _ => 0 end.

(** Nobody else's connection is touched. *)
Definition left_alone (s : Server) (a : nat) (s' : Server) : Prop :=
  forall b, b <> a -> heap s' !! b = heap s !! b.

Lemma left_alone_trans s1 s2 s3 a : left_alone s1 a s2 -> left_alone s2 a s3 -> left_alone s1 a s3.
Proof. intros H1 H2 b Hb. by rewrite H2, H1. Qed.

Lemma alone_insert s a s' c : heap s' = <[a := c]> (heap s) -> left_alone s a s'.
Proof. intros E b Hb. rewrite E. by apply lookup_insert_ne. Qed.
Lemma alone_delete s a s' : heap s' = delete a (heap s) -> left_alone s a s'.
Proof. intros E b Hb. rewrite E. by apply lookup_delete_ne. Qed.

Lemma Feed_some b p : exists cmds p', Feed b p = Some (cmds, p').
Proof.
  unfold Feed, ParseBuffered. destruct (has_error _); [eauto|].
  destruct (parse_loop_total (S (length (buf_ (if has_error p then p else
    if zlen (buf_ p ++ b) >? kMaxBulkBytes then mkParser (buf_ p ++ b) err_too_big_buffer
    else mkParser (buf_ p ++ b) (error_msg_ p))))) (if has_error p then p else
    if zlen (buf_ p ++ b) >? kMaxBulkBytes then mkParser (buf_ p ++ b) err_too_big_buffer
    else mkParser (buf_ p ++ b) (error_msg_ p))) as (cmds & p' & E); [lia|]. eauto.
Qed.

(** ** The handlers *)

Section handlers.
Context `{O : Oracle} `{!OracleLaws O} (opts : ServerOptions).
Hypothesis Hdbs : num_databases opts <= Z.of_nat kNumDatabases.
Context (A : list bytes -> Prop).
Implicit Types (s : Server) (a : nat) (c : Connection) (ws : list WriteRes).

(** The invariant holds at the end and only connection [a] may have changed. *)
Definition safe_end {R} N s a (stall : Prop) (r : Result R) : Prop :=
  match r with
  | Ok _ s' => srv_ok A N s' /\ left_alone s a s'
  | Bad u => faulty A u
  | Stalled => stall
  end.

Lemma safe_end_trans {R} N s s1 a stall (r : Result R) :
  left_alone s a s1 -> safe_end N s1 a stall r -> safe_end N s a stall r.
Proof. intros Ha. destruct r; [|done|done]. intros [? ?]. split; [done|]. by eapply left_alone_trans. Qed.

Lemma safe_end_impl {R} N N' s a (stall stall' : Prop) (r : Result R) :
  N <= N' -> (stall -> stall') -> safe_end N s a stall r -> safe_end N' s a stall' r.
Proof. intros HN Hs. destruct r; [|done|exact Hs]. intros [? ?]. split; [by eapply srv_ok_mono|done]. Qed.

Lemma write_safe N ws s a c :
  srv_ok A N s -> heap s !! a = Some c -> safe_end N s a (~ complete_writes ws) (OnWritable a ws s).
Proof.
  intros H Hc. pose proof (OnWritable_ok A N ws s a c H Hc) as W. unfold write_post in W.
  destruct (OnWritable a ws s) as [? s'|u|]; [|done|done]. destruct W as (H' & _ & [(c' & [])|(_ & Hh & _)]).
  - split; [done|]. by eapply alone_insert.
  - split; [done|]. by apply alone_delete.
Qed.

Lemma close_safe N s a c : srv_ok A N s -> heap s !! a = Some c -> safe_end N s a False (CloseConn a s).
Proof.
  intros H Hc. destruct (CloseConn_ok A N s a c H Hc) as (s' & -> & H' & _ & _ & Hh & _).
  split; [done|by apply alone_delete].
Qed.

(** Write, then use the connection again: fine unless the write failed. *)
Lemma write_then N ws s a c (k : SM unit) :
  srv_ok A N s -> heap s !! a = Some c -> soft_writes ws ->
  (forall s' c', srv_ok A N s' -> heap s' !! a = Some c' -> safe_end N s' a False (k s')) ->
  safe_end N s a (~ complete_writes ws) ((OnWritable a ws ≫= fun _ => k) s).
Proof.
  intros H Hc Hs Hk. pose proof (OnWritable_ok A N ws s a c H Hc) as W. unfold write_post in W.
  unfold mbind, SM_bind. destruct (OnWritable a ws s) as [? s'|u|]; [|done|done].
  destruct W as (H' & _ & [(c' & W)|(Hn & _)]); [|done].
  specialize (Hk s' c' H'). rewrite (wr_heap _ _ _ _ _ W), lookup_insert_eq in Hk. specialize (Hk eq_refl).
  pose proof (alone_insert _ _ _ _ (wr_heap _ _ _ _ _ W)) as Ha.
  eapply safe_end_trans; [exact Ha|]. eapply safe_end_impl; [done| |exact Hk]. done.
Qed.

Lemma protocol_error_safe N ws s a c :
  srv_ok A N s -> heap s !! a = Some c -> soft_writes ws ->
  safe_end N s a (~ complete_writes ws) (protocol_error a ws s).
Proof.
  intros H Hc Hs. unfold protocol_error. rewrite (sbind_run _ _ _ _ _ (conn_run _ _ _ Hc)).
  erewrite sbind_run by done. set (s1 := set_heap _ _).
  assert (Hc1 : heap s1 !! a = Some (with_output (AppendErrorReply (out c) (error_msg_ (parser c))) c)).
  { cbn. by rewrite lookup_insert_eq. }
  assert (H1 : srv_ok A N s1) by (by apply (ok_assign A N s a c)).
  apply (safe_end_trans N s s1); [by eapply alone_insert|]. eapply write_then; [done|done|done|].
  intros. by eapply close_safe.
Qed.

Lemma flush_safe N ws s a c :
  srv_ok A N s -> heap s !! a = Some c -> safe_end N s a (~ complete_writes ws) (flush a ws s).
Proof.
  intros H Hc. unfold flush. rewrite (sbind_run _ _ _ _ _ (conn_run _ _ _ Hc)).
  case_bool_decide; [by split|by eapply write_safe].
Qed.
Lemma ok_flags N s b n q : srv_ok A N s -> srv_ok A N (set_quit_ q (set_stats (shutdown_flags b n (stats_ s)) s)).
Proof.
  intros H. destruct (ok_data _ _ _ H) as (B & [] & HN). destruct H. split; try done. exists B. by split.
Qed.

(** After the commands: the handler may go on only with the connection as it was. *)
Lemma after_commands_safe N ws s a c seen :
  srv_ok A N s -> heap s !! a = Some c -> soft_writes ws \/ quit_requested (state c) = false ->
  match after_commands a seen ws s with
  | Ok true s' => srv_ok A N s' /\ left_alone s a s'
  | Ok false s' => s' = s
  | Bad u => faulty A u
  | Stalled => ~ complete_writes ws
  end.
Proof.
  intros H Hc Hs. unfold after_commands. erewrite sbind_run by done. destruct (_ || seen).
  { erewrite sbind_run by done. erewrite sbind_run by done. split; [by apply ok_flags|done]. }
  rewrite (sbind_run _ _ _ _ _ (conn_run _ _ _ Hc)). destruct (quit_requested (state c)); [|done].
  destruct Hs as [Hs|?]; [|done].
  assert (W : safe_end N s a (~ complete_writes ws) ((OnWritable a ws ≫= fun _ => c ← conn a;
    if want_write c then mret tt else CloseConn a) s)).
  { eapply write_then; [done|done|done|]. intros s' c' H' Hc'.
    rewrite (sbind_run _ _ _ _ _ (conn_run _ _ _ Hc')). destruct (want_write c'); [by split|by eapply close_safe]. }
  unfold mbind, SM_bind in *. destruct (OnWritable a ws s) as [? s1|u|]; [|done|done].
  destruct (conn a s1) as [c1 s2|u|]; [|done|done].
  destruct ((if want_write c1 then mret tt else CloseConn a) s2) as [? s3|u|]; done.
Qed.

Lemma read_loop_safe N ws reads s a c parsed :
  srv_ok A N s -> heap s !! a = Some c -> (input_of (parser c) reads = Garbage -> soft_writes ws) ->
  match read_loop a reads ws parsed s with
  | Ok (Some cmds) s' =>
      exists cs p, input_of (parser c) reads = Commands cs /\ cmds = parsed ++ cs /\ srv_ok A N s' /\
        s' = set_heap (<[a := with_parser p c]> (heap s)) s
  | Ok None s' => srv_ok A N s' /\ left_alone s a s'
  | Bad u => faulty A u
  | Stalled => ~ (complete_reads reads /\ complete_writes ws)
  end.
Proof.
  revert s c parsed. induction reads as [|x reads IH]; intros s c parsed H Hc Hg.
  { intros [Hr _]. by apply Exists_nil in Hr. }
  assert (Same : s = set_heap (<[a := with_parser (parser c) c]> (heap s)) s).
  { rewrite insert_id; [by destruct s|]. rewrite Hc. by destruct c. }
  assert (Close : match (CloseConn a ≫= fun _ => mret (M := SM) (@None (list (list bytes)))) s with
    | Ok (Some _) _ => False | Ok None s' => srv_ok A N s' /\ left_alone s a s' | Bad u => faulty A u | Stalled => False end).
  { pose proof (close_safe N s a c H Hc) as W. unfold mbind, SM_bind. by destruct (CloseConn a s). }
  destruct x as [b| | |]; cbn [read_loop input_of] in *.
  - destruct b as [|x b]; [by destruct ((CloseConn a ≫= _) s) as [[]| |]|]. set (data := x :: b) in *.
    rewrite (sbind_run _ _ _ _ _ (conn_run _ _ _ Hc)).
    destruct (Feed_some data (parser c)) as (cmds & p & Ef). rewrite Ef in *. erewrite sbind_run by done.
    set (s1 := set_heap _ _). assert (H1 : srv_ok A N s1) by (by apply (ok_assign A N s a c)).
    assert (Hc1 : heap s1 !! a = Some (with_parser p c)) by (cbn; by rewrite lookup_insert_eq).
    assert (Ha1 : left_alone s a s1) by (by eapply alone_insert).
    destruct (has_error p).
    + pose proof (protocol_error_safe N ws s1 a _ H1 Hc1 (Hg eq_refl)) as W. unfold mbind, SM_bind.
      destruct (protocol_error a ws s1) as [? s2|u|]; [|done|by intros [_ ?]].
      destruct W as [H2 Ha2]. split; [done|by eapply left_alone_trans].
    + destruct (zlen data <? kReadBuf) eqn:El; [by exists cmds, p|].
      specialize (IH s1 (with_parser p c) (parsed ++ cmds) H1 Hc1).
      destruct (read_loop a reads ws (parsed ++ cmds) s1) as [[cs|] s2|u|].
      * destruct IH as (cs' & p2 & E & -> & H2 & E2).
        { intros E. apply Hg. cbn in E. by rewrite E. }
        cbn in E. exists (cmds ++ cs'), p2. rewrite E, app_assoc. split_and!; try done.
        rewrite E2. cbn. by rewrite insert_insert_eq.
      * destruct IH as [H2 Ha2]; [intros E; apply Hg; cbn in E; by rewrite E|].
        split; [done|by eapply left_alone_trans].
      * apply IH. intros E. apply Hg. cbn in E. by rewrite E.
      * intros [Hr Hw]. apply IH; [intros E; apply Hg; cbn in E; by rewrite E|]. split; [|done].
        apply Exists_cons in Hr as [?|?]; [lia|done].
  - exists [], (parser c). by rewrite app_nil_r.
  - specialize (IH s c parsed H Hc Hg). destruct (read_loop a reads ws parsed s) as [[]| |]; try done.
    intros [Hr Hw]. apply IH. split; [|done]. by apply Exists_cons in Hr as [?|?].
  - by destruct ((CloseConn a ≫= _) s) as [[]| |].
Qed.
(** ** Events *)

(** What the environment must respect for one event: the commands are known, the
    budget holds, and a write that fails hard does not meet an input after which
    the handler uses the connection again (QUIT, or bytes that do not parse). *)
Definition input_ok N c ws (i : Input) : Prop :=
  match i with
  | Commands cs =>
      Forall A cs /\ N + args_of cs <= LLONG_MAX /\
      (soft_writes ws \/ (quit_requested (state c) = false /\ Forall not_quit cs))
  | Hangup => True
  | Garbage => soft_writes ws
  end.

Lemma OnReadable_safe N reads ws s a c :
  srv_ok A N s -> heap s !! a = Some c -> input_ok N c ws (input_of (parser c) reads) ->
  safe_end (N + input_cost (input_of (parser c) reads)) s a (~ (complete_reads reads /\ complete_writes ws))
    (OnReadable opts a reads ws s).
Proof.
  intros H Hc Hi. unfold OnReadable.
  pose proof (read_loop_safe N ws reads s a c [] H Hc) as R. unfold mbind at 1, SM_bind at 1.
  destruct (read_loop a reads ws [] s) as [[cmds|] s1|u|].
  - destruct R as (cs & p & E & -> & H1 & ->); [intros E; by rewrite E in Hi|]. rewrite E in *. cbn [app input_cost].
    destruct Hi as (HA & HN & Hs). set (s1 := set_heap _ _) in *.
    assert (Hc1 : heap s1 !! a = Some (with_parser p c)) by (cbn; by rewrite lookup_insert_eq).
    pose proof (run_commands_ok opts Hdbs A N s1 a _ cs H1 Hc1 HA HN) as C. unfold mbind at 1, SM_bind at 1.
    destruct (run_commands opts a cs s1) as [b s2|u|]; [|done|done]. destruct C as (c2 & H2 & Hsv & Hc2 & Hq).
    assert (Ha2 : left_alone s a s2).
    { apply (alone_insert _ _ _ c2). rewrite (sv_heap _ _ _ _ _ Hsv). cbn. by rewrite insert_insert_eq. }
    pose proof (after_commands_safe (N + args_of cs) ws s2 a c2 b H2 Hc2) as W. unfold mbind, SM_bind.
    destruct (after_commands a b ws s2) as [[|] s3|u|].
    + destruct W as [H3 Ha3]; [|by split; [|eapply left_alone_trans]].
      destruct Hs as [?|[Hq0 Hn]]; [by left|right]. by rewrite Hq.
    + rewrite W; [|destruct Hs as [?|[Hq0 Hn]]; [by left|right; by rewrite Hq]].
      eapply safe_end_trans; [exact Ha2|]. eapply safe_end_impl; [done| |by eapply flush_safe]. by intros Hw [_ ?].
    + apply W. destruct Hs as [?|[Hq0 Hn]]; [by left|right; by rewrite Hq].
    + intros [_ Hw]. apply W; [|done]. destruct Hs as [?|[Hq0 Hn]]; [by left|right; by rewrite Hq].
  - destruct R as [H1 Ha1]; [intros E; by rewrite E in Hi|]. cbn. split; [|done]. eapply srv_ok_mono; [|exact H1].
    destruct (input_of (parser c) reads); cbn; [pose proof (args_of_nonneg cmds)|..]; lia.
  - apply R. intros E. by rewrite E in Hi.
  - apply R. intros E. by rewrite E in Hi.
Qed.

Definition event_ok N s (ev : Event) : Prop :=
  match ev with
  | EvSignal | EvNull => True
  | EvListen accepts => accepts_ok (dom (conns_ s)) accepts
  | EvConn a EVFILT_READ reads ws =>
      match heap s !! a with Some c => input_ok N c ws (input_of (parser c) reads) | None => True end
  | EvConn a EVFILT_WRITE _ _ => True
  end.

Definition event_cost s (ev : Event) : Z :=
  match ev with
  | EvConn a EVFILT_READ reads _ =>
      match heap s !! a with Some c => input_cost (input_of (parser c) reads) | None => 0 end
  | _ => 0
  end.

Definition udata_of (ev : Event) : option nat := match ev with EvConn a _ _ _ => Some a | _ => None end.

(** The kernel eventually answers each loop. *)
Definition complete_event (ev : Event) : Prop :=
  match ev with
  | EvListen accepts => complete_accepts accepts
  | EvConn _ EVFILT_READ reads ws => complete_reads reads /\ complete_writes ws
  | EvConn _ EVFILT_WRITE _ ws => complete_writes ws
  | _ => True
  end.

Lemma handle_event_safe N s ev :
  srv_ok A N s -> event_ok N s ev -> (forall a, udata_of ev = Some a -> is_Some (heap s !! a)) ->
  match handle_event opts ev s with
  | Ok _ s' => srv_ok A (N + event_cost s ev) s' /\
      (forall b, Some b <> udata_of ev -> is_Some (heap s !! b) -> is_Some (heap s' !! b))
  | Bad u => faulty A u
  | Stalled => ~ complete_event ev
  end.
Proof.
  intros H He Hl. destruct ev as [|accepts| |a f reads ws]; cbn [handle_event event_cost]; rewrite ?Z.add_0_r.
  - split; [|done]. by apply ok_flags.
  - pose proof (OnAccept_ok A N accepts s H He) as W. destruct (OnAccept accepts s) as [? s'|u|]; [|done|done].
    destruct W as [H' Hh]. split; [done|]. intros b _ [c Hc]. eauto.
  - done.
  - destruct (Hl a eq_refl) as [c Hc]. rewrite (sbind_run _ _ _ _ _ (conn_run _ _ _ Hc)). erewrite sbind_run by done.
    destruct (ok_heap _ _ _ H _ _ Hc) as [-> _]. cbn [event_ok] in He. rewrite Hc in *.
    assert (Fin : forall N' stall r, safe_end N' s a stall r ->
      match r with
      | Ok tt s' => srv_ok A N' s' /\ (forall b, Some b <> udata_of (EvConn a f reads ws) -> is_Some (heap s !! b) ->
          is_Some (heap s' !! b))
      | Bad u => faulty A u
      | Stalled => stall
      end).
    { intros N' stall [[] s'|u|]; [|done|done]. intros [H' Ha]. split; [done|]. intros b Hb. rewrite Ha; [done|].
      intros ->. by apply Hb. }
    destruct f.
    + pose proof (Fin _ _ _ (OnReadable_safe N reads ws s a c H Hc He)) as W.
      by destruct (OnReadable opts a reads ws s) as [[] s'|u|].
    + rewrite Z.add_0_r. pose proof (Fin _ _ _ (write_safe N ws s a c H Hc)) as W.
      by destruct (OnWritable a ws s) as [[] s'|u|].
Qed.
(** ** The loop *)

(** What [kevent] returns: registered events, at most one for each connection. *)
Definition batch_ok s (evs : list Event) : Prop :=
  NoDup (omap udata_of evs) /\
  forall a f reads ws, EvConn a f reads ws ∈ evs -> exists d, kq s !! (d, f) = Some a.

(** The condition on each event when its turn comes, and [K] after the last. *)
Fixpoint events_ok N (evs : list Event) s (K : Z -> Server -> Prop) : Prop :=
  match evs with
  | [] => K N s
  | ev :: r =>
      event_ok N s ev /\
      forall s', handle_event opts ev s = Ok tt s' -> events_ok (N + event_cost s ev) r s' K
  end.

(** The conditions on a whole run. *)
Fixpoint run_ok N (polls : list Poll) s : Prop :=
  quit_ s = true \/
  match polls with
  | [] => True
  | PIntr :: r => run_ok N r s
  | PFail :: _ => True
  | PEvents evs :: r =>
      batch_ok s evs /\
      events_ok N evs s (fun N' s1 => forall s2, PeriodicTasks s1 = Ok tt s2 -> run_ok N' r s2)
  end.

Lemma handle_events_safe N evs s K :
  srv_ok A N s -> NoDup (omap udata_of evs) -> (forall a, a ∈ omap udata_of evs -> is_Some (heap s !! a)) ->
  events_ok N evs s K ->
  match handle_events opts evs s with
  | Ok _ s' => exists N', srv_ok A N' s' /\ K N' s'
  | Bad u => faulty A u
  | Stalled => ~ Forall complete_event evs
  end.
Proof.
  revert N s. induction evs as [|ev evs IH]; intros N s H Hnd Hl Hev; [by exists N|].
  destruct Hev as [He Hev]. cbn [handle_events].
  assert (Hl0 : forall a, udata_of ev = Some a -> is_Some (heap s !! a)).
  { intros a E. apply Hl. cbn. rewrite E. by left. }
  pose proof (handle_event_safe N s ev H He Hl0) as W. unfold mbind, SM_bind.
  destruct (handle_event opts ev s) as [[] s1|u|]; [|done|by intros [? _]%Forall_cons].
  destruct W as [H1 Hl1].
  assert (Hnd' : NoDup (omap udata_of evs) /\ forall b, b ∈ omap udata_of evs -> Some b <> udata_of ev).
  { cbn in Hnd. destruct (udata_of ev) as [a|]; [|by split].
    apply NoDup_cons in Hnd as [Hn Hnd]. split; [done|]. intros b Hb E. injection E as ->. done. }
  destruct Hnd' as [Hnd' Hne].
  specialize (IH _ s1 H1 Hnd'). destruct (handle_events opts evs s1) as [[] s2|u|].
  - apply IH; [|by apply Hev]. intros b Hb. apply Hl1; [by apply Hne|]. apply Hl. cbn. destruct (udata_of ev); [by right|done].
  - apply IH; [|by apply Hev]. intros b Hb. apply Hl1; [by apply Hne|]. apply Hl. cbn. destruct (udata_of ev); [by right|done].
  - intros [_ Hc]%Forall_cons. apply IH; [|by apply Hev|done]. intros b Hb. apply Hl1; [by apply Hne|]. apply Hl.
    cbn. destruct (udata_of ev); [by right|done].
Qed.

Lemma PeriodicTasks_safe N s : srv_ok A N s -> exists s', PeriodicTasks s = Ok tt s' /\ srv_ok A N s'.
Proof.
  intros H. destruct (ok_data _ _ _ H) as (B & [] & HN). unfold PeriodicTasks.
  do 2 (erewrite sbind_run by done). eexists. split; [done|].
  set (nows := fun d => Z.quot (clock_us (ticks s + d)) 1000).
  destruct (readings_bounded nows (seq 0 kNumDatabases)) as [t Ht].
  pose proof (expire_dbs_spec (iter_order (ticks s)) (fun d => rng32 (ticks s + d)) nows t _ (db_ s) data_dbs all_dbs Ht)
    as X. destruct H. split; try done. exists B. split; [|done]. split; try done.
  - apply (ex_len _ _ _ X).
  - intros i k e He. apply (data_vals i k). eapply lookup_weaken; [exact He|]. apply (ex_sub _ _ _ X).
Qed.

Lemma close_all_safe N n s :
  srv_ok A N s -> (size (conns_ s) <= n)%nat ->
  exists s', close_all n s = Ok tt s' /\ srv_ok A N s' /\ conns_ s' = ∅ /\ same_rest s s'.
Proof.
  revert s. induction n as [|n IH]; intros s H Hn; cbn [close_all]; erewrite sbind_run by done;
    destruct (map_to_list (conns_ s)) as [|[f a] l] eqn:E; try (exists s; by apply map_to_list_empty_iff in E).
  - rewrite <- length_map_to_list, E in Hn. cbn in Hn. lia.
  - assert (Hf : conns_ s !! f = Some a) by (apply elem_of_map_to_list; rewrite E; by left).
    destruct (ok_owner _ _ _ H _ _ Hf) as (c & Hc & Hfd).
    destruct (CloseConn_ok A N s a c H Hc) as (s1 & E1 & H1 & Hr1 & _ & _ & Hco).
    rewrite (sbind_run _ _ _ _ _ E1). destruct (IH s1 H1) as (s' & E' & H' & Hc' & Hr').
    { rewrite Hco, Hfd. rewrite <- (insert_delete_id (conns_ s) f a Hf) in Hn.
      rewrite map_size_insert_None in Hn by apply lookup_delete_eq. lia. }
    exists s'. split_and!; try done. by etrans.
Qed.

Lemma heap_empty N s : srv_ok A N s -> conns_ s = ∅ -> heap s = ∅.
Proof.
  intros H Hc. apply map_eq. intros a. rewrite lookup_empty. destruct (heap s !! a) as [c|] eqn:E; [|done].
  destruct (ok_heap _ _ _ H _ _ E) as [E' _]. by rewrite Hc in E'.
Qed.

(** After the loop: everything is closed. *)
Definition shut s : Prop := conns_ s = ∅ /\ heap s = ∅ /\ connected_clients (stats_ s) = 0.

Lemma shut_down_safe N s : srv_ok A N s -> exists s', shut_down opts s = Ok tt s' /\ shut s'.
Proof.
  intros H. unfold shut_down. erewrite sbind_run by done.
  assert (exists s1, (if shutdown_nosave (stats_ s) then mret tt
    else t ← ask ticks; db ← ask db_; rdb ← ask rdb_;
     let '(_, rdb') := SaveToFile (iter_order t) (rdb_path opts) db (disk t) (time_s t) rdb in
     update (fun s => mkServer (db_ s) (stats_ s) rdb' (children_ s) (S t) (quit_ s) (next_client_id_ s)
       (conns_ s) (heap s) (next_addr s) (kq s) (sent s))) s = Ok tt s1 /\ srv_ok A N s1) as (s1 & E1 & H1).
  { destruct (shutdown_nosave (stats_ s)); [by exists s|]. do 3 (erewrite sbind_run by done).
    destruct (SaveToFile _ _ _ _ _ _) as [r rdb']. eexists. split; [done|].
    destruct (ok_data _ _ _ H) as (B & [] & HN). destruct H. split; try done. exists B. by split. }
  rewrite (sbind_run _ _ _ _ _ E1). unfold CloseAll. erewrite sbind_run by done.
  destruct (close_all_safe N (size (conns_ s1)) s1 H1 ltac:(done)) as (s' & E & H' & Hc & _).
  exists s'. split; [done|]. split_and!; [done|by eapply heap_empty|]. by rewrite (ok_count _ _ _ H'), Hc.
Qed.

Definition complete_polls (polls : list Poll) : Prop :=
  Forall (fun p => match p with PEvents evs => Forall complete_event evs | _ => True end) polls.

Lemma live_events N s evs :
  srv_ok A N s -> batch_ok s evs -> forall a, a ∈ omap udata_of evs -> is_Some (heap s !! a).
Proof.
  intros H [_ Hb] a (ev & Hin & Hu)%list_elem_of_omap. destruct ev as [| | |a' f reads ws]; try done.
  injection Hu as ->. destruct (Hb _ _ _ _ Hin) as [d Hd]. apply (ok_kq _ _ _ H) in Hd as (c & -> & _). eauto.
Qed.
Lemma Run_safe N polls s :
  srv_ok A N s -> run_ok N polls s ->
  match Run opts polls s with
  | Ok _ s' => shut s'
  | Bad u => faulty A u
  | Stalled => ~ (complete_polls polls /\ PFail ∈ polls)
  end.
Proof.
  assert (Down : forall N s (P : Prop), srv_ok A N s ->
    match shut_down opts s with Ok _ s' => shut s' | Bad u => faulty A u | Stalled => P end).
  { intros N' s' P H. by destruct (shut_down_safe N' s' H) as (s1 & -> & Hs). }
  revert N s. induction polls as [|poll polls IH]; intros N s H Hr; cbn [Run]; erewrite sbind_run by done;
    destruct (quit_ s) eqn:Eq; try (by eapply Down).
  { intros [_ Hp]. by apply not_elem_of_nil in Hp. }
  destruct Hr as [?|Hr]; [congruence|].
  assert (Next : ~ (complete_polls polls /\ PFail ∈ polls) -> poll <> PFail ->
    ~ (complete_polls (poll :: polls) /\ PFail ∈ poll :: polls)).
  { intros Hn Hp [[_ Hc]%Forall_cons [?|?]%elem_of_cons]; [congruence|by apply Hn]. }
  destruct poll as [evs| |].
  - destruct Hr as [Hb Hev].
    pose proof (handle_events_safe N evs s _ H (proj1 Hb) (live_events N s evs H Hb) Hev) as W.
    unfold mbind, SM_bind. destruct (handle_events opts evs s) as [[] s1|u|]; [|done|].
    + destruct W as (N1 & H1 & K). destruct (PeriodicTasks_safe N1 s1 H1) as (s2 & E2 & H2). rewrite E2.
      specialize (IH N1 s2 H2 (K s2 E2)). destruct (Run opts polls s2); [done|done|by apply Next].
    + by intros [[? _]%Forall_cons _].
  - specialize (IH N s H Hr). destruct (Run opts polls s); [done|done|by apply Next].
  - by eapply Down.
Qed.
End handlers.
