(* ===== verification/LoopProofs.v ===== *)
(** * Properties of the event loop

    Safety of whole runs under stated conditions on the kernel and the clients,
    the runs that show each condition to be needed, and what the loop does with
    replies that cannot be sent at once. *)

From S2P Require Import Prelude Bytes Resp RespProofs Double SkipList Db DbProofs DbRefine Rdb RdbFile FloatText.
From S2P Require Import Exec ExecLogic StringCmds KeyCmds HashCmds ListCmds SetCmds ZsetCmds ServerCmds Dispatch.
From S2P Require Import CommandSafety HandlerSafety DispatchProofs CommandFrame DispatchBudget Samples.
From S2P Require Import Server ServerInv ServerSafety LoopSafety.
Local Open Scope Z_scope.

(** A server that has just started, with no connection. *)
Definition fresh_server (start_us : Z) : Server :=
  mkServer new_database (mkStats 0 0 0 0 start_us 0 false false) (mkRdb (mkFS ∅ ∅ 0) 0) [] 0 false 1 ∅ ∅ 0 ∅ ∅.

Lemma fresh_ok A start_us : 0 <= start_us <= LLONG_MAX -> srv_ok A 0 (fresh_server start_us).
Proof.
  intros Hs. split; cbn; try done.
  - intros f k a. rewrite lookup_empty. split; [done|]. by intros (c & ? & _).
  - exists 0. rewrite heap_args_empty. split; [|done]. split; try done. intros i k e.
    cbn [fresh_server db_]. by rewrite table_new, lookup_empty.
Qed.

Section claims.
Context `{O : Oracle} `{!OracleLaws O} (opts : ServerOptions).

(** C5: A run of the server is safe.  Start from any state in which connections,
    registrations and data agree.  Let the kernel return any batches of registered
    events with at most one event per connection, and any results of [read],
    [write] and [accept] that the system calls may give; let the clients send any
    bytes, [A] being what is known of the commands they form; and let no write
    fail hard just when the client sent QUIT or bytes that do not parse.  Then the
    loop itself has no undefined behaviour: it never uses a connection that was
    closed, and if it stops, then in a behaviour that the fault table lists for
    one of the commands received.  It can only be still running when the script of
    polls ends, and when it ends, every connection is closed and the count of
    clients is zero. *)
Theorem run_is_safe (A : list bytes -> Prop) N polls s :
  num_databases opts <= Z.of_nat kNumDatabases ->
  srv_ok A N s -> run_ok opts A N polls s ->
  match Run opts polls s with
  | Ok _ s' => shut s'
  | Bad u => exists argv, A argv /\ ub_in u (command_faults argv) = true
  | Stalled => ~ (complete_polls polls /\ PFail ∈ polls)
  end.
Proof. intros Hd H Hr. by apply (Run_safe opts Hd A N). Qed.

(** C16: Replies are neither lost nor repeated by partial writes.  Whatever
    positive amounts the kernel takes, and however often it interrupts, after
    [OnWritable] the bytes sent so far followed by the bytes still buffered are
    what they were before; the server waits for the socket to become writable
    exactly if bytes are left; and no other connection is affected. *)
Theorem writable_keeps_stream A N ws s a c :
  srv_ok A N s -> heap s !! a = Some c -> soft_writes ws -> complete_writes ws ->
  exists s' c',
    OnWritable a ws s = Ok tt s' /\ heap s' = <[a := c']> (heap s) /\
    sent_of s' a ++ out c' = sent_of s a ++ out c /\
    (want_write c' = true <-> out c' <> []) /\ (kq s' !! (fd c, EVFILT_WRITE) = Some a <-> out c' <> []) /\
    forall b, b <> a -> sent_of s' b = sent_of s b.
Proof.
  intros H Hc Hs Hw. pose proof (OnWritable_ok A N ws s a c H Hc) as W. unfold write_post in W.
  destruct (OnWritable a ws s) as [[] s'|u|]; [|done|done].
  destruct W as (H' & _ & [(c' & [])|(Hn & _)]); [|done]. exists s', c'.
  assert (Hwant : want_write c' = true <-> out c' <> []).
  { rewrite wr_want, negb_true_iff, bool_decide_eq_false. done. }
  split_and!; try done. rewrite (ok_kq _ _ _ H'), <- Hwant. rewrite wr_heap, lookup_insert_eq.
  split; [intros (d & E & _ & Hd); injection E as <-; by apply Hd|]. intros E. exists c'. by rewrite wr_fd.
Qed.
End claims.

(** ** Runs *)

#[local] Existing Instance ticking.
#[local] Existing Instance ticking_laws.

Definition server0 : Server := fresh_server 1700000000000000.

Definition line (l : string) : bytes := lit l ++ crlf.
Definition accept_one : Poll := PEvents [EvListen [AFd 5; AAgain]].
Definition client_says (b : bytes) (ws : list WriteRes) : Poll := PEvents [EvConn 0 EVFILT_READ [RData b] ws].

Definition good_run : list Poll :=
  [accept_one; client_says (line "SET k v" ++ line "GET k") [WSent 3; WAgain];
   PEvents [EvConn 0 EVFILT_WRITE [] [WSent 100]]; PIntr; PEvents [EvSignal]].

(** The commands of the run. *)
Definition known (argv : list bytes) : Prop := argv ∈ [cmd ["SET"; "k"; "v"]; cmd ["GET"; "k"]]%string.

(** One batch of a concrete run: the events in turn, then the periodic work. *)
Ltac run_event := intros ? E; vm_compute in E; injection E as <-.
Ltac run_batch :=
  right; split; [split; [by repeat constructor; apply not_elem_of_nil|
    intros ? ? ? ? [E|E%not_elem_of_nil]%elem_of_cons; [|done]; try done; injection E as -> -> -> ->;
    exists 5; by vm_compute]|].

Lemma good_run_ok : run_ok default_options known 0 good_run server0.
Proof.
  run_batch. split; [cbn; split_and!; try done; try lia; set_solver|]. run_event. run_event.
  run_batch. split; [|run_event; run_event].
  { change (input_ok known 0 (mkConn 5 [] (mkParser [] []) (new_client 1) false) [WSent 3; WAgain]
      (input_of (mkParser [] []) [RData (line "SET k v" ++ line "GET k")])).
    assert (input_of (mkParser [] []) [RData (line "SET k v" ++ line "GET k")] =
      Commands [cmd ["SET"; "k"; "v"]; cmd ["GET"; "k"]]%string) as -> by by vm_compute.
    split_and!; [|by vm_compute|].
    - apply Forall_forall. done.
    - left. by repeat constructor. }
  run_batch. split; [done|]. run_event. run_event. right. run_batch. split; [done|]. run_event. run_event. by left.
Qed.

Lemma run_is_safe_witness : match Run default_options good_run server0 with Ok _ s' => shut s' | _ => False end.
Proof.
  assert (W : match Run default_options good_run server0 with
    | Ok _ s' => shut s'
    | Bad u => exists argv, known argv /\ ub_in u (command_faults argv) = true
    | Stalled => ~ (complete_polls good_run /\ PFail ∈ good_run)
    end).
  { apply (run_is_safe default_options known 0); [by vm_compute|by apply fresh_ok|exact good_run_ok]. }
  assert (match Run default_options good_run server0 with Ok _ _ => True | _ => False end) by by vm_compute.
  by destruct (Run default_options good_run server0).
Defined.

(** A connection with a reply that was not sent yet. *)
Definition pending_conn : Connection := mkConn 5 (lit "+PONG") (mkParser [] []) (new_client 1) false.
Definition pending_server : Server :=
  set_heap (<[0%nat := pending_conn]> (heap (accepted server0 5))) (accepted server0 5).

Lemma pending_ok : srv_ok known 0 pending_server.
Proof.
  eapply (ok_assign known 0 (accepted server0 5) 0%nat); [|by vm_compute|done..].
  apply accepted_ok; [by apply fresh_ok|done|done].
Qed.

Lemma writable_keeps_stream_witness :
  exists s' c', OnWritable 0 [WSent 3; WIntr; WAgain] pending_server = Ok tt s' /\ sent_of s' 0 ++ out c' = lit "+PONG".
Proof.
  destruct (writable_keeps_stream known 0 [WSent 3; WIntr; WAgain] pending_server 0 pending_conn)
    as (s' & c' & E & _ & Hb & _).
  - exact pending_ok.
  - by vm_compute.
  - by repeat constructor.
  - apply Exists_exists. exists WAgain. split; [by repeat constructor|by right].
  - exists s', c'. split; [exact E|exact Hb].
Defined.

(** ** What goes wrong *)

(** Peers that vanish. *)
Definition quit_and_reset : list Poll := [accept_one; client_says (line "QUIT") [WErr]].
Definition garbage_and_reset : list Poll := [accept_one; client_says (line "*x") [WErr]].
Definition two_events : list Poll :=
  [accept_one; client_says (line "PING") [WAgain];
   PEvents [EvConn 0 EVFILT_READ [RData []] []; EvConn 0 EVFILT_WRITE [] [WSent 7]]].

(** What was sent to the first client, the descriptors still open and the number
    of commands counted. *)
Definition seen (r : Result unit) : option (bytes * list Z * Z) :=
  match r with
  | Ok _ s => Some (sent_of s 0, (map_to_list (conns_ s)).*1, total_commands (stats_ s))
  | _ => None
  end.

Definition in_turn (polls : list Poll) : SM unit :=
  (fix go ps := match ps with
                | [] => mret tt
                | PEvents evs :: r => handle_events default_options evs ≫= fun _ => go r
                | _ :: r => go r
                end) polls.

