(* ===== verification/Main.v ===== *)
(** * The entry point

    Models [src/src/main.cpp] and the start and the end of the server object in
    [src/src/server.cpp]: the command line, the restore of the dump, [Start], the
    event loop and the destructor, in the order in which [main] runs them.  The
    system calls of [Start] are a record of answers; the address parser and
    [strerror] of the C library are functions of that record. *)

From S2P Require Import Prelude Bytes Resp Double SkipList Db Rdb RdbFile FloatText Exec.
From S2P Require Import StringCmds KeyCmds HashCmds ListCmds SetCmds ZsetCmds ServerCmds Dispatch Server.
Local Open Scope Z_scope.

(** ** Numbers on the command line *)

Definition INT_MAX : Z := 2147483647.
Definition INT_MIN : Z := -2147483648.
Definition ULLONG_MAX : Z := U64 - 1.

(** [std::atoi]: the behaviour is undefined, [None], for a value that is not an
    [int]. *)
Definition atoi (s : bytes) : option Z :=
  let r := strtoll s in
  if st_erange r || (st_value r <? INT_MIN) || (INT_MAX <? st_value r) then None else Some (st_value r).

(** [std::strtoull(s, nullptr, 10)]: a minus sign negates in the unsigned type,
    and a value out of range is clamped. *)
Definition strtoull (s : bytes) : Z :=
  let '(_, s1) := span isspace s in
  let '(neg, s2) :=
    match s1 with
    | c :: r => if bool_decide (c = "-"%char) then (true, r)
                else if bool_decide (c = "+"%char) then (false, r)
                else (false, s1)
    | [] => (false, s1)
    end in
  let '(ds, _) := span isdigit s2 in
  if digits_val ds >? ULLONG_MAX then ULLONG_MAX
  else if neg : bool then u64 (- digits_val ds) else digits_val ds.

(** ** Options *)

Definition nl : bytes := [kLF].
Definition quote_line (s : string) : bytes := lit s ++ nl.

Definition PrintUsage : bytes :=
  quote_line "Usage: tiny-redis [OPTIONS]" ++ nl ++
  quote_line "A Redis-compatible key-value server in modern C++ (RESP2, kqueue)." ++
  quote_line "Use the official redis-cli / redis-benchmark to talk to it." ++ nl ++
  quote_line "Options:" ++
  quote_line "  -p, --port <port>         TCP port (default 6379)" ++
  quote_line "  -b, --bind <addr>         Bind address (default 127.0.0.1)" ++
  quote_line "  -d, --dir <path>          Working dir for the dump file (default .)" ++
  quote_line "  -f, --dbfilename <name>   Dump filename (default dump.rdb)" ++
  quote_line "  -m, --maxmemory <bytes>   Max memory in bytes, 0 = unlimited" ++
  quote_line "  -v, --version             Print version" ++
  quote_line "  -h, --help                Show this help".

Definition set_port (n : Z) (o : ServerOptions) : ServerOptions :=
  mkOptions n (bind o) (dir o) (dbfilename o) (maxmemory o) (num_databases o).
Definition set_bind (b : bytes) (o : ServerOptions) : ServerOptions :=
  mkOptions (port o) b (dir o) (dbfilename o) (maxmemory o) (num_databases o).
Definition set_dir (d : bytes) (o : ServerOptions) : ServerOptions :=
  mkOptions (port o) (bind o) d (dbfilename o) (maxmemory o) (num_databases o).
Definition set_dbfilename (f : bytes) (o : ServerOptions) : ServerOptions :=
  mkOptions (port o) (bind o) (dir o) f (maxmemory o) (num_databases o).
Definition set_maxmemory (n : Z) (o : ServerOptions) : ServerOptions :=
  mkOptions (port o) (bind o) (dir o) (dbfilename o) n (num_databases o).

Inductive Cli :=
| CliRun (opts : ServerOptions)
| CliExit (code : Z) (stdout stderr : bytes)
| CliUb (why : Ub).

Definition one_of (a : bytes) (short_name long_name : string) : bool :=
  bool_decide (a = lit short_name) || bool_decide (a = lit long_name).

(** The loop over [argv], from [argv[1]] on. *)
Fixpoint parse_args (args : list bytes) (opts : ServerOptions) : Cli :=
  match args with
  | [] => CliRun opts
  | a :: rest =>
      let next (k : bytes -> list bytes -> Cli) : Cli :=
        match rest with
        | [] => CliExit 1 [] (lit "missing value for " ++ a ++ nl)
        | v :: r => k v r
        end in
      if one_of a "-p" "--port" then
        next (fun v r => match atoi v with Some n => parse_args r (set_port n opts) | None => CliUb UbOverflow end)
      else if one_of a "-b" "--bind" then
        next (fun v r => parse_args r (set_bind v opts))
      else if one_of a "-d" "--dir" then
        next (fun v r => parse_args r (set_dir v opts))
      else if one_of a "-f" "--dbfilename" then
        next (fun v r => parse_args r (set_dbfilename v opts))
      else if one_of a "-m" "--maxmemory" then
        next (fun v r => parse_args r (set_maxmemory (strtoull v) opts))
      else if one_of a "-v" "--version" then
        CliExit 0 (quote_line "tiny-redis 1.0.0 (redis-compatible:7.4.0)") []
      else if one_of a "-h" "--help" then CliExit 0 PrintUsage []
      else CliExit 1 PrintUsage (lit "unknown option: " ++ a ++ nl)
  end.

(** ** The server object *)

(** [Server server(opts)]; the files outlive the process. *)
Definition new_server (files : FS) : Server :=
  mkServer new_database (mkStats 0 0 0 0 0 0 false false) (mkRdb files 0) [] 0 false 1 ∅ ∅ 0 ∅ ∅.

(** The descriptors of the server, and the address and port it is bound to. *)
Record Listener := mkListener { listen_fd_ : Z; kq_ : Z; bound : option (Z * Z) }.
Definition no_listener : Listener := mkListener (-1) (-1) None.

(** What the system answers: a descriptor or [errno]; [None] for success or
    [errno]; an address of four bytes when the text is one. *)
Record Net := mkNet {
  net_socket : Z + Z;
  net_inet_pton : bytes -> option Z;
  net_bind : Z -> Z -> option Z;
  net_listen : option Z;
  net_kqueue : Z + Z;
  net_kevent : option Z;
  net_strerror : Z -> bytes
}.

Definition INADDR_ANY : Z := 0.

Definition with_start (t : Z) (s : ServerStats) : ServerStats :=
  mkStats (total_commands s) (total_connections s) (rejected_connections s) (expired_keys s) t
    (connected_clients s) (shutdown_requested s) (shutdown_nosave s).

Section server.
Context `{O : Oracle} (opts_ : ServerOptions) (net : Net).

(** [addr.sin_addr] *)
Definition bind_address : option Z :=
  if bool_decide (bind opts_ = []) || bool_decide (bind opts_ = lit "0.0.0.0") then Some INADDR_ANY
  else net_inet_pton net (bind opts_).

(** [addr.sin_port], in the byte order of the host. *)
Definition bind_port : Z := port opts_ mod 65536.

(** [NowUs] is asked twice, the first time to seed [random]. *)
Definition started : SM unit :=
  t ← ask ticks;
  update (fun s => mkServer (db_ s) (with_start (clock_us (t + 1)) (stats_ s)) (rdb_ s) (children_ s) (t + 2)
    (quit_ s) (next_client_id_ s) (conns_ s) (heap s) (next_addr s) (kq s) (sent s)).

(** The result is [inr] with the error text when the function returns false. *)
Definition Start : SM ((unit + bytes) * Listener) :=
  let fails (what : string) (errno : Z) (l : Listener) :=
    mret (inr (lit what ++ net_strerror net errno), l) in
  match net_socket net with
  | inr e => fails "socket: " e no_listener
  | inl sock =>
      let l := mkListener sock (-1) None in
      match bind_address with
      | None => mret (inr (lit "invalid bind address: " ++ bind opts_), l)
      | Some addr =>
          match net_bind net addr bind_port with
          | Some e => fails "bind: " e l
          | None =>
              let l := mkListener sock (-1) (Some (addr, bind_port)) in
              match net_listen net with
              | Some e => fails "listen: " e l
              | None =>
                  match net_kqueue net with
                  | inr e => fails "kqueue: " e l
                  | inl q =>
                      let l := mkListener sock q (Some (addr, bind_port)) in
                      match net_kevent net with
                      | Some e => fails "kevent(listen): " e l
                      | None => started ≫= fun _ => mret (inl tt, l)
                      end
                  end
              end
          end
      end
  end.

(** [~Server]: the connections, then the descriptors, which are returned. *)
Definition destroy (l : Listener) : SM (list Z) :=
  CloseAll ≫= fun _ =>
  mret ((if 0 <=? listen_fd_ l then [listen_fd_ l] else []) ++ (if 0 <=? kq_ l then [kq_ l] else [])).

(** ** main *)

(** Restore the dump, if any.  [rnd] are the levels drawn for the sorted sets. *)
Definition restore (rnd : Z -> nat -> Z) : SM bytes :=
  t ← ask ticks; db ← ask db_; rdb ← ask rdb_;
  let path := rdb_path opts_ in
  if FileExists path (fs rdb) then
    match LoadPath (iter_order t) rnd path (fs rdb) db with
    | LOk db' =>
        update (fun s => mkServer db' (stats_ s) (rdb_ s) (children_ s) (S t) (quit_ s) (next_client_id_ s)
          (conns_ s) (heap s) (next_addr s) (kq s) (sent s)) ≫= fun _ =>
        mret (lit "[tiny-redis] restored " ++ path ++ lit " (" ++ print_signed (TotalKeys db') ++ quote_line " keys)")
    | LErr e => mret (lit "[tiny-redis] restore failed: " ++ e ++ nl)
    | LFault => bad UbSkipList
    end
  else mret [].

Definition listening_line : bytes :=
  lit "[tiny-redis] listening on " ++ bind opts_ ++ lit ":" ++ print_signed (port opts_) ++ lit " (dbs: " ++
  print_signed (num_databases opts_) ++ lit ", dump: " ++ rdb_path opts_ ++ quote_line ")".

(** The exit status, what [main] itself prints to stderr (the line about the save
    that [Run] prints is left out), and the descriptors closed at the end. *)
Definition run_server (rnd : Z -> nat -> Z) (polls : list Poll) : SM (Z * bytes * list Z) :=
  log ← restore rnd;
  r ← Start;
  match r.1 with
  | inr err => closed ← destroy r.2; mret (1, log ++ lit "[tiny-redis] " ++ err ++ nl, closed)
  | inl _ =>
      Run opts_ polls ≫= fun _ =>
      closed ← destroy r.2;
      mret (0, log ++ listening_line ++ quote_line "[tiny-redis] bye", closed)
  end.
End server.

Inductive Exit :=
| Exits (code : Z) (stdout stderr : bytes) (files : FS)
| Faults (why : Ub)
| Blocks.

Definition main `{O : Oracle} (net : Net) (rnd : Z -> nat -> Z) (polls : list Poll) (files : FS) (args : list bytes)
    : Exit :=
  match parse_args args default_options with
  | CliExit code o e => Exits code o e files
  | CliUb u => Faults u
  | CliRun opts =>
      match run_server opts net rnd polls (new_server files) with
      | Ok (code, log, _) s => Exits code [] log (fs (rdb_ s))
      | Bad u => Faults u
      | Stalled => Blocks
      end
  end.
