(* ===== verification/MainProofs.v ===== *)
(** * The command line and restarts

    The options that the command line sets, and the data that a server finds
    again when it is started after a shutdown. *)

From S2P Require Import Prelude Bytes Resp Double SkipList Db DbProofs DbRefine Rdb RdbProofs RdbFile FloatText.
From S2P Require Import Exec ExecLogic StringCmds KeyCmds HashCmds ListCmds SetCmds ZsetCmds ServerCmds Dispatch.
From S2P Require Import Samples Server ServerInv ServerSafety LoopSafety LoopProofs Main.
Local Open Scope Z_scope.

(** ** Options *)

Inductive Setting := SPort (n : Z) | SBind (addr : bytes) | SDir (path : bytes) | SFile (name : bytes) | SMax (n : Z).

Definition option_name (long : bool) (x : Setting) : bytes :=
  match x with
  | SPort _ => lit (if long then "--port" else "-p")
  | SBind _ => lit (if long then "--bind" else "-b")
  | SDir _ => lit (if long then "--dir" else "-d")
  | SFile _ => lit (if long then "--dbfilename" else "-f")
  | SMax _ => lit (if long then "--maxmemory" else "-m")
  end.
Definition option_value (x : Setting) : bytes :=
  match x with SPort n => print_signed n | SMax n => print_unsigned n | SBind v | SDir v | SFile v => v end.
Definition option_words (x : bool * Setting) : list bytes := [option_name x.1 x.2; option_value x.2].

Definition setting_ok (x : bool * Setting) : Prop :=
  match x.2 with SPort n => INT_MIN <= n <= INT_MAX | SMax n => 0 <= n < U64 | _ => True end.
Definition apply_setting (o : ServerOptions) (x : bool * Setting) : ServerOptions :=
  match x.2 with
  | SPort n => set_port n o
  | SBind v => set_bind v o
  | SDir v => set_dir v o
  | SFile v => set_dbfilename v o
  | SMax n => set_maxmemory n o
  end.

Definition known_options : list bytes :=
  map lit ["-p"; "--port"; "-b"; "--bind"; "-d"; "--dir"; "-f"; "--dbfilename"; "-m"; "--maxmemory";
           "-v"; "--version"; "-h"; "--help"]%string.

Lemma atoi_print n : INT_MIN <= n <= INT_MAX -> atoi (print_signed n) = Some n.
Proof.
  unfold INT_MIN, INT_MAX. intros Hn. unfold atoi. rewrite strtoll_print_signed.
  replace (n >? LLONG_MAX) with false by (unfold LLONG_MAX; lia).
  replace (n <? LLONG_MIN) with false by (unfold LLONG_MIN, LLONG_MAX; lia). cbn [st_erange st_value orb].
  replace (n <? INT_MIN) with false by (unfold INT_MIN; lia). by replace (INT_MAX <? n) with false by (unfold INT_MAX; lia).
Qed.

Lemma strtoull_print n : 0 <= n < U64 -> strtoull (print_unsigned n) = n.
Proof.
  intros Hn. unfold strtoull. pose proof (print_unsigned_isdigit n) as Hd. pose proof (print_unsigned_nonempty n) as Hne.
  pose proof (print_unsigned_val n ltac:(lia)) as Hv. destruct (print_unsigned n) as [|c ds]; [done|].
  apply Forall_cons in Hd as Hd'. destruct Hd' as [Hc _]. cbn [span]. rewrite (isdigit_not_space c Hc).
  destruct (isdigit_not_sign c Hc) as [-> ->]. rewrite span_isdigit_all by done. rewrite Hv.
  by replace (n >? ULLONG_MAX) with false by (unfold ULLONG_MAX; lia).
Qed.

Lemma parse_setting x r o : setting_ok x -> parse_args (option_words x ++ r) o = parse_args r (apply_setting o x).
Proof.
  destruct x as [[] []]; intros H; cbn in H; cbn [option_words app fst snd option_name option_value];
    cbn [parse_args one_of]; unfold one_of; repeat (rewrite bool_decide_eq_true_2 by done); cbn [orb].
  all: try rewrite atoi_print by done; try rewrite strtoull_print by done; try done.
Qed.

Lemma parse_settings xs r o :
  Forall setting_ok xs -> parse_args (concat (map option_words xs) ++ r) o = parse_args r (foldl apply_setting o xs).
Proof.
  intros H. revert o. induction H as [|x xs Hx _ IH]; intros o; [done|]. cbn [map concat foldl].
  by rewrite <- app_assoc, parse_setting.
Qed.

(** C37: The command line sets the options.  Options in their short or long form,
    each followed by its value, set the fields they name, later ones over earlier
    ones, for every port that is an [int] and every limit of 64 bits; an option
    without a value and a word that is no option end the program with status 1
    and a message, whatever came before. *)
Theorem options_roundtrip xs o :
  Forall setting_ok xs ->
  let words := concat (map option_words xs) in
  parse_args words o = CliRun (foldl apply_setting o xs) /\
  (forall long x, parse_args (words ++ [option_name long x]) o =
     CliExit 1 [] (lit "missing value for " ++ option_name long x ++ nl)) /\
  (forall a r, (a ∉ known_options) ->
     parse_args (words ++ a :: r) o = CliExit 1 PrintUsage (lit "unknown option: " ++ a ++ nl)).
Proof.
  intros H. split_and!.
  - rewrite <- (app_nil_r (concat _)), parse_settings by done. done.
  - intros long x. rewrite parse_settings by done. by destruct long, x.
  - intros a r Ha. rewrite parse_settings by done. cbn [parse_args]. unfold one_of.
    repeat (rewrite bool_decide_eq_false_2 by (intros ->; apply Ha; unfold known_options; cbn [map]; set_solver)).
    done.
Qed.

Lemma options_roundtrip_witness :
  parse_args (map lit ["-p"; "7000"; "--dir"; "/tmp"; "--maxmemory"; "18446744073709551615"; "-p"; "-1"]%string)
    default_options
  = CliRun (mkOptions (-1) (lit "127.0.0.1") (lit "/tmp") (lit "dump.rdb") (U64 - 1) 16).
Proof.
  exact (proj1 (options_roundtrip
    [(false, SPort 7000); (true, SDir (lit "/tmp")); (true, SMax (U64 - 1)); (false, SPort (-1))] default_options
    ltac:(by repeat constructor))).
Defined.

(** ** Shutdown *)

(** Steps that touch only connections. *)
Definition tame {A} (m : SM A) : Prop := forall s a s', m s = Ok a s' -> same_rest s s'.

Lemma tame_bind {A B} (m : SM A) (f : A -> SM B) : tame m -> (forall a, tame (f a)) -> tame (m ≫= f).
Proof.
  intros Hm Hf s b s'. unfold mbind, SM_bind. destruct (m s) as [a s1|u|] eqn:E; [|done|done].
  intros E'. etransitivity; [by eapply Hm|by eapply Hf].
Qed.
Lemma tame_ret {A} (a : A) : tame (mret a).
Proof. by intros s b s' [= <- <-]. Qed.
Lemma tame_ask {A} (f : Server -> A) : tame (ask f).
Proof. by intros s b s' [= <- <-]. Qed.
Lemma tame_update f : (forall s, same_rest s (f s)) -> tame (update f).
Proof. by intros H s b s' [= <- <-]. Qed.
Lemma tame_conn a : tame (conn a).
Proof. apply tame_bind; [apply tame_ask|]. intros h. destruct (h !! a); [apply tame_ret|by intros ???]. Qed.

Ltac tame :=
  repeat match goal with
  | |- forall _, _ => intro
  | H : forall _, tame _ |- tame _ => apply H
  | H : tame ?m |- tame ?m => exact H
  | |- tame (mret _) => apply tame_ret
  | |- tame (ask _) => apply tame_ask
  | |- tame (conn _) => apply tame_conn
  | |- tame (_ ≫= _) => apply tame_bind
  | |- tame stalled => by intros ???
  | |- tame (assign _ _) => apply tame_update
  | |- tame (close _) => apply tame_update
  | |- tame (erase_conn _ _) => apply tame_update
  | |- tame (map_stats _) => apply tame_update
  | |- tame (update _) => apply tame_update
  | |- tame (match ?x with _ => _ end) => destruct x
  | |- same_rest _ _ => by split
  end.

Lemma CloseConn_tame a : tame (CloseConn a).
Proof.
  assert (forall en, tame (EnableWrite a en)) by (unfold EnableWrite; tame).
  unfold CloseConn. tame. split; try done. cbn. by case_match.
Qed.

Lemma CloseAll_tame : tame CloseAll.
Proof.
  assert (forall n, tame (close_all n)) as H; [|by unfold CloseAll; tame].
  pose proof CloseConn_tame. induction n as [|n IH]; cbn [close_all]; tame.
Qed.

(** A loop that ends has shut the server down. *)
Lemma Run_shuts `{O : Oracle} opts polls s s' : Run opts polls s = Ok tt s' -> exists s1, shut_down opts s1 = Ok tt s'.
Proof.
  revert s. induction polls as [|p polls IH]; intros s; cbn [Run]; unfold mbind at 1, SM_bind at 1, ask at 1.
  - destruct (quit_ s); [by exists s|done].
  - destruct (quit_ s); [by exists s|]. destruct p as [evs| |]; [|apply IH|by exists s].
    unfold mbind, SM_bind. destruct (handle_events opts evs s) as [[] s1|u|]; [|done|done].
    destruct (PeriodicTasks s1) as [[] s2|u|]; [apply IH|done|done].
Qed.

Lemma save_done (ord : Order) path db now st :
  exists st', SaveToFile ord path db IoOk now st = (inl tt, st') /\ content (fs st') path = Some (Serialize ord db).
Proof.
  unfold SaveToFile. generalize (Serialize ord db) as data. intros data.
  destruct (open_trunc (tmp_of path) (fs st)) as [i fs1] eqn:E.
  assert (names fs1 !! tmp_of path = Some i /\ files fs1 !! i = Some []) as [Hn Hf].
  { unfold open_trunc in E. destruct (names (fs st) !! tmp_of path) eqn:En; injection E as <- <-; simpl;
      by rewrite ?lookup_insert_eq. }
  unfold rename. change (names (write_at i 0 data fs1)) with (names fs1). rewrite Hn. simpl.
  eexists. split; [done|]. unfold content. simpl. rewrite lookup_insert_eq. simpl. by apply (write_whole i data fs1).
Qed.

(** The shutdown saves the database that the server has at the end. *)
Lemma shut_down_saves `{O : Oracle} opts s s' :
  shut_down opts s = Ok tt s' -> shutdown_nosave (stats_ s') = false -> disk (pred (ticks s')) = IoOk ->
  content (fs (rdb_ s')) (rdb_path opts) = Some (Serialize (iter_order (pred (ticks s'))) (db_ s')).
Proof.
  unfold shut_down. unfold mbind at 1, SM_bind at 1, ask at 1.
  unfold mbind at 1, SM_bind at 1. destruct (shutdown_nosave (stats_ s)) eqn:En.
  { intros E%CloseAll_tame Hn. destruct E. apply (f_equal shutdown_nosave) in same_stats. cbn in same_stats. congruence. }
  unfold mbind, SM_bind, ask. destruct (SaveToFile _ _ _ _ _ _) as [r st'] eqn:Es. unfold update.
  intros E%CloseAll_tame _ Hd. rewrite (same_db _ _ E), (same_rdb _ _ E). rewrite (same_ticks _ _ E) in *.
  cbn [db_ rdb_ ticks pred] in *. rewrite Hd in Es.
  destruct (save_done (iter_order (ticks s)) (rdb_path opts) (db_ s) (time_s (ticks s)) (rdb_ s)) as (st1 & E1 & Hc).
  rewrite Es in E1. injection E1 as -> ->. exact Hc.
Qed.

(** ** Restart *)

(** Every system call of [Start] succeeds. *)
Definition net_up (opts : ServerOptions) (net : Net) : Prop :=
  (exists f, net_socket net = inl f) /\
  (exists a, bind_address opts net = Some a /\ net_bind net a (bind_port opts) = None) /\
  net_listen net = None /\ (exists q, net_kqueue net = inl q) /\ net_kevent net = None.

(** The restore and the start, as [main] runs them. *)
Definition boot `{O : Oracle} (opts : ServerOptions) (net : Net) (rnd : Z -> nat -> Z) : SM (unit + bytes) :=
  restore opts rnd ≫= fun _ => r ← Start opts net; mret r.1.

Lemma Start_up `{O : Oracle} opts net s :
  net_up opts net ->
  exists l, Start opts net s = Ok (inl tt, l) (mkServer (db_ s) (with_start (clock_us (ticks s + 1)) (stats_ s)) (rdb_ s)
    (children_ s) (ticks s + 2) (quit_ s) (next_client_id_ s) (conns_ s) (heap s) (next_addr s) (kq s) (sent s)).
Proof.
  intros ((f & Hf) & (a & Ha & Hb) & Hl & (q & Hq) & Hk). unfold Start. rewrite Hf, Ha, Hb, Hl, Hq, Hk. by eexists.
Qed.

Lemma equiv_ok B e e' : entry_equiv e e' -> storable_entry [] e -> 2 ^ 32 <= B -> entry_ok B e'.
Proof.
  intros [Hv Hx] (_ & Hr & Hs) HB. split; [|rewrite <- Hx; unfold in_i64; lia].
  unfold value_equiv in Hv. destruct (value e) as [| | | |z], (value e') as [| | | |z']; try done.
  destruct Hv as (Hd & ks & Hz & Hz'). exists ks. split; [done|]. destruct Hs as (Hn & _).
  destruct Hz as [_ Hp]. apply Permutation_length in Hp. rewrite length_fmap, length_map_to_list in Hp. unfold zlen. lia.
Qed.


#[local] Existing Instance ticking.
#[local] Existing Instance ticking_laws.

(** A server with data that gets a signal, and the same server started again. *)
Definition loaded_server : Server :=
  mkServer (snapshot_until 4000000000000) (mkStats 0 0 0 0 1700000000000000 0 false false) (mkRdb (mkFS ∅ ∅ 0) 0) [] 0 false 1 ∅ ∅ 0 ∅ ∅.
Definition net0 : Net :=
  mkNet (inl 3) (fun a => if bool_decide (a = lit "127.0.0.1") then Some 2130706433 else None) (fun _ _ => None) None
    (inl 4) None (fun _ => []).

Lemma net0_up : net_up default_options net0.
Proof. split_and!; [by exists 3|by exists 2130706433|done|by exists 4|done]. Qed.


(** ** What goes wrong *)

(** The exit status and the dump file after one signal. *)
Definition dump_after (files : FS) (args : list string) : option (Z * option bytes) :=
  match main net0 (fun _ _ => 0) [PEvents [EvSignal]] files (map lit args) with
  | Exits code _ _ files' => Some (code, content files' (rdb_path default_options))
  | _ => None
  end.
Definition bound_to (opts : ServerOptions) : option Z :=
  match Start opts net0 (new_server (mkFS ∅ ∅ 0)) with Ok (_, l) _ => snd <$> bound l | _ => None end.
Definition reply_of (opts : ServerOptions) (c : list string) : option bytes :=
  match Dispatch opts 2 (cmd c) start_world with Done _ w => Some (w_out w) | _ => None end.

