(* ===== verification/Pipeline.v ===== *)
(** * From bytes to bytes

    The parser, the commands and the event loop together: whatever the pieces in
    which a client's requests arrive and its replies are taken, it reads the
    replies of the commands run one after the other. *)

From S2P Require Import Prelude Bytes Resp RespProofs Double SkipList Db DbProofs DbRefine Rdb RdbFile FloatText.
From S2P Require Import Exec ExecLogic StringCmds KeyCmds HashCmds ListCmds SetCmds ZsetCmds ServerCmds Dispatch.
From S2P Require Import CommandSafety HandlerSafety DispatchProofs CommandFrame DispatchBudget Samples Transactions.
From S2P Require Import Server ServerInv ServerSafety LoopSafety LoopProofs.
Local Open Scope Z_scope.

(** The world as one client sees it: its output is all it was ever sent or will
    be sent next. *)
Definition view (s : Server) (a : nat) (c : Connection) : World := pre (sent_of s a) (world_of s c).

(** One event for each chunk, with the answers of [write] in it. *)
Definition chunk_events (a : nat) (chunks : list (bytes * list WriteRes)) : list Event :=
  map (fun x => EvConn a EVFILT_READ [RData x.1] x.2) chunks.

Definition chunk_ok (x : bytes * list WriteRes) : Prop :=
  x.1 <> [] /\ zlen x.1 < kReadBuf /\ soft_writes x.2 /\ complete_writes x.2.

(** Nobody has asked to stop. *)
Definition going (w : World) : Prop := quit_requested (w_cs w) = false /\ shutdown_requested (w_stats w) = false.

Definition anything (argv : list bytes) : Prop := True.

Section pipeline.
Context `{O : Oracle} `{!OracleLaws O} (opts : ServerOptions).
Hypothesis Hdbs : num_databases opts <= Z.of_nat kNumDatabases.
Implicit Types (s : Server) (a : nat) (c : Connection).

(** Commands one after the other, each counted. *)
Definition serve_one (argv : list bytes) : M unit :=
  modify (fun w => with_stats (one_command (w_stats w)) w) ≫= fun _ => Dispatch opts 2 argv.
Definition serve (cmds : list (list bytes)) : M unit := for_each serve_one cmds.

Lemma serve_one_keeps argv w w' : serve_one argv w = Done tt w' -> going w' -> going w.
Proof.
  unfold serve_one, mbind, M_bind, modify. set (w1 := with_stats _ _). intros E [Hq Hs].
  pose proof (Dispatch_polite opts 2 argv w1) as K. rewrite E in K. destruct K. split.
  - destruct ks_quit as [K|[_ K]]; [|congruence]. rewrite <- Hq, K. done.
  - destruct (shutdown_requested (w_stats w)) eqn:E'; [|done]. rewrite ks_shutdown in Hs; done.
Qed.

Lemma serve_going cmds w w' : serve cmds w = Done tt w' -> going w' -> going w.
Proof.
  revert w. induction cmds as [|argv cmds IH]; intros w; [by intros [= ->]|].
  unfold serve. cbn [for_each]. unfold mbind, M_bind. destruct (serve_one argv w) as [[] w1|u] eqn:E1; [|done].
  intros E Hg. eapply serve_one_keeps; [exact E1|]. by apply IH.
Qed.

(** A command on the connection is a command on the view. *)
Lemma dispatch_view N s a c argv w :
  srv_ok anything N s -> heap s !! a = Some c -> N + zlen argv <= LLONG_MAX ->
  serve_one argv (view s a c) = Done tt w ->
  exists s' c', dispatch opts a argv s = Ok tt s' /\ srv_ok anything (N + zlen argv) s' /\ served s a c s' c' /\
    heap s' !! a = Some c' /\ view s' a c' = w /\ state c' = w_cs w.
Proof.
  intros H Hc HN Hw. pose proof (dispatch_ok opts Hdbs anything N s a c argv H Hc I HN) as D.
  unfold serve_one, mbind, M_bind, modify in Hw.
  change (with_stats _ (view s a c)) with (pre (sent_of s a) (world_of (set_stats (one_command (stats_ s)) s) c)) in Hw.
  rewrite Dispatch_framed in Hw. unfold dispatch in *. erewrite sbind_run in D |- * by done.
  rewrite (sbind_run _ _ _ _ _ (conn_run a c (set_stats (one_command (stats_ s)) s) Hc)) in D |- *.
  unfold call_dispatch in *.
  destruct (Dispatch opts 2 argv (world_of (set_stats (one_command (stats_ s)) s) c)) as [[] w1|u]; [|done].
  injection Hw as <-. destruct D as (c' & H' & Hs & Hc' & _). cbn in Hc'. rewrite lookup_insert_eq in Hc'.
  injection Hc' as <-. eexists _, _. split; [done|]. split_and!; [done|done|cbn; by rewrite lookup_insert_eq| |done].
  unfold view, pre, sent_of. cbn. by destruct w1.
Qed.

Lemma run_commands_view N s a c cmds w :
  srv_ok anything N s -> heap s !! a = Some c -> N + args_of cmds <= LLONG_MAX -> Forall (fun x => x <> []) cmds ->
  serve cmds (view s a c) = Done tt w -> going w ->
  exists s' c', run_commands opts a cmds s = Ok false s' /\ srv_ok anything (N + args_of cmds) s' /\
    served s a c s' c' /\ heap s' !! a = Some c' /\ view s' a c' = w.
Proof.
  intros H Hc HN Hne. revert N s c H Hc HN. induction Hne as [|argv cmds Hx Hne IH]; intros N s c H Hc HN Hw Hg.
  { injection Hw as <-. exists s, c. change (args_of []) with 0. rewrite Z.add_0_r. split_and!; try done.
    split; try done. by rewrite insert_id. }
  rewrite args_of_cons in *. pose proof (args_of_nonneg cmds) as Hn1.
  unfold serve in Hw. cbn [for_each] in Hw. unfold mbind, M_bind in Hw.
  destruct (serve_one argv (view s a c)) as [[] w1|u] eqn:E1; [|done].
  destruct (dispatch_view N s a c argv w1 H Hc ltac:(lia) E1) as (s1 & c1 & Ed & H1 & Hs1 & Hc1 & Hv1 & Hst1).
  cbn [run_commands]. rewrite bool_decide_eq_false_2 by done.
  rewrite (sbind_run _ _ _ _ _ Ed). rewrite (sbind_run _ _ _ _ _ (conn_run _ _ _ Hc1)). erewrite sbind_run by done.
  destruct (serve_going cmds w1 w Hw Hg) as [Hq1 Hd1]. rewrite Hst1, Hq1.
  assert (stats_ s1 = w_stats w1) as -> by (by rewrite <- Hv1). rewrite Hd1.
  destruct (IH (N + zlen argv) s1 c1 H1 Hc1 ltac:(lia)) as (s' & c' & E' & H' & Hs' & Hc' & Hv'); [by rewrite Hv1|done|].
  exists s', c'. split_and!; try done; [by rewrite Z.add_assoc|by eapply served_trans].
Qed.

Lemma written_stats N s a c s' c' :
  srv_ok anything N s -> srv_ok anything N s' -> same_rest s s' -> written s a c s' c' -> stats_ s' = stats_ s.
Proof.
  intros H H' Hr Wr. apply same_rest_stats; [done|].
  by rewrite (ok_count _ _ _ H'), (ok_count _ _ _ H), (wr_conns _ _ _ _ _ Wr).
Qed.

(** A reply on its way does not change the view. *)
Lemma written_view N s a c s' c' :
  srv_ok anything N s -> srv_ok anything N s' -> same_rest s s' -> written s a c s' c' -> view s' a c' = view s a c.
Proof.
  intros H H' Hr Wr. pose proof (written_stats N s a c s' c' H H' Hr Wr) as Hst. destruct Hr, Wr.
  unfold view, pre, world_of, with_out. cbn. by rewrite wr_bytes, wr_state, same_db, same_rdb, same_children, same_ticks, Hst.
Qed.

(** What belongs to nobody or to others than [a]: not even the bytes on their way
    to another client have changed. *)
Record kept s a s' : Prop := {
  kept_next : next_addr s' = next_addr s;
  kept_id : next_client_id_ s' = next_client_id_ s;
  kept_quit : quit_ s' = quit_ s;
  kept_sent : forall b, b <> a -> sent_of s' b = sent_of s b
}.

Lemma kept_trans s1 s2 s3 a : kept s1 a s2 -> kept s2 a s3 -> kept s1 a s3.
Proof. intros [] []. split; try congruence. intros b Hb. by rewrite kept_sent1, kept_sent0. Qed.

Lemma served_kept s a c s' c' : served s a c s' c' -> kept s a s'.
Proof. intros []. split; try done. intros b _. unfold sent_of. by rewrite sv_sent. Qed.

Lemma written_kept s a c s' c' : same_rest s s' -> written s a c s' c' -> kept s a s'.
Proof. intros [] []. by split. Qed.

Lemma flush_view N s a c ws :
  srv_ok anything N s -> heap s !! a = Some c -> soft_writes ws -> complete_writes ws ->
  exists s' c', flush a ws s = Ok tt s' /\ srv_ok anything N s' /\ heap s' = <[a := c']> (heap s) /\
    parser c' = parser c /\ view s' a c' = view s a c /\ kept s a s'.
Proof.
  intros H Hc Hs Hw. unfold flush. rewrite (sbind_run _ _ _ _ _ (conn_run _ _ _ Hc)).
  case_bool_decide; [exists s, c; split_and!; try done; by rewrite insert_id|].
  pose proof (OnWritable_ok anything N ws s a c H Hc) as W. unfold write_post in W.
  destruct (OnWritable a ws s) as [[] s'|u|]; [|done|done].
  destruct W as (H' & Hr & [(c' & Wr)|(Hn & _)]); [|done].
  exists s', c'. split_and!; [done|done|apply Wr|apply Wr|by eapply written_view|by eapply written_kept].
Qed.

(** The handler from the parsed commands on. *)
Lemma commands_view N s a c cmds ws w :
  srv_ok anything N s -> heap s !! a = Some c -> soft_writes ws -> complete_writes ws ->
  N + args_of cmds <= LLONG_MAX -> Forall (fun x => x <> []) cmds ->
  serve cmds (view s a c) = Done tt w -> going w ->
  exists s' c', (seen ← run_commands opts a cmds; returned ← after_commands a seen ws;
      if returned : bool then mret tt else flush a ws) s = Ok tt s' /\
    srv_ok anything (N + args_of cmds) s' /\ heap s' = <[a := c']> (heap s) /\ parser c' = parser c /\
    view s' a c' = w /\ kept s a s'.
Proof.
  intros H Hc Hs Hw HN Hne Hv Hg.
  destruct (run_commands_view N s a _ cmds w H Hc HN Hne Hv Hg) as (s2 & c2 & E2 & H2 & Hs2 & Hc2 & Hv2).
  rewrite (sbind_run _ _ _ _ _ E2). destruct Hg as [Hq Hd].
  erewrite sbind_run.
  2: { unfold after_commands. erewrite sbind_run by done.
       assert (stats_ s2 = w_stats w) as -> by (by rewrite <- Hv2). rewrite Hd. cbn [orb].
       rewrite (sbind_run _ _ _ _ _ (conn_run _ _ _ Hc2)).
       assert (state c2 = w_cs w) as -> by (by rewrite <- Hv2). rewrite Hq. done. }
  destruct (flush_view _ s2 a c2 ws H2 Hc2 Hs Hw) as (s3 & c3 & E3 & H3 & Hh3 & Hp3 & Hv3 & Hk3).
  exists s3, c3. split_and!; [done|done| | |congruence|].
  - rewrite Hh3, (sv_heap _ _ _ _ _ Hs2). by rewrite !insert_insert_eq.
  - rewrite Hp3. by rewrite (sv_parser _ _ _ _ _ Hs2).
  - eapply kept_trans; [by eapply served_kept|done].
Qed.

(** One chunk that the parser accepts. *)
Lemma chunk_view N s a c x cmds p w :
  srv_ok anything N s -> heap s !! a = Some c -> chunk_ok x -> Feed x.1 (parser c) = Some (cmds, p) ->
  has_error p = false -> N + args_of cmds <= LLONG_MAX -> Forall (fun x => x <> []) cmds ->
  serve cmds (view s a c) = Done tt w -> going w ->
  exists s' c', handle_event opts (EvConn a EVFILT_READ [RData x.1] x.2) s = Ok tt s' /\
    srv_ok anything (N + args_of cmds) s' /\ heap s' = <[a := c']> (heap s) /\ parser c' = p /\ view s' a c' = w.
Proof.
  intros H Hc (Hx & Hl & Hs & Hw) Hf He HN Hne Hv Hg. destruct x as [b ws]. cbn [fst snd] in *.
  cbn [handle_event]. rewrite (sbind_run _ _ _ _ _ (conn_run _ _ _ Hc)). erewrite sbind_run by done.
  destruct (ok_heap _ _ _ H _ _ Hc) as [-> _]. unfold OnReadable. cbn [read_loop].
  destruct b as [|y b]; [done|]. set (data := y :: b) in *.
  set (s1 := set_heap (<[a := with_parser p c]> (heap s)) s).
  erewrite sbind_run.
  2: { rewrite (sbind_run _ _ _ _ _ (conn_run _ _ _ Hc)). rewrite Hf. erewrite sbind_run by done.
       rewrite He. replace (zlen data <? kReadBuf) with true by lia. done. }
  assert (H1 : srv_ok anything N s1) by (by apply (ok_assign anything N s a c)).
  assert (Hc1 : heap s1 !! a = Some (with_parser p c)) by (cbn; by rewrite lookup_insert_eq).
  destruct (commands_view N s1 a _ cmds ws w H1 Hc1 Hs Hw HN Hne Hv Hg) as (s3 & c3 & E3 & H3 & Hh3 & Hp3 & Hv3 & _).
  exists s3, c3. split_and!; [done|done| |done|done]. rewrite Hh3. cbn. by rewrite !insert_insert_eq.
Qed.

Lemma serve_app cs ds w : serve (cs ++ ds) w = (serve cs ≫= fun _ => serve ds) w.
Proof.
  revert w. induction cs as [|argv cs IH]; intros w; [done|]. unfold serve in *. cbn [for_each app].
  unfold mbind, M_bind in *. destruct (serve_one argv w) as [[] w1|u]; [apply IH|done].
Qed.

Lemma fits_nonempty cmds : Forall fits cmds -> Forall (fun x => x <> []) cmds.
Proof. intros H. eapply Forall_impl; [exact H|]. by intros argv [[? _] _]. Qed.

(** The chunks in turn, when [b] was already buffered and [rest] comes later. *)
Lemma chunks_view N s a c chunks cmds b fut w :
  srv_ok anything N s -> heap s !! a = Some c -> parser c = mkParser b [] -> Forall chunk_ok chunks ->
  Forall fits cmds -> pending cmds b -> encode_stream cmds = b ++ concat chunks.*1 ++ fut ->
  N + args_of cmds <= LLONG_MAX -> serve cmds (view s a c) = Done tt w -> going w ->
  exists fin rest b' w1 s' c', cmds = fin ++ rest /\ encode_stream rest = b' ++ fut /\ pending rest b' /\
    serve fin (view s a c) = Done tt w1 /\
    handle_events opts (chunk_events a chunks) s = Ok tt s' /\ srv_ok anything (N + args_of fin) s' /\
    heap s' = <[a := c']> (heap s) /\ parser c' = mkParser b' [] /\ view s' a c' = w1.
Proof.
  intros H Hc Hp Hch. revert N s c cmds b H Hc Hp.
  induction Hch as [|x chunks Hx Hch IH]; intros N s c cmds b H Hc Hp Hf Hpe Hs HN Hv Hg.
  { exists [], cmds, b, (view s a c), s, c. split_and!; try done; [by rewrite Z.add_0_r|by rewrite insert_id]. }
  cbn [fmap list_fmap concat] in Hs. rewrite <- app_assoc in Hs.
  destruct (Feed_stream cmds b x.1 (concat chunks.*1 ++ fut) Hf Hpe) as (d1 & r1 & b1 & Ef & -> & Hs1 & Hp1); [|done|].
  { destruct Hx as (_ & ? & _). unfold kReadBuf, read_size in *. lia. }
  apply Forall_app in Hf as [Hf0 Hf1]. rewrite args_of_app in HN. pose proof (args_of_nonneg r1) as Hn1.
  rewrite serve_app in Hv. unfold mbind, M_bind in Hv. destruct (serve d1 (view s a c)) as [[] w1|u] eqn:E1; [|done].
  pose proof (serve_going r1 w1 w Hv Hg) as Hg1.
  destruct (chunk_view N s a c x d1 (mkParser b1 []) w1) as (s1 & c1 & Ee & H1 & Hh1 & Hp2 & Hv1); try done.
  { by rewrite Hp. }
  { lia. }
  { by apply fits_nonempty. }
  assert (Hc1 : heap s1 !! a = Some c1) by (rewrite Hh1; by rewrite lookup_insert_eq).
  destruct (IH (N + args_of d1) s1 c1 r1 b1 H1 Hc1 Hp2 Hf1 Hp1 Hs1 ltac:(lia)) as
    (fin & rest & b' & w2 & s' & c' & -> & Hr & Hpr & Hw2 & Eh & Hok & Hh & Hpc & Hvc); [by rewrite Hv1|done|].
  exists (d1 ++ fin), rest, b', w2, s', c'. split_and!; try done.
  - by rewrite app_assoc.
  - rewrite serve_app. unfold mbind, M_bind. rewrite E1. by rewrite <- Hv1.
  - cbn [chunk_events map handle_events]. by rewrite (sbind_run _ _ _ _ _ Ee).
  - by rewrite args_of_app, Z.add_assoc.
  - by rewrite Hh, Hh1, insert_insert_eq.
Qed.

(** All the chunks of the requests. *)
Lemma requests_view N s a c cmds chunks w :
  srv_ok anything N s -> heap s !! a = Some c -> parser c = mkParser [] [] ->
  Forall fits cmds -> Forall chunk_ok chunks -> concat chunks.*1 = encode_stream cmds ->
  N + args_of cmds <= LLONG_MAX -> serve cmds (view s a c) = Done tt w -> going w ->
  exists s' c', handle_events opts (chunk_events a chunks) s = Ok tt s' /\ srv_ok anything (N + args_of cmds) s' /\
    view s' a c' = w /\ heap s' = <[a := c']> (heap s) /\ parser c' = mkParser [] [].
Proof.
  intros H Hc Hp Hf Hch Hs HN Hv Hg.
  destruct (chunks_view N s a c chunks cmds [] [] w) as
    (fin & rest & b' & w1 & s' & c' & -> & Hr & Hpr & Hw1 & Eh & Hok & Hh & Hpc & Hvc); try done.
  { destruct Hf as [|x xs Hx]; [done|]. apply encode_request_pos. }
  { by rewrite app_nil_r. }
  rewrite app_nil_r in Hr. destruct (stream_done _ _ Hr Hpr) as [-> ->]. rewrite app_nil_r in *.
  exists s', c'. split_and!; [done|done|congruence|done|done].
Qed.

(** *** Delivery *)

(** Writable events, in each of which the kernel takes something. *)
Definition drain_events (a : nat) (wss : list (list WriteRes)) : list Event :=
  map (fun ws => EvConn a EVFILT_WRITE [] ws) wss.
Definition drain_ok (ws : list WriteRes) : Prop := soft_writes ws /\ complete_writes ws /\ takes ws = true.

Lemma drain_view N wss : forall s a c,
  srv_ok anything N s -> heap s !! a = Some c -> Forall drain_ok wss ->
  exists s' c', handle_events opts (drain_events a wss) s = Ok tt s' /\ srv_ok anything N s' /\
    heap s' = <[a := c']> (heap s) /\ view s' a c' = view s a c /\
    (length (out c') <= length (out c) - length wss)%nat /\ (wss <> [] -> want_write c' = negb (bool_decide (out c' = []))).
Proof.
  induction wss as [|ws wss IH]; intros s a c H Hc Hd.
  { exists s, c. split_and!; try done; [by rewrite insert_id|cbn; lia]. }
  apply Forall_cons in Hd as [(Hs & Hw & Ht) Hd].
  destruct (OnWritable_takes anything N ws s a c H Hc Hs Hw Ht) as (s1 & c1 & E1 & H1 & Hr & Wr & Hl).
  assert (Ee : handle_event opts (EvConn a EVFILT_WRITE [] ws) s = Ok tt s1).
  { cbn [handle_event]. rewrite (sbind_run _ _ _ _ _ (conn_run _ _ _ Hc)). erewrite sbind_run by done.
    by destruct (ok_heap _ _ _ H _ _ Hc) as [-> _]. }
  pose proof (wr_heap _ _ _ _ _ Wr) as Hh1.
  destruct (IH s1 a c1 H1) as (s' & c' & E' & H' & Hh & Hv & Hl' & Hwant); [by rewrite Hh1, lookup_insert_eq|done|].
  exists s', c'. split_and!.
  - cbn [drain_events map handle_events]. by rewrite (sbind_run _ _ _ _ _ Ee).
  - done.
  - by rewrite Hh, Hh1, insert_insert_eq.
  - rewrite Hv. by eapply written_view.
  - cbn [length]. lia.
  - intros _. destruct wss as [|ws' wss]; [|by apply Hwant]. cbn in E'. injection E' as <-.
    rewrite Hh1 in Hh. rewrite insert_insert_eq in Hh. apply (f_equal (fun h => h !! a)) in Hh.
    rewrite !lookup_insert_eq in Hh. injection Hh as <-. apply Wr.
Qed.

Lemma handle_events_app evs evs' s s1 :
  handle_events opts evs s = Ok tt s1 -> handle_events opts (evs ++ evs') s = handle_events opts evs' s1.
Proof.
  revert s. induction evs as [|ev evs IH]; intros s; cbn [handle_events app]; [by intros [= <-]|].
  unfold mbind, SM_bind. destruct (handle_event opts ev s) as [[] s2|u|]; [apply IH|done|done].
Qed.

(** C8: Every reply arrives.  When a client's requests have come in, in any pieces,
    and its socket then becomes writable as often as there are bytes left, with the
    kernel taking at least one byte each time, the client has received exactly the
    replies of its commands run one after the other; nothing is left in the buffer,
    and the loop has stopped waiting for the socket.  Other connections are as before. *)
Theorem replies_delivered N s a c cmds chunks wss w :
  srv_ok anything N s -> heap s !! a = Some c -> parser c = mkParser [] [] ->
  Forall fits cmds -> Forall chunk_ok chunks -> concat chunks.*1 = encode_stream cmds ->
  N + args_of cmds <= LLONG_MAX -> serve cmds (view s a c) = Done tt w -> going w ->
  Forall drain_ok wss -> wss <> [] -> (length (w_out w) <= length wss)%nat ->
  exists s' c', handle_events opts (chunk_events a chunks ++ drain_events a wss) s = Ok tt s' /\
    sent_of s' a = w_out w /\ db_ s' = w_db w /\ heap s' = <[a := c']> (heap s) /\ out c' = [] /\ want_write c' = false.
Proof.
  intros H Hc Hp Hf Hch Hs HN Hv Hg Hd Hne Hlen.
  destruct (requests_view N s a c cmds chunks w) as (s1 & c1 & E1 & H1 & Hv1 & Hh1 & _); try done.
  destruct (drain_view _ wss s1 a c1 H1) as (s' & c' & E' & _ & Hh & Hv' & Hl & Hw); [by rewrite Hh1, lookup_insert_eq|done|].
  assert (length (out c1) <= length (w_out w))%nat.
  { rewrite <- Hv1. unfold view, pre, world_of, with_out. cbn. rewrite length_app. lia. }
  assert (out c' = []) as Ho by (apply nil_length_inv; lia).
  exists s', c'. split_and!; [|..|done|].
  - by rewrite (handle_events_app _ _ _ _ E1).
  - rewrite <- Hv1, <- Hv'. unfold view, pre, world_of, with_out. cbn. by rewrite Ho, app_nil_r.
  - by rewrite <- Hv1, <- Hv'.
  - by rewrite Hh, Hh1, insert_insert_eq.
  - rewrite Hw by done. by rewrite Ho.
Qed.
End pipeline.

(** ** Example *)

#[local] Existing Instance ticking.
#[local] Existing Instance ticking_laws.

(** Two requests, cut in the middle of a word; the first event takes no reply and
    the second event takes a part of them. *)
Definition two_requests : list (list bytes) := [cmd ["SET"; "k"; "v"]; cmd ["GET"; "k"]]%string.
Definition two_chunks : list (bytes * list WriteRes) :=
  [(take 20 (encode_stream two_requests), [WAgain]); (drop 20 (encode_stream two_requests), [WSent 7; WAgain])].

Definition idle_conn : Connection := mkConn 5 [] (mkParser [] []) (new_client 1) false.
Definition one_byte_at_a_time : list (list WriteRes) := replicate 12 [WIntr; WSent 1; WAgain].

Lemma two_chunks_ok : Forall chunk_ok two_chunks.
Proof.
  repeat (apply Forall_cons; split); [..|done]; (split_and!; [by vm_compute|by vm_compute|by repeat constructor|]);
    (apply Exists_exists; exists WAgain; split; [by repeat constructor|by right]).
Qed.

Lemma one_byte_ok : Forall drain_ok one_byte_at_a_time.
Proof.
  apply Forall_replicate. split_and!; [by repeat constructor| |done].
  apply Exists_exists. exists WAgain. split; [by repeat constructor|by right].
Qed.

Lemma replies_delivered_witness :
  exists s', handle_events default_options (chunk_events 0 two_chunks ++ drain_events 0 one_byte_at_a_time)
      (accepted server0 5) = Ok tt s' /\
    sent_of s' 0 = lit "+OK" ++ crlf ++ lit "$1" ++ crlf ++ lit "v" ++ crlf.
Proof.
  destruct (serve default_options two_requests (view (accepted server0 5) 0 idle_conn)) as [[] w|u] eqn:E; [|by vm_compute in E].
  assert (w_out w = lit "+OK" ++ crlf ++ lit "$1" ++ crlf ++ lit "v" ++ crlf /\ going w) as [Ho Hg].
  { vm_compute in E. injection E as <-. split; [by vm_compute|by split]. }
  destruct (replies_delivered default_options ltac:(by vm_compute) 0 (accepted server0 5) 0 idle_conn two_requests
    two_chunks one_byte_at_a_time w) as (s' & c' & Eh & Hs & _).
  - apply accepted_ok; [by apply fresh_ok|done|done].
  - by vm_compute.
  - done.
  - repeat constructor; by vm_compute.
  - exact two_chunks_ok.
  - by vm_compute.
  - by vm_compute.
  - exact E.
  - exact Hg.
  - exact one_byte_ok.
  - done.
  - rewrite Ho. by vm_compute.
  - exists s'. split; [exact Eh|]. rewrite Hs. exact Ho.
Defined.
