(* ===== verification/Machine.v ===== *)
(** * The server as a machine of clients

    What the event loop promises, without descriptors, buffers, registrations or
    pointers: a store and a set of clients, each with its state, its unfinished
    input and the bytes it has been sent.  A client connects, says something or
    leaves, and between the batches the store expires keys.  [loop_refines_machine]
    shows that the loop of [src/src/server.cpp] is this machine, for any number of
    clients whose events are interleaved in any way. *)

From S2P Require Import Prelude Bytes Resp RespProofs Double SkipList Db DbProofs DbRefine Rdb RdbFile FloatText.
From S2P Require Import Exec ExecLogic StringCmds KeyCmds HashCmds ListCmds SetCmds ZsetCmds ServerCmds Dispatch.
From S2P Require Import CommandSafety HandlerSafety DispatchProofs CommandFrame DispatchBudget Samples Transactions.
From S2P Require Import Server ServerInv ServerSafety LoopSafety LoopProofs Pipeline.
Local Open Scope Z_scope.

(** ** The machine *)

Record Client := mkClient {
  cl_state : ClientState;
  cl_in : RequestParser;
  cl_out : bytes                      (* all replies so far, delivered or not *)
}.

Record Machine := mkMachine {
  m_db : Database;
  m_stats : ServerStats;
  m_rdb : RdbState;
  m_children : list Child;
  m_tick : nat;
  m_next : nat;                       (* the name of the next client *)
  m_id : Z;                           (* and the id it is given *)
  m_args : Z;                         (* arguments received, for the bound on the stored lengths *)
  m_clients : gmap nat Client
}.

Inductive Action := Connect | Receive (a : nat) (reads : list ReadRes) | Tick.

(** The parser after what was read. *)
Fixpoint parser_after (p : RequestParser) (reads : list ReadRes) : RequestParser :=
  match reads with
  | RIntr :: r => parser_after p r
  | RData (x :: b) :: r =>
      match Feed (x :: b) p with
      | None => p
      | Some (_, p') => if has_error p' || (zlen (x :: b) <? kReadBuf) then p' else parser_after p' r
      end
  | _ => p
  end.

#[export] Instance going_dec w : Decision (going w).
Proof. unfold going. apply _. Defined.

Definition nonempty (cmds : list (list bytes)) : list (list bytes) := filter (fun argv => argv <> []) cmds.

Section machine.
Context `{O : Oracle} (opts : ServerOptions).
Implicit Types (m : Machine) (cl : Client).

Definition client_world m cl : World :=
  mkWorld (m_db m) (cl_state cl) (m_stats m) (m_rdb m) (m_children m) (cl_out cl) (m_tick m).

Definition m_connect m : Machine :=
  mkMachine (m_db m) (clients (fun n => n + 1) (one_connection (m_stats m))) (m_rdb m) (m_children m) (m_tick m)
    (S (m_next m)) (u64 (m_id m + 1)) (m_args m)
    (<[m_next m := mkClient (new_client (m_id m)) (mkParser [] []) []]> (m_clients m)).

Definition m_leave (a : nat) m : Machine :=
  mkMachine (m_db m) (clients (fun n => n - 1) (m_stats m)) (m_rdb m) (m_children m) (m_tick m) (m_next m) (m_id m)
    (m_args m) (delete a (m_clients m)).

(** The commands of a client, all of them before anything else happens. *)
Definition m_serve (a : nat) (p : RequestParser) (n : Z) (w : World) m : Machine :=
  mkMachine (w_db w) (w_stats w) (w_rdb w) (w_children w) (w_tick w) (m_next m) (m_id m) (m_args m + n)
    (<[a := mkClient (w_cs w) p (w_out w)]> (m_clients m)).

Definition m_expire m : Machine :=
  let t := m_tick m in
  let r := ActiveExpireCycle (iter_order t) (fun d => rng32 (t + d)) (fun d => Z.quot (clock_us (t + d)) 1000) (m_db m) in
  mkMachine r.2 (more_expired r.1 (m_stats m)) (m_rdb m) (filter (fun c => exited c = false) (m_children m))
    (t + kNumDatabases) (m_next m) (m_id m) (m_args m) (m_clients m).

(** [None]: no such client, a command with undefined behaviour, or a request to stop. *)
Definition m_step (act : Action) m : option Machine :=
  match act with
  | Connect => Some (m_connect m)
  | Tick => Some (m_expire m)
  | Receive a reads =>
      cl ← m_clients m !! a;
      match input_of (cl_in cl) reads with
      | Commands cs =>
          match serve opts (nonempty cs) (client_world m cl) with
          | Done _ w => if decide (going w) then Some (m_serve a (parser_after (cl_in cl) reads) (args_of cs) w m) else None
          | Undef _ => None
          end
      | Hangup | Garbage => Some (m_leave a m)
      end
  end.

Fixpoint m_run (acts : list Action) m : option Machine :=
  match acts with
  | [] => Some m
  | act :: r => m_step act m ≫= m_run r
  end.

Lemma m_run_app acts acts' m : m_run (acts ++ acts') m = m_run acts m ≫= m_run acts'.
Proof. revert m. induction acts as [|act acts IH]; intros m; cbn; [done|]. destruct (m_step act m); [apply IH|done]. Qed.

(** The bound on the arguments only grows. *)
Lemma m_run_args acts m m' : m_run acts m = Some m' -> m_args m <= m_args m'.
Proof.
  revert m. induction acts as [|act acts IH]; intros m; cbn; [intros [= <-]; lia|].
  intros (m1 & E1 & E)%bind_Some. specialize (IH _ E). enough (m_args m <= m_args m1) by lia. clear IH E.
  destruct act as [|a reads|]; [by injection E1 as <-| |by injection E1 as <-].
  apply bind_Some in E1 as (cl & Hcl & E). destruct (input_of _ _) as [cs| |]; [|by injection E as <-..].
  destruct (serve _ _ _) as [? w|]; [|done]. case_decide; [|done]. injection E as <-.
  cbn. pose proof (args_of_nonneg cs). lia.
Qed.
End machine.

(** ** The events as actions *)

(** One client for each descriptor that [accept] returns. *)
Fixpoint arrivals (acc : list AcceptRes) : list Action :=
  match acc with
  | AFd _ :: r => Connect :: arrivals r
  | AIntr :: r => arrivals r
  | _ => []
  end.

(** That a socket takes bytes is nothing the machine can see. *)
Definition action_of (ev : Event) : list Action :=
  match ev with
  | EvListen acc => arrivals acc
  | EvConn a EVFILT_READ reads _ => [Receive a reads]
  | _ => []
  end.

Definition actions_of (polls : list Poll) : list Action :=
  flat_map (fun poll => match poll with PEvents evs => flat_map action_of evs ++ [Tick] | _ => [] end) polls.

(** ** The abstraction *)

Definition client_of (s : Server) (a : nat) (c : Connection) : Client :=
  mkClient (state c) (parser c) (sent_of s a ++ out c).
Definition clients_of (s : Server) : gmap nat Client := map_imap (fun a c => Some (client_of s a c)) (heap s).
Definition abs (n : Z) (s : Server) : Machine :=
  mkMachine (db_ s) (stats_ s) (rdb_ s) (children_ s) (ticks s) (next_addr s) (next_client_id_ s) n (clients_of s).

Lemma clients_of_lookup s a : clients_of s !! a = client_of s a <$> heap s !! a.
Proof. unfold clients_of. rewrite map_lookup_imap. by destruct (heap s !! a). Qed.

Lemma clients_of_insert s s' a c' :
  heap s' = <[a := c']> (heap s) -> (forall b, b <> a -> sent_of s' b = sent_of s b) ->
  clients_of s' = <[a := client_of s' a c']> (clients_of s).
Proof.
  intros Hh Hs. apply map_eq. intros b. rewrite clients_of_lookup, Hh. destruct (decide (b = a)) as [->|Hne].
  - by rewrite !lookup_insert_eq.
  - rewrite !lookup_insert_ne by done. rewrite clients_of_lookup. unfold client_of. by rewrite Hs.
Qed.

Lemma clients_of_delete s s' a :
  heap s' = delete a (heap s) -> (forall b, b <> a -> sent_of s' b = sent_of s b) ->
  clients_of s' = delete a (clients_of s).
Proof.
  intros Hh Hs. apply map_eq. intros b. rewrite clients_of_lookup, Hh. destruct (decide (b = a)) as [->|Hne].
  - by rewrite !lookup_delete_eq.
  - rewrite !lookup_delete_ne by done. rewrite clients_of_lookup. unfold client_of. by rewrite Hs.
Qed.

(** ** The loop is the machine *)

Section simulation.
Context `{O : Oracle} `{!OracleLaws O} (opts : ServerOptions).
Hypothesis Hdbs : num_databases opts <= Z.of_nat kNumDatabases.
Implicit Types (s : Server) (a : nat) (c : Connection) (ws : list WriteRes).

(** Connection [a] is closed and nothing else has changed. *)
Record gone N s a s' : Prop := {
  gone_ok : srv_ok anything N s';
  gone_rest : same_rest s s';
  gone_stats : stats_ s' = clients (fun n => n - 1) (stats_ s);
  gone_heap : heap s' = delete a (heap s);
  gone_sent : forall b, b <> a -> sent_of s' b = sent_of s b
}.

Lemma CloseConn_gone N s a c :
  srv_ok anything N s -> heap s !! a = Some c -> exists s', CloseConn a s = Ok tt s' /\ gone N s a s'.
Proof.
  intros H Hc. destruct (CloseConn_ok anything N s a c H Hc) as (s' & E & H' & Hr & Hs & Hh & Hco).
  exists s'. split; [done|]. split; try done; [|intros b _; unfold sent_of; by rewrite Hs].
  destruct (ok_heap _ _ _ H _ _ Hc) as [Hf _]. pose proof (ok_count _ _ _ H') as E1. pose proof (ok_count _ _ _ H) as E2.
  rewrite Hco in E1. rewrite <- (insert_delete_id (conns_ s) (fd c) a Hf) in E2.
  rewrite map_size_insert_None in E2 by apply lookup_delete_eq. apply clients_eq; [apply Hr|]. lia.
Qed.

Lemma gone_abs N n s a s' : gone N s a s' -> abs n s' = m_leave a (abs n s).
Proof.
  intros [_ [] Hst Hh Hs]. unfold abs, m_leave. cbn. rewrite (clients_of_delete s s' a Hh Hs). congruence.
Qed.

Lemma protocol_error_gone N ws s a c :
  srv_ok anything N s -> heap s !! a = Some c -> soft_writes ws -> complete_writes ws ->
  exists s', protocol_error a ws s = Ok tt s' /\ gone N s a s'.
Proof.
  intros H Hc Hs Hw. unfold protocol_error. rewrite (sbind_run _ _ _ _ _ (conn_run _ _ _ Hc)).
  set (c1 := with_output _ c). erewrite sbind_run by done. set (s1 := set_heap _ _).
  assert (Hc1 : heap s1 !! a = Some c1) by (cbn; by rewrite lookup_insert_eq).
  assert (H1 : srv_ok anything N s1) by (by apply (ok_assign anything N s a c)).
  pose proof (OnWritable_ok anything N ws s1 a c1 H1 Hc1) as W. unfold write_post in W. unfold mbind, SM_bind.
  destruct (OnWritable a ws s1) as [[] s2|u|]; [|done|done].
  destruct W as (H2 & Hr & [(c2 & Wr)|(Hn & _)]); [|done]. pose proof (wr_heap _ _ _ _ _ Wr) as Hh2.
  destruct (CloseConn_gone N s2 a c2 H2) as (s3 & E3 & [H3 Hr3 Hst Hh Hse]); [by rewrite Hh2, lookup_insert_eq|].
  exists s3. split; [done|]. split; [done| | | |].
  - etrans; [|exact Hr3]. destruct Hr. by split.
  - rewrite Hst. by rewrite (written_stats N s1 a c1 s2 c2 H1 H2 Hr Wr).
  - rewrite Hh, Hh2. cbn. by rewrite !delete_insert_eq.
  - intros b Hb. rewrite Hse by done. by rewrite (wr_others _ _ _ _ _ Wr).
Qed.

(** What the reading loop does. *)
Lemma read_loop_view N ws reads s a c parsed :
  srv_ok anything N s -> heap s !! a = Some c -> soft_writes ws -> complete_writes ws -> complete_reads reads ->
  match input_of (parser c) reads with
  | Commands cs => read_loop a reads ws parsed s =
      Ok (Some (parsed ++ cs)) (set_heap (<[a := with_parser (parser_after (parser c) reads) c]> (heap s)) s)
  | _ => exists s', read_loop a reads ws parsed s = Ok None s' /\ gone N s a s'
  end.
Proof.
  intros H Hc Hs Hw. revert s c parsed H Hc. induction reads as [|x reads IH]; intros s c parsed H Hc Hr.
  { by apply Exists_nil in Hr. }
  assert (Same : s = set_heap (<[a := with_parser (parser c) c]> (heap s)) s).
  { rewrite insert_id; [by destruct s|]. rewrite Hc. by destruct c. }
  assert (Close : exists s', (CloseConn a ≫= fun _ => mret (M := SM) (@None (list (list bytes)))) s = Ok None s' /\ gone N s a s').
  { destruct (CloseConn_gone N s a c H Hc) as (s' & E & G). exists s'. split; [|done]. by rewrite (sbind_run _ _ _ _ _ E). }
  destruct x as [[|x b]| | |]; cbn [read_loop input_of parser_after]; [done| | | |done].
  - set (data := x :: b) in *. rewrite (sbind_run _ _ _ _ _ (conn_run _ _ _ Hc)).
    destruct (Feed_some data (parser c)) as (cmds & p & Ef). rewrite Ef in *. erewrite sbind_run by done.
    set (s1 := set_heap _ _). assert (H1 : srv_ok anything N s1) by (by apply (ok_assign anything N s a c)).
    assert (Hc1 : heap s1 !! a = Some (with_parser p c)) by (cbn; by rewrite lookup_insert_eq).
    assert (Gone : forall s2, gone N s1 a s2 -> gone N s a s2).
    { intros s2 [? [] Hst Hh Hse]. split; try done. rewrite Hh. cbn. by rewrite delete_insert_eq. }
    destruct (has_error p); cbn [orb].
    + destruct (protocol_error_gone N ws s1 a _ H1 Hc1 Hs Hw) as (s2 & E2 & G2). exists s2.
      rewrite (sbind_run _ _ _ _ _ E2). split; [done|by apply Gone].
    + destruct (zlen data <? kReadBuf) eqn:El; [done|].
      specialize (IH s1 (with_parser p c) (parsed ++ cmds) H1 Hc1). cbn [parser with_parser] in IH.
      destruct (input_of p reads) as [cs| |].
      * rewrite IH by (apply Exists_cons in Hr as [?|?]; [lia|done]). rewrite app_assoc. f_equal.
        cbn. unfold set_heap. cbn. by rewrite insert_insert_eq.
      * destruct IH as (s2 & E2 & G2); [apply Exists_cons in Hr as [?|?]; [lia|done]|]. exists s2. split; [done|by apply Gone].
      * destruct IH as (s2 & E2 & G2); [apply Exists_cons in Hr as [?|?]; [lia|done]|]. exists s2. split; [done|by apply Gone].
  - rewrite app_nil_r, <- Same. done.
  - apply IH; [done|done|]. by apply Exists_cons in Hr as [?|?].
Qed.

(** *** One event *)

(** What the environment respects: descriptors not in use, answers that end each
    loop, no failing write, and no event for a connection that is gone.  A signal
    ends the loop and is no event of the machine. *)
Definition polite_event s (ev : Event) : Prop :=
  match ev with
  | EvSignal => False
  | EvListen acc => accepts_ok (dom (conns_ s)) acc /\ complete_accepts acc
  | EvNull => True
  | EvConn a EVFILT_READ reads ws => soft_writes ws /\ complete_writes ws /\ complete_reads reads
  | EvConn a EVFILT_WRITE _ ws => soft_writes ws /\ complete_writes ws /\ is_Some (heap s !! a)
  end.

(** The state [s'] of the loop stands for [m], from a state with budget [N]. *)
Definition stands_for N (m : Machine) s s' : Prop :=
  abs (m_args m) s' = m /\ srv_ok anything (N + m_args m) s' /\ quit_ s' = quit_ s.

Lemma run_commands_nonempty a cmds s : run_commands opts a cmds s = run_commands opts a (nonempty cmds) s.
Proof.
  revert s. induction cmds as [|argv cmds IH]; intros s; [done|]. unfold nonempty. rewrite filter_cons.
  cbn [run_commands]. case_decide as E.
  - cbn [run_commands]. rewrite bool_decide_eq_false_2 by done. unfold mbind, SM_bind.
    destruct (dispatch opts a argv s) as [[] s1|u|]; [|done|done]. destruct (conn a s1) as [c s2|u|]; [|done|done].
    unfold ask. destruct (quit_requested (state c)); [done|]. destruct (shutdown_requested (stats_ s2)); [done|apply IH].
  - rewrite bool_decide_eq_true_2 by done. apply IH.
Qed.

Lemma args_of_nonempty cmds : args_of (nonempty cmds) = args_of cmds.
Proof.
  induction cmds as [|argv cmds IH]; [done|]. unfold nonempty. rewrite filter_cons.
  fold (nonempty cmds). case_decide as E; [by rewrite !args_of_cons, IH|]. subst argv. rewrite args_of_cons, IH. done.
Qed.

Lemma accept_sim N n acc s m :
  srv_ok anything (N + n) s -> accepts_ok (dom (conns_ s)) acc -> complete_accepts acc ->
  m_run opts (arrivals acc) (abs n s) = Some m -> exists s', OnAccept acc s = Ok tt s' /\ stands_for N m s s'.
Proof.
  revert s. induction acc as [|x acc IH]; intros s H Hacc Hc E; [by apply Exists_nil in Hc|].
  destruct x as [f| | |]; cbn [arrivals m_run m_step mbind option_bind] in E.
  - destruct Hacc as (Hf & Hnew%not_elem_of_dom & Hacc). rewrite (OnAccept_step anything (N + n)) by done.
    apply Exists_cons in Hc as [[?|?]|Hc]; [done|done|].
    destruct (IH (accepted s f)) as (s' & E' & Hab & Hok & Hq); [by apply accepted_ok| |done| |by exists s'].
    { unfold accepted at 1. cbn [conns_]. by rewrite dom_insert_L. }
    rewrite <- E. f_equal. unfold abs, m_connect. cbn. f_equal.
    rewrite (clients_of_insert s (accepted s f) (next_addr s) _ eq_refl).
    + f_equal. unfold client_of, sent_of. cbn. by rewrite lookup_insert_eq.
    + intros b Hb. unfold sent_of. cbn. by rewrite lookup_insert_ne.
  - injection E as <-. exists s. by split.
  - apply IH; [done|done| |done]. by apply Exists_cons in Hc as [[?|?]|?].
  - injection E as <-. exists s. by split.
Qed.

Lemma view_abs n s a c : view s a c = client_world (abs n s) (client_of s a c).
Proof. done. Qed.

Lemma serve_sim N n s a c p cs ws w m :
  srv_ok anything (N + n) s -> heap s !! a = Some c -> soft_writes ws -> complete_writes ws ->
  N + n + args_of cs <= LLONG_MAX -> serve opts (nonempty cs) (view s a c) = Done tt w -> going w ->
  m = m_serve a p (args_of cs) w (abs n s) ->
  exists s', (seen ← run_commands opts a cs; returned ← after_commands a seen ws;
      if returned : bool then mret tt else flush a ws) (set_heap (<[a := with_parser p c]> (heap s)) s) = Ok tt s' /\
    stands_for N m s s'.
Proof.
  intros H Hc Hs Hw HN Hv Hg ->. set (s1 := set_heap _ s).
  assert (H1 : srv_ok anything (N + n) s1) by (by apply (ok_assign anything (N + n) s a c)).
  assert (Hc1 : heap s1 !! a = Some (with_parser p c)) by (cbn; by rewrite lookup_insert_eq).
  destruct (commands_view opts Hdbs (N + n) s1 a _ (nonempty cs) ws w H1 Hc1 Hs Hw) as
    (s' & c' & E & H' & Hh & Hp & Hv' & [Hn Hi Hq Hse]); [by rewrite args_of_nonempty| |done|done|].
  { apply Forall_forall. intros argv Hin. by apply list_elem_of_filter in Hin as [? _]. }
  rewrite args_of_nonempty in H'. exists s'. split.
  - unfold mbind at 1, SM_bind at 1. by rewrite run_commands_nonempty.
  - unfold stands_for. cbn [m_args m_serve abs]. split_and!; [|by rewrite Z.add_assoc|done].
    cbn in Hh. rewrite insert_insert_eq in Hh. unfold abs, m_serve. cbn.
    rewrite (clients_of_insert s s' a c' Hh Hse). rewrite <- Hv'. unfold client_of. rewrite Hp. cbn. cbn in Hn, Hi. by rewrite Hn, Hi.
Qed.

Lemma receive_sim N n s a reads ws m :
  srv_ok anything (N + n) s -> soft_writes ws -> complete_writes ws -> complete_reads reads ->
  m_step opts (Receive a reads) (abs n s) = Some m -> N + m_args m <= LLONG_MAX ->
  exists s', handle_event opts (EvConn a EVFILT_READ reads ws) s = Ok tt s' /\ stands_for N m s s'.
Proof.
  intros H Hs Hw Hr (cl & Hcl & E)%bind_Some HN. cbn [abs m_clients] in Hcl. rewrite clients_of_lookup in Hcl.
  destruct (heap s !! a) as [c|] eqn:Hc; [|done]. injection Hcl as <-. cbn [cl_in client_of] in E.
  cbn [handle_event]. rewrite (sbind_run _ _ _ _ _ (conn_run _ _ _ Hc)). erewrite sbind_run by done.
  destruct (ok_heap _ _ _ H _ _ Hc) as [-> _]. unfold OnReadable.
  pose proof (read_loop_view (N + n) ws reads s a c [] H Hc Hs Hw Hr) as R.
  assert (Gone : (exists s', read_loop a reads ws [] s = Ok None s' /\ gone (N + n) s a s') -> m_leave a (abs n s) = m ->
    exists s', (read_loop a reads ws [] ≫= fun cmds => match cmds with None => mret tt | Some cmds =>
      seen ← run_commands opts a cmds; returned ← after_commands a seen ws;
      if returned : bool then mret tt else flush a ws end) s = Ok tt s' /\ stands_for N m s s').
  { intros (s' & E' & G) <-. exists s'. rewrite (sbind_run _ _ _ _ _ E'). split; [done|]. split; [by eapply gone_abs|].
    destruct G as [? [] _ _ _]. done. }
  destruct (input_of (parser c) reads) as [cs| |]; [|by injection E as E; apply Gone..].
  rewrite (sbind_run _ _ _ _ _ R). rewrite <- view_abs in E.
  destruct (serve opts (nonempty cs) (view s a c)) as [[] w|u] eqn:Ev; [|done]. case_decide as Hg; [|done].
  injection E as <-. cbn [m_args m_serve abs] in HN. apply (serve_sim N n s a c _ cs ws w); try done. lia.
Qed.

Lemma event_sim N n s ev m :
  srv_ok anything (N + n) s -> polite_event s ev -> m_run opts (action_of ev) (abs n s) = Some m ->
  N + m_args m <= LLONG_MAX -> exists s', handle_event opts ev s = Ok tt s' /\ stands_for N m s s'.
Proof.
  intros H Hp E HN. destruct ev as [|acc| |a [] reads ws]; cbn [action_of] in E.
  - done.
  - destruct Hp. by eapply accept_sim.
  - injection E as <-. by exists s.
  - destruct Hp as (Hs & Hw & Hr). cbn [m_run] in E. apply bind_Some in E as (m1 & E & [= <-]). by eapply receive_sim.
  - destruct Hp as (Hs & Hw & c & Hc). injection E as <-. cbn [handle_event].
    rewrite (sbind_run _ _ _ _ _ (conn_run _ _ _ Hc)). erewrite sbind_run by done.
    destruct (ok_heap _ _ _ H _ _ Hc) as [-> _].
    pose proof (OnWritable_ok anything (N + n) ws s a c H Hc) as W. unfold write_post in W.
    destruct (OnWritable a ws s) as [[] s'|u|]; [|done|done].
    destruct W as (H' & Hr & [(c' & Wr)|(Hn & _)]); [|done]. exists s'. split; [done|].
    pose proof (written_view (N + n) s a c s' c' H H' Hr Wr) as Hv. pose proof (written_kept s a c s' c' Hr Wr) as [Hn Hi Hq Hse].
    split; [|done]. unfold abs. rewrite (clients_of_insert s s' a c'); [|apply Wr|done].
    rewrite insert_id; [by injection Hv; intros; cbn; congruence|]. rewrite clients_of_lookup, Hc. cbn. f_equal.
    unfold client_of. rewrite (wr_state _ _ _ _ _ Wr), (wr_parser _ _ _ _ _ Wr), (wr_bytes _ _ _ _ _ Wr). done.
Qed.

(** *** The loop *)

(** The conditions on each event when its turn comes, and [K] after the last. *)
Fixpoint polite_events (evs : list Event) s (K : Server -> Prop) : Prop :=
  match evs with
  | [] => K s
  | ev :: r => polite_event s ev /\ forall s', handle_event opts ev s = Ok tt s' -> polite_events r s' K
  end.

Fixpoint polite_polls (polls : list Poll) s : Prop :=
  match polls with
  | [] => True
  | PIntr :: r => polite_polls r s
  | PFail :: _ => False
  | PEvents evs :: r =>
      polite_events evs s (fun s1 => forall s2, PeriodicTasks s1 = Ok tt s2 -> polite_polls r s2)
  end.

Lemma events_sim N evs : forall n s m K,
  srv_ok anything (N + n) s -> polite_events evs s K -> m_run opts (flat_map action_of evs) (abs n s) = Some m ->
  N + m_args m <= LLONG_MAX -> exists s', handle_events opts evs s = Ok tt s' /\ stands_for N m s s' /\ K s'.
Proof.
  induction evs as [|ev evs IH]; intros n s m K H Hp E HN; [injection E as <-; by exists s|].
  cbn [flat_map] in E. rewrite m_run_app in E. apply bind_Some in E as (m1 & E1 & E). destruct Hp as [Hp Hk].
  pose proof (m_run_args _ _ _ _ E) as Hle.
  destruct (event_sim N n s ev m1 H Hp E1 ltac:(lia)) as (s1 & Es & Hab & H1 & Hq).
  destruct (IH (m_args m1) s1 m K H1 (Hk s1 Es)) as (s' & E' & (Hab' & H' & Hq') & HK); [by rewrite Hab|done|].
  exists s'. cbn [handle_events]. rewrite (sbind_run _ _ _ _ _ Es). split; [done|]. split; [|done]. unfold stands_for. split_and!; [done|done|congruence].
Qed.

Lemma expire_sim N n s :
  srv_ok anything (N + n) s -> exists s', PeriodicTasks s = Ok tt s' /\ stands_for N (m_expire (abs n s)) s s'.
Proof.
  intros H. destruct (PeriodicTasks_safe anything (N + n) s H) as (s' & E & H'). exists s'. split; [done|].
  by injection E as <-.
Qed.

Lemma polls_sim N polls rest : forall n s m,
  srv_ok anything (N + n) s -> quit_ s = false -> polite_polls polls s ->
  m_run opts (actions_of polls) (abs n s) = Some m -> N + m_args m <= LLONG_MAX ->
  exists s', Run opts (polls ++ rest) s = Run opts rest s' /\ stands_for N m s s'.
Proof.
  induction polls as [|poll polls IH]; intros n s m H Hq Hp E HN; [injection E as <-; by exists s|].
  change (actions_of (poll :: polls)) with
    (match poll with PEvents evs => flat_map action_of evs ++ [Tick] | _ => [] end ++ actions_of polls) in E.
  cbn [app Run]. erewrite sbind_run by done. rewrite Hq.
  destruct poll as [evs| |]; [|by eapply IH|done]. rewrite m_run_app in E. apply bind_Some in E as (m2 & E2 & E).
  rewrite m_run_app in E2. apply bind_Some in E2 as (m1 & E1 & [= <-]).
  pose proof (m_run_args _ _ _ _ E) as Hle. change (m_args (m_expire m1)) with (m_args m1) in Hle.
  destruct (events_sim N evs n s m1 _ H Hp E1 ltac:(lia)) as (s1 & Es & (Hab & H1 & Hq1) & K).
  destruct (expire_sim N (m_args m1) s1 H1) as (s2 & Et & Hab2 & H2 & Hq2). rewrite Hab in *.
  destruct (IH (m_args m1) s2 m H2) as (s' & E' & Hab' & H' & Hq'); [congruence|by apply K| |done|].
  { rewrite <- E. by rewrite <- Hab2. }
  exists s'. rewrite (sbind_run _ _ _ _ _ Es), (sbind_run _ _ _ _ _ Et). split; [done|].
  unfold stands_for. split_and!; [done|done|congruence].
Qed.

(** C6: The event loop serves its clients as a machine that knows nothing of
    descriptors, buffers and readiness.  Take any number of clients and any
    interleaving of their events: connections, reads in pieces of any size that
    may end within a request, hangups, bytes that do not parse, and sockets that
    take replies in any pieces.  In the machine a client's complete requests are
    executed at once on the shared store, in the order of the reads.  When the
    machine can take the corresponding steps, the loop takes them too, without
    undefined behaviour and without getting stuck.  Store, statistics and snapshot
    state, and for each client its state, its unfinished input and the replies
    sent or on their way, are then those of the machine, and the loop goes on from
    there. *)
Theorem loop_refines_machine N polls rest s m :
  srv_ok anything N s -> quit_ s = false -> polite_polls polls s ->
  m_run opts (actions_of polls) (abs 0 s) = Some m -> N + m_args m <= LLONG_MAX ->
  exists s', Run opts (polls ++ rest) s = Run opts rest s' /\ abs (m_args m) s' = m /\
    srv_ok anything (N + m_args m) s' /\ quit_ s' = false.
Proof.
  intros H Hq Hp E HN. destruct (polls_sim N polls rest 0 s m) as (s' & Er & Hab & Hok & Hq'); [by rewrite Z.add_0_r|done..|].
  exists s'. split_and!; [done..|congruence].
Qed.
End simulation.

(** ** Example *)

#[local] Existing Instance ticking.
#[local] Existing Instance ticking_laws.

(** Two clients; the second asks for the key before and after the first, whose
    request comes in two pieces, has set it.  Then the first hangs up. *)
Definition two_clients : list Poll :=
  [PEvents [EvListen [AFd 5; AIntr; AFd 6; AAgain]];
   PEvents [EvConn 0 EVFILT_READ [RData (lit "SET k")] [WAgain]; EvConn 1 EVFILT_READ [RIntr; RData (line "GET k")] [WSent 2; WAgain]];
   PIntr;
   PEvents [EvConn 1 EVFILT_WRITE [] [WSent 3; WAgain]; EvConn 0 EVFILT_READ [RData (line " v")] [WAgain]];
   PEvents [EvConn 1 EVFILT_READ [RData (line "GET k")] [WAgain]; EvConn 0 EVFILT_READ [RData []] [WAgain]]].

(** Who is there and what they have been sent. *)
Definition transcript (m : Machine) : list (nat * bytes) := map_to_list (cl_out <$> m_clients m).

Ltac polite_script :=
  split_and!; [by repeat constructor|apply Exists_exists; exists WAgain; split; [by repeat constructor|by right]|].
Ltac polite_read := split; [polite_script; by repeat (apply Exists_cons; first [left; by vm_compute|right])|run_event].

Lemma two_clients_polite : polite_polls default_options two_clients server0.
Proof.
  split; [split; [cbn; split_and!; try done; try lia; set_solver|]|].
  { apply Exists_exists. exists AAgain. split; [by repeat constructor|by left]. }
  run_event. run_event. do 2 polite_read. run_event.
  split; [polite_script; by eexists|run_event]. polite_read. run_event. do 2 polite_read. run_event. done.
Qed.

Lemma two_clients_run :
  (transcript <$> m_run default_options (actions_of two_clients) (abs 0 server0)) =
    Some [(1%nat, lit "$-1" ++ crlf ++ lit "$1" ++ crlf ++ lit "v" ++ crlf)] /\
  (m_args <$> m_run default_options (actions_of two_clients) (abs 0 server0)) = Some 7.
Proof. split; by vm_compute. Qed.

Lemma server0_ok : srv_ok anything 0 server0.
Proof. by apply fresh_ok. Qed.

Lemma loop_refines_machine_witness :
  exists s' m, Run default_options (two_clients ++ [PFail]) server0 = Run default_options [PFail] s' /\ abs (m_args m) s' = m /\
    transcript m = [(1%nat, lit "$-1" ++ crlf ++ lit "$1" ++ crlf ++ lit "v" ++ crlf)].
Proof.
  destruct two_clients_run as [(m & E & Ht)%fmap_Some (m' & E' & Ha)%fmap_Some].
  assert (m' = m) as -> by (apply Some_inj; rewrite <- E, <- E'; reflexivity).
  destruct (loop_refines_machine default_options ltac:(by vm_compute) 0 two_clients [PFail] server0 m) as (s' & Er & Hab & _).
  - exact server0_ok.
  - reflexivity.
  - exact two_clients_polite.
  - exact E.
  - rewrite <- Ha. vm_compute. discriminate.
  - exists s', m. split; [exact Er|]. split; [exact Hab|symmetry; exact Ht].
Defined.
